(* ===== verification/_CoqProject ===== *)
-Q . S2P
Prelude.v
GoStrings.v
GoErrors.v
GoTime.v
GoFlag.v
Encoding.v
NetIP.v
Json.v
Subnet.v
WgKernel.v
MemTun.v
Framing.v
Creds.v
RoundRobin.v
Session.v
Server.v
Proxy.v
Buffers.v
Link.v
Lossy.v
Pump.v
Tunnel.v
WgConf.v
WgShare.v
WgAdmin.v
Vk.v
HostSetup.v
KernelBackend.v
Yandex.v
Providers.v
Attempt.v
QuickConf.v
Chrome.v
Cli.v
CliAdmin.v
Logging.v
Args.v
VpnClient.v
Url.v
Utls.v
Profiles.v
Cdp.v
VkCdp.v
CdpSession.v
CdpRun.v
GoFiles.v
Extract.v
ExtractRun.v
