(* ===== verification/Prelude.v ===== *)
(** * wgturn-core: a verification library

    wgturn-core carries WireGuard traffic through TURN servers.  A client
    ([pkg/wgturn]) listens on a local UDP port, spreads what it receives over
    many streams, each a TURN allocation obtained with credentials of a call
    service, and a server ([pkg/wgturnsrv]) gathers the streams of a client
    into one connection to a WireGuard backend.  Around them: an embedded
    WireGuard device ([pkg/wgkernel]), the configuration file ([pkg/wgconf]),
    share URLs ([pkg/wgshare]), the administration of a server's peers
    ([pkg/wgadmin]) and the command line ([cmd/wgturn-cli]).  The development
    translates these packages from Go, definition by definition, and proves
    what makes them correct.  Names are the source's; a comment says where two
    differ.

    ** Conventions

    A Go string or byte slice is a list of bytes ([bytes]); literals are
    strings of [go_scope].  A pair of a value and an error is a [result], the
    error an inductive type whose constructors are the places the code fails
    at; where the program itself inspects an error it is its text with the
    sentinels [errors.Is] finds in it (GoErrors).  [let*], [guard] and [rwrap]
    follow the early returns of the code.  Integers are [Z] with the
    wrap-around written where the code can reach it ([wrap_int64] and the
    like).  What is not in the repository (sockets, TURN and DTLS, the
    WireGuard device, X25519, HTTP, Chrome, the clock, the random source)
    is an argument: a function, a record of answers, or a
    sequence of events; hypotheses about it are named and each has an
    instance in a witness.

    ** The files

    - The Go standard library, as far as the program uses it: GoStrings
      (strings, strconv, net.SplitHostPort, bufio.Scanner's lines), GoErrors,
      GoTime (time.ParseDuration), Encoding (hex, base64), NetIP (net/netip),
      Json (encoding/json, with a printer it inverts), Url (the host of a
      net/url URL), GoFlag (package flag: values, spellings and Parse).  This
      file holds notations, machine integers, tactics and lemmas all share; RoundRobin counts what cyclic schedules visit.
    - Framing: internal/framing, the 17-byte preamble that names a session and
      a stream, and the DTLS roles.
    - Creds: internal/creds, the cache of TURN credentials per group of
      streams, which implements an abstract table of what was fetched and until
      when it may be served.
    - Session, Server: pkg/wgturnsrv/session.go and server.go.  A session is a
      record; the server's goroutines (accept loop, handlers, backend readers,
      Stop) are program counters, and a relation on the shared state and the
      pool of threads lets them interleave at every lock and channel.
      KernelBackend: backend.go and backend_kernel.go, the bridge to an
      in-process WireGuard device, in the same style.
    - Proxy: internal/proxy, the hub's scheduler, a stream's attempts, pumps,
      backoff and watchdog.  Buffers: the pool of packet arrays (pool.go) and
      who holds one; the values of Proxy are what the arrays hold.  Pump: the
      goroutines of one pumpRaw or pumpDTLS, with deadlines and cancellation.
      Attempt: runOnce with what it opens and closes, over any provider.
      Link: a client's hub and a server's session joined by their streams.
      Lossy: the same over a network that loses and reorders, as steps.
      Tunnel: pkg/wgturn, validation, defaults and the life cycle over the
      hub.
    - Providers: pkg/wgturn/provider.go and protector.go, the options of the
      providers and of the kernel, and provider/stub.  Vk, Yandex: the
      credential providers of pkg/wgturn/provider: VK's five-step handshake
      with captchas, Telemost's HTTP and WebSocket exchange.  Utls, Profiles:
      the transport and the headers VK's requests go out with.  Cdp, CdpSession: provider/vk/captchasolve, the solver that
      drives Chrome, as the commands it sends and as the session that pairs
      commands with replies; CdpRun runs the commands over the session; VkCdp
      puts the solver in the provider's place.
      Extract, ExtractRun: captchasolve/embedded, the unpacking of the bundled
      browser, on the file system of GoFiles (path/filepath and the calls of
      package os, other processes about).
    - WgKernel: pkg/wgkernel, the device's configuration text, life cycle and
      statistics.  MemTun: tun.go's pair of queues.
    - WgConf: pkg/wgconf/parse.go.  WgShare: pkg/wgshare.  Subnet, WgAdmin:
      pkg/wgadmin, address allocation, the server's file and its peers.
    - HostSetup, QuickConf, Chrome, Cli, CliAdmin: cmd/wgturn-cli.  HostSetup
      runs [ip] with rollback (hostsetup.go) and turns a file into a kernel
      configuration (connect.go); QuickConf is the printed wg-quick file;
      Chrome starts the browser (chrome.go); Cli has buildConfig and the
      commands connect, connect-url, serve and the hub-only mode, in a monad
      over the process with its stack of deferred calls; CliAdmin has
      provision-url and revoke-url; Args is the switch of main with every
      command's flags, Logging the loggers (pkg/wgturn/logger.go), statistics
      lines and version.go.  VpnClient: examples/vpn-client.

    They meet as in the program: Args reads a command line into a command of
    Cli or CliAdmin; Cli runs Tunnel.New and Start, WgKernel.New
    and Start, HostSetup.setupHostIface and Chrome.launchChrome on
    configurations that WgConf.Parse and WgShare.Parse yield; CliAdmin calls
    WgAdmin.Provision and WgShare.Encode; Tunnel builds Proxy's hub, whose
    streams use Creds and Framing (in Attempt, with the provider behind the
    cache); VkCdp is Vk's provider whose solver is Cdp's; Server uses Session
    and Framing; Link composes Proxy, Framing, Server and Session, as does
    Lossy; Creds fetches through the interface that Providers states and the
    stub, Vk and Yandex implement.

    ** What the theorems show

    - No resource is lost: every session's backend is closed once and Stop
      leaves nothing behind (Server); the bridge is held by one connection, and
      a generation of receive functions ends when the bind closes
      (KernelBackend); devices are closed and a kernel starts at most once
      (WgKernel); a host is configured completely or restored (HostSetup); a command gives back all it took, in reverse order
      (Cli); an attempt closes what it opened, the last first (Attempt); a tab
      that was opened is closed, once and last (VkCdp); a connection of an HTTPS exchange is
      closed once (Utls); an archive is unpacked
      where it belongs or leaves nothing behind (Extract).
    - Protocols: the preamble and the share URL are read back as written; the
      kernel's text, read by an independent reader, is the configuration; the
      wg-quick file and the share URL of a profile that names its prefixes
      configure the same kernel; a rewritten server file means the same;
      credentials come only from complete handshakes, each request carrying
      what the answers before it gave (Vk); replies go to their
      calls (CdpSession) and a captcha's token is the one VK's check gave
      (CdpRun); Chrome is sent to VK only, and each of a fetch's captchas is
      answered in its next request (Cdp, VkCdp).
    - Scheduling and caching: packets are queued, dropped or counted (Proxy);
      the shared arrays are never overwritten while they are in use
      (Buffers); a pump whose context ends comes to rest (Pump); dispatch is
      even; credentials served are those fetched for the group
      and still good by the margin the service's lifetime leaves (Creds), and the streams of a group
      share one fetch (Attempt).
    - From end to end: a packet handed to the hub reaches the backend and the
      answer returns (Link); over a lossy network none is delivered twice or
      made up, and each is accounted for (Lossy); a command line means what
      its flags say and, on a machine that refuses nothing, brings up just that
      (Args).
    - Administration, for names that survive the file's comments ([plain_name]):
      no two peers share an address or a name; a new client
      gets the lowest free address; every URL printed belongs to a peer.
    - Configurations: what the parsers accept is well formed, and what can
      still be refused later, exactly.
    Lemmas at the ends of the files show where code and comments part, or
    where the code does not do what it means to.

    ** Fuel and bounds

    Loops with no structural measure run on fuel that is shown to be enough:
    the JSON reader on the length of its input ([parse_print]), the search of
    a Telemost frame on the depth of the document ([frame_search]), the wait
    for Chrome on one turn per tick until the deadline
    ([waitChromeReady_ends]), the wait for the captcha's checkbox likewise
    ([checkbox_enough]); the third step of VK's handshake has the code's three
    tries.  Queues have the code's capacities (256 packets for the bridge, 512 for a
    stream, what the memory TUN is made with).  The numbers of a DevTools session's
    calls are unbounded integers: 2^63 calls do not occur in one.

    ** Not modelled

    The decoding of zip archives, the HTTP and WebSocket libraries, uTLS and
    the decoders of bodies are arguments; the build variants of the bundled
    browser are an argument too.  Usage texts and the log lines inside the
    components are left out.  The TURN client and the DTLS handshake of a
    stream are outcomes of an attempt; their network is that of Link, where nothing is lost,
    or that of Lossy, where records are lost and reordered but not repeated or
    made up.
    The script evaluated in the solver's page is opaque.  Of a failed
    standard-library call the text is kept only where the program looks at
    it.

    What is left of the source beyond that is package documentation, build
    variants that embed an archive or none, the lists of constants a draw is
    made from, and helpers nothing calls ([grepTurnURL]). *)

From stdpp Require Export base tactics list gmap.
From Stdlib Require Export ZArith Lia.
From Stdlib.Strings Require Export Byte.

#[global] Set Default Goal Selector "!".

(** ** Notations *)

Declare Scope go_scope.
Delimit Scope go_scope with go.

(** Go's [string] and [[]byte] are both sequences of 8-bit bytes. *)
Abbreviation bytes := (list Byte.byte).
Definition bytes_literal : bytes -> bytes := fun s => s.
String Notation bytes bytes_literal bytes_literal : go_scope.
#[global] Open Scope go_scope.

(** ** Results: a Go [(T, error)] pair whose error is tested at once *)

Inductive result (E A : Type) : Type :=
| Ok (a : A)
| Err (e : E).
Arguments Ok {E A} a.
Arguments Err {E A} e.

Definition rbind {E A B} (c : result E A) (k : A -> result E B) : result E B :=
  match c with Ok a => k a | Err e => Err e end.

(** [fmt.Errorf("...: %w", err)]: rewrap the error of a call. *)
Definition rwrap {E F A} (f : E -> F) (c : result E A) : result F A :=
  match c with Ok a => Ok a | Err e => Err (f e) end.

Definition is_ok {E A} (c : result E A) : bool :=
  match c with Ok _ => true | Err _ => false end.

Notation "'let*' x ':=' c 'in' k" := (rbind c (fun x => k))
  (at level 10, x pattern, c at level 100, k at level 200) : go_scope.
Notation "'guard' b 'else' e 'in' k" := (if b then k else Err e)
  (at level 10, b at level 100, e at level 100, k at level 200) : go_scope.

Fixpoint rmap {E A B} (f : A -> result E B) (l : list A) : result E (list B) :=
  match l with
  | [] => Ok []
  | x :: l => let* y := f x in let* ys := rmap f l in Ok (y :: ys)
  end.

(** ** Machine integers *)

Definition int64_min : Z := -9223372036854775808.
Definition int64_max : Z := 9223372036854775807.

(** Two's-complement truncation to [int64] (Go's [int] on a 64-bit
    platform, and [time.Duration]) and to the unsigned widths. *)
Definition wrap_int64 (z : Z) : Z :=
  ((z + 9223372036854775808) mod 18446744073709551616 - 9223372036854775808)%Z.
Definition wrap_uint64 (z : Z) : Z := (z mod 18446744073709551616)%Z.
Definition wrap_int32 (z : Z) : Z := ((z + 2147483648) mod 4294967296 - 2147483648)%Z.
Definition wrap_uint32 (z : Z) : Z := (z mod 4294967296)%Z.
Definition wrap_uint8 (z : Z) : Z := (z mod 256)%Z.
Definition wrap_uint16 (z : Z) : Z := (z mod 65536)%Z.

Definition in_int64 (z : Z) : bool := ((int64_min <=? z) && (z <=? int64_max))%Z.

(** ** Bytes *)

Definition byte_val (b : byte) : Z := Z.of_N (Byte.to_N b).

(** [byte(z)]: the conversion keeps the low eight bits. *)
Definition byte_of_Z (z : Z) : byte :=
  match Byte.of_N (Z.to_N (z mod 256)) with Some b => b | None => x00 end.

#[global] Instance byte_eq_decision : EqDecision byte := Byte.byte_eq_dec.

#[global] Instance byte_countable : Countable byte :=
  inj_countable Byte.to_N Byte.of_N Byte.of_to_N.

(** String equality, as the program's [==] on strings. *)
Fixpoint seqb (s t : bytes) : bool :=
  match s, t with
  | [], [] => true
  | a :: s, b :: t => Byte.eqb a b && seqb s t
  | _, _ => false
  end.

Infix "=s?" := seqb (at level 70, no associativity) : go_scope.

Definition mem_bytes (s : bytes) (l : list bytes) : bool := existsb (seqb s) l.

(** ** Tactics *)

(** Split the hypothesis [H : let* x := c in k = Ok y] into the run of [c]
    and the run of [k]; used to walk down the monadic definitions. *)
Ltac inv_result H :=
  repeat match type of H with
  | rbind ?c _ = _ => let E := fresh "E" in
      destruct c eqn:E; cbn [rbind] in H; [|try discriminate H]
  | rwrap _ ?c = _ => let E := fresh "E" in
      destruct c eqn:E; cbn [rwrap] in H; [|try discriminate H]
  | (if ?b then _ else _) = Ok _ => let E := fresh "E" in
      destruct b eqn:E; try discriminate H
  end.

(** Case on every boolean test of the goal. *)
Ltac case_bools :=
  repeat match goal with |- context[if ?b then _ else _] => destruct b eqn:? end.

(** Turn the boolean comparisons of the context into propositions. *)
Ltac bprop :=
  repeat match goal with
  | H : (_ && _)%bool = true |- _ => apply andb_true_iff in H as [? ?]
  | H : (_ && _)%bool = false |- _ => apply andb_false_iff in H
  | H : (_ || _)%bool = false |- _ => apply orb_false_iff in H as [? ?]
  | H : (_ || _)%bool = true |- _ => apply orb_true_iff in H
  | H : negb _ = true |- _ => apply negb_true_iff in H
  | H : negb _ = false |- _ => apply negb_false_iff in H
  | H : (_ <=? _)%Z = true |- _ => apply Z.leb_le in H
  | H : (_ <=? _)%Z = false |- _ => apply Z.leb_gt in H
  | H : (_ <? _)%Z = true |- _ => apply Z.ltb_lt in H
  | H : (_ <? _)%Z = false |- _ => apply Z.ltb_ge in H
  | H : (_ =? _)%Z = true |- _ => apply Z.eqb_eq in H
  | H : (_ =? _)%Z = false |- _ => apply Z.eqb_neq in H
  | H : (_ =? _)%nat = true |- _ => apply Nat.eqb_eq in H
  | H : (_ =? _)%nat = false |- _ => apply Nat.eqb_neq in H
  | H : (_ <? _)%nat = true |- _ => apply Nat.ltb_lt in H
  | H : (_ <? _)%nat = false |- _ => apply Nat.ltb_ge in H
  | H : (_ <=? _)%nat = true |- _ => apply Nat.leb_le in H
  | H : (_ <=? _)%nat = false |- _ => apply Nat.leb_gt in H
  end.

(** ** Lemmas on results *)

Lemma rmap_ok_Forall2 {E A B} (f : A -> result E B) l ys :
  rmap f l = Ok ys <-> Forall2 (fun x y => f x = Ok y) l ys.
Proof.
  revert ys; induction l as [|x l IH]; intros ys; cbn; split; intros H.
  - injection H as <-. constructor.
  - inversion H; reflexivity.
  - inv_result H. injection H as <-. constructor; [done|]. by apply IH.
  - inversion H as [|? y ? ys' Hx Hl]; subst. rewrite Hx; cbn.
    apply IH in Hl. by rewrite Hl.
Qed.

Lemma rmap_fmap_ok {E A B} (f : A -> result E B) (g : B -> A) (ys : list B) :
  (forall y, y ∈ ys -> f (g y) = Ok y) -> rmap f (map g ys) = Ok ys.
Proof.
  intros H. apply rmap_ok_Forall2. induction ys as [|y ys IH]; cbn; [constructor|].
  constructor; [apply H; set_solver|]. apply IH. intros; apply H; set_solver.
Qed.

(** ** Lemmas on bytes and strings *)

Lemma byte_eqb_refl b : Byte.eqb b b = true.
Proof. by apply Byte.byte_dec_lb. Qed.

Lemma byte_eqb_spec a b : reflect (a = b) (Byte.eqb a b).
Proof.
  destruct (Byte.eqb a b) eqn:E; constructor.
  - by apply Byte.byte_dec_bl.
  - by apply Byte.eqb_false.
Qed.

Lemma byte_eqb_eq a b : Byte.eqb a b = true <-> a = b.
Proof. destruct (byte_eqb_spec a b); split; congruence. Qed.

Lemma seqb_spec s t : reflect (s = t) (s =s? t).
Proof.
  revert t; induction s as [|a s IH]; intros [|b t]; cbn; try (constructor; congruence).
  destruct (byte_eqb_spec a b); cbn; [|constructor; congruence].
  destruct (IH t); constructor; congruence.
Qed.

Lemma seqb_eq s t : (s =s? t) = true <-> s = t.
Proof. destruct (seqb_spec s t); split; congruence. Qed.

Lemma seqb_neq s t : (s =s? t) = false <-> s <> t.
Proof. destruct (seqb_spec s t); split; congruence. Qed.

Lemma seqb_refl s : (s =s? s) = true.
Proof. by apply seqb_eq. Qed.

Lemma seqb_sym s t : (s =s? t) = (t =s? s).
Proof. destruct (seqb_spec s t), (seqb_spec t s); congruence. Qed.

Lemma mem_bytes_In s l : mem_bytes s l = true <-> s ∈ l.
Proof.
  unfold mem_bytes. rewrite existsb_exists. split.
  - intros (x & Hx & ->%seqb_eq). by apply list_elem_of_In.
  - intros H. exists s. split; [by apply list_elem_of_In | apply seqb_refl].
Qed.

Lemma byte_val_range b : (0 <= byte_val b < 256)%Z.
Proof. unfold byte_val. pose proof (Byte.to_N_bounded b). lia. Qed.

Lemma byte_val_inj a b : byte_val a = byte_val b -> a = b.
Proof.
  unfold byte_val. intros H%N2Z.inj.
  assert (Some a = Some b) as [=]; [|done].
  by rewrite <-(Byte.of_to_N a), <-(Byte.of_to_N b), H.
Qed.

Lemma byte_val_of_Z z : byte_val (byte_of_Z z) = (z mod 256)%Z.
Proof.
  unfold byte_of_Z, byte_val.
  pose proof (Z.mod_pos_bound z 256 ltac:(lia)) as Hb.
  destruct (Byte.of_N _) eqn:E.
  - apply Byte.to_of_N in E. rewrite E. lia.
  - apply Byte.of_N_None_iff in E. lia.
Qed.

Lemma byte_of_Z_val b : byte_of_Z (byte_val b) = b.
Proof.
  apply byte_val_inj. rewrite byte_val_of_Z.
  apply Z.mod_small, byte_val_range.
Qed.

(** A property of all bytes that a boolean test decides is checked by running
    the test on the 256 of them. *)
Definition all_bytes : bytes := map (fun n => byte_of_Z (Z.of_nat n)) (seq 0 256).

Lemma all_bytes_complete b : b ∈ all_bytes.
Proof.
  unfold all_bytes. apply list_elem_of_In, in_map_iff.
  pose proof (byte_val_range b). exists (Z.to_nat (byte_val b)). split.
  - rewrite Z2Nat.id by lia. apply byte_of_Z_val.
  - apply in_seq. lia.
Qed.

Lemma forall_bytes (P : byte -> bool) :
  forallb P all_bytes = true -> forall b, P b = true.
Proof.
  intros H b. rewrite forallb_forall in H. apply H.
  apply list_elem_of_In, all_bytes_complete.
Qed.

(** ** Lemmas on machine integers *)

Lemma wrap_int64_id z : (int64_min <= z <= int64_max)%Z -> wrap_int64 z = z.
Proof.
  unfold wrap_int64, int64_min, int64_max. intros H. rewrite Z.mod_small; lia.
Qed.

Lemma wrap_int64_range z : (int64_min <= wrap_int64 z <= int64_max)%Z.
Proof.
  unfold wrap_int64, int64_min, int64_max.
  pose proof (Z.mod_pos_bound (z + 9223372036854775808) 18446744073709551616 ltac:(lia)).
  lia.
Qed.

Lemma wrap_uint64_id z : (0 <= z < 18446744073709551616)%Z -> wrap_uint64 z = z.
Proof. apply Z.mod_small. Qed.

Lemma wrap_uint64_add_l a b : wrap_uint64 (wrap_uint64 a + b) = wrap_uint64 (a + b).
Proof. unfold wrap_uint64. by rewrite Zplus_mod_idemp_l. Qed.

Lemma wrap_uint64_add_r a b : wrap_uint64 (a + wrap_uint64 b) = wrap_uint64 (a + b).
Proof. unfold wrap_uint64. by rewrite Zplus_mod_idemp_r. Qed.

(** ** Hint database *)

Create HintDb go discriminated.
Create Rewrite HintDb go.
#[export] Hint Resolve byte_val_range wrap_int64_range : go.
#[export] Hint Rewrite seqb_refl byte_eqb_refl byte_of_Z_val byte_val_of_Z : go.

(** ** Searching lists *)

(** The first value [f] finds. *)
Fixpoint first_some {A B} (f : A -> option B) (l : list A) : option B :=
  match l with
  | [] => None
  | x :: l => match f x with Some y => Some y | None => first_some f l end
  end.

Lemma first_some_iff {A B} (f : A -> option B) l :
  is_Some (first_some f l) <-> exists x, x ∈ l /\ is_Some (f x).
Proof.
  induction l as [|x l IH]; cbn [first_some].
  - split; [by intros [? ?]|]. intros (x & Hx & _). by apply elem_of_nil in Hx.
  - destruct (f x) eqn:E.
    + split; [|by eauto]. intros _. exists x. rewrite E. split; [set_solver|by eauto].
    + rewrite IH. split.
      * intros (y & Hy & H). exists y. split; [set_solver|done].
      * intros (y & [->|Hy]%elem_of_cons & H); [rewrite E in H; by destruct H|by eauto].
Qed.

Lemma first_some_in {A B} (f : A -> option B) l y : first_some f l = Some y -> exists x, x ∈ l /\ f x = Some y.
Proof.
  induction l as [|x l IH]; cbn [first_some]; [done|]. destruct (f x) eqn:E.
  - intros [= <-]. exists x. split; [set_solver|done].
  - intros (z & Hz & H)%IH. exists z. split; [set_solver|done].
Qed.

Lemma first_some_none {A B} (f : A -> option B) l : ~ is_Some (first_some f l) -> first_some f l = None.
Proof. destruct (first_some f l); [intros H; by destruct H; eauto|done]. Qed.
