(* ===== verification/GoStrings.v ===== *)
(** * The Go standard library's string functions, as the program uses them

    Go strings are byte strings; functions that work on runes ([TrimSpace],
    [ToLower], [EqualFold]) are given on the UTF-8 encoding of the runes they
    treat specially.  [ToLower] lowers the ASCII letters and the two non-ASCII
    runes whose lower case is an ASCII letter (U+0130 and U+212A); every other
    rune is left as it is, which no comparison of the program with an ASCII
    literal can tell apart. *)

From S2P Require Import Prelude.

(** ** Prefixes, suffixes, searching *)

(** [strings.CutPrefix]. *)
Fixpoint cut_prefix (p s : bytes) : option bytes :=
  match p, s with
  | [], _ => Some s
  | a :: p, b :: s => if Byte.eqb a b then cut_prefix p s else None
  | _ :: _, [] => None
  end.

Definition HasPrefix (s p : bytes) : bool :=
  match cut_prefix p s with Some _ => true | None => false end.

(** [strings.TrimPrefix]. *)
Definition TrimPrefix (s p : bytes) : bytes :=
  match cut_prefix p s with Some r => r | None => s end.

Definition HasSuffix (s p : bytes) : bool := HasPrefix (rev s) (rev p).

(** [strings.IndexByte]; [None] is the -1 of the source. *)
Fixpoint IndexByte (s : bytes) (c : byte) : option nat :=
  match s with
  | [] => None
  | a :: s => if Byte.eqb a c then Some O else S <$> IndexByte s c
  end.

Fixpoint LastIndexByte (s : bytes) (c : byte) : option nat :=
  match s with
  | [] => None
  | a :: s => match LastIndexByte s c with
              | Some n => Some (S n)
              | None => if Byte.eqb a c then Some O else None
              end
  end.

(** [strings.IndexAny] for an ASCII set of characters. *)
Fixpoint IndexAny (s cs : bytes) : option nat :=
  match s with
  | [] => None
  | a :: s => if existsb (Byte.eqb a) cs then Some O else S <$> IndexAny s cs
  end.

(** [strings.Index]. *)
Fixpoint Index (s sub : bytes) : option nat :=
  if HasPrefix s sub then Some O else
  match s with
  | [] => None
  | _ :: s => S <$> Index s sub
  end.

Definition Contains (s sub : bytes) : bool :=
  match Index s sub with Some _ => true | None => false end.

(** ** White space *)

(** The UTF-8 encodings of the runes [unicode.IsSpace] accepts. *)
Definition space_runes : list bytes :=
  [ [x09]; [x0a]; [x0b]; [x0c]; [x0d]; [x20];
    [xc2; x85]; [xc2; xa0]; [xe1; x9a; x80];
    [xe2; x80; x80]; [xe2; x80; x81]; [xe2; x80; x82]; [xe2; x80; x83];
    [xe2; x80; x84]; [xe2; x80; x85]; [xe2; x80; x86]; [xe2; x80; x87];
    [xe2; x80; x88]; [xe2; x80; x89]; [xe2; x80; x8a];
    [xe2; x80; xa8]; [xe2; x80; xa9]; [xe2; x80; xaf]; [xe2; x81; x9f];
    [xe3; x80; x80] ].

(** The rest of [s] after the first of the encodings [rs] it starts with. *)
Fixpoint skip_rune (rs : list bytes) (s : bytes) : option bytes :=
  match rs with
  | [] => None
  | r :: rs => match cut_prefix r s with Some t => Some t | None => skip_rune rs s end
  end.

(** Drop leading encodings of [rs]; each round shortens [s], so [length s]
    rounds are enough. *)
Fixpoint trim_left (fuel : nat) (rs : list bytes) (s : bytes) : bytes :=
  match fuel with
  | O => s
  | S fuel => match skip_rune rs s with
              | Some t => trim_left fuel rs t
              | None => s
              end
  end.

Definition TrimLeftSpace (s : bytes) : bytes := trim_left (length s) space_runes s.
Definition TrimRightSpace (s : bytes) : bytes :=
  rev (trim_left (length s) (map (@rev byte) space_runes) (rev s)).
Definition TrimSpace (s : bytes) : bytes := TrimRightSpace (TrimLeftSpace s).

(** ** Case *)

Definition is_upper (b : byte) : bool :=
  ((65 <=? byte_val b) && (byte_val b <=? 90))%Z.
Definition lower_byte (b : byte) : byte :=
  if is_upper b then byte_of_Z (byte_val b + 32) else b.

(** [strings.ToLower]: U+0130 (c4 b0) lowers to i, U+212A (e2 84 aa) to k. *)
Fixpoint ToLower (s : bytes) : bytes :=
  match s with
  | xc4 :: xb0 :: s => x69 :: ToLower s
  | xe2 :: x84 :: xaa :: s => x6b :: ToLower s
  | c :: s => lower_byte c :: ToLower s
  | [] => []
  end.

(** The simple case folding of [strings.EqualFold]: U+212A folds with k and
    U+017F (c5 bf) with s. *)
Fixpoint fold_case (s : bytes) : bytes :=
  match s with
  | xc5 :: xbf :: s => x73 :: fold_case s
  | xe2 :: x84 :: xaa :: s => x6b :: fold_case s
  | c :: s => lower_byte c :: fold_case s
  | [] => []
  end.
Definition EqualFold (s t : bytes) : bool := fold_case s =s? fold_case t.

(** ** Fields, lines, joining *)

(** [strings.TrimRight(s, "/")]. *)
Fixpoint drop_slashes (s : bytes) : bytes :=
  match s with c :: r => if Byte.eqb c "/" then drop_slashes r else s | [] => [] end.
Definition TrimRight_slash (s : bytes) : bytes := rev (drop_slashes (rev s)).

(** [strings.FieldsFunc] for a predicate on single-byte runes. *)
Fixpoint fields_go (p : byte -> bool) (cur s : bytes) : list bytes :=
  match s with
  | [] => match cur with [] => [] | _ => [rev cur] end
  | c :: s =>
      if p c
      then match cur with
           | [] => fields_go p [] s
           | _ => rev cur :: fields_go p [] s
           end
      else fields_go p (c :: cur) s
  end.
Definition FieldsFunc (s : bytes) (p : byte -> bool) : list bytes := fields_go p [] s.

Fixpoint Join (l : list bytes) (sep : bytes) : bytes :=
  match l with
  | [] => []
  | [x] => x
  | x :: l => x ++ sep ++ Join l sep
  end.

(** [strings.Split] on a one-byte separator. *)
Fixpoint split_byte (c : byte) (s : bytes) : list bytes :=
  match s with
  | [] => [[]]
  | a :: s =>
      if Byte.eqb a c then [] :: split_byte c s
      else match split_byte c s with
           | [] => [[a]]
           | w :: ws => (a :: w) :: ws
           end
  end.

(** [bufio.ScanLines]: the text split at newlines; a final newline does not
    open another line. *)
Fixpoint raw_lines (s : bytes) : list bytes :=
  match s with
  | [] => []
  | c :: s =>
      if Byte.eqb c x0a then [] :: raw_lines s
      else match raw_lines s with
           | [] => [[c]]
           | l :: ls => (c :: l) :: ls
           end
  end.

(** One trailing carriage return is dropped from each line. *)
Definition drop_cr (l : bytes) : bytes :=
  match rev l with
  | x0d :: r => rev r
  | _ => l
  end.

(** [bufio.Scanner] with a buffer of at most [max] bytes: the lines it
    returns, and whether it stopped at a line that does not fit
    ([bufio.ErrTooLong]). *)
Fixpoint scan_lines_go (max : Z) (ls : list bytes) : list bytes * bool :=
  match ls with
  | [] => ([], false)
  | l :: ls =>
      if (max <=? Z.of_nat (length l))%Z then ([], true)
      else let '(out, e) := scan_lines_go max ls in (drop_cr l :: out, e)
  end.
Definition scan_lines (max : Z) (s : bytes) : list bytes * bool :=
  scan_lines_go max (raw_lines s).

(** ** Numbers *)

Definition is_digit (b : byte) : bool :=
  ((48 <=? byte_val b) && (byte_val b <=? 57))%Z.
Definition digit_val (b : byte) : Z := (byte_val b - 48)%Z.

(** The value of a non-empty run of decimal digits. *)
Fixpoint digits_val (acc : Z) (s : bytes) : option Z :=
  match s with
  | [] => Some acc
  | c :: s => if is_digit c then digits_val (10 * acc + digit_val c)%Z s else None
  end.

Definition parse_digits (s : bytes) : option Z :=
  match s with [] => None | _ => digits_val 0 s end.

(** [strconv.Atoi]: an optional sign, then digits, in the range of [int]. *)
Definition Atoi (s : bytes) : option Z :=
  let '(neg, ds) := match s with
                    | x2d :: r => (true, r)
                    | x2b :: r => (false, r)
                    | _ => (false, s)
                    end in
  v ← parse_digits ds;
  let v := if neg : bool then (- v)%Z else v in
  if in_int64 v then Some v else None.

(** [strconv.ParseUint(s, 10, bits)]. *)
Definition ParseUint (bits : Z) (s : bytes) : option Z :=
  v ← parse_digits s; if (v <? 2 ^ bits)%Z then Some v else None.

(** The decimal digits of a natural number, most significant first; a number
    below [2^n] has at most [n] of them. *)
Fixpoint dec_go (fuel : nat) (n : Z) (acc : bytes) : bytes :=
  match fuel with
  | O => acc
  | S fuel =>
      let d := byte_of_Z (48 + n mod 10) in
      if (n <? 10)%Z then d :: acc else dec_go fuel (n / 10) (d :: acc)
  end.
Definition dec (n : Z) : bytes := dec_go (S (Z.to_nat (Z.log2 n))) n [].

(** [fmt.Sprintf("%d", n)], [strconv.Itoa]. *)
Definition itoa (n : Z) : bytes :=
  if (n <? 0)%Z then x2d :: dec (- n) else dec n.

(** ** Host and port *)

(** [net.SplitHostPort]: the four ways it refuses a string. *)
Inductive addr_error :=
| MissingPort | TooManyColons | MissingBracket | UnexpectedBracket.

Definition SplitHostPort (s : bytes) : result addr_error (bytes * bytes) :=
  match LastIndexByte s ":" with
  | None => Err MissingPort
  | Some i =>
      match s with
      | x5b :: _ =>
          (* an IPv6 address in brackets: the closing one must be just
             before the last colon *)
          match IndexByte s "]" with
          | None => Err MissingBracket
          | Some e =>
              if (S e =? length s)%nat then Err MissingPort
              else if (S e =? i)%nat then
                let host := take (e - 1) (drop 1 s) in
                guard negb (Contains (drop 1 s) "[") else UnexpectedBracket in
                guard negb (Contains (drop (S e) s) "]") else UnexpectedBracket in
                Ok (host, drop (S i) s)
              else match s !! S e with
                   | Some x3a => Err TooManyColons
                   | _ => Err MissingPort
                   end
          end
      | _ =>
          let host := take i s in
          guard negb (Contains host ":") else TooManyColons in
          guard negb (Contains s "[") else UnexpectedBracket in
          guard negb (Contains s "]") else UnexpectedBracket in
          Ok (host, drop (S i) s)
      end
  end.

(** [net.JoinHostPort]. *)
Definition JoinHostPort (host port : bytes) : bytes :=
  if Contains host ":" then "[" ++ host ++ "]:" ++ port else host ++ ":" ++ port.

(** ** Lemmas: prefixes and searching *)

Lemma cut_prefix_Some p s t : cut_prefix p s = Some t <-> s = p ++ t.
Proof.
  revert s; induction p as [|a p IH]; intros s; cbn.
  - split; congruence.
  - destruct s as [|b s]; [split; discriminate|].
    destruct (byte_eqb_spec a b) as [->|]; [|split; congruence].
    rewrite IH. split; congruence.
Qed.

Lemma cut_prefix_app p s : cut_prefix p (p ++ s) = Some s.
Proof. by apply cut_prefix_Some. Qed.

Lemma HasPrefix_true s p : HasPrefix s p = true <-> exists t, s = p ++ t.
Proof.
  unfold HasPrefix. destruct (cut_prefix p s) as [t|] eqn:E.
  - apply cut_prefix_Some in E. naive_solver.
  - split; [discriminate|]. intros [t H]. apply cut_prefix_Some in H. congruence.
Qed.

Lemma HasPrefix_app p s : HasPrefix (p ++ s) p = true.
Proof. apply HasPrefix_true. eauto. Qed.

Lemma HasPrefix_head s a p :
  HasPrefix s (a :: p) = true -> head s = Some a.
Proof. intros [t ->]%HasPrefix_true. done. Qed.

(** A string whose first byte differs from the prefix's does not start with it. *)
Lemma HasPrefix_ne c s a p : a <> c -> HasPrefix (c :: s) (a :: p) = false.
Proof.
  intros H. destruct (HasPrefix (c :: s) (a :: p)) eqn:E; [|done].
  apply HasPrefix_head in E. cbn in E. congruence.
Qed.

Lemma HasSuffix_last s c d : HasSuffix (s ++ [c]) [d] = Byte.eqb d c.
Proof.
  unfold HasSuffix, HasPrefix. rewrite rev_app_distr; cbn. by destruct (Byte.eqb d c).
Qed.

Lemma IndexByte_app s c t : c ∉ s -> IndexByte (s ++ c :: t) c = Some (length s).
Proof.
  induction s as [|a s IH]; cbn; intros H.
  - by rewrite byte_eqb_refl.
  - destruct (byte_eqb_spec a c) as [->|]; [set_solver|].
    rewrite IH by set_solver. done.
Qed.

Lemma IndexByte_None s c : IndexByte s c = None <-> c ∉ s.
Proof.
  induction s as [|a s [IH1 IH2]]; cbn.
  - split; [intros _; apply not_elem_of_nil | done].
  - rewrite not_elem_of_cons.
    destruct (byte_eqb_spec a c) as [->|]; [split; [done | intros []; congruence]|].
    destruct (IndexByte s c); cbn; split; try done.
    + intros [_ H%IH2]. done.
    + intros _. split; [congruence | by apply IH1].
Qed.

(** The index found splits the string at the first occurrence. *)
Lemma IndexByte_Some s c i :
  IndexByte s c = Some i ->
  s = take i s ++ c :: drop (S i) s /\ c ∉ take i s.
Proof.
  revert i; induction s as [|a s IH]; cbn; intros i H; [done|].
  destruct (byte_eqb_spec a c) as [->|Hne].
  - injection H as <-; cbn. split; [done | set_solver].
  - destruct (IndexByte s c) as [j|]; [|done]. cbn in H. injection H as <-.
    destruct (IH j eq_refl) as [Heq Hni]. cbn [take drop]. split.
    + cbn. by f_equal.
    + intros [?|?]%elem_of_cons; [congruence | by apply Hni].
Qed.

Lemma LastIndexByte_app s c t : c ∉ t -> LastIndexByte (s ++ c :: t) c = Some (length s).
Proof.
  intros Ht. assert (LastIndexByte t c = None) as HN.
  { induction t as [|a t IH]; cbn; [done|]. rewrite IH by set_solver.
    destruct (byte_eqb_spec a c); [set_solver | done]. }
  induction s as [|a s IH]; cbn; [|by rewrite IH].
  by rewrite HN, byte_eqb_refl.
Qed.

Lemma Contains_app s sub t : Contains (s ++ sub ++ t) sub = true.
Proof.
  unfold Contains. induction s as [|a s IH].
  - cbn [app]. destruct (sub ++ t) eqn:E; cbn;
      (replace (HasPrefix _ sub) with true; [done|]; symmetry; rewrite <-E; apply HasPrefix_app).
  - cbn. destruct (HasPrefix _ _); [done|].
    by destruct (Index (s ++ sub ++ t) sub).
Qed.

Lemma Contains_true s sub : Contains s sub = true <-> exists a b, s = a ++ sub ++ b.
Proof.
  split; [|intros (a & b & ->); apply Contains_app].
  unfold Contains. induction s as [|c s IH]; cbn.
  - destruct (HasPrefix [] sub) eqn:E; [|done]. apply HasPrefix_true in E as [t E].
    intros _. exists [], t. done.
  - destruct (HasPrefix (c :: s) sub) eqn:E.
    + apply HasPrefix_true in E as [t E]. intros _. exists [], t. done.
    + destruct (Index s sub) as [n|]; cbn; [|done].
      intros _. destruct IH as (a & b & ->); [done|]. exists (c :: a), b. done.
Qed.

(** Wrapping a text keeps what it contains. *)
Lemma Contains_wrap p s q sub : Contains s sub = true -> Contains (p ++ s ++ q) sub = true.
Proof.
  intros (a & b & ->)%Contains_true. apply Contains_true.
  exists (p ++ a), (b ++ q). by rewrite <-!app_assoc.
Qed.

Lemma Contains_byte s c : Contains s [c] = false <-> c ∉ s.
Proof.
  destruct (Contains s [c]) eqn:E; split; try done.
  - apply Contains_true in E as (a & b & ->). set_solver.
  - intros _ (a & b & ->)%list_elem_of_split.
    assert (Contains (a ++ [c] ++ b) [c] = true) as H by apply Contains_app.
    cbn in H. congruence.
Qed.

(** ** Lemmas: white space *)

#[global] Arguments space_runes : simpl never.

Definition is_graph (b : byte) : bool := ((33 <=? byte_val b) && (byte_val b <=? 126))%Z.
Definition is_ascii (b : byte) : bool := (byte_val b <? 128)%Z.

Lemma skip_rune_shorter rs s t :
  [] ∉ rs -> skip_rune rs s = Some t -> (length t < length s)%nat.
Proof.
  induction rs as [|r rs IH]; cbn; intros Hne H; [done|].
  destruct (cut_prefix r s) as [u|] eqn:E.
  - injection H as <-. apply cut_prefix_Some in E as ->. rewrite length_app.
    destruct r; [set_solver | cbn; lia].
  - apply IH; [set_solver | done].
Qed.

(** Enough fuel: the trimmed string starts with no encoding of [rs]. *)
Lemma trim_left_done rs fuel s :
  [] ∉ rs -> (length s <= fuel)%nat -> skip_rune rs (trim_left fuel rs s) = None.
Proof.
  intros Hne. revert s; induction fuel as [|fuel IH]; intros s Hlen; cbn.
  - destruct s; [|cbn in Hlen; lia].
    destruct (skip_rune rs []) eqn:E; [|done].
    apply skip_rune_shorter in E; [|done]. cbn in E. lia.
  - destruct (skip_rune rs s) as [t|] eqn:E; [|done].
    apply IH. apply skip_rune_shorter in E; [lia | done].
Qed.

Lemma trim_left_id rs fuel s : skip_rune rs s = None -> trim_left fuel rs s = s.
Proof. destruct fuel; cbn; [done|]. by intros ->. Qed.

(** More fuel than needed changes nothing. *)
Lemma trim_left_fuel rs n m s :
  [] ∉ rs -> (length s <= n)%nat -> (length s <= m)%nat ->
  trim_left n rs s = trim_left m rs s.
Proof.
  intros Hne. revert m s; induction n as [|n IH]; intros m s Hn Hm.
  - destruct s; [|cbn in Hn; lia]. destruct m; [done|]. cbn.
    destruct (skip_rune rs []) eqn:E; [|done].
    apply skip_rune_shorter in E; [cbn in E; lia | done].
  - cbn. destruct m as [|m].
    + destruct s; [|cbn in Hm; lia]. destruct (skip_rune rs []) eqn:E; [|done].
      apply skip_rune_shorter in E; [cbn in E; lia | done].
    + cbn. destruct (skip_rune rs s) as [t|] eqn:E; [|done].
      apply skip_rune_shorter in E; [|done]. apply IH; lia.
Qed.

Lemma space_runes_ne : [] ∉ space_runes.
Proof. by apply (bool_decide_unpack _). Qed.
Lemma space_runes_rev_ne : [] ∉ map (@rev byte) space_runes.
Proof. by apply (bool_decide_unpack _). Qed.
#[export] Hint Resolve space_runes_ne space_runes_rev_ne : go.

(** A graphic ASCII character starts (or ends) no white space. *)
Lemma skip_rune_graph c s :
  is_graph c = true ->
  skip_rune space_runes (c :: s) = None /\
  skip_rune (map (@rev byte) space_runes) (c :: s) = None.
Proof.
  revert s.
  enough (forall b, (negb (is_graph b) ||
            forallb (fun r => match r with a :: _ => negb (Byte.eqb a b) | [] => false end)
              (space_runes ++ map (@rev byte) space_runes))%bool = true) as H.
  { intros s Hc. specialize (H c). rewrite Hc in H; cbn -[space_runes] in H.
    rewrite forallb_app in H. apply andb_true_iff in H as [H1 H2].
    assert (forall rs, forallb (fun r => match r with a :: _ => negb (Byte.eqb a c) | [] => false end) rs
              = true -> skip_rune rs (c :: s) = None) as HG.
    { induction rs as [|r rs IH]; [done|]. cbn. intros [Hr Hrs]%andb_true_iff.
      destruct r as [|a r]; [done|]. cbn. apply negb_true_iff in Hr. rewrite Hr. auto. }
    split; by apply HG. }
  by apply forall_bytes; vm_compute.
Qed.

Lemma skip_rune_graph_l c s : is_graph c = true -> skip_rune space_runes (c :: s) = None.
Proof. intros H. exact (proj1 (skip_rune_graph c s H)). Qed.
Lemma skip_rune_graph_r c s :
  is_graph c = true -> skip_rune (map (@rev byte) space_runes) (c :: s) = None.
Proof. intros H. exact (proj2 (skip_rune_graph c s H)). Qed.

Lemma TrimLeftSpace_graph c s : is_graph c = true -> TrimLeftSpace (c :: s) = c :: s.
Proof. intros H. unfold TrimLeftSpace. rewrite trim_left_id; [done|]. by apply skip_rune_graph_l. Qed.

Lemma TrimRightSpace_graph s c : is_graph c = true -> TrimRightSpace (s ++ [c]) = s ++ [c].
Proof.
  intros H. unfold TrimRightSpace. rewrite rev_app_distr; cbn [rev app].
  rewrite trim_left_id by (by apply skip_rune_graph_r). cbn. by rewrite rev_involutive.
Qed.

Lemma TrimLeftSpace_space s : TrimLeftSpace (x20 :: s) = TrimLeftSpace s.
Proof.
  unfold TrimLeftSpace. cbn [length trim_left].
  replace (skip_rune space_runes (x20 :: s)) with (Some s) by done. done.
Qed.

Lemma TrimSpace_space s : TrimSpace (x20 :: s) = TrimSpace s.
Proof. unfold TrimSpace. by rewrite TrimLeftSpace_space. Qed.

Lemma TrimSpace_nil : TrimSpace [] = [].
Proof. done. Qed.

Lemma trim_left_length rs n s :
  [] ∉ rs -> (length (trim_left n rs s) <= length s)%nat.
Proof.
  intros Hne. revert s; induction n as [|n IH]; intros s; cbn; [done|].
  destruct (skip_rune rs s) as [t|] eqn:E; [|done].
  apply skip_rune_shorter in E; [|done]. specialize (IH t). lia.
Qed.

(** Trimming that keeps the length found nothing to trim. *)
Lemma trim_left_id_inv rs n s :
  [] ∉ rs -> (length s <= n)%nat ->
  (length s <= length (trim_left n rs s))%nat -> skip_rune rs s = None.
Proof.
  intros Hne Hn Hlen. destruct n as [|n]; cbn in Hlen.
  - destruct s; [|cbn in Hn; lia]. destruct (skip_rune rs []) eqn:E; [|done].
    apply skip_rune_shorter in E; [cbn in E; lia | done].
  - destruct (skip_rune rs s) as [t|] eqn:E; [|done].
    apply skip_rune_shorter in E; [|done].
    pose proof (trim_left_length rs n t Hne). lia.
Qed.

Definition no_lead (s : bytes) : Prop := skip_rune space_runes s = None.
Definition no_trail (s : bytes) : Prop :=
  skip_rune (map (@rev byte) space_runes) (rev s) = None.

Lemma TrimRightSpace_id s : no_trail s -> TrimRightSpace s = s.
Proof. intros H. unfold TrimRightSpace. rewrite trim_left_id by done. apply rev_involutive. Qed.

(** The strings [TrimSpace] leaves alone are those with no white space at
    either end. *)
Lemma TrimSpace_id s : TrimSpace s = s <-> no_lead s /\ no_trail s.
Proof.
  unfold TrimSpace. split.
  - intros H.
    assert (length s <= length (TrimLeftSpace s))%nat as Hl.
    { rewrite <-H at 1. unfold TrimRightSpace. rewrite length_rev.
      pose proof (trim_left_length (map (@rev byte) space_runes) (length (TrimLeftSpace s))
        (rev (TrimLeftSpace s)) space_runes_rev_ne) as Hx.
      rewrite length_rev in Hx. lia. }
    assert (no_lead s) as HL.
    { apply (trim_left_id_inv space_runes (length s)); [auto with go | done | exact Hl]. }
    split; [done|].
    assert (TrimLeftSpace s = s) as HE by (unfold TrimLeftSpace; by rewrite trim_left_id).
    rewrite HE in H. unfold no_trail.
    eapply trim_left_id_inv with (n := length s); [auto with go | rewrite length_rev; done |].
    apply (f_equal length) in H. unfold TrimRightSpace in H.
    rewrite length_rev in H. rewrite length_rev. rewrite H. done.
  - intros [HL HT]. unfold TrimLeftSpace. rewrite trim_left_id by done.
    by apply TrimRightSpace_id.
Qed.

Lemma cut_prefix_app_inv r s t u :
  cut_prefix r (s ++ t) = Some u -> (length r <= length s)%nat ->
  exists u', cut_prefix r s = Some u'.
Proof.
  intros H%cut_prefix_Some Hlen. exists (drop (length r) s).
  apply cut_prefix_Some. rewrite <-(take_drop (length r) s) at 1. f_equal.
  apply (f_equal (take (length r))) in H.
  rewrite take_app_le in H by done. rewrite take_app_length in H. done.
Qed.

(** Appending text that starts with an ASCII byte to a non-empty string that
    starts with no white-space rune does not create one at its start: the runes
    of more than one byte have no ASCII byte. *)
Lemma skip_rune_app rs s c t :
  Forall (fun r => length r = 1%nat \/ Forall (fun b => is_ascii b = false) r) rs ->
  s <> [] -> is_ascii c = true ->
  skip_rune rs s = None -> skip_rune rs (s ++ c :: t) = None.
Proof.
  intros Hrs Hs Hc. induction Hrs as [|r rs Hr _ IH]; cbn; [done|].
  destruct (cut_prefix r s) as [u|] eqn:E; [done|]. intros Hn.
  destruct (cut_prefix r (s ++ c :: t)) as [u|] eqn:E2; [|by apply IH].
  exfalso. destruct (decide (length r <= length s)%nat) as [Hle|Hgt].
  - destruct (cut_prefix_app_inv _ _ _ _ E2 Hle). congruence.
  - destruct Hr as [Hr|Hr].
    + destruct s; [done | cbn in Hgt; lia].
    + apply cut_prefix_Some in E2. assert (c ∈ r) as Hin.
      { apply (f_equal (lookup (length s))) in E2.
        rewrite lookup_app_r, Nat.sub_diag in E2 by done. cbn in E2.
        rewrite lookup_app_l in E2 by lia. apply list_elem_of_lookup. eauto. }
      rewrite Forall_forall in Hr. specialize (Hr c Hin). cbn in Hr. congruence.
Qed.

Lemma space_runes_shape :
  Forall (fun r => length r = 1%nat \/ Forall (fun b => is_ascii b = false) r) space_runes /\
  Forall (fun r => length r = 1%nat \/ Forall (fun b => is_ascii b = false) r)
    (map (@rev byte) space_runes).
Proof.
  split; repeat (constructor; [first [by left | right; by repeat constructor]|]); constructor.
Qed.

(** A prefix that ends with an ASCII byte does not change what is trimmed off
    the end of a non-empty string. *)
Lemma no_trail_app p c s :
  is_ascii c = true -> s <> [] -> no_trail s -> no_trail (p ++ c :: s).
Proof.
  intros Hc Hs H. unfold no_trail. rewrite rev_app_distr. cbn [rev].
  rewrite <-app_assoc. cbn [app]. apply skip_rune_app; [apply space_runes_shape | | done | done].
  intros E. apply (f_equal (@rev byte)) in E. rewrite rev_involutive in E. done.
Qed.

Lemma no_lead_app s c t :
  is_ascii c = true -> s <> [] -> no_lead s -> no_lead (s ++ c :: t).
Proof. intros. apply skip_rune_app; [apply space_runes_shape | done..]. Qed.

Lemma no_lead_graph c s : is_graph c = true -> no_lead (c :: s).
Proof. intros H. by apply skip_rune_graph_l. Qed.

Lemma no_trail_graph s c : is_graph c = true -> no_trail (s ++ [c]).
Proof. intros H. unfold no_trail. rewrite rev_app_distr. by apply skip_rune_graph_r. Qed.

Lemma no_trail_graphs s :
  s <> [] -> forallb is_graph s = true -> no_trail s.
Proof.
  intros Hs Hg. destruct (exists_last Hs) as (s' & c & ->).
  rewrite forallb_app in Hg. apply andb_true_iff in Hg as [_ Hg]. cbn in Hg.
  apply no_trail_graph. by destruct (is_graph c).
Qed.

Lemma TrimSpace_graphs s : forallb is_graph s = true -> TrimSpace s = s.
Proof.
  destruct s as [|c s]; [done|]. intros H. apply TrimSpace_id. split.
  - cbn in H. apply andb_true_iff in H as [H _]. by apply no_lead_graph.
  - by apply no_trail_graphs.
Qed.
#[export] Hint Resolve no_lead_graph no_trail_graph no_trail_app no_lead_app : go.

(** ** Lemmas: numbers *)

Lemma is_digit_of_Z d : (0 <= d < 10)%Z -> is_digit (byte_of_Z (48 + d)) = true.
Proof.
  intros H. unfold is_digit. rewrite byte_val_of_Z, Z.mod_small by lia.
  apply andb_true_iff; split; apply Z.leb_le; lia.
Qed.

Lemma digit_val_of_Z d : (0 <= d < 10)%Z -> digit_val (byte_of_Z (48 + d)) = d.
Proof. intros H. unfold digit_val. rewrite byte_val_of_Z, Z.mod_small; lia. Qed.

Lemma digits_val_app acc s t :
  digits_val acc (s ++ t) = (v ← digits_val acc s; digits_val v t).
Proof.
  revert acc; induction s as [|c s IH]; intros acc; cbn; [done|].
  destruct (is_digit c); [apply IH | done].
Qed.

(** The digits [dec_go] puts in front of [acc] read back as the number. *)
Lemma dec_go_spec fuel n acc :
  fuel <> O -> (0 <= n < 2 ^ Z.of_nat fuel)%Z ->
  exists ds, dec_go fuel n acc = ds ++ acc /\ ds <> [] /\
    forallb is_digit ds = true /\ digits_val 0 ds = Some n.
Proof.
  revert n acc; induction fuel as [|fuel IH]; intros n acc Hf Hn; [done|].
  - cbn [dec_go]. pose proof (Z.mod_pos_bound n 10 ltac:(lia)) as Hm.
    set (d := byte_of_Z (48 + n mod 10)).
    assert (is_digit d = true) as Hd by (by apply is_digit_of_Z).
    destruct (Z.ltb_spec n 10) as [Hlt|Hge].
    + exists [d]. split; [done|]. split; [done|]. cbn. rewrite Hd. split; [done|].
      f_equal. unfold d. rewrite digit_val_of_Z by done. rewrite Z.mod_small; lia.
    + destruct (IH (n / 10) (d :: acc))%Z as (ds & -> & _ & Hall & Hv).
      { intros ->. cbn in Hn. lia. }
      { rewrite Nat2Z.inj_succ, Z.pow_succ_r in Hn by lia.
        pose proof (Z.div_mod n 10 ltac:(lia)). split; [apply Z.div_pos; lia|].
        apply Z.div_lt_upper_bound; lia. }
      exists (ds ++ [d]). rewrite <-app_assoc. split; [done|].
      split; [by destruct ds|]. rewrite forallb_app, Hall; cbn. rewrite Hd. split; [done|].
      rewrite digits_val_app, Hv; cbn. rewrite Hd. f_equal. unfold d.
      rewrite digit_val_of_Z by done. pose proof (Z.div_mod n 10 ltac:(lia)). lia.
Qed.

Lemma dec_spec n :
  (0 <= n)%Z ->
  dec n <> [] /\ forallb is_digit (dec n) = true /\ parse_digits (dec n) = Some n.
Proof.
  intros Hn. unfold dec.
  destruct (dec_go_spec (S (Z.to_nat (Z.log2 n))) n []) as (ds & -> & Hne & Hall & Hv).
  { done. }
  { split; [done|]. rewrite Nat2Z.inj_succ, Z2Nat.id by apply Z.log2_nonneg.
    destruct (Z.eq_dec n 0) as [->|]; [done|]. apply Z.log2_spec. lia. }
  rewrite app_nil_r. split; [done|]. split; [done|].
  unfold parse_digits. by destruct ds.
Qed.

Lemma digit_not_sign c : is_digit c = true -> c <> x2d /\ c <> x2b.
Proof. intros H. split; intros ->; vm_compute in H; discriminate. Qed.

Lemma Atoi_digits s v :
  parse_digits s = Some v -> forallb is_digit s = true ->
  Atoi s = if in_int64 v then Some v else None.
Proof.
  intros Hp Hd. unfold Atoi. destruct s as [|c s]; [done|].
  cbn in Hd. apply andb_true_iff in Hd as [Hc _].
  destruct (digit_not_sign c Hc) as [H1 H2].
  destruct c; try done; by rewrite Hp.
Qed.

(** Printing a natural [int] and reading it back. *)
Lemma Atoi_dec n : (0 <= n <= int64_max)%Z -> Atoi (dec n) = Some n.
Proof.
  intros H. destruct (dec_spec n) as (_ & Hd & Hp); [lia|].
  rewrite (Atoi_digits _ n) by done. unfold in_int64, int64_min, int64_max in *.
  replace ((_ <=? n)%Z && (n <=? _)%Z) with true; [done|].
  symmetry. apply andb_true_iff; split; apply Z.leb_le; lia.
Qed.

Lemma itoa_nonneg n : (0 <= n)%Z -> itoa n = dec n.
Proof. intros H. unfold itoa. destruct (Z.ltb_spec n 0); [lia | done]. Qed.

Lemma digits_val_bound s acc v :
  (0 <= acc)%Z -> digits_val acc s = Some v -> (acc <= v)%Z.
Proof.
  revert acc; induction s as [|c s IH]; intros acc Ha; cbn.
  - intros [=]; lia.
  - destruct (is_digit c) eqn:E; [|done]. unfold is_digit in E. bprop.
    intros Hv. apply IH in Hv; unfold digit_val in *; lia.
Qed.

(** What [Atoi] returns is a value of type [int]. *)
Lemma Atoi_range s n : Atoi s = Some n -> (int64_min <= n <= int64_max)%Z.
Proof.
  unfold Atoi. destruct (match s with x2d :: _ => _ | _ => _ end) as [neg ds].
  destruct (parse_digits ds) as [v|]; cbn; [|done].
  destruct (in_int64 _) eqn:E; [|done]. intros [= <-].
  unfold in_int64 in E. bprop. lia.
Qed.

Lemma digits_graph s : forallb is_digit s = true -> forallb is_graph s = true.
Proof.
  rewrite !forallb_forall. intros H c Hc. specialize (H c Hc).
  unfold is_digit, is_graph in *. bprop. apply andb_true_iff; split; apply Z.leb_le; lia.
Qed.

(** No digit is one of the punctuation bytes the formats use. *)
Lemma digits_not_in s c : forallb is_digit s = true -> is_digit c = false -> c ∉ s.
Proof.
  rewrite forallb_forall. intros H Hc Hin%list_elem_of_In. apply H in Hin. congruence.
Qed.

(** ** Lemmas: lines *)

Lemma raw_lines_app l s : x0a ∉ l -> raw_lines (l ++ x0a :: s) = l :: raw_lines s.
Proof.
  induction l as [|c l IH]; cbn; intros H; [done|].
  destruct (byte_eqb_spec c x0a) as [->|]; [set_solver|].
  rewrite IH by set_solver. done.
Qed.

(** A text written line by line reads back as those lines. *)
Lemma raw_lines_concat ls :
  Forall (fun l => x0a ∉ l) ls -> raw_lines (concat (map (fun l => l ++ [x0a]) ls)) = ls.
Proof.
  induction 1 as [|l ls Hl _ IH]; cbn; [done|].
  rewrite <-app_assoc. cbn. rewrite raw_lines_app by done. by rewrite IH.
Qed.

Lemma drop_cr_id l : x0d ∉ l -> drop_cr l = l.
Proof.
  intros H. unfold drop_cr. destruct (rev l) as [|c r] eqn:E; [done|].
  destruct (byte_eqb_spec c x0d) as [->|Hne].
  - exfalso. apply H. rewrite <-(rev_involutive l), E. cbn. set_solver.
  - by destruct c.
Qed.

Lemma scan_lines_go_ok max ls :
  Forall (fun l => (Z.of_nat (length l) < max)%Z /\ drop_cr l = l) ls ->
  scan_lines_go max ls = (ls, false).
Proof.
  induction 1 as [|l ls [Hl Hc] _ IH]; cbn; [done|].
  destruct (Z.leb_spec max (Z.of_nat (length l))); [lia|]. by rewrite IH, Hc.
Qed.

Lemma raw_lines_no_nl s : Forall (fun l => x0a ∉ l) (raw_lines s).
Proof.
  induction s as [|c s IH]; cbn; [constructor|].
  destruct (byte_eqb_spec c x0a) as [->|Hne]; [constructor; [set_solver | done]|].
  destruct (raw_lines s) as [|l ls].
  - constructor; [set_solver | done].
  - inversion IH; subst. constructor; [set_solver | done].
Qed.

(** ** Lemmas: fields *)

(** Tokens joined with a separator made of separator bytes are found again. *)
Lemma fields_go_token p cur s t :
  forallb (fun c => negb (p c)) s = true ->
  fields_go p cur (s ++ t) = fields_go p (rev s ++ cur) t.
Proof.
  revert cur; induction s as [|c s IH]; intros cur; cbn; [done|].
  intros [Hc Hs]%andb_true_iff. apply negb_true_iff in Hc. rewrite Hc.
  rewrite IH by done. by rewrite <-app_assoc.
Qed.

Lemma fields_go_sep p s t :
  forallb p s = true -> fields_go p [] (s ++ t) = fields_go p [] t.
Proof.
  induction s as [|c s IH]; cbn; [done|]. intros [Hc Hs]%andb_true_iff. rewrite Hc. auto.
Qed.

Lemma FieldsFunc_Join p sep ws :
  sep <> [] -> forallb p sep = true ->
  Forall (fun w => w <> [] /\ forallb (fun c => negb (p c)) w = true) ws ->
  FieldsFunc (Join ws sep) p = ws.
Proof.
  intros Hne Hsep. unfold FieldsFunc. induction 1 as [|w ws [Hw Hp] Hws IH]; cbn; [done|].
  assert (forall u, rev w ++ [] <> [] ->
     match rev w ++ [] with [] => u | _ :: _ => rev (rev w ++ []) :: u end = w :: u) as HM.
  { intros u Hn. rewrite app_nil_r in *. destruct (rev w) eqn:E; [done|].
    by rewrite <-E, rev_involutive. }
  assert (rev w ++ [] <> []) as Hrw.
  { rewrite app_nil_r. intros E. apply (f_equal (@rev byte)) in E. by rewrite rev_involutive in E. }
  destruct ws as [|w' ws].
  - rewrite <-(app_nil_r w) at 1. rewrite fields_go_token by done. cbn. by apply HM.
  - rewrite fields_go_token by done. destruct sep as [|c sep]; [done|].
    cbn [app fields_go]. cbn in Hsep. apply andb_true_iff in Hsep as [Hc Hsep]. rewrite Hc.
    rewrite fields_go_sep by done.
    rewrite HM by done. f_equal. exact IH.
Qed.

(** ** Lemmas: case *)

Lemma lower_byte_idem b : lower_byte (lower_byte b) = lower_byte b.
Proof.
  apply byte_eqb_eq. revert b. apply forall_bytes. by vm_compute.
Qed.

Lemma ToLower_nil s : ToLower s = [] -> s = [].
Proof.
  destruct s as [|c s]; [reflexivity|]. intros E. exfalso.
  assert (H : match ToLower (c :: s) with [] => false | _ :: _ => true end = true).
  { clear E. destruct c; try reflexivity; destruct s as [|d s]; try reflexivity; destruct d; try reflexivity;
      destruct s as [|e s]; try reflexivity; destruct e; reflexivity. }
  rewrite E in H. discriminate H.
Qed.

(** On ASCII text [ToLower] and the folding of [EqualFold] work byte by byte. *)
Lemma ToLower_ascii s : forallb is_ascii s = true -> ToLower s = map lower_byte s.
Proof.
  induction s as [|c s IH]; [done|]. intros [Hc Hs]%andb_true_iff.
  destruct c; (try discriminate Hc); cbn [ToLower map]; by rewrite IH.
Qed.

Lemma fold_case_ascii s : forallb is_ascii s = true -> fold_case s = map lower_byte s.
Proof.
  induction s as [|c s IH]; [done|]. intros [Hc Hs]%andb_true_iff.
  destruct c; (try discriminate Hc); cbn [fold_case map]; by rewrite IH.
Qed.
