(* ===== verification/GoErrors.v ===== *)
(** * Go errors and clocks

    A Go [error] is seen by the program in two ways: through its text
    ([err.Error()], which [creds.IsAuthError] and [creds.IsRateLimitError]
    search) and through [errors.Is] against a sentinel.  An error value is
    therefore its text with the sentinels of its chain. *)

From S2P Require Import Prelude.

(** The sentinel errors the program (or the runtime it uses) declares. *)
Inductive sentinel :=
| Canceled               (* context.Canceled *)
| DeadlineExceeded       (* context.DeadlineExceeded *)
| ErrAuthFailure         (* pkg/wgturn/provider.go *)
| ErrCaptchaRequired
| ErrInvalidConfig       (* pkg/wgturn/config.go *)
| ErrAlreadyStarted      (* pkg/wgturn/errors.go *)
| ErrNotStarted
| ErrStartTimeout
| ErrClosed              (* net.ErrClosed *).

Record error := mkError { error_text : bytes; error_is : list sentinel }.

#[global] Instance sentinel_eq_dec : EqDecision sentinel.
Proof. solve_decision. Defined.
#[global] Instance error_eq_dec : EqDecision error.
Proof. solve_decision. Defined.

(** [errors.New]. *)
Definition errors_New (text : bytes) : error := mkError text [].

(** [fmt.Errorf("<pre>%w", err)]. *)
Definition Errorf_w (pre : bytes) (err : error) : error :=
  mkError (pre ++ error_text err) (error_is err).

(** [errors.Is]. *)
Definition errors_Is (err : error) (s : sentinel) : bool :=
  existsb (fun x => bool_decide (x = s)) (error_is err).

Lemma errors_Is_wrap pre err s : errors_Is (Errorf_w pre err) s = errors_Is err s.
Proof. done. Qed.

(** ** Durations and instants

    A [time.Duration] is a signed count of nanoseconds; an instant is the
    count since the Unix epoch.  [time.Time{}] is the first of January of the
    year 1. *)

Definition Nanosecond : Z := 1.
Definition Microsecond : Z := 1000.
Definition Millisecond : Z := 1000000.
Definition Second : Z := 1000000000.
Definition Minute : Z := 60000000000.
Definition Hour : Z := 3600000000000.

Definition zero_time : Z := -62135596800000000000.

(** [t.Unix()]: whole seconds, rounded down. *)
Definition unix (t : Z) : Z := (t / Second)%Z.
