(* ===== verification/GoTime.v ===== *)
(** * time.ParseDuration

    The parser of Go's duration syntax.  Integer parts are 64-bit; a
    fractional part goes through [float64], modelled by the Standard Library's
    [spec_float] at binary64. *)

From Stdlib Require Import Floats.SpecFloat.
From S2P Require Import Prelude GoStrings GoErrors.

(** [leadingInt]: the value and the rest, or overflow. *)
Fixpoint leadingInt (s : bytes) (x : Z) : option (Z * bytes) :=
  match s with
  | [] => Some (x, [])
  | c :: t =>
      if negb (is_digit c) then Some (x, s)
      else if (2 ^ 63 / 10 <? x)%Z then None
      else let x := (x * 10 + digit_val c)%Z in
           if (2 ^ 63 <? x)%Z then None else leadingInt t x
  end.

Definition f64_of_Z (z : Z) : spec_float := binary_normalize 53 1024 z 0 false.
Definition f64_mul := SFmul 53 1024.
Definition f64_div := SFdiv 53 1024.

(** [uint64(f)] for a finite non-negative [f]. *)
Definition f64_trunc (f : spec_float) : Z :=
  match f with
  | S754_finite false m e => Z.shiftl (Zpos m) e
  | _ => 0%Z
  end.

(** [leadingFraction]: the digits' value, the power of ten, the rest. *)
Fixpoint leadingFraction (s : bytes) (x : Z) (scale : spec_float) (overflow : bool)
    : Z * spec_float * bytes :=
  match s with
  | [] => (x, scale, [])
  | c :: t =>
      if negb (is_digit c) then (x, scale, s)
      else if overflow then leadingFraction t x scale true
      else if ((2 ^ 63 - 1) / 10 <? x)%Z then leadingFraction t x scale true
      else let y := (x * 10 + digit_val c)%Z in
           if (2 ^ 63 <? y)%Z then leadingFraction t x scale true
           else leadingFraction t y (f64_mul scale (f64_of_Z 10)) false
  end.

Fixpoint take_unit (s : bytes) : bytes * bytes :=
  match s with
  | [] => ([], [])
  | c :: t => if (Byte.eqb c "." || is_digit c)%bool then ([], s)
              else let '(u, r) := take_unit t in (c :: u, r)
  end.

(** [unitMap]; the micro sign has two encodings. *)
Definition unit_val (u : bytes) : option Z :=
  if u =s? "ns" then Some Nanosecond
  else if ((u =s? "us") || (u =s? [xc2; xb5; x73]) || (u =s? [xce; xbc; x73]))%bool
  then Some Microsecond
  else if u =s? "ms" then Some Millisecond
  else if u =s? "s" then Some Second
  else if u =s? "m" then Some Minute
  else if u =s? "h" then Some Hour
  else None.

(** One round of the loop consumes at least a digit or a point and a unit. *)
Fixpoint duration_loop (fuel : nat) (s : bytes) (d : Z) : option Z :=
  match s, fuel with
  | [], _ => Some d
  | _, O => None
  | c :: _, S fuel =>
      if negb (Byte.eqb c "." || is_digit c) then None else
      '(v, s1) ← leadingInt s 0;
      let pre := negb (length s1 =? length s)%nat in
      let '(f, scale, s2, post) :=
        match s1 with
        | x2e :: t => let '(f, scale, r) := leadingFraction t 0 (f64_of_Z 1) false in
                      (f, scale, r, negb (length r =? length t)%nat)
        | _ => (0%Z, f64_of_Z 1, s1, false)
        end in
      if negb (pre || post) then None else
      let '(u, s3) := take_unit s2 in
      if match u with [] => true | _ => false end then None else
      unit ← unit_val u;
      if (2 ^ 63 / unit <? v)%Z then None else
      let v := (v * unit)%Z in
      let v := if (0 <? f)%Z
               then wrap_uint64 (v + f64_trunc (f64_mul (f64_of_Z f) (f64_div (f64_of_Z unit) scale)))
               else v in
      if ((0 <? f) && (2 ^ 63 <? v))%Z then None else
      let d := wrap_uint64 (d + v) in
      if (2 ^ 63 <? d)%Z then None else duration_loop fuel s3 d
  end.

Definition ParseDuration (s : bytes) : option Z :=
  let '(neg, s) := match s with
                   | x2d :: r => (true, r)
                   | x2b :: r => (false, r)
                   | _ => (false, s)
                   end in
  if s =s? "0" then Some 0%Z else
  if s =s? [] then None else
  d ← duration_loop (length s) s 0;
  if neg : bool then Some (wrap_int64 (- d))
  else if (2 ^ 63 - 1 <? d)%Z then None else Some d.

Example pd1 : ParseDuration "1h15m30.918s" = Some 4530918000000%Z.
Proof. vm_compute. reflexivity. Qed.
Example pd2 : ParseDuration "-.5s" = Some (-500000000)%Z.
Proof. vm_compute. reflexivity. Qed.
Example pd3 : ParseDuration "25" = None.
Proof. vm_compute. reflexivity. Qed.
Example pd4 : ParseDuration "9223372036854775808ns" = None.
Proof. vm_compute. reflexivity. Qed.
Example pd5 : ParseDuration "-9223372036854775808ns" = Some int64_min.
Proof. vm_compute. reflexivity. Qed.
Example pd6 : ParseDuration "0.3333333333333333333h" = Some 1200000000000%Z.
Proof. vm_compute. reflexivity. Qed.

(** ** Lemmas *)

Lemma leadingInt_digits s x v rest :
  leadingInt s x = Some (v, rest) -> exists ds, s = ds ++ rest /\ forallb is_digit ds = true.
Proof.
  revert x. induction s as [|c s IH]; intros x; cbn [leadingInt].
  - intros [= <- <-]. by exists [].
  - destruct (is_digit c) eqn:E; cbn [negb]; [|intros [= <- <-]; by exists []].
    destruct (_ <? x)%Z; [done|]. cbn zeta. destruct (2 ^ 63 <? _)%Z; [done|].
    intros H. destruct (IH _ H) as (ds & -> & Hd). exists (c :: ds). cbn. by rewrite E, Hd.
Qed.

Lemma leadingInt_all_digits s x v rest :
  forallb is_digit s = true -> leadingInt s x = Some (v, rest) -> rest = [].
Proof.
  revert x. induction s as [|c s IH]; intros x Hd; cbn [leadingInt].
  - by intros [= <- <-].
  - cbn in Hd. bprop. rewrite H. cbn [negb]. destruct (_ <? x)%Z; [done|]. cbn zeta.
    destruct (2 ^ 63 <? _)%Z; [done|]. by apply IH.
Qed.

(** A bare number other than "0" is not a duration: it lacks its unit. *)
Lemma ParseDuration_digits s :
  s <> "0" -> forallb is_digit s = true -> ParseDuration s = None.
Proof.
  intros H0 Hd. unfold ParseDuration.
  assert (match s with x2d :: r => (true, r) | x2b :: r => (false, r) | _ => (false, s) end = (false, s)) as ->.
  { destruct s as [|c s]; [done|]. cbn in Hd. bprop. destruct (digit_not_sign c H) as [Hm Hp].
    destruct c; done. }
  rewrite (proj2 (seqb_neq s "0") H0). destruct s as [|c s]; [done|].
  cbn [seqb length duration_loop]. pose proof Hd as Hd'. cbn in Hd'. bprop. rewrite H, orb_true_r.
  cbn [negb]. destruct (leadingInt (c :: s) 0) as [[v rest]|] eqn:E; [|done].
  apply leadingInt_all_digits in E as ->; [|done]. cbn [mbind option_bind take_unit].
  by destruct (negb _).
Qed.

(** ** Whole numbers below 2^53 are exact [float64]s *)

Lemma digits2_log2 p : Z.pos (digits2_pos p) = (Z.log2 (Z.pos p) + 1)%Z.
Proof.
  induction p as [p IH|p IH|]; cbn [digits2_pos]; [| |done].
  - rewrite Pos2Z.inj_succ, IH, Pos2Z.inj_xI, Z.log2_succ_double by lia. lia.
  - rewrite Pos2Z.inj_succ, IH, Pos2Z.inj_xO, Z.log2_double by lia. lia.
Qed.

Lemma iter_xO p d : Z.pos (Pos.iter xO p d) = (Z.pos p * 2 ^ Z.pos d)%Z.
Proof.
  induction d as [|d IH] using Pos.peano_ind; [cbn; lia|].
  rewrite Pos.iter_succ, Pos2Z.inj_xO, IH, Pos2Z.inj_succ, Z.pow_succ_r by lia. lia.
Qed.

(** A number of 53 binary digits is exact. *)
Lemma round_53 m e : Z.pos (digits2_pos m) = 53%Z -> (-53 <= e <= 0)%Z ->
  binary_round_aux 53 1024 false (Z.pos m) e loc_Exact = S754_finite false m e.
Proof.
  intros Hd He.
  assert (Hs : shr_fexp 53 1024 (Z.pos m) e loc_Exact = ({| shr_m := Z.pos m; shr_r := false; shr_s := false |}, e)).
  { unfold shr_fexp, fexp, emin, shr_record_of_loc. unfold Zdigits2. rewrite Hd.
    replace (Z.max (53 + e - 53) (3 - 1024 - 53) - e)%Z with 0%Z by lia. done. }
  unfold binary_round_aux. rewrite Hs. cbn [shr_m loc_of_shr_record round_nearest_even]. rewrite Hs. cbn [shr_m].
  by destruct (Z.leb_spec e (1024 - 53)); [|lia].
Qed.

Lemma f64_of_Z_trunc n : (0 < n < 2 ^ 53)%Z -> f64_trunc (f64_of_Z n) = n.
Proof.
  intros [Hp Hn]. destruct n as [|p|]; [done| |done].
  unfold f64_of_Z, binary_normalize, binary_round, fexp, emin, shl_align. rewrite digits2_log2.
  assert (Hl : (0 <= Z.log2 (Z.pos p) < 53)%Z) by (split; [apply Z.log2_nonneg|by apply Z.log2_lt_pow2]).
  replace (Z.max (Z.log2 (Z.pos p) + 1 + 0 - 53) (3 - 1024 - 53) - 0)%Z with (Z.log2 (Z.pos p) - 52)%Z by lia.
  replace (Z.max (Z.log2 (Z.pos p) + 1 + 0 - 53) (3 - 1024 - 53))%Z with (Z.log2 (Z.pos p) - 52)%Z by lia.
  destruct (Z.log2 (Z.pos p) - 52)%Z as [|d|d] eqn:E; [|lia|].
  - rewrite round_53 by (rewrite ?digits2_log2; lia). done.
  - rewrite round_53; [|rewrite digits2_log2, iter_xO, Z.log2_mul_pow2 by lia; lia|lia].
    cbn [f64_trunc]. rewrite iter_xO. change (Z.neg d) with (- Z.pos d)%Z. rewrite Z.shiftl_opp_r, Z.shiftr_div_pow2 by lia.
    apply Z.div_mul. lia.
Qed.
