(* ===== verification/GoFlag.v ===== *)
(** * Go's flag package

    [FlagSet.Parse] with [ContinueOnError], the [Value]s the program uses
    (string, bool, int, duration), [strconv.ParseBool] and [strconv.ParseInt]
    in base 0; and the grammar of command lines that [Parse] accepts. *)

From S2P Require Import Prelude GoStrings GoErrors GoTime.

(** ** strconv *)

Definition ParseBool (s : bytes) : option bool :=
  if mem_bytes s ["1"%go; "t"%go; "T"%go; "TRUE"%go; "true"%go; "True"%go] then Some true
  else if mem_bytes s ["0"%go; "f"%go; "F"%go; "FALSE"%go; "false"%go; "False"%go] then Some false
  else None.

(** [c | 0x20]. *)
Definition lower (c : byte) : Z := Z.lor (byte_val c) 32.

(** A digit's value in base 36. *)
Definition digit36 (c : byte) : option Z :=
  if is_digit c then Some (digit_val c)
  else if ((97 <=? lower c) && (lower c <=? 122))%Z then Some (lower c - 97 + 10)%Z
  else None.

(** The digits' loop of [ParseUint] in base 0: underscores are passed over. *)
Fixpoint uint_digits (base n : Z) (s : bytes) : option Z :=
  match s with
  | [] => Some n
  | c :: s =>
      if Byte.eqb c "_" then uint_digits base n s
      else
        d ← digit36 c;
        if (base <=? d)%Z then None
        else
          let n := (n * base + d)%Z in
          if (wrap_uint64 n =? n)%Z then uint_digits base n s else None
  end.

(** What [underscoreOK] has seen last: the beginning, a digit or the prefix, an
    underscore, something else. *)
Inductive saw := SawStart | SawDigit | SawUnderscore | SawOther.
Definition is_hex (c : byte) : bool := ((97 <=? lower c) && (lower c <=? 102))%Z.
Fixpoint underscore_loop (hex : bool) (w : saw) (s : bytes) : bool :=
  match s with
  | [] => match w with SawUnderscore => false | _ => true end
  | c :: s =>
      if is_digit c || (hex && is_hex c) then underscore_loop hex SawDigit s
      else if Byte.eqb c "_" then
        match w with SawDigit => underscore_loop hex SawUnderscore s | _ => false end
      else match w with SawUnderscore => false | _ => underscore_loop hex SawOther s end
  end.
Definition base_prefix (s : bytes) : option (Z * bytes) :=
  match s with
  | x30 :: c :: r =>
      if (lower c =? 98)%Z then Some (2%Z, r)
      else if (lower c =? 111)%Z then Some (8%Z, r)
      else if (lower c =? 120)%Z then Some (16%Z, r)
      else None
  | _ => None
  end.
(** On the digits without their sign. *)
Definition underscoreOK (s : bytes) : bool :=
  match base_prefix s with
  | Some (base, r) => underscore_loop (base =? 16)%Z SawDigit r
  | None => underscore_loop false SawStart s
  end.

(** [ParseUint(s, 0, 64)]; the prefix of a base needs a digit after it. *)
Definition ParseUint0 (s : bytes) : option Z :=
  if s =s? [] then None else
  let '(base, ds) :=
    match base_prefix s with
    | Some (base, (_ :: _) as r) => (base, r)
    | _ => match s with x30 :: r => (8%Z, r) | _ => (10%Z, s) end
    end in
  n ← uint_digits base 0 ds;
  if existsb (Byte.eqb "_") ds && negb (underscoreOK s) then None else Some n.

(** [ParseInt(s, 0, 64)]. *)
Definition ParseInt0 (s : bytes) : option Z :=
  let '(neg, ds) := match s with x2b :: r => (false, r) | x2d :: r => (true, r) | _ => (false, s) end in
  n ← ParseUint0 ds;
  if neg : bool then if (2 ^ 63 <? n)%Z then None else Some (- n)%Z
  else if (2 ^ 63 <=? n)%Z then None else Some n.

Example pi1 : ParseInt0 "-0x_1F" = Some (-31)%Z. Proof. reflexivity. Qed.
Example pi2 : ParseInt0 "0_7" = Some 7%Z. Proof. reflexivity. Qed.
Example pi3 : ParseInt0 "08" = None. Proof. reflexivity. Qed.
Example pi4 : ParseInt0 "1__0" = None. Proof. reflexivity. Qed.
Example pi5 : ParseInt0 "0" = Some 0%Z. Proof. reflexivity. Qed.
Example pi6 : ParseInt0 "9223372036854775808" = None. Proof. reflexivity. Qed.
Example pi7 : ParseInt0 "-9223372036854775808" = Some int64_min. Proof. reflexivity. Qed.
Example pi8 : ParseInt0 "0x" = None. Proof. reflexivity. Qed.
Example pi9 : ParseInt0 "1_000" = Some 1000%Z. Proof. reflexivity. Qed.

(** ** Flags *)

Inductive value := VString (s : bytes) | VBool (b : bool) | VInt (n : Z) | VDuration (d : Z).

(** The flags defined, each with its present value; the kind of a flag is its
    value's. *)
Abbreviation flags := (list (bytes * value)).

Fixpoint lookup_flag (fs : flags) (name : bytes) : option value :=
  match fs with
  | [] => None
  | (n, v) :: fs => if n =s? name then Some v else lookup_flag fs name
  end.
Fixpoint set_flag (fs : flags) (name : bytes) (v : value) : flags :=
  match fs with
  | [] => []
  | (n, w) :: fs => if n =s? name then (n, v) :: fs else (n, w) :: set_flag fs name v
  end.

(** [Value.Set] of a flag of [v]'s kind. *)
Definition Set_value (v : value) (text : bytes) : option value :=
  match v with
  | VString _ => Some (VString text)
  | VBool _ => VBool <$> ParseBool text
  | VInt _ => VInt <$> ParseInt0 text
  | VDuration _ => VDuration <$> ParseDuration text
  end.
Definition is_bool_flag (v : value) : bool := match v with VBool _ => true | _ => false end.

Inductive flag_error :=
| BadFlagSyntax (arg : bytes) | ErrHelp | NotDefined (name : bytes)
| NeedsArgument (name : bytes) | InvalidValue (name text : bytes).

(** The name and the value after the first [=] but at the very front. *)
Definition cut_value (s : bytes) : bytes * option bytes :=
  match s with
  | [] => ([], None)
  | c :: r => match IndexByte r "=" with
              | Some i => (c :: take i r, Some (drop (S i) r))
              | None => (s, None)
              end
  end.

(** What an argument is: the end of the flags, the terminator, or a flag's
    text behind its one or two hyphens. *)
Inductive argument := Operand | Terminator | Flag (text : bytes).
Definition classify (s : bytes) : argument :=
  match s with
  | x2d :: x2d :: [] => Terminator
  | x2d :: x2d :: text => Flag text
  | x2d :: [] => Operand
  | x2d :: text => Flag text
  | _ => Operand
  end.

Definition bad_text (text : bytes) : bool :=
  match text with [] => true | c :: _ => Byte.eqb c "-" || Byte.eqb c "=" end.

(** [Parse]: the flags set, and the arguments that remain. *)
Fixpoint Parse (fs : flags) (args : list bytes) : result flag_error (flags * list bytes) :=
  match args with
  | [] => Ok (fs, [])
  | s :: rest =>
      match classify s with
      | Operand => Ok (fs, args)
      | Terminator => Ok (fs, rest)
      | Flag text =>
          if bad_text text then Err (BadFlagSyntax s) else
          let '(name, val) := cut_value text in
          match lookup_flag fs name with
          | None => Err (if (name =s? "help") || (name =s? "h") then ErrHelp else NotDefined name)
          | Some v =>
              let set_to text k :=
                match Set_value v text with
                | Some v' => k (set_flag fs name v')
                | None => Err (InvalidValue name text)
                end in
              if is_bool_flag v then set_to (default "true"%go val) (fun fs => Parse fs rest)
              else
                match val, rest with
                | Some t, _ => set_to t (fun fs => Parse fs rest)
                | None, t :: rest => set_to t (fun fs => Parse fs rest)
                | None, [] => Err (NeedsArgument name)
                end
          end
      end
  end.

Definition str (fs : flags) (name : bytes) : bytes := match lookup_flag fs name with Some (VString s) => s | _ => [] end.
Definition boolean (fs : flags) (name : bytes) : bool := match lookup_flag fs name with Some (VBool b) => b | _ => false end.
Definition num (fs : flags) (name : bytes) : Z :=
  match lookup_flag fs name with Some (VInt n) | Some (VDuration n) => n | _ => 0%Z end.

(** ** The command lines accepted *)

(** A flag's name in an argument. *)
Definition good_name (name : bytes) : Prop := bad_text name = false /\ x3d ∉ name.
Definition bool_named (fs : flags) (name : bytes) : bool :=
  match lookup_flag fs name with Some v => is_bool_flag v | None => false end.

(** [args] spells the settings [st], in order, and leaves [rest]: a value is
    attached with [=], follows in an argument of its own, or is the [true] of
    a boolean flag that stands alone. *)
Inductive spells (isbool : bytes -> bool) : list bytes -> list (bytes * bytes) -> list bytes -> Prop :=
| sp_nil : spells isbool [] [] []
| sp_operand s rest : classify s = Operand -> spells isbool (s :: rest) [] (s :: rest)
| sp_terminator s rest : classify s = Terminator -> spells isbool (s :: rest) [] rest
| sp_attached s name text args st rest :
    classify s = Flag (name ++ "=" ++ text) -> good_name name ->
    spells isbool args st rest -> spells isbool (s :: args) ((name, text) :: st) rest
| sp_bare s name args st rest :
    classify s = Flag name -> good_name name -> isbool name = true ->
    spells isbool args st rest -> spells isbool (s :: args) ((name, "true"%go) :: st) rest
| sp_separate s name text args st rest :
    classify s = Flag name -> good_name name -> isbool name = false ->
    spells isbool args st rest -> spells isbool (s :: text :: args) ((name, text) :: st) rest.

(** The settings made one after the other; a later one prevails. *)
Fixpoint settings (fs : flags) (st : list (bytes * bytes)) : option flags :=
  match st with
  | [] => Some fs
  | (name, text) :: st =>
      v ← lookup_flag fs name; v' ← Set_value v text; settings (set_flag fs name v') st
  end.

Lemma lookup_set fs name v name' :
  lookup_flag (set_flag fs name v) name' =
  if name =s? name' then match lookup_flag fs name with Some _ => Some v | None => None end else lookup_flag fs name'.
Proof.
  induction fs as [|[n w] fs IH]; cbn [set_flag lookup_flag]; [by case_bools|].
  destruct (seqb_spec n name) as [->|Hn]; cbn [lookup_flag].
  - by destruct (name =s? name').
  - rewrite IH. destruct (seqb_spec name name') as [->|]; [|done]. by rewrite (proj2 (seqb_neq n name') Hn).
Qed.

Lemma Set_value_kind v text v' : Set_value v text = Some v' -> is_bool_flag v' = is_bool_flag v.
Proof.
  destruct v; cbn [Set_value]; intros H.
  - by injection H as <-.
  - by apply fmap_Some in H as (b' & _ & ->).
  - by apply fmap_Some in H as (b' & _ & ->).
  - by apply fmap_Some in H as (b' & _ & ->).
Qed.

(** Setting a flag does not change what kinds the flags are of. *)
Lemma bool_named_set fs name v v' text : lookup_flag fs name = Some v -> Set_value v text = Some v' ->
  forall n, bool_named (set_flag fs name v') n = bool_named fs n.
Proof.
  intros Hl Hs n. unfold bool_named. rewrite lookup_set, Hl.
  destruct (seqb_spec name n) as [<-|]; [|done]. rewrite Hl. by eapply Set_value_kind.
Qed.

Lemma spells_ext f g args st rest : (forall n, f n = g n) -> spells f args st rest -> spells g args st rest.
Proof. intros E. induction 1; econstructor; eauto; by rewrite <-E. Qed.

Lemma cut_value_attached name text : good_name name -> cut_value (name ++ "=" ++ text) = (name, Some text).
Proof.
  intros [Hb Hn]. destruct name as [|c r]; [done|]. cbn [app cut_value].
  rewrite IndexByte_app by set_solver. rewrite take_app_length.
  replace (S (length r)) with (length (r ++ [x3d])) by (rewrite length_app; cbn; lia).
  replace (r ++ x3d :: text) with ((r ++ [x3d]) ++ text) by by rewrite <-app_assoc.
  by rewrite drop_app_length.
Qed.

Lemma cut_value_bare name : good_name name -> cut_value name = (name, None).
Proof.
  intros [Hb Hn]. destruct name as [|c r]; [done|]. cbn [cut_value].
  rewrite (proj2 (IndexByte_None r x3d)); [done|set_solver].
Qed.

(** What [cut_value] finds is one of the two. *)
Lemma cut_value_inv t name val : bad_text t = false -> cut_value t = (name, val) ->
  good_name name /\ match val with Some text => t = name ++ "=" ++ text | None => t = name end.
Proof.
  destruct t as [|c r]; [done|]. cbn [cut_value]. intros Hb.
  destruct (IndexByte r "=") as [i|] eqn:E; intros [= <- <-].
  - apply IndexByte_Some in E as [Er Hi]. split; [split; [done|]|].
    + intros [E0|Hin]%elem_of_cons; [by subst c|].
      done.
    + cbn [app]. f_equal. exact Er.
  - apply IndexByte_None in E. split; [split; [done|]|done].
    intros [E0|Hin]%elem_of_cons; [by subst c|done].
Qed.

Lemma bad_text_app name t : good_name name -> bad_text (name ++ t) = false.
Proof. intros [H _]. by destruct name. Qed.

Lemma classify_flag_text s t : classify s = Flag t -> s = x2d :: t \/ s = x2d :: x2d :: t.
Proof.
  destruct s as [|c s]; [done|]. destruct c; try done. destruct s as [|d s]; [done|]. cbn [classify].
  destruct d; try (intros [= <-]; by left). destruct s; [done|]. intros [= <-]. by right.
Qed.

(** [Parse] accepts a command line exactly when it spells settings that can
    be made, and does make them. *)
Lemma Parse_sound fs args fs' rest : Parse fs args = Ok (fs', rest) ->
  exists st, spells (bool_named fs) args st rest /\ settings fs st = Some fs'.
Proof.
  remember (length args) as n eqn:En. revert fs args En.
  induction (lt_wf n) as [n _ IH]. intros fs args En H. subst n.
  destruct args as [|s args]; cbn [Parse] in H; [injection H as <- <-; exists []; by repeat constructor|].
  destruct (classify s) as [| |t] eqn:Ec; [injection H as <- <-; exists []; split; [by constructor|done]..|].
  destruct (bad_text t) eqn:Eb; [done|]. destruct (cut_value t) as [name val] eqn:Et.
  destruct (cut_value_inv _ _ _ Eb Et) as [Hn Hval].
  destruct (lookup_flag fs name) as [v|] eqn:El; [|done].
  assert (Hstep : forall text args' , (length args' <= length args)%nat ->
    match Set_value v text with Some v' => Parse (set_flag fs name v') args' | None => Err (InvalidValue name text) end = Ok (fs', rest) ->
    exists st, spells (bool_named fs) args' st rest /\ settings fs ((name, text) :: st) = Some fs').
  { intros text args' Hlen Hp. destruct (Set_value v text) as [v'|] eqn:Es; [|done].
    destruct (IH (length args') ltac:(cbn; lia) _ _ eq_refl Hp) as (st & Hsp & Hset). exists st. split.
    - eapply spells_ext; [|exact Hsp]. by eapply bool_named_set.
    - cbn [settings]. rewrite El. cbn [mbind option_bind]. by rewrite Es. }
  assert (Hbn : bool_named fs name = is_bool_flag v) by (unfold bool_named; by rewrite El).
  destruct (is_bool_flag v) eqn:Ek.
  - destruct (Hstep (default "true"%go val) args ltac:(done) H) as (st & Hsp & Hset).
    exists ((name, default "true"%go val) :: st). split; [|done]. destruct val as [text|]; subst t.
    + by apply sp_attached.
    + by apply sp_bare.
  - destruct val as [text|]; [|destruct args as [|text args]; [done|]].
    + destruct (Hstep text args ltac:(done) H) as (st & Hsp & Hset). eexists. split; [|exact Hset].
      subst t. by apply sp_attached.
    + destruct (Hstep text args ltac:(cbn; lia) H) as (st & Hsp & Hset). eexists. split; [|exact Hset].
      subst t. by apply sp_separate.
Qed.

(** One flag set. *)
Lemma Parse_attached fs s name text v v' args :
  classify s = Flag (name ++ "=" ++ text) -> good_name name -> lookup_flag fs name = Some v -> Set_value v text = Some v' ->
  Parse fs (s :: args) = Parse (set_flag fs name v') args.
Proof.
  intros Ec Hn El Es. cbn [Parse]. rewrite Ec, bad_text_app, cut_value_attached, El by done. cbn [default id].
  rewrite Es. by destruct (is_bool_flag v).
Qed.

Lemma Parse_bare fs s name v v' args :
  classify s = Flag name -> good_name name -> lookup_flag fs name = Some v -> is_bool_flag v = true ->
  Set_value v "true" = Some v' -> Parse fs (s :: args) = Parse (set_flag fs name v') args.
Proof.
  intros Ec Hn El Hb Es. cbn [Parse]. rewrite Ec, (proj1 Hn), cut_value_bare, El, Hb by done. cbn [default id]. by rewrite Es.
Qed.

Lemma Parse_separate fs s name text v v' args :
  classify s = Flag name -> good_name name -> lookup_flag fs name = Some v -> is_bool_flag v = false ->
  Set_value v text = Some v' -> Parse fs (s :: text :: args) = Parse (set_flag fs name v') args.
Proof.
  intros Ec Hn El Hb Es. change (Parse fs (s :: text :: args)) with
    (match classify s with
     | Operand => Ok (fs, s :: text :: args)
     | Terminator => Ok (fs, text :: args)
     | Flag t =>
         if bad_text t then Err (BadFlagSyntax s) else
         let '(name, val) := cut_value t in
         match lookup_flag fs name with
         | None => Err (if (name =s? "help") || (name =s? "h") then ErrHelp else NotDefined name)
         | Some v =>
             let set_to text k := match Set_value v text with
                                  | Some v' => k (set_flag fs name v')
                                  | None => Err (InvalidValue name text) end in
             if is_bool_flag v then set_to (default "true"%go val) (fun fs => Parse fs (text :: args))
             else match val with
                  | Some t => set_to t (fun fs => Parse fs (text :: args))
                  | None => set_to text (fun fs => Parse fs args)
                  end
         end
     end).
  rewrite Ec, (proj1 Hn), cut_value_bare, El, Hb by done. cbv beta zeta iota. by rewrite Es.
Qed.

Lemma Parse_complete isbool args st rest : spells isbool args st rest ->
  forall fs fs', (forall n, isbool n = bool_named fs n) -> settings fs st = Some fs' -> Parse fs args = Ok (fs', rest).
Proof.
  induction 1 as [|s rest Ec|s rest Ec|s name text args st rest Ec Hn Hs IH|s name args st rest Ec Hn Hb Hs IH|s name text args st rest Ec Hn Hb Hs IH];
    intros fs fs' Hf Hset.
  1-3: cbn [settings] in Hset; injection Hset as <-; cbn [Parse]; by rewrite ?Ec.
  all: cbn [settings] in Hset; apply bind_Some in Hset as (v & El & Hset); apply bind_Some in Hset as (v' & Es & Hset).
  all: assert (Hk : forall n, isbool n = bool_named (set_flag fs name v') n) by
    (intros n; rewrite Hf; symmetry; by eapply bool_named_set).
  all: try (rewrite Hf in Hb; unfold bool_named in Hb; rewrite El in Hb).
  - rewrite (Parse_attached fs s name text v v') by done. by apply IH.
  - rewrite (Parse_bare fs s name v v') by done. by apply IH.
  - rewrite (Parse_separate fs s name text v v') by done. by apply IH.
Qed.

Lemma Parse_iff fs args fs' rest : Parse fs args = Ok (fs', rest) <->
  exists st, spells (bool_named fs) args st rest /\ settings fs st = Some fs'.
Proof.
  split; [apply Parse_sound|]. intros (st & Hs & Hset). by eapply Parse_complete.
Qed.

(** ** The settings' effect *)

(** The text last set for a flag. *)
Fixpoint last_setting (st : list (bytes * bytes)) (name : bytes) : option bytes :=
  match st with
  | [] => None
  | (n, t) :: st => match last_setting st name with Some t' => Some t' | None => if n =s? name then Some t else None end
  end.

(** A flag ends with the value of its last setting, or with its default. *)
Lemma settings_last fs st fs' name v :
  settings fs st = Some fs' -> lookup_flag fs name = Some v ->
  lookup_flag fs' name = match last_setting st name with None => Some v | Some t => Set_value v t end.
Proof.
  assert (Hkind : forall w t w' t', Set_value w t = Some w' -> Set_value w' t' = Set_value w t').
  { intros w t w' t' Hs. destruct w; cbn [Set_value] in Hs.
    - by injection Hs as <-.
    - by apply fmap_Some in Hs as (? & _ & ->).
    - by apply fmap_Some in Hs as (? & _ & ->).
    - by apply fmap_Some in Hs as (? & _ & ->). }
  revert fs v. induction st as [|[n t] st IH]; intros fs v; cbn [settings last_setting]; [by intros [= <-]|].
  intros Hs Hl. apply bind_Some in Hs as (w & Hw & Hs). apply bind_Some in Hs as (w' & Hw' & Hs).
  destruct (seqb_spec n name) as [->|Hne].
  - rewrite Hw in Hl. injection Hl as ->.
    rewrite (IH (set_flag fs name w') w' Hs); [|by rewrite lookup_set, seqb_refl, Hw].
    destruct (last_setting st name); [by eapply Hkind|done].
  - rewrite (IH (set_flag fs n w') v Hs); [by destruct (last_setting st name)|].
    by rewrite lookup_set, (proj2 (seqb_neq n name) Hne).
Qed.
