(* ===== verification/Encoding.v ===== *)
(** * encoding/hex and encoding/base64, as far as the program uses them

    [hex.EncodeToString], [hex.DecodeString], and base64 with the standard
    alphabet and padding ([StdEncoding]) or the URL alphabet without padding
    ([RawURLEncoding]), with their round trips. *)

From S2P Require Import Prelude.

(** ** Hexadecimal *)

Definition hex_digit (v : Z) : byte :=
  byte_of_Z (if v <? 10 then 48 + v else 87 + v)%Z.

Definition from_hex (c : byte) : option Z :=
  let v := byte_val c in
  if ((48 <=? v) && (v <=? 57))%Z then Some (v - 48)%Z
  else if ((97 <=? v) && (v <=? 102))%Z then Some (v - 87)%Z
  else if ((65 <=? v) && (v <=? 70))%Z then Some (v - 55)%Z
  else None.

Fixpoint hex_encode (s : bytes) : bytes :=
  match s with
  | [] => []
  | b :: s => hex_digit (byte_val b / 16) :: hex_digit (byte_val b mod 16) :: hex_encode s
  end.

Inductive hex_error := HexInvalidByte (c : byte) | HexLength.

Fixpoint hex_decode (s : bytes) : result hex_error bytes :=
  match s with
  | [] => Ok []
  | [a] => match from_hex a with None => Err (HexInvalidByte a) | Some _ => Err HexLength end
  | a :: b :: s =>
      match from_hex a, from_hex b with
      | None, _ => Err (HexInvalidByte a)
      | _, None => Err (HexInvalidByte b)
      | Some x, Some y => let* t := hex_decode s in Ok (byte_of_Z (16 * x + y) :: t)
      end
  end.

(** ** Base64 *)

Record b64 := mkB64 { b64_62 : byte; b64_63 : byte; b64_pad : bool }.
Definition StdEncoding : b64 := mkB64 "+" "/" true.
Definition RawURLEncoding : b64 := mkB64 "-" "_" false.

Definition b64_char (e : b64) (v : Z) : byte :=
  if (v <? 26)%Z then byte_of_Z (65 + v)
  else if (v <? 52)%Z then byte_of_Z (71 + v)
  else if (v <? 62)%Z then byte_of_Z (v - 4)
  else if (v =? 62)%Z then b64_62 e else b64_63 e.

Definition b64_val (e : b64) (c : byte) : option Z :=
  let v := byte_val c in
  if ((65 <=? v) && (v <=? 90))%Z then Some (v - 65)%Z
  else if ((97 <=? v) && (v <=? 122))%Z then Some (v - 71)%Z
  else if ((48 <=? v) && (v <=? 57))%Z then Some (v + 4)%Z
  else if Byte.eqb c (b64_62 e) then Some 62%Z
  else if Byte.eqb c (b64_63 e) then Some 63%Z
  else None.

Fixpoint b64_encode (e : b64) (s : bytes) : bytes :=
  match s with
  | [] => []
  | [a] =>
      let x := byte_val a in
      b64_char e (x / 4) :: b64_char e (x mod 4 * 16) :: (if b64_pad e then "==" else [])
  | [a; b] =>
      let x := (byte_val a * 256 + byte_val b)%Z in
      b64_char e (x / 1024) :: b64_char e (x / 16 mod 64) :: b64_char e (x mod 16 * 4)
        :: (if b64_pad e then "=" else [])
  | a :: b :: c :: s =>
      let x := (byte_val a * 65536 + byte_val b * 256 + byte_val c)%Z in
      b64_char e (x / 262144) :: b64_char e (x / 4096 mod 64)
        :: b64_char e (x / 64 mod 64) :: b64_char e (x mod 64) :: b64_encode e s
  end.

(** The bytes of two, three and four sextets; left-over bits are ignored, the
    decoder not being strict. *)
Definition quantum2 (p q : Z) : bytes := [byte_of_Z ((p * 64 + q) / 16)].
Definition quantum3 (p q r : Z) : bytes :=
  let x := (p * 4096 + q * 64 + r)%Z in [byte_of_Z (x / 1024); byte_of_Z (x / 4)].
Definition quantum4 (p q r t : Z) : bytes :=
  let x := (p * 262144 + q * 4096 + r * 64 + t)%Z in
  [byte_of_Z (x / 65536); byte_of_Z (x / 256); byte_of_Z x].

Fixpoint b64_quanta (e : b64) (s : bytes) : option bytes :=
  match s with
  | [] => Some []
  | [_] => None
  | [a; b] =>
      if b64_pad e then None
      else p ← b64_val e a; q ← b64_val e b; Some (quantum2 p q)
  | [a; b; c] =>
      if b64_pad e then None
      else p ← b64_val e a; q ← b64_val e b; r ← b64_val e c; Some (quantum3 p q r)
  | a :: b :: c :: d :: s =>
      p ← b64_val e a; q ← b64_val e b;
      if (b64_pad e && Byte.eqb c "=")%bool
      then if Byte.eqb d "=" then match s with [] => Some (quantum2 p q) | _ => None end else None
      else
        r ← b64_val e c;
        if (b64_pad e && Byte.eqb d "=")%bool
        then match s with [] => Some (quantum3 p q r) | _ => None end
        else t ← b64_val e d; rest ← b64_quanta e s; Some (quantum4 p q r t ++ rest)
  end.

Definition not_newline (c : byte) : bool := negb (Byte.eqb c x0a || Byte.eqb c x0d).

(** [DecodeString]: carriage returns and newlines are skipped. *)
Definition b64_decode (e : b64) (s : bytes) : option bytes :=
  b64_quanta e (List.filter not_newline s).

(** ** Lemmas *)

Lemma list_ind3 {A} (P : list A -> Prop) :
  P [] -> (forall a, P [a]) -> (forall a b, P [a; b]) ->
  (forall a b c l, P l -> P (a :: b :: c :: l)) -> forall l, P l.
Proof.
  intros H0 H1 H2 H3. fix IH 1. intros [|a [|b [|c l]]]; [done | apply H1 | apply H2 | apply H3, IH].
Qed.

Lemma list_ind2 {A} (P : list A -> Prop) :
  P [] -> (forall a, P [a]) -> (forall a b l, P l -> P (a :: b :: l)) -> forall l, P l.
Proof. intros H0 H1 H2. fix IH 1. intros [|a [|b l]]; [done | apply H1 | apply H2, IH]. Qed.

Lemma from_hex_digit v : (0 <= v < 16)%Z -> from_hex (hex_digit v) = Some v.
Proof.
  intros H. assert (In v (map Z.of_nat (seq 0 16))) as Hin.
  { apply in_map_iff. exists (Z.to_nat v). rewrite in_seq. lia. }
  cbn in Hin. repeat destruct Hin as [<-|Hin]; [reflexivity..|done].
Qed.

Lemma hex_decode_encode s : hex_decode (hex_encode s) = Ok s.
Proof.
  induction s as [|b s IH]; [done|]. cbn [hex_encode hex_decode].
  pose proof (byte_val_range b) as Hb.
  rewrite !from_hex_digit, IH by (Z.div_mod_to_equations; lia). cbn [rbind].
  do 2 f_equal. rewrite <-(byte_of_Z_val b) at 3. f_equal. Z.div_mod_to_equations; lia.
Qed.

Lemma hex_encode_length s : length (hex_encode s) = (2 * length s)%nat.
Proof. induction s; cbn; lia. Qed.

Lemma hex_encode_inj s t : hex_encode s = hex_encode t -> s = t.
Proof.
  intros H. assert (@Ok hex_error _ s = Ok t) as [=]; [|done].
  by rewrite <-!hex_decode_encode, H.
Qed.

Lemma hex_decode_length s t : hex_decode s = Ok t -> length s = (2 * length t)%nat.
Proof.
  revert t. induction s as [|a|a b s IH] using list_ind2; intros t H; cbn [hex_decode] in H.
  - by injection H as <-.
  - by destruct (from_hex a).
  - destruct (from_hex a), (from_hex b); try done. inv_result H. injection H as <-.
    cbn. rewrite (IH _ eq_refl). lia.
Qed.

(** The two alphabets the program uses. *)
Definition alphabet_ok (e : b64) : Prop := e = StdEncoding \/ e = RawURLEncoding.

Definition b64_char_facts (e : b64) (v : Z) : bool :=
  match b64_val e (b64_char e v) with Some w => (w =? v)%Z | None => false end &&
  not_newline (b64_char e v) && negb (Byte.eqb (b64_char e v) "=").

Lemma b64_char_ok e v :
  alphabet_ok e -> (0 <= v < 64)%Z ->
  b64_val e (b64_char e v) = Some v /\ not_newline (b64_char e v) = true /\
  Byte.eqb (b64_char e v) "=" = false.
Proof.
  intros He H. assert (forallb (b64_char_facts e) (map Z.of_nat (seq 0 64)) = true) as HA
    by (destruct He as [->| ->]; vm_compute; reflexivity).
  rewrite forallb_forall in HA. specialize (HA v).
  assert (In v (map Z.of_nat (seq 0 64))) as Hin.
  { apply in_map_iff. exists (Z.to_nat v). rewrite in_seq. lia. }
  specialize (HA Hin). unfold b64_char_facts in HA. bprop.
  destruct (b64_val e _); [|done]. bprop. subst. auto.
Qed.

Lemma byte_of_Z_low b k : byte_of_Z (byte_val b + 256 * k) = b.
Proof.
  apply byte_val_inj. rewrite byte_val_of_Z, (Z.mul_comm 256), Z.mod_add by lia.
  apply Z.mod_small, byte_val_range.
Qed.

Lemma byte_of_Z_eq b z k : z = (byte_val b + 256 * k)%Z -> byte_of_Z z = b.
Proof. intros ->. apply byte_of_Z_low. Qed.

Section RoundTrip.
Context (e : b64) (He : alphabet_ok e).

Lemma b64_quanta_encode s : b64_quanta e (b64_encode e s) = Some s.
Proof.
  induction s as [|a|a b|a b c s IH] using list_ind3; [done| | |];
    pose proof (byte_val_range a) as Ha;
    try pose proof (byte_val_range b) as Hb; try pose proof (byte_val_range c) as Hc.
  - set (x := byte_val a) in *.
    destruct (b64_char_ok e (x / 4) He) as (V1 & _ & _); [Z.div_mod_to_equations; lia|].
    destruct (b64_char_ok e (x mod 4 * 16) He) as (V2 & _ & _); [Z.div_mod_to_equations; lia|].
    cbn [b64_encode]. fold x.
    destruct (b64_pad e) eqn:Ep; cbn [b64_quanta]; rewrite Ep, V1, V2; cbn;
      f_equal; unfold quantum2; f_equal; apply (byte_of_Z_eq a _ 0); fold x;
      Z.div_mod_to_equations; lia.
  - set (x := (byte_val a * 256 + byte_val b)%Z).
    destruct (b64_char_ok e (x / 1024) He) as (V1 & _ & _); [Z.div_mod_to_equations; lia|].
    destruct (b64_char_ok e (x / 16 mod 64) He) as (V2 & _ & _); [Z.div_mod_to_equations; lia|].
    destruct (b64_char_ok e (x mod 16 * 4) He) as (V3 & _ & P3); [Z.div_mod_to_equations; lia|].
    cbn [b64_encode]. fold x.
    destruct (b64_pad e) eqn:Ep; cbn [b64_quanta]; rewrite Ep, V1, V2, ?P3; cbn;
      rewrite V3; cbn; f_equal; unfold quantum3; f_equal; [|f_equal| |f_equal].
    all: first [ apply (byte_of_Z_eq a _ 0); Z.div_mod_to_equations; lia
               | apply (byte_of_Z_eq b _ (byte_val a)); Z.div_mod_to_equations; lia ].
  - set (x := (byte_val a * 65536 + byte_val b * 256 + byte_val c)%Z).
    destruct (b64_char_ok e (x / 262144) He) as (V1 & _ & _); [Z.div_mod_to_equations; lia|].
    destruct (b64_char_ok e (x / 4096 mod 64) He) as (V2 & _ & _); [Z.div_mod_to_equations; lia|].
    destruct (b64_char_ok e (x / 64 mod 64) He) as (V3 & _ & P3); [Z.div_mod_to_equations; lia|].
    destruct (b64_char_ok e (x mod 64) He) as (V4 & _ & P4); [Z.div_mod_to_equations; lia|].
    cbn [b64_encode]. fold x. cbn [b64_quanta].
    rewrite V1, V2, P3, andb_false_r. cbn. rewrite V3. cbn. rewrite P4, andb_false_r, V4, IH.
    cbn. f_equal. f_equal; [|f_equal; [|f_equal]].
    + apply (byte_of_Z_eq a _ 0). Z.div_mod_to_equations; lia.
    + apply (byte_of_Z_eq b _ (byte_val a)). Z.div_mod_to_equations; lia.
    + apply (byte_of_Z_eq c _ (byte_val a * 256 + byte_val b)). Z.div_mod_to_equations; lia.
Qed.

(** An encoding has no newline, and no padding character inside. *)
Lemma b64_encode_newline_free s : List.filter not_newline (b64_encode e s) = b64_encode e s.
Proof.
  assert (forall v, (0 <= v < 64)%Z -> not_newline (b64_char e v) = true) as HC
    by (intros v Hv; by destruct (b64_char_ok e v He Hv) as (_ & ? & _)).
  induction s as [|a|a b|a b c s IH] using list_ind3; [done| | |];
    pose proof (byte_val_range a) as Ha;
    try pose proof (byte_val_range b) as Hb; try pose proof (byte_val_range c) as Hc;
    cbn [b64_encode List.filter];
    rewrite !HC by (Z.div_mod_to_equations; lia); rewrite ?IH;
    destruct (b64_pad e); done.
Qed.

Lemma b64_decode_encode s : b64_decode e (b64_encode e s) = Some s.
Proof. unfold b64_decode. rewrite b64_encode_newline_free. apply b64_quanta_encode. Qed.

Lemma b64_encode_inj s t : b64_encode e s = b64_encode e t -> s = t.
Proof.
  intros H. assert (Some s = Some t) as [=]; [|done]. by rewrite <-!b64_decode_encode, H.
Qed.
End RoundTrip.

Lemma std_alphabet : alphabet_ok StdEncoding.
Proof. by left. Qed.
Lemma url_alphabet : alphabet_ok RawURLEncoding.
Proof. by right. Qed.
#[export] Hint Resolve std_alphabet url_alphabet : go.

(** A property of characters that both alphabets have holds of an encoding. *)
Lemma b64_encode_Forall e (P : byte -> bool) s :
  forallb (fun v => P (b64_char e v)) (map Z.of_nat (seq 0 64)) = true ->
  (b64_pad e = true -> P x3d = true) -> forallb P (b64_encode e s) = true.
Proof.
  intros HP Hpad. rewrite forallb_forall in HP.
  assert (forall v, (0 <= v < 64)%Z -> P (b64_char e v) = true) as HC.
  { intros v Hv. apply HP, in_map_iff. exists (Z.to_nat v). rewrite in_seq. lia. }
  induction s as [|a|a b|a b c s IH] using list_ind3; [done| | |];
    pose proof (byte_val_range a) as Ha;
    try pose proof (byte_val_range b) as Hb; try pose proof (byte_val_range c) as Hc;
    cbn [b64_encode forallb];
    rewrite !HC by (Z.div_mod_to_equations; lia); cbn [andb]; try done;
    destruct (b64_pad e); cbn; rewrite ?Hpad by done; done.
Qed.

Lemma b64_std_length s :
  length (b64_encode StdEncoding s) = (4 * ((length s + 2) / 3))%nat.
Proof.
  induction s as [|a|a b|a b c s IH] using list_ind3; [done..|].
  cbn [b64_encode length]. rewrite IH. replace (S (S (S (length s))) + 2)%nat
    with (length s + 2 + 1 * 3)%nat by lia. rewrite Nat.div_add by lia. lia.
Qed.
