(* ===== verification/NetIP.v ===== *)
(** * net/netip: addresses and prefixes

    [Addr] and [Prefix] with the parsers and printers the program uses.  An
    IPv4 address is a 32-bit number, an IPv6 address a 128-bit number with a
    zone; [AddrZero] is the invalid zero [Addr]. *)

From S2P Require Import Prelude GoStrings.

Inductive Addr :=
| AddrZero
| Addr4 (v : Z)
| Addr6 (v : Z) (zone : bytes).

#[global] Instance Addr_eq_dec : EqDecision Addr.
Proof. solve_decision. Defined.

#[global] Instance Addr_countable : Countable Addr.
Proof.
  refine (inj_countable'
    (fun a => match a with AddrZero => inl tt | Addr4 v => inr (inl v) | Addr6 v z => inr (inr (v, z)) end)
    (fun s => match s with inl _ => AddrZero | inr (inl v) => Addr4 v | inr (inr (v, z)) => Addr6 v z end) _).
  by intros [].
Defined.

Definition Addr_IsValid (a : Addr) : bool := match a with AddrZero => false | _ => true end.
Definition Is4 (a : Addr) : bool := match a with Addr4 _ => true | _ => false end.
Definition Is6 (a : Addr) : bool := match a with Addr6 _ _ => true | _ => false end.
Definition BitLen (a : Addr) : Z := match a with AddrZero => 0 | Addr4 _ => 32 | Addr6 _ _ => 128 end.

(** A well-formed address: its number fits its width. *)
Definition addr_wf (a : Addr) : Prop :=
  match a with
  | AddrZero => True
  | Addr4 v => (0 <= v < 2 ^ 32)%Z
  | Addr6 v _ => (0 <= v < 2 ^ 128)%Z
  end.

(** [Next]: the zero [Addr] after the last address. *)
Definition Next (a : Addr) : Addr :=
  match a with
  | AddrZero => AddrZero
  | Addr4 v => if (v + 1 <? 2 ^ 32)%Z then Addr4 (v + 1) else AddrZero
  | Addr6 v z => if (v + 1 <? 2 ^ 128)%Z then Addr6 (v + 1) z else AddrZero
  end.

(** ** Parsing *)

Definition octet (s : bytes) : option Z :=
  match s with
  | [] => None
  | [c] => if is_digit c then Some (digit_val c) else None
  | c :: _ =>
      if Byte.eqb c "0" then None              (* leading zero *)
      else v ← digits_val 0 s; if (v <=? 255)%Z then Some v else None
  end.

(** Four decimal fields between dots. *)
Definition parseIPv4 (s : bytes) : option Z :=
  match split_byte "." s with
  | [a; b; c; d] =>
      a ← octet a; b ← octet b; c ← octet c; d ← octet d;
      Some (a * 16777216 + b * 65536 + c * 256 + d)%Z
  | _ => None
  end.

Definition hex_val (c : byte) : option Z :=
  let v := byte_val c in
  if ((48 <=? v) && (v <=? 57))%Z then Some (v - 48)%Z
  else if ((97 <=? v) && (v <=? 102))%Z then Some (v - 87)%Z
  else if ((65 <=? v) && (v <=? 70))%Z then Some (v - 55)%Z
  else None.

(** A run of hexadecimal digits: how many, their value, the rest. *)
Fixpoint hex_run (s : bytes) (n : nat) (acc : Z) : nat * Z * bytes :=
  match s with
  | [] => (n, acc, [])
  | c :: t => match hex_val c with
              | Some v => hex_run t (S n) (16 * acc + v)
              | None => (n, acc, s)
              end
  end.

(** The 16-bit groups read, the position of the ellipsis among them, and
    whether the text ended at the ellipsis. *)
Fixpoint parse_groups (room : nat) (s : bytes) (got : list Z) (ell : option nat)
    : option (list Z * option nat) :=
  match room with
  | O => None                                   (* trailing garbage *)
  | S room =>
      let '(n, v, rest) := hex_run s 0 0 in
      if ((n =? 0) || (4 <? n))%nat then None else
      match rest with
      | [] => Some (got ++ [v], ell)
      | c :: rest =>
          if Byte.eqb c "." then
            (* an IPv4 address in the last two groups *)
            if (match ell with None => negb (length got =? 6)%nat | Some _ => false end
                || (room =? 0)%nat)%bool then None else
            v4 ← parseIPv4 s;
            Some (got ++ [(v4 / 65536)%Z; (v4 mod 65536)%Z], ell)
          else if negb (Byte.eqb c ":") then None else
          match rest with
          | [] => None
          | d :: rest' =>
              if negb (Byte.eqb d ":") then parse_groups room rest (got ++ [v]) ell else
              match ell with
              | Some _ => None
              | None =>
                  let got := got ++ [v] in
                  match rest' with
                  | [] => Some (got, Some (length got))
                  | _ => parse_groups room rest' got (Some (length got))
                  end
              end
          end
      end
  end.

Definition groups_val (l : list Z) : Z := fold_left (fun acc g => acc * 65536 + g)%Z l 0%Z.

(** Put the zeros of the ellipsis in place. *)
Definition expand (r : list Z * option nat) : option Z :=
  let '(got, ell) := r in
  match ell with
  | None => if (length got =? 8)%nat then Some (groups_val got) else None
  | Some i =>
      if (8 <=? length got)%nat then None
      else Some (groups_val (take i got ++ replicate (8 - length got) 0%Z ++ drop i got))
  end.

Definition parseIPv6 (s : bytes) : option Addr :=
  let '(s, zone, bad) := match IndexByte s "%" with
    | None => (s, [], false)
    | Some i => (take i s, drop (S i) s, match drop (S i) s with [] => true | _ => false end)
    end in
  if bad : bool then None else
  match cut_prefix "::" s with
  | Some [] => Some (Addr6 0 zone)
  | Some s => r ← parse_groups 8 s [] (Some O); v ← expand r; Some (Addr6 v zone)
  | None => r ← parse_groups 8 s [] None; v ← expand r; Some (Addr6 v zone)
  end.

(** [ParseAddr]: the first of the characters '.', ':' and '%' decides. *)
Definition ParseAddr (s : bytes) : option Addr :=
  match IndexAny s ".:%" with
  | None => None
  | Some i => match s !! i with
              | Some c => if Byte.eqb c "." then Addr4 <$> parseIPv4 s
                          else if Byte.eqb c ":" then parseIPv6 s else None
              | None => None
              end
  end.

(** ** Printing *)

Definition fmt4 (v : Z) : bytes :=
  dec (v / 16777216) ++ "." ++ dec (v / 65536 mod 256) ++ "." ++
  dec (v / 256 mod 256) ++ "." ++ dec (v mod 256).

Definition hexd (v : Z) : byte := byte_of_Z (if v <? 10 then 48 + v else 87 + v)%Z.
Definition hex16 (v : Z) : bytes :=
  (if (4096 <=? v)%Z then [hexd (v / 4096)] else []) ++
  (if (256 <=? v)%Z then [hexd (v / 256 mod 16)] else []) ++
  (if (16 <=? v)%Z then [hexd (v / 16 mod 16)] else []) ++ [hexd (v mod 16)].

Definition group (v : Z) (i : nat) : Z := (v / 65536 ^ Z.of_nat (7 - i) mod 65536)%Z.

Fixpoint zero_run (v : Z) (i fuel : nat) : nat :=
  match fuel with
  | O => i
  | S fuel => if (group v i =? 0)%Z then zero_run v (S i) fuel else i
  end.

(** The first longest run of at least two zero groups: [string6]'s choice. *)
Definition longest_zeros (v : Z) : nat * nat :=
  fold_left (fun '(zs, ze) i =>
    let j := zero_run v i (8 - i) in
    if ((2 <=? j - i) && (ze - zs <? j - i))%nat%bool then (i, j) else (zs, ze))
    (seq 0 8) (8, 8)%nat.

Fixpoint fmt6_from (v : Z) (zs ze : nat) (i fuel : nat) : bytes :=
  match fuel with
  | O => []
  | S fuel =>
      if (8 <=? i)%nat then []
      else if (i =? zs)%nat then
        "::" ++ (if (8 <=? ze)%nat then [] else hex16 (group v ze)) ++ fmt6_from v zs ze (S ze) fuel
      else (if (i =? 0)%nat then [] else ":") ++ hex16 (group v i) ++ fmt6_from v zs ze (S i) fuel
  end.

Definition with_zone (s zone : bytes) : bytes := match zone with [] => s | _ => s ++ "%" ++ zone end.

Definition Addr_String (a : Addr) : bytes :=
  match a with
  | AddrZero => "invalid IP"
  | Addr4 v => fmt4 v
  | Addr6 v zone =>
      if (v / 2 ^ 32 =? 65535)%Z
      then with_zone ("::ffff:" ++ fmt4 (v mod 2 ^ 32)) zone
      else let '(zs, ze) := longest_zeros v in with_zone (fmt6_from v zs ze 0 9) zone
  end.

(** ** Prefixes *)

(** [Prefix]: the bit count is -1 in an invalid prefix. *)
Record Prefix := mkPrefix { pf_addr : Addr; pf_bits : Z }.

#[global] Instance Prefix_eq_dec : EqDecision Prefix.
Proof. solve_decision. Defined.

Definition zero_prefix : Prefix := mkPrefix AddrZero (-1).

Definition without_zone (a : Addr) : Addr := match a with Addr6 v _ => Addr6 v [] | _ => a end.

Definition PrefixFrom (a : Addr) (bits : Z) : Prefix :=
  if ((Addr_IsValid a && (0 <=? bits)) && (bits <=? BitLen a))%Z%bool
  then mkPrefix (without_zone a) bits else mkPrefix (without_zone a) (-1).

Definition Prefix_IsValid (p : Prefix) : bool := (0 <=? pf_bits p)%Z.
Definition IsSingleIP (p : Prefix) : bool := (Prefix_IsValid p && (pf_bits p =? BitLen (pf_addr p)))%Z%bool.

Definition ParsePrefix (s : bytes) : option Prefix :=
  i ← LastIndexByte s "/";
  ip ← ParseAddr (take i s);
  if match ip with Addr6 _ (_ :: _) => true | _ => false end then None else
  let bitsStr := drop (S i) s in
  if match bitsStr with
     | c :: _ :: _ => negb (is_digit c) || Byte.eqb c "0"
     | _ => false
     end then None else
  bits ← Atoi bitsStr;
  if ((bits <? 0) || (BitLen ip <? bits))%Z%bool then None else Some (PrefixFrom ip bits).

Definition Prefix_String (p : Prefix) : bytes :=
  if Prefix_IsValid p then Addr_String (pf_addr p) ++ "/" ++ itoa (pf_bits p)
  else "invalid Prefix".

(** Clear the host bits. *)
Definition mask_val (len bits v : Z) : Z := (v / 2 ^ (len - bits) * 2 ^ (len - bits))%Z.

Definition Masked (p : Prefix) : Prefix :=
  if Prefix_IsValid p
  then match pf_addr p with
       | Addr4 v => mkPrefix (Addr4 (mask_val 32 (pf_bits p) v)) (pf_bits p)
       | Addr6 v z => mkPrefix (Addr6 (mask_val 128 (pf_bits p) v) z) (pf_bits p)
       | AddrZero => zero_prefix
       end
  else zero_prefix.

(** [p.Contains(a)]: same family, same network bits; an address with a zone
    is in no prefix. *)
Definition Prefix_Contains (p : Prefix) (a : Addr) : bool :=
  (Prefix_IsValid p &&
   match pf_addr p, a with
   | Addr4 v, Addr4 w => v / 2 ^ (32 - pf_bits p) =? w / 2 ^ (32 - pf_bits p)
   | Addr6 v _, Addr6 w [] => v / 2 ^ (128 - pf_bits p) =? w / 2 ^ (128 - pf_bits p)
   | _, _ => false
   end)%Z%bool.

Definition prefix_wf (p : Prefix) : Prop :=
  addr_wf (pf_addr p) /\ (0 <= pf_bits p <= BitLen (pf_addr p))%Z /\
  without_zone (pf_addr p) = pf_addr p /\ Addr_IsValid (pf_addr p) = true.

(** ** Lemmas *)

(** An address or prefix that its own text parses back to. *)
Definition addr_rt (a : Addr) : Prop := ParseAddr (Addr_String a) = Some a.
Definition prefix_rt (p : Prefix) : Prop := ParsePrefix (Prefix_String p) = Some p.

Lemma split_byte_app c s t : c ∉ s -> split_byte c (s ++ c :: t) = s :: split_byte c t.
Proof.
  induction s as [|a s IH]; cbn; intros H.
  - by rewrite byte_eqb_refl.
  - destruct (byte_eqb_spec a c) as [->|]; [set_solver|]. rewrite IH by set_solver. done.
Qed.

Lemma split_byte_none c s : c ∉ s -> split_byte c s = [s].
Proof.
  induction s as [|a s IH]; cbn; intros H; [done|].
  destruct (byte_eqb_spec a c) as [->|]; [set_solver|]. rewrite IH by set_solver. done.
Qed.

Lemma dec_digits n : (0 <= n)%Z -> forallb is_digit (dec n) = true.
Proof. intros H. by destruct (dec_spec n H) as (_ & ? & _). Qed.

Lemma dec_not_in n c : (0 <= n)%Z -> is_digit c = false -> c ∉ dec n.
Proof. intros H Hc. by apply digits_not_in; [apply dec_digits|]. Qed.

Lemma octet_dec v : (0 <= v < 256)%Z -> octet (dec v) = Some v.
Proof.
  intros H. assert (forallb (fun v => match octet (dec v) with Some w => (w =? v)%Z | None => false end)
    (map Z.of_nat (seq 0 256)) = true) as HA by (vm_compute; reflexivity).
  rewrite forallb_forall in HA. specialize (HA v).
  assert (In v (map Z.of_nat (seq 0 256))) as Hin.
  { apply in_map_iff. exists (Z.to_nat v). rewrite in_seq. lia. }
  specialize (HA Hin). destruct (octet (dec v)); [|done]. bprop. by subst.
Qed.

Lemma parseIPv4_fmt4 v : (0 <= v < 2 ^ 32)%Z -> parseIPv4 (fmt4 v) = Some v.
Proof.
  intros H. unfold parseIPv4, fmt4. cbn [app].
  rewrite !split_byte_app by (apply dec_not_in; [Z.div_mod_to_equations; lia | done]).
  rewrite split_byte_none by (apply dec_not_in; [Z.div_mod_to_equations; lia | done]).
  rewrite !octet_dec by (Z.div_mod_to_equations; lia). cbn. f_equal.
  Z.div_mod_to_equations; lia.
Qed.

Lemma IndexAny_skip s c t cs :
  existsb (Byte.eqb c) cs = true -> forallb (fun a => negb (existsb (Byte.eqb a) cs)) s = true ->
  IndexAny (s ++ c :: t) cs = Some (length s).
Proof.
  intros Hc. induction s as [|a s IH]; cbn; intros H; [by rewrite Hc|].
  bprop. rewrite H. by rewrite IH.
Qed.

Lemma digits_plain s :
  forallb is_digit s = true -> forallb (fun a => negb (existsb (Byte.eqb a) ".:%")) s = true.
Proof.
  rewrite !forallb_forall. intros H c Hc. specialize (H c Hc). revert H.
  assert (forall c, implb (is_digit c) (negb (existsb (Byte.eqb c) ".:%")) = true) as HA
    by (apply forall_bytes; vm_compute; reflexivity).
  specialize (HA c). destruct (is_digit c); [done | discriminate].
Qed.

Lemma addr4_rt v : (0 <= v < 2 ^ 32)%Z -> addr_rt (Addr4 v).
Proof.
  intros H. unfold addr_rt, Addr_String, ParseAddr.
  assert (fmt4 v = dec (v / 16777216) ++ x2e :: (dec (v / 65536 mod 256) ++ "." ++
    dec (v / 256 mod 256) ++ "." ++ dec (v mod 256))) as E by done.
  rewrite E, IndexAny_skip; [|done|].
  - rewrite lookup_app_r, Nat.sub_diag by done. cbn [lookup list_lookup].
    by rewrite <-E, parseIPv4_fmt4.
  - apply digits_plain, dec_digits. Z.div_mod_to_equations; lia.
Qed.

Lemma fmt4_chars v : (0 <= v < 2 ^ 32)%Z -> forallb (fun c => is_digit c || Byte.eqb c ".") (fmt4 v) = true.
Proof.
  intros H. unfold fmt4.
  assert (forall n, (0 <= n)%Z -> forallb (fun c => is_digit c || Byte.eqb c ".") (dec n) = true) as HD.
  { intros n Hn. pose proof (dec_digits n Hn) as Hd. rewrite forallb_forall in *.
    intros c Hc. by rewrite (Hd c Hc). }
  rewrite !forallb_app, !HD by (Z.div_mod_to_equations; lia). done.
Qed.

(** The text of a bit count is accepted back. *)
Lemma bits_text b :
  (0 <= b <= 128)%Z ->
  (match dec b with c :: _ :: _ => negb (is_digit c) || Byte.eqb c "0" | _ => false end) = false /\
  Atoi (dec b) = Some b.
Proof.
  intros H. split; [|apply Atoi_dec; unfold int64_max; lia].
  assert (forallb (fun b => negb (match dec b with c :: _ :: _ => negb (is_digit c) || Byte.eqb c "0" | _ => false end))
    (map Z.of_nat (seq 0 129)) = true) as HA by (vm_compute; reflexivity).
  rewrite forallb_forall in HA. specialize (HA b).
  assert (In b (map Z.of_nat (seq 0 129))) as Hin.
  { apply in_map_iff. exists (Z.to_nat b). rewrite in_seq. lia. }
  specialize (HA Hin). by apply negb_true_iff in HA.
Qed.

Lemma BitLen_max a : (0 <= BitLen a <= 128)%Z.
Proof. destruct a; cbn; lia. Qed.

Lemma prefix_of_addr_rt p : prefix_wf p -> addr_rt (pf_addr p) -> prefix_rt p.
Proof.
  intros (Hwf & Hb & Hz & Hv) Ha. pose proof (BitLen_max (pf_addr p)) as HL.
  unfold prefix_rt, Prefix_String, ParsePrefix, Prefix_IsValid.
  replace (0 <=? pf_bits p)%Z with true by (symmetry; apply Z.leb_le; lia).
  rewrite itoa_nonneg by lia. cbn [app].
  rewrite LastIndexByte_app by (apply dec_not_in; [lia | done]).
  cbn [mbind option_bind]. rewrite take_app_length, Ha. cbn [mbind option_bind].
  replace (match pf_addr p with Addr6 _ (_ :: _) => true | _ => false end) with false
    by (destruct (pf_addr p) as [| |? []]; done).
  rewrite cons_middle, app_assoc, drop_app_length' by (rewrite length_app; cbn; lia).
  destruct (bits_text (pf_bits p)) as [E1 E2]; [lia|]. rewrite E1, E2. cbn [mbind option_bind].
  destruct (Z.ltb_spec (pf_bits p) 0); [lia|].
  destruct (Z.ltb_spec (BitLen (pf_addr p)) (pf_bits p)); [lia|]. cbn [orb].
  unfold PrefixFrom. rewrite Hv. cbn [andb].
  replace (0 <=? pf_bits p)%Z with true by (symmetry; apply Z.leb_le; lia).
  replace (pf_bits p <=? BitLen (pf_addr p))%Z with true by (symmetry; apply Z.leb_le; lia).
  cbn [andb]. rewrite Hz. by destruct p.
Qed.

Lemma prefix4_rt v b : (0 <= v < 2 ^ 32)%Z -> (0 <= b <= 32)%Z -> prefix_rt (mkPrefix (Addr4 v) b).
Proof. intros Hv Hb. apply prefix_of_addr_rt; [repeat split; cbn; lia | by apply addr4_rt]. Qed.
#[export] Hint Resolve addr4_rt prefix4_rt : go.

Lemma digits_val_nonneg s acc v : (0 <= acc)%Z -> digits_val acc s = Some v -> (0 <= v)%Z.
Proof. intros Ha H. pose proof (digits_val_bound _ _ _ Ha H). lia. Qed.

Lemma octet_range s v : octet s = Some v -> (0 <= v < 256)%Z.
Proof.
  unfold octet. destruct s as [|c [|d s]]; [intros H; discriminate H| |].
  - destruct (is_digit c) eqn:E; [|done]. intros [= <-]. unfold is_digit, digit_val in *. bprop. lia.
  - assert (forall o, (v ← digits_val 0 o; if (v <=? 255)%Z then Some v else None) = Some v ->
      (0 <= v < 256)%Z) as HD.
    { intros o H. destruct (digits_val 0 o) as [w|] eqn:E; [cbn [mbind option_bind] in H|done].
      pose proof (digits_val_nonneg o 0 w ltac:(lia) E).
      destruct (w <=? 255)%Z eqn:E2; [|done]. injection H as <-. bprop. lia. }
    destruct (Byte.eqb c _); [done | apply HD].
Qed.

Lemma parseIPv4_range s v : parseIPv4 s = Some v -> (0 <= v < 2 ^ 32)%Z.
Proof.
  unfold parseIPv4. destruct (split_byte "." s) as [|a [|b [|c [|d [|]]]]]; try done.
  destruct (octet a) eqn:E1; [cbn|done]. destruct (octet b) eqn:E2; [cbn|done].
  destruct (octet c) eqn:E3; [cbn|done]. destruct (octet d) eqn:E4; [cbn|done].
  apply octet_range in E1, E2, E3, E4. intros [= <-]. lia.
Qed.

Lemma hex_val_range c v : hex_val c = Some v -> (0 <= v < 16)%Z.
Proof.
  unfold hex_val. case_bools; intros [= <-]; bprop; lia.
Qed.

Lemma hex_run_range s n acc n' v rest :
  (0 <= acc < 16 ^ Z.of_nat n)%Z -> hex_run s n acc = (n', v, rest) ->
  (0 <= v < 16 ^ Z.of_nat n')%Z.
Proof.
  revert n acc. induction s as [|c s IH]; intros n acc Ha; cbn; [naive_solver|].
  destruct (hex_val c) as [w|] eqn:E; [|naive_solver].
  apply IH. apply hex_val_range in E. rewrite Nat2Z.inj_succ, Z.pow_succ_r by lia. nia.
Qed.

Definition groups_ok (l : list Z) : Prop := Forall (fun g => 0 <= g < 65536)%Z l.

Lemma parse_groups_ok room s got ell got' ell' :
  parse_groups room s got ell = Some (got', ell') ->
  groups_ok got -> (room + length got = 8)%nat ->
  groups_ok got' /\ (length got' <= 8)%nat.
Proof.
  revert s got ell. induction room as [|room IH]; intros s got ell H Hok Hlen; [done|].
  cbn [parse_groups] in H. destruct (hex_run s 0 0) as [[n v] rest] eqn:ER.
  apply hex_run_range in ER; [|lia].
  destruct ((n =? 0) || (4 <? n))%nat eqn:En; [done|]. bprop.
  assert (0 <= v < 65536)%Z as Hv.
  { assert (16 ^ Z.of_nat n <= 16 ^ 4)%Z; [apply Z.pow_le_mono_r; lia | lia]. }
  assert (groups_ok (got ++ [v])) as Hok'.
  { apply Forall_app. split; [done | by constructor]. }
  assert (forall s ell, parse_groups room s (got ++ [v]) ell = Some (got', ell') ->
    groups_ok got' /\ (length got' <= 8)%nat) as IH'.
  { intros s0 ell0 H'. apply (IH _ _ _ H' Hok'). rewrite length_app; cbn; lia. }
  assert (Some (got ++ [v], ell) = Some (got', ell') -> groups_ok got' /\ (length got' <= 8)%nat) as Hend.
  { intros [= <- <-]. split; [done|]. rewrite length_app; cbn; lia. }
  destruct rest as [|c rest]; [auto|].
  destruct (Byte.eqb c _) eqn:Hc.
  - destruct (_ || _)%bool eqn:Ec; [done|]. bprop.
    destruct (parseIPv4 s) as [w|] eqn:Ew; [cbn in H|done]. injection H as <- <-.
    apply parseIPv4_range in Ew. split.
    + apply Forall_app. split; [done|]. repeat constructor; Z.div_mod_to_equations; lia.
    + rewrite length_app; cbn. lia.
  - destruct (negb (Byte.eqb c _)); [done|]. destruct rest as [|d rest']; [done|].
    destruct (negb (Byte.eqb d _)); [by eapply IH'|].
    destruct ell; [done|]. destruct rest'; [|by eapply IH'].
    injection H as <- <-. split; [done|]. rewrite length_app; cbn; lia.
Qed.

Lemma groups_val_range l acc :
  groups_ok l -> (0 <= acc)%Z ->
  (0 <= fold_left (fun acc g => acc * 65536 + g)%Z l acc < (acc + 1) * 65536 ^ Z.of_nat (length l))%Z.
Proof.
  revert acc. induction l as [|g l IH]; intros acc Hok Ha; [cbn; lia|].
  inversion Hok as [|? ? Hg Hl]; subst. cbn [fold_left length].
  rewrite Nat2Z.inj_succ, Z.pow_succ_r by lia.
  specialize (IH (acc * 65536 + g)%Z Hl ltac:(lia)).
  assert (0 < 65536 ^ Z.of_nat (length l))%Z by (apply Z.pow_pos_nonneg; lia). nia.
Qed.

Lemma expand_range got ell v :
  groups_ok got -> (length got <= 8)%nat -> expand (got, ell) = Some v -> (0 <= v < 2 ^ 128)%Z.
Proof.
  intros Hok Hlen H.
  assert (forall l, groups_ok l -> length l = 8%nat -> (0 <= groups_val l < 2 ^ 128)%Z) as HG.
  { intros l Hl Hn. pose proof (groups_val_range l 0 Hl ltac:(lia)) as HR. rewrite Hn in HR.
    unfold groups_val. change (2 ^ 128)%Z with (65536 ^ 8)%Z. lia. }
  cbn [expand] in H. destruct ell as [i|].
  - destruct (8 <=? length got)%nat eqn:E; [done|]. injection H as <-. bprop. apply HG.
    + repeat apply Forall_app_2; [by apply Forall_take | | by apply Forall_drop].
      apply Forall_replicate. lia.
    + rewrite !length_app, length_replicate, length_take, length_drop. lia.
  - destruct (length got =? 8)%nat eqn:E; [|done]. injection H as <-. bprop. by apply HG.
Qed.

Lemma parseIPv6_shape s a :
  parseIPv6 s = Some a -> exists v z, a = Addr6 v z /\ (0 <= v < 2 ^ 128)%Z.
Proof.
  unfold parseIPv6. destruct (match IndexByte s "%" with Some _ => _ | None => _ end) as [[s' z] bad].
  destruct bad; [done|]. intros H.
  assert (forall o s ell, (r ← parse_groups 8 s [] ell; v ← expand r; Some (Addr6 v z)) = o -> o = Some a ->
    exists v z, a = Addr6 v z /\ (0 <= v < 2 ^ 128)%Z) as HP.
  { intros o t ell <- Ho. destruct (parse_groups 8 t [] ell) as [[got ell']|] eqn:E; [|done].
    cbn [mbind option_bind] in Ho. destruct (expand (got, ell')) as [v|] eqn:Ev; [|done].
    injection Ho as <-. apply parse_groups_ok in E as [Hg Hl]; [|constructor|done].
    eexists _, _. split; [done|]. by eapply expand_range. }
  destruct (cut_prefix _ s') as [[|]|]; [|by eapply HP..].
  injection H as <-. eexists _, _. split; [done|lia].
Qed.

Lemma ParseAddr_wf s a : ParseAddr s = Some a -> addr_wf a /\ Addr_IsValid a = true.
Proof.
  unfold ParseAddr. destruct (IndexAny s _) as [i|]; [|done].
  destruct (s !! i) as [c|]; [|done]. intros H.
  assert ((exists v, a = Addr4 v /\ parseIPv4 s = Some v) \/ parseIPv6 s = Some a) as [(v & -> & Hv)|Hv].
  { destruct (Byte.eqb c _).
    - left. destruct (parseIPv4 s) as [v|]; [|done]. injection H as <-. eauto.
    - right. by destruct (Byte.eqb c _). }
  - split; [|done]. by apply parseIPv4_range in Hv.
  - by apply parseIPv6_shape in Hv as (v & z & -> & Hr).
Qed.

Lemma ParsePrefix_wf s p : ParsePrefix s = Some p -> prefix_wf p.
Proof.
  unfold ParsePrefix. destruct (LastIndexByte s "/") as [i|]; [cbn [mbind option_bind]|done].
  destruct (ParseAddr (take i s)) as [a|] eqn:Ea; [cbn [mbind option_bind]|done].
  apply ParseAddr_wf in Ea as [Hwf Hv].
  destruct (match a with Addr6 _ (_ :: _) => true | _ => false end); [done|].
  destruct (match drop _ _ with _ :: _ :: _ => _ | _ => _ end); [done|].
  destruct (Atoi _) as [b|]; [cbn [mbind option_bind]|done].
  destruct ((b <? 0) || (BitLen a <? b))%Z%bool eqn:E; [done|]. intros [= <-]. bprop.
  unfold PrefixFrom. rewrite Hv.
  replace (0 <=? b)%Z with true by (symmetry; apply Z.leb_le; lia).
  replace (b <=? BitLen a)%Z with true by (symmetry; apply Z.leb_le; lia). cbn [andb].
  destruct a as [|v|v z]; [done| |]; repeat split; cbn in *; lia.
Qed.

Example parse_v6 : ParseAddr "2001:db8::8:800:200c:417a" = Some (Addr6 0x20010db80000000000080800200c417a []).
Proof. vm_compute. reflexivity. Qed.
Example print_v6 : Addr_String (Addr6 0x20010db80000000000080800200c417a []) = "2001:db8::8:800:200c:417a".
Proof. vm_compute. reflexivity. Qed.
Example parse_mapped : ParseAddr "::ffff:1.2.3.4" = Some (Addr6 0xffff01020304 []).
Proof. vm_compute. reflexivity. Qed.
Example print_mapped : Addr_String (Addr6 0xffff01020304 []) = "::ffff:1.2.3.4".
Proof. vm_compute. reflexivity. Qed.
Example print_any : Addr_String (Addr6 0 []) = "::".
Proof. vm_compute. reflexivity. Qed.
Example print_lo : Addr_String (Addr6 1 []) = "::1".
Proof. vm_compute. reflexivity. Qed.
Example parse_short : ParseAddr "1::" = Some (Addr6 (2 ^ 112) []).
Proof. vm_compute. reflexivity. Qed.
