(* ===== verification/Json.v ===== *)
(** * encoding/json, as the program uses it

    The syntax tree of a document, Go's printer for strings (HTML escaping on,
    as [json.Marshal] has it) and the parser behind [json.Unmarshal]: strings
    are unquoted as Go does it, with U+FFFD for what is not UTF-8.  Numbers
    keep their text.  Decoding into a Go type is done by each user on the
    tree. *)

From Stdlib Require Import Floats.SpecFloat.
From S2P Require Import Prelude GoStrings GoErrors GoTime Encoding NetIP.

Unset Elimination Schemes.
Inductive json :=
| JNull | JBool (b : bool) | JNum (lit : bytes) | JStr (s : bytes)
| JArr (l : list json) | JObj (l : list (bytes * json)).
Set Elimination Schemes.

(** ** UTF-8 *)

Definition between (lo hi : Z) (c : byte) : bool := ((lo <=? byte_val c) && (byte_val c <=? hi))%Z.
Definition cont (c : byte) : bool := between 0x80 0xbf c.

(** The length of the valid encoding [s] starts with; 0 when there is none. *)
Definition rune_len (s : bytes) : nat :=
  match s with
  | [] => O
  | c :: r =>
      if between 0 0x7f c then 1
      else if between 0xc2 0xdf c then
        match r with c1 :: _ => if cont c1 then 2 else O | _ => O end
      else if between 0xe0 0xef c then
        match r with
        | c1 :: c2 :: _ =>
            if between (if Byte.eqb c xe0 then 0xa0 else 0x80)
                       (if Byte.eqb c xed then 0x9f else 0xbf) c1 && cont c2
            then 3 else O
        | _ => O
        end
      else if between 0xf0 0xf4 c then
        match r with
        | c1 :: c2 :: c3 :: _ =>
            if between (if Byte.eqb c xf0 then 0x90 else 0x80)
                       (if Byte.eqb c xf4 then 0x8f else 0xbf) c1 && cont c2 && cont c3
            then 4 else O
        | _ => O
        end
      else O
  end.

Definition RuneError : bytes := [xef; xbf; xbd].

(** [utf8.AppendRune]. *)
Definition encode_rune (v : Z) : bytes :=
  if (v <? 0x80)%Z then [byte_of_Z v]
  else if (v <? 0x800)%Z then [byte_of_Z (0xc0 + v / 64); byte_of_Z (0x80 + v mod 64)]
  else if ((0xd800 <=? v) && (v <=? 0xdfff))%Z%bool then RuneError
  else if (v <? 0x10000)%Z then
    [byte_of_Z (0xe0 + v / 4096); byte_of_Z (0x80 + v / 64 mod 64); byte_of_Z (0x80 + v mod 64)]
  else [byte_of_Z (0xf0 + v / 262144); byte_of_Z (0x80 + v / 4096 mod 64);
        byte_of_Z (0x80 + v / 64 mod 64); byte_of_Z (0x80 + v mod 64)].

Fixpoint valid_go (fuel : nat) (s : bytes) : bool :=
  match fuel, s with
  | _, [] => true
  | O, _ => false
  | S fuel, _ => match rune_len s with O => false | n => valid_go fuel (drop n s) end
  end.
(** [utf8.ValidString]. *)
Definition valid_utf8 (s : bytes) : bool := valid_go (length s) s.

(** ** Printing *)

Definition quote_byte (c : byte) : bytes :=
  if Byte.eqb c x22 || Byte.eqb c x5c then [x5c; c]
  else if Byte.eqb c x08 then "\b"
  else if Byte.eqb c x0c then "\f"
  else if Byte.eqb c x0a then "\n"
  else if Byte.eqb c x0d then "\r"
  else if Byte.eqb c x09 then "\t"
  else if between 0 0x1f c || Byte.eqb c x3c || Byte.eqb c x3e || Byte.eqb c x26 then
    "\u00" ++ hex_encode [c]
  else [c].

Definition quote_rune (r : bytes) : bytes :=
  if r =s? [xe2; x80; xa8] then "\u2028"
  else if r =s? [xe2; x80; xa9] then "\u2029"
  else r.

Fixpoint quote_go (fuel : nat) (s : bytes) : bytes :=
  match fuel, s with
  | _, [] | O, _ => []
  | S fuel, c :: r =>
      if between 0 0x7f c then quote_byte c ++ quote_go fuel r
      else match rune_len s with
           | O => "\ufffd" ++ quote_go fuel r
           | n => quote_rune (take n s) ++ quote_go fuel (drop n s)
           end
  end.
Definition quote (s : bytes) : bytes := [x22] ++ quote_go (length s) s ++ [x22].

Definition commas (ls : list bytes) : bytes := Join ls ",".

Fixpoint print (j : json) : bytes :=
  match j with
  | JNull => "null"
  | JBool b => if b then "true" else "false"
  | JNum lit => lit
  | JStr s => quote s
  | JArr l => "[" ++ commas (map print l) ++ "]"
  | JObj l => "{" ++ commas (map (fun kv => quote (fst kv) ++ ":" ++ print (snd kv)) l) ++ "}"
  end.

(** ** Parsing *)

Definition is_ws (c : byte) : bool :=
  Byte.eqb c x20 || Byte.eqb c x09 || Byte.eqb c x0a || Byte.eqb c x0d.
Fixpoint skip_ws (s : bytes) : bytes :=
  match s with
  | c :: r => if is_ws c then skip_ws r else s
  | [] => []
  end.

Definition hex4 (s : bytes) : option (Z * bytes) :=
  match s with
  | a :: b :: c :: d :: r =>
      a ← from_hex a; b ← from_hex b; c ← from_hex c; d ← from_hex d;
      Some (((a * 16 + b) * 16 + c) * 16 + d, r)%Z
  | _ => None
  end.

(** The rune of a [\u] escape whose first code unit is [v]: a high surrogate
    takes the low one that follows; a lone surrogate is U+FFFD. *)
Definition surrogates (v : Z) (r : bytes) : bytes * bytes :=
  if ((0xd800 <=? v) && (v <=? 0xdbff))%Z%bool then
    match cut_prefix "\u" r with
    | Some r1 =>
        match hex4 r1 with
        | Some (w, r2) =>
            if ((0xdc00 <=? w) && (w <=? 0xdfff))%Z%bool
            then (encode_rune (0x10000 + (v - 0xd800) * 1024 + (w - 0xdc00)), r2)
            else (RuneError, r)
        | None => (RuneError, r)
        end
    | None => (RuneError, r)
    end
  else (encode_rune v, r).

Definition escape (e : byte) : option byte :=
  if Byte.eqb e x22 || Byte.eqb e x5c || Byte.eqb e x2f then Some e
  else if Byte.eqb e "b" then Some x08
  else if Byte.eqb e "f" then Some x0c
  else if Byte.eqb e "n" then Some x0a
  else if Byte.eqb e "r" then Some x0d
  else if Byte.eqb e "t" then Some x09
  else None.

(** The content of a string after its opening quote, and what follows. *)
Fixpoint unquote (fuel : nat) (s : bytes) : option (bytes * bytes) :=
  match fuel, s with
  | O, _ | _, [] => None
  | S fuel, c :: r =>
      if Byte.eqb c x22 then Some ([], r)
      else if Byte.eqb c x5c then
        match r with
        | [] => None
        | e :: r =>
            if Byte.eqb e "u" then
              '(v, r) ← hex4 r;
              let '(out, r) := surrogates v r in
              '(s, r) ← unquote fuel r; Some (out ++ s, r)
            else c ← escape e; '(s, r) ← unquote fuel r; Some (c :: s, r)
        end
      else if between 0 0x1f c then None
      else match rune_len (c :: r) with
           | O => '(s, r) ← unquote fuel r; Some (RuneError ++ s, r)
           | n => '(s, r') ← unquote fuel (drop n (c :: r)); Some (take n (c :: r) ++ s, r')
           end
  end.

Fixpoint digit_run (s : bytes) : bytes * bytes :=
  match s with
  | c :: r => if is_digit c then let '(d, r) := digit_run r in (c :: d, r) else ([], s)
  | [] => ([], [])
  end.

(** A number's text. *)
Definition number (s : bytes) : option (bytes * bytes) :=
  let '(sign, s) := match s with x2d :: r => ([x2d], r) | _ => ([], s) end in
  let '(d, s) := digit_run s in
  if match d with [] => true | c :: _ :: _ => Byte.eqb c "0" | _ => false end then None else
  '(frac, s) ← match s with
               | x2e :: r => let '(f, r) := digit_run r in
                             match f with [] => None | _ => Some (x2e :: f, r) end
               | _ => Some ([], s)
               end;
  '(ex, s) ← match s with
             | e :: r =>
                 if Byte.eqb e "e" || Byte.eqb e "E" then
                   let '(sg, r) := match r with
                                   | c :: r' => if Byte.eqb c "+" || Byte.eqb c "-" then ([c], r') else ([], r)
                                   | [] => ([], r)
                                   end in
                   let '(f, r) := digit_run r in
                   match f with [] => None | _ => Some (e :: sg ++ f, r) end
                 else Some ([], s)
             | [] => Some ([], s)
             end;
  Some (sign ++ d ++ frac ++ ex, s).

Definition maxNestingDepth : Z := 10000.

(** A value and what follows.  Every two calls consume a character, so twice
    the length of the text is fuel enough; nesting beyond [depth] fails. *)
Fixpoint value (fuel : nat) (depth : Z) (s : bytes) : option (json * bytes) :=
  match fuel with
  | O => None
  | S fuel =>
      match skip_ws s with
      | [] => None
      | c :: r =>
          if Byte.eqb c x22 then '(s, r) ← unquote (length r) r; Some (JStr s, r)
          else if Byte.eqb c "[" then
            if (depth <=? 0)%Z then None else
            match cut_prefix "]" (skip_ws r) with
            | Some r => Some (JArr [], r)
            | None => '(l, r) ← elements fuel (depth - 1) r; Some (JArr l, r)
            end
          else if Byte.eqb c "{" then
            if (depth <=? 0)%Z then None else
            match cut_prefix "}" (skip_ws r) with
            | Some r => Some (JObj [], r)
            | None => '(l, r) ← members fuel (depth - 1) r; Some (JObj l, r)
            end
          else match cut_prefix "null" (c :: r), cut_prefix "true" (c :: r), cut_prefix "false" (c :: r) with
          | Some r, _, _ => Some (JNull, r)
          | _, Some r, _ => Some (JBool true, r)
          | _, _, Some r => Some (JBool false, r)
          | _, _, _ => '(n, r) ← number (c :: r); Some (JNum n, r)
          end
      end
  end
with elements (fuel : nat) (depth : Z) (s : bytes) : option (list json * bytes) :=
  match fuel with
  | O => None
  | S fuel =>
      '(j, r) ← value fuel depth s;
      match skip_ws r with
      | x2c :: r => '(l, r) ← elements fuel depth r; Some (j :: l, r)
      | x5d :: r => Some ([j], r)
      | _ => None
      end
  end
with members (fuel : nat) (depth : Z) (s : bytes) : option (list (bytes * json) * bytes) :=
  match fuel with
  | O => None
  | S fuel =>
      match skip_ws s with
      | x22 :: r =>
          '(k, r) ← unquote (length r) r;
          match skip_ws r with
          | x3a :: r =>
              '(j, r) ← value fuel depth r;
              match skip_ws r with
              | x2c :: r => '(l, r) ← members fuel depth r; Some ((k, j) :: l, r)
              | x7d :: r => Some ([(k, j)], r)
              | _ => None
              end
          | _ => None
          end
      | _ => None
      end
  end.

(** A whole document. *)
Definition parse (s : bytes) : option json :=
  '(j, r) ← value (2 * length s + 2) maxNestingDepth s;
  match skip_ws r with [] => Some j | _ => None end.

(** ** Decoding into Go values

    [old] is what the variable holds before; JSON's null leaves it. *)

Definition decode_string (old : bytes) (j : json) : option bytes :=
  match j with JStr s => Some s | JNull => Some old | _ => None end.

Definition decode_int (old : Z) (j : json) : option Z :=
  match j with JNum lit => Atoi lit | JNull => Some old | _ => None end.

(** Into a [[]string]: the elements of the slice decoded over are the old
    values of the new ones. *)
Fixpoint decode_list (old : list bytes) (l : list json) : option (list bytes) :=
  match l with
  | [] => Some []
  | j :: l => s ← decode_string (default [] (head old)) j; ls ← decode_list (tail old) l; Some (s :: ls)
  end.
Definition decode_strings (old : list bytes) (j : json) : option (list bytes) :=
  match j with JArr l => decode_list old l | JNull => Some [] | _ => None end.

(** [json.Unmarshal] into a struct, member by member. *)
Fixpoint decode_struct {A} (member : A -> bytes * json -> option A) (x : A) (l : list (bytes * json)) : option A :=
  match l with
  | [] => Some x
  | kv :: l => x ← member x kv; decode_struct member x l
  end.
Definition decode_object {A} (member : A -> bytes * json -> option A) (old : A) (j : json) : option A :=
  match j with JObj l => decode_struct member old l | JNull => Some old | _ => None end.

(** ** Decoding into [any]

    A number becomes the nearest [float64]: its digits over a power of ten,
    rounded once.  One too large for a [float64] makes the decoding fail. *)

Definition f64_of_lit (lit : bytes) : spec_float :=
  let '(sign, s) := match lit with x2d :: r => (true, r) | _ => (false, lit) end in
  let '(d, s) := digit_run s in
  let '(f, s) := match s with x2e :: r => digit_run r | _ => ([], s) end in
  let e := match s with
           | _ :: r => default 0%Z (digits_val 0 (fst (digit_run (TrimPrefix (TrimPrefix r "+") "-"))))
           | [] => 0%Z
           end in
  let e := match s with _ :: x2d :: _ => (- e)%Z | _ => e end in
  let e := (e - Z.of_nat (length f))%Z in
  match digits_val 0 (d ++ f) with
  | Some (Zpos m) =>
      if (0 <=? e)%Z
      then binary_normalize 53 1024 ((if sign : bool then -1 else 1) * Zpos m * 10 ^ e) 0 sign
      else SFdiv 53 1024 (S754_finite sign m 0) (S754_finite false (Z.to_pos (10 ^ (- e))) 0)
  | _ => S754_zero sign
  end.

Definition f64_finite (f : spec_float) : bool :=
  match f with S754_zero _ | S754_finite _ _ _ => true | _ => false end.

(** [int(f)] on a 64-bit machine. *)
Definition f64_to_int (f : spec_float) : Z :=
  match f with
  | S754_finite s m e =>
      let v := if (0 <=? e)%Z then (Zpos m * 2 ^ e)%Z else (Zpos m / 2 ^ (- e))%Z in
      let v := if s : bool then (- v)%Z else v in
      if in_int64 v then v else int64_min
  | S754_zero _ => 0%Z
  | _ => int64_min
  end.

Fixpoint numbers_fit (j : json) : bool :=
  match j with
  | JNum lit => f64_finite (f64_of_lit lit)
  | JArr l => forallb numbers_fit l
  | JObj l => forallb (fun kv => numbers_fit (snd kv)) l
  | _ => true
  end.

(** [json.Unmarshal] into an [any]. *)
Definition Unmarshal_any (s : bytes) : option json :=
  j ← parse s; if numbers_fit j then Some j else None.

(** Lookup in a decoded object: the last of several members with a key. *)
Fixpoint jget (l : list (bytes * json)) (k : bytes) : option json :=
  match l with
  | [] => None
  | (k', j) :: l => match jget l k with Some j => Some j | None => if k' =s? k then Some j else None end
  end.

Example f64_lit_1 : (f64_to_int (f64_of_lit "14"), f64_to_int (f64_of_lit "-2.9e1"), f64_to_int (f64_of_lit "1.5E+3"),
  SFeqb (f64_of_lit "0.1") (SFdiv 53 1024 (f64_of_Z 1) (f64_of_Z 10)), f64_finite (f64_of_lit "1e309"))
  = (14%Z, (-29)%Z, 1500%Z, true, false).
Proof. vm_compute. reflexivity. Qed.

(** ** Lemmas: strings *)

Lemma between_spec lo hi c : between lo hi c = true <-> (lo <= byte_val c <= hi)%Z.
Proof. unfold between. rewrite andb_true_iff, !Z.leb_le. lia. Qed.

Lemma rune_len_take s t :
  rune_len s <> O -> rune_len (take (rune_len s) s ++ t) = rune_len s /\
  (rune_len s <= length s)%nat.
Proof.
  intros H. destruct s as [|c r]; [done|]. cbn [rune_len] in *.
  destruct (between 0 0x7f c) eqn:E1. { cbn. rewrite E1. split; [done|lia]. }
  destruct (between 0xc2 0xdf c) eqn:E2.
  { destruct r as [|c1 r]; [done|]. destruct (cont c1) eqn:Ec; [|done]. cbn.
    rewrite E1, E2, Ec. split; [done|lia]. }
  destruct (between 0xe0 0xef c) eqn:E3.
  { destruct r as [|c1 [|c2 r]]; [done|done|]. destruct (_ && _) eqn:Ec; [|done].
    cbn [take app rune_len]. rewrite E1, E2, E3, Ec. cbn. split; [done|lia]. }
  destruct (between 0xf0 0xf4 c) eqn:E4; [|done].
  destruct r as [|c1 [|c2 [|c3 r]]]; [done|done|done|]. destruct (_ && _) eqn:Ec; [|done].
  cbn [take app rune_len]. rewrite E1, E2, E3, E4, Ec. cbn. split; [done|lia].
Qed.

(** One round of [unquote] undoes one round of [quote]. *)
Lemma unquote_byte c n t :
  between 0 0x7f c = true ->
  unquote (S n) (quote_byte c ++ t) = ('(s, r) ← unquote n t; Some (c :: s, r)).
Proof. destruct c; intros H; (vm_compute in H; discriminate) || reflexivity. Qed.

Lemma high_byte c : between 0 0x7f c = false ->
  Byte.eqb c x22 = false /\ Byte.eqb c x5c = false /\ between 0 0x1f c = false.
Proof.
  intros H. split_and!.
  - destruct (byte_eqb_spec c x22) as [->|]; [by vm_compute in H|done].
  - destruct (byte_eqb_spec c x5c) as [->|]; [by vm_compute in H|done].
  - apply not_true_iff_false. rewrite between_spec. apply not_true_iff_false in H.
    rewrite between_spec in H. lia.
Qed.

Lemma unquote_rune s n t :
  (match s with c :: _ => between 0 0x7f c = false | [] => False end) -> rune_len s <> O ->
  unquote (S n) (quote_rune (take (rune_len s) s) ++ t) =
    ('(x, r) ← unquote n t; Some (take (rune_len s) s ++ x, r)).
Proof.
  intros Hc Hr. unfold quote_rune.
  destruct (seqb_spec (take (rune_len s) s) [xe2; x80; xa8]) as [->|_]; [reflexivity|].
  destruct (seqb_spec (take (rune_len s) s) [xe2; x80; xa9]) as [->|_]; [reflexivity|].
  destruct (rune_len_take s t Hr) as [Hl Hle].
  destruct s as [|c r]; [done|]. destruct (high_byte c Hc) as (H1 & H2 & H3).
  set (n0 := rune_len (c :: r)) in *. destruct n0 as [|n1] eqn:En0; [done|].
  cbn [take app] in *. cbn [unquote]. rewrite H1, H2, H3, Hl.
  change (c :: take n1 r ++ t) with ((c :: take n1 r) ++ t).
  cbn [length] in Hle.
  rewrite drop_app_length' by (cbn; rewrite length_take; lia).
  rewrite take_app_length' by (cbn; rewrite length_take; lia). done.
Qed.

Lemma valid_go_step n c r :
  valid_go (S n) (c :: r) = true ->
  rune_len (c :: r) <> O /\ valid_go n (drop (rune_len (c :: r)) (c :: r)) = true.
Proof. cbn [valid_go]. by destruct (rune_len (c :: r)). Qed.

Lemma rune_len_ascii c r : between 0 0x7f c = true -> rune_len (c :: r) = 1%nat.
Proof. intros H. cbn [rune_len]. by rewrite H. Qed.

Lemma quote_byte_length c : (1 <= length (quote_byte c))%nat.
Proof. by destruct c; vm_compute; lia. Qed.

Lemma quote_go_spec k s n rest :
  valid_go k s = true -> (k < n)%nat ->
  unquote n (quote_go k s ++ x22 :: rest) = Some (s, rest) /\ (length s <= length (quote_go k s))%nat.
Proof.
  revert s n. induction k as [|k IH]; intros s n Hv Hn.
  { destruct s; [|done]. destruct n; [lia|]. done. }
  destruct n as [|n]; [lia|]. destruct s as [|c r]; [done|].
  apply valid_go_step in Hv as [Hr Hv]. cbn [quote_go].
  destruct (between 0 0x7f c) eqn:Ec.
  - rewrite (rune_len_ascii c r Ec) in Hv. cbn [drop] in Hv.
    destruct (IH r n Hv ltac:(lia)) as [Hu Hl]. rewrite <-app_assoc, unquote_byte, Hu by done.
    split; [done|]. rewrite length_app. pose proof (quote_byte_length c). cbn. lia.
  - destruct (IH _ n Hv ltac:(lia)) as [Hu Hl].
    destruct (rune_len (c :: r)) as [|m] eqn:Em; [done|]. rewrite <-Em in *.
    rewrite <-app_assoc, unquote_rune, Hu by done. cbn [mbind option_bind].
    rewrite take_drop. split; [done|]. rewrite length_app. rewrite length_drop in Hl.
    destruct (rune_len_take (c :: r) [] Hr) as [_ Hle].
    enough (length (take (rune_len (c :: r)) (c :: r)) <= length (quote_rune (take (rune_len (c :: r)) (c :: r))))%nat as Hq.
    { rewrite length_take in Hq. lia. }
    unfold quote_rune. destruct (seqb_spec (take (rune_len (c :: r)) (c :: r)) [xe2; x80; xa8]) as [->|_]; [cbn; lia|].
    destruct (seqb_spec (take (rune_len (c :: r)) (c :: r)) [xe2; x80; xa9]) as [->|_]; [cbn; lia|]. done.
Qed.

(** ** Lemmas: numbers *)

Lemma dec_go_head fuel n acc :
  (0 < n < 2 ^ Z.of_nat fuel)%Z -> exists c r, dec_go fuel n acc = c :: r /\ Byte.eqb c "0" = false.
Proof.
  revert n acc; induction fuel as [|fuel IH]; intros n acc Hn; [cbn in Hn; lia|].
  cbn [dec_go]. destruct (Z.ltb_spec n 10) as [Hlt|Hge].
  - exists (byte_of_Z (48 + n mod 10)), acc. split; [done|].
    destruct (byte_eqb_spec (byte_of_Z (48 + n mod 10)) "0") as [E|]; [|done].
    apply (f_equal byte_val) in E. rewrite byte_val_of_Z in E.
    rewrite (Z.mod_small n 10), Z.mod_small in E by lia. vm_compute (byte_val "0") in E. lia.
  - apply IH. rewrite Nat2Z.inj_succ, Z.pow_succ_r in Hn by lia.
    pose proof (Z.div_mod n 10 ltac:(lia)). pose proof (Z.mod_pos_bound n 10 ltac:(lia)).
    split; [apply Z.div_str_pos; lia | apply Z.div_lt_upper_bound; lia].
Qed.

(** No leading zero. *)
Lemma dec_head n :
  (0 <= n)%Z -> match dec n with [] => true | c :: _ :: _ => Byte.eqb c "0" | _ => false end = false.
Proof.
  intros Hn. destruct (Z.eq_dec n 0) as [->|Hne]; [done|].
  destruct (dec_go_head (S (Z.to_nat (Z.log2 n))) n []) as (c & r & E & Hc).
  { rewrite Nat2Z.inj_succ, Z2Nat.id by apply Z.log2_nonneg. pose proof (Z.log2_spec n). lia. }
  unfold dec. rewrite E. by destruct r.
Qed.

(** What may follow a value inside a document. *)
Definition closes (t : bytes) : Prop :=
  match t with [] => True | c :: _ => c = x2c \/ c = x5d \/ c = x7d end.

Lemma digit_run_app d t : forallb is_digit d = true -> closes t -> digit_run (d ++ t) = (d, t).
Proof.
  intros Hd Ht. induction d as [|c d IH]; cbn.
  - destruct t as [|c t]; [done|]. destruct Ht as [->|[->| ->]]; done.
  - cbn in Hd. apply andb_true_iff in Hd as [Hc Hd]. by rewrite Hc, IH.
Qed.

Lemma number_digits sign n t :
  (0 <= n)%Z -> closes t -> (sign = [] \/ sign = [x2d]) ->
  number (sign ++ dec n ++ t) = Some (sign ++ dec n, t).
Proof.
  intros Hn Ht Hs. destruct (dec_spec n Hn) as (Hne & Hd & _).
  assert (match sign ++ dec n ++ t with x2d :: r => ([x2d], r) | _ => ([], sign ++ dec n ++ t) end
          = (sign, dec n ++ t)) as E.
  { destruct Hs as [-> | ->]; [|done]. cbn [app]. destruct (dec n) as [|c d]; [done|].
    cbn in Hd. apply andb_true_iff in Hd as [Hc _].
    destruct (digit_not_sign c Hc) as [H1 _]. cbn [app]. by destruct c. }
  unfold number. rewrite E, digit_run_app, dec_head by done. clear E.
  destruct t as [|c t]; [cbn [mbind option_bind]; by rewrite !app_nil_r|].
  destruct Ht as [->|[->| ->]]; cbn [mbind option_bind Byte.eqb orb]; cbn; by rewrite !app_nil_r.
Qed.

Lemma number_itoa z t : closes t -> number (itoa z ++ t) = Some (itoa z, t).
Proof.
  intros Ht. unfold itoa. destruct (Z.ltb_spec z 0).
  - apply (number_digits [x2d]); [lia|done|by right].
  - apply (number_digits []); [lia|done|by left].
Qed.

Lemma itoa_head z : exists c r, itoa z = c :: r /\ (is_digit c || Byte.eqb c x2d) = true.
Proof.
  unfold itoa. destruct (Z.ltb_spec z 0); [by eexists _, _|].
  destruct (dec_spec z) as (Hne & Hd & _); [lia|].
  destruct (dec z) as [|c r]; [done|]. cbn in Hd. apply andb_true_iff in Hd as [Hc _].
  exists c, r. by rewrite Hc.
Qed.

(** ** Lemmas: documents *)

Lemma json_nested_ind (P : json -> Prop) :
  P JNull -> (forall b, P (JBool b)) -> (forall n, P (JNum n)) -> (forall s, P (JStr s)) ->
  (forall l, Forall P l -> P (JArr l)) -> (forall l, Forall (fun kv => P (snd kv)) l -> P (JObj l)) ->
  forall j, P j.
Proof.
  intros H1 H2 H3 H4 H5 H6. fix IH 1. intros [|b|n|s|l|l]; [done..| |].
  - apply H5. induction l as [|j l IHl]; constructor; [apply IH | apply IHl].
  - apply H6. induction l as [|[k j] l IHl]; constructor; [apply IH | apply IHl].
Qed.

(** Documents that are printed faithfully: UTF-8 strings, integers, bounded
    nesting. *)
Fixpoint json_ok (d : Z) (j : json) : Prop :=
  match j with
  | JNull | JBool _ => True
  | JNum lit => exists z, lit = itoa z
  | JStr s => valid_utf8 s = true
  | JArr l => (0 < d)%Z /\ fold_right (fun j P => json_ok (d - 1) j /\ P) True l
  | JObj l => (0 < d)%Z /\
      fold_right (fun kv P => (valid_utf8 (fst kv) = true /\ json_ok (d - 1) (snd kv)) /\ P) True l
  end.

Lemma quote_spec s t : valid_utf8 s = true -> exists r, quote s ++ t = x22 :: r /\
  unquote (length r) r = Some (s, t).
Proof.
  intros Hs. eexists. split; [unfold quote; by rewrite <-!app_assoc|].
  destruct (quote_go_spec (length s) s (S (length s)) t Hs) as [_ Hl]; [lia|].
  apply quote_go_spec; [done|]. rewrite length_app. cbn. lia.
Qed.

Lemma cut_prefix_ne a p c s : Byte.eqb a c = false -> cut_prefix (a :: p) (c :: s) = None.
Proof. intros H. cbn [cut_prefix]. by rewrite H. Qed.

Lemma is_digit_not_ws c : (is_digit c || Byte.eqb c x2d) = true ->
  is_ws c = false /\ c <> x5d /\ Byte.eqb c x22 = false /\ Byte.eqb c "[" = false /\
  Byte.eqb c "{" = false /\ Byte.eqb "n" c = false /\ Byte.eqb "t" c = false /\ Byte.eqb "f" c = false.
Proof. destruct c; intros H; (vm_compute in H; discriminate) || done. Qed.

Lemma print_head d j : json_ok d j -> exists c r, print j = c :: r /\ is_ws c = false /\ c <> x5d.
Proof.
  destruct j as [|[]|lit|s|l|l]; cbn [print json_ok]; intros H.
  4:{ destruct H as [z ->]. destruct (itoa_head z) as (c & r & -> & Hc).
      apply is_digit_not_ws in Hc as (? & ? & _). by exists c, r. }
  all: by eexists _, _.
Qed.

Lemma skip_ws_print d j t : json_ok d j -> skip_ws (print j ++ t) = print j ++ t.
Proof. intros H. destruct (print_head d j H) as (c & r & -> & Hc & _). cbn. by rewrite Hc. Qed.

Lemma commas_cons x l : commas (x :: l) = match l with [] => x | _ => x ++ x2c :: commas l end.
Proof. by destruct l. Qed.

Definition value_ok (j : json) : Prop := forall n d t,
  json_ok d j -> closes t -> (2 * length (print j) + 1 <= n)%nat -> value n d (print j ++ t) = Some (j, t).

Lemma elements_print l n d t :
  Forall value_ok l -> l <> [] -> fold_right (fun j P => json_ok d j /\ P) True l ->
  (2 * length (commas (map print l)) + 2 <= n)%nat ->
  elements n d (commas (map print l) ++ x5d :: t) = Some (l, t).
Proof.
  intros Hl. revert n. induction Hl as [|j l Hj Hl IH]; intros n Hne Hok Hn; [done|].
  cbn [map fold_right] in *. destruct Hok as [Hok Hoks]. rewrite commas_cons in *.
  destruct n as [|n]; [lia|]. cbn [elements]. destruct l as [|j' l].
  - cbn [map] in *. rewrite Hj by (done || lia || (cbn; tauto)). done.
  - cbn [map] in *. rewrite <-app_assoc. cbn [app].
    rewrite length_app in Hn. cbn [length] in Hn.
    rewrite Hj by (done || lia || (cbn; tauto)). cbn [mbind option_bind skip_ws].
    replace (is_ws x2c) with false by done. rewrite IH by (done || lia). done.
Qed.

Definition print_member (kv : bytes * json) : bytes := quote (fst kv) ++ ":" ++ print (snd kv).

Lemma members_print l n d t :
  Forall (fun kv => value_ok (snd kv)) l -> l <> [] ->
  fold_right (fun kv P => (valid_utf8 (fst kv) = true /\ json_ok d (snd kv)) /\ P) True l ->
  (2 * length (commas (map print_member l)) + 2 <= n)%nat ->
  members n d (commas (map print_member l) ++ x7d :: t) = Some (l, t).
Proof.
  intros Hl. revert n. induction Hl as [|[k j] l Hj Hl IH]; intros n Hne Hok Hn; [done|].
  cbn [map fold_right fst snd] in *. destruct Hok as [[Hk Hok] Hoks]. rewrite commas_cons in *.
  destruct n as [|n]; [lia|]. cbn [members].
  assert (forall rest, closes rest -> (2 * length (print_member (k, j)) <= n + 1)%nat ->
    exists r, print_member (k, j) ++ rest = x22 :: r /\ unquote (length r) r = Some (k, x3a :: print j ++ rest) /\
      value n d (print j ++ rest) = Some (j, rest)) as Hm.
  { intros rest Hrest Hlen. unfold print_member. cbn [fst snd]. rewrite <-!app_assoc.
    destruct (quote_spec k (":" ++ print j ++ rest) Hk) as (r & E & Hu).
    exists r. split; [done|]. split; [done|]. apply Hj; [done|done|].
    unfold print_member in Hlen. cbn [fst snd] in Hlen. unfold quote in Hlen.
    rewrite !length_app in Hlen. cbn in Hlen. lia. }
  destruct l as [|kv l].
  - cbn [map] in *. destruct (Hm (x7d :: t)) as (r & -> & Hu & Hval); [cbn; tauto|lia|].
    cbn [skip_ws is_ws Byte.eqb]. cbn. rewrite Hu. cbn. by rewrite Hval.
  - cbn [map] in *. rewrite length_app in Hn. cbn [length] in Hn. rewrite <-app_assoc. cbn [app].
    destruct (Hm (x2c :: commas (map print_member (kv :: l)) ++ x7d :: t)) as (r & E & Hu & Hval);
      [cbn; tauto|lia|].
    cbn [map] in E, Hval, Hu. rewrite E.
    specialize (IH n ltac:(done) Hoks ltac:(cbn [map]; lia)). cbn [map] in IH.
    remember (commas (print_member kv :: map print_member l) ++ x7d :: t) as body eqn:Eb; clear Eb.
    cbn. rewrite Hu. cbn. rewrite Hval. cbn. by rewrite IH.
Qed.

Lemma value_arr n d r : value (S n) d (x5b :: r) =
  if (d <=? 0)%Z then None else
  match cut_prefix "]" (skip_ws r) with
  | Some r => Some (JArr [], r)
  | None => '(l, r) ← elements n (d - 1) r; Some (JArr l, r)
  end.
Proof. done. Qed.

Lemma value_obj n d r : value (S n) d (x7b :: r) =
  if (d <=? 0)%Z then None else
  match cut_prefix "}" (skip_ws r) with
  | Some r => Some (JObj [], r)
  | None => '(l, r) ← members n (d - 1) r; Some (JObj l, r)
  end.
Proof. done. Qed.

Lemma value_print j : value_ok j.
Proof.
  induction j as [|b|lit|s|l Hl|l Hl] using json_nested_ind; intros n d t Hok Ht Hn;
    (destruct n as [|n]; [lia|]); cbn [print json_ok] in *.
  - done.
  - by destruct b.
  - destruct Hok as [z ->]. destruct (itoa_head z) as (c & r & E & Hc).
    pose proof (number_itoa z t Ht) as Hnum. rewrite E in *. cbn [app] in *. cbn [value].
    apply is_digit_not_ws in Hc as (H0 & _ & H1 & H2 & H3 & H4 & H5 & H6).
    cbn [skip_ws]. rewrite H0, H1, H2, H3.
    rewrite !cut_prefix_ne by done. by rewrite Hnum.
  - destruct (quote_spec s t Hok) as (r & -> & Hu). cbn. by rewrite Hu.
  - destruct Hok as [Hd Hok]. cbn [app]. rewrite value_arr.
    destruct (Z.leb_spec d 0); [lia|]. destruct l as [|j l]; [done|].
    rewrite <-app_assoc. cbn [app].
    assert (exists c r, commas (map print (j :: l)) ++ x5d :: t = c :: r /\ is_ws c = false /\ c <> x5d)
      as (c & r & E & Hws & Hc).
    { cbn [fold_right] in Hok. destruct Hok as [Hok _]. cbn [map]. rewrite commas_cons.
      destruct (print_head _ _ Hok) as (c & r & -> & ? & ?). destruct (map print l); by eexists _, _. }
    assert (cut_prefix "]" (skip_ws (commas (map print (j :: l)) ++ x5d :: t)) = None) as ->.
    { rewrite E. cbn [skip_ws]. rewrite Hws. apply cut_prefix_ne. by destruct (byte_eqb_spec x5d c). }
    rewrite elements_print; [done..|]. cbn in Hn. rewrite length_app in Hn. cbn in Hn |- *. lia.
  - destruct Hok as [Hd Hok]. cbn [app]. rewrite value_obj.
    destruct (Z.leb_spec d 0); [lia|]. destruct l as [|[k j] l]; [done|].
    rewrite <-app_assoc. cbn [app]. cbn [fold_right fst snd] in Hok.
    destruct Hok as [[Hk Hj] Hoks].
    change (map _ ((k, j) :: l)) with (map print_member ((k, j) :: l)).
    change (map _ ((k, j) :: l)) with (map print_member ((k, j) :: l)) in Hn.
    assert (exists r, commas (map print_member ((k, j) :: l)) ++ x7d :: t = x22 :: r) as [r E].
    { cbn [map]. rewrite commas_cons. change (print_member (k, j)) with (quote k ++ ":" ++ print j).
      destruct (map print_member l); by eexists. }
    assert (cut_prefix "}" (skip_ws (commas (map print_member ((k, j) :: l)) ++ x7d :: t)) = None) as ->
      by (by rewrite E).
    rewrite members_print; [done|done|done|by split|].
    cbn in Hn. rewrite length_app in Hn. cbn in Hn |- *. lia.
Qed.

(** Every faithful document is read back. *)
Lemma parse_print j : json_ok maxNestingDepth j -> parse (print j) = Some j.
Proof.
  intros H. unfold parse. pose proof (value_print j (2 * length (print j) + 2) maxNestingDepth []) as Hv.
  rewrite app_nil_r in Hv. rewrite Hv by (done || lia). done.
Qed.

Example json_1 : parse (print (JObj [("v"%go, JNum "1"); ("s"%go, JStr "a<b&é"); ("l"%go, JArr [JStr "x"; JNull; JBool true])]))
  = Some (JObj [("v"%go, JNum "1"); ("s"%go, JStr "a<b&é"); ("l"%go, JArr [JStr "x"; JNull; JBool true])]).
Proof. vm_compute. reflexivity. Qed.
