(* ===== verification/Subnet.v ===== *)
(** * wgadmin: allocation of client addresses (subnet.go)

    [AllocateClientIP] walks a subnet from its network address up.  The walk
    is a loop with fuel; one round more than there are addresses in use is
    enough, which [alloc_loop_total] shows. *)

From S2P Require Import Prelude GoStrings NetIP.

Inductive alloc_error := InvalidSubnet | SubnetExhausted.

(** The last address of an IPv4 subnet: every host bit set.  A shift of a
    [uint32] by 32 gives 0, as [Z.shiftr] does. *)
Definition isBroadcast (addr : Addr) (subnet : Prefix) : bool :=
  match addr with
  | Addr4 host =>
      let mask := Z.shiftr 0xFFFFFFFF (pf_bits subnet) in (Z.land host mask =? mask)%Z
  | _ => false
  end.

(** The set [used] of addresses the walk must skip. *)
Definition used_set (serverAddr : Addr) (taken : list Addr) : gset Addr :=
  (if Addr_IsValid serverAddr then {[ serverAddr ]} else ∅) ∪ list_to_set taken.

(** [None]: out of fuel. *)
Fixpoint alloc_loop (fuel : nat) (subnet : Prefix) (used : gset Addr) (addr : Addr)
    : option (result alloc_error Addr) :=
  match fuel with
  | O => None
  | S fuel =>
      if negb (Prefix_Contains subnet addr) then Some (Err SubnetExhausted)
      else if Is4 addr && isBroadcast addr subnet then Some (Err SubnetExhausted)
      else if negb (bool_decide (addr ∈ used)) then Some (Ok addr)
      else let next := Next addr in
           if negb (Addr_IsValid next) || bool_decide (next = addr)
           then Some (Err SubnetExhausted)
           else alloc_loop fuel subnet used next
  end.

Definition AllocateClientIP (subnet : Prefix) (serverAddr : Addr) (taken : list Addr)
    : result alloc_error Addr :=
  guard Prefix_IsValid subnet else InvalidSubnet in
  let used := used_set serverAddr taken in
  default (Err SubnetExhausted)
    (alloc_loop (S (size used)) subnet used (Next (pf_addr (Masked subnet)))).

(** ** Specification *)

Definition addr_val (a : Addr) : Z :=
  match a with AddrZero => (-1)%Z | Addr4 v => v | Addr6 v _ => v end.

(** How many addresses a subnet has, and the number of its first one. *)
Definition subnet_size (subnet : Prefix) : Z := 2 ^ (BitLen (pf_addr subnet) - pf_bits subnet).
Definition subnet_low (subnet : Prefix) : Z :=
  addr_val (pf_addr subnet) / subnet_size subnet * subnet_size subnet.

(** The addresses of [subnet] a host may have: above the first, which names
    the network, and in IPv4 below the last, which is the broadcast address. *)
Definition is_host (subnet : Prefix) (a : Addr) : bool :=
  Prefix_Contains subnet a && (subnet_low subnet <? addr_val a)%Z
  && (if Is4 a then (addr_val a <? subnet_low subnet + subnet_size subnet - 1)%Z else true).

(** ** The walk *)

(** The used addresses still ahead of [a]. *)
Definition ahead (used : gset Addr) (a : Addr) : gset Addr :=
  filter (fun u => (addr_val a <= addr_val u)%Z) used.

Lemma ahead_step used a b :
  a ∈ used -> (addr_val a < addr_val b)%Z -> (size (ahead used b) < size (ahead used a))%nat.
Proof.
  intros Ha Hlt. apply subset_size. split.
  - intros x. unfold ahead. rewrite !elem_of_filter. intros [? ?]. split; [lia|done].
  - intros H. specialize (H a). unfold ahead in H. rewrite !elem_of_filter in H.
    destruct H as [H _]; [by split | lia].
Qed.

Lemma Next_val a : Addr_IsValid (Next a) = true -> addr_val (Next a) = (addr_val a + 1)%Z.
Proof. destruct a as [|v|v z]; cbn; [done| |]; destruct (_ <? _)%Z; done. Qed.

(** Fuel beyond the used addresses ahead is never exhausted. *)
Lemma alloc_loop_total n subnet used a :
  (size (ahead used a) < n)%nat -> exists r, alloc_loop n subnet used a = Some r.
Proof.
  revert a. induction n as [|n IH]; intros a Hn; [lia|]. cbn [alloc_loop].
  destruct (negb _); [by eexists|]. destruct (_ && _); [by eexists|].
  destruct (decide (a ∈ used)) as [Hu|Hu].
  - rewrite bool_decide_eq_true_2 by done. cbn [negb].
    destruct (Addr_IsValid (Next a)) eqn:Hv; [|by eexists]. cbn [negb orb].
    destruct (bool_decide _); [by eexists|]. apply IH.
    pose proof (ahead_step used a (Next a) Hu) as H. rewrite (Next_val a Hv) in H. lia.
  - rewrite bool_decide_eq_false_2 by done. by eexists.
Qed.

(** What the walk finds, from the answer back: a contained, unused address
    with nothing but used hosts between, or none left. *)
Lemma alloc_loop_sound n subnet used a r :
  alloc_loop n subnet used a = Some r ->
  match r with
  | Ok x => Prefix_Contains subnet x = true /\ andb (Is4 x) (isBroadcast x subnet) = false /\
      (x ∉ used) /\ (addr_val a <= addr_val x)%Z
  | Err e => e = SubnetExhausted
  end.
Proof.
  revert a. induction n as [|n IH]; intros a H; [done|]. cbn [alloc_loop] in H.
  destruct (Prefix_Contains subnet a) eqn:Ec; cbn [negb] in H; [|by injection H as <-].
  destruct (Is4 a && isBroadcast a subnet) eqn:Eb; [by injection H as <-|].
  destruct (decide (a ∈ used)) as [Hu|Hu].
  - rewrite bool_decide_eq_true_2 in H by done. cbn [negb] in H.
    destruct (Addr_IsValid (Next a)) eqn:Hv; cbn [negb orb] in H; [|by injection H as <-].
    destruct (bool_decide _); [by injection H as <-|]. apply IH in H. destruct r; [|done].
    rewrite (Next_val a Hv) in H. destruct H as (? & ? & ? & ?). repeat split; [done..|lia].
  - rewrite bool_decide_eq_false_2 in H by done. injection H as <-. repeat split; [done..|lia].
Qed.

(** ** One address family *)

Section Family.
(** The addresses of one family by number, of [width] bits. *)
Context (mk : Z -> Addr) (width : Z).
Hypothesis Hfam : (mk = Addr4 /\ width = 32%Z) \/ (mk = (fun v => Addr6 v []) /\ width = 128%Z).

Context (v bits : Z).
Hypothesis Hv : (0 <= v < 2 ^ width)%Z.
Hypothesis Hbits : (0 <= bits <= width)%Z.

Notation subnet := (mkPrefix (mk v) bits).
Notation hostbits := (width - bits)%Z.
Notation base := (mask_val width bits v).

Lemma val_mk x : addr_val (mk x) = x.
Proof. by destruct Hfam as [[-> _]|[-> _]]. Qed.

Lemma mk_inj x y : mk x = mk y -> x = y.
Proof. intros H. by rewrite <-(val_mk x), <-(val_mk y), H. Qed.

Lemma base_bounds : (0 <= base /\ base + 2 ^ hostbits <= 2 ^ width)%Z.
Proof.
unfold mask_val. pose proof (Z.pow_pos_nonneg 2 hostbits) as Hp.
assert (0 < 2 ^ hostbits)%Z by lia.
assert (2 ^ width = 2 ^ bits * 2 ^ hostbits)%Z as Hw.
{ rewrite <-Z.pow_add_r by lia. f_equal. lia. }
assert (0 <= v / 2 ^ hostbits)%Z by (apply Z.div_pos; lia).
assert (v / 2 ^ hostbits < 2 ^ bits)%Z by (apply Z.div_lt_upper_bound; nia).
split; nia.
Qed.

Lemma Masked_mk : pf_addr (Masked subnet) = mk base.
Proof.
unfold Masked, Prefix_IsValid. cbn [pf_bits pf_addr].
destruct (Z.leb_spec 0 bits); [|lia]. by destruct Hfam as [[-> ->]|[-> ->]].
Qed.

(** Containment is an interval of numbers. *)
Lemma Contains_mk x : (0 <= x)%Z ->
Prefix_Contains subnet (mk x) = true <-> (base <= x < base + 2 ^ hostbits)%Z.
Proof.
intros Hx. unfold Prefix_Contains, Prefix_IsValid. cbn [pf_bits pf_addr].
destruct (Z.leb_spec 0 bits); [|lia]. cbn [andb].
assert (0 < 2 ^ hostbits)%Z as Hp by (apply Z.pow_pos_nonneg; lia).
assert (v / 2 ^ hostbits = x / 2 ^ hostbits <-> base <= x < base + 2 ^ hostbits)%Z as <-.
{ unfold mask_val. pose proof (Z.div_mod x (2 ^ hostbits)).
  pose proof (Z.mod_pos_bound x (2 ^ hostbits) Hp). split; [intros ->; nia|].
  intros Hr. apply (Z.div_unique x _ _ (x - v / 2 ^ hostbits * 2 ^ hostbits)); nia. }
destruct Hfam as [[-> ->]|[-> ->]]; apply Z.eqb_eq.
Qed.

Lemma Contains_family a : Prefix_Contains subnet a = true -> a = mk (addr_val a).
Proof.
unfold Prefix_Contains. cbn [pf_addr]. intros H. apply andb_true_iff in H as [_ H].
destruct Hfam as [[-> _]|[-> _]]; destruct a as [|x|x [|]]; done.
Qed.

Lemma Contains_nonneg a : Prefix_Contains subnet a = true -> (0 <= addr_val a)%Z.
Proof.
intros Hb. pose proof (Contains_family _ Hb) as Hbm.
assert (0 < 2 ^ hostbits)%Z as Hp by (apply Z.pow_pos_nonneg; lia).
rewrite Hbm in Hb. unfold Prefix_Contains in Hb. cbn [pf_addr pf_bits] in Hb.
apply andb_true_iff in Hb as [_ Hb].
destruct (Z.ltb_spec (addr_val a) 0) as [Hneg|]; [|done]. exfalso.
assert (addr_val a / 2 ^ hostbits < 0)%Z by (apply Z.div_lt_upper_bound; lia).
assert (0 <= v / 2 ^ hostbits)%Z by (apply Z.div_pos; lia).
destruct Hfam as [[-> Ew]|[-> Ew]]; rewrite <-Ew in Hb; apply Z.eqb_eq in Hb; lia.
Qed.

(** The broadcast test finds the last address of an IPv4 subnet. *)
Lemma broadcast_mk x : (base <= x < base + 2 ^ hostbits)%Z ->
Is4 (mk x) && isBroadcast (mk x) subnet =
  if Is4 (mk x) then (x =? base + 2 ^ hostbits - 1)%Z else false.
Proof.
intros Hx. destruct Hfam as [[-> Hw]|[-> _]]; [|done]. cbn [Is4 isBroadcast andb pf_bits].
change 0xFFFFFFFF%Z with (Z.ones 32).
assert (Z.shiftr (Z.ones 32) bits = Z.ones hostbits) as ->.
{ rewrite Hw. apply Z.bits_inj'. intros n Hn. rewrite Z.shiftr_spec by lia.
  rewrite !Z.testbit_ones by lia. apply Bool.eq_iff_eq_true.
  rewrite !andb_true_iff, !Z.leb_le, !Z.ltb_lt. lia. }
rewrite Z.land_ones by lia. rewrite Z.ones_equiv.
assert (0 < 2 ^ hostbits)%Z as Hp by (apply Z.pow_pos_nonneg; lia).
unfold mask_val in *. pose proof (Z.div_mod x (2 ^ hostbits)).
pose proof (Z.mod_pos_bound x (2 ^ hostbits) Hp).
rewrite Z.sub_1_r in *. set (h := (2 ^ hostbits)%Z) in *.
set (a := (v / h)%Z) in *. set (q := (x / h)%Z) in *.
assert (q = a) by nia.
destruct (Z.eqb_spec (x mod h) (Z.pred h)), (Z.eqb_spec x (Z.pred (a * h + h))); (exfalso; nia) || done.
Qed.

Lemma size_mk : subnet_size subnet = (2 ^ hostbits)%Z.
Proof. unfold subnet_size. cbn [pf_addr pf_bits]. by destruct Hfam as [[-> ->]|[-> ->]]. Qed.
Lemma low_mk : subnet_low subnet = base.
Proof. unfold subnet_low. rewrite size_mk. cbn [pf_addr]. by rewrite val_mk. Qed.

(** The hosts are the addresses the walk may stop at. *)
Lemma is_host_walk a : is_host subnet a =
Prefix_Contains subnet a && negb (bool_decide (a = pf_addr (Masked subnet)))
  && negb (Is4 a && isBroadcast a subnet).
Proof.
unfold is_host. destruct (Prefix_Contains subnet a) eqn:Ec; [|done]. cbn [andb].
pose proof (Contains_family _ Ec) as Ea. pose proof (Contains_nonneg _ Ec) as H0.
set (x := addr_val a) in *. rewrite Ea in Ec |- *. apply Contains_mk in Ec; [|done].
rewrite broadcast_mk by done. rewrite Masked_mk, low_mk, size_mk.
f_equal.
- apply Bool.eq_iff_eq_true. rewrite Z.ltb_lt, negb_true_iff, bool_decide_eq_false.
  split; [intros ? E%mk_inj; lia|]. intros Hne. assert (x <> base) by congruence. lia.
- destruct (Is4 (mk x)); [|done].
  destruct (Z.ltb_spec x (base + 2 ^ hostbits - 1)), (Z.eqb_spec x (base + 2 ^ hostbits - 1)); done || lia.
Qed.

Lemma Next_mk x : (x + 1 < 2 ^ width)%Z -> Next (mk x) = mk (x + 1).
Proof. intros Hx. destruct Hfam as [[-> ->]|[-> ->]]; unfold Next; case Z.ltb_spec; done || lia. Qed.

Lemma Next_mk_last x : (2 ^ width <= x + 1)%Z -> Next (mk x) = AddrZero.
Proof. intros Hx. destruct Hfam as [[-> ->]|[-> ->]]; unfold Next; case Z.ltb_spec; done || lia. Qed.

(** The walk from [x] skips no free host. *)
Lemma alloc_loop_complete n used x r b :
(base < x)%Z -> (x < 2 ^ width)%Z ->
alloc_loop n subnet used (mk x) = Some r -> is_host subnet b = true -> (x <= addr_val b)%Z ->
match r with Ok a => (addr_val b < addr_val a)%Z -> b ∈ used | Err _ => b ∈ used end.
Proof.
pose proof base_bounds as Hbase.
revert x. induction n as [|n IH]; intros x Hx Hxw H Hb Hle; [done|]. cbn [alloc_loop] in H.
assert (Hh := Hb). rewrite is_host_walk in Hb. apply andb_true_iff in Hb as [Hb Hbc].
apply andb_true_iff in Hb as [Hb _]. assert (Hbm := Contains_family _ Hb).
set (y := addr_val b) in *. rewrite Hbm in Hb. rewrite Contains_mk in Hb by lia.
assert (Prefix_Contains subnet (mk x) = true) as Ec by (rewrite Contains_mk by lia; lia).
rewrite Ec in H. cbn [negb] in H.
destruct (Is4 (mk x) && isBroadcast (mk x) subnet) eqn:Eb.
{ assert (x = base + 2 ^ hostbits - 1)%Z as El.
  { rewrite broadcast_mk in Eb by lia. destruct (Is4 (mk x)); [by apply Z.eqb_eq|done]. }
  assert (y = x) as E by lia. rewrite Hbm, E, Eb in Hbc. done. }
destruct (decide (mk x ∈ used)) as [Hu|Hu].
- rewrite bool_decide_eq_true_2 in H by done. cbn [negb] in H.
  destruct (Z.eq_dec y x) as [E|Hne]; [rewrite Hbm, E; by destruct r|].
  rewrite Next_mk in H by lia.
  assert (Addr_IsValid (mk (x + 1)) = true) as Hva by (by destruct Hfam as [[-> _]|[-> _]]).
  rewrite Hva in H. cbn [negb orb] in H.
  rewrite bool_decide_eq_false_2 in H; [|intros E%mk_inj; lia].
  apply (IH (x + 1)%Z); [lia..|done|done|lia].
- rewrite bool_decide_eq_false_2 in H by done. injection H as <-.
  rewrite val_mk. intros. lia.
Qed.

(** The specification for one family. *)
Lemma AllocateClientIP_family serverAddr taken :
match AllocateClientIP subnet serverAddr taken with
| Ok a => is_host subnet a = true /\ (a ∉ used_set serverAddr taken) /\
    forall b, is_host subnet b = true -> (addr_val b < addr_val a)%Z -> b ∈ used_set serverAddr taken
| Err e => e = SubnetExhausted /\
    forall b, is_host subnet b = true -> b ∈ used_set serverAddr taken
end.
Proof.
unfold AllocateClientIP, Prefix_IsValid. cbn [pf_bits].
destruct (Z.leb_spec 0 bits); [|lia]. rewrite Masked_mk.
set (used := used_set serverAddr taken). pose proof base_bounds as Hbase.
assert (0 < 2 ^ hostbits)%Z as Hp by (apply Z.pow_pos_nonneg; lia).
assert (forall b, is_host subnet b = true -> (base + 1 <= addr_val b < base + 2 ^ hostbits)%Z) as Hhost.
{ intros b Hb. unfold is_host in Hb. rewrite low_mk, !andb_true_iff in Hb.
  destruct Hb as [[Hb Hlo%Z.ltb_lt] _]. assert (H0 := Contains_nonneg _ Hb).
  rewrite (Contains_family _ Hb), Contains_mk in Hb by done. lia. }
destruct (Z.ltb_spec (base + 1) (2 ^ width)) as [Hin|Hout].
2:{ rewrite Next_mk_last by lia. cbn [alloc_loop].
    assert (Prefix_Contains subnet AddrZero = false) as ->.
    { unfold Prefix_Contains. destruct Hfam as [[-> _]|[-> _]]; apply andb_false_r. }
    cbn. split; [done|]. intros b Hb. specialize (Hhost b Hb). lia. }
rewrite Next_mk by lia.
destruct (alloc_loop_total (S (size used)) subnet used (mk (base + 1))) as [r Hr].
{ enough (size (ahead used (mk (base + 1))) <= size used)%nat by lia.
  apply subseteq_size. unfold ahead. intros u [_ Hu]%elem_of_filter. done. }
rewrite Hr. cbn [default]. assert (Hs := alloc_loop_sound _ _ _ _ _ Hr).
assert (Hc := fun b => alloc_loop_complete _ used (base + 1) r b ltac:(lia) ltac:(lia) Hr).
destruct r as [a|e].
- destruct Hs as (H1 & H2 & H3 & H4). rewrite val_mk in H4. split_and!; [|done|].
  + rewrite is_host_walk, H1, H2, Masked_mk. cbn [andb negb]. rewrite andb_true_r.
    apply negb_true_iff, bool_decide_eq_false. intros ->. rewrite val_mk in H4. lia.
  + intros b Hb Hlt. apply Hc; [done| |done]. specialize (Hhost b Hb). lia.
- split; [done|]. intros b Hb. apply Hc; [done|]. specialize (Hhost b Hb). lia.
Qed.
End Family.

Lemma elem_of_used_set a serverAddr taken :
  Addr_IsValid a = true -> a ∈ used_set serverAddr taken <-> a = serverAddr \/ a ∈ taken.
Proof.
  intros Ha. unfold used_set. rewrite elem_of_union, elem_of_list_to_set.
  destruct (Addr_IsValid serverAddr) eqn:E; [by rewrite elem_of_singleton|].
  split; [set_solver|]. intros [->|]; [congruence|by right].
Qed.

Lemma is_host_valid subnet a : is_host subnet a = true -> Addr_IsValid a = true.
Proof.
  unfold is_host, Prefix_Contains. rewrite !andb_true_iff. intros [[[_ H] _] _].
  by destruct (pf_addr subnet), a.
Qed.

(** ** The theorem *)

(** The specification, for other files. *)
Lemma alloc_spec subnet serverAddr taken :
  prefix_wf subnet ->
  match AllocateClientIP subnet serverAddr taken with
  | Ok a => is_host subnet a = true /\ a <> serverAddr /\ (a ∉ taken) /\
      forall b, is_host subnet b = true -> (addr_val b < addr_val a)%Z -> b = serverAddr \/ b ∈ taken
  | Err e => e = SubnetExhausted /\
      forall b, is_host subnet b = true -> b = serverAddr \/ b ∈ taken
  end.
Proof.
  destruct subnet as [a bits]. unfold prefix_wf. cbn [pf_addr pf_bits]. intros (Hwf & Hb & Hz & Hv).
  assert (match AllocateClientIP (mkPrefix a bits) serverAddr taken with
  | Ok x => is_host (mkPrefix a bits) x = true /\ (x ∉ used_set serverAddr taken) /\
      forall b, is_host (mkPrefix a bits) b = true -> (addr_val b < addr_val x)%Z ->
        b ∈ used_set serverAddr taken
  | Err e => e = SubnetExhausted /\
      forall b, is_host (mkPrefix a bits) b = true -> b ∈ used_set serverAddr taken
  end) as H.
  { destruct a as [|v|v z]; [done| |].
    - apply (AllocateClientIP_family Addr4 32); [by left|done|done].
    - cbn in Hz. injection Hz as <-. apply (AllocateClientIP_family (fun v => Addr6 v []) 128);
        [by right|done|done]. }
  assert (forall b, is_host (mkPrefix a bits) b = true ->
    b ∈ used_set serverAddr taken <-> b = serverAddr \/ b ∈ taken) as Hu.
  { intros b Hh. apply elem_of_used_set. by eapply is_host_valid. }
  destruct (AllocateClientIP _ _ _) as [x|e].
  - destruct H as (H1 & H2 & H3). rewrite Hu in H2 by done. split_and!; [done|tauto|tauto|].
    intros b Hh Hlt. apply Hu; [done|]. by apply H3.
  - destruct H as [-> H]. split; [done|]. intros b Hh. apply Hu; [done|]. by apply H.
Qed.

(** C30.  For every well-formed subnet [AllocateClientIP] returns the lowest
    host address that is neither the server's nor taken, and reports
    exhaustion only when every host address is; a host address is one of the
    subnet above its first and, in IPv4, below its last. *)
Theorem AllocateClientIP_lowest subnet serverAddr taken :
  prefix_wf subnet ->
  match AllocateClientIP subnet serverAddr taken with
  | Ok a => is_host subnet a = true /\ a <> serverAddr /\ (a ∉ taken) /\
      forall b, is_host subnet b = true -> (addr_val b < addr_val a)%Z -> b = serverAddr \/ b ∈ taken
  | Err e => e = SubnetExhausted /\
      forall b, is_host subnet b = true -> b = serverAddr \/ b ∈ taken
  end.
Proof. apply alloc_spec. Qed.

Lemma AllocateClientIP_lowest_witness :
  let subnet := mkPrefix (Addr4 0x0a070000) 24 in
  prefix_wf subnet /\
  match AllocateClientIP subnet (Addr4 0x0a070001) [Addr4 0x0a070002; Addr4 0x0a070004] with
  | Ok a => is_host subnet a = true /\ a <> Addr4 0x0a070001 /\
      (a ∉ [Addr4 0x0a070002; Addr4 0x0a070004]) /\
      forall b, is_host subnet b = true -> (addr_val b < addr_val a)%Z ->
        b = Addr4 0x0a070001 \/ b ∈ [Addr4 0x0a070002; Addr4 0x0a070004]
  | Err e => e = SubnetExhausted /\
      forall b, is_host subnet b = true ->
        b = Addr4 0x0a070001 \/ b ∈ [Addr4 0x0a070002; Addr4 0x0a070004]
  end.
Proof.
  intros subnet. assert (prefix_wf subnet) as H by (repeat split; cbn; lia).
  split; [done|]. apply (AllocateClientIP_lowest subnet _ _ H).
Defined.

Example allocates_third :
  AllocateClientIP (mkPrefix (Addr4 0x0a070000) 24) (Addr4 0x0a070001) [Addr4 0x0a070002; Addr4 0x0a070004]
  = Ok (Addr4 0x0a070003).
Proof. vm_compute. reflexivity. Qed.

(** A /31 has no host: its only address past the network address counts as
    the broadcast address. *)
Example slash31_exhausted :
  AllocateClientIP (mkPrefix (Addr4 0x0a070000) 31) AddrZero [] = Err SubnetExhausted.
Proof. vm_compute. reflexivity. Qed.
