(* ===== verification/WgKernel.v ===== *)
(** * pkg/wgkernel: the embedded WireGuard device

    config.go (validation, the key formats, the [IpcSet] payload), kernel.go
    (life cycle, [ActualListenPort], [Stats]) and the in-memory TUN of tun.go.
    The wireguard-go device is a parameter: what its calls answer is an
    argument. *)

From Stdlib Require Import Floats.SpecFloat.
From S2P Require Import Prelude GoStrings GoErrors GoTime Encoding NetIP.

Definition DefaultMTU : Z := 1280.
Definition MaxMTU : Z := 1380.

Definition clampMTU (mtu : Z) : Z :=
  if (mtu <=? 0)%Z then DefaultMTU else if (MaxMTU <? mtu)%Z then MaxMTU else mtu.

(** The TUN devices of the system (tun.go, tun_fromfd_linux.go and
    tun_fromfd_other.go); opening one is wireguard-go's. *)
Definition NewSystemTUN {T} (CreateTUN : bytes -> Z -> T) (name : bytes) (mtu : Z) : T :=
  CreateTUN name (clampMTU mtu).

Definition fromfd_unsupported : error := errors_New
  "wgkernel: NewTUNFromFD is not implemented on this platform (Linux/Android only); use NewSystemTUN for desktop".
Definition NewTUNFromFD {D} (linux : bool) (CreateUnmonitoredTUNFromFD : Z -> result error (D * bytes)) (fd mtu : Z)
    : result error (D * bytes) :=
  if linux then CreateUnmonitoredTUNFromFD fd else Err fromfd_unsupported.

(** ** Configuration *)

Record PeerConfig := mkPeerConfig {
  pc_PublicKey : bytes;
  pc_PresharedKey : bytes;
  pc_Endpoint : bytes;
  pc_AllowedIPs : list Prefix;
  pc_PersistentKeepalive : Z }.

Record Config := mkConfig {
  PrivateKey : bytes;
  Address : list Prefix;
  ListenPort : Z;
  MTU : Z;
  DNS : list Addr;
  Peers : list PeerConfig }.

Inductive key_error :=
| EmptyKey | HexDecode (e : hex_error) | HexKeyLength (n : nat)
| Base64Decode | Base64KeyLength (n : nat) | KeyFormat (n : nat).

Definition decodeWGKey (s : bytes) : result key_error bytes :=
  let s := TrimSpace s in
  if s =s? [] then Err EmptyKey
  else if (length s =? 64)%nat then
    let* k := rwrap HexDecode (hex_decode s) in
    guard (length k =? 32)%nat else HexKeyLength (length k) in Ok k
  else if (length s =? 44)%nat then
    match b64_decode StdEncoding s with
    | None => Err Base64Decode
    | Some k => guard (length k =? 32)%nat else Base64KeyLength (length k) in Ok k
    end
  else Err (KeyFormat (length s)).

Definition encodeWGKeyBase64 (raw : bytes) : bytes := b64_encode StdEncoding raw.

Inductive config_error :=
| BadPrivateKey (e : key_error)
| NegativeMTU
| BadPublicKey (peer : nat) (e : key_error)
| BadPresharedKey (peer : nat) (e : key_error)
| BadAllowedIP (peer j : nat)
| NegativeKeepalive (peer : nat).

Fixpoint check_allowed (i j : nat) (l : list Prefix) : result config_error unit :=
  match l with
  | [] => Ok tt
  | a :: l => guard Prefix_IsValid a else BadAllowedIP i j in check_allowed i (S j) l
  end.

Definition validate_peer (i : nat) (p : PeerConfig) : result config_error unit :=
  let* _ := rwrap (BadPublicKey i) (decodeWGKey (pc_PublicKey p)) in
  let* _ := (if pc_PresharedKey p =s? [] then Ok tt
             else let* _ := rwrap (BadPresharedKey i) (decodeWGKey (pc_PresharedKey p)) in Ok tt) in
  let* _ := check_allowed i 0 (pc_AllowedIPs p) in
  guard negb (pc_PersistentKeepalive p <? 0)%Z else NegativeKeepalive i in
  Ok tt.

Fixpoint validate_peers (i : nat) (ps : list PeerConfig) : result config_error unit :=
  match ps with
  | [] => Ok tt
  | p :: ps => let* _ := validate_peer i p in validate_peers (S i) ps
  end.

Definition Validate (c : Config) : result config_error unit :=
  let* _ := rwrap BadPrivateKey (decodeWGKey (PrivateKey c)) in
  guard negb (MTU c <? 0)%Z else NegativeMTU in
  validate_peers 0 (Peers c).

Definition withDefaults (c : Config) : Config :=
  mkConfig (PrivateKey c) (Address c) (ListenPort c)
    (if (MTU c =? 0)%Z then DefaultMTU else MTU c) (DNS c) (Peers c).

(** ** The IpcSet payload *)

(** [int(d.Seconds())] for a non-negative duration: [Seconds] is a
    [float64]. *)
Definition whole_seconds (d : Z) : Z :=
  f64_trunc (SFadd 53 1024 (f64_of_Z (Z.quot d Second))
                           (f64_div (f64_of_Z (Z.rem d Second)) (f64_of_Z Second))).

Definition peer_lines (i : nat) (p : PeerConfig) : result config_error (list bytes) :=
  let* pub := rwrap (BadPublicKey i) (decodeWGKey (pc_PublicKey p)) in
  let* psk := (if pc_PresharedKey p =s? [] then Ok []
               else let* k := rwrap (BadPresharedKey i) (decodeWGKey (pc_PresharedKey p)) in
                    Ok ["preshared_key=" ++ hex_encode k]) in
  Ok (["public_key=" ++ hex_encode pub] ++ psk ++
      (if pc_Endpoint p =s? [] then [] else ["endpoint=" ++ pc_Endpoint p]) ++
      (if (0 <? pc_PersistentKeepalive p)%Z
       then ["persistent_keepalive_interval=" ++ itoa (whole_seconds (pc_PersistentKeepalive p))]
       else []) ++
      match pc_AllowedIPs p with
      | [] => []
      | l => "replace_allowed_ips=true" :: map (fun a => "allowed_ip=" ++ Prefix_String a) l
      end).

Fixpoint peers_lines (i : nat) (ps : list PeerConfig) : result config_error (list bytes) :=
  match ps with
  | [] => Ok []
  | p :: ps =>
      let* l := peer_lines i p in
      let* ls := peers_lines (S i) ps in Ok (l ++ ls)
  end.

Definition ipc_lines (c : Config) : result config_error (list bytes) :=
  let* priv := rwrap BadPrivateKey (decodeWGKey (PrivateKey c)) in
  let* ls := peers_lines 0 (Peers c) in
  Ok (["private_key=" ++ hex_encode priv; "listen_port=" ++ itoa (ListenPort c);
       "replace_peers=true"] ++ ls).

Definition unlines (ls : list bytes) : bytes := concat (map (fun l => l ++ [x0a]) ls).

Definition IPC (c : Config) : result config_error bytes :=
  let* ls := ipc_lines c in Ok (unlines ls).

(** ** The kernel *)

Inductive kernel_state := stateNew | stateStarted | stateStopped.

(** [turnTun]: the tunnel of [WithTurnTunnel], by what its [LocalAddr]
    answers; [k_devs] counts the devices opened and closed. *)
Record Kernel := mkKernel {
  k_cfg : Config;
  k_turnTun : option (option bytes);
  k_state : kernel_state;
  k_applied : option bytes;         (* the payload the device runs with *)
  k_opened : nat;
  k_closed : nat }.

Inductive new_error := InvalidConfig (e : config_error) | NilTun.

Definition New (cfg : Config) (has_tun : bool) (turnTun : option (option bytes))
    : result new_error Kernel :=
  let* _ := rwrap InvalidConfig (Validate cfg) in
  guard has_tun else NilTun in
  Ok (mkKernel (withDefaults cfg) turnTun stateNew None 0 0).

Inductive kernel_error :=
| AlreadyStarted | CtxEnded (e : error) | TunnelNotStarted
| BuildIPC (e : config_error) | IpcSetFailed (e : error) | UpFailed (e : error)
| NotStarted | IpcGetFailed (e : error) | BadListenPort | NoListenPort.

(** Every peer's endpoint becomes the tunnel's local address. *)
Definition point_at (addr : bytes) (c : Config) : Config :=
  mkConfig (PrivateKey c) (Address c) (ListenPort c) (MTU c) (DNS c)
    (map (fun p => mkPeerConfig (pc_PublicKey p) (pc_PresharedKey p) addr (pc_AllowedIPs p)
                     (pc_PersistentKeepalive p)) (Peers c)).

Definition effective_config (k : Kernel) : result kernel_error Config :=
  match k_turnTun k with
  | None => Ok (k_cfg k)
  | Some None => Err TunnelNotStarted
  | Some (Some addr) => Ok (point_at addr (k_cfg k))
  end.

Definition open_close (k : Kernel) : Kernel :=
  mkKernel (k_cfg k) (k_turnTun k) (k_state k) (k_applied k) (S (k_opened k)) (S (k_closed k)).

(** [Start]; [ipc_set] and [up] are the device's answers. *)
Definition Start (k : Kernel) (ctx_err : option error) (ipc_set : bytes -> option error)
    (up : option error) : Kernel * option kernel_error :=
  match k_state k with
  | stateNew =>
      match ctx_err with
      | Some e => (k, Some (CtxEnded e))
      | None =>
          match effective_config k with
          | Err e => (k, Some e)
          | Ok cfg =>
              match IPC cfg with
              | Err e => (k, Some (BuildIPC e))
              | Ok ipc =>
                  match ipc_set ipc, up with
                  | Some e, _ => (open_close k, Some (IpcSetFailed e))
                  | None, Some e => (open_close k, Some (UpFailed e))
                  | None, None =>
                      (mkKernel (k_cfg k) (k_turnTun k) stateStarted (Some ipc) (S (k_opened k))
                         (k_closed k), None)
                  end
              end
          end
      end
  | _ => (k, Some AlreadyStarted)
  end.

Definition Stop (k : Kernel) : Kernel :=
  match k_state k with
  | stateStarted =>
      mkKernel (k_cfg k) (k_turnTun k) stateStopped (k_applied k) (k_opened k) (S (k_closed k))
  | _ => k
  end.

(** The search of [ActualListenPort] in what [IpcGet] answers. *)
Fixpoint find_listen_port (ls : list bytes) : result kernel_error Z :=
  match ls with
  | [] => Err NoListenPort
  | l :: ls =>
      match cut_prefix "listen_port=" l with
      | Some rest => match ParseUint 16 (TrimSpace rest) with
                     | Some n => Ok n
                     | None => Err BadListenPort
                     end
      | None => find_listen_port ls
      end
  end.

Definition ActualListenPort (k : Kernel) (ipc_get : result error bytes) : result kernel_error Z :=
  match k_state k with
  | stateStarted =>
      let* got := rwrap IpcGetFailed ipc_get in find_listen_port (split_byte x0a got)
  | _ => Err NotStarted
  end.

Record PeerStats := mkPeerStats {
  ps_PublicKey : bytes;
  ps_LastHandshakeTimeSec : Z;
  ps_RxBytes : Z;
  ps_TxBytes : Z }.

Definition no_stats : PeerStats := mkPeerStats [] 0 0 0.

(** The value [strconv.ParseUint(s, 10, 64)] returns beside its error, which
    the code keeps: zero at a character that is no digit, the largest value
    from the digit that overflows on. *)
Fixpoint uint_value (n : Z) (s : bytes) : Z :=
  match s with
  | [] => n
  | c :: s =>
      if is_digit c then
        let n := (10 * n + digit_val c)%Z in
        if (2 ^ 64 <=? n)%Z then (2 ^ 64 - 1)%Z else uint_value n s
      else 0%Z
  end.

Definition uint_or_zero (s : bytes) : Z := uint_value 0 s.

Definition int_or_zero (s : bytes) : Z :=
  let '(neg, ds) := match s with x2d :: r => (true, r) | x2b :: r => (false, r) | _ => (false, s) end in
  let v := uint_value 0 ds in
  if neg : bool then Z.max (- v) int64_min else Z.min v int64_max.

Definition flush (out : list PeerStats) (cur : PeerStats) : list PeerStats :=
  if ps_PublicKey cur =s? [] then out else out ++ [cur].

Definition stats_line (st : list PeerStats * PeerStats) (line : bytes) : list PeerStats * PeerStats :=
  let '(out, cur) := st in
  if HasPrefix line "public_key=" then
    (flush out cur, mkPeerStats (TrimPrefix line "public_key=") 0 0 0)
  else if HasPrefix line "last_handshake_time_sec=" then
    (out, mkPeerStats (ps_PublicKey cur) (int_or_zero (TrimPrefix line "last_handshake_time_sec="))
            (ps_RxBytes cur) (ps_TxBytes cur))
  else if HasPrefix line "rx_bytes=" then
    (out, mkPeerStats (ps_PublicKey cur) (ps_LastHandshakeTimeSec cur)
            (uint_or_zero (TrimPrefix line "rx_bytes=")) (ps_TxBytes cur))
  else if HasPrefix line "tx_bytes=" then
    (out, mkPeerStats (ps_PublicKey cur) (ps_LastHandshakeTimeSec cur) (ps_RxBytes cur)
            (uint_or_zero (TrimPrefix line "tx_bytes=")))
  else st.

Definition parse_stats (got : bytes) : list PeerStats :=
  let '(out, cur) := fold_left stats_line (split_byte x0a got) ([], no_stats) in flush out cur.

Definition Stats (k : Kernel) (ipc_get : result error bytes) : result kernel_error (list PeerStats) :=
  match k_state k with
  | stateStarted => let* got := rwrap IpcGetFailed ipc_get in Ok (parse_stats got)
  | _ => Err NotStarted
  end.

(** ** What a device reads in a payload

    A reader of the configuration lines, by their meaning for a device and
    apart from the code that prints them: a line it does not know, a value
    that is not of its kind, a peer's line outside a peer or an allowed prefix
    that is not in a fresh list make it fail. *)

Record uapi_peer := mkUapiPeer {
  up_public : bytes;
  up_preshared : option bytes;
  up_endpoint : option bytes;
  up_keepalive : option Z;
  up_allowed : option (list bytes) }.   (* the list that replaces the old one *)

Record uapi := mkUapi {
  ua_private : option bytes;
  ua_port : option Z;
  ua_peers : option (list uapi_peer) }. (* the list that replaces the old one, its last peer first *)

Definition hex_key (v : bytes) : option bytes :=
  match hex_decode v with Ok k => if (length k =? 32)%nat then Some k else None | Err _ => None end.

Definition upd_peer (f : uapi_peer -> option uapi_peer) (d : uapi) : option uapi :=
  match ua_peers d with
  | Some (p :: ps) => p ← f p; Some (mkUapi (ua_private d) (ua_port d) (Some (p :: ps)))
  | _ => None
  end.

(** The lines a device knows, with what each does. *)
Definition uapi_keys : list (bytes * (bytes -> uapi -> option uapi)) :=
  [("private_key=", fun v d => k ← hex_key v; Some (mkUapi (Some k) (ua_port d) (ua_peers d)));
   ("listen_port=", fun v d => n ← ParseUint 16 v; Some (mkUapi (ua_private d) (Some n) (ua_peers d)));
   ("replace_peers=true", fun v d => if v =s? [] then Some (mkUapi (ua_private d) (ua_port d) (Some [])) else None);
   ("public_key=", fun v d => k ← hex_key v; ps ← ua_peers d;
      Some (mkUapi (ua_private d) (ua_port d) (Some (mkUapiPeer k None None None None :: ps))));
   ("preshared_key=", fun v => upd_peer (fun p => k ← hex_key v;
      Some (mkUapiPeer (up_public p) (Some k) (up_endpoint p) (up_keepalive p) (up_allowed p))));
   ("endpoint=", fun v => upd_peer (fun p =>
      Some (mkUapiPeer (up_public p) (up_preshared p) (Some v) (up_keepalive p) (up_allowed p))));
   ("persistent_keepalive_interval=", fun v => upd_peer (fun p => n ← parse_digits v;
      Some (mkUapiPeer (up_public p) (up_preshared p) (up_endpoint p) (Some n) (up_allowed p))));
   ("replace_allowed_ips=true", fun v => upd_peer (fun p => if v =s? [] then
      Some (mkUapiPeer (up_public p) (up_preshared p) (up_endpoint p) (up_keepalive p) (Some [])) else None));
   ("allowed_ip=", fun v => upd_peer (fun p => l ← up_allowed p;
      Some (mkUapiPeer (up_public p) (up_preshared p) (up_endpoint p) (up_keepalive p) (Some (l ++ [v])))))].

Fixpoint by_key (keys : list (bytes * (bytes -> uapi -> option uapi))) (l : bytes) (d : uapi) : option uapi :=
  match keys with
  | [] => None
  | (key, set) :: keys => match cut_prefix key l with Some v => set v d | None => by_key keys l d end
  end.

(** Line by line up to the end of the text, which ends its last line. *)
Fixpoint uapi_lines (d : uapi) (ls : list bytes) : option uapi :=
  match ls with
  | [] => Some d
  | l :: ls => d ← by_key uapi_keys l d; uapi_lines d ls
  end.
Definition uapi_read (text : bytes) : option uapi :=
  let ls := split_byte x0a text in
  if bool_decide (last ls = Some []) then uapi_lines (mkUapi None None None) (removelast ls) else None.

(** ** What the device must be given *)

(** The 32 bytes a configured key stands for, in either format. *)
Definition key_text (s k : bytes) : Prop :=
  length k = 32%nat /\ (hex_decode (TrimSpace s) = Ok k \/ b64_decode StdEncoding (TrimSpace s) = Some k).

(** A keepalive in seconds: none, or the duration's number of them. *)
Definition keepalive_secs (d : Z) (o : option Z) : Prop :=
  match o with
  | None => (d <= 0)%Z
  | Some k => (0 < d)%Z /\ k = whole_seconds d /\ forall n, (n < 2 ^ 53)%Z -> d = (n * Second)%Z -> k = n
  end.

Record peer_given (p : PeerConfig) (u : uapi_peer) : Prop := {
  pg_public : key_text (pc_PublicKey p) (up_public u);
  pg_preshared : match up_preshared u with
                 | None => pc_PresharedKey p = []
                 | Some k => pc_PresharedKey p <> [] /\ key_text (pc_PresharedKey p) k
                 end;
  pg_endpoint : up_endpoint u = if decide (pc_Endpoint p = []) then None else Some (pc_Endpoint p);
  pg_keepalive : keepalive_secs (pc_PersistentKeepalive p) (up_keepalive u);
  pg_allowed : up_allowed u = if decide (pc_AllowedIPs p = []) then None
                              else Some (map Prefix_String (pc_AllowedIPs p)) }.

(** ** Lemmas: keys *)

Definition no_nl (s : bytes) : Prop := x0a ∉ s.

Definition key_char (c : byte) : bool :=
  (is_graph c && negb (Byte.eqb c x0a))%bool.

Lemma graph_trim s : forallb is_graph s = true -> TrimSpace s = s.
Proof. apply TrimSpace_graphs. Qed.

Lemma decode_base64_key raw : length raw = 32%nat -> decodeWGKey (encodeWGKeyBase64 raw) = Ok raw.
Proof.
  intros H. unfold decodeWGKey, encodeWGKeyBase64.
  rewrite graph_trim by (apply b64_encode_Forall; [by vm_compute | done]).
  assert (length (b64_encode StdEncoding raw) = 44%nat) as Hl by (rewrite b64_std_length, H; done).
  destruct (seqb_spec (b64_encode StdEncoding raw) []) as [E|_]; [by rewrite E in Hl|].
  rewrite Hl. cbn [Nat.eqb]. rewrite b64_decode_encode by (by left). rewrite H. done.
Qed.

Lemma hex_graph s : forallb is_graph (hex_encode s) = true.
Proof.
  assert (forall v, (0 <= v < 16)%Z -> is_graph (hex_digit v) = true) as HD.
  { intros v Hv. assert (forallb (fun v => is_graph (hex_digit v)) (map Z.of_nat (seq 0 16)) = true) as HA
      by (vm_compute; reflexivity).
    rewrite forallb_forall in HA. apply HA, in_map_iff. exists (Z.to_nat v). rewrite in_seq. lia. }
  induction s as [|b s IH]; [done|]. pose proof (byte_val_range b).
  cbn [hex_encode forallb]. rewrite !HD, IH by (Z.div_mod_to_equations; lia). done.
Qed.

Lemma decode_hex_key raw : length raw = 32%nat -> decodeWGKey (hex_encode raw) = Ok raw.
Proof.
  intros H. unfold decodeWGKey. rewrite graph_trim by apply hex_graph.
  assert (length (hex_encode raw) = 64%nat) as Hl by (rewrite hex_encode_length; lia).
  destruct (seqb_spec (hex_encode raw) []) as [E|_]; [by rewrite E in Hl|].
  rewrite Hl. cbn [Nat.eqb]. rewrite hex_decode_encode. cbn [rwrap rbind]. rewrite H. done.
Qed.

Lemma decodeWGKey_length s k : decodeWGKey s = Ok k -> length k = 32%nat.
Proof.
  unfold decodeWGKey. destruct (_ =s? []); [done|].
  destruct (_ =? 64)%nat.
  - intros H. inv_result H. injection H as <-. by bprop.
  - destruct (_ =? 44)%nat; [|done]. destruct (b64_decode _ _) as [k'|]; [|done].
    intros H. inv_result H. injection H as <-. by bprop.
Qed.

(** ** Lemmas: lines *)

Lemma graphs_no_nl s : forallb is_graph s = true -> no_nl s.
Proof.
  intros H Hin. rewrite forallb_forall in H. apply list_elem_of_In, H in Hin. done.
Qed.

Lemma no_nl_app s t : no_nl (s ++ t) <-> no_nl s /\ no_nl t.
Proof. unfold no_nl. rewrite not_elem_of_app. done. Qed.

Lemma dec_no_nl n : (0 <= n)%Z -> no_nl (dec n).
Proof. intros H. by apply dec_not_in. Qed.

Lemma split_unlines ls : Forall no_nl ls -> split_byte x0a (unlines ls) = ls ++ [[]].
Proof.
  induction 1 as [|l ls Hl _ IH]; [done|]. unfold unlines in *. cbn [map concat].
  rewrite <-app_assoc. cbn [app]. rewrite split_byte_app by done. by rewrite IH.
Qed.

Lemma hexd_no_nl v : (0 <= v < 16)%Z -> hexd v <> x0a.
Proof.
  intros Hv. assert (forallb (fun v => negb (Byte.eqb (hexd v) x0a)) (map Z.of_nat (seq 0 16)) = true) as HA
    by (vm_compute; reflexivity).
  rewrite forallb_forall in HA. specialize (HA v).
  assert (In v (map Z.of_nat (seq 0 16))) as Hin.
  { apply in_map_iff. exists (Z.to_nat v). rewrite in_seq. lia. }
  specialize (HA Hin). bprop. by destruct (byte_eqb_spec (hexd v) x0a).
Qed.

Lemma hex16_no_nl v : (0 <= v < 65536)%Z -> no_nl (hex16 v).
Proof.
  intros H. unfold hex16. rewrite !no_nl_app.
  assert (forall x, (0 <= x < 16)%Z -> no_nl [hexd x]) as HD.
  { intros x Hx. unfold no_nl. rewrite list_elem_of_singleton. intros E. by apply (hexd_no_nl x Hx). }
  split_and!; try (case_match; [|apply not_elem_of_nil]); apply HD; Z.div_mod_to_equations; lia.
Qed.

Lemma group_range v i : (0 <= group v i < 65536)%Z.
Proof. unfold group. apply Z.mod_pos_bound. lia. Qed.

Lemma colon_no_nl : no_nl ":" /\ no_nl "::".
Proof. split; by apply (bool_decide_unpack _). Qed.

Lemma fmt6_no_nl v zs ze i fuel : no_nl (fmt6_from v zs ze i fuel).
Proof.
  destruct colon_no_nl as [C1 C2].
  revert i. induction fuel as [|fuel IH]; intros i; cbn [fmt6_from]; [apply not_elem_of_nil|].
  destruct (8 <=? i)%nat; [apply not_elem_of_nil|].
  destruct (i =? zs)%nat; rewrite !no_nl_app; (split_and!; [| |by apply IH]).
  - done.
  - destruct (8 <=? ze)%nat; [apply not_elem_of_nil | apply hex16_no_nl, group_range].
  - destruct (i =? 0)%nat; [apply not_elem_of_nil | done].
  - apply hex16_no_nl, group_range.
Qed.

Lemma fmt4_no_nl v : (0 <= v)%Z -> no_nl (fmt4 v).
Proof.
  intros H. unfold fmt4. rewrite !no_nl_app.
  split_and!; try (apply dec_no_nl; Z.div_mod_to_equations; lia); by apply (bool_decide_unpack _).
Qed.

Lemma Prefix_String_no_nl p : prefix_wf p -> no_nl (Prefix_String p).
Proof.
  intros (Hw & Hb & Hz & Hv). unfold Prefix_String, Prefix_IsValid.
  replace (0 <=? pf_bits p)%Z with true by (symmetry; apply Z.leb_le; lia).
  rewrite itoa_nonneg by lia. rewrite !no_nl_app.
  split; [|split; [by apply (bool_decide_unpack _) | apply dec_no_nl; lia]].
  destruct (pf_addr p) as [|v|v z]; [done| |]; cbn [Addr_String]; cbn in Hw.
  - apply fmt4_no_nl. lia.
  - cbn in Hz. injection Hz as <-. destruct (v / 2 ^ 32 =? 65535)%Z.
    + cbn [with_zone]. rewrite no_nl_app. split; [by apply (bool_decide_unpack _)|].
      apply fmt4_no_nl. Z.div_mod_to_equations; lia.
    + destruct (longest_zeros v) as [zs ze]. cbn [with_zone]. apply fmt6_no_nl.
Qed.

(** ** Lemmas: validation and the payload *)

Lemma validate_peer_lines i p : validate_peer i p = Ok tt -> exists ls, peer_lines i p = Ok ls.
Proof.
  unfold validate_peer, peer_lines. intros H.
  destruct (decodeWGKey (pc_PublicKey p)) as [pub|e]; [|done]. cbn [rwrap rbind] in *.
  destruct (pc_PresharedKey p =s? []); [cbn [rbind]; eauto|].
  destruct (decodeWGKey (pc_PresharedKey p)) as [k|e]; [|done]. cbn [rwrap rbind]. eauto.
Qed.

Lemma validate_peers_lines ps i : validate_peers i ps = Ok tt -> exists ls, peers_lines i ps = Ok ls.
Proof.
  revert i. induction ps as [|p ps IH]; intros i H; cbn [peers_lines]; [eauto|].
  cbn [validate_peers] in H. inv_result H. destruct a.
  destruct (validate_peer_lines _ _ E) as [l ->]. cbn [rbind].
  destruct (IH _ H) as [ls ->]. cbn [rbind]. eauto.
Qed.

Lemma validate_peers_point addr ps i :
  validate_peers i (map (fun p => mkPeerConfig (pc_PublicKey p) (pc_PresharedKey p) addr
    (pc_AllowedIPs p) (pc_PersistentKeepalive p)) ps) = validate_peers i ps.
Proof.
  revert i. induction ps as [|p ps IH]; intros i; [done|]. cbn [map validate_peers].
  by rewrite IH.
Qed.

Lemma Validate_point addr c : Validate (point_at addr c) = Validate c.
Proof. unfold Validate, point_at; cbn [PrivateKey MTU Peers]. by rewrite validate_peers_point. Qed.

Lemma Validate_IPC c : Validate c = Ok tt -> exists text, IPC c = Ok text.
Proof.
  unfold Validate, IPC, ipc_lines. intros H.
  destruct (decodeWGKey (PrivateKey c)) as [priv|e]; [|done]. cbn [rwrap rbind] in *.
  inv_result H. destruct (validate_peers_lines _ _ H) as [ls ->]. cbn [rbind]. eauto.
Qed.

(** What the payload needs to be read back line by line. *)
Definition peer_text_ok (p : PeerConfig) : Prop :=
  no_nl (pc_Endpoint p) /\ Forall prefix_wf (pc_AllowedIPs p).

Lemma f64_trunc_nonneg f : (0 <= f64_trunc f)%Z.
Proof.
  unfold f64_trunc. destruct f as [|[]| |[] m e]; try done. apply Z.shiftl_nonneg. lia.
Qed.

Ltac lit_no_nl := rewrite no_nl_app; split; [by apply (bool_decide_unpack _)|].

Lemma peer_lines_spec i p ls :
  peer_lines i p = Ok ls -> peer_text_ok p ->
  exists pub, decodeWGKey (pc_PublicKey p) = Ok pub /\ Forall no_nl ls /\
    forall out cur, fold_left stats_line ls (out, cur) =
      (flush out cur, mkPeerStats (hex_encode pub) 0 0 0).
Proof.
  unfold peer_lines. intros H [He Ha].
  destruct (decodeWGKey (pc_PublicKey p)) as [pub|e]; [|done]. cbn [rwrap rbind] in H.
  exists pub. split; [done|].
  assert (exists psk, (if pc_PresharedKey p =s? [] then Ok []
               else let* k := rwrap (BadPresharedKey i) (decodeWGKey (pc_PresharedKey p)) in
                    Ok ["preshared_key=" ++ hex_encode k]) = Ok psk /\
    (psk = [] \/ exists k, psk = ["preshared_key=" ++ hex_encode k])) as (psk & Epsk & Hpsk).
  { destruct (pc_PresharedKey p =s? []); [eauto|].
    destruct (decodeWGKey (pc_PresharedKey p)); [cbn; eauto|done]. }
  rewrite Epsk in H. cbn [rbind] in H.
  match type of H with Ok ?x = _ => assert (ls = x) as -> by congruence end. clear H. split.
  - repeat apply Forall_app_2.
    + constructor; [|done]. lit_no_nl. apply graphs_no_nl, hex_graph.
    + destruct Hpsk as [->|[k ->]]; [done|]. constructor; [|done]. lit_no_nl.
      apply graphs_no_nl, hex_graph.
    + destruct (pc_Endpoint p =s? []); [done|]. constructor; [|done]. by lit_no_nl.
    + destruct (0 <? pc_PersistentKeepalive p)%Z; [|done]. constructor; [|done]. lit_no_nl.
      rewrite itoa_nonneg by apply f64_trunc_nonneg. apply dec_no_nl, f64_trunc_nonneg.
    + destruct (pc_AllowedIPs p) as [|a l]; [done|]. constructor; [by apply (bool_decide_unpack _)|].
      apply Forall_fmap. eapply Forall_impl; [exact Ha|]. intros q Hq.
      change (no_nl ("allowed_ip=" ++ Prefix_String q)). lit_no_nl. by apply Prefix_String_no_nl.
  - intros out cur. rewrite !fold_left_app. cbn [fold_left].
    replace (stats_line (out, cur) ("public_key=" ++ hex_encode pub)) with
      (flush out cur, mkPeerStats (hex_encode pub) 0 0 0) by done.
    set (st := (flush out cur, mkPeerStats (hex_encode pub) 0 0 0)).
    assert (fold_left stats_line psk st = st) as -> by (destruct Hpsk as [->|[k ->]]; done).
    assert (fold_left stats_line (if pc_Endpoint p =s? [] then [] else ["endpoint=" ++ pc_Endpoint p]) st = st)
      as -> by (destruct (pc_Endpoint p =s? []); done).
    assert (fold_left stats_line (if (0 <? pc_PersistentKeepalive p)%Z
       then ["persistent_keepalive_interval=" ++ itoa (whole_seconds (pc_PersistentKeepalive p))]
       else []) st = st) as -> by (destruct (0 <? pc_PersistentKeepalive p)%Z; done).
    destruct (pc_AllowedIPs p) as [|a l]; [done|]. cbn [fold_left].
    replace (stats_line st "replace_allowed_ips=true") with st by done.
    generalize (a :: l). clear. intros l. induction l as [|a l IH]; [done|]. cbn [map fold_left].
    by replace (stats_line st ("allowed_ip=" ++ Prefix_String a)) with st.
Qed.

Lemma peers_lines_spec ps i ls :
  peers_lines i ps = Ok ls -> Forall peer_text_ok ps ->
  exists pubs, Forall2 (fun p k => decodeWGKey (pc_PublicKey p) = Ok k) ps pubs /\ Forall no_nl ls /\
    forall out cur, let '(out', cur') := fold_left stats_line ls (out, cur) in
      flush out' cur' = flush out cur ++ map (fun k => mkPeerStats (hex_encode k) 0 0 0) pubs.
Proof.
  revert i ls. induction ps as [|p ps IH]; intros i ls H Hok; cbn [peers_lines] in H.
  - injection H as <-. exists []. split; [constructor|]. split; [constructor|].
    intros out cur. cbn. by rewrite app_nil_r.
  - inv_result H. injection H as <-. inversion Hok as [|? ? Hp Hps]; subst.
    destruct (peer_lines_spec _ _ _ E Hp) as (pub & Hpub & Hnl & Hf).
    destruct (IH _ _ E0 Hps) as (pubs & Hpubs & Hnls & Hfs).
    exists (pub :: pubs). split; [by constructor|]. split; [by apply Forall_app|].
    intros out cur. rewrite fold_left_app, Hf.
    specialize (Hfs (flush out cur) (mkPeerStats (hex_encode pub) 0 0 0)).
    destruct (fold_left stats_line a0 _) as [out' cur']. rewrite Hfs. cbn [map].
    rewrite cons_middle, app_assoc. f_equal. unfold flush at 1. cbn [ps_PublicKey].
    destruct (seqb_spec (hex_encode pub) []) as [E'|]; [|done].
    apply decodeWGKey_length in Hpub. apply (f_equal length) in E'.
    rewrite hex_encode_length in E'. cbn in E'. lia.
Qed.

Lemma graph_digits n : (0 <= n)%Z -> TrimSpace (dec n) = dec n.
Proof. intros H. apply TrimSpace_graphs, digits_graph. by apply dec_digits. Qed.

Lemma whole_seconds_exact n : (0 < n < 2 ^ 53)%Z -> whole_seconds (n * Second) = n.
Proof.
  intros Hn. unfold whole_seconds, Second. rewrite Z.quot_mul, Z.rem_mul by lia.
  pose proof (f64_of_Z_trunc n Hn) as H.
  replace (f64_div (f64_of_Z 0) (f64_of_Z 1000000000)) with (S754_zero false) by (by vm_compute).
  destruct (f64_of_Z n); cbn [SFadd]; try done. destruct s; done.
Qed.

(** ** Lemmas: the reader against the printer *)

Lemma decodeWGKey_text s k : decodeWGKey s = Ok k -> key_text s k.
Proof.
  intros H. split; [by eapply decodeWGKey_length|]. revert H. unfold decodeWGKey.
  destruct (_ =s? []); [done|]. destruct (_ =? 64)%nat.
  - intros H. inv_result H. injection H as <-. left. by destruct (hex_decode _); simplify_eq/=.
  - destruct (_ =? 44)%nat; [|done]. destruct (b64_decode _ _) as [k'|]; [|done].
    intros H. inv_result H. injection H as <-. by right.
Qed.

Lemma hex_key_encode k : length k = 32%nat -> hex_key (hex_encode k) = Some k.
Proof. intros H. unfold hex_key. by rewrite hex_decode_encode, H. Qed.

Lemma parse_itoa n : (0 <= n)%Z -> parse_digits (itoa n) = Some n.
Proof. intros H. rewrite itoa_nonneg by done. by destruct (dec_spec n H) as (_ & _ & ->). Qed.

Lemma uapi_lines_app l1 l2 : forall d, uapi_lines d (l1 ++ l2) = (d ← uapi_lines d l1; uapi_lines d l2).
Proof.
  induction l1 as [|l l1 IH]; intros d; [done|]. cbn [app uapi_lines].
  destruct (by_key _ _ _); [|done]. apply IH.
Qed.

Lemma allowed_lines (l : list Prefix) priv port q psk e k : forall acc ps,
  uapi_lines (mkUapi priv port (Some (mkUapiPeer q psk e k (Some acc) :: ps)))
    (map (fun a => "allowed_ip=" ++ Prefix_String a) l) =
  Some (mkUapi priv port (Some (mkUapiPeer q psk e k (Some (acc ++ map Prefix_String l)) :: ps))).
Proof.
  induction l as [|a l IH]; intros acc ps; [by rewrite app_nil_r|]. cbn [map uapi_lines].
  replace (by_key _ _ _) with
    (Some (mkUapi priv port (Some (mkUapiPeer q psk e k (Some (acc ++ [Prefix_String a])) :: ps)))) by done.
  cbn [mbind option_bind]. by rewrite IH, <-app_assoc.
Qed.

(** One peer's lines add that peer. *)
Lemma peer_lines_read i p ls priv port ps : peer_lines i p = Ok ls ->
  exists u, (peer_given p u /\ decodeWGKey (pc_PublicKey p) = Ok (up_public u)) /\
    uapi_lines (mkUapi priv port (Some ps)) ls = Some (mkUapi priv port (Some (u :: ps))).
Proof.
  unfold peer_lines. intros H.
  destruct (decodeWGKey (pc_PublicKey p)) as [pub|e] eqn:Ek; [|done]. cbn [rwrap rbind] in H.
  assert (Hpsk : exists o lp, (if pc_PresharedKey p =s? [] then Ok []
      else let* k := rwrap (BadPresharedKey i) (decodeWGKey (pc_PresharedKey p)) in
           Ok ["preshared_key=" ++ hex_encode k]) = Ok lp /\
    match o with None => pc_PresharedKey p = [] | Some k => pc_PresharedKey p <> [] /\ key_text (pc_PresharedKey p) k end /\
    uapi_lines (mkUapi priv port (Some (mkUapiPeer pub None None None None :: ps))) lp =
      Some (mkUapi priv port (Some (mkUapiPeer pub o None None None :: ps)))).
  { destruct (seqb_spec (pc_PresharedKey p) []) as [E|E]; [by exists None, []|].
    destruct (decodeWGKey (pc_PresharedKey p)) as [k|] eqn:E2; [|done].
    exists (Some k), ["preshared_key=" ++ hex_encode k]. split; [done|]. split; [by split; [|apply decodeWGKey_text]|].
    cbn -[hex_key]. by rewrite hex_key_encode by (by eapply decodeWGKey_length). }
  destruct Hpsk as (o & lp & Ep & Ho & Hlp). rewrite Ep in H. cbn [rbind] in H.
  match type of H with Ok ?x = _ => assert (ls = x) as -> by congruence end. clear H.
  set (ka := if (0 <? pc_PersistentKeepalive p)%Z then Some (whole_seconds (pc_PersistentKeepalive p)) else None).
  eexists (mkUapiPeer pub o (if decide (pc_Endpoint p = []) then None else Some (pc_Endpoint p)) ka
    (if decide (pc_AllowedIPs p = []) then None else Some (map Prefix_String (pc_AllowedIPs p)))).
  split.
  { split; [|done]. split; cbn; [by apply decodeWGKey_text|done|done| |done]. subst ka.
    destruct (Z.ltb_spec 0 (pc_PersistentKeepalive p)); [|done]. split_and!; [done..|].
    intros n Hn E. rewrite E. apply whole_seconds_exact. unfold Second in *. lia. }
  cbn [app uapi_lines].
  replace (by_key _ _ _) with (k ← hex_key (hex_encode pub);
    Some (mkUapi priv port (Some (mkUapiPeer k None None None None :: ps)))) by done.
  rewrite hex_key_encode by (by eapply decodeWGKey_length). cbn [mbind option_bind].
  rewrite uapi_lines_app, Hlp. cbn [mbind option_bind]. rewrite uapi_lines_app.
  assert (forall q, uapi_lines (mkUapi priv port (Some (mkUapiPeer pub o q None None :: ps)))
    (if (0 <? pc_PersistentKeepalive p)%Z
     then ["persistent_keepalive_interval=" ++ itoa (whole_seconds (pc_PersistentKeepalive p))] else []) =
    Some (mkUapi priv port (Some (mkUapiPeer pub o q ka None :: ps)))) as Hka.
  { intros q. subst ka. destruct (0 <? pc_PersistentKeepalive p)%Z; [|done].
    cbn -[parse_digits itoa whole_seconds]. by rewrite parse_itoa by apply f64_trunc_nonneg. }
  assert (forall q, uapi_lines (mkUapi priv port (Some (mkUapiPeer pub o q ka None :: ps)))
    match pc_AllowedIPs p with [] => []
    | l => "replace_allowed_ips=true"%go :: map (fun a => "allowed_ip=" ++ Prefix_String a) l end =
    Some (mkUapi priv port (Some (mkUapiPeer pub o q ka
      (if decide (pc_AllowedIPs p = []) then None else Some (map Prefix_String (pc_AllowedIPs p))) :: ps)))) as Hal.
  { intros q. destruct (pc_AllowedIPs p) as [|a l]; [by rewrite decide_True|]. rewrite decide_False by done.
    cbn [uapi_lines]. replace (by_key _ _ _) with
      (Some (mkUapi priv port (Some (mkUapiPeer pub o q ka (Some []) :: ps)))) by done.
    cbn [mbind option_bind]. apply (allowed_lines (a :: l)). }
  destruct (seqb_spec (pc_Endpoint p) []) as [E|E].
  - rewrite decide_True by done. cbn [uapi_lines mbind option_bind]. rewrite uapi_lines_app, Hka. apply Hal.
  - rewrite decide_False by done.
    replace (uapi_lines _ ["endpoint=" ++ pc_Endpoint p]) with
      (Some (mkUapi priv port (Some (mkUapiPeer pub o (Some (pc_Endpoint p)) None None :: ps)))) by done.
    cbn [mbind option_bind]. rewrite uapi_lines_app, Hka. apply Hal.
Qed.

Lemma peers_lines_read cs : forall i ls priv port ps, peers_lines i cs = Ok ls ->
  exists us, Forall2 (fun p u => peer_given p u /\ decodeWGKey (pc_PublicKey p) = Ok (up_public u)) cs us /\
    uapi_lines (mkUapi priv port (Some ps)) ls = Some (mkUapi priv port (Some (rev us ++ ps))).
Proof.
  induction cs as [|c cs IH]; intros i ls priv port ps H; cbn [peers_lines] in H.
  - injection H as <-. by exists [].
  - inv_result H. injection H as <-. destruct (peer_lines_read _ _ _ priv port ps E) as (u & Hu & Hr).
    destruct (IH _ _ priv port (u :: ps) E0) as (us & Hus & Hrs). exists (u :: us).
    split; [by constructor|]. rewrite uapi_lines_app, Hr. cbn [mbind option_bind rev]. by rewrite Hrs, <-app_assoc.
Qed.

(** The lines of a payload, and their end. *)
Lemma IPC_lines c text : IPC c = Ok text -> (0 <= ListenPort c)%Z -> Forall peer_text_ok (Peers c) ->
  exists priv ls, decodeWGKey (PrivateKey c) = Ok priv /\ peers_lines 0 (Peers c) = Ok ls /\
    split_byte x0a text = (["private_key=" ++ hex_encode priv; "listen_port=" ++ dec (ListenPort c);
      "replace_peers=true"%go] ++ ls) ++ [[]].
Proof.
  unfold IPC, ipc_lines. intros H Hport Hok.
  destruct (decodeWGKey (PrivateKey c)) as [priv|e]; [|done]. cbn [rwrap rbind] in H.
  destruct (peers_lines 0 (Peers c)) as [ls|e] eqn:El; [|done]. cbn [rbind] in H.
  match type of H with Ok ?x = _ => assert (text = x) as -> by congruence end.
  destruct (peers_lines_spec _ _ _ El Hok) as (pubs & _ & Hnl & _).
  rewrite itoa_nonneg by lia. exists priv, ls. split_and!; [done..|]. apply split_unlines, Forall_app.
  split; [|done]. repeat constructor; [lit_no_nl; apply graphs_no_nl, hex_graph|lit_no_nl; by apply dec_no_nl|].
  by apply (bool_decide_unpack _).
Qed.

Lemma read_head k n d : length k = 32%nat -> (0 <= n <= 65535)%Z ->
  uapi_lines d ["private_key=" ++ hex_encode k; "listen_port=" ++ dec n; "replace_peers=true"%go] =
  Some (mkUapi (Some k) (Some n) (Some [])).
Proof.
  intros Hk Hn. cbn [uapi_lines].
  replace (by_key _ ("private_key=" ++ _) _) with
    (k ← hex_key (hex_encode k); Some (mkUapi (Some k) (ua_port d) (ua_peers d))) by done.
  rewrite hex_key_encode by done. cbn [mbind option_bind].
  replace (by_key _ ("listen_port=" ++ _) _) with
    (n ← ParseUint 16 (dec n); Some (mkUapi (Some k) (Some n) (ua_peers d))) by done.
  unfold ParseUint. destruct (dec_spec n) as (_ & _ & ->); [lia|]. cbn [mbind option_bind].
  destruct (Z.ltb_spec n (2 ^ 16)); [done|lia].
Qed.

(** ** Theorems *)

(** C23.  A configuration [Validate] accepts always yields a payload, and a
    device that reads it line by line is given exactly that configuration:
    the private key, the listen port, and in order, in place of the peers it
    had, each peer with its keys, its endpoint, its keepalive in seconds and
    the list of its allowed prefixes, absent settings left out; whichever
    format the file's keys have.  The kernel's own readers of a device's
    answers, [ActualListenPort] and [Stats], find the port and the peers. *)
Theorem IPC_read_back c :
  Validate c = Ok tt -> (0 <= ListenPort c <= 65535)%Z -> Forall peer_text_ok (Peers c) ->
  exists text priv us, IPC c = Ok text /\ key_text (PrivateKey c) priv /\
    Forall2 peer_given (Peers c) us /\
    uapi_read text = Some (mkUapi (Some priv) (Some (ListenPort c)) (Some (rev us))) /\
    find_listen_port (split_byte x0a text) = Ok (ListenPort c) /\
    map ps_PublicKey (parse_stats text) = map (fun u => hex_encode (up_public u)) us.
Proof.
  intros Hv Hport Hok. destruct (Validate_IPC c Hv) as [text Ht].
  destruct (IPC_lines c text Ht ltac:(lia) Hok) as (priv & ls & Hk & El & Hsplit).
  assert (Hlen := decodeWGKey_length _ _ Hk).
  destruct (peers_lines_read _ _ _ (Some priv) (Some (ListenPort c)) [] El) as (us & Hus & Hread).
  destruct (peers_lines_spec _ _ _ El Hok) as (pubs & Hpubs & _ & Hf).
  exists text, priv, us. split_and!;
    [done|by apply decodeWGKey_text|eapply Forall2_impl; [exact Hus|by intros ?? []]| | |].
  - unfold uapi_read. rewrite Hsplit, last_snoc, removelast_last, bool_decide_true by done.
    by rewrite uapi_lines_app, read_head, <-(app_nil_r (rev us)).
  - rewrite Hsplit. change (?[l] ++ [[]]) with
      (("private_key=" ++ hex_encode priv) :: ("listen_port=" ++ dec (ListenPort c)) ::
       "replace_peers=true"%go :: ls ++ [[]]).
    cbn [find_listen_port].
    replace (cut_prefix "listen_port=" ("private_key=" ++ hex_encode priv)) with (@None bytes) by done.
    rewrite cut_prefix_app, graph_digits by lia. unfold ParseUint.
    destruct (dec_spec (ListenPort c)) as (_ & _ & ->); [lia|]. cbn [mbind option_bind].
    destruct (Z.ltb_spec (ListenPort c) (2 ^ 16)); [done|lia].
  - unfold parse_stats. rewrite Hsplit, !fold_left_app.
    match goal with |- context [fold_left stats_line ls ?s] =>
      change s with (@nil PeerStats, no_stats) end.
    specialize (Hf [] no_stats). destruct (fold_left stats_line ls _) as [out cur].
    cbn [fold_left]. replace (stats_line (out, cur) []) with (out, cur) by done. rewrite Hf.
    change (flush [] no_stats) with (@nil PeerStats). cbn [app]. rewrite map_map. cbn [ps_PublicKey].
    clear -Hus Hpubs. revert us Hus. induction Hpubs as [|p k ps ks Hk _ IH]; intros us Hus.
    + by apply Forall2_nil_inv_l in Hus as ->.
    + apply Forall2_cons_inv_l in Hus as (u & us' & [_ Hu] & Hus & ->). cbn [map]. rewrite (IH us' Hus).
      congruence.
Qed.

Definition key_a : bytes := encodeWGKeyBase64 (replicate 32 x01).
Definition key_b : bytes := hex_encode (replicate 32 x02).
Definition demo_config : Config :=
  mkConfig key_a [] 51820 0 []
    [mkPeerConfig key_a [] "vpn.example:51820" [mkPrefix (Addr4 0) 0] (25 * Second);
     mkPeerConfig key_b key_a [] [] 0].

Lemma demo_text_ok : Forall peer_text_ok (Peers demo_config).
Proof.
  repeat constructor; cbn; try (by apply (bool_decide_unpack _)); try lia.
Qed.

Lemma IPC_read_back_witness :
  exists text us, IPC demo_config = Ok text /\ Forall2 peer_given (Peers demo_config) us /\
    uapi_read text = Some (mkUapi (Some (replicate 32 x01)) (Some 51820%Z) (Some (rev us))) /\
    map up_endpoint us = [Some "vpn.example:51820"%go; None] /\
    map up_keepalive us = [Some 25%Z; None].
Proof.
  destruct (IPC_read_back demo_config ltac:(vm_compute; reflexivity) ltac:(cbn; lia) demo_text_ok)
    as (text & priv & us & Ht & _ & Hus & Hr & _).
  vm_compute in Ht. injection Ht as <-. pose proof Hr as Hr'. vm_compute in Hr'.
  injection Hr' as <- E. apply (f_equal (@rev _)) in E. rewrite rev_involutive in E. cbn in E. subst us.
  eexists _, _. split; [vm_compute; reflexivity|]. split; [exact Hus|]. split; [exact Hr|]. by split.
Defined.

(** Calls of an embedder on one kernel. *)
Inductive kcall :=
| KStart (ctx_err : option error) (ipc_set : bytes -> option error) (up : option error)
| KStop.

Definition do_kcall (k : Kernel) (c : kcall) : Kernel * option kernel_error :=
  match c with
  | KStart e f u => Start k e f u
  | KStop => (Stop k, None)
  end.

Fixpoint do_kcalls (k : Kernel) (cs : list kcall) : Kernel * list (option kernel_error) :=
  match cs with
  | [] => (k, [])
  | c :: cs => let '(k, r) := do_kcall k c in let '(k, rs) := do_kcalls k cs in (k, r :: rs)
  end.

(** The [Start]s of a sequence that succeeded. *)
Definition start_ok (e : kcall * option kernel_error) : Prop :=
  match e with (KStart _ _ _, None) => True | _ => False end.
#[global] Instance start_ok_dec e : Decision (start_ok e).
Proof. destruct e as [[] []]; apply _. Defined.

Lemma starts_bound cs : forall k k' rs, do_kcalls k cs = (k', rs) ->
  (length (filter start_ok (zip cs rs)) + match k_state k with stateNew => 0 | _ => 1 end <= 1)%nat.
Proof.
  induction cs as [|c cs IH]; intros k k' rs H; cbn [do_kcalls] in H.
  - injection H as <- <-. cbn. destruct (k_state k); lia.
  - destruct (do_kcall k c) as [k1 r] eqn:E1. destruct (do_kcalls k1 cs) as [k2 rs2] eqn:E2.
    injection H as <- <-. specialize (IH _ _ _ E2). cbn [zip_with]. rewrite filter_cons.
    destruct c as [ce f u|]; cbn [do_kcall] in E1.
    + unfold Start in E1. destruct (k_state k) eqn:Es.
      2,3: injection E1 as <- <-; rewrite Es in IH; rewrite decide_False by (by intros []); lia.
      repeat case_match; simplify_eq; try (rewrite decide_False by (by intros []));
        try (rewrite decide_True by done); cbn [length k_state open_close] in *; rewrite ?Es in IH; lia.
    + injection E1 as <- <-. rewrite decide_False by (by intros []).
      assert (match k_state (Stop k) with stateNew => 0 | _ => 1 end = match k_state k with stateNew => 0 | _ => 1 end)%nat
        as E by (unfold Stop; destruct (k_state k) eqn:Es; cbn; by rewrite ?Es). lia.
Qed.

Record kernel_inv (k : Kernel) : Prop := {
  ki_cfg : exists cfg, Validate cfg = Ok tt /\ k_cfg k = withDefaults cfg;
  ki_devices : k_opened k = (k_closed k + match k_state k with stateStarted => 1 | _ => 0 end)%nat;
  ki_applied : forall text, k_applied k = Some text ->
    exists cfg, effective_config k = Ok cfg /\ IPC cfg = Ok text }.

Lemma IPC_withDefaults c : IPC (withDefaults c) = IPC c.
Proof. done. Qed.

Lemma effective_IPC k cfg :
  kernel_inv k -> effective_config k = Ok cfg -> exists text, IPC cfg = Ok text.
Proof.
  intros [(c & Hv & Hc) _ _] H. unfold effective_config in H. rewrite Hc in H.
  destruct (k_turnTun k) as [[addr|]|]; injection H as <- || discriminate H.
  - destruct (Validate_IPC (point_at addr c)) as [t Ht]; [by rewrite Validate_point|].
    exists t. exact Ht.
  - rewrite IPC_withDefaults. by apply Validate_IPC.
Qed.

Lemma do_kcall_inv k c k' r :
  kernel_inv k -> do_kcall k c = (k', r) ->
  kernel_inv k' /\ (forall e, r <> Some (BuildIPC e)) /\ (k_closed k <= k_closed k')%nat.
Proof.
  intros Hinv H. pose proof Hinv as [Hcfg Hdev _]. destruct c as [ce f u|]; cbn [do_kcall] in H.
  - unfold Start in H. destruct (k_state k) eqn:Es; try (injection H as <- <-; done).
    destruct ce; [injection H as <- <-; done|].
    destruct (effective_config k) as [cfg|e] eqn:Ee.
    + pose proof (ki_applied _ Hinv) as Happ.
      destruct (effective_IPC k cfg Hinv Ee) as [text Et]. rewrite Et in H.
      destruct (f text); [|destruct u]; injection H as <- <-.
      * split; [|split; [done | cbn; lia]]. split; cbn; [done | rewrite ?Es; lia | exact Happ].
      * split; [|split; [done | cbn; lia]]. split; cbn; [done | rewrite ?Es; lia | exact Happ].
      * split; [|split; [done | cbn; lia]]. split; cbn; [done | rewrite ?Es; lia |].
        intros t [= <-]. exists cfg. split; [exact Ee | done].
    + injection H as <- <-. split; [done|]. split; [|done].
      intros e' [= ->]. unfold effective_config in Ee.
      by destruct (k_turnTun k) as [[]|].
  - injection H as <- <-. unfold Stop. destruct (k_state k) eqn:Es; try done.
    split; [|split; [done | cbn; lia]]. split; cbn; [done | rewrite ?Es; lia | exact (ki_applied _ Hinv)].
Qed.

(** C36.  Over any sequence of [Start]s and [Stop]s of a kernel [New] built:
    at most one [Start] succeeds, a stopped kernel staying stopped; the
    payload never fails to build; every device opened is closed again,
    except the one of a started kernel, so none leaks and none is closed
    twice; and the running device was given the payload of the effective
    configuration, whose peers all point at the tunnel when one is set. *)
Theorem kernel_devices_balanced cfg has_tun tt_ k0 cs k rs :
  New cfg has_tun tt_ = Ok k0 -> do_kcalls k0 cs = (k, rs) ->
  (length (filter start_ok (zip cs rs)) <= 1)%nat /\
  k_opened k = (k_closed k + match k_state k with stateStarted => 1 | _ => 0 end)%nat /\
  Forall (fun r => forall e, r <> Some (BuildIPC e)) rs /\
  (forall text, k_applied k = Some text -> exists c, effective_config k = Ok c /\ IPC c = Ok text) /\
  (forall addr c, k_turnTun k = Some (Some addr) -> effective_config k = Ok c ->
     Forall (fun p => pc_Endpoint p = addr) (Peers c)).
Proof.
  intros HN H. assert (kernel_inv k0) as H0.
  { unfold New in HN. inv_result HN. injection HN as <-. destruct (Validate cfg) as [[]|] eqn:EV; [|done].
    split; cbn; [eauto | done | done]. }
  clear HN. assert (kernel_inv k /\ Forall (fun r => forall e, r <> Some (BuildIPC e)) rs) as [Hk Hrs].
  { revert k0 H0 k rs H. induction cs as [|c cs IH]; intros k0 H0 k rs H; cbn [do_kcalls] in H.
    - injection H as <- <-. by split.
    - destruct (do_kcall k0 c) as [k1 r] eqn:E1. destruct (do_kcalls k1 cs) as [k2 rs2] eqn:E2.
      injection H as <- <-. destruct (do_kcall_inv _ _ _ _ H0 E1) as (H1 & Hr & _).
      destruct (IH _ H1 _ _ E2). split; [done|]. by constructor. }
  pose proof (starts_bound _ _ _ _ H) as Hst. destruct Hk as [_ Hdev Happ]. split_and!; try done; [lia|].
  intros addr c Ht He. unfold effective_config in He. rewrite Ht in He. injection He as <-.
  cbn [point_at Peers]. apply Forall_fmap, Forall_true. done.
Qed.

Definition demo_kcalls : list kcall :=
  [KStart None (fun _ => Some (errors_New "port busy")) None;
   KStart None (fun _ => None) None; KStart None (fun _ => None) None; KStop; KStop].

Lemma kernel_devices_balanced_witness :
  match New demo_config true (Some (Some "127.0.0.1:9000"%go)) with
  | Ok k0 =>
      let '(k, rs) := do_kcalls k0 demo_kcalls in
      (length (filter start_ok (zip demo_kcalls rs)) <= 1)%nat /\
      k_opened k = (k_closed k + match k_state k with stateStarted => 1 | _ => 0 end)%nat
  | Err _ => False
  end.
Proof.
  destruct (New demo_config true (Some (Some "127.0.0.1:9000"%go))) as [k0|e] eqn:E;
    [|vm_compute in E; discriminate E].
  destruct (do_kcalls k0 demo_kcalls) as [k rs] eqn:E2.
  destruct (kernel_devices_balanced _ _ _ _ _ _ _ E E2) as (H1 & H2 & _). split; [exact H1|exact H2].
Defined.

(** A sub-second keepalive reaches the device as 0, which turns it off. *)
Example keepalive_truncated : whole_seconds (500 * Millisecond) = 0%Z.
Proof. vm_compute. reflexivity. Qed.
