(* ===== verification/MemTun.v ===== *)
(** * pkg/wgkernel/tun.go: the in-memory TUN pair

    Two devices over two bounded channels.  [Write] is the loop of the code
    over its two atomic pieces, the test of [closed] and the send of one
    packet, so that their interleaving with [Close] can be stated. *)

From S2P Require Import Prelude WgKernel.

Inductive side := SideA | SideB.
#[global] Instance side_eq_dec : EqDecision side.
Proof. solve_decision. Defined.
Definition other (s : side) : side := match s with SideA => SideB | SideB => SideA end.

(** A Go channel: its buffer and whether it is closed. *)
Record channel := mkChannel { ch_q : list bytes; ch_closed : bool }.

(** [p_out s]: the channel side [s] writes to, the partner's [in]. *)
Record pair := mkPair {
  p_mtu : Z;
  p_cap : nat;
  p_out : side -> channel;
  p_closed : side -> bool }.

Definition upd {A} (f : side -> A) (s : side) (x : A) : side -> A :=
  fun t => if decide (t = s) then x else f t.

Definition NewMemoryTUNPair (mtu buffer : Z) : pair :=
  mkPair (clampMTU mtu) (if (buffer <=? 0)%Z then 16%nat else Z.to_nat buffer)
    (fun _ => mkChannel [] false) (fun _ => false).

Inductive mem_error := OsErrClosed | QueueFull | EmptyBufs | ExceedsBuffer.

(** The send of one packet on [m.out], with its [default] case; sending on a
    closed channel panics. *)
Inductive sent := SendOk | SendFull | SendPanic.

Definition mem_send (p : pair) (s : side) (pkt : bytes) : pair * sent :=
  let c := p_out p s in
  if ch_closed c then (p, SendPanic)
  else if (length (ch_q c) <? p_cap p)%nat
  then (mkPair (p_mtu p) (p_cap p) (upd (p_out p) s (mkChannel (ch_q c ++ [pkt]) false)) (p_closed p),
        SendOk)
  else (p, SendFull).

Inductive write_result := Written (n : nat) (e : option mem_error) | WritePanic.

Fixpoint write_loop (p : pair) (s : side) (bufs : list bytes) (offset n : nat)
    : pair * write_result :=
  match bufs with
  | [] => (p, Written n None)
  | b :: bufs =>
      if (length b <=? offset)%nat then write_loop p s bufs offset n
      else match mem_send p s (drop offset b) with
           | (p, SendOk) => write_loop p s bufs offset (S n)
           | (p, SendFull) => (p, Written n (Some QueueFull))
           | (p, SendPanic) => (p, WritePanic)
           end
  end.

Definition Write (p : pair) (s : side) (bufs : list bytes) (offset : nat) : pair * write_result :=
  if p_closed p s then (p, Written 0 (Some OsErrClosed)) else write_loop p s bufs offset 0.

(** [Read] into one buffer of [room] bytes; [None]: it blocks. *)
Definition Read (p : pair) (s : side) (room : option nat) (offset : nat)
    : option (pair * result mem_error bytes) :=
  if p_closed p s then Some (p, Err OsErrClosed) else
  let c := p_out p (other s) in
  match ch_q c with
  | [] => if ch_closed c then Some (p, Err OsErrClosed) else None
  | pkt :: q =>
      let p := mkPair (p_mtu p) (p_cap p) (upd (p_out p) (other s) (mkChannel q (ch_closed c))) (p_closed p) in
      match room with
      | None => Some (p, Err EmptyBufs)
      | Some room =>
          if (room <? offset + length pkt)%nat then Some (p, Err ExceedsBuffer) else Some (p, Ok pkt)
      end
  end.

Definition Close (p : pair) (s : side) : pair :=
  if p_closed p s then p
  else mkPair (p_mtu p) (p_cap p) (upd (p_out p) s (mkChannel (ch_q (p_out p s)) true))
         (upd (p_closed p) s true).

(** ** Sequences of calls *)

Inductive mem_call :=
| CallWrite (s : side) (bufs : list bytes) (offset : nat)
| CallRead (s : side) (room : option nat) (offset : nat)
| CallClose (s : side).

Inductive answer := Wrote (r : write_result) | Got (r : option (result mem_error bytes)) | Closed.

Definition do_call (p : pair) (c : mem_call) : pair * answer :=
  match c with
  | CallWrite s bufs offset => let '(p, r) := Write p s bufs offset in (p, Wrote r)
  | CallRead s room offset =>
      match Read p s room offset with Some (p, r) => (p, Got (Some r)) | None => (p, Got None) end
  | CallClose s => (Close p s, Closed)
  end.

(** Calls that do not overlap, with what each of them answered; a [Read] that
    would block is one that does not happen. *)
Fixpoint trace (p : pair) (cs : list mem_call) : pair * list (mem_call * answer) :=
  match cs with
  | [] => (p, [])
  | c :: cs => let '(p, a) := do_call p c in let '(p, es) := trace p cs in (p, (c, a) :: es)
  end.

(** ** What the callers see *)

(** The packets of a [Write]: what follows the header of each buffer that has
    more than the header. *)
Definition payloads (bufs : list bytes) (offset : nat) : list bytes :=
  map (drop offset) (filter (fun b => (offset < length b)%nat) bufs).

(** The packets that went out from side [s], by the counts [Write] returned. *)
Definition sent_of (s : side) (e : mem_call * answer) : list bytes :=
  match e with
  | (CallWrite t bufs offset, Wrote (Written n _)) =>
      if decide (t = s) then take n (payloads bufs offset) else []
  | _ => []
  end.

(** The [Read] calls of the other side that took a packet: the buffer, the
    offset, and the answer. *)
Definition taken_of (s : side) (e : mem_call * answer)
    : list (option nat * nat * result mem_error bytes) :=
  match e with
  | (CallRead t room offset, Got (Some r)) =>
      if decide (t = other s)
      then match r with Err OsErrClosed => [] | _ => [(room, offset, r)] end else []
  | _ => []
  end.

(** What a [Read] may answer when its packet is [pkt]. *)
Inductive delivers : option nat * nat * result mem_error bytes -> bytes -> Prop :=
| whole room offset pkt : (offset + length pkt <= room)%nat -> delivers (Some room, offset, Ok pkt) pkt
| no_buffer offset pkt : delivers (None, offset, Err EmptyBufs) pkt
| too_small room offset pkt : (room < offset + length pkt)%nat ->
    delivers (Some room, offset, Err ExceedsBuffer) pkt.

(** Each answer against the sides closed so far: nothing panics, a closed side
    answers [os.ErrClosed], [Write] reports every packet it leaves out, and an
    open side's [Read] fails that way only when the other side is closed. *)
Definition answer_ok (closed : side -> bool) (c : mem_call) (a : answer) : Prop :=
  match c, a with
  | CallWrite s bufs offset, Wrote (Written n e) =>
      if closed s then n = 0%nat /\ e = Some OsErrClosed
      else (e = None /\ n = length (payloads bufs offset)) \/
           (e = Some QueueFull /\ (n < length (payloads bufs offset))%nat)
  | CallRead s _ _, Got r =>
      if closed s then r = Some (Err OsErrClosed)
      else r = Some (Err OsErrClosed) -> closed (other s) = true
  | CallClose _, Closed => True
  | _, _ => False
  end.
Fixpoint answers_ok (closed : side -> bool) (es : list (mem_call * answer)) : Prop :=
  match es with
  | [] => True
  | (c, a) :: es =>
      answer_ok closed c a /\
      answers_ok (match c with
                  | CallClose s => if closed s then closed else upd closed s true
                  | _ => closed
                  end) es
  end.

(** A side's channel is closed exactly when the side is, and never overfull. *)
Definition pair_ok (p : pair) : Prop :=
  forall s, ch_closed (p_out p s) = p_closed p s /\ (length (ch_q (p_out p s)) <= p_cap p)%nat.

Lemma upd_eq {A} (f : side -> A) s x : upd f s x s = x.
Proof. unfold upd. by rewrite decide_True. Qed.
Lemma upd_ne {A} (f : side -> A) s t x : t <> s -> upd f s x t = f t.
Proof. intros H. unfold upd. by rewrite decide_False. Qed.

Lemma other_ne s : other s <> s.
Proof. by destruct s. Qed.
Lemma other_other s : other (other s) = s.
Proof. by destruct s. Qed.

Lemma payloads_cons b bufs offset : payloads (b :: bufs) offset =
  if (length b <=? offset)%nat then payloads bufs offset else drop offset b :: payloads bufs offset.
Proof.
  unfold payloads. rewrite filter_cons.
  destruct (Nat.leb_spec (length b) offset); [by rewrite decide_False by lia|by rewrite decide_True by lia].
Qed.

(** What a step does to the pair: one direction's queue and the closed sides. *)
Definition same_frame (p p' : pair) : Prop := p_mtu p' = p_mtu p /\ p_cap p' = p_cap p.

Lemma write_loop_spec p s bufs offset n p' r :
  pair_ok p -> p_closed p s = false -> write_loop p s bufs offset n = (p', r) ->
  pair_ok p' /\ p_closed p' = p_closed p /\ same_frame p p' /\
  (forall t, t <> s -> p_out p' t = p_out p t) /\
  exists m e, r = Written (n + m) e /\
    ch_q (p_out p' s) = ch_q (p_out p s) ++ take m (payloads bufs offset) /\
    ((e = None /\ m = length (payloads bufs offset)) \/
     (e = Some QueueFull /\ (m < length (payloads bufs offset))%nat)).
Proof.
  revert p n. induction bufs as [|b bufs IH]; intros p n Hok Hs H; cbn [write_loop] in H.
  - injection H as <- <-. split_and!; try done. exists 0%nat, None. rewrite Nat.add_0_r, app_nil_r. auto.
  - rewrite payloads_cons. destruct (length b <=? offset)%nat; [by eapply IH|].
    unfold mem_send in H. destruct (Hok s) as [Hc Hl]. rewrite Hc, Hs in H.
    destruct (Nat.ltb_spec (length (ch_q (p_out p s))) (p_cap p)) as [Hlt|].
    + set (p1 := mkPair _ _ _ _) in H. assert (pair_ok p1) as Hok1.
      { intros t. subst p1; cbn [p_out p_closed p_cap]. destruct (decide (t = s)) as [->|Hne].
        - rewrite upd_eq; cbn. rewrite length_app; cbn. split; [done|lia].
        - rewrite upd_ne by done. apply Hok. }
      destruct (IH p1 (S n) Hok1 Hs H) as (A1 & A2 & A3 & A4 & m & e & A5 & A6 & A7).
      split_and!; try done.
      * intros t Ht. rewrite A4 by done. subst p1; cbn [p_out p_closed p_cap]. by rewrite upd_ne.
      * exists (S m), e. split; [by rewrite A5; f_equal; lia|]. split.
        -- rewrite A6. subst p1; cbn [p_out p_closed p_cap]. rewrite upd_eq; cbn. by rewrite <-app_assoc.
        -- cbn [length]. destruct A7 as [[-> ->]|[-> ?]]; [by left|right; split; [done|lia]].
    + injection H as <- <-. split_and!; try done. exists 0%nat, (Some QueueFull).
      rewrite Nat.add_0_r, app_nil_r. split_and!; try done. right. cbn [length]. split; [done|lia].
Qed.

(** One call: the invariant, its answer, and what moves through direction [s]. *)
Definition call_ok (p : pair) (c : mem_call) (p' : pair) (a : answer) (s : side) : Prop :=
  pair_ok p' /\ same_frame p p' /\ answer_ok (p_closed p) c a /\
  p_closed p' = (match c with
                 | CallClose t => if p_closed p t then p_closed p else upd (p_closed p) t true
                 | _ => p_closed p
                 end) /\
  exists gone, ch_q (p_out p s) ++ sent_of s (c, a) = gone ++ ch_q (p_out p' s) /\
    Forall2 delivers (taken_of s (c, a)) gone.

Lemma write_call_ok p t bufs offset s :
  pair_ok p -> let '(p', r) := Write p t bufs offset in call_ok p (CallWrite t bufs offset) p' (Wrote r) s.
Proof.
  intros Hok. unfold Write, call_ok. destruct (p_closed p t) eqn:Ec; cbn [answer_ok sent_of taken_of].
  - rewrite Ec. split_and!; try done. exists []. rewrite take_0. split; [|constructor].
    destruct (decide _); by rewrite app_nil_r.
  - destruct (write_loop p t bufs offset 0) as [p' r] eqn:E.
    destruct (write_loop_spec _ _ _ _ _ _ _ Hok Ec E) as (A1 & A2 & A3 & A4 & m & e & -> & A6 & A7).
    rewrite Nat.add_0_l. cbn [answer_ok sent_of]. rewrite Ec. split_and!; try done. exists []. split; [|constructor].
    cbn [app]. destruct (decide (t = s)) as [->|Hne]; [done|]. by rewrite A4, app_nil_r by congruence.
Qed.

Lemma read_call_ok p t room offset s :
  pair_ok p ->
  let '(p', a) := do_call p (CallRead t room offset) in call_ok p (CallRead t room offset) p' a s.
Proof.
  intros Hok. cbn [do_call]. unfold Read, call_ok.
  assert (forall q : list bytes, q ++ [] = [] ++ q) as Hnil by (intros q; apply app_nil_r).
  destruct (p_closed p t) eqn:Ec; cbn [answer_ok sent_of taken_of].
  { rewrite Ec. split_and!; try done. exists []. split; [apply Hnil|]. by destruct (decide _). }
  destruct (ch_q (p_out p (other t))) as [|pkt q] eqn:Eq.
  { destruct (ch_closed (p_out p (other t))) eqn:Eo; cbn [answer_ok sent_of taken_of]; rewrite Ec.
    - split_and!; [done..| |done|exists []; split; [apply Hnil|by destruct (decide _)]].
      intros _. by rewrite <-(proj1 (Hok (other t))).
    - split_and!; [done..|exists []; split; [apply Hnil|constructor]]. }
  set (p1 := mkPair _ _ _ _).
  assert (pair_ok p1) as Hok1.
  { intros u. subst p1; cbn [p_out p_closed p_cap]. destruct (decide (u = other t)) as [->|Hne].
    - rewrite upd_eq; cbn. destruct (Hok (other t)) as [H1 H2]. rewrite Eq in H2. cbn in H2.
      split; [done|lia].
    - rewrite upd_ne by done. apply Hok. }
  assert (exists r, (match room with None => Some (p1, Err EmptyBufs)
      | Some room => if (room <? offset + length pkt)%nat then Some (p1, Err ExceedsBuffer)
                     else Some (p1, Ok pkt) end) = Some (p1, r) /\ r <> Err OsErrClosed /\
      delivers (room, offset, r) pkt) as (r & -> & Hr & Hd).
  { destruct room as [room|]; [destruct (Nat.ltb_spec room (offset + length pkt))|];
      eexists; (split; [done|]); (split; [done|]); by constructor. }
  cbn [answer_ok sent_of taken_of]. rewrite Ec. split_and!; [done..|congruence|done|].
  destruct (decide (t = other s)) as [->|Hne].
  - rewrite other_other in *. exists [pkt]. rewrite Eq. subst p1; cbn [p_out].
    rewrite other_other, upd_eq. cbn [ch_q]. rewrite app_nil_r. split; [done|].
    destruct r as [|[]]; try done; by repeat constructor.
  - exists []. split; [|constructor]. subst p1; cbn [p_out]. rewrite upd_ne; [apply Hnil|].
    intros ->. by rewrite other_other in Hne.
Qed.

Lemma close_call_ok p t s : pair_ok p -> call_ok p (CallClose t) (Close p t) Closed s.
Proof.
  intros Hok. unfold Close, call_ok. cbn [answer_ok sent_of taken_of].
  destruct (p_closed p t) eqn:Ec.
  - split_and!; try done. exists []. by rewrite app_nil_r.
  - split_and!; try done.
    + intros u; cbn [p_out p_closed p_cap]. destruct (decide (u = t)) as [->|Hne].
      * rewrite !upd_eq; cbn. split; [done | apply Hok].
      * rewrite !upd_ne by done. apply Hok.
    + exists []. split; [|constructor]. cbn [p_out app]. destruct (decide (s = t)) as [->|Hne].
      * rewrite upd_eq; cbn [ch_q]. by rewrite app_nil_r.
      * rewrite upd_ne by done. by rewrite app_nil_r.
Qed.

Lemma do_call_ok p c s : pair_ok p -> let '(p', a) := do_call p c in call_ok p c p' a s.
Proof.
  intros Hok. destruct c as [t bufs offset|t room offset|t].
  - cbn [do_call]. pose proof (write_call_ok p t bufs offset s Hok). by destruct (Write p t bufs offset).
  - by apply read_call_ok.
  - by apply close_call_ok.
Qed.

Lemma trace_ok cs s : forall p p' es, pair_ok p -> trace p cs = (p', es) ->
  pair_ok p' /\ same_frame p p' /\ answers_ok (p_closed p) es /\
  exists gone, ch_q (p_out p s) ++ es ≫= sent_of s = gone ++ ch_q (p_out p' s) /\
    Forall2 delivers (es ≫= taken_of s) gone.
Proof.
  induction cs as [|c cs IH]; intros p p' es Hok H; cbn [trace] in H.
  - injection H as <- <-. split_and!; try done. exists []. cbn. by rewrite app_nil_r.
  - pose proof (do_call_ok p c s Hok) as Hc. destruct (do_call p c) as [p1 a].
    destruct (trace p1 cs) as [p2 es1] eqn:E. injection H as <- <-.
    destruct Hc as (A1 & [A2 A2'] & A3 & A4 & g1 & A5 & A6).
    destruct (IH _ _ _ A1 E) as (B1 & [B2 B2'] & B3 & g2 & B4 & B5).
    split_and!; [done|split; congruence| |].
    + cbn [answers_ok]. split; [done|]. by rewrite <-A4.
    + exists (g1 ++ g2). cbn [mbind list_bind]. split; [|by apply Forall2_app].
      by rewrite app_assoc, A5, <-!app_assoc, <-B4, app_assoc.
Qed.

(** C37.  Calls that do not overlap, in any order: none panics, a closed side
    answers [os.ErrClosed], and each direction is a bounded FIFO.  The packets
    [Write] counted, that is the payloads after the header of its buffers, are
    in order those the other side's [Read] calls took and those still queued;
    a [Read] answers its packet whole, or loses it only because it brought no
    buffer or one too small.  The MTU is between 1 and 1380. *)
Theorem memory_tun_fifo mtu buffer cs s p es :
  trace (NewMemoryTUNPair mtu buffer) cs = (p, es) ->
  answers_ok (fun _ => false) es /\
  (exists gone, es ≫= sent_of s = gone ++ ch_q (p_out p s) /\ Forall2 delivers (es ≫= taken_of s) gone) /\
  (Z.of_nat (length (ch_q (p_out p s))) <= if decide (buffer <= 0)%Z then 16 else buffer)%Z /\
  (1 <= p_mtu p <= 1380)%Z.
Proof.
  intros H. assert (pair_ok (NewMemoryTUNPair mtu buffer)) as H0 by (intros t; cbn; split; [done|lia]).
  destruct (trace_ok cs s _ _ _ H0 H) as (A1 & [A2 A3] & A4 & A5).
  split_and!; [done | done | | rewrite A2..].
  - destruct (A1 s) as [_ Hl]. rewrite A3 in Hl. cbn in Hl.
    destruct (Z.leb_spec buffer 0), (decide _); lia.
  - cbn. unfold clampMTU, DefaultMTU, MaxMTU. destruct (Z.leb_spec mtu 0), (Z.ltb_spec 1380 mtu); lia.
  - cbn. unfold clampMTU, DefaultMTU, MaxMTU. destruct (Z.leb_spec mtu 0), (Z.ltb_spec 1380 mtu); lia.
Qed.

(** A header byte per buffer, a full queue, a reader with too little room, and
    a writer that is closed. *)
Definition demo_calls : list mem_call :=
  [CallWrite SideA ["Hone"%go; "H"%go; "Htwo"%go; "Hthree"%go] 1; CallRead SideB (Some 2%nat) 0;
   CallWrite SideA ["four"%go] 0; CallRead SideB (Some 1500%nat) 16;
   CallClose SideA; CallWrite SideA ["late"%go] 0].

Lemma memory_tun_fifo_witness :
  let '(p, es) := trace (NewMemoryTUNPair 9000 2) demo_calls in
  es ≫= sent_of SideA = ["one"%go; "two"%go; "four"%go] /\
  exists gone, es ≫= sent_of SideA = gone ++ ch_q (p_out p SideA) /\
    Forall2 delivers [(Some 2%nat, 0%nat, Err ExceedsBuffer); (Some 1500%nat, 16%nat, Ok "two"%go)] gone.
Proof.
  destruct (memory_tun_fifo 9000 2 demo_calls SideA
    (fst (trace (NewMemoryTUNPair 9000 2) demo_calls)) (snd (trace (NewMemoryTUNPair 9000 2) demo_calls)) eq_refl)
    as (_ & H & _).
  split; [vm_compute; reflexivity|]. exact H.
Defined.

(** A [Close] between [Write]'s test of [closed] and its send makes the send
    panic: the test is not under [closeMu]. *)
Lemma write_close_race :
  let p := NewMemoryTUNPair 0 0 in
  p_closed p SideA = false /\ snd (mem_send (Close p SideA) SideA "pkt"%go) = SendPanic.
Proof. done. Qed.
