(* ===== verification/Framing.v ===== *)
(** * internal/framing: the proxy_v2 preamble and the DTLS configuration

    [WriteHandshake] and [ReadHandshake] of framing.go, with the writer's and
    the reader's behaviour as arguments, and [NewDTLSConfig] of dtls.go. *)

From S2P Require Import Prelude.

Definition SessionIDSize : nat := 16.
Definition HandshakeSize : nat := SessionIDSize + 1.

(** ** Writing *)

Inductive write_error (E : Type) :=
| BadSessionID (got : nat)
| WriteHandshakeFailed (e : E).
Arguments BadSessionID {E} got.
Arguments WriteHandshakeFailed {E} e.

Section Write.
(** [w.Write]: the writer's new state and its error, if any. *)
Context {W E : Type} (Write : W -> bytes -> W * option E).

Definition handshake_bytes (sessionID : bytes) (streamID : byte) : bytes :=
  sessionID ++ [streamID].

Definition WriteHandshake (w : W) (sessionID : bytes) (streamID : byte)
  : W * option (write_error E) :=
  if negb (length sessionID =? SessionIDSize)%nat
  then (w, Some (BadSessionID (length sessionID)))
  else match Write w (handshake_bytes sessionID streamID) with
       | (w, Some e) => (w, Some (WriteHandshakeFailed e))
       | (w, None) => (w, None)
       end.
End Write.

(** ** Reading *)

(** A reader is the sequence of what its [Read] calls will return: a chunk of
    data (handed out in as many calls as the caller's buffer needs) or a
    failure.  The end of the sequence is [io.EOF]. *)
Inductive read_event (E : Type) :=
| Chunk (b : bytes)
| Fail (e : E).
Arguments Chunk {E} b.
Arguments Fail {E} e.

Inductive read_error (E : Type) :=
| EOF
| ErrUnexpectedEOF
| ReadFailed (e : E).
Arguments EOF {E}.
Arguments ErrUnexpectedEOF {E}.
Arguments ReadFailed {E} e.

Section Read.
Context {E : Type}.

(** What is left of a chunk after [k] of its bytes were read. *)
Definition put_back (b : bytes) (r : list (read_event E)) : list (read_event E) :=
  match b with [] => r | _ => Chunk b :: r end.

(** [io.ReadFull] of [k] more bytes after [acc]. *)
Fixpoint ReadFull (k : nat) (acc : bytes) (r : list (read_event E))
  : list (read_event E) * result (read_error E) bytes :=
  match k with
  | O => (r, Ok acc)
  | S _ =>
      match r with
      | [] => ([], Err (match acc with [] => EOF | _ => ErrUnexpectedEOF end))
      | Fail e :: r => (r, Err (ReadFailed e))
      | Chunk b :: r =>
          if (k <=? length b)%nat
          then (put_back (drop k b) r, Ok (acc ++ take k b))
          else ReadFull (k - length b) (acc ++ b) r
      end
  end.

Definition ReadHandshake (r : list (read_event E))
  : list (read_event E) * result (read_error E) (bytes * byte) :=
  match ReadFull HandshakeSize [] r with
  | (r, Err e) => (r, Err e)
  | (r, Ok buf) =>
      (* out := buf[:SessionIDSize]; buf[SessionIDSize] *)
      (r, Ok (take SessionIDSize buf,
              match buf !! SessionIDSize with Some c => c | None => x00 end))
  end.

(** The bytes a reader delivers before its first failure. *)
Fixpoint available (r : list (read_event E)) : bytes :=
  match r with
  | Chunk b :: r => b ++ available r
  | _ => []
  end.

(** How a reader that runs out of data ends. *)
Fixpoint failure (r : list (read_event E)) : option E :=
  match r with
  | Chunk _ :: r => failure r
  | Fail e :: _ => Some e
  | [] => None
  end.
End Read.

(** ** DTLS configuration *)

Inductive Role := RoleClient | RoleServer.
Inductive ExtendedMasterSecret := RequestExtendedMasterSecret | RequireExtendedMasterSecret
  | DisableExtendedMasterSecret.
Inductive CipherSuiteID := TLS_ECDHE_ECDSA_WITH_AES_128_GCM_SHA256 | OtherSuite (id : Z).
Inductive CIDGenerator := OnlySendCIDGenerator | RandomCIDGenerator (size : Z).

Definition CIDSize : Z := 8.

(** The fields of [dtls.Config] the program sets, over the type of
    certificates. *)
Record dtls_config (Cert : Type) := mkDtlsConfig {
  Certificates : list Cert;
  InsecureSkipVerify : bool;
  dtls_EMS : ExtendedMasterSecret;
  CipherSuites : list CipherSuiteID;
  ConnectionIDGenerator : option CIDGenerator }.
Arguments mkDtlsConfig {Cert}.
Arguments Certificates {Cert}.
Arguments InsecureSkipVerify {Cert}.
Arguments dtls_EMS {Cert}.
Arguments CipherSuites {Cert}.
Arguments ConnectionIDGenerator {Cert}.

Definition NewDTLSConfig {Cert} (role : Role) (cert : Cert) : dtls_config Cert :=
  mkDtlsConfig [cert] true RequireExtendedMasterSecret
    [TLS_ECDHE_ECDSA_WITH_AES_128_GCM_SHA256]
    (match role with
     | RoleClient => Some OnlySendCIDGenerator
     | RoleServer => Some (RandomCIDGenerator CIDSize)
     end).

(** ** Theorems *)

(** [ReadFull] against the bytes the reader has: it succeeds exactly when
    enough of them come before the first failure, and then consumes exactly
    those. *)
Lemma ReadFull_spec {E} k acc (r : list (read_event E)) :
  match ReadFull k acc r with
  | (r', Ok buf) =>
      (k <= length (available r))%nat /\ buf = acc ++ take k (available r) /\
      available r' = drop k (available r) /\ failure r' = failure r
  | (_, Err e) =>
      (length (available r) < k)%nat /\
      e = match failure r with
          | Some f => ReadFailed f
          | None => match acc ++ available r with [] => EOF | _ => ErrUnexpectedEOF end
          end
  end.
Proof.
  revert k acc; induction r as [|[b|e] r IH]; intros k acc.
  - destruct k; cbn; [|split; [lia|]]; rewrite app_nil_r; auto with lia.
  - destruct k as [|k]; [cbn; rewrite app_nil_r; auto with lia|].
    cbn [ReadFull available failure]. rewrite length_app.
    destruct (Nat.leb_spec (S k) (length b)) as [Hle|Hlt].
    + split; [lia|]. rewrite take_app_le, drop_app_le by done. split; [done|].
      unfold put_back. by destruct (drop (S k) b).
    + specialize (IH (S k - length b)%nat (acc ++ b)).
      destruct (ReadFull _ _ r) as [r' [buf|e]].
      * destruct IH as (H1 & -> & H3 & H4). split; [lia|].
        rewrite take_app_ge, drop_app_ge by lia. by rewrite <-app_assoc.
      * destruct IH as (H1 & ->). split; [lia|]. by rewrite <-app_assoc.
  - destruct k; cbn; [rewrite app_nil_r; auto with lia|]. split; [lia | done].
Qed.

(** Reading back the bytes of a preamble. *)
Lemma read_back {E} (sid : bytes) (id : byte) (rest : bytes) (r : list (read_event E)) :
  length sid = SessionIDSize ->
  available r = handshake_bytes sid id ++ rest ->
  exists r', ReadHandshake r = (r', Ok (sid, id)) /\ available r' = rest /\ failure r' = failure r.
Proof.
  intros Hlen Hav. unfold ReadHandshake. pose proof (ReadFull_spec HandshakeSize [] r) as H.
  assert (length (handshake_bytes sid id) = HandshakeSize) as Hh
    by (unfold handshake_bytes; rewrite length_app, Hlen; done).
  destruct (ReadFull HandshakeSize [] r) as [r' [buf|e]];
    rewrite Hav, <-Hh, length_app in H.
  - destruct H as (_ & -> & H3 & H4). rewrite take_app_length, drop_app_length in *.
    exists r'. split; [|done]. cbn [app]. unfold handshake_bytes.
    rewrite take_app_length' by done. rewrite lookup_app_r by (rewrite Hlen; done).
    by rewrite Hlen.
  - destruct H. lia.
Qed.

(** C12.  [WriteHandshake] on a writer that records its calls and answers
    [e]: an identifier that is not sixteen bytes long is refused with nothing
    written, a failing write is reported, and otherwise the preamble goes out
    in one write of seventeen bytes.  However the carrier cuts those bytes and
    what follows them into chunks, [ReadHandshake] then returns the session
    and the stream that were written and leaves what follows unread. *)
Theorem handshake_roundtrip {E F} (sid : bytes) (id : byte) (e : option E) :
  match WriteHandshake (fun w b => (w ++ [b], e)) [] sid id with
  | (sent, Some (BadSessionID n)) => sent = [] /\ n = length sid /\ n <> 16%nat
  | (_, Some (WriteHandshakeFailed x)) => length sid = 16%nat /\ e = Some x
  | (sent, None) =>
      length sid = 16%nat /\ e = None /\
      exists preamble, sent = [preamble] /\ length preamble = 17%nat /\
      forall (rest : bytes) (r : list (read_event F)),
        available r = preamble ++ rest ->
        exists r', ReadHandshake r = (r', Ok (sid, id)) /\
          available r' = rest /\ failure r' = failure r
  end.
Proof.
  unfold WriteHandshake. destruct (Nat.eqb_spec (length sid) SessionIDSize) as [Hlen|Hlen];
    [|done]. cbn [negb]. destruct e as [x|]; [done|]. split; [done|]. split; [done|].
  exists (handshake_bytes sid id). split; [done|]. split; [|intros rest r; by apply read_back].
  unfold handshake_bytes. by rewrite length_app, Hlen.
Qed.

(** A reader that has the preamble in two pieces and a payload byte. *)
Lemma handshake_roundtrip_witness :
  exists r', ReadHandshake (E := unit)
    [Chunk (replicate 9 x41); Chunk (replicate 7 x41 ++ [x05; x50]); Fail tt]
    = (r', Ok (replicate 16 x41, x05)) /\ available r' = [x50] /\ failure r' = Some tt.
Proof.
  destruct (handshake_roundtrip (E := unit) (F := unit) (replicate 16 x41) x05 None)
    as (_ & _ & p & [= <-] & _ & H).
  apply (H [x50] [Chunk (replicate 9 x41); Chunk (replicate 7 x41 ++ [x05; x50]); Fail tt]
    eq_refl).
Defined.

(** [ReadHandshake] fails exactly when the peer's stream ends or breaks
    before seventeen bytes: the carrier's error is passed on, an end of file
    inside the preamble is [io.ErrUnexpectedEOF] and one before it [io.EOF]. *)
Theorem ReadHandshake_fails_iff {E} (r : list (read_event E)) :
  (exists e r', ReadHandshake r = (r', Err e) /\
     e = match failure r with
         | Some f => ReadFailed f
         | None => match available r with [] => EOF | _ => ErrUnexpectedEOF end
         end) <-> (length (available r) < HandshakeSize)%nat.
Proof.
  unfold ReadHandshake. pose proof (ReadFull_spec HandshakeSize [] r) as H.
  destruct (ReadFull HandshakeSize [] r) as [r' [buf|e]].
  - destruct H as (H & _). split; [intros (? & ? & [=] & _) | lia].
  - destruct H as (H & ->). split; [done|]. intros _. eauto.
Qed.

(** A session id of the wrong length is refused before anything is written. *)
Lemma WriteHandshake_bad_id {W E} (Write : W -> bytes -> W * option E) w sid id :
  length sid <> SessionIDSize ->
  WriteHandshake Write w sid id = (w, Some (BadSessionID (length sid))).
Proof.
  intros H. unfold WriteHandshake. destruct (Nat.eqb_spec (length sid) SessionIDSize); done.
Qed.

Lemma WriteHandshake_ok {W E} (Write : W -> bytes -> W * option E) w sid id :
  length sid = SessionIDSize ->
  WriteHandshake Write w sid id =
    let '(w', e) := Write w (handshake_bytes sid id) in (w', WriteHandshakeFailed <$> e).
Proof.
  intros H. unfold WriteHandshake. rewrite H; cbn. by destruct (Write w _) as [w' [e|]].
Qed.

(** Both roles negotiate the same wire format; only the connection-id
    generator depends on the role. *)
Lemma NewDTLSConfig_roles {Cert} (cert cert' : Cert) :
  let c := NewDTLSConfig RoleClient cert in
  let s := NewDTLSConfig RoleServer cert' in
  CipherSuites c = CipherSuites s /\ dtls_EMS c = dtls_EMS s /\
  InsecureSkipVerify c = InsecureSkipVerify s /\
  ConnectionIDGenerator c <> ConnectionIDGenerator s.
Proof. done. Qed.
