(* ===== verification/Creds.v ===== *)
(** * internal/creds: the per-group credentials cache

    The cache of cache.go with its shared store: [entries] maps a group to a
    pointer, and the entries live in a heap, since [Get] and
    [HandleAuthError] work through the pointer [getEntry] returned while
    [InvalidateAll] may replace the map.  [time.Now()] readings are arguments.
    [view] is what a group sees through the map.  The specification is a table
    with at most one memo per group, [memo], and [Get] refines [get_spec] on
    it; how long a memo is good for is specified by [good_for], apart from the
    code's arithmetic. *)

From S2P Require Import Prelude GoStrings GoErrors.

Record Credentials := mkCredentials {
  Username : bytes;
  Password : bytes;
  ServerAddr : bytes;
  ExpiresIn : Z }.

Definition no_credentials : Credentials := mkCredentials [] [] [] 0.

Definition DefaultLifetime : Z := 10 * Minute.
Definition DefaultSafetyMargin : Z := 60 * Second.
Definition MaxCacheErrors : Z := 3.
Definition ErrorWindow : Z := 10 * Second.

Record entry := mkEntry {
  e_creds : Credentials;
  e_link : bytes;
  e_expires : Z;
  e_errorCount : Z;
  e_lastErrorTime : Z }.

Definition new_entry : entry := mkEntry no_credentials [] zero_time 0 0.

Record Cache := mkCache {
  streamsPerCred : Z;
  entries : gmap Z nat;
  heap : list entry }.

Definition NewCache (n : Z) : Cache :=
  mkCache (if (n <=? 0)%Z then 4%Z else n) ∅ [].

Definition groupID (c : Cache) (streamID : Z) : Z := Z.quot streamID (streamsPerCred c).

(** The entry for [streamID], created on first use. *)
Definition getEntry (c : Cache) (streamID : Z) : Cache * nat :=
  let gid := groupID c streamID in
  match entries c !! gid with
  | Some p => (c, p)
  | None =>
      let p := length (heap c) in
      (mkCache (streamsPerCred c) (<[gid := p]> (entries c)) (heap c ++ [new_entry]), p)
  end.

Definition deref (c : Cache) (p : nat) : entry :=
  match heap c !! p with Some e => e | None => new_entry end.
Definition store (c : Cache) (p : nat) (e : entry) : Cache :=
  mkCache (streamsPerCred c) (entries c) (<[p := e]> (heap c)).

(** A provider: what [p.Fetch(ctx, hint, streamID)] returns. *)
Definition fetcher := bytes -> Z -> result error Credentials.

Definition ttl (cr : Credentials) : Z :=
  let lifetime := if (ExpiresIn cr <=? 0)%Z then DefaultLifetime else ExpiresIn cr in
  let margin := if (Z.quot lifetime 2 <? DefaultSafetyMargin)%Z
                then Z.quot lifetime 2 else DefaultSafetyMargin in
  (lifetime - margin)%Z.

(** The part of [Get] that runs under the entry's lock.  [now] is the clock at
    the expiry test and [later] the clock after the fetch; the boolean says
    whether the provider was called. *)
Definition get_entry (e : entry) (ctx_err : option error) (hint : bytes) (streamID : Z)
    (p : fetcher) (now later : Z) : entry * result error Credentials * bool :=
  if ((e_link e =s? hint) && (now <? e_expires e)%Z)%bool
  then (e, Ok (e_creds e), false)
  else match ctx_err with
  | Some err => (e, Err err, false)
  | None =>
      match p hint streamID with
      | Err err => (e, Err err, true)
      | Ok cr =>
          (mkEntry cr hint (later + ttl cr)%Z (e_errorCount e) (e_lastErrorTime e), Ok cr, true)
      end
  end.

Definition nil_provider : error := errors_New "creds: provider is nil".

Definition Get (c : Cache) (ctx_err : option error) (hint : bytes) (streamID : Z)
    (p : option fetcher) (now later : Z) : Cache * result error Credentials * bool :=
  match p with
  | None => (c, Err nil_provider, false)
  | Some p =>
      let '(c, ptr) := getEntry c streamID in
      let '(e, r, fetched) := get_entry (deref c ptr) ctx_err hint streamID p now later in
      (store c ptr e, r, fetched)
  end.

(** The part of [HandleAuthError] that runs under the entry's lock; [now] is
    [time.Now().Unix()]. *)
Definition auth_error_entry (e : entry) (now : Z) : entry * bool :=
  let c0 := if (Z.quot ErrorWindow Second <? now - e_lastErrorTime e)%Z
            then 0%Z else e_errorCount e in
  let count := wrap_int32 (c0 + 1) in
  if (MaxCacheErrors <=? count)%Z
  then (new_entry, true)
  else (mkEntry (e_creds e) (e_link e) (e_expires e) count now, false).

Definition HandleAuthError (c : Cache) (streamID now : Z) : Cache * bool :=
  let '(c, ptr) := getEntry c streamID in
  let '(e, b) := auth_error_entry (deref c ptr) now in
  (store c ptr e, b).

Definition InvalidateAll (c : Cache) : Cache := mkCache (streamsPerCred c) ∅ (heap c).

Definition auth_needles : list bytes :=
  ["401"; "Unauthorized"; "authentication"; "invalid credential"; "stale nonce"].

Definition IsAuthError (err : option error) : bool :=
  match err with
  | None => false
  | Some err => existsb (Contains (error_text err)) auth_needles
  end.

Definition IsRateLimitError (err : option error) : bool :=
  match err with
  | None => false
  | Some err =>
      (Contains (error_text err) "code=29" || Contains (error_text err) "Rate limit")%bool
  end.

(** ** The cache as its groups see it *)

Definition view (c : Cache) (g : Z) : entry :=
  match entries c !! g with Some p => deref c p | None => new_entry end.

(** Well-formedness: the group size is positive, the map's pointers are
    allocated, and no two groups share an entry. *)
Record wf (c : Cache) : Prop := {
  wf_size : (0 < streamsPerCred c)%Z;
  wf_alloc : forall g p, entries c !! g = Some p -> (p < length (heap c))%nat;
  wf_inj : forall g g' p, entries c !! g = Some p -> entries c !! g' = Some p -> g = g' }.

(** ** What a cache promises

    An abstract cache keeps at most one memo per group: what was fetched, for
    which hint, and until when it may be served.  Credentials are good for the
    lifetime the provider advertises, ten minutes when it advertises none,
    less a margin of a minute or of half that lifetime, the smaller of the
    two (in nanoseconds). *)

Record memo := mkMemo { memo_hint : bytes; memo_creds : Credentials; memo_until : Z }.

Definition advertised (cr : Credentials) : Z :=
  if decide (0 < ExpiresIn cr)%Z then ExpiresIn cr else 600_000_000_000%Z.
Definition good_for (cr : Credentials) : Z :=
  (advertised cr - Z.min 60_000_000_000 (advertised cr / 2))%Z.

(** The memo that may be served to a caller with this hint at [now]. *)
Definition servable (m : gmap Z memo) (g : Z) (hint : bytes) (now : Z) (x : memo) : Prop :=
  m !! g = Some x /\ memo_hint x = hint /\ (now < memo_until x)%Z.

(** One request of stream [sid] of group [g]: the table after it, the answer,
    and whether the provider was called. *)
Inductive get_spec (m : gmap Z memo) (ctx_err : option error) (hint : bytes) (sid g : Z)
    (p : fetcher) (now later : Z) : gmap Z memo -> result error Credentials -> bool -> Prop :=
| served x : servable m g hint now x ->
    get_spec m ctx_err hint sid g p now later m (Ok (memo_creds x)) false
| refused err : (forall x, ~ servable m g hint now x) -> ctx_err = Some err ->
    get_spec m ctx_err hint sid g p now later m (Err err) false
| unfetched err : (forall x, ~ servable m g hint now x) -> ctx_err = None ->
    p hint sid = Err err ->
    get_spec m ctx_err hint sid g p now later m (Err err) true
| renewed cr : (forall x, ~ servable m g hint now x) -> ctx_err = None ->
    p hint sid = Ok cr ->
    get_spec m ctx_err hint sid g p now later
      (<[g := mkMemo hint cr (later + good_for cr)]> m) (Ok cr) true.

(** The abstract table a cache stands for: a group without a memo is one whose
    entry expired at the zero time. *)
Definition represents (m : gmap Z memo) (c : Cache) : Prop :=
  forall g, match m !! g with
            | Some x => e_link (view c g) = memo_hint x /\ e_creds (view c g) = memo_creds x /\
                e_expires (view c g) = memo_until x
            | None => e_expires (view c g) = zero_time
            end.

(** ** Histories *)

Inductive op :=
| OpGet (ctx_err : option error) (hint : bytes) (streamID : Z) (p : fetcher) (now later : Z)
| OpAuthError (streamID now : Z)
| OpInvalidateAll.

Inductive event :=
| Fetched (t g : Z) (hint : bytes) (cr : Credentials)
| Hit (t g : Z) (hint : bytes) (cr : Credentials).

Definition step (c : Cache) (o : op) : Cache * list event :=
  match o with
  | OpGet ctx_err hint sid p now later =>
      let '(c', r, fetched) := Get c ctx_err hint sid (Some p) now later in
      (c', match r with
           | Ok cr => [if fetched : bool then Fetched later (groupID c sid) hint cr
                       else Hit now (groupID c sid) hint cr]
           | Err _ => []
           end)
  | OpAuthError sid now => (fst (HandleAuthError c sid now), [])
  | OpInvalidateAll => (InvalidateAll c, [])
  end.

Fixpoint exec (c : Cache) (evs : list event) (ops : list op) : Cache * list event :=
  match ops with
  | [] => (c, evs)
  | o :: ops => let '(c', es) := step c o in exec c' (evs ++ es) ops
  end.

(** The clock readings of an operation are instants after the year 1. *)
Definition op_clock (o : op) : Prop :=
  match o with
  | OpGet _ _ _ _ now later => (zero_time <= now)%Z /\ (zero_time <= later)%Z
  | _ => True
  end.

(** [n] auth errors of a group, at the given times: the answers. *)
Fixpoint auth_errors (e : entry) (ts : list Z) : entry * list bool :=
  match ts with
  | [] => (e, [])
  | t :: ts =>
      let '(e, b) := auth_error_entry e t in
      let '(e, bs) := auth_errors e ts in (e, b :: bs)
  end.

(** Each time is at most the error window after the one before. *)
Fixpoint burst (prev : Z) (ts : list Z) : Prop :=
  match ts with
  | [] => True
  | t :: ts => (prev <= t <= prev + 10)%Z /\ burst t ts
  end.

(** ** Lemmas on the store *)

Lemma wf_NewCache n : wf (NewCache n).
Proof.
  split; cbn.
  - destruct (Z.leb_spec n 0); lia.
  - intros g p H. by rewrite lookup_empty in H.
  - intros g g' p H. by rewrite lookup_empty in H.
Qed.

Lemma getEntry_spec c sid c' p :
  wf c -> getEntry c sid = (c', p) ->
  wf c' /\ entries c' !! groupID c sid = Some p /\
  streamsPerCred c' = streamsPerCred c /\ (forall g, view c' g = view c g).
Proof.
  intros [Hs Ha Hi] H. unfold getEntry in H.
  destruct (entries c !! groupID c sid) as [q|] eqn:E; injection H as <- <-; [by eauto|].
  assert (forall g q, <[groupID c sid := length (heap c)]> (entries c) !! g = Some q ->
    (g = groupID c sid /\ q = length (heap c)) \/ (entries c !! g = Some q)) as HL.
  { intros g q. rewrite lookup_insert. case_decide; naive_solver. }
  split; [|split; [apply lookup_insert_eq|split; [done|]]].
  - split; cbn; [done| |].
    + intros g q [[-> ->]|H]%HL; rewrite length_app; cbn; [lia|]. apply Ha in H. lia.
    + intros g g' q [[-> ->]|H]%HL [[-> H2]|H2]%HL; try done; [|subst|by eauto].
      * apply Ha in H2. lia.
      * apply Ha in H. lia.
  - intros g. unfold view, deref; cbn. rewrite lookup_insert. case_decide as Hd.
    + subst g. rewrite E. rewrite lookup_app_r, Nat.sub_diag by done. done.
    + destruct (entries c !! g) as [q|] eqn:E2; [|done].
      rewrite lookup_app_l; [done|]. by eapply Ha.
Qed.

Lemma view_store c g p e :
  wf c -> entries c !! g = Some p ->
  forall g', view (store c p e) g' = if decide (g' = g) then e else view c g'.
Proof.
  intros [_ Ha Hi] Hp g'. unfold view, deref; cbn.
  destruct (decide (g' = g)) as [->|Hne].
  - rewrite Hp, list_lookup_insert_eq; [done|]. by eapply Ha.
  - destruct (entries c !! g') as [q|] eqn:E; [|done].
    rewrite list_lookup_insert_ne; [done|]. intros ->. apply Hne. by eapply Hi.
Qed.

Lemma wf_store c p e : wf c -> wf (store c p e).
Proof. intros [Hs Ha Hi]. split; cbn; [done| |done]. intros. rewrite length_insert. eauto. Qed.

Lemma wf_InvalidateAll c : wf c -> wf (InvalidateAll c).
Proof.
  intros [Hs Ha Hi]. split; cbn; [done|intros ?? H|intros ??? H]; by rewrite lookup_empty in H.
Qed.
#[export] Hint Resolve wf_NewCache wf_store wf_InvalidateAll : go.

(** ** Refinement: every operation is a transition of one group's view *)

Lemma Get_view (c : Cache) ctx_err hint sid (p : fetcher) now later c' r fetched :
  wf c -> Get c ctx_err hint sid (Some p) now later = (c', r, fetched) ->
  wf c' /\ streamsPerCred c' = streamsPerCred c /\
  get_entry (view c (groupID c sid)) ctx_err hint sid p now later
    = (view c' (groupID c sid), r, fetched) /\
  (forall g, g <> groupID c sid -> view c' g = view c g).
Proof.
  intros Hwf H. unfold Get in H. destruct (getEntry c sid) as [c1 q] eqn:EG.
  destruct (getEntry_spec _ _ _ _ Hwf EG) as (Hwf1 & Hq & Hn & Hv).
  assert (deref c1 q = view c (groupID c sid)) as Hd by (rewrite <-Hv; unfold view; by rewrite Hq).
  rewrite Hd in H. destruct (get_entry _ _ _ _ _ _ _) as [[e r1] f1] eqn:EE.
  injection H as <- <- <-. split; [auto with go|]. split; [done|].
  setoid_rewrite (view_store _ _ _ e Hwf1 Hq). split.
  - destruct (decide _); [done | congruence].
  - intros g Hg. destruct (decide _); [done | apply Hv].
Qed.

Lemma ttl_good_for cr : ttl cr = good_for cr.
Proof.
  unfold ttl, good_for, advertised, DefaultLifetime, DefaultSafetyMargin, Minute, Second.
  destruct (Z.leb_spec (ExpiresIn cr) 0), (decide _); try lia; [done|].
  rewrite Z.quot_div_nonneg by lia. destruct (Z.ltb_spec (ExpiresIn cr / 2) (60 * 1000000000)); lia.
Qed.

Lemma represents_New n : represents ∅ (NewCache n).
Proof. intros g. rewrite lookup_empty. unfold view; cbn. by rewrite lookup_empty. Qed.

(** Changing one group's memo and the view of that group alone. *)
Lemma represents_upd m c c' g x :
  represents m c -> (forall g', g' <> g -> view c' g' = view c g') ->
  e_link (view c' g) = memo_hint x -> e_creds (view c' g) = memo_creds x ->
  e_expires (view c' g) = memo_until x ->
  represents (<[g := x]> m) c'.
Proof.
  intros HR Ho H1 H2 H3 g'. destruct (decide (g' = g)) as [->|Hne].
  - by rewrite lookup_insert_eq.
  - rewrite lookup_insert_ne, Ho by done. apply HR.
Qed.

Lemma represents_same m c c' g :
  represents m c -> (forall g', g' <> g -> view c' g' = view c g') ->
  view c' g = view c g -> represents m c'.
Proof.
  intros HR Ho Hg g'. destruct (decide (g' = g)) as [->|Hne]; [rewrite Hg | rewrite Ho by done];
    apply HR.
Qed.

(** The code's test for a hit against the abstract table. *)
Lemma hit_servable m c g hint now :
  represents m c -> (zero_time <= now)%Z ->
  if ((e_link (view c g) =s? hint) && (now <? e_expires (view c g))%Z)%bool
  then exists x, servable m g hint now x /\ memo_creds x = e_creds (view c g)
  else forall x, ~ servable m g hint now x.
Proof.
  intros HR Hn. specialize (HR g). unfold servable.
  destruct (seqb_spec (e_link (view c g)) hint) as [Hl|Hl], (Z.ltb_spec now (e_expires (view c g)));
    cbn [andb]; destruct (m !! g) as [x|]; try lia; try (intros ? (? & ? & ?); simplify_eq; lia);
    try (intros ? (? & ? & ?); destruct HR as (? & ? & ?); simplify_eq; congruence || lia).
  destruct HR as (E1 & E2 & E3). exists x. by rewrite <-E1, <-E2, <-E3.
Qed.

(** C13.  [Get] implements the abstract cache.  When the table has a memo of
    the stream's group for the same hint that is not past its time, its
    credentials are returned and the provider is not called; otherwise a
    caller whose context has ended gets that error, a failing fetch is passed
    on, and a fetched credential is returned and becomes the group's memo for
    as long as it is good.  No other group's memo changes in any case. *)
Theorem Get_refines (m : gmap Z memo) (c : Cache) ctx_err hint sid (p : fetcher) now later
    c' r fetched :
  wf c -> represents m c -> (zero_time <= now)%Z ->
  Get c ctx_err hint sid (Some p) now later = (c', r, fetched) ->
  wf c' /\ streamsPerCred c' = streamsPerCred c /\
  exists m', get_spec m ctx_err hint sid (Z.quot sid (streamsPerCred c)) p now later m' r fetched /\
    represents m' c'.
Proof.
  intros Hwf HR Hn H. destruct (Get_view _ _ _ _ _ _ _ _ _ _ Hwf H) as (Hwf' & Hs & HG & Ho).
  split; [done|]. split; [done|]. unfold groupID in *. set (g := Z.quot sid _) in *.
  pose proof (hit_servable m c g hint now HR Hn) as Hhit. unfold get_entry in HG.
  destruct ((e_link _ =s? hint) && _)%bool.
  - destruct Hhit as (x & Hx & E). injection HG as Hv <- <-. exists m. rewrite <-E.
    split; [by constructor | by eapply represents_same].
  - destruct ctx_err as [err|]; [|destruct (p hint sid) as [cr|err] eqn:Ep];
      injection HG as Hv <- <-;
      [exists m | exists (<[g := mkMemo hint cr (later + good_for cr)]> m) | exists m];
      (split; [by constructor|]); try by eapply represents_same.
    eapply represents_upd; [done..| | |]; rewrite <-Hv; cbn; [done..|]. by rewrite ttl_good_for.
Qed.

(** A fetch that advertises no lifetime is kept for nine minutes. *)
Lemma Get_refines_witness :
  exists m', get_spec ∅ None "link" 5 (Z.quot 5 (streamsPerCred (NewCache 4)))
      (fun _ _ => Ok (mkCredentials "u" "p" "h:1" 0)) 0 1 m' (Ok (mkCredentials "u" "p" "h:1" 0)) true /\
    represents m' (mkCache 4 {[ 1%Z := 0%nat ]}
       [mkEntry (mkCredentials "u" "p" "h:1" 0) "link" (1 + 540 * Second) 0 0]).
Proof.
  destruct (Get_refines ∅ (NewCache 4) None "link" 5
    (fun _ _ => Ok (mkCredentials "u" "p" "h:1" 0)) 0 1
    (mkCache 4 {[ 1%Z := 0%nat ]}
       [mkEntry (mkCredentials "u" "p" "h:1" 0) "link" (1 + 540 * Second) 0 0])
    (Ok (mkCredentials "u" "p" "h:1" 0)) true (wf_NewCache 4) (represents_New 4))
    as (_ & _ & H); [vm_compute; discriminate | vm_compute; reflexivity |]. exact H.
Defined.

Lemma HandleAuthError_refines c sid now c' b :
  wf c -> HandleAuthError c sid now = (c', b) ->
  wf c' /\ streamsPerCred c' = streamsPerCred c /\
  auth_error_entry (view c (groupID c sid)) now = (view c' (groupID c sid), b) /\
  (forall g, g <> groupID c sid -> view c' g = view c g).
Proof.
  intros Hwf H. unfold HandleAuthError in H. destruct (getEntry c sid) as [c1 q] eqn:EG.
  destruct (getEntry_spec _ _ _ _ Hwf EG) as (Hwf1 & Hq & Hn & Hv).
  assert (deref c1 q = view c (groupID c sid)) as Hd by (rewrite <-Hv; unfold view; by rewrite Hq).
  rewrite Hd in H. destruct (auth_error_entry _ _) as [e b1] eqn:EE.
  injection H as <- <-. split; [auto with go|]. split; [done|].
  setoid_rewrite (view_store _ _ _ e Hwf1 Hq). split.
  - destruct (decide _); [done | congruence].
  - intros g Hg. destruct (decide _); [done | apply Hv].
Qed.

(** ** Freshness of the cached credentials *)

(** What justifies a group's view: it is empty of credentials, or a fetch of
    the history put them there. *)
Definition justified (evs : list event) (g : Z) (e : entry) : Prop :=
  e_expires e = zero_time \/
  exists t, Fetched t g (e_link e) (e_creds e) ∈ evs /\ e_expires e = (t + ttl (e_creds e))%Z.

(** A history in which every hit is preceded by the fetch that allows it. *)
Definition hits_fresh (evs : list event) : Prop :=
  forall i t g h cr, evs !! i = Some (Hit t g h cr) ->
  exists j t', (j < i)%nat /\ evs !! j = Some (Fetched t' g h cr) /\ (t < t' + ttl cr)%Z.

Lemma justified_mono evs es g e : justified evs g e -> justified (evs ++ es) g e.
Proof. intros [H|(t & H & E)]; [by left|]. right. exists t. set_solver. Qed.

Lemma hits_fresh_app_fetched evs t g h cr :
  hits_fresh evs -> hits_fresh (evs ++ [Fetched t g h cr]).
Proof.
  intros H i t0 g0 h0 cr0 Hi. apply lookup_app_Some in Hi as [Hi|[Hlen Hi]].
  - destruct (H _ _ _ _ _ Hi) as (j & t' & Hj & Hl & Ht). exists j, t'.
    rewrite lookup_app_l; [done|]. by eapply lookup_lt_Some.
  - apply list_lookup_singleton_Some in Hi as [_ [=]].
Qed.

Lemma hits_fresh_app_hit evs t g h cr t' :
  hits_fresh evs -> Fetched t' g h cr ∈ evs -> (t < t' + ttl cr)%Z ->
  hits_fresh (evs ++ [Hit t g h cr]).
Proof.
  intros H Hin Ht i t0 g0 h0 cr0 Hi. apply lookup_app_Some in Hi as [Hi|[Hlen Hi]].
  - destruct (H _ _ _ _ _ Hi) as (j & t'' & Hj & Hl & Htt). exists j, t''.
    rewrite lookup_app_l; [done|]. by eapply lookup_lt_Some.
  - apply list_lookup_singleton_Some in Hi as [Hz [= -> -> -> ->]].
    apply list_elem_of_lookup in Hin as [j Hj].
    pose proof (lookup_lt_Some _ _ _ Hj). exists j, t'. rewrite lookup_app_l by done.
    split; [lia | done].
Qed.

Definition cache_inv (c : Cache) (evs : list event) : Prop :=
  wf c /\ (forall g, justified evs g (view c g)) /\ hits_fresh evs.

Lemma cache_step_inv c evs o :
  cache_inv c evs -> op_clock o ->
  let '(c', es) := step c o in cache_inv c' (evs ++ es).
Proof.
  intros (Hwf & Hj & Hf) Hclk. destruct o as [ctx hint sid p now later|sid now|]; cbn [step].
  - destruct (Get c ctx hint sid (Some p) now later) as [[c' r] f] eqn:E; cbn.
    destruct (Get_view _ _ _ _ _ _ _ _ _ _ Hwf E) as (Hwf' & _ & HG & Ho).
    set (g := groupID c sid) in *. destruct Hclk as [Hn Hl].
    assert (forall es, justified (evs ++ es) g (view c' g) ->
       forall g', justified (evs ++ es) g' (view c' g')) as HJ.
    { intros es Hg g'. destruct (decide (g' = g)) as [->|Hne]; [done|].
      rewrite Ho by done. apply justified_mono, Hj. }
    unfold get_entry in HG.
    destruct ((e_link _ =s? hint) && _)%bool eqn:Ehit.
    + injection HG as Hv <- <-. bprop. apply seqb_eq in H. subst hint.
      destruct (Hj g) as [Hz|(t & Hin & Hexp)]; [lia|].
      split; [done|]. split.
      * apply HJ. rewrite <-Hv. apply justified_mono, Hj.
      * eapply hits_fresh_app_hit; [done | exact Hin | lia].
    + destruct ctx as [err|]; [|destruct (p hint sid) as [cr|err]];
        injection HG as Hv <- <-; (split; [done|]);
        [rewrite app_nil_r| |rewrite app_nil_r].
      * split; [|done]. intros g'. rewrite <-(app_nil_r evs). apply HJ.
        rewrite <-Hv, app_nil_r. apply Hj.
      * split; [|by apply hits_fresh_app_fetched]. apply HJ. rewrite <-Hv. right.
        exists later. cbn. set_solver.
      * split; [|done]. intros g'. rewrite <-(app_nil_r evs). apply HJ.
        rewrite <-Hv, app_nil_r. apply Hj.
  - destruct (HandleAuthError c sid now) as [c' b] eqn:E; cbn. rewrite app_nil_r.
    destruct (HandleAuthError_refines _ _ _ _ _ Hwf E) as (Hwf' & _ & HG & Ho).
    split; [done|]. split; [|done]. intros g.
    destruct (decide (g = groupID c sid)) as [->|Hne]; [|by rewrite Ho].
    unfold auth_error_entry in HG.
    destruct (MaxCacheErrors <=? _)%Z; injection HG as <- _; [by left|]. apply (Hj _).
  - rewrite app_nil_r. split; [auto with go|]. split; [|done]. intros g. left.
    unfold view; cbn. by rewrite lookup_empty.
Qed.

(** C31.  Over any history of operations on a fresh cache, credentials served
    from the cache are those an earlier fetch of the same group obtained for
    the same hint, and they are served while they are good: strictly before
    the lifetime that fetch was promised (ten minutes when it was promised
    none), less a margin of a minute or half the lifetime, has gone by. *)
Theorem cache_hits_fresh n ops c evs i t g h cr :
  Forall op_clock ops ->
  exec (NewCache n) [] ops = (c, evs) ->
  evs !! i = Some (Hit t g h cr) ->
  exists j t', (j < i)%nat /\ evs !! j = Some (Fetched t' g h cr) /\ (t < t' + good_for cr)%Z.
Proof.
  intros Hclk.
  assert (forall ops c0 evs0, Forall op_clock ops -> cache_inv c0 evs0 ->
    forall c evs, exec c0 evs0 ops = (c, evs) -> cache_inv c evs) as HI.
  { clear. induction ops as [|o ops IH]; intros c0 evs0 Hc Hinv c evs H; cbn in H; [congruence|].
    inversion Hc as [|? ? Ho Hops]; subst. pose proof (cache_step_inv c0 evs0 o Hinv Ho) as Hs.
    destruct (step c0 o) as [c1 es]. by eapply IH. }
  intros H Hi. destruct (HI ops (NewCache n) [] Hclk) with (c := c) (evs := evs) as (_ & _ & Hf); [|done|].
  { split; [auto with go|]. split; [intros; by left|]. intros ????? Hn. by rewrite lookup_nil in Hn. }
  destruct (Hf _ _ _ _ _ Hi) as (j & t' & Hj & Hl & Ht). exists j, t'.
  by rewrite <-ttl_good_for.
Qed.

Definition demo_fetch : fetcher := fun _ _ => Ok (mkCredentials "u" "p" "h:1" (20 * Second)).
Definition demo_ops : list op :=
  [OpGet None "link" 0 demo_fetch 0 5; OpGet None "link" 3 demo_fetch (9 * Second) 0].

Lemma cache_hits_fresh_witness :
  exists j t', (j < 1)%nat /\
    snd (exec (NewCache 4) [] demo_ops) !! j
      = Some (Fetched t' 0 "link" (mkCredentials "u" "p" "h:1" (20 * Second))) /\
    (9 * Second < t' + good_for (mkCredentials "u" "p" "h:1" (20 * Second)))%Z.
Proof.
  destruct (cache_hits_fresh 4 demo_ops (fst (exec (NewCache 4) [] demo_ops))
    (snd (exec (NewCache 4) [] demo_ops)) 1 (9 * Second) 0 "link"
    (mkCredentials "u" "p" "h:1" (20 * Second))) as (j & t' & H1 & H2 & H3).
  - repeat constructor; vm_compute; discriminate.
  - vm_compute; reflexivity.
  - vm_compute; reflexivity.
  - exists j, t'. auto.
Defined.

(** ** Auth errors *)

Lemma auth_error_entry_count e now :
  (0 <= e_errorCount e <= 2)%Z ->
  auth_error_entry e now =
    let count := ((if (10 <? now - e_lastErrorTime e)%Z then 0 else e_errorCount e) + 1)%Z in
    if (count =? 3)%Z then (new_entry, true)
    else (mkEntry (e_creds e) (e_link e) (e_expires e) count now, false).
Proof.
  intros H. unfold auth_error_entry. change (Z.quot ErrorWindow Second) with 10%Z.
  set (k := if (10 <? _)%Z then _ else _).
  assert (0 <= k <= 2)%Z as Hk by (subst k; destruct (10 <? _)%Z; lia).
  unfold wrap_int32. rewrite Z.mod_small by lia. unfold MaxCacheErrors.
  replace (k + 1 + 2147483648 - 2147483648)%Z with (k + 1)%Z by lia.
  destruct (Z.leb_spec 3 (k + 1)), (Z.eqb_spec (k + 1) 3); try lia; done.
Qed.

Lemma auth_errors_burst e prev ts :
  (0 <= e_errorCount e <= 2)%Z ->
  e_errorCount e = 0%Z \/ e_lastErrorTime e = prev ->
  burst prev ts ->
  snd (auth_errors e ts) =
    map (fun i => ((e_errorCount e + Z.of_nat i) mod 3 =? 2)%Z) (seq 0 (length ts)).
Proof.
  revert e prev; induction ts as [|t ts IH]; intros e prev Hc Hl Hb; [done|].
  destruct Hb as [Ht Hb]. cbn [auth_errors]. rewrite auth_error_entry_count by done.
  assert ((if (10 <? t - e_lastErrorTime e)%Z then 0 else e_errorCount e) = e_errorCount e)%Z as ->.
  { destruct (Z.ltb_spec 10 (t - e_lastErrorTime e)); [|done]. destruct Hl; lia. }
  cbn [length seq map]. cbn zeta.
  destruct (Z.eqb_spec (e_errorCount e + 1) 3) as [H3|H3].
  - pose proof (IH new_entry t ltac:(cbn; lia) (or_introl eq_refl) Hb) as IH'.
    destruct (auth_errors new_entry ts) as [e' bs]. cbn in IH' |- *. rewrite IH'.
    rewrite <-seq_shift, map_map. f_equal.
    + rewrite Z.add_0_r. rewrite Z.mod_small by lia. symmetry. apply Z.eqb_eq. lia.
    + apply map_ext. intros i. f_equal. rewrite <-Z.add_mod_idemp_l by lia.
      replace (e_errorCount e) with 2%Z by lia. rewrite Nat2Z.inj_succ.
      rewrite Z.add_mod_idemp_l by lia.
      replace (2 + Z.succ (Z.of_nat i))%Z with (0 + Z.of_nat i + 1 * 3)%Z by lia.
      by rewrite Z.mod_add by lia.
  - match goal with |- context[auth_errors ?e1 ts] => set (e1' := e1) end.
    pose proof (IH e1' t ltac:(cbn; lia) (or_intror eq_refl) Hb) as IH'.
    destruct (auth_errors e1' ts) as [e' bs]. cbn in IH' |- *. rewrite IH'.
    rewrite <-seq_shift, map_map. f_equal.
    + rewrite Z.add_0_r. rewrite Z.mod_small by lia. symmetry. apply Z.eqb_neq. lia.
    + apply map_ext. intros i. f_equal. f_equal. rewrite Nat2Z.inj_succ. lia.
Qed.

(** In a burst of auth errors of one group (each at most ten seconds after
    the one before) that follows a quiet period, the calls that invalidate the
    entry are exactly every third one. *)
Theorem auth_error_every_third e t ts :
  (0 <= e_errorCount e <= 2)%Z ->
  e_errorCount e = 0%Z \/ (e_lastErrorTime e + 10 < t)%Z ->
  burst t ts ->
  snd (auth_errors e (t :: ts)) =
    map (fun i => (i mod 3 =? 2)%nat) (seq 0 (S (length ts))).
Proof.
  intros Hc Hq Hb.
  set (q := mkEntry (e_creds e) (e_link e) (e_expires e) 0 (e_lastErrorTime e)).
  assert (auth_error_entry e t = auth_error_entry q t) as HE.
  { rewrite !auth_error_entry_count by (cbn; lia). cbn -[Z.ltb Z.add].
    destruct (Z.ltb_spec 10 (t - e_lastErrorTime e)); [done|].
    destruct Hq as [->|]; [done | lia]. }
  assert (auth_errors e (t :: ts) = auth_errors q (t :: ts)) as -> by (cbn [auth_errors]; by rewrite HE).
  rewrite (auth_errors_burst q t) by (cbn; auto with lia). cbn [e_errorCount q].
  cbn [length]. apply map_ext. intros i. rewrite Z.add_0_l.
  change 3%Z with (Z.of_nat 3). rewrite <-Nat2Z.inj_mod. change 2%Z with (Z.of_nat 2).
  destruct (Nat.eqb_spec (i mod 3) 2), (Z.eqb_spec (Z.of_nat (i mod 3)) (Z.of_nat 2)); lia.
Qed.

(** The window slides with the last error: three errors nine seconds apart,
    eighteen seconds in all, invalidate. *)
Lemma auth_error_every_third_witness :
  snd (auth_errors new_entry [1000; 1009; 1018; 1019; 1020; 1030])%Z =
    [false; false; true; false; false; true].
Proof.
  apply (auth_error_every_third new_entry 1000 [1009; 1018; 1019; 1020; 1030]%Z);
    [cbn; lia | left; reflexivity | cbn; lia].
Defined.

Lemma HandleAuthError_then_Get c sid now_s c' b :
  wf c -> HandleAuthError c sid now_s = (c', b) ->
  if b : bool
  then forall sid' hint p now later, groupID c sid' = groupID c sid -> (zero_time <= now)%Z ->
         exists c'' r, Get c' None hint sid' (Some p) now later = (c'', r, true)
  else let e := view c (groupID c sid) in let e' := view c' (groupID c sid) in
       e_creds e' = e_creds e /\ e_link e' = e_link e /\ e_expires e' = e_expires e.
Proof.
  intros Hwf H. destruct (HandleAuthError_refines _ _ _ _ _ Hwf H) as (Hwf' & Hn & HA & _).
  unfold auth_error_entry in HA.
  destruct (MaxCacheErrors <=? _)%Z; injection HA as Hv <-; [|by rewrite <-Hv].
  intros sid' hint p now later Hg Hnow.
  destruct (Get c' None hint sid' (Some p) now later) as [[c'' r] f] eqn:EG.
  destruct (Get_view _ _ _ _ _ _ _ _ _ _ Hwf' EG) as (_ & _ & HG & _).
  assert (groupID c' sid' = groupID c sid) as Hgg by (unfold groupID in *; congruence).
  rewrite Hgg, <-Hv in HG. unfold get_entry in HG; cbn in HG.
  assert ((now <? zero_time)%Z = false) as Hz by (apply Z.ltb_ge; lia).
  rewrite Hz, andb_false_r in HG. destruct (p hint sid'); injection HG as _ _ <-; eauto.
Qed.

(** An auth error that reports invalidation makes the group's next [Get]
    call the provider, whatever the hint; one that does not leaves the cached
    credentials, their hint and their deadline as they were. *)
Theorem auth_error_forces_refetch c sid now_s c' b :
  wf c -> HandleAuthError c sid now_s = (c', b) ->
  if b : bool
  then forall sid' hint p now later, groupID c sid' = groupID c sid -> (zero_time <= now)%Z ->
         exists c'' r, Get c' None hint sid' (Some p) now later = (c'', r, true)
  else let e := view c (groupID c sid) in let e' := view c' (groupID c sid) in
       e_creds e' = e_creds e /\ e_link e' = e_link e /\ e_expires e' = e_expires e.
Proof. apply HandleAuthError_then_Get. Qed.

Definition after_two_errors : Cache :=
  fst (HandleAuthError (fst (HandleAuthError (NewCache 4) 0 1000)) 1 1001).

Lemma auth_error_forces_refetch_witness :
  exists c'' r, Get (fst (HandleAuthError after_two_errors 2 1002)) None "link" 3
    (Some demo_fetch) 0 0 = (c'', r, true).
Proof.
  assert (wf after_two_errors) as Hwf.
  { unfold after_two_errors.
    destruct (HandleAuthError (NewCache 4) 0 1000) as [c1 b1] eqn:E1; cbn [fst].
    destruct (HandleAuthError_refines _ _ _ _ _ (wf_NewCache 4) E1) as [W1 _].
    destruct (HandleAuthError c1 1 1001) as [c2 b2] eqn:E2; cbn [fst].
    apply (HandleAuthError_refines _ _ _ _ _ W1 E2). }
  refine (auth_error_forces_refetch after_two_errors 2 1002
    (fst (HandleAuthError after_two_errors 2 1002)) true Hwf _ 3%Z "link" demo_fetch 0%Z 0%Z _ _);
    vm_compute; [reflexivity | reflexivity | discriminate].
Defined.

(** ** Error classification *)

Lemma IsAuthError_wrap pre err :
  IsAuthError (Some err) = true -> IsAuthError (Some (Errorf_w pre err)) = true.
Proof.
  cbn [IsAuthError]. rewrite !existsb_exists. intros (x & Hx & Hc). exists x. split; [done|].
  cbn [Errorf_w error_text]. rewrite <-(app_nil_r (error_text err)). by apply Contains_wrap.
Qed.

Lemma IsRateLimitError_wrap pre err :
  IsRateLimitError (Some err) = true -> IsRateLimitError (Some (Errorf_w pre err)) = true.
Proof.
  cbn [IsRateLimitError]. intros H. apply orb_true_iff. apply orb_true_iff in H as [H|H];
    [left|right]; cbn [Errorf_w error_text];
    rewrite <-(app_nil_r (error_text err)); by apply Contains_wrap.
Qed.

(** The sentinel documented as the signal for the cache to invalidate
    ([wgturn.ErrAuthFailure]) is not what the cache's classifier looks for. *)
Definition ErrAuthFailure_value : error :=
  mkError "wgturn: credentials rejected (auth failure)" [ErrAuthFailure].

Lemma ErrAuthFailure_not_auth_error :
  errors_Is ErrAuthFailure_value ErrAuthFailure = true /\
  IsAuthError (Some ErrAuthFailure_value) = false.
Proof. by vm_compute. Qed.
