(* ===== verification/RoundRobin.v ===== *)
(** * Counting lemmas for round-robin schedules

    Used by the hub's scheduler (internal/proxy) and by the server's
    backend-to-stream dispatch (pkg/wgturnsrv). *)

From Stdlib Require Import Permutation.
From S2P Require Import Prelude.

(** The positions visited by [k] rounds over [n] slots from slot [c]. *)
Definition rr_positions (n c k : nat) : list nat :=
  map (fun j => (c + j) mod n)%nat (seq 0 k).

Lemma rr_positions_block n c :
  n <> O -> Permutation (rr_positions n c n) (seq 0 n).
Proof.
  intros Hn. unfold rr_positions. apply NoDup_Permutation_bis.
  - apply NoDup_ListNoDup, NoDup_fmap_2_strong; [|apply NoDup_ListNoDup, seq_NoDup].
    intros x y Hx%list_elem_of_In%in_seq Hy%list_elem_of_In%in_seq Hxy.
    pose proof (Nat.div_mod_eq (c + x) n). pose proof (Nat.div_mod_eq (c + y) n).
    assert ((c + x) / n = (c + y) / n \/ (c + x) / n < (c + y) / n \/ (c + y) / n < (c + x) / n)%nat
      as [?|[?|?]] by lia; nia.
  - rewrite length_map, length_seq. lia.
  - intros x Hx. apply in_map_iff in Hx as (j & <- & _). apply in_seq.
    pose proof (Nat.mod_upper_bound (c + j) n Hn). lia.
Qed.

Lemma rr_positions_add n c a b :
  rr_positions n c (a + b) = rr_positions n c a ++ rr_positions n (c + a) b.
Proof.
  unfold rr_positions. rewrite seq_app, map_app. f_equal.
  rewrite Nat.add_0_l. rewrite <-(Nat.add_0_r a) at 1. rewrite <-fmap_add_seq.
  change (map ?f (Nat.add a <$> ?l)) with (map f (map (Nat.add a) l)).
  rewrite map_map. apply map_ext. intros j. f_equal. lia.
Qed.

(** Over whole rounds every slot is visited equally often. *)
Lemma rr_positions_fair n c k i :
  (i < n)%nat -> count_occ Nat.eq_dec (rr_positions n c (k * n)) i = k.
Proof.
  intros Hi. revert c; induction k as [|k IH]; intros c; [done|].
  cbn [Nat.mul]. rewrite rr_positions_add, count_occ_app, IH.
  pose proof (rr_positions_block n c ltac:(lia)) as Hp.
  rewrite (Permutation_count_occ Nat.eq_dec) in Hp. rewrite Hp.
  pose proof (seq_NoDup n 0) as Hnd. rewrite (NoDup_count_occ' Nat.eq_dec) in Hnd.
  rewrite Hnd; [done|]. apply in_seq. lia.
Qed.
