(* ===== verification/Session.v ===== *)
(** * pkg/wgturnsrv/session.go: one client's streams on one backend

    The state of a [session] and its operations; connections are identified
    by number, as the program compares them by pointer.  The interleavings of
    these operations with the server's session map are in Server.v. *)

From S2P Require Import Prelude RoundRobin.

Definition readBufSize : nat := 1600.

Record streamEntry := mkStream { se_id : byte; se_conn : nat }.

#[global] Instance streamEntry_eq_dec : EqDecision streamEntry.
Proof. solve_decision. Defined.

(** [s_backendCloses] counts the [Close] calls made on the session's backend
    connection. *)
Record session := mkSession {
  s_id : bytes;
  s_streams : list streamEntry;
  s_rrCounter : Z;
  s_terminated : bool;
  s_cancelled : bool;
  s_backendCloses : nat }.

Definition newSession (id : bytes) : session := mkSession id [] 0 false false 0.

Definition set_streams (s : session) (l : list streamEntry) : session :=
  mkSession (s_id s) l (s_rrCounter s) (s_terminated s) (s_cancelled s) (s_backendCloses s).

(** The critical section of [addStream]: replace the connection of an existing
    slot, else append. *)
Fixpoint put_stream (l : list streamEntry) (streamID : byte) (conn : nat)
    : list streamEntry * option nat :=
  match l with
  | [] => ([mkStream streamID conn], None)
  | e :: l =>
      if Byte.eqb (se_id e) streamID
      then (mkStream (se_id e) conn :: l, Some (se_conn e))
      else let '(l, d) := put_stream l streamID conn in (e :: l, d)
  end.

Definition insertStream (s : session) (streamID : byte) (conn : nat) : session * option nat :=
  let '(l, displaced) := put_stream (s_streams s) streamID conn in (set_streams s l, displaced).

(** [addStream], run without interruption. *)
Definition addStream (s : session) (streamID : byte) (conn : nat)
    : session * (option nat * bool) :=
  if s_terminated s then (s, (None, false))
  else let '(s, displaced) := insertStream s streamID conn in (s, (displaced, true)).

(** Order-preserving delete of the first entry holding this very connection. *)
Fixpoint del_stream (l : list streamEntry) (streamID : byte) (conn : nat) : list streamEntry :=
  match l with
  | [] => []
  | e :: l =>
      if (negb (Byte.eqb (se_id e) streamID) || negb (se_conn e =? conn)%nat)%bool
      then e :: del_stream l streamID conn
      else l
  end.

Definition removeStream (s : session) (streamID : byte) (conn : nat) : session * bool :=
  let s := set_streams s (del_stream (s_streams s) streamID conn) in
  (s, match s_streams s with [] => true | _ => false end).

Definition snapshotStreams (s : session) : list streamEntry := s_streams s.
Definition streamCount (s : session) : nat := length (s_streams s).

(** One packet from the backend in [runBackend]: the buffer keeps its first
    [readBufSize] bytes, and the round-robin index picks the stream.
    [int(s.rrCounter.Add(1)-1) % len(streams)]: a negative remainder makes the
    indexing panic. *)
Inductive dispatched :=
| Dropped
| Sent (conn : nat) (pkt : bytes)
| IndexPanic.

Definition rr_index (counter : Z) (n : nat) : Z :=
  Z.rem (wrap_int64 (wrap_uint64 (wrap_uint64 (counter + 1) - 1))) (Z.of_nat n).

Definition dispatch (s : session) (datagram : bytes) : session * dispatched :=
  let streams := snapshotStreams s in
  match streams with
  | [] => (s, Dropped)
  | _ =>
      let idx := rr_index (s_rrCounter s) (length streams) in
      let s := mkSession (s_id s) (s_streams s) (wrap_uint64 (s_rrCounter s + 1))
                 (s_terminated s) (s_cancelled s) (s_backendCloses s) in
      (s, if (idx <? 0)%Z then IndexPanic
          else match streams !! Z.to_nat idx with
               | Some e => Sent (se_conn e) (take readBufSize datagram)
               | None => IndexPanic
               end)
  end.

(** A run of [runBackend] over the datagrams of the backend, with no stream
    joining or leaving meanwhile. *)
Fixpoint dispatch_all (s : session) (ds : list bytes) : session * list dispatched :=
  match ds with
  | [] => (s, [])
  | d :: ds =>
      let '(s, o) := dispatch s d in
      let '(s, os) := dispatch_all s ds in (s, o :: os)
  end.

(** The phases of [terminate]: the compare-and-swap, then cancel and close of
    the backend, then (in Server.v) [onTerminate], then the streams. *)
Definition term_cas (s : session) : session :=
  mkSession (s_id s) (s_streams s) (s_rrCounter s) true (s_cancelled s) (s_backendCloses s).
Definition term_close (s : session) : session :=
  mkSession (s_id s) (s_streams s) (s_rrCounter s) (s_terminated s) true (S (s_backendCloses s)).
Definition term_streams (s : session) : session * list nat :=
  (set_streams s [], map se_conn (s_streams s)).

(** ** Lemmas *)

Definition ids (s : session) : list byte := map se_id (s_streams s).

Lemma put_stream_ids l i c l' d :
  put_stream l i c = (l', d) ->
  map se_id l' = if decide (i ∈ map se_id l) then map se_id l else map se_id l ++ [i].
Proof.
  revert l' d; induction l as [|e l IH]; intros l' d; cbn [put_stream]; intros H.
  - injection H as <- <-. case_decide as Hi; [|done]. by apply not_elem_of_nil in Hi.
  - destruct (byte_eqb_spec (se_id e) i) as [Heq|Hne].
    + injection H as <- <-. cbn [map se_id]. rewrite Heq.
      destruct (decide (i ∈ i :: map se_id l)); [done | set_solver].
    + destruct (put_stream l i c) as [l1 d1]. injection H as <- <-. cbn [map].
      rewrite (IH _ _ eq_refl). clear IH. repeat case_decide; set_solver.
Qed.

Lemma put_stream_elem l i c l' d e :
  put_stream l i c = (l', d) -> e ∈ l' -> e = mkStream i c \/ e ∈ l.
Proof.
  revert l' d; induction l as [|a l IH]; intros l' d; cbn; intros H He.
  - injection H as <- <-. set_solver.
  - destruct (byte_eqb_spec (se_id a) i) as [Heq|Hne].
    + injection H as <- <-. rewrite Heq in He. set_solver.
    + destruct (put_stream l i c) as [l1 d1]. injection H as <- <-.
      apply elem_of_cons in He as [->|He]; [set_solver|].
      destruct (IH _ _ eq_refl He); set_solver.
Qed.

Lemma put_stream_new l i c : mkStream i c ∈ fst (put_stream l i c).
Proof.
  induction l as [|a l IH]; cbn; [set_solver|].
  destruct (byte_eqb_spec (se_id a) i) as [->|]; cbn; [set_solver|].
  destruct (put_stream l i c); cbn in *. set_solver.
Qed.

(** A slot other than the one written keeps its connection. *)
Lemma put_stream_other l i c e :
  e ∈ l -> se_id e <> i -> e ∈ fst (put_stream l i c).
Proof.
  induction l as [|a l IH]; cbn; intros He Hne; [set_solver|].
  destruct (byte_eqb_spec (se_id a) i) as [Heq|]; cbn.
  - apply elem_of_cons in He as [->|He]; [done | set_solver].
  - destruct (put_stream l i c); cbn in *. set_solver.
Qed.

Lemma put_stream_displaced l i c d :
  snd (put_stream l i c) = Some d -> mkStream i d ∈ l.
Proof.
  induction l as [|a l IH]; cbn; [done|].
  destruct (byte_eqb_spec (se_id a) i) as [Heq|]; cbn.
  - intros [= <-]. rewrite <-Heq. destruct a; set_solver.
  - destruct (put_stream l i c); cbn in *. intros ->. set_solver.
Qed.

Lemma del_stream_sublist l i c : del_stream l i c `sublist_of` l.
Proof.
  induction l as [|e l IH]; cbn; [constructor|].
  destruct (_ || _)%bool; [by constructor | by apply sublist_cons].
Qed.

(** Deleting leaves every entry but the one with this id and connection. *)
Lemma del_stream_elem l i c e :
  e ∈ l -> e <> mkStream i c -> e ∈ del_stream l i c.
Proof.
  induction l as [|a l IH]; cbn; intros He Hne; [set_solver|].
  destruct (_ || _)%bool eqn:E; [set_solver|]. bprop.
  apply byte_eqb_eq in H. destruct a as [ai ac]; cbn in *; subst. set_solver.
Qed.

Lemma del_stream_notin l i c : NoDup (map se_id l) -> mkStream i c ∉ del_stream l i c.
Proof.
  induction l as [|a l IH]; cbn; intros Hnd; [set_solver|].
  apply NoDup_cons in Hnd as [Hni Hnd].
  destruct (_ || _)%bool eqn:E; bprop.
  - rewrite not_elem_of_cons. split; [|auto]. intros Ha. rewrite <-Ha in E; cbn in E.
    rewrite byte_eqb_refl, Nat.eqb_refl in E. by destruct E.
  - apply byte_eqb_eq in H. intros Hin. apply Hni. rewrite H.
    change i with (se_id (mkStream i c)).
    apply list_elem_of_In, in_map, list_elem_of_In. done.
Qed.

Lemma ids_insertStream s i c : NoDup (ids s) -> NoDup (ids (fst (insertStream s i c))).
Proof.
  unfold ids, insertStream. intros H. destruct (put_stream _ i c) as [l d] eqn:E; cbn.
  rewrite (put_stream_ids _ _ _ _ _ E). destruct (decide _) as [|Hi]; [done|].
  apply NoDup_app. split; [done|]. split; [|apply NoDup_singleton]. set_solver.
Qed.

Lemma ids_removeStream s i c : NoDup (ids s) -> NoDup (ids (fst (removeStream s i c))).
Proof.
  unfold ids; cbn. intros H. eapply sublist_NoDup; [done|].
  change (se_id <$> del_stream (s_streams s) i c `sublist_of` se_id <$> s_streams s).
  apply fmap_sublist, del_stream_sublist.
Qed.
#[export] Hint Resolve ids_insertStream ids_removeStream : go.

(** ** Theorems *)

(** Eviction on conflict is safe: once a newer connection took over a
    stream slot, the loser's [removeStream] leaves the winner (and every other
    stream) registered and does not report the session drained. *)
Theorem loser_keeps_winner s i loser winner s1 :
  NoDup (ids s) -> loser <> winner -> s_terminated s = false ->
  addStream s i winner = (s1, (Some loser, true)) ->
  let '(s2, drained) := removeStream s1 i loser in
  drained = false /\ s_streams s2 = s_streams s1 /\ mkStream i winner ∈ s_streams s2.
Proof.
  intros Hnd Hne Ht H. unfold addStream in H. rewrite Ht in H.
  pose proof (ids_insertStream s i winner Hnd) as Hnd1. unfold insertStream in *.
  pose proof (put_stream_new (s_streams s) i winner) as Hin.
  destruct (put_stream (s_streams s) i winner) as [l d] eqn:E. cbn in *.
  injection H as <- ->. cbn in *.
  assert (del_stream l i loser = l) as Hd.
  { clear E Hnd Ht. unfold ids in Hnd1; cbn in Hnd1.
    induction l as [|a l IH]; [done|]. cbn in Hnd1 |- *. apply NoDup_cons in Hnd1 as [Hni Hnd1].
    destruct (_ || _)%bool eqn:E; bprop.
    - apply elem_of_cons in Hin as [<-|Hin].
      + f_equal. assert (forall l, i ∉ map se_id l -> del_stream l i loser = l) as HX; [|auto].
        clear. induction l as [|b l IH]; [done|]. cbn. intros Hi.
        destruct (byte_eqb_spec (se_id b) i) as [Hb|]; [set_solver|].
        cbn. f_equal. apply IH. set_solver.
      + f_equal. auto.
    - apply byte_eqb_eq in H. exfalso. apply elem_of_cons in Hin as [<-|Hin]; cbn in *; [congruence|].
      apply Hni. rewrite H. change i with (se_id (mkStream i winner)).
      by apply list_elem_of_In, in_map, list_elem_of_In. }
  rewrite Hd. split; [|done]. destruct l; [set_solver | done].
Qed.

Lemma loser_keeps_winner_witness :
  let s := mkSession "s" [mkStream x01 10; mkStream x02 11] 0 false false 0 in
  let '(s1, _) := addStream s x01 12 in
  let '(s2, drained) := removeStream s1 x01 10 in
  drained = false /\ s_streams s2 = s_streams s1 /\ mkStream x01 12 ∈ s_streams s2.
Proof.
  apply (loser_keeps_winner (mkSession "s" [mkStream x01 10; mkStream x02 11] 0 false false 0)
    x01 10 12 (mkSession "s" [mkStream x01 12; mkStream x02 11] 0 false false 0)).
  - by apply (bool_decide_unpack _).
  - discriminate.
  - reflexivity.
  - reflexivity.
Defined.

Lemma rr_index_small c n :
  (0 <= c < 9223372036854775808)%Z -> n <> O -> rr_index c n = (c mod Z.of_nat n)%Z.
Proof.
  intros Hc Hn. unfold rr_index, wrap_uint64. rewrite (Z.mod_small (c + 1)) by lia.
  replace (c + 1 - 1)%Z with c by lia. rewrite Z.mod_small by lia.
  rewrite wrap_int64_id by (unfold int64_min, int64_max; lia). apply Z.rem_mod_nonneg; lia.
Qed.

Lemma dispatch_small s d :
  s_streams s <> [] -> (0 <= s_rrCounter s < 9223372036854775808)%Z ->
  exists e, s_streams s !! Z.to_nat (s_rrCounter s mod Z.of_nat (length (s_streams s))) = Some e /\
    dispatch s d = (mkSession (s_id s) (s_streams s) (s_rrCounter s + 1)
      (s_terminated s) (s_cancelled s) (s_backendCloses s), Sent (se_conn e) (take readBufSize d)).
Proof.
  intros Hne Hc. unfold dispatch, snapshotStreams.
  destruct (s_streams s) as [|a l] eqn:El; [done|]. rewrite rr_index_small by done.
  set (n := length (a :: l)).
  pose proof (Z.mod_pos_bound (s_rrCounter s) (Z.of_nat n) ltac:(cbn; lia)) as Hm.
  destruct (lookup_lt_is_Some_2 (a :: l) (Z.to_nat (s_rrCounter s mod Z.of_nat n)))
    as [e He]; [cbn -[Z.of_nat Z.modulo] in *; lia|].
  exists e. split; [done|]. destruct (Z.ltb_spec (s_rrCounter s mod Z.of_nat n) 0); [lia|].
  rewrite He. do 2 f_equal. apply wrap_uint64_id. lia.
Qed.

Definition sent_to (o : dispatched) : option nat :=
  match o with Sent c _ => Some c | _ => None end.

(** The connections a run of [runBackend] writes to are the round-robin
    positions from the counter. *)
Lemma dispatch_all_positions s ds :
  s_streams s <> [] -> (0 <= s_rrCounter s)%Z ->
  (s_rrCounter s + Z.of_nat (length ds) <= 9223372036854775808)%Z ->
  map sent_to (snd (dispatch_all s ds)) =
  map (fun i => se_conn <$> s_streams s !! i)
    (rr_positions (length (s_streams s)) (Z.to_nat (s_rrCounter s)) (length ds)).
Proof.
  revert s; induction ds as [|d ds IH]; intros s Hne H0 Hc; [done|].
  cbn [dispatch_all]. cbn [length] in Hc.
  destruct (dispatch_small s d Hne ltac:(lia)) as (e & He & ->).
  specialize (IH (mkSession (s_id s) (s_streams s) (s_rrCounter s + 1)
      (s_terminated s) (s_cancelled s) (s_backendCloses s)) Hne ltac:(cbn; lia) ltac:(cbn; lia)).
  destruct (dispatch_all _ ds) as [s' os]. cbn [snd map s_streams s_rrCounter] in IH |- *.
  rewrite IH. change (length (d :: ds)) with (1 + length ds)%nat.
  rewrite rr_positions_add, map_app. cbn. rewrite Nat.add_0_r. f_equal.
  - rewrite Z2Nat.inj_mod, Nat2Z.id in He by lia. unfold rr_positions in *. by rewrite He.
  - do 2 f_equal. lia.
Qed.

(** C32.  While the set of streams is stable and fewer than 2^63 packets were
    dispatched, [k] packets per stream from the backend are spread evenly: the
    stream in every slot is written to exactly [k] times, and none is dropped. *)
Theorem dispatch_fair s ds k i e :
  NoDup (map se_conn (s_streams s)) ->
  s_streams s !! i = Some e ->
  length ds = (k * length (s_streams s))%nat -> (0 <= s_rrCounter s)%Z ->
  (s_rrCounter s + Z.of_nat (length ds) <= 9223372036854775808)%Z ->
  let out := map sent_to (snd (dispatch_all s ds)) in
  length (filter (fun o => o = Some (se_conn e)) out) = k /\ None ∉ out.
Proof.
  intros Hnd Hi Hlen H0 Hc. cbn zeta.
  assert (s_streams s <> []) as Hne by (intros E; rewrite E in Hi; done).
  pose proof (lookup_lt_Some _ _ _ Hi) as Hil.
  rewrite dispatch_all_positions by done. rewrite Hlen.
  pose proof (rr_positions_fair (length (s_streams s)) (Z.to_nat (s_rrCounter s)) k i Hil) as Hf.
  assert (Forall (fun j => j < length (s_streams s))%nat
    (rr_positions (length (s_streams s)) (Z.to_nat (s_rrCounter s)) (k * length (s_streams s)))) as Hr.
  { apply Forall_forall. intros j Hj%list_elem_of_In. unfold rr_positions in Hj.
    apply in_map_iff in Hj as (x & <- & _). apply Nat.mod_upper_bound. lia. }
  revert Hf Hr. generalize (rr_positions (length (s_streams s)) (Z.to_nat (s_rrCounter s))
    (k * length (s_streams s))). intros l. clear Hlen Hc. revert k.
  induction l as [|j l IH]; intros k Hf Hr.
  - cbn in *. split; [done | apply not_elem_of_nil].
  - inversion Hr as [|? ? Hj Hl]; subst. destruct (lookup_lt_is_Some_2 _ _ Hj) as [ej Hej].
    cbn [map]. rewrite Hej. cbn [fmap option_fmap option_map]. rewrite filter_cons.
    cbn [count_occ]. rewrite not_elem_of_cons.
    destruct (IH _ eq_refl Hl) as [IH1 IH2].
    destruct (Nat.eq_dec j i) as [->|Hji].
    + assert (ej = e) as -> by congruence. destruct (decide _); [|done]. cbn. rewrite IH1. done.
    + destruct (decide _) as [Heq|]; [|done]. exfalso. apply Hji.
      injection Heq as Heq. eapply (NoDup_lookup (map se_conn (s_streams s))); [done| |].
      * change (map se_conn (s_streams s)) with (se_conn <$> s_streams s).
        rewrite list_lookup_fmap, Hej. done.
      * change (map se_conn (s_streams s)) with (se_conn <$> s_streams s).
        rewrite list_lookup_fmap, Hi. cbn. congruence.
Qed.

Definition three_streams : session :=
  mkSession "s" [mkStream x00 7; mkStream x01 8; mkStream x02 9] 4 false false 0.

Lemma dispatch_fair_witness :
  let out := map sent_to (snd (dispatch_all three_streams (replicate 6 "pkt"))) in
  length (filter (fun o => o = Some 8%nat) out) = 2%nat /\ None ∉ out.
Proof.
  apply (dispatch_fair three_streams (replicate 6 "pkt") 2 1 (mkStream x01 8)).
  - by apply (bool_decide_unpack _).
  - reflexivity.
  - reflexivity.
  - vm_compute; discriminate.
  - vm_compute; discriminate.
Defined.

(** The dispatch index at the machine level: below 2^63 dispatches the
    [int] conversion keeps it inside the slice; from the 2^63rd on (with a
    number of streams that does not divide it) it turns negative and the
    indexing panics. *)
Theorem rr_index_bounds c n :
  (0 <= c < 18446744073709551616)%Z -> n <> O ->
  ((c < 9223372036854775808)%Z -> (0 <= rr_index c n < Z.of_nat n)%Z) /\
  ((9223372036854775808 <= c)%Z -> (rr_index c n <= 0)%Z /\
     ((c - 18446744073709551616) mod Z.of_nat n <> 0 -> rr_index c n < 0)%Z).
Proof.
  intros Hc Hn. split; intros H.
  - rewrite rr_index_small by (auto with lia). apply Z.mod_pos_bound. lia.
  - assert (rr_index c n = Z.rem (c - 18446744073709551616) (Z.of_nat n)) as ->.
    { unfold rr_index, wrap_uint64. f_equal. rewrite Zminus_mod_idemp_l.
      replace (c + 1 - 1)%Z with c by lia. rewrite Z.mod_small by done. unfold wrap_int64.
      replace (c + 9223372036854775808)%Z
        with (c - 9223372036854775808 + 1 * 18446744073709551616)%Z by lia.
      rewrite Z.mod_add, Z.mod_small by lia. lia. }
    assert (Z.rem (c - 18446744073709551616) (Z.of_nat n) <= 0)%Z as Hle.
    { apply Z.rem_nonpos; lia. }
    split; [done|]. intros Hm. assert (Z.rem (c - 18446744073709551616) (Z.of_nat n) <> 0)%Z; [|lia].
    intros Hz. apply Hm. apply Z.rem_divide in Hz; [|lia]. by apply Z.mod_divide; [lia|].
Qed.

Lemma rr_index_bounds_witness :
  (0 <= rr_index 9223372036854775807 3 < 3)%Z /\ (rr_index 9223372036854775808 3 < 0)%Z.
Proof.
  destruct (rr_index_bounds 9223372036854775807 3) as [H1 _]; [lia | discriminate |].
  destruct (rr_index_bounds 9223372036854775808 3) as [_ H2]; [lia | discriminate |].
  split; [apply H1; lia|]. apply H2; [lia|]. vm_compute. discriminate.
Defined.

(** [removeStream] answers [true] whenever the slice is empty afterwards, also
    when it was empty before. *)
Lemma removeStream_drained_on_empty s i c :
  s_streams s = [] -> snd (removeStream s i c) = true.
Proof. intros H. cbn. by rewrite H. Qed.
