(* ===== verification/Server.v ===== *)
(** * pkg/wgturnsrv/server.go: sessions, handlers and their interleavings

    The server's goroutines as threads over a shared state.  A thread's
    program counter says where in [handleConn], [runBackend], [terminate] or
    [Stop] it is; [tstep] runs one atomic section of it (one lock region, one
    atomic operation, one I/O call).  [reach] closes this under every
    interleaving, the arrival of connections and calls of [Stop] included.
    The outcome of the I/O call of a step is its argument. *)

From S2P Require Import Prelude GoStrings GoErrors Encoding Framing Session.

(** ** Configuration *)

Definition DefaultHandshakeTimeout : Z := 30 * Second.
Definition DefaultStreamReadTimeout : Z := 5 * Minute.
Definition DefaultBackendWriteTimeout : Z := 5 * Second.

(** [Backend] and [Logger] are interfaces: what counts is whether they are
    nil. *)
Record Config := mkConfig {
  ListenAddr : bytes;
  has_Backend : bool;
  has_Logger : bool;
  HandshakeTimeout : Z;
  StreamReadTimeout : Z;
  BackendWriteTimeout : Z }.

Inductive config_error := ListenAddrRequired | BackendRequired.

Definition validate (c : Config) : result config_error unit :=
  guard negb (ListenAddr c =s? []) else ListenAddrRequired in
  guard has_Backend c else BackendRequired in
  Ok tt.

Definition withDefaults (c : Config) : Config :=
  mkConfig (ListenAddr c) (has_Backend c) true
    (if (HandshakeTimeout c <=? 0)%Z then DefaultHandshakeTimeout else HandshakeTimeout c)
    (if (StreamReadTimeout c <=? 0)%Z then DefaultStreamReadTimeout else StreamReadTimeout c)
    (if (BackendWriteTimeout c <=? 0)%Z then DefaultBackendWriteTimeout else BackendWriteTimeout c).

(** ** The shared state *)

Inductive lifecycle := StateNew | StateStarted | StateStopped.

(** Sessions live in a heap, the map holds references to them.
    [sv_listening]: the listener is open; [sv_accepted]: how many connections
    it has returned, which numbers them. *)
Record server := mkServer {
  sv_state : lifecycle;
  sv_listening : bool;
  sv_accepted : nat;
  sv_sessions : gmap bytes nat;   (* session id -> session *)
  sv_heap : list session;
  sv_closed : gset nat }.         (* closed connections *)

Definition set_state (σ : server) st : server :=
  mkServer st (sv_listening σ) (sv_accepted σ) (sv_sessions σ) (sv_heap σ) (sv_closed σ).
Definition set_listening (σ : server) b : server :=
  mkServer (sv_state σ) b (sv_accepted σ) (sv_sessions σ) (sv_heap σ) (sv_closed σ).
Definition set_accepted (σ : server) n : server :=
  mkServer (sv_state σ) (sv_listening σ) n (sv_sessions σ) (sv_heap σ) (sv_closed σ).
Definition set_sessions (σ : server) m : server :=
  mkServer (sv_state σ) (sv_listening σ) (sv_accepted σ) m (sv_heap σ) (sv_closed σ).
Definition set_heap (σ : server) h : server :=
  mkServer (sv_state σ) (sv_listening σ) (sv_accepted σ) (sv_sessions σ) h (sv_closed σ).
Definition close_conns (σ : server) (cs : list nat) : server :=
  mkServer (sv_state σ) (sv_listening σ) (sv_accepted σ) (sv_sessions σ) (sv_heap σ)
    (list_to_set cs ∪ sv_closed σ).

(** ** Threads *)

Inductive phase := PCas | PClose | PRemove | PStreams.

#[global] Instance phase_eq_dec : EqDecision phase.
Proof. solve_decision. Defined.

(** What a thread does after [terminate] returns. *)
Inductive cont :=
| KDone
| KExit (id : byte) (conn : nat)      (* leave [runStream] *)
| KStop (rest : list nat).            (* next session of [Stop] *)

(** What a connection will deliver: see [read_event]. *)
Abbreviation wire := (list (read_event unit)).

Inductive thread :=
| TLoop                                           (* acceptLoop *)
| TConn (r : wire) (conn : nat)                   (* handleConn entered *)
| TAccept (sid : bytes) (id : byte) (conn : nat)  (* preamble read *)
| TGot (p : nat) (id : byte) (conn : nat)         (* session looked up *)
| TChecked (p : nat) (id : byte) (conn : nat)     (* addStream saw a live session *)
| TEvict (p : nat) (id : byte) (conn displaced : nat)
| TStream (p : nat) (id : byte) (conn : nat)      (* runStream *)
| TExit (p : nat) (id : byte) (conn : nat)        (* deferred conn.Close *)
| TRemove (p : nat) (id : byte) (conn : nat)      (* deferred removeStream *)
| TBackend (p : nat)                              (* runBackend *)
| TTerm (ph : phase) (p : nat) (k : cont)         (* inside terminate *)
| TStop                                           (* Stop called *)
| TCancel                                         (* Stop: state changed *)
| TSnapshot                                       (* about to copy the session set *)
| TStopping (l : list nat)                        (* terminating the copied sessions *)
| TWait                                           (* s.wg.Wait() *)
| TDone.

Definition resume (p : nat) (k : cont) : thread :=
  match k with
  | KDone => TDone
  | KExit id conn => TExit p id conn
  | KStop rest => TStopping rest
  end.

(** The goroutines counted by [s.wg]: all but the callers of [Stop]. *)
Definition in_wg (t : thread) : bool :=
  match t with
  | TStop | TCancel | TSnapshot | TStopping _ | TWait | TDone | TTerm _ _ (KStop _) => false
  | _ => true
  end.

(** The I/O of a step: success, a failed open or read, a failed backend
    write. *)
Inductive io := IoOk | IoErr | IoWriteErr.

Inductive start_error := ErrAlreadyStarted | ErrResolve | ErrListen.

(** [Start], with what [ResolveUDPAddr] and [dtls.Listen] answer. *)
Definition Start (σ : server) (resolved listened : bool)
    : server * option start_error * list thread :=
  match sv_state σ with
  | StateNew =>
      if negb resolved then (σ, Some ErrResolve, [])
      else if negb listened then (σ, Some ErrListen, [])
      else (set_listening (set_state σ StateStarted) true, None, [TLoop])
  | _ => (σ, Some ErrAlreadyStarted, [])
  end.

(** [getOrCreateSession], under the map lock; the result says whether the
    session is fresh. *)
Definition getOrCreateSession (σ : server) (sid : bytes) (open : io)
    : server * option (nat * bool) :=
  match sv_sessions σ !! sid with
  | Some p => (σ, Some (p, false))
  | None =>
      match open with
      | IoOk =>
          let p := length (sv_heap σ) in
          (set_heap (set_sessions σ (<[sid := p]> (sv_sessions σ)))
             (sv_heap σ ++ [newSession sid]), Some (p, true))
      | _ => (σ, None)
      end
  end.

Definition removeSession (σ : server) (sid : bytes) : server :=
  set_sessions σ (delete sid (sv_sessions σ)).

Definition update (σ : server) (p : nat) (s : session) : server :=
  set_heap σ (<[p := s]> (sv_heap σ)).

Definition backend_closed (s : session) : bool := (0 <? s_backendCloses s)%nat.

(** One atomic section of [terminate]. *)
Definition terminate_step (σ : server) (ph : phase) (p : nat) (k : cont) (s : session)
    : server * thread :=
  match ph with
  | PCas => if s_terminated s then (σ, resume p k)
            else (update σ p (term_cas s), TTerm PClose p k)
  | PClose => (update σ p (term_close s), TTerm PRemove p k)
  | PRemove => (removeSession σ (s_id s), TTerm PStreams p k)
  | PStreams =>
      let '(s, conns) := term_streams s in
      (close_conns (update σ p s) conns, resume p k)
  end.

(** One atomic section of [handleConn], from the lookup of its session to the
    end of its deferred calls. *)
Definition handler_step (σ : server) (t : thread) (o : io)
    : option (server * thread * list thread) :=
  match t with
  | TConn r conn =>
      match ReadHandshake r with
      | (_, Err _) => Some (close_conns σ [conn], TDone, [])
      | (_, Ok (sid, id)) => Some (σ, TAccept (hex_encode sid) id conn, [])
      end
  | TAccept sid id conn =>
      match getOrCreateSession σ sid o with
      | (σ, None) => Some (close_conns σ [conn], TDone, [])
      | (σ, Some (p, fresh)) =>
          Some (σ, TGot p id conn, if fresh : bool then [TBackend p] else [])
      end
  | TGot p id conn =>
      s ← sv_heap σ !! p;
      if s_terminated s then Some (close_conns σ [conn], TDone, [])
      else Some (σ, TChecked p id conn, [])
  | TChecked p id conn =>
      s ← sv_heap σ !! p;
      let '(s, displaced) := insertStream s id conn in
      Some (update σ p s,
            match displaced with
            | Some d => TEvict p id conn d
            | None => TStream p id conn
            end, [])
  | TEvict p id conn d => Some (close_conns σ [d], TStream p id conn, [])
  | TStream p id conn =>
      s ← sv_heap σ !! p;
      match o with
      | IoErr => Some (σ, TExit p id conn, [])
      | _ =>
          if decide (conn ∈ sv_closed σ) then Some (σ, TExit p id conn, [])
          else match o with
               | IoOk => if backend_closed s
                         then Some (σ, TTerm PCas p (KExit id conn), [])
                         else Some (σ, TStream p id conn, [])
               | _ => Some (σ, TTerm PCas p (KExit id conn), [])
               end
      end
  | TExit p id conn => Some (close_conns σ [conn], TRemove p id conn, [])
  | TRemove p id conn =>
      s ← sv_heap σ !! p;
      let '(s, drained) := removeStream s id conn in
      Some (update σ p s, if drained : bool then TTerm PCas p KDone else TDone, [])
  | _ => None
  end.

(** One packet (or read error) of [runBackend]; the packet itself is the
    business of [dispatch] in Session.v. *)
Definition backend_step (σ : server) (p : nat) (o : io) : option (server * thread) :=
  s ← sv_heap σ !! p;
  match o with
  | IoOk => if backend_closed s then Some (σ, TTerm PCas p KDone)
            else Some (update σ p (fst (dispatch s [])), TBackend p)
  | _ => Some (σ, TTerm PCas p KDone)
  end.

(** One atomic section of [Stop]. *)
Definition stop_step (σ : server) (t : thread) : option (server * thread) :=
  match t with
  | TStop =>
      match sv_state σ with
      | StateStarted => Some (set_state σ StateStopped, TCancel)
      | _ => Some (σ, TDone)
      end
  | TCancel => Some (set_listening σ false, TSnapshot)
  | TSnapshot => Some (σ, TStopping (snd <$> map_to_list (sv_sessions σ)))
  | TStopping (p :: l) => Some (σ, TTerm PCas p (KStop l))
  | TStopping [] => Some (σ, TWait)
  | _ => None
  end.

(** One atomic step of a thread: the new shared state, the thread's next
    program counter and the threads it starts.  [None]: the thread cannot run
    ([TWait] and the accepting of [TLoop] are handled by the pool). *)
Definition tstep (σ : server) (t : thread) (o : io) : option (server * thread * list thread) :=
  match t with
  | TLoop => match o with IoErr => Some (σ, TDone, []) | _ => None end
  | TBackend p => '(σ, t) ← backend_step σ p o; Some (σ, t, [])
  | TTerm ph p k =>
      s ← sv_heap σ !! p;
      let '(σ, t) := terminate_step σ ph p k s in Some (σ, t, [])
  | TStop | TCancel | TSnapshot | TStopping _ => '(σ, t) ← stop_step σ t; Some (σ, t, [])
  | TWait | TDone => None
  | _ => handler_step σ t o
  end.

(** ** The pool *)

Inductive step : server * list thread -> server * list thread -> Prop :=
| step_thread σ ts i t o σ' t' new :
    ts !! i = Some t -> tstep σ t o = Some (σ', t', new) ->
    step (σ, ts) (σ', <[i := t']> ts ++ new)
| step_start σ ts resolved listened σ' err new :      (* an embedder calls Start *)
    Start σ resolved listened = (σ', err, new) ->
    step (σ, ts) (σ', ts ++ new)
| step_accept σ ts r :                    (* acceptLoop starts a handler *)
    TLoop ∈ ts -> sv_listening σ = true ->
    step (σ, ts) (set_accepted σ (S (sv_accepted σ)), ts ++ [TConn r (sv_accepted σ)])
| step_cancel σ ts :                      (* the context given to Start ends *)
    step (σ, ts) (set_listening σ false, ts)
| step_stop σ ts :                        (* an embedder calls Stop *)
    step (σ, ts) (σ, ts ++ [TStop])
| step_waited σ ts i :                    (* the wait group is empty *)
    ts !! i = Some TWait -> Forall (fun t => in_wg t = false) ts ->
    step (σ, ts) (σ, <[i := TDone]> ts).

(** What [New] returns. *)
Definition new_server : server := mkServer StateNew false 0 ∅ [] ∅.

Definition reach (c : server * list thread) : Prop := rtc step (new_server, []) c.

Record Stats := mkStats { SessionsActive : nat; StreamsActive : nat }.

(** [Stats()], under both locks. *)
Definition server_stats (σ : server) : option Stats :=
  match sv_state σ with
  | StateStarted =>
      Some (mkStats (size (sv_sessions σ))
        (sum_list ((fun kp => match sv_heap σ !! kp.2 with
                              | Some s => streamCount s
                              | None => O
                              end) <$> map_to_list (sv_sessions σ))))
  | _ => None
  end.

(** ** Counting threads *)

Definition cnt (f : thread -> bool) (ts : list thread) : nat := length (List.filter f ts).

Definition b2n (b : bool) : nat := if b then 1 else 0.

Lemma cnt_app f ts us : cnt f (ts ++ us) = (cnt f ts + cnt f us)%nat.
Proof. unfold cnt. by rewrite List.filter_app, length_app. Qed.

Lemma cnt_cons f t ts : cnt f (t :: ts) = (b2n (f t) + cnt f ts)%nat.
Proof. unfold cnt; cbn. by destruct (f t). Qed.

(** Replacing a thread changes a count by that thread's contribution. *)
Lemma cnt_insert f ts i t t' :
  ts !! i = Some t -> (cnt f (<[i := t']> ts) + b2n (f t) = cnt f ts + b2n (f t'))%nat.
Proof.
  revert i; induction ts as [|u ts IH]; intros [|i] H; cbn in H; try done.
  - injection H as ->. change (<[O := t']> (t :: ts)) with (t' :: ts). rewrite !cnt_cons. lia.
  - change (<[S i := t']> (u :: ts)) with (u :: <[i := t']> ts).
    rewrite !cnt_cons. specialize (IH i H). lia.
Qed.

Lemma cnt_pos f ts t : t ∈ ts -> f t = true -> (1 <= cnt f ts)%nat.
Proof.
  intros Hin Hf. induction ts as [|u ts IH]; [by apply not_elem_of_nil in Hin|].
  rewrite cnt_cons. apply elem_of_cons in Hin as [<-|Hin]; [rewrite Hf; cbn; lia|].
  specialize (IH Hin). lia.
Qed.

Lemma cnt_zero f ts : Forall (fun t => f t = false) ts -> cnt f ts = O.
Proof. induction 1 as [|t ts H _ IH]; [done|]. by rewrite cnt_cons, H, IH. Qed.

(** ** The invariant *)

(** Threads about to close the backend of [p], or to drop it from the map. *)
Definition closing (p : nat) (t : thread) : bool :=
  match t with TTerm PClose q _ => (q =? p)%nat | _ => false end.
Definition dropping (p : nat) (t : thread) : bool :=
  match t with TTerm PRemove q _ => (q =? p)%nat | _ => false end.

(** Threads about to close the streams of [p]. *)
Definition finishing (p : nat) (t : thread) : bool :=
  match t with TTerm PStreams q _ => (q =? p)%nat | _ => false end.

(** Threads that will still register a stream with [p] or try to terminate it. *)
Definition pending (p : nat) (t : thread) : bool :=
  match t with
  | TGot q _ _ | TChecked q _ _ | TTerm PCas q _ => (q =? p)%nat
  | _ => false
  end.

(** Threads that serve the stream [e] of [p] and will remove it. *)
Definition serves (p : nat) (e : streamEntry) (t : thread) : bool :=
  match t with
  | TEvict q i c _ | TStream q i c | TExit q i c | TRemove q i c
  | TTerm _ q (KExit i c) =>
      ((q =? p)%nat && Byte.eqb i (se_id e) && (c =? se_conn e)%nat)%bool
  | _ => false
  end.

Definition thread_target (t : thread) : list nat :=
  match t with
  | TGot p _ _ | TChecked p _ _ | TEvict p _ _ _ | TStream p _ _ | TExit p _ _
  | TRemove p _ _ | TBackend p => [p]
  | TTerm _ p (KStop l) => p :: l
  | TTerm _ p _ => [p]
  | TStopping l => l
  | _ => []
  end.

Record session_inv (m : gmap bytes nat) (ts : list thread) (p : nat) (s : session) : Prop := {
  si_ids : NoDup (ids s);
  si_served : forall e, e ∈ s_streams s -> (1 <= cnt (serves p e) ts)%nat;
  si_live : s_terminated s = false ->
    m !! s_id s = Some p /\ s_backendCloses s = O /\
    cnt (closing p) ts = O /\ cnt (dropping p) ts = O /\ cnt (finishing p) ts = O /\
    (s_streams s <> [] \/ (1 <= cnt (pending p) ts)%nat);
  si_dead : s_terminated s = true ->
    (cnt (closing p) ts = 1%nat /\ cnt (dropping p) ts = O /\
       s_backendCloses s = O /\ m !! s_id s = Some p) \/
    (cnt (closing p) ts = O /\ cnt (dropping p) ts = 1%nat /\
       s_backendCloses s = 1%nat /\ m !! s_id s = Some p) \/
    (cnt (closing p) ts = O /\ cnt (dropping p) ts = O /\
       s_backendCloses s = 1%nat /\ m !! s_id s <> Some p) }.

Record inv (σ : server) (ts : list thread) : Prop := {
  inv_sessions : forall p s, sv_heap σ !! p = Some s -> session_inv (sv_sessions σ) ts p s;
  inv_map : forall sid p, sv_sessions σ !! sid = Some p ->
    exists s, sv_heap σ !! p = Some s /\ s_id s = sid;
  inv_targets : forall t p, t ∈ ts -> p ∈ thread_target t -> (p < length (sv_heap σ))%nat }.

(** The counts of a pool determine whether a session keeps its invariant. *)
Lemma session_inv_counts m m' ts ts' p s :
  session_inv m ts p s ->
  (m' !! s_id s = Some p <-> m !! s_id s = Some p) ->
  cnt (closing p) ts' = cnt (closing p) ts ->
  cnt (dropping p) ts' = cnt (dropping p) ts ->
  cnt (finishing p) ts' = cnt (finishing p) ts ->
  (cnt (pending p) ts <= cnt (pending p) ts')%nat ->
  (forall e, e ∈ s_streams s -> (cnt (serves p e) ts <= cnt (serves p e) ts')%nat) ->
  session_inv m' ts' p s.
Proof.
  intros [H1 H2 H3 H4] Hm Hc Hd Hf Hp Hs. split; [done| | |].
  - intros e He. specialize (H2 e He). specialize (Hs e He). lia.
  - intros Ht. destruct (H3 Ht) as (? & ? & ? & ? & ? & [?|?]); rewrite Hc, Hd, Hf, Hm;
      (repeat split; try done); [by left | right; lia].
  - intros Ht. rewrite Hc, Hd, Hm. destruct (H4 Ht) as [H|[H|H]]; tauto.
Qed.

(** A thread that does not touch session [p] contributes to none of its counts. *)
Lemma not_target_counts p t :
  p ∉ thread_target t ->
  closing p t = false /\ dropping p t = false /\ finishing p t = false /\ pending p t = false /\
  (forall e, serves p e t = false).
Proof.
  intros H. destruct t as [| | | | | | | | | |ph q k| | | | | |]; cbn in *;
    try (destruct ph; destruct k); cbn in *;
    repeat match goal with
    | |- context[(?a =? ?b)%nat] => destruct (Nat.eqb_spec a b); [subst; set_solver|]
    end; cbn; auto.
Qed.

(** ** Preservation *)

Lemma cnt_step f ts i t t' new :
  ts !! i = Some t ->
  (cnt f (<[i := t']> ts ++ new) + b2n (f t) = cnt f ts + b2n (f t') + cnt f new)%nat.
Proof. intros H. rewrite cnt_app. pose proof (cnt_insert f ts i t t' H). lia. Qed.

(** A thread that counts for no purpose of session [p]. *)
Definition silent (p : nat) (t : thread) : Prop :=
  closing p t = false /\ dropping p t = false /\ finishing p t = false /\ pending p t = false /\
  (forall e, serves p e t = false).

Lemma cnt_silent p ts :
  Forall (silent p) ts ->
  cnt (closing p) ts = O /\ cnt (dropping p) ts = O /\ cnt (finishing p) ts = O /\
  cnt (pending p) ts = O /\ (forall e, cnt (serves p e) ts = O).
Proof.
  induction 1 as [|t ts (H1 & H2 & H3 & H4 & H5) _ (I1 & I2 & I3 & I4 & I5)]; [done|].
  setoid_rewrite cnt_cons. rewrite H1, H2, H3, H4, I1, I2, I3, I4. repeat split; try done.
  intros e. by rewrite H5, I5.
Qed.

(** A step that touches session [p] alone keeps the invariant of the others. *)
Lemma inv_local σ ts i t σ' t' new p :
  inv σ ts -> ts !! i = Some t ->
  (forall q, q <> p -> sv_heap σ' !! q = sv_heap σ !! q) ->
  (forall q s, q <> p -> sv_heap σ !! q = Some s ->
     (sv_sessions σ' !! s_id s = Some q <-> sv_sessions σ !! s_id s = Some q)) ->
  (forall q, q <> p -> silent q t /\ silent q t' /\ Forall (silent q) new) ->
  (forall s, sv_heap σ' !! p = Some s ->
     session_inv (sv_sessions σ') (<[i := t']> ts ++ new) p s) ->
  (forall sid q, sv_sessions σ' !! sid = Some q ->
     exists s, sv_heap σ' !! q = Some s /\ s_id s = sid) ->
  (length (sv_heap σ) <= length (sv_heap σ'))%nat ->
  (forall q, q ∈ thread_target t' \/ q ∈ mjoin (thread_target <$> new) ->
     (q < length (sv_heap σ'))%nat) ->
  inv σ' (<[i := t']> ts ++ new).
Proof.
  intros [Hs Hm Ht] Hi Hh Hmm Hsil Hp Hmap Hlen Htgt. split.
  - intros q s Hq. destruct (decide (q = p)) as [->|Hne]; [by apply Hp|].
    rewrite Hh in Hq by done. destruct (Hsil q Hne)
      as ((A1 & A2 & A3 & A4 & A5) & (B1 & B2 & B3 & B4 & B5) & Hn).
    apply cnt_silent in Hn as (N1 & N2 & N3 & N4 & N5).
    apply (session_inv_counts (sv_sessions σ) _ ts); [by apply Hs | by apply Hmm | | | | |].
    + pose proof (cnt_step (closing q) ts i t t' new Hi) as H. rewrite A1, B1, N1 in H. cbn in H. lia.
    + pose proof (cnt_step (dropping q) ts i t t' new Hi) as H. rewrite A2, B2, N2 in H. cbn in H. lia.
    + pose proof (cnt_step (finishing q) ts i t t' new Hi) as H. rewrite A3, B3, N3 in H. cbn in H. lia.
    + pose proof (cnt_step (pending q) ts i t t' new Hi) as H. rewrite A4, B4, N4 in H. cbn in H. lia.
    + intros e _. pose proof (cnt_step (serves q e) ts i t t' new Hi) as H.
      rewrite A5, B5, N5 in H. cbn in H. lia.
  - done.
  - intros u q Hu Hq. apply elem_of_app in Hu as [Hu|Hu].
    + apply list_elem_of_lookup in Hu as [j Hj].
      destruct (decide (i = j)) as [->|Hij].
      * rewrite list_lookup_insert_eq in Hj by (by eapply lookup_lt_Some).
        injection Hj as <-. apply Htgt. by left.
      * rewrite list_lookup_insert_ne in Hj by done.
        enough (q < length (sv_heap σ))%nat by lia. eapply Ht; [|done].
        apply list_elem_of_lookup. eauto.
    + apply Htgt. right. apply list_elem_of_join. exists (thread_target u). split; [done|].
      by apply list_elem_of_fmap_2.
Qed.

Ltac silent_tac :=
  unfold silent; cbn;
  repeat match goal with
  | |- context[(?a =? ?b)%nat] => destruct (Nat.eqb_spec a b); [congruence|]
  end; cbn; auto.

(** A step that moves a thread without changing the sessions. *)
Lemma inv_pc σ ts i t σ' t' p :
  inv σ ts -> ts !! i = Some t ->
  sv_heap σ' = sv_heap σ -> sv_sessions σ' = sv_sessions σ ->
  (forall q, q <> p -> silent q t /\ silent q t') ->
  closing p t = false -> dropping p t = false ->
  closing p t' = false -> dropping p t' = false -> finishing p t' = false ->
  (forall s, sv_heap σ !! p = Some s -> s_terminated s = false ->
     (b2n (pending p t) <= b2n (pending p t'))%nat) ->
  (forall e, (b2n (serves p e t) <= b2n (serves p e t'))%nat) ->
  (forall q, q ∈ thread_target t' -> (q < length (sv_heap σ))%nat) ->
  inv σ' (<[i := t']> ts ++ []).
Proof.
  intros Hinv Hi Hh Hm Hsil C1 C2 C1' C2' C3' Hp Hse Ht. pose proof Hinv as [Hs Hmap _].
  apply (inv_local σ ts i t σ' t' [] p); rewrite ?Hh, ?Hm; try done.
  - intros q Hq. destruct (Hsil q Hq). auto.
  - intros s E. destruct (Hs p s E) as [I1 I2 I3 I4].
    pose proof (cnt_step (closing p) _ _ _ t' [] Hi) as Ccl.
    pose proof (cnt_step (dropping p) _ _ _ t' [] Hi) as Cdr.
    pose proof (cnt_step (pending p) _ _ _ t' [] Hi) as Cpe.
    pose proof (cnt_step (finishing p) _ _ _ t' [] Hi) as Cfi.
    rewrite C1, C1' in Ccl. rewrite C2, C2' in Cdr. rewrite C3' in Cfi. cbn in Ccl, Cdr, Cpe, Cfi.
    assert (cnt (closing p) (<[i := t']> ts ++ []) = cnt (closing p) ts) as Ecl by lia.
    assert (cnt (dropping p) (<[i := t']> ts ++ []) = cnt (dropping p) ts) as Edr by lia.
    split; [done| |rewrite Ecl, Edr|rewrite Ecl, Edr; done].
    + intros e He. pose proof (cnt_step (serves p e) _ _ _ t' [] Hi) as Cse. cbn in Cse.
      specialize (I2 e He). specialize (Hse e). lia.
    + intros Hl. specialize (Hp s E Hl). destruct (I3 Hl) as (? & ? & ? & ? & ? & D).
      repeat split; try done; [lia|]. destruct D; [by left | right; lia].
  - intros q [Hq|Hq]; [auto | by apply not_elem_of_nil in Hq].
Qed.

(** The session a running thread points to exists. *)
Lemma target_session σ ts i t p :
  inv σ ts -> ts !! i = Some t -> p ∈ thread_target t -> (p < length (sv_heap σ))%nat.
Proof. intros [_ _ H] Hi Hp. eapply H; [|done]. apply list_elem_of_lookup. eauto. Qed.

Lemma heap_update_ne σ p s q : q <> p -> sv_heap (update σ p s) !! q = sv_heap σ !! q.
Proof. intros H. cbn. by rewrite list_lookup_insert_ne. Qed.

(** A step that moves a thread and rewrites session [p], keeping its id. *)
Lemma inv_session σ ts i t σ' t' p s s' :
  inv σ ts -> ts !! i = Some t -> sv_heap σ !! p = Some s ->
  sv_heap σ' = <[p := s']> (sv_heap σ) -> sv_sessions σ' = sv_sessions σ ->
  s_id s' = s_id s ->
  (forall q, q <> p -> silent q t /\ silent q t') ->
  session_inv (sv_sessions σ) (<[i := t']> ts ++ []) p s' ->
  (forall q, q ∈ thread_target t' -> (q < length (sv_heap σ))%nat) ->
  inv σ' (<[i := t']> ts ++ []).
Proof.
  intros Hinv Hi Hp Hh Hm Hid Hsil Hs' Ht. pose proof Hinv as [Hs Hmap _].
  pose proof (lookup_lt_Some _ _ _ Hp) as Hlt.
  apply (inv_local σ ts i t σ' t' [] p); rewrite ?Hh, ?Hm, ?length_insert; try done.
  - intros q Hq. by rewrite list_lookup_insert_ne.
  - intros q Hq. destruct (Hsil q Hq). auto.
  - intros u Hu. rewrite list_lookup_insert_eq in Hu by done. by injection Hu as <-.
  - intros sid q Hq. destruct (Hmap _ _ Hq) as (u & Hu & Huid).
    destruct (decide (q = p)) as [->|Hne].
    + rewrite list_lookup_insert_eq by done. exists s'. split; [done|]. congruence.
    + rewrite list_lookup_insert_ne by done. eauto.
  - intros q [Hq|Hq]; [auto | by apply not_elem_of_nil in Hq].
Qed.

Lemma serves_self p i c e :
  e = mkStream i c -> ((p =? p)%nat && Byte.eqb i (se_id e) && (c =? se_conn e)%nat)%bool = true.
Proof. intros ->. cbn. by rewrite Nat.eqb_refl, byte_eqb_refl, Nat.eqb_refl. Qed.

Lemma serves_true p i c e :
  ((p =? p)%nat && Byte.eqb i (se_id e) && (c =? se_conn e)%nat)%bool = true -> e = mkStream i c.
Proof.
  intros H. bprop. apply byte_eqb_eq in H1. destruct e; cbn in *; congruence.
Qed.

Section Steps.
Context (σ : server) (ts : list thread) (i : nat).
Hypothesis Hinv : inv σ ts.

(** A handler that finds its session in the map, or creates it. *)
Lemma accept_inv sid id conn o σ1 p fresh :
  ts !! i = Some (TAccept sid id conn) ->
  getOrCreateSession σ sid o = (σ1, Some (p, fresh)) ->
  inv σ1 (<[i := TGot p id conn]> ts ++ (if fresh : bool then [TBackend p] else [])).
Proof.
  intros Hi H. pose proof Hinv as [Hs Hmap Htg]. unfold getOrCreateSession in H.
  destruct (sv_sessions σ !! sid) as [q|] eqn:Esid.
  - injection H as <- <- <-. destruct (Hmap _ _ Esid) as (s & Hq & Hid).
    apply (inv_pc σ ts i (TAccept sid id conn) σ (TGot q id conn) q); try done.
    + intros q' Hne. split; silent_tac.
    + cbn. intros. lia.
    + cbn. intros q' Hq'. apply list_elem_of_singleton in Hq' as ->. by eapply lookup_lt_Some.
  - destruct o; try done. injection H as <- <- <-.
    assert (forall u q, sv_heap σ !! u = Some q -> u <> length (sv_heap σ)) as Hfresh.
    { intros u q Hu ->. apply lookup_lt_Some in Hu. lia. }
    assert (forall f, (forall t, f t = true -> length (sv_heap σ) ∈ thread_target t) ->
      cnt f ts = O) as Hzero.
    { intros f Hf. destruct (cnt f ts) as [|n] eqn:E; [done|]. exfalso. unfold cnt in E.
      destruct (List.filter f ts) as [|u us] eqn:EF; [done|].
      assert (In u (List.filter f ts)) as [Hin Hfu]%filter_In by (rewrite EF; by left).
      apply list_elem_of_In in Hin. specialize (Htg u _ Hin (Hf u Hfu)). lia. }
    assert (forall f t, (forall p, p ∉ thread_target t -> f p t = false) ->
      f (length (sv_heap σ)) t = true -> length (sv_heap σ) ∈ thread_target t) as Hcon.
    { intros f t Hf Ht. destruct (decide (length (sv_heap σ) ∈ thread_target t)); [done|].
      rewrite Hf in Ht by done. done. }
    apply (inv_local σ ts i (TAccept sid id conn) _ _ _ (length (sv_heap σ))); cbn; try done.
    + intros q Hne. destruct (decide (q < length (sv_heap σ))%nat).
      * by rewrite lookup_app_l.
      * rewrite !lookup_ge_None_2; [done | lia | rewrite length_app; cbn; lia].
    + intros q s Hne Hq. rewrite lookup_insert. case_decide as Hd; [|done].
      subst sid. rewrite Esid. split; congruence.
    + intros q Hne. split; [silent_tac|]. split; [silent_tac|]. constructor; [silent_tac | done].
    + intros s Hp. rewrite lookup_app_r, Nat.sub_diag in Hp by done. injection Hp as <-.
      set (p0 := length (sv_heap σ)) in *.
      assert (forall t, p0 ∉ thread_target t -> closing p0 t = false /\ dropping p0 t = false)
        as HT by (intros t Ht; destruct (not_target_counts p0 t Ht) as (? & ? & _); auto).
      pose proof (cnt_step (finishing p0) ts i _ (TGot p0 id conn) [TBackend p0] Hi) as Cfi.
      pose proof (cnt_step (closing p0) ts i _ (TGot p0 id conn) [TBackend p0] Hi) as Ccl.
      pose proof (cnt_step (dropping p0) ts i _ (TGot p0 id conn) [TBackend p0] Hi) as Cdr.
      pose proof (cnt_step (pending p0) ts i _ (TGot p0 id conn) [TBackend p0] Hi) as Cpe.
      cbn in Ccl, Cdr, Cpe, Cfi. rewrite Nat.eqb_refl in Cpe. cbn in Cpe.
      rewrite Hzero in Ccl by (intros t Ht; apply (Hcon closing); [|done];
        intros q Hq; by destruct (not_target_counts q t Hq) as (? & _)).
      rewrite Hzero in Cdr by (intros t Ht; apply (Hcon dropping); [|done];
        intros q Hq; by destruct (not_target_counts q t Hq) as (_ & ? & _)).
      rewrite Hzero in Cfi by (intros t Ht; apply (Hcon finishing); [|done];
        intros q Hq; by destruct (not_target_counts q t Hq) as (_ & _ & ? & _)).
      split; cbn; try done; [constructor | intros e He; by apply not_elem_of_nil in He|].
      intros _. rewrite lookup_insert_eq. repeat split; try lia.
    + intros sid' q Hq. rewrite lookup_insert in Hq. case_decide as Hd.
      * injection Hq as <-. exists (newSession sid). rewrite lookup_app_r, Nat.sub_diag by done. done.
      * destruct (Hmap _ _ Hq) as (s & Hqs & Hid). exists s. split; [|done].
        rewrite lookup_app_l; [done|]. by eapply lookup_lt_Some.
    + rewrite length_app. cbn. lia.
    + intros q Hq. rewrite length_app; cbn. set_unfold in Hq.
      destruct Hq as [Hq|Hq]; naive_solver lia.
Qed.

(** Side conditions of [inv_pc] for a thread working on session [p]. *)
Ltac pc_step p :=
  eapply (inv_pc σ ts i _ _ _ p); [exact Hinv | eassumption | reflexivity | reflexivity
    | intros ? ?; split; silent_tac | try reflexivity | try reflexivity
    | try reflexivity | try reflexivity | try reflexivity
    | intros s0 Hs0 Hlive; cbn; rewrite ?Nat.eqb_refl; cbn; try lia; try congruence
    | intros e0; cbn; try lia
    | intros q0 Hq0; cbn in Hq0; first [ by apply not_elem_of_nil in Hq0
      | eapply target_session; [exact Hinv | eassumption | set_solver] ] ].

Lemma got_inv p id conn o σ' t' new :
  ts !! i = Some (TGot p id conn) -> handler_step σ (TGot p id conn) o = Some (σ', t', new) ->
  inv σ' (<[i := t']> ts ++ new).
Proof.
  intros Hi H. cbn in H. destruct (sv_heap σ !! p) as [s|] eqn:Hp; [cbn in H|done].
  destruct (s_terminated s) eqn:Et; injection H as <- <- <-; pc_step p.
Qed.

Lemma stream_inv p id conn o σ' t' new :
  ts !! i = Some (TStream p id conn) ->
  handler_step σ (TStream p id conn) o = Some (σ', t', new) ->
  inv σ' (<[i := t']> ts ++ new).
Proof.
  intros Hi H. cbn in H. destruct (sv_heap σ !! p) as [s|] eqn:Hp; [cbn in H|done].
  assert ((t' = TExit p id conn \/ t' = TTerm PCas p (KExit id conn) \/ t' = TStream p id conn)
    /\ σ' = σ /\ new = []) as ([->|[->| ->]] & -> & ->).
  { destruct o, (decide (conn ∈ sv_closed σ)), (s_backendCloses s);
      injection H as <- <- <-; tauto. }
  all: pc_step p.
Qed.

(** The insertion of [addStream]: the session may have been terminated
    meanwhile, but the new entry has its handler. *)
Lemma checked_inv p id conn o σ' t' new :
  ts !! i = Some (TChecked p id conn) ->
  handler_step σ (TChecked p id conn) o = Some (σ', t', new) ->
  inv σ' (<[i := t']> ts ++ new).
Proof.
  intros Hi H. cbn in H. destruct (sv_heap σ !! p) as [s|] eqn:Hp; [cbn in H|done].
  pose proof Hinv as [Hs _ _]. destruct (Hs p s Hp) as [I1 I2 I3 I4].
  pose proof (ids_insertStream s id conn I1) as Hids.
  pose proof (put_stream_new (s_streams s) id conn) as Hnew.
  unfold insertStream in *. destruct (put_stream _ id conn) as [l d] eqn:E. cbn in H, Hids, Hnew.
  injection H as <- <- <-. set (t' := match d with Some d => _ | None => _ end).
  assert (forall q, closing q t' = false /\ dropping q t' = false /\ finishing q t' = false)
    as Ht' by (intros q; unfold t'; by destruct d).
  assert (forall e, serves p e t' = ((p =? p)%nat && Byte.eqb id (se_id e) && (conn =? se_conn e)%nat)%bool)
    as Hse by (intros e; unfold t'; by destruct d).
  apply (inv_session σ ts i (TChecked p id conn) _ t' p s (set_streams s l)); try done.
  - intros q Hq. split; [silent_tac|]. unfold t'; destruct d; silent_tac.
  - pose proof (cnt_step (closing p) _ _ _ t' [] Hi) as Ccl.
    pose proof (cnt_step (dropping p) _ _ _ t' [] Hi) as Cdr.
    pose proof (cnt_step (finishing p) _ _ _ t' [] Hi) as Cfi.
    destruct (Ht' p) as (T1 & T2 & T3). rewrite T1 in Ccl. rewrite T2 in Cdr. rewrite T3 in Cfi.
    cbn in Ccl, Cdr, Cfi.
    assert (cnt (closing p) (<[i := t']> ts ++ []) = cnt (closing p) ts) as Ecl by lia.
    assert (cnt (dropping p) (<[i := t']> ts ++ []) = cnt (dropping p) ts) as Edr by lia.
    split; cbn; [done| |rewrite Ecl, Edr|rewrite Ecl, Edr; done].
    + intros e He. pose proof (cnt_step (serves p e) _ _ _ t' [] Hi) as Cse.
      rewrite Hse in Cse. cbn in Cse.
      destruct (put_stream_elem _ _ _ _ _ e E He) as [He'|He'].
      * rewrite (serves_self p id conn e He') in Cse. cbn in Cse. lia.
      * specialize (I2 e He'). lia.
    + intros Hl. destruct (I3 Hl) as (? & ? & ? & ? & ? & _). repeat split; try done; [lia|].
      left. intros ->. by apply not_elem_of_nil in Hnew.
  - intros q Hq. eapply target_session; [exact Hinv | exact Hi|].
    unfold t' in Hq; destruct d; exact Hq.
Qed.

Lemma remove_inv p id conn o σ' t' new :
  ts !! i = Some (TRemove p id conn) ->
  handler_step σ (TRemove p id conn) o = Some (σ', t', new) ->
  inv σ' (<[i := t']> ts ++ new).
Proof.
  intros Hi H. cbn in H. destruct (sv_heap σ !! p) as [s|] eqn:Hp; [cbn in H|done].
  pose proof Hinv as [Hs _ _]. destruct (Hs p s Hp) as [I1 I2 I3 I4].
  pose proof (ids_removeStream s id conn I1) as Hids. cbn in Hids.
  pose proof (del_stream_notin (s_streams s) id conn I1) as Hnot.
  set (l := del_stream (s_streams s) id conn) in *.
  injection H as <- <- <-. set (t' := if match l with [] => true | _ => false end then _ else _).
  assert (forall q, closing q t' = false /\ dropping q t' = false /\ finishing q t' = false)
    as Ht' by (intros q; unfold t'; by destruct l).
  assert (pending p t' = match l with [] => true | _ => false end) as Hpe
    by (unfold t'; destruct l; cbn; rewrite ?Nat.eqb_refl; done).
  apply (inv_session σ ts i (TRemove p id conn) _ t' p s (set_streams s l)); try done.
  - intros q Hq. split; [silent_tac|]. unfold t'; destruct l; silent_tac.
  - pose proof (cnt_step (closing p) _ _ _ t' [] Hi) as Ccl.
    pose proof (cnt_step (dropping p) _ _ _ t' [] Hi) as Cdr.
    pose proof (cnt_step (finishing p) _ _ _ t' [] Hi) as Cfi.
    pose proof (cnt_step (pending p) _ _ _ t' [] Hi) as Cpe.
    destruct (Ht' p) as (T1 & T2 & T3). rewrite T1 in Ccl. rewrite T2 in Cdr. rewrite T3 in Cfi.
    rewrite Hpe in Cpe. cbn in Ccl, Cdr, Cfi, Cpe.
    assert (cnt (closing p) (<[i := t']> ts ++ []) = cnt (closing p) ts) as Ecl by lia.
    assert (cnt (dropping p) (<[i := t']> ts ++ []) = cnt (dropping p) ts) as Edr by lia.
    split; cbn; [done| |rewrite Ecl, Edr|rewrite Ecl, Edr; done].
    + intros e He. pose proof (cnt_step (serves p e) _ _ _ t' [] Hi) as Cse. cbn in Cse.
      assert (e ∈ s_streams s) as He'.
      { eapply elem_of_sublist; [exact He | apply del_stream_sublist]. }
      specialize (I2 e He').
      destruct (((p =? p)%nat && Byte.eqb id (se_id e) && (conn =? se_conn e)%nat)%bool) eqn:Es.
      * apply serves_true in Es as ->. done.
      * cbn in Cse. lia.
    + intros Hl. destruct (I3 Hl) as (? & ? & ? & ? & ? & _). repeat split; try done; [lia|].
      destruct l; [right; cbn in Cpe; lia | by left].
  - intros q Hq. eapply target_session; [exact Hinv | exact Hi|].
    unfold t' in Hq; destruct l; [exact Hq | by apply not_elem_of_nil in Hq].
Qed.

Lemma handler_inv t o σ' t' new :
  ts !! i = Some t -> handler_step σ t o = Some (σ', t', new) -> inv σ' (<[i := t']> ts ++ new).
Proof.
  intros Hi H. destruct t as [|r conn|sid id conn|p id conn|p id conn|p id conn d|p id conn
    |p id conn|p id conn|p|ph p k| | | |l| |]; try done.
  - cbn [handler_step] in H. destruct (ReadHandshake r) as [r' [[sid id]|e]];
      injection H as <- <- <-; pc_step O.
  - cbn [handler_step] in H.
    destruct (getOrCreateSession σ sid o) as [σ1 [[p fresh]|]] eqn:E; injection H as <- <- <-.
    + by eapply accept_inv.
    + assert (σ1 = σ) as ->.
      { unfold getOrCreateSession in E. destruct (sv_sessions σ !! sid); [done|].
        destruct o; congruence. }
      pc_step O.
  - by eapply got_inv.
  - by eapply checked_inv.
  - injection H as <- <- <-. pc_step p.
  - by eapply stream_inv.
  - injection H as <- <- <-. pc_step p.
  - by eapply remove_inv.
Qed.

Lemma backend_inv p o σ' t' :
  ts !! i = Some (TBackend p) -> backend_step σ p o = Some (σ', t') ->
  inv σ' (<[i := t']> ts ++ []).
Proof.
  intros Hi H. unfold backend_step in H.
  destruct (sv_heap σ !! p) as [s|] eqn:Hp; [cbn [mbind option_bind] in H|done].
  pose proof Hinv as [Hs _ _].
  assert ((σ' = σ /\ t' = TTerm PCas p KDone) \/
    (σ' = update σ p (fst (dispatch s [])) /\ t' = TBackend p)) as [[-> ->]|[-> ->]].
  { destruct o; [destruct (backend_closed s)| |]; injection H as <- <-; auto. }
  - pc_step p.
  - assert (exists n, fst (dispatch s []) = mkSession (s_id s) (s_streams s) n (s_terminated s)
      (s_cancelled s) (s_backendCloses s)) as [n En].
    { unfold dispatch. destruct (snapshotStreams s); [|by eexists].
      exists (s_rrCounter s). by destruct s. }
    rewrite En.
    eapply (inv_session σ ts i (TBackend p) _ (TBackend p) p s); [done|done|done|reflexivity..| | |].
    + intros q Hq. split; silent_tac.
    + apply (session_inv_counts (sv_sessions σ) (sv_sessions σ) ts); try done.
      * destruct (Hs p s Hp). by split.
      * pose proof (cnt_step (closing p) _ _ _ (TBackend p) [] Hi). cbn in *. lia.
      * pose proof (cnt_step (dropping p) _ _ _ (TBackend p) [] Hi). cbn in *. lia.
      * pose proof (cnt_step (finishing p) _ _ _ (TBackend p) [] Hi). cbn in *. lia.
      * pose proof (cnt_step (pending p) _ _ _ (TBackend p) [] Hi). cbn in *. lia.
      * intros e _. pose proof (cnt_step (serves p e) _ _ _ (TBackend p) [] Hi). cbn in *. lia.
    + intros q Hq. eapply target_session; [exact Hinv | exact Hi | exact Hq].
Qed.

(** A thread past the compare-and-swap of [terminate] finds its session
    terminated, and in the state its phase says. *)
Lemma term_phase ph p k s :
  ts !! i = Some (TTerm ph p k) -> sv_heap σ !! p = Some s -> ph <> PCas ->
  s_terminated s = true.
Proof.
  intros Hi Hp Hph. pose proof Hinv as [Hs _ _]. destruct (Hs p s Hp) as [_ _ I3 _].
  destruct (s_terminated s); [done|]. exfalso.
  destruct (I3 eq_refl) as (_ & _ & C1 & C2 & C3 & _).
  assert (TTerm ph p k ∈ ts) as Hin by (apply list_elem_of_lookup; eauto).
  destruct ph; [done| | |].
  - pose proof (cnt_pos (closing p) ts _ Hin (Nat.eqb_refl p)). lia.
  - pose proof (cnt_pos (dropping p) ts _ Hin (Nat.eqb_refl p)). lia.
  - pose proof (cnt_pos (finishing p) ts _ Hin (Nat.eqb_refl p)). lia.
Qed.

Lemma resume_counts p k q :
  closing q (resume p k) = false /\ dropping q (resume p k) = false /\
  finishing q (resume p k) = false /\ pending q (resume p k) = false.
Proof. by destruct k. Qed.

Lemma resume_serves ph p k q e : serves q e (resume p k) = serves q e (TTerm ph p k).
Proof. by destruct k. Qed.

Lemma resume_target ph p k q :
  q ∈ thread_target (resume p k) -> q ∈ thread_target (TTerm ph p k).
Proof. destruct k; cbn; set_solver. Qed.

Lemma serves_phase ph ph' p k q e : serves q e (TTerm ph p k) = serves q e (TTerm ph' p k).
Proof. done. Qed.

Lemma silent_term ph p k q : q <> p -> silent q (TTerm ph p k) /\ silent q (resume p k).
Proof. intros Hq. split; destruct ph, k; silent_tac. Qed.

(** Moving a thread from one phase of [terminate] to what follows it, with
    the session's other counts known. *)
Lemma term_inv ph p k s σ' t' :
  ts !! i = Some (TTerm ph p k) -> sv_heap σ !! p = Some s ->
  terminate_step σ ph p k s = (σ', t') -> ph <> PRemove ->
  inv σ' (<[i := t']> ts ++ []).
Proof.
  intros Hi Hp H Hph. pose proof Hinv as [Hs _ _]. destruct (Hs p s Hp) as [I1 I2 I3 I4].
  pose proof (cnt_step (closing p) _ _ _ t' [] Hi) as Ccl.
  pose proof (cnt_step (dropping p) _ _ _ t' [] Hi) as Cdr.
  pose proof (cnt_step (finishing p) _ _ _ t' [] Hi) as Cfi.
  pose proof (cnt_step (pending p) _ _ _ t' [] Hi) as Cpe.
  pose proof (fun e => cnt_step (serves p e) _ _ _ t' [] Hi) as Cse.
  assert (forall q, q ∈ thread_target (TTerm ph p k) -> (q < length (sv_heap σ))%nat) as Htgt
    by (intros q; by eapply target_session).
  destruct (resume_counts p k p) as (R1 & R2 & R3 & R4).
  destruct ph; [destruct (s_terminated s) eqn:Et| |done|]; cbn [terminate_step] in H.
  - rewrite Et in H. injection H as <- <-.
    eapply (inv_pc σ ts i _ σ (resume p k) p); try done.
    + intros q Hq. by apply silent_term.
    + intros s0 Hs0. congruence.
    + intros e. by rewrite (resume_serves PCas).
    + intros q Hq. apply Htgt. by apply resume_target.
  - rewrite Et in H. injection H as <- <-.
    eapply (inv_session σ ts i _ _ _ p s (term_cas s)); try done.
    + intros q Hq. split; by apply silent_term.
    + destruct (I3 eq_refl) as (M & B & C1 & C2 & C3 & _). cbn in Ccl, Cdr. rewrite Nat.eqb_refl in Ccl.
      cbn in Ccl. split; cbn; try done.
      * intros e He. specialize (I2 e He). specialize (Cse e).
        rewrite (serves_phase PClose PCas) in Cse. lia.
      * intros _. left. repeat split; try done; lia.
  - pose proof (term_phase _ _ _ _ Hi Hp ltac:(done)) as Et. injection H as <- <-.
    eapply (inv_session σ ts i _ _ _ p s (term_close s)); try done.
    + intros q Hq. split; by apply silent_term.
    + cbn in Ccl, Cdr. rewrite Nat.eqb_refl in Ccl, Cdr. cbn in Ccl, Cdr.
      split; cbn; try done.
      * intros e He. specialize (I2 e He). specialize (Cse e).
        rewrite (serves_phase PRemove PClose) in Cse. lia.
      * congruence.
      * intros _. right; left. destruct (I4 Et) as [(?&?&?&?)|[(?&?&?&?)|(?&?&?&?)]]; try lia.
        repeat split; try done; lia.
  - pose proof (term_phase _ _ _ _ Hi Hp ltac:(done)) as Et. injection H as <- <-.
    eapply (inv_session σ ts i _ _ _ p s (set_streams s [])); try done.
    + intros q Hq. split; by apply (silent_term PStreams).
    + rewrite R1 in Ccl. rewrite R2 in Cdr. cbn in Ccl, Cdr. split; cbn.
      * constructor.
      * intros e He. by apply not_elem_of_nil in He.
      * congruence.
      * intros _. replace (cnt (closing p) (<[i := resume p k]> ts ++ [])) with (cnt (closing p) ts) by lia.
        replace (cnt (dropping p) (<[i := resume p k]> ts ++ [])) with (cnt (dropping p) ts) by lia.
        auto.
    + intros q Hq. apply Htgt. by apply resume_target.
Qed.

(** [onTerminate] deletes the map entry of the session's id; the entry is
    that session's own. *)
Lemma drop_inv p k s :
  ts !! i = Some (TTerm PRemove p k) -> sv_heap σ !! p = Some s ->
  inv (removeSession σ (s_id s)) (<[i := TTerm PStreams p k]> ts ++ []).
Proof.
  intros Hi Hp. pose proof Hinv as [Hs Hmap _]. destruct (Hs p s Hp) as [I1 I2 I3 I4].
  pose proof (term_phase _ _ _ _ Hi Hp ltac:(done)) as Et.
  pose proof (cnt_step (closing p) _ _ _ (TTerm PStreams p k) [] Hi) as Ccl.
  pose proof (cnt_step (dropping p) _ _ _ (TTerm PStreams p k) [] Hi) as Cdr.
  pose proof (fun e => cnt_step (serves p e) _ _ _ (TTerm PStreams p k) [] Hi) as Cse.
  cbn in Ccl, Cdr. rewrite Nat.eqb_refl in Cdr. cbn in Cdr.
  assert (sv_sessions σ !! s_id s = Some p /\ s_backendCloses s = 1%nat /\
    cnt (closing p) ts = O /\ cnt (dropping p) ts = 1%nat) as (Em & Eb & Ec & Ed).
  { destruct (I4 Et) as [(?&?&?&?)|[(?&?&?&?)|(?&?&?&?)]]; try lia. auto. }
  apply (inv_local σ ts i _ _ _ [] p Hinv Hi); cbn; try done.
  - intros q u Hq Hu. rewrite lookup_delete. case_decide as E; [|done].
    rewrite <-E, Em. split; congruence.
  - intros q Hq. split; [|split; [|done]]; by apply silent_term.
  - intros u Hu. replace u with s in * by congruence. split; try done.
    + intros e He. specialize (I2 e He). specialize (Cse e).
      rewrite (serves_phase PStreams PRemove) in Cse. lia.
    + congruence.
    + intros _. right; right. rewrite lookup_delete_eq. repeat split; try done; lia.
  - intros sid q Hq. apply lookup_delete_Some in Hq as [_ Hq]. eauto.
  - intros q [Hq|Hq]; [|by apply not_elem_of_nil in Hq]. by eapply target_session.
Qed.

Lemma stop_inv t σ' t' :
  ts !! i = Some t -> stop_step σ t = Some (σ', t') -> inv σ' (<[i := t']> ts ++ []).
Proof.
  intros Hi H. pose proof Hinv as [Hs Hmap _].
  destruct t as [| | | | | | | | | | | | | |[|p l]| |]; cbn in H; try done.
  - destruct (sv_state σ); injection H as <- <-; pc_step O.
  - injection H as <- <-. pc_step O.
  - injection H as <- <-. apply (inv_pc σ ts i TSnapshot σ _ O); try done.
    intros q Hq. cbn in Hq. apply list_elem_of_fmap in Hq as ([sid q'] & -> & Hq).
    apply elem_of_map_to_list in Hq. destruct (Hmap _ _ Hq) as (s & Hlk & _).
    by eapply lookup_lt_Some.
  - injection H as <- <-. pc_step O.
  - injection H as <- <-. pc_step p.
Qed.

Lemma tstep_inv t o σ' t' new :
  ts !! i = Some t -> tstep σ t o = Some (σ', t', new) -> inv σ' (<[i := t']> ts ++ new).
Proof.
  intros Hi H. destruct t as [|r conn|sid id conn|p id conn|p id conn|p id conn d|p id conn
    |p id conn|p id conn|p|ph p k| | | |l| |];
    cbn [tstep] in H; try done; try exact (handler_inv _ _ _ _ _ Hi H).
  - destruct o; try done. injection H as <- <- <-. pc_step O.
  - destruct (backend_step σ p o) as [[σ1 t1]|] eqn:E; [|done]. injection H as <- <- <-.
    by eapply backend_inv.
  - destruct (sv_heap σ !! p) as [s|] eqn:Hp; [|done]. cbn [mbind option_bind] in H.
    destruct (terminate_step σ ph p k s) as [σ1 t1] eqn:E. injection H as <- <- <-.
    destruct (decide (ph = PRemove)) as [->|Hne]; [|by eapply term_inv].
    injection E as <- <-. by apply drop_inv.
  - destruct (stop_step σ TStop) as [[σ1 t1]|] eqn:E; [|done]. injection H as <- <- <-.
    by eapply stop_inv.
  - destruct (stop_step σ TCancel) as [[σ1 t1]|] eqn:E; [|done]. injection H as <- <- <-.
    by eapply stop_inv.
  - destruct (stop_step σ TSnapshot) as [[σ1 t1]|] eqn:E; [|done]. injection H as <- <- <-.
    by eapply stop_inv.
  - destruct (stop_step σ (TStopping l)) as [[σ1 t1]|] eqn:E; [|done]. injection H as <- <- <-.
    by eapply stop_inv.
Qed.
End Steps.

(** ** The invariant over the pool *)

Lemma inv_spawn σ ts σ' new :
  inv σ ts -> sv_heap σ' = sv_heap σ -> sv_sessions σ' = sv_sessions σ ->
  (forall q, Forall (silent q) new) -> mjoin (thread_target <$> new) = [] ->
  inv σ' (ts ++ new).
Proof.
  intros [Hs Hm Ht] Eh Em Hsil Htgt. split; rewrite ?Eh, ?Em.
  - intros p s Hp. destruct (cnt_silent p new (Hsil p)) as (N1 & N2 & N3 & N4 & N5).
    apply (session_inv_counts (sv_sessions σ) _ ts); [by apply Hs | done | | | | |];
      intros; rewrite cnt_app, ?N1, ?N2, ?N3, ?N4, ?N5; lia.
  - done.
  - intros t p Hin Hp. apply elem_of_app in Hin as [Hin|Hin]; [by eapply Ht|].
    assert (p ∈ mjoin (thread_target <$> new)) as Hj.
    { apply list_elem_of_join. exists (thread_target t). split; [done|].
      by apply list_elem_of_fmap_2. }
    rewrite Htgt in Hj. by apply not_elem_of_nil in Hj.
Qed.

Lemma step_inv c c' : step c c' -> inv c.1 c.2 -> inv c'.1 c'.2.
Proof.
  intros Hstep Hinv.
  destruct Hstep as [σ ts i t o σ' t' new Hi H|σ ts r l σ' err new H|σ ts r Hl Hls|σ ts|σ ts|σ ts i Hi Hq];
    cbn in *.
  - by eapply tstep_inv.
  - unfold Start in H. destruct (sv_state σ), r, l; cbn in H; injection H as <- <- <-;
      apply (inv_spawn σ); try done; intros q; repeat constructor; silent_tac.
  - apply (inv_spawn σ); try done. intros q. repeat constructor; silent_tac.
  - destruct Hinv. by split.
  - apply (inv_spawn σ); try done. intros q. repeat constructor; silent_tac.
  - rewrite <-(app_nil_r (<[i:=TDone]> ts)).
    apply (inv_pc σ ts i TWait σ TDone O); try done.
    intros q H0. by apply not_elem_of_nil in H0.
Qed.

Lemma reach_inv σ ts : reach (σ, ts) -> inv σ ts.
Proof.
  intros H. change (inv (σ, ts).1 (σ, ts).2).
  apply (rtc_ind_r (R := step) (fun c => inv c.1 c.2) (new_server, [])); [| |exact H].
  - split; cbn; [done | done |]. intros t p Ht. by apply not_elem_of_nil in Ht.
  - intros c c' _ Hs Hi. by eapply step_inv.
Qed.

(** ** Connections and callers of [Stop] *)

(** The handler of connection [c]; a handler that may still have to close it;
    a running [Stop]. *)
Definition owns (c : nat) (t : thread) : bool :=
  match t with
  | TConn _ d | TAccept _ _ d | TGot _ _ d | TChecked _ _ d | TEvict _ _ d _
  | TStream _ _ d | TExit _ _ d | TRemove _ _ d | TTerm _ _ (KExit _ d) => (d =? c)%nat
  | _ => false
  end.
Definition holds (c : nat) (t : thread) : bool :=
  match t with TRemove _ _ _ => false | _ => owns c t end.
Definition stopper (t : thread) : bool :=
  match t with
  | TCancel | TSnapshot | TStopping _ | TWait | TTerm _ _ (KStop _) => true
  | _ => false
  end.

Record pool_inv (σ : server) (ts : list thread) : Prop := {
  pi_owner : forall c, (cnt (owns c) ts <= 1)%nat;
  pi_fresh : forall c, (sv_accepted σ <= c)%nat -> cnt (owns c) ts = O;
  pi_held : forall c, (c < sv_accepted σ)%nat -> c ∈ sv_closed σ \/ (1 <= cnt (holds c) ts)%nat;
  pi_stop : (cnt stopper ts + match sv_state σ with StateStopped => 0 | _ => 1 end <= 1)%nat }.

Lemma close_conns_in σ cs c : c ∈ cs -> c ∈ sv_closed (close_conns σ cs).
Proof. cbn. set_solver. Qed.

Lemma close_conns_mono σ cs : sv_closed σ ⊆ sv_closed (close_conns σ cs).
Proof. apply union_subseteq_r. Qed.

(** How a step of a thread treats connections and running [Stop]s. *)
Definition pool_step (σ : server) (t : thread) (σ' : server) (t' : thread) : Prop :=
  sv_accepted σ' = sv_accepted σ /\ sv_closed σ ⊆ sv_closed σ' /\
  (forall c, (b2n (owns c t') <= b2n (owns c t))%nat) /\
  (forall c, holds c t = true -> holds c t' = true \/ c ∈ sv_closed σ') /\
  (b2n (stopper t') + match sv_state σ' with StateStopped => 0 | _ => 1 end <=
   b2n (stopper t) + match sv_state σ with StateStopped => 0 | _ => 1 end)%nat.

Ltac pool_tac :=
  unfold pool_step; split_and!;
  [ reflexivity
  | first [reflexivity | apply close_conns_mono]
  | intros ?c; cbn; lia
  | intros ?c ?Hc; first [ left; exact Hc | cbn in Hc; bprop; subst; right;
      first [ apply close_conns_in; by left | discriminate Hc ] ]
  | cbn; lia ].

Lemma terminate_pool σ ph p k s σ' t' :
  terminate_step σ ph p k s = (σ', t') -> pool_step σ (TTerm ph p k) σ' t'.
Proof.
  destruct ph; cbn [terminate_step term_streams]; [destruct (s_terminated s)| | |];
    intros [= <- <-]; destruct k; try pool_tac;
    (unfold pool_step; split_and!; [reflexivity | apply (close_conns_mono (update σ p _))
      | intros c; cbn; lia | intros c Hc; by left | cbn; lia]).
Qed.

Lemma stop_pool σ t σ' t' : stop_step σ t = Some (σ', t') -> pool_step σ t σ' t'.
Proof.
  intros H. destruct t as [| | | | | | | | | | | | | |[|]| |]; try done; cbn in H;
    [destruct (sv_state σ) eqn:E| | | |]; injection H as <- <-; try pool_tac;
    unfold pool_step; split_and!; try done; cbn; rewrite E; lia.
Qed.

Lemma handler_pool σ t o σ' t' new :
  handler_step σ t o = Some (σ', t', new) ->
  pool_step σ t σ' t' /\ (new = [] \/ exists p, new = [TBackend p]).
Proof.
  intros H. destruct t as [|r conn|sid id conn|p id conn|p id conn|p id conn d|p id conn
      |p id conn|p id conn|p|ph p k| | | |l| |]; try done; cbn [handler_step] in H;
    try (destruct (sv_heap σ !! p) as [s|] eqn:Hp; [cbn [mbind option_bind] in H|done]).
  - destruct (ReadHandshake r) as [r' [[sid id]|e]]; injection H as <- <- <-; (split; [pool_tac | auto]).
  - destruct (getOrCreateSession σ sid o) as [σ1 [[q fresh]|]] eqn:E; injection H as <- <- <-;
      unfold getOrCreateSession in E; destruct (sv_sessions σ !! sid), o; try discriminate E;
      injection E as <-; try subst q fresh; (split; [pool_tac | eauto]).
  - destruct (s_terminated s); injection H as <- <- <-; (split; [pool_tac | auto]).
  - destruct (insertStream s id conn) as [s1 [d|]]; injection H as <- <- <-; (split; [pool_tac | auto]).
  - injection H as <- <- <-. split; [pool_tac | auto].
  - destruct o, (decide (conn ∈ sv_closed σ)), (backend_closed s); injection H as <- <- <-;
      (split; [pool_tac | auto]).
  - injection H as <- <- <-. split; [pool_tac | auto].
  - destruct (removeStream s id conn) as [s1 [|]]; injection H as <- <- <-; (split; [pool_tac | auto]).
Qed.

Lemma tstep_pool σ t o σ' t' new :
  tstep σ t o = Some (σ', t', new) ->
  pool_step σ t σ' t' /\ (new = [] \/ exists p, new = [TBackend p]).
Proof.
  intros H. destruct t as [|r conn|sid id conn|p id conn|p id conn|p id conn d|p id conn
      |p id conn|p id conn|p|ph p k| | | |l| |]; cbn [tstep] in H; try done;
    try exact (handler_pool _ _ _ _ _ _ H).
  - destruct o; try done. injection H as <- <- <-. split; [pool_tac | auto].
  - unfold backend_step in H. destruct (sv_heap σ !! p) as [s|]; [cbn [mbind option_bind] in H|done].
    destruct o, (backend_closed s); cbn [mbind option_bind] in H; injection H as <- <- <-;
      (split; [pool_tac | auto]).
  - destruct (sv_heap σ !! p) as [s|]; [cbn [mbind option_bind] in H|done].
    destruct (terminate_step σ ph p k s) as [σ1 t1] eqn:E. injection H as <- <- <-.
    split; [by eapply terminate_pool | auto].
  - destruct (stop_step σ TStop) as [[]|] eqn:E; [|done]. injection H as <- <- <-.
    split; [by apply stop_pool | auto].
  - destruct (stop_step σ TCancel) as [[]|] eqn:E; [|done]. injection H as <- <- <-.
    split; [by apply stop_pool | auto].
  - destruct (stop_step σ TSnapshot) as [[]|] eqn:E; [|done]. injection H as <- <- <-.
    split; [by apply stop_pool | auto].
  - destruct (stop_step σ (TStopping l)) as [[]|] eqn:E; [|done]. injection H as <- <- <-.
    split; [by apply stop_pool | auto].
Qed.

Lemma holds_TDone c i t ts : ts !! i = Some t -> holds c t = false ->
  (cnt (holds c) ts <= cnt (holds c) (<[i := TDone]> ts))%nat.
Proof. intros Hi Ht. pose proof (cnt_insert (holds c) ts i t TDone Hi). rewrite Ht in *. cbn in *. lia. Qed.

Lemma step_pool_inv c c' : step c c' -> pool_inv c.1 c.2 -> pool_inv c'.1 c'.2.
Proof.
  intros Hstep [H1 H2 H3 H4].
  destruct Hstep as [σ ts i t o σ' t' new Hi H|σ ts r l σ' err new H|σ ts r Hl Hls|σ ts|σ ts|σ ts i Hi Hq];
    cbn [fst snd] in *.
  - destruct (tstep_pool _ _ _ _ _ _ H) as [(P1 & P2 & P3 & P4 & P5) Hnew].
    assert (forall c, cnt (owns c) new = O) as N1 by (intros c; destruct Hnew as [->|[p ->]]; done).
    assert (cnt stopper new = O) as N2 by (destruct Hnew as [->|[p ->]]; done).
    split.
    + intros c. pose proof (cnt_step (owns c) ts i t t' new Hi). specialize (H1 c). specialize (P3 c).
      specialize (N1 c). lia.
    + intros c Hc. pose proof (cnt_step (owns c) ts i t t' new Hi). rewrite P1 in Hc.
      specialize (H2 c Hc). specialize (P3 c). specialize (N1 c). lia.
    + intros c Hc. rewrite P1 in Hc. destruct (H3 c Hc) as [Hin|Hh]; [left; set_solver|].
      pose proof (cnt_step (holds c) ts i t t' new Hi) as Hcs.
      destruct (holds c t) eqn:Et; [|right; cbn in Hcs; lia].
      destruct (P4 c Et) as [Et'|]; [|by left]. right. rewrite Et' in Hcs. cbn in Hcs. lia.
    + pose proof (cnt_step stopper ts i t t' new Hi). lia.
  - assert (sv_accepted σ' = sv_accepted σ /\ sv_closed σ' = sv_closed σ /\
      (sv_state σ' = StateStopped <-> sv_state σ = StateStopped) /\ (new = [] \/ new = [TLoop]))
      as (E1 & E2 & E3 & Hnew).
    { unfold Start in H. destruct (sv_state σ) eqn:Es, r, l; cbn in H; injection H as <- <- <-;
        cbn; rewrite ?Es; repeat split; auto; done. }
    assert (forall f, f TLoop = false -> cnt f (ts ++ new) = cnt f ts) as Hcnt.
    { intros f Hf. rewrite cnt_app. destruct Hnew as [-> | ->]; rewrite ?cnt_cons, ?Hf; cbn; lia. }
    split; rewrite ?E1, ?E2; intros; rewrite ?Hcnt by done; auto.
    destruct (sv_state σ'), (sv_state σ); cbn; try lia; destruct E3 as [E3 E3']; naive_solver.
  - split; cbn; intros; rewrite cnt_app, ?cnt_cons; cbn.
    + specialize (H1 c). destruct (Nat.eqb_spec (sv_accepted σ) c); cbn; [|lia].
      rewrite (H2 c) by lia. lia.
    + rewrite H2 by lia. destruct (Nat.eqb_spec (sv_accepted σ) c); cbn; lia.
    + destruct (Nat.eqb_spec (sv_accepted σ) c); cbn; [right; lia|].
      destruct (H3 c); [lia | by left | right; lia].
    + lia.
  - by split.
  - split; cbn; intros; rewrite cnt_app; cbn; rewrite ?Nat.add_0_r; auto.
  - split; cbn.
    + intros c. pose proof (cnt_insert (owns c) ts i TWait TDone Hi). cbn in *. specialize (H1 c). lia.
    + intros c Hc. pose proof (cnt_insert (owns c) ts i TWait TDone Hi). cbn in *. rewrite H2 in *; lia.
    + intros c Hc. destruct (H3 c Hc); [by left|right].
      pose proof (holds_TDone c i TWait ts Hi eq_refl). lia.
    + pose proof (cnt_insert stopper ts i TWait TDone Hi). cbn in *. lia.
Qed.

Lemma reach_pool_inv σ ts : reach (σ, ts) -> pool_inv σ ts.
Proof.
  intros H. change (pool_inv (σ, ts).1 (σ, ts).2).
  apply (rtc_ind_r (R := step) (fun c => pool_inv c.1 c.2) (new_server, [])); [| |exact H].
  - split; cbn; intros; lia.
  - intros c c' _ Hs Hi. by eapply step_pool_inv.
Qed.

(** ** Running a schedule *)

Inductive event :=
| EvThread (i : nat) (o : io)
| EvStart
| EvConn (r : wire)
| EvStop.

Definition is_loop (t : thread) : bool := match t with TLoop => true | _ => false end.

Definition exec1 (c : server * list thread) (e : event) : option (server * list thread) :=
  let '(σ, ts) := c in
  match e with
  | EvThread i o =>
      t ← ts !! i; '(σ', t', new) ← tstep σ t o; Some (σ', <[i := t']> ts ++ new)
  | EvStart => let '(σ', _, new) := Start σ true true in Some (σ', ts ++ new)
  | EvConn r =>
      if (existsb is_loop ts && sv_listening σ)%bool
      then Some (set_accepted σ (S (sv_accepted σ)), ts ++ [TConn r (sv_accepted σ)])
      else None
  | EvStop => Some (σ, ts ++ [TStop])
  end.

Fixpoint exec (c : server * list thread) (es : list event) : option (server * list thread) :=
  match es with
  | [] => Some c
  | e :: es => c' ← exec1 c e; exec c' es
  end.

Lemma exec1_step c e c' : exec1 c e = Some c' -> step c c'.
Proof.
  destruct c as [σ ts]. intros H. destruct e as [i o| |r|]; cbn [exec1] in H.
  - destruct (ts !! i) as [t|] eqn:Hi; [cbn [mbind option_bind] in H|done].
    destruct (tstep σ t o) as [[[σ' t'] new]|] eqn:E; [|done]. injection H as <-.
    by eapply step_thread.
  - destruct (Start σ true true) as [[σ' err] new] eqn:E. injection H as <-. by eapply step_start.
  - destruct (existsb is_loop ts) eqn:El, (sv_listening σ) eqn:Es; try done. injection H as <-.
    apply step_accept; [|done]. apply existsb_exists in El as (t & Hin & Ht).
    destruct t; try done. by apply list_elem_of_In.
  - injection H as <-. apply step_stop.
Qed.

Lemma exec_rtc es c c' : exec c es = Some c' -> rtc step c c'.
Proof.
  revert c. induction es as [|e es IH]; intros c H; cbn [exec] in H.
  - injection H as <-. reflexivity.
  - destruct (exec1 c e) as [c1|] eqn:E; [|done]. eapply rtc_l; [by eapply exec1_step | by apply IH].
Qed.

Lemma exec_reach es c : exec (new_server, []) es = Some c -> reach c.
Proof. apply exec_rtc. Qed.

(** A client's preamble on the wire. *)
Definition hello (id : byte) : wire := [Chunk (handshake_bytes "0123456789abcdef" id)].

(** Step thread [i] [n] times with successful I/O. *)
Definition ok (i n : nat) : list event := replicate n (EvThread i IoOk).

(** ** Theorems *)

(** The streams of a session are on pairwise distinct connections. *)
Lemma conns_distinct σ ts p s :
  pool_inv σ ts -> session_inv (sv_sessions σ) ts p s -> NoDup (map se_conn (s_streams s)).
Proof.
  intros [HO _ _ _] [Hids Hserved _ _].
  assert (forall e, e ∈ s_streams s -> (1 <= cnt (serves p e) ts)%nat) as Hs by done.
  unfold ids in Hids. revert Hids Hs. clear Hserved.
  induction (s_streams s) as [|e l IH]; cbn; intros Hids Hs; [constructor|].
  apply NoDup_cons in Hids as [Hni Hids]. apply NoDup_cons. split; [|apply IH; set_solver].
  intros (e' & Hc & He')%list_elem_of_In%in_map_iff. apply list_elem_of_In in He'.
  assert (se_id e <> se_id e') as Hid.
  { intros E. apply Hni. rewrite E. apply list_elem_of_In, in_map, list_elem_of_In, He'. }
  specialize (HO (se_conn e)). pose proof (Hs e ltac:(by left)) as S1.
  pose proof (Hs e' ltac:(by right)) as S2.
  assert (cnt (serves p e) ts + cnt (serves p e') ts <= cnt (owns (se_conn e)) ts)%nat; [|lia].
  clear -Hid Hc. induction ts as [|t ts IH]; [done|]. rewrite !cnt_cons.
  enough (b2n (serves p e t) + b2n (serves p e' t) <= b2n (owns (se_conn e) t))%nat by lia.
  clear IH. assert (forall q i c, (b2n ((q =? p)%nat && Byte.eqb i (se_id e) && (c =? se_conn e)%nat)%bool +
    b2n ((q =? p)%nat && Byte.eqb i (se_id e') && (c =? se_conn e')%nat)%bool <=
    b2n (c =? se_conn e)%nat)%nat) as HB.
  { intros q i c. destruct (q =? p)%nat, (byte_eqb_spec i (se_id e)), (byte_eqb_spec i (se_id e')),
      (Nat.eqb_spec c (se_conn e)), (Nat.eqb_spec c (se_conn e')); cbn; try lia; congruence. }
  destruct t as [| | | | | | | | | |ph q k| | | | | |]; try apply HB; try (cbn; lia).
  destruct ph, k; try apply HB; cbn; lia.
Qed.

(** C1.  In every interleaving of handlers, backend readers, terminations and
    [Stop]: stream ids and connections of a session are unique; its backend is
    closed at most once, and only after the session was marked terminated; a
    session that is not terminated is the one the map has under its id (so two
    live sessions never share an id, and [onTerminate] of an old session never
    removes a newer one); and it never idles without a stream, unless a
    handler is about to add one or a goroutine is about to terminate it. *)
Theorem server_sessions_sound σ ts p s :
  reach (σ, ts) -> sv_heap σ !! p = Some s ->
  NoDup (ids s) /\ NoDup (map se_conn (s_streams s)) /\ (s_backendCloses s <= 1)%nat /\
  (s_backendCloses s = 1%nat -> s_terminated s = true) /\
  (s_terminated s = false -> sv_sessions σ !! s_id s = Some p /\
     (s_streams s <> [] \/ exists t, t ∈ ts /\ pending p t = true)).
Proof.
  intros Hr Hp. pose proof (reach_inv _ _ Hr) as [Hs _ _].
  pose proof (conns_distinct _ _ p s (reach_pool_inv _ _ Hr) (Hs p s Hp)) as Hc.
  destruct (Hs p s Hp) as [I1 _ I3 I4]. split_and!; [done | done | | |].
  - destruct (s_terminated s); [destruct (I4 eq_refl) as [(?&?&?&?)|[(?&?&?&?)|(?&?&?&?)]]; lia|].
    destruct (I3 eq_refl) as (_ & ? & _). lia.
  - intros Hb. destruct (s_terminated s); [done|]. destruct (I3 eq_refl) as (_ & ? & _). lia.
  - intros Hl. destruct (I3 Hl) as (Hm & _ & _ & _ & _ & Hst). split; [done|].
    destruct Hst as [?|Hpe]; [by left|]. right. unfold cnt in Hpe.
    destruct (List.filter (pending p) ts) as [|t l] eqn:E; [cbn in Hpe; lia|].
    exists t. rewrite list_elem_of_In, <-filter_In, E. by left.
Qed.

Definition one_stream_schedule : list event :=
  EvStart :: EvConn (hello x01) :: ok 1 4.

Lemma server_sessions_sound_witness :
  exists σ ts s, exec (new_server, []) one_stream_schedule = Some (σ, ts) /\
    sv_heap σ !! 0%nat = Some s /\ NoDup (ids s) /\ s_terminated s = false.
Proof.
  eexists _, _, _. split; [vm_compute; reflexivity|]. split; [vm_compute; reflexivity|].
  split; [|reflexivity].
  eapply (server_sessions_sound _ _ 0);
    [apply (exec_reach one_stream_schedule); vm_compute; reflexivity | vm_compute; reflexivity].
Defined.

(** No session outlives the goroutines that work on it. *)
Lemma inv_drained σ ts :
  inv σ ts -> Forall (fun t => thread_target t = []) ts ->
  sv_sessions σ = ∅ /\
  forall p s, sv_heap σ !! p = Some s ->
    s_terminated s = true /\ s_backendCloses s = 1%nat /\ s_streams s = [].
Proof.
  intros [Hs Hm _] Hq.
  assert (forall p, cnt (closing p) ts = O /\ cnt (dropping p) ts = O /\ cnt (finishing p) ts = O /\
    cnt (pending p) ts = O /\ forall e, cnt (serves p e) ts = O) as Hz.
  { intros p. apply cnt_silent. eapply Forall_impl; [exact Hq|]. intros t Ht.
    apply not_target_counts. rewrite Ht. apply not_elem_of_nil. }
  assert (forall p s, sv_heap σ !! p = Some s -> s_terminated s = true /\
    s_backendCloses s = 1%nat /\ s_streams s = [] /\ sv_sessions σ !! s_id s <> Some p) as HA.
  { intros p s Hp. destruct (Hs p s Hp) as [_ I2 I3 I4]. destruct (Hz p) as (Z1 & Z2 & _ & Z4 & Z5).
    assert (s_streams s = []) as Hst.
    { destruct (s_streams s) as [|e l]; [done|]. specialize (I2 e ltac:(by left)).
      rewrite Z5 in I2. lia. }
    destruct (s_terminated s).
    - destruct (I4 eq_refl) as [(?&?&?&?)|[(?&?&?&?)|(?&?&?&?)]]; try lia. auto.
    - exfalso. destruct (I3 eq_refl) as (_ & _ & _ & _ & _ & [?|?]); [done|lia]. }
  split.
  - apply map_empty. intros sid. destruct (sv_sessions σ !! sid) as [p|] eqn:E; [|done].
    destruct (Hm _ _ E) as (s & Hp & <-). destruct (HA p s Hp) as (_ & _ & _ & Hne). done.
  - intros p s Hp. destruct (HA p s Hp) as (? & ? & ? & _). auto.
Qed.

(** C2.  When [Stop] returns (its thread waits and the wait group is empty):
    the session map is empty, every session ever created is terminated with no
    stream left, its backend connection closed exactly once, and every
    connection ever accepted is closed. *)
Theorem stop_releases_everything σ ts :
  reach (σ, ts) -> TWait ∈ ts -> Forall (fun t => in_wg t = false) ts ->
  sv_sessions σ = ∅ /\
  (forall p s, sv_heap σ !! p = Some s ->
     s_terminated s = true /\ s_backendCloses s = 1%nat /\ s_streams s = []) /\
  (forall c, (c < sv_accepted σ)%nat -> c ∈ sv_closed σ).
Proof.
  intros Hr Hw Hwg. pose proof (reach_pool_inv _ _ Hr) as [_ _ Hheld Hstop].
  assert (Forall (fun t => thread_target t = []) ts) as Hq.
  { apply list_elem_of_lookup in Hw as [i Hi]. apply Forall_forall. intros t Ht.
    rewrite Forall_forall in Hwg. specialize (Hwg t Ht).
    destruct (stopper t) eqn:Est; [|by destruct t as [| | | | | | | | | |? ? []| | | | | |]].
    apply list_elem_of_lookup in Ht as [j Hj].
    destruct (decide (i = j)) as [->|Hij]; [by replace t with TWait by congruence|]. exfalso.
    pose proof (cnt_insert stopper ts i TWait TDone Hi) as C. cbn in C.
    pose proof (cnt_pos stopper (<[i := TDone]> ts) t) as C2.
    assert (t ∈ <[i := TDone]> ts) as Hin.
    { apply list_elem_of_lookup. exists j. by rewrite list_lookup_insert_ne. }
    specialize (C2 Hin Est). lia. }
  destruct (inv_drained _ _ (reach_inv _ _ Hr) Hq) as [E1 E2]. split_and!; [done | done |].
  intros c Hc. destruct (Hheld c Hc) as [|Hh]; [done|]. exfalso.
  rewrite cnt_zero in Hh; [lia|]. eapply Forall_impl; [exact Hwg|]. intros t Ht.
  by destruct t as [| | | | | | | | | |? ? []| | | | | |].
Qed.

(** Start, one stream, [Stop] run to its wait; the stream's and the backend's
    goroutines then run out. *)
Definition stop_schedule : list event :=
  [EvStart; EvConn (hello x01)] ++ ok 1 4 ++ [EvStop] ++ ok 3 9 ++
  [EvThread 0 IoErr] ++ ok 1 3 ++ ok 1 1 ++ ok 2 2.

Lemma stop_releases_everything_witness :
  exists σ ts, exec (new_server, []) stop_schedule = Some (σ, ts) /\
    sv_sessions σ = ∅ /\ sv_accepted σ = 1%nat /\ 0%nat ∈ sv_closed σ.
Proof.
  eexists _, _. split; [vm_compute; reflexivity|].
  match goal with |- sv_sessions ?σ = _ /\ _ => 
    pose proof (stop_releases_everything σ [TDone; TDone; TDone; TWait]) as H end.
  destruct H as (H1 & _ & H3).
  - apply (exec_reach stop_schedule). vm_compute. reflexivity.
  - by do 3 right; left.
  - repeat constructor.
  - split; [exact H1|]. split; [reflexivity|]. apply H3. cbn. lia.
Defined.

(** [handleConn]'s check and insertion are not one atomic step: *)
Definition late_stream_schedule : list event :=
  [EvStart; EvConn (hello x01)] ++ ok 1 4 ++       (* a first stream, served *)
  [EvConn (hello x02)] ++ ok 3 3 ++                (* a second one passes the check *)
  [EvThread 1 IoErr] ++ ok 1 6 ++                  (* the first leaves and terminates *)
  ok 3 1.                                          (* the second registers itself *)

(** A race in [addStream]: [terminated] is read before the lock is
    taken, so a session whose last stream leaves meanwhile can be terminated to
    the end -- backend closed, map entry gone, streams closed -- and still gain
    a stream, whose connection nothing closes and whose handler blocks reading
    it. *)
Theorem late_stream_race :
  exists σ ts s, reach (σ, ts) /\ sv_heap σ !! 0%nat = Some s /\
    s_terminated s = true /\ s_backendCloses s = 1%nat /\ sv_sessions σ = ∅ /\
    Forall (fun t => match t with TTerm _ _ _ => False | _ => True end) ts /\
    (exists e, s_streams s = [e] /\ se_conn e ∉ sv_closed σ /\
       TStream 0 (se_id e) (se_conn e) ∈ ts).
Proof.
  eexists _, _, _. split; [|split].
  - apply (exec_reach late_stream_schedule). vm_compute. reflexivity.
  - vm_compute. reflexivity.
  - split_and!; try reflexivity; [by repeat constructor|]. eexists. split; [reflexivity|].
    split; [by apply (bool_decide_unpack _) | by do 3 right; left].
Qed.

(** A handler still reading its preamble when [Stop] copies the session set
    brings up a session that [Stop] does not terminate: [Stop] then waits for
    the client to leave or for a read deadline. *)
Definition late_session_schedule : list event :=
  [EvStart; EvConn (hello x01); EvStop] ++ ok 2 4 ++ ok 1 4.

Lemma stop_misses_late_session :
  exists σ ts s, reach (σ, ts) /\ sv_state σ = StateStopped /\ TWait ∈ ts /\
    sv_heap σ !! 0%nat = Some s /\ s_terminated s = false /\ s_streams s <> [].
Proof.
  eexists _, _, _. split; [|split_and!].
  - apply (exec_reach late_session_schedule). vm_compute. reflexivity.
  - reflexivity.
  - by do 2 right; left.
  - vm_compute. reflexivity.
  - reflexivity.
  - discriminate.
Qed.

(** [Start]'s context only governs the listener: cancelling it leaves every
    session running. *)
Lemma cancel_keeps_sessions :
  exists σ ts s, reach (σ, ts) /\ sv_listening σ = false /\
    sv_heap σ !! 0%nat = Some s /\ s_terminated s = false /\ s_streams s <> [].
Proof.
  eexists (set_listening _ false), _, _. split; [|split_and!].
  - eapply rtc_r; [|apply step_cancel].
    apply (exec_reach one_stream_schedule). vm_compute. reflexivity.
  - reflexivity.
  - vm_compute. reflexivity.
  - reflexivity.
  - discriminate.
Qed.
