(* ===== verification/Proxy.v ===== *)
(** * internal/proxy: the hub, its scheduler and its streams

    hub.go, stream.go, types.go and pool.go.  The scheduler is a function on
    the hub's state, one call per packet of the local listener; a stream's
    pumps are one function per packet; [runOnce] is a function of what each
    library call it makes answers ([env]). *)

From S2P Require Import Prelude GoStrings GoErrors Creds Framing RoundRobin.

(** ** Configuration *)

(** [Provider], [Logger]: whether the interface is non-nil; the fetch itself
    is in [env]. *)
Record HubConfig := mkHubConfig {
  hc_PeerAddr : bytes;
  hc_ListenAddr : bytes;
  hc_Streams : Z;
  hc_PeerType : bytes;
  hc_UDP : bool;
  hc_TURNHostOverride : bytes;
  hc_TURNPortOverride : Z;
  hc_StreamsPerCred : Z;
  hc_WatchdogTimeout : Z;
  hc_Hints : list bytes;
  hc_has_Provider : bool;
  hc_has_Logger : bool }.

Record HubStats := mkHubStats {
  StreamsRunning : Z;
  StreamsTotal : Z;
  BytesTx : Z;
  BytesRx : Z;
  PacketsTx : Z;
  PacketsRx : Z;
  DropsTx : Z;
  ErrorsTx : Z;
  ErrorsRx : Z }.

(** ** Streams *)

Definition PacketBufSize : nat := 2048.
Definition queue_cap : nat := 512.

(** Counters are [atomic.Uint64]. *)
Record stream := mkStream {
  st_id : Z;
  st_in : list bytes;             (* the channel, capacity [queue_cap] *)
  st_peer : option bytes;         (* return address *)
  st_ready : bool;
  st_bytesTx : Z; st_bytesRx : Z;
  st_packetsTx : Z; st_packetsRx : Z;
  st_dropsTx : Z;
  st_errorsTx : Z; st_errorsRx : Z }.

Definition new_stream (id : Z) : stream := mkStream id [] None false 0 0 0 0 0 0 0.

Definition atomic_add (c n : Z) : Z := wrap_uint64 (c + n).

Definition set_ready (s : stream) (b : bool) : stream :=
  mkStream (st_id s) (st_in s) (st_peer s) b (st_bytesTx s) (st_bytesRx s)
    (st_packetsTx s) (st_packetsRx s) (st_dropsTx s) (st_errorsTx s) (st_errorsRx s).
Definition set_peer (s : stream) (a : bytes) : stream :=
  mkStream (st_id s) (st_in s) (Some a) (st_ready s) (st_bytesTx s) (st_bytesRx s)
    (st_packetsTx s) (st_packetsRx s) (st_dropsTx s) (st_errorsTx s) (st_errorsRx s).
Definition set_in (s : stream) (q : list bytes) : stream :=
  mkStream (st_id s) q (st_peer s) (st_ready s) (st_bytesTx s) (st_bytesRx s)
    (st_packetsTx s) (st_packetsRx s) (st_dropsTx s) (st_errorsTx s) (st_errorsRx s).
Definition count_drop (s : stream) : stream :=
  mkStream (st_id s) (st_in s) (st_peer s) (st_ready s) (st_bytesTx s) (st_bytesRx s)
    (st_packetsTx s) (st_packetsRx s) (atomic_add (st_dropsTx s) 1) (st_errorsTx s) (st_errorsRx s).
Definition count_tx (s : stream) (n : Z) : stream :=
  mkStream (st_id s) (st_in s) (st_peer s) (st_ready s) (atomic_add (st_bytesTx s) n) (st_bytesRx s)
    (atomic_add (st_packetsTx s) 1) (st_packetsRx s) (st_dropsTx s) (st_errorsTx s) (st_errorsRx s).
Definition count_rx (s : stream) (n : Z) : stream :=
  mkStream (st_id s) (st_in s) (st_peer s) (st_ready s) (st_bytesTx s) (atomic_add (st_bytesRx s) n)
    (st_packetsTx s) (atomic_add (st_packetsRx s) 1) (st_dropsTx s) (st_errorsTx s) (st_errorsRx s).
Definition count_errTx (s : stream) : stream :=
  mkStream (st_id s) (st_in s) (st_peer s) (st_ready s) (st_bytesTx s) (st_bytesRx s)
    (st_packetsTx s) (st_packetsRx s) (st_dropsTx s) (atomic_add (st_errorsTx s) 1) (st_errorsRx s).
Definition count_errRx (s : stream) : stream :=
  mkStream (st_id s) (st_in s) (st_peer s) (st_ready s) (st_bytesTx s) (st_bytesRx s)
    (st_packetsTx s) (st_packetsRx s) (st_dropsTx s) (st_errorsTx s) (atomic_add (st_errorsRx s) 1).

(** *** Pumps *)

(** What a pump goroutine does next: another round, or return (and cancel). *)
Inductive pump := Again | Return.

(** TX of [pumpRaw]: one packet taken from the channel, written to the relay.
    [written]: the byte count, or the error. *)
Definition pumpRaw_tx (s : stream) (written : bytes -> result error Z)
    : stream * option bytes * pump :=
  match st_in s with
  | [] => (s, None, Again)                    (* blocked on the channel *)
  | b :: q =>
      let s := set_in s q in
      match written b with
      | Err _ => (count_errTx s, None, Return)
      | Ok n => (count_tx s n, Some b, Again)
      end
  end.

(** RX of [pumpRaw]: one [ReadFrom] of the relay; [from_peer]: the datagram
    comes from the peer's address.  The packet handed to the local listener,
    with its destination, is the second component. *)
Definition pumpRaw_rx (s : stream) (read : result error (bytes * bool))
    (write_local : option error) : stream * option (bytes * bytes) * pump :=
  match read with
  | Err _ => (count_errRx s, None, Return)
  | Ok (b, from_peer) =>
      let b := take PacketBufSize b in
      if negb from_peer then (s, None, Again) else
      match st_peer s with
      | None => (s, None, Again)
      | Some addr =>
          match write_local with
          | Some _ => (count_errRx s, None, Return)
          | None => (count_rx s (Z.of_nat (length b)), Some (b, addr), Again)
          end
      end
  end.

(** The watchdog test: [lastRx] is a Unix second, [now] in nanoseconds. *)
Definition watchdog_expired (wd lastRx now : Z) : bool :=
  ((0 <? wd) && (wd <? now - lastRx * Second))%Z.

(** TX of [pumpDTLS]: as [pumpRaw_tx], after the watchdog test. *)
Definition pumpDTLS_tx (s : stream) (wd lastRx now : Z) (written : bytes -> result error Z)
    : stream * option bytes * pump :=
  match st_in s with
  | [] => (s, None, Again)
  | b :: q =>
      let s := set_in s q in
      if watchdog_expired wd lastRx now then (count_drop s, None, Return)
      else match written b with
           | Err _ => (count_errTx s, None, Return)
           | Ok n => (count_tx s n, Some b, Again)
           end
  end.

(** RX of [pumpDTLS]; the new [lastRx] is the last component. *)
Definition pumpDTLS_rx (s : stream) (lastRx now : Z) (read : result error bytes)
    (write_local : option error) : stream * option (bytes * bytes) * pump * Z :=
  match read with
  | Err e => (if errors_Is e Canceled then s else count_errRx s, None, Return, lastRx)
  | Ok b =>
      let b := take PacketBufSize b in
      let lastRx := unix now in
      match st_peer s with
      | None => (s, None, Again, lastRx)
      | Some addr =>
          match write_local with
          | Some _ => (count_errRx s, None, Return, lastRx)
          | None => (count_rx s (Z.of_nat (length b)), Some (b, addr), Again, lastRx)
          end
      end
  end.

(** The carrier goroutines between the DTLS pipe and the relay. *)
Definition carrier_out (s : stream) (read : result error bytes) (write : option error)
    : stream * option bytes * pump :=
  match read with
  | Err _ => (s, None, Return)
  | Ok b => match write with
            | Some _ => (count_errTx s, None, Return)
            | None => (s, Some (take PacketBufSize b), Again)
            end
  end.
Definition carrier_in (s : stream) (read : result error (bytes * bool)) (write : option error)
    : stream * option bytes * pump :=
  match read with
  | Err _ => (count_errRx s, None, Return)
  | Ok (b, from_peer) =>
      if negb from_peer then (s, None, Again) else
      match write with
      | Some _ => (count_errRx s, None, Return)
      | None => (s, Some (take PacketBufSize b), Again)
      end
  end.

Definition pump_failure : error :=
  errors_New "stream pump terminated (relay/DTLS failure)".

(** [pumpExitErr]: a pump never returns nil. *)
Definition pumpExitErr (ctx_err : option error) : error :=
  match ctx_err with Some e => e | None => pump_failure end.

(** *** One connection attempt *)

(** What the calls of one [runOnce] answer. *)
Record env := mkEnv {
  ev_ctx : option error;                     (* ctx.Err() when creds.Get asks *)
  ev_fetch : fetcher;
  ev_now : Z; ev_later : Z;                  (* clock in creds.Get *)
  ev_dial : bytes -> bytes -> option error;  (* network, address *)
  ev_resolve : bytes -> result error bool;   (* is the address IPv4? *)
  ev_client : option error;
  ev_listen : option error;
  ev_allocate : option error;
  ev_unix : Z;                               (* time.Now().Unix() in HandleAuthError *)
  ev_dtls_client : option error;
  ev_dtls_handshake : option error;
  ev_preamble : bytes -> option error;       (* dtlsConn.Write in WriteHandshake *)
  ev_ctx_end : option error }.               (* ctx.Err() when the pumps ended *)

(** The TURN address after the overrides. *)
Definition turn_addr (cfg : HubConfig) (addr : bytes) : bytes :=
  if (negb (hc_TURNHostOverride cfg =s? []) || negb (hc_TURNPortOverride cfg =? 0)%Z)%bool
  then match SplitHostPort addr with
       | Err _ => addr
       | Ok (host, port) =>
           let host := if hc_TURNHostOverride cfg =s? [] then host else hc_TURNHostOverride cfg in
           let port := if (hc_TURNPortOverride cfg =? 0)%Z then port
                       else itoa (hc_TURNPortOverride cfg) in
           JoinHostPort host port
       end
  else addr.

Definition hintFor (cfg : HubConfig) (streamID : Z) : bytes :=
  match hc_Hints cfg with
  | [] => []
  | hs =>
      let groupID := Z.quot streamID (hc_StreamsPerCred cfg) in
      match hs !! Z.to_nat (Z.rem groupID (Z.of_nat (length hs))) with
      | Some h => h
      | None => []
      end
  end.

Definition invalidateOnAuthError (c : Cache) (id now : Z) (err : error) : Cache :=
  if IsAuthError (Some err) then fst (HandleAuthError c id now) else c.

(** The error [framing.WriteHandshake] returns, as text. *)
Definition write_handshake_error (e : write_error error) : error :=
  match e with
  | BadSessionID got =>
      errors_New ("framing: session id must be 16 bytes, got " ++ itoa (Z.of_nat got))
  | WriteHandshakeFailed e => Errorf_w "framing: write handshake: " e
  end.

(** [pumpDTLS] up to the start of its data pumps: [inr] when they ran. *)
Definition pumpDTLS (ev : env) (id : Z) (sessionID : bytes) (sendHandshake : bool) : error * bool :=
  match ev_dtls_client ev with
  | Some e => (Errorf_w "dtls client: " e, false)
  | None =>
      match ev_dtls_handshake ev with
      | Some e => (Errorf_w "dtls handshake: " e, false)
      | None =>
          match (if sendHandshake : bool
                 then snd (WriteHandshake (fun (_ : unit) b => (tt, ev_preamble ev b)) tt
                             sessionID (byte_of_Z id))
                 else None) with
          | Some e => (Errorf_w "session-id handshake: " (write_handshake_error e), false)
          | None => (pumpExitErr (ev_ctx_end ev), true)
          end
      end
  end.

(** One attempt: the cache afterwards, the error it ends with (it always ends
    with one), and whether the stream became ready on the way. *)
Definition runOnce (cfg : HubConfig) (c : Cache) (id : Z) (sessionID : bytes) (ev : env)
    : Cache * (error * bool) :=
  let '(c, cr, _) := Get c (ev_ctx ev) (hintFor cfg id) id (Some (ev_fetch ev)) (ev_now ev) (ev_later ev) in
  match cr with
  | Err e => (c, (Errorf_w "creds: " e, false))
  | Ok cr =>
      let addr := turn_addr cfg (ServerAddr cr) in
      match ev_dial ev (if hc_UDP cfg then "udp" else "tcp") addr with
      | Some e => (c, (Errorf_w (if hc_UDP cfg then "dial udp: " else "dial tcp: ") e, false))
      | None =>
          match ev_resolve ev addr with
          | Err e => (c, (Errorf_w "resolve turn addr: " e, false))
          | Ok _ =>
              match ev_resolve ev (hc_PeerAddr cfg) with
              | Err e => (c, (Errorf_w "resolve peer addr: " e, false))
              | Ok _ =>
                  match ev_client ev with
                  | Some e => (c, (Errorf_w "turn client: " e, false))
                  | None =>
                      match ev_listen ev with
                      | Some e =>
                          let err := Errorf_w "turn listen: " e in
                          (invalidateOnAuthError c id (ev_unix ev) err, (err, false))
                      | None =>
                          match ev_allocate ev with
                          | Some e =>
                              let err := Errorf_w "turn allocate: " e in
                              (invalidateOnAuthError c id (ev_unix ev) err, (err, false))
                          | None =>
                              (c, if hc_PeerType cfg =s? "wireguard" then (pumpExitErr (ev_ctx_end ev), true)
                                  else if hc_PeerType cfg =s? "proxy_v1" then pumpDTLS ev id sessionID false
                                  else if (hc_PeerType cfg =s? "proxy_v2") || (hc_PeerType cfg =s? [])
                                  then pumpDTLS ev id sessionID true
                                  else (errors_New ("unknown PeerType " ++ hc_PeerType cfg), false))
                          end
                      end
                  end
              end
          end
      end
  end.

(** The pause of [run] after a failed attempt. *)
Definition backoff (err : error) : Z :=
  if IsRateLimitError (Some err) then 15 * Second else Second.

(** [run]: attempts, each with the answers of the world and whether the
    context had ended before it and after it, and the pauses between them. *)
Fixpoint run (cfg : HubConfig) (c : Cache) (id : Z) (sessionID : bytes)
    (evs : list (bool * env * bool)) : Cache * list Z :=
  match evs with
  | [] => (c, [])
  | (ended, ev, ended_after) :: evs =>
      if ended : bool then (c, [])
      else let '(c, (err, _)) := runOnce cfg c id sessionID ev in
           if ended_after : bool then (c, [])
           else let '(c, ps) := run cfg c id sessionID evs in (c, backoff err :: ps)
  end.

(** ** The hub *)

Inductive hub_error := ProviderRequired | LoggerRequired | HubAlreadyStarted | ListenFailed | CertFailed.

Record Hub := mkHub {
  hb_cfg : HubConfig;
  hb_creds : Cache;
  hb_started : bool;
  hb_stopped : bool;
  hb_streams : list stream;
  hb_lastUsed : Z;
  hb_ready_closed : bool }.

Definition set_streams (h : Hub) (l : list stream) : Hub :=
  mkHub (hb_cfg h) (hb_creds h) (hb_started h) (hb_stopped h) l (hb_lastUsed h) (hb_ready_closed h).

Definition NewHub (cfg : HubConfig) : result hub_error Hub :=
  guard hc_has_Provider cfg else ProviderRequired in
  guard hc_has_Logger cfg else LoggerRequired in
  let n := if (hc_Streams cfg <=? 0)%Z then 1%Z else hc_Streams cfg in
  let spc := if (hc_StreamsPerCred cfg <=? 0)%Z then 4%Z else hc_StreamsPerCred cfg in
  let cfg := mkHubConfig (hc_PeerAddr cfg) (hc_ListenAddr cfg) n (hc_PeerType cfg) (hc_UDP cfg)
    (hc_TURNHostOverride cfg) (hc_TURNPortOverride cfg) spc (hc_WatchdogTimeout cfg)
    (hc_Hints cfg) true true in
  Ok (mkHub cfg (NewCache spc) false false [] 0 false).

(** [Start], with what [ListenPacket] and [GenerateCertificate] answer. *)
Definition hub_Start (h : Hub) (listened certified : bool) : Hub * option hub_error :=
  if hb_started h then (h, Some HubAlreadyStarted) else
  let h := mkHub (hb_cfg h) (hb_creds h) true (hb_stopped h) (hb_streams h) (hb_lastUsed h)
             (hb_ready_closed h) in
  if negb listened then (h, Some ListenFailed)
  else if negb certified then (h, Some CertFailed)
  else (set_streams h (map (fun i => new_stream (Z.of_nat i)) (seq 0 (Z.to_nat (hc_Streams (hb_cfg h))))),
        None).

(** A stream's pump has started: [s.ready.Store(true)] and [signalReady]. *)
Definition hub_ready (h : Hub) (i : nat) : Hub :=
  mkHub (hb_cfg h) (hb_creds h) (hb_started h) (hb_stopped h)
    (alter (fun s => set_ready s true) i (hb_streams h)) (hb_lastUsed h) true.

(** A stream's pump has ended: the deferred [s.ready.Store(false)]. *)
Definition hub_unready (h : Hub) (i : nat) : Hub :=
  set_streams h (alter (fun s => set_ready s false) i (hb_streams h)).

(** [Stop]; the boolean says whether it had anything to do. *)
Definition hub_Stop (h : Hub) : Hub * bool :=
  if (hb_stopped h || negb (hb_started h))%bool then (h, false)
  else (mkHub (hb_cfg h) (hb_creds h) true true (hb_streams h) (hb_lastUsed h) (hb_ready_closed h), true).

(** The first ready stream at or after [start], cyclically, among [k]. *)
Fixpoint pick (streams : list stream) (start : nat) (i k : nat) : option nat :=
  match k with
  | O => None
  | S k =>
      let j := ((start + i) mod length streams)%nat in
      match streams !! j with
      | Some s => if st_ready s then Some j else pick streams start (S i) k
      | None => None
      end
  end.

Inductive scheduled := Discarded | Queued (i : nat) | QueueFull (i : nat).

(** One packet of [scheduleLoop]. *)
Definition schedule (h : Hub) (pkt from : bytes) : Hub * scheduled :=
  match hb_streams h with
  | [] => (h, Discarded)
  | _ =>
      let n := length (hb_streams h) in
      let last := ((Z.to_nat (hb_lastUsed h) + 1) mod n)%nat in
      let h := mkHub (hb_cfg h) (hb_creds h) (hb_started h) (hb_stopped h) (hb_streams h)
                 (Z.of_nat last) (hb_ready_closed h) in
      match pick (hb_streams h) last 0 n with
      | None => (h, Discarded)
      | Some i =>
          match hb_streams h !! i with
          | None => (h, Discarded)
          | Some s =>
              let s := set_peer s from in
              if (length (st_in s) <? queue_cap)%nat
              then (set_streams h (<[i := set_in s (st_in s ++ [take PacketBufSize pkt])]> (hb_streams h)),
                    Queued i)
              else (set_streams h (<[i := count_drop s]> (hb_streams h)), QueueFull i)
          end
      end
  end.

Fixpoint schedule_all (h : Hub) (pkts : list (bytes * bytes)) : Hub * list scheduled :=
  match pkts with
  | [] => (h, [])
  | (p, a) :: pkts =>
      let '(h, o) := schedule h p a in
      let '(h, os) := schedule_all h pkts in (h, o :: os)
  end.

Definition add_stats (out : HubStats) (s : stream) : HubStats :=
  mkHubStats (StreamsRunning out + (if st_ready s then 1 else 0)) (StreamsTotal out)
    (wrap_uint64 (BytesTx out + st_bytesTx s)) (wrap_uint64 (BytesRx out + st_bytesRx s))
    (wrap_uint64 (PacketsTx out + st_packetsTx s)) (wrap_uint64 (PacketsRx out + st_packetsRx s))
    (wrap_uint64 (DropsTx out + st_dropsTx s))
    (wrap_uint64 (ErrorsTx out + st_errorsTx s)) (wrap_uint64 (ErrorsRx out + st_errorsRx s)).

Definition hub_stats (h : Hub) : HubStats :=
  fold_left add_stats (hb_streams h)
    (mkHubStats 0 (Z.of_nat (length (hb_streams h))) 0 0 0 0 0 0 0).

(** ** Lemmas: the scheduler *)

Definition target (o : scheduled) : option nat :=
  match o with Discarded => None | Queued i | QueueFull i => Some i end.

Definition ready_at (h : Hub) (i : nat) : Prop :=
  exists s, hb_streams h !! i = Some s /\ st_ready s = true.

(** What a packet does to stream [i]. *)
Definition after_packet (i : nat) (pkt from : bytes) (o : scheduled) (s : stream) : stream :=
  match o with
  | Queued j => if (j =? i)%nat then set_in (set_peer s from) (st_in s ++ [take PacketBufSize pkt]) else s
  | QueueFull j => if (j =? i)%nat then count_drop (set_peer s from) else s
  | Discarded => s
  end.

Lemma pick_spec l start i k :
  (0 < length l)%nat ->
  match pick l start i k with
  | Some j => exists m s, (i <= m < i + k)%nat /\ j = ((start + m) mod length l)%nat /\
      l !! j = Some s /\ st_ready s = true /\
      forall m', (i <= m' < m)%nat -> forall s', l !! ((start + m') mod length l)%nat = Some s' ->
        st_ready s' = false
  | None => forall m, (i <= m < i + k)%nat -> forall s, l !! ((start + m) mod length l)%nat = Some s ->
      st_ready s = false
  end.
Proof.
  intros Hl. revert i. induction k as [|k IH]; intros i; cbn [pick]; [intros; lia|].
  destruct (lookup_lt_is_Some_2 l ((start + i) mod length l)%nat) as [s Es];
    [apply Nat.mod_upper_bound; lia|]. rewrite Es.
  destruct (st_ready s) eqn:Er.
  - exists i, s. split_and!; try done; intros; lia.
  - specialize (IH (S i)). destruct (pick l start (S i) k) as [j|].
    + destruct IH as (m & s' & Hm & -> & Hs' & Hr & Hbefore). exists m, s'.
      split_and!; try done; try lia. intros m' Hm' u Hu.
      destruct (decide (m' = i)) as [->|]; [congruence|]. by apply (Hbefore m'); [lia|].
    + intros m Hm u Hu. destruct (decide (m = i)) as [->|]; [congruence|]. by apply (IH m); [lia|].
Qed.

(** Every position is [start + m] for some [m] below the length. *)
Lemma pick_none_all l start :
  (0 < length l)%nat -> pick l start 0 (length l) = None ->
  forall i s, l !! i = Some s -> st_ready s = false.
Proof.
  intros Hl Hp i s Hi. pose proof (pick_spec l start 0 (length l) Hl) as HS. rewrite Hp in HS.
  pose proof (lookup_lt_Some _ _ _ Hi) as Hlt. set (n := length l) in *.
  apply (HS ((i + n - start mod n) mod n)%nat).
  - pose proof (Nat.mod_upper_bound (i + n - start mod n) n ltac:(lia)). lia.
  - replace ((start + (i + n - start mod n) mod n) mod n)%nat with i; [done|].
    rewrite Nat.Div0.add_mod_idemp_r. pose proof (Nat.div_mod_eq start n) as HD.
    pose proof (Nat.mod_upper_bound start n ltac:(lia)).
    replace (start + (i + n - start mod n))%nat with (i + (start / n + 1) * n)%nat by nia.
    rewrite Nat.Div0.mod_add. symmetry. by apply Nat.mod_small.
Qed.

(** The scheduler's answer, and its effect on every stream. *)
Lemma schedule_spec h pkt from h' o :
  schedule h pkt from = (h', o) ->
  (o = Discarded <-> forall i, ~ ready_at h i) /\
  (forall i, target o = Some i -> ready_at h i) /\
  length (hb_streams h') = length (hb_streams h) /\
  (forall i s, hb_streams h !! i = Some s ->
     hb_streams h' !! i = Some (after_packet i pkt from o s) /\
     (o = Queued i -> length (st_in s) < queue_cap)%nat /\
     (o = QueueFull i -> queue_cap <= length (st_in s))%nat).
Proof.
  intros H. unfold schedule in H. destruct (hb_streams h) as [|s0 l0] eqn:El.
  { injection H as <- <-. split_and!; try done; rewrite ?El; try done.
    split; [|done]. intros _ i (s & Hs & _). by rewrite El in Hs. }
  assert (0 < length (hb_streams h))%nat as Hl by (rewrite El; cbn; lia).
  rewrite <-El in H |- *. clear El s0 l0. cbn zeta in H. cbn [hb_streams] in H.
  set (last := ((Z.to_nat (hb_lastUsed h) + 1) mod length (hb_streams h))%nat) in *.
  pose proof (pick_spec (hb_streams h) last 0 (length (hb_streams h)) Hl) as HP.
  destruct (pick (hb_streams h) last 0 (length (hb_streams h))) as [j|] eqn:Ep.
  - destruct HP as (m & s & _ & _ & Hj & Hr & _). rewrite Hj in H.
    assert (ready_at h j) as Hready by (by exists s).
    assert (forall s', forall i u, hb_streams h !! i = Some u ->
      (<[j := s']> (hb_streams h)) !! i = Some (if (j =? i)%nat then s' else u)) as Hins.
    { intros s' i u Hi. destruct (Nat.eqb_spec j i) as [->|].
      - apply list_lookup_insert_eq. by eapply lookup_lt_Some.
      - by rewrite list_lookup_insert_ne. }
    destruct (length (st_in (set_peer s from)) <? queue_cap)%nat eqn:Eq; injection H as <- <-;
      cbn [hb_streams set_streams target]; rewrite ?length_insert; split_and!; try done; bprop.
    + split; [done|]. intros Hn. by destruct (Hn j).
    + intros i [= <-]. done.
    + intros i u Hi. rewrite (Hins _ i u Hi). cbn [after_packet].
      destruct (Nat.eqb_spec j i) as [->|]; split_and!; try done; try congruence.
      replace u with s by congruence. done.
    + split; [done|]. intros Hn. by destruct (Hn j).
    + intros i [= <-]. done.
    + intros i u Hi. rewrite (Hins _ i u Hi). cbn [after_packet].
      destruct (Nat.eqb_spec j i) as [->|]; split_and!; try done; try congruence.
      replace u with s by congruence. done.
  - injection H as <- <-. cbn [hb_streams]. split_and!; try done.
    split; [|done]. intros _ i (s & Hs & Hr).
    pose proof (pick_none_all _ _ Hl Ep i s Hs). congruence.
Qed.

Lemma after_packet_ready i pkt from o s : st_ready (after_packet i pkt from o s) = st_ready s.
Proof. destruct o; cbn; [done|..]; by destruct (_ =? _)%nat. Qed.

Lemma ready_at_after h pkt from h' o i :
  schedule h pkt from = (h', o) -> ready_at h' i <-> ready_at h i.
Proof.
  intros H. destruct (schedule_spec _ _ _ _ _ H) as (_ & _ & Hlen & He). split.
  - intros (s' & Hs' & Hr). destruct (lookup_lt_is_Some_2 (hb_streams h) i) as [s Hs].
    { rewrite <-Hlen. by eapply lookup_lt_Some. }
    destruct (He i s Hs) as (Ha & _). exists s. split; [done|].
    rewrite Ha in Hs'. injection Hs' as <-. by rewrite after_packet_ready in Hr.
  - intros (s & Hs & Hr). destruct (He i s Hs) as (Ha & _). eexists. split; [exact Ha|].
    by rewrite after_packet_ready.
Qed.

Definition count (o : scheduled) (os : list scheduled) : nat :=
  length (List.filter (fun x => match x, o with
    | Discarded, Discarded => true
    | Queued i, Queued j | QueueFull i, QueueFull j => (i =? j)%nat
    | _, _ => false
    end) os).

Lemma count_cons o x os :
  count o (x :: os) = ((match x, o with
    | Discarded, Discarded => 1
    | Queued i, Queued j | QueueFull i, QueueFull j => if (i =? j)%nat then 1 else 0
    | _, _ => 0 end) + count o os)%nat.
Proof. unfold count. destruct x, o; cbn; try done; by destruct (_ =? _)%nat. Qed.

(** ** Theorems *)

(** C21.  Every packet from the local listener is accounted for: with the pumps
    idle, a stream's channel grows by the packets queued on it and never beyond
    its capacity, its drop counter by those that found it full, and a packet is
    discarded only when no stream is ready. *)
Theorem scheduler_accounts h pkts h' os i s :
  schedule_all h pkts = (h', os) -> hb_streams h !! i = Some s ->
  (length (st_in s) <= queue_cap)%nat ->
  length os = length pkts /\
  (count Discarded os <> 0%nat -> forall j, ~ ready_at h j) /\
  exists s', hb_streams h' !! i = Some s' /\
    length (st_in s') = (length (st_in s) + count (Queued i) os)%nat /\
    (length (st_in s') <= queue_cap)%nat /\
    (st_dropsTx s' mod 2 ^ 64 = (st_dropsTx s + Z.of_nat (count (QueueFull i) os)) mod 2 ^ 64)%Z /\
    st_ready s' = st_ready s /\ st_packetsTx s' = st_packetsTx s.
Proof.
  revert h h' os s. induction pkts as [|[p a] pkts IH]; intros h h' os s H Hi Hq.
  - injection H as <- <-. cbn. split; [done|]. split; [done|]. exists s.
    split_and!; try done; try lia. f_equal. lia.
  - cbn [schedule_all] in H. destruct (schedule h p a) as [h1 o] eqn:E1.
    destruct (schedule_all h1 pkts) as [h2 os1] eqn:E2. injection H as <- <-.
    destruct (schedule_spec _ _ _ _ _ E1) as (HD & _ & _ & He).
    destruct (He i s Hi) as (Ha & HQ & HF).
    assert (length (st_in (after_packet i p a o s)) =
      length (st_in s) + match o with Queued j => if (j =? i)%nat then 1 else 0 | _ => 0 end)%nat as Hlen.
    { destruct o as [|j|j]; cbn; try lia; destruct (j =? i)%nat; cbn; rewrite ?length_app; cbn; lia. }
    destruct (IH _ _ _ _ E2 Ha) as (L & D & s' & Hs' & A1 & A2 & A3 & A4 & A5).
    { rewrite Hlen. destruct o as [|j|j]; [lia| |lia].
      destruct (Nat.eqb_spec j i) as [->|]; [specialize (HQ eq_refl)|]; lia. }
    split; [cbn; lia|]. split.
    { intros HD'. destruct o as [|j|j]; [by apply HD| |];
        (intros k Hk; apply (ready_at_after _ _ _ _ _ k E1) in Hk; by eapply D). }
    exists s'. split; [done|]. split_and!; try done.
    + rewrite A1, Hlen, count_cons. destruct o; lia.
    + rewrite A3, count_cons. destruct o as [|j|j]; cbn [after_packet]; [done | by destruct (j =? i)%nat |].
      destruct (j =? i)%nat; [|done].
      cbn [count_drop st_dropsTx set_peer]. unfold atomic_add, wrap_uint64.
      change 18446744073709551616%Z with (2 ^ 64)%Z. rewrite Zplus_mod_idemp_l. f_equal. lia.
    + by rewrite A4, after_packet_ready.
    + rewrite A5. destruct o as [|j|j]; cbn; [done|..]; by destruct (j =? i)%nat.
Qed.

Definition demo_hub (ready : list bool) : Hub :=
  mkHub (mkHubConfig "p:1" "l:1" (Z.of_nat (length ready)) [] false [] 0 4 0 [] true true)
    (NewCache 4) true false
    (imap (fun i b => set_ready (new_stream (Z.of_nat i)) b) ready) 0 true.

Lemma scheduler_accounts_witness :
  let '(h', os) := schedule_all (demo_hub [false; true]) (replicate 3 ("pkt"%go, "a:1"%go)) in
  length os = 3%nat /\
  (count Discarded os <> 0%nat -> forall j, ~ ready_at (demo_hub [false; true]) j) /\
  exists s', hb_streams h' !! 1%nat = Some s' /\
    length (st_in s') = (0 + count (Queued 1) os)%nat /\ (length (st_in s') <= queue_cap)%nat /\
    (st_dropsTx s' mod 2 ^ 64 = (0 + Z.of_nat (count (QueueFull 1) os)) mod 2 ^ 64)%Z /\
    st_ready s' = true /\ st_packetsTx s' = 0%Z.
Proof.
  destruct (schedule_all (demo_hub [false; true]) (replicate 3 ("pkt"%go, "a:1"%go))) as [h' os] eqn:E.
  apply (scheduler_accounts _ _ _ _ 1 (set_ready (new_stream 1) true) E); [reflexivity|].
  cbn. lia.
Defined.

(** With every stream ready the scheduler picks the one after the last. *)
Lemma schedule_all_ready h pkt from h' o :
  hb_streams h <> [] -> (forall i s, hb_streams h !! i = Some s -> st_ready s = true) ->
  schedule h pkt from = (h', o) ->
  let last := ((Z.to_nat (hb_lastUsed h) + 1) mod length (hb_streams h))%nat in
  target o = Some last /\ hb_lastUsed h' = Z.of_nat last.
Proof.
  intros Hne Hr H last. unfold schedule in H.
  assert (0 < length (hb_streams h))%nat as Hl by (destruct (hb_streams h); [done|cbn; lia]).
  destruct (lookup_lt_is_Some_2 (hb_streams h) last) as [s Es].
  { unfold last. apply Nat.mod_upper_bound. lia. }
  assert (pick (hb_streams h) last 0 (length (hb_streams h)) = Some last) as Ep.
  { assert (exists k, length (hb_streams h) = S k) as [k Ek] by (exists (length (hb_streams h) - 1)%nat; lia).
    rewrite Ek. cbn [pick]. rewrite Nat.add_0_r.
    rewrite (Nat.mod_small last) by (apply Nat.mod_upper_bound; lia).
    by rewrite Es, (Hr _ _ Es). }
  assert (exists s0 l0, hb_streams h = s0 :: l0) as (s0 & l0 & El) by (destruct (hb_streams h); [done | eauto]).
  rewrite El in H at 1.
  cbn zeta in H. cbn [hb_streams] in H. fold last in H. rewrite Ep in H.
  rewrite Es in H. destruct (_ <? _)%nat; by injection H as <- <-.
Qed.

Lemma all_ready_positions h pkts :
  hb_streams h <> [] -> (forall i s, hb_streams h !! i = Some s -> st_ready s = true) ->
  (0 <= hb_lastUsed h)%Z ->
  map target (snd (schedule_all h pkts)) =
  map Some (rr_positions (length (hb_streams h)) (Z.to_nat (hb_lastUsed h) + 1) (length pkts)).
Proof.
  revert h. induction pkts as [|[p a] pkts IH]; intros h Hne Hr H0; [done|].
  cbn [schedule_all]. destruct (schedule h p a) as [h1 o] eqn:E1.
  destruct (schedule_all_ready _ _ _ _ _ Hne Hr E1) as [Ho Hl].
  destruct (schedule_spec _ _ _ _ _ E1) as (_ & _ & Hlen & He).
  assert (hb_streams h1 <> []) as Hne1.
  { intros E. rewrite E in Hlen. destruct (hb_streams h); done. }
  assert (forall i s, hb_streams h1 !! i = Some s -> st_ready s = true) as Hr1.
  { intros i s' Hs'. destruct (lookup_lt_is_Some_2 (hb_streams h) i) as [s Hs].
    { rewrite <-Hlen. by eapply lookup_lt_Some. }
    destruct (He i s Hs) as (Ha & _). rewrite Ha in Hs'. injection Hs' as <-.
    rewrite after_packet_ready. by eapply Hr. }
  specialize (IH h1 Hne1 Hr1 ltac:(lia)). destruct (schedule_all h1 pkts) as [h2 os].
  cbn [snd map] in IH |- *. rewrite IH, Ho, Hl, Hlen, Nat2Z.id.
  change (length ((p, a) :: pkts)) with (1 + length pkts)%nat.
  rewrite rr_positions_add, map_app. unfold rr_positions at 2. cbn [seq map app].
  rewrite Nat.add_0_r. do 2 f_equal. unfold rr_positions. apply map_ext. intros j.
  rewrite <-!Nat.add_assoc, Nat.Div0.add_mod_idemp_l. f_equal. lia.
Qed.

(** When every stream is ready, [k] packets per stream from the local
    listener are spread evenly: each stream is chosen exactly [k] times. *)
Theorem scheduler_fair h pkts k i :
  (forall i s, hb_streams h !! i = Some s -> st_ready s = true) -> (0 <= hb_lastUsed h)%Z ->
  (i < length (hb_streams h))%nat -> length pkts = (k * length (hb_streams h))%nat ->
  length (filter (fun o => target o = Some i) (snd (schedule_all h pkts))) = k.
Proof.
  intros Hr H0 Hi Hlen.
  assert (hb_streams h <> []) as Hne by (intros E; rewrite E in Hi; cbn in Hi; lia).
  pose proof (all_ready_positions h pkts Hne Hr H0) as HP. rewrite Hlen in HP.
  rewrite <-(rr_positions_fair (length (hb_streams h)) (Z.to_nat (hb_lastUsed h) + 1) k i Hi).
  revert HP. generalize (snd (schedule_all h pkts)).
  generalize (rr_positions (length (hb_streams h)) (Z.to_nat (hb_lastUsed h) + 1) (k * length (hb_streams h))).
  induction l as [|j l IH]; intros [|o os] HP; try done. cbn [map] in HP. injection HP as Ho HP.
  rewrite filter_cons. cbn [count_occ]. rewrite Ho.
  destruct (Nat.eq_dec j i) as [->|Hne'].
  - rewrite decide_True by done. cbn. f_equal. by apply IH.
  - rewrite decide_False by congruence. by apply IH.
Qed.

Lemma scheduler_fair_witness :
  length (filter (fun o => target o = Some 1%nat)
    (snd (schedule_all (demo_hub [true; true; true]) (replicate 6 ("pkt"%go, "a:1"%go))))) = 2%nat.
Proof.
  apply (scheduler_fair (demo_hub [true; true; true]) (replicate 6 ("pkt"%go, "a:1"%go)) 2 1).
  - intros [|[|[|i]]] s H; cbn in H; by injection H as <- || done.
  - cbn. lia.
  - cbn. lia.
  - reflexivity.
Defined.

(** The rotation advances by one slot per packet, ready or not: with the first
    of three streams down, the second gets both its own turns and the first's. *)
Example unfair_among_ready :
  map target (snd (schedule_all (demo_hub [false; true; true]) (replicate 6 ("p"%go, "a:1"%go)))) =
  map Some [1; 2; 1; 1; 2; 1]%nat.
Proof. vm_compute. reflexivity. Qed.

(** The hint pool follows the credential cache's groups: streams that
    share a cached credential always ask for it with the same hint, so the
    cache's test on the hint never evicts a neighbour's credential; and the
    hint is one of the pool. *)
Theorem hint_follows_group cfg h i j :
  NewHub cfg = Ok h -> (0 <= i)%Z -> (0 <= j)%Z ->
  groupID (hb_creds h) i = groupID (hb_creds h) j ->
  hintFor (hb_cfg h) i = hintFor (hb_cfg h) j /\
  (hc_Hints cfg <> [] -> hintFor (hb_cfg h) i ∈ hc_Hints cfg).
Proof.
  unfold NewHub. intros H Hi Hj HG. inv_result H. injection H as <-. cbn in HG |- *.
  set (spc := if (hc_StreamsPerCred cfg <=? 0)%Z then 4%Z else hc_StreamsPerCred cfg) in *.
  assert (0 < spc)%Z as Hspc by (unfold spc; destruct (Z.leb_spec (hc_StreamsPerCred cfg) 0); lia).
  unfold groupID in HG. cbn in HG. replace (spc <=? 0)%Z with false in HG by (symmetry; apply Z.leb_gt; lia).
  unfold hintFor; cbn [hc_Hints hc_StreamsPerCred].
  split; [by rewrite HG|]. intros Hne. destruct (hc_Hints cfg) as [|h0 hs] eqn:EH; [done|].
  rewrite <-EH. set (n := length (hc_Hints cfg)).
  assert (0 < n)%nat as Hn by (unfold n; rewrite EH; cbn; lia).
  fold n.
  destruct (lookup_lt_is_Some_2 (hc_Hints cfg) (Z.to_nat (Z.rem (Z.quot i spc) (Z.of_nat n)))) as [x Hx].
  - fold n. pose proof (Z.rem_bound_pos (Z.quot i spc) (Z.of_nat n) (Z.quot_pos i spc Hi ltac:(lia)) ltac:(lia)).
    lia.
  - rewrite Hx. by eapply list_elem_of_lookup_2.
Qed.

Lemma hint_follows_group_witness :
  let cfg := mkHubConfig "p:1" "l:1" 8 [] false [] 0 2 0 ["a"%go; "b"%go; "c"%go] true true in
  exists h, NewHub cfg = Ok h /\ hintFor (hb_cfg h) 6 = "a"%go /\
    hintFor (hb_cfg h) 6 = hintFor (hb_cfg h) 7.
Proof.
  eexists. split; [reflexivity|]. split; [reflexivity|].
  apply (hint_follows_group (mkHubConfig "p:1" "l:1" 8 [] false [] 0 2 0 ["a"%go; "b"%go; "c"%go] true true)
    _ 6 7); [reflexivity | lia | lia | reflexivity].
Defined.

(** The watchdog never waits longer than its timeout, but since the time
    of the last packet is kept in whole seconds it may fire up to one second
    early. *)
Theorem watchdog_within_a_second wd rx now :
  (0 < wd)%Z ->
  ((wd < now - rx)%Z -> watchdog_expired wd (unix rx) now = true) /\
  (watchdog_expired wd (unix rx) now = true -> (wd - Second < now - rx)%Z).
Proof.
  intros Hwd. unfold watchdog_expired, unix. pose proof (Z.div_mod rx Second ltac:(done)) as HD.
  pose proof (Z.mod_pos_bound rx Second ltac:(done)) as HB.
  rewrite (proj2 (Z.ltb_lt 0 wd) Hwd). cbn [andb]. rewrite Z.ltb_lt. lia.
Qed.

Lemma watchdog_within_a_second_witness :
  watchdog_expired (30 * Second) (unix (100 * Second)) (131 * Second) = true.
Proof. apply (watchdog_within_a_second (30 * Second) (100 * Second) (131 * Second)); reflexivity. Defined.

(** A sub-second timeout fires on a link that received a millisecond ago. *)
Example watchdog_early :
  watchdog_expired (500 * Millisecond) (unix (999 * Millisecond)) (1000 * Millisecond) = true.
Proof. reflexivity. Qed.

(** An attempt whose calls all succeed up to the allocation. *)
Record reaches_allocate (ev : env) : Prop := {
  ra_ctx : ev_ctx ev = None;
  ra_fetch : forall h i, is_ok (ev_fetch ev h i) = true;
  ra_dial : forall n a, ev_dial ev n a = None;
  ra_resolve : forall a, is_ok (ev_resolve ev a) = true;
  ra_client : ev_client ev = None;
  ra_listen : ev_listen ev = None }.

(** The cache after the credentials step of an attempt. *)
Definition after_creds (cfg : HubConfig) (c : Cache) (id : Z) (ev : env) : Cache :=
  fst (fst (Get c (ev_ctx ev) (hintFor cfg id) id (Some (ev_fetch ev)) (ev_now ev) (ev_later ev))).

Lemma Get_ok c hint id (p : fetcher) now later :
  wf c -> (forall h i, is_ok (p h i) = true) ->
  exists c' cr f, Get c None hint id (Some p) now later = (c', Ok cr, f) /\ wf c'.
Proof.
  intros Hwf Hp. destruct (Get c None hint id (Some p) now later) as [[c' r] f] eqn:E.
  destruct (Get_view _ _ _ _ _ _ _ _ _ _ Hwf E) as (Hwf' & _ & HG & _).
  unfold get_entry in HG. specialize (Hp hint id).
  destruct (_ && _)%bool; [injection HG as _ <- _; eauto 6|].
  destruct (p hint id) as [cr|e]; [|done]. injection HG as _ <- _. eauto 6.
Qed.

Lemma runOnce_rejected cfg c id sess ev e :
  wf c -> reaches_allocate ev -> ev_allocate ev = Some e -> IsAuthError (Some e) = true ->
  runOnce cfg c id sess ev =
    (fst (HandleAuthError (after_creds cfg c id ev) id (ev_unix ev)),
     (Errorf_w "turn allocate: " e, false)) /\ wf (after_creds cfg c id ev).
Proof.
  intros Hwf [H1 H2 H3 H4 H5 H6] Ha He. unfold runOnce, after_creds. rewrite H1.
  destruct (Get_ok c (hintFor cfg id) id (ev_fetch ev) (ev_now ev) (ev_later ev) Hwf H2)
    as (c' & cr & f & -> & Hwf'). cbn [fst]. split; [|done].
  rewrite H3. pose proof (H4 (turn_addr cfg (ServerAddr cr))) as R1.
  pose proof (H4 (hc_PeerAddr cfg)) as R2.
  destruct (ev_resolve ev (turn_addr cfg (ServerAddr cr))); [|done].
  destruct (ev_resolve ev (hc_PeerAddr cfg)); [|done].
  rewrite H5, H6, Ha. unfold invalidateOnAuthError. by rewrite IsAuthError_wrap.
Qed.

(** Credentials the TURN server rejects are not retried for ever: when an
    allocation fails with an authentication error and that is one too many for
    the group, the stream's next attempt asks the provider again, whatever the
    cached deadline was. *)
Theorem rejected_credentials_refetched cfg c id sess ev ev' e e' :
  wf c -> reaches_allocate ev -> ev_allocate ev = Some e -> IsAuthError (Some e) = true ->
  snd (HandleAuthError (after_creds cfg c id ev) id (ev_unix ev)) = true ->
  ev_ctx ev' = None -> (zero_time <= ev_now ev')%Z ->
  ev_fetch ev' (hintFor cfg id) id = Err e' ->
  snd (runOnce cfg (fst (runOnce cfg c id sess ev)) id sess ev') = (Errorf_w "creds: " e', false).
Proof.
  intros Hwf Hev Ha He Hinv Hctx Hnow Hf.
  destruct (runOnce_rejected cfg c id sess ev e Hwf Hev Ha He) as [-> Hwf']. cbn [fst].
  destruct (HandleAuthError (after_creds cfg c id ev) id (ev_unix ev)) as [c1 b] eqn:E.
  cbn [fst snd] in *. subst b.
  destruct (HandleAuthError_refines _ _ _ _ _ Hwf' E) as (Hwf1 & _).
  destruct (HandleAuthError_then_Get _ _ _ _ _ Hwf' E id (hintFor cfg id) (ev_fetch ev') (ev_now ev')
    (ev_later ev') eq_refl Hnow) as (c2 & r & EG).
  unfold runOnce. rewrite Hctx, EG.
  destruct (Get_view _ _ _ _ _ _ _ _ _ _ Hwf1 EG) as (_ & _ & HG & _).
  unfold get_entry in HG. destruct (_ && _)%bool; [done|]. rewrite Hf in HG.
  by injection HG as _ <-.
Qed.

Definition rejecting_env (unix_now : Z) : env :=
  mkEnv None (fun _ _ => Ok (mkCredentials "u" "p" "h:3478" 0)) 0 1 (fun _ _ => None)
    (fun _ => Ok true) None None (Some (errors_New "401: Unauthorized")) unix_now
    None None (fun _ => None) None.
Definition failing_env : env :=
  mkEnv None (fun _ _ => Err (errors_New "no credentials")) 0 1 (fun _ _ => None)
    (fun _ => Ok true) None None None 0 None None (fun _ => None) None.
Definition demo_cfg : HubConfig := hb_cfg (demo_hub [true]).
Definition two_rejections : Cache :=
  fst (run demo_cfg (NewCache 4) 0 [] [(false, rejecting_env 100, false); (false, rejecting_env 105, false)]).

Lemma rejected_credentials_refetched_witness :
  snd (runOnce demo_cfg (fst (runOnce demo_cfg two_rejections 0 [] (rejecting_env 110))) 0 [] failing_env)
    = (Errorf_w "creds: " (errors_New "no credentials"), false).
Proof.
  apply (rejected_credentials_refetched demo_cfg two_rejections 0 [] (rejecting_env 110) failing_env
    (errors_New "401: Unauthorized") (errors_New "no credentials")); try reflexivity.
  - assert (forall c u, wf c -> wf (fst (runOnce demo_cfg c 0 [] (rejecting_env u)))) as HW.
    { intros c u Hc.
      destruct (runOnce_rejected demo_cfg c 0 [] (rejecting_env u) _ Hc ltac:(by split) eq_refl eq_refl)
        as [-> Hc']. cbn [fst].
      destruct (HandleAuthError _ 0 _) as [c1 b] eqn:E. by apply (HandleAuthError_refines _ _ _ _ _ Hc' E). }
    unfold two_rejections. cbn [run]. 
    pose proof (HW _ 105%Z (HW _ 100%Z (wf_NewCache 4))) as H.
    destruct (runOnce demo_cfg (NewCache 4) 0 [] (rejecting_env 100)) as [c1 [e1 r1]]. cbn [fst] in H |- *.
    by destruct (runOnce demo_cfg c1 0 [] (rejecting_env 105)) as [c2 [e2 r2]].
  - by split.
  - vm_compute. discriminate.
Defined.

(** Rate limiting reaches the pause of [run] through the wrapping of
    [runOnce]. *)
Lemma rate_limit_backoff e :
  IsRateLimitError (Some e) = true -> backoff (Errorf_w "creds: " e) = (15 * Second)%Z.
Proof. intros H. unfold backoff. by rewrite IsRateLimitError_wrap. Qed.
