(* ===== verification/Buffers.v ===== *)
(** * internal/proxy: the packet buffers (pool.go, hub.go, stream.go)

    The packets of the local listener are not values: [scheduleLoop] reads
    each into a byte array of the pool, sends a slice of the array through a
    stream's channel, and the stream's goroutine puts the array back into the
    pool after writing it, where the next read may take it.  Here the arrays
    are a heap that all share, and the theorem is that this sharing cannot be
    seen: the machine over the heap refines the one over values that Proxy
    describes. *)

From stdpp Require Import gmap list_tactics.
From S2P Require Import Prelude GoStrings GoErrors Proxy.

(** ** The program over the heap *)

(** An array is known by its address; a slice is its first [sl_len] bytes. *)
Abbreviation buf := positive.
Record slice := mkSlice { sl_buf : buf; sl_len : nat }.

(** [scheduleLoop] between its calls. *)
Inductive scheduler := Ready | Holding (b : buf) | Filled (s : slice) (from : bytes) | Stopped.

(** The sending goroutine of a stream between its calls; one that returns is
    followed by that of the stream's next pump. *)
Inductive sender := Waiting | Taken (s : slice) | Sent (s : slice) (r : result error Z).
Record lane := mkLane { l_queue : list slice; l_sender : sender }.

(** The queues of [w_hub]'s own streams are not used: they are the lanes'. *)
Record world := mkWorld {
  w_heap : gmap buf bytes;
  w_pool : list buf;
  w_hub : Hub;
  w_lanes : list lane;
  w_sched : scheduler }.

Definition with_heap h (w : world) := mkWorld h (w_pool w) (w_hub w) (w_lanes w) (w_sched w).
Definition with_pool p (w : world) := mkWorld (w_heap w) p (w_hub w) (w_lanes w) (w_sched w).
Definition with_hub h (w : world) := mkWorld (w_heap w) (w_pool w) h (w_lanes w) (w_sched w).
Definition with_lanes l (w : world) := mkWorld (w_heap w) (w_pool w) (w_hub w) l (w_sched w).
Definition with_sched s (w : world) := mkWorld (w_heap w) (w_pool w) (w_hub w) (w_lanes w) s.

(** What a slice reads as at the moment. *)
Definition contents (h : gmap buf bytes) (s : slice) : bytes := take (sl_len s) (default [] (h !! sl_buf s)).

Definition new_array : bytes := replicate PacketBufSize x00.
Arguments new_array : simpl never.

(** [getBuf]: the pool returns one of its arrays, or makes a new one. *)
Inductive choice := Reuse (n : nat) | Alloc (b : buf).
Definition getBuf (c : choice) (w : world) : option (buf * world) :=
  match c with
  | Reuse n => b ← w_pool w !! n; Some (b, with_pool (delete n (w_pool w)) w)
  | Alloc b => if bool_decide (w_heap w !! b = None)
               then Some (b, with_heap (<[b := new_array]> (w_heap w)) w) else None
  end.

(** [putBuf]; the capacity of a slice is its array's. *)
Definition putBuf (b : buf) (w : world) : world :=
  if negb (length (default [] (w_heap w !! b)) =? PacketBufSize)%nat then w
  else with_pool (b :: w_pool w) w.

(** [ReadFrom] into an array: the packet, cut to the array, over its start. *)
Definition fill (pkt old : bytes) : bytes :=
  let p := take (length old) pkt in p ++ drop (length p) old.

(** The rest of the loop's body once a packet is read. *)
Definition hand_off (s : slice) (from : bytes) (w : world) : world * scheduled :=
  let h := w_hub w in
  match hb_streams h with
  | [] => (putBuf (sl_buf s) w, Discarded)
  | _ =>
      let n := length (hb_streams h) in
      let last := ((Z.to_nat (hb_lastUsed h) + 1) mod n)%nat in
      let h := mkHub (hb_cfg h) (hb_creds h) (hb_started h) (hb_stopped h) (hb_streams h)
                 (Z.of_nat last) (hb_ready_closed h) in
      match pick (hb_streams h) last 0 n with
      | None => (putBuf (sl_buf s) (with_hub h w), Discarded)
      | Some i =>
          match hb_streams h !! i, w_lanes w !! i with
          | Some st, Some l =>
              let st := set_peer st from in
              if (length (l_queue l) <? queue_cap)%nat
              then (with_lanes (<[i := mkLane (l_queue l ++ [s]) (l_sender l)]> (w_lanes w))
                      (with_hub (set_streams h (<[i := st]> (hb_streams h))) w), Queued i)
              else (putBuf (sl_buf s) (with_hub (set_streams h (<[i := count_drop st]> (hb_streams h))) w), QueueFull i)
          | _, _ => (putBuf (sl_buf s) (with_hub h w), Discarded)
          end
      end
  end.

(** What happens: the calls of the loop; those of stream [i]'s goroutine; a
    change of its readiness; the collector emptying a place of the pool. *)
Inductive label :=
| LGet (c : choice) | LRead (pkt from : bytes) | LReadFailed | LHandOff
| LTake (i : nat) | LExpired (i : nat) | LWrite (i : nat) (written : bytes -> result error Z) | LPut (i : nat)
| LReady (i : nat) (ready : bool) | LForget (n : nat).

(** What the outside sees: the decision on a packet, a packet written. *)
Inductive event := Decided (pkt : bytes) (o : scheduled) | Wrote (i : nat) (pkt : bytes) | Expired (i : nat) (pkt : bytes).

Definition on_stream (i : nat) (f : stream -> stream) (h : Hub) : Hub :=
  set_streams h (alter f i (hb_streams h)).

Definition after_write (r : result error Z) : stream -> stream :=
  match r with Ok n => fun s => count_tx s n | Err _ => count_errTx end.

Definition exec (l : label) (w : world) : option (world * list event) :=
  match l with
  | LGet c =>
      match w_sched w with
      | Ready => '(b, w) ← getBuf c w; Some (with_sched (Holding b) w, [])
      | _ => None
      end
  | LRead pkt from =>
      match w_sched w with
      | Holding b =>
          old ← w_heap w !! b;
          Some (with_sched (Filled (mkSlice b (length (take (length old) pkt))) from)
                  (with_heap (<[b := fill pkt old]> (w_heap w)) w), [])
      | _ => None
      end
  | LReadFailed =>
      match w_sched w with Holding b => Some (putBuf b (with_sched Stopped w), []) | _ => None end
  | LHandOff =>
      match w_sched w with
      | Filled s from => let '(w', o) := hand_off s from (with_sched Ready w) in
                         Some (w', [Decided (contents (w_heap w) s) o])
      | _ => None
      end
  | LTake i =>
      l ← w_lanes w !! i;
      match l_sender l, l_queue l with
      | Waiting, s :: q => Some (with_lanes (<[i := mkLane q (Taken s)]> (w_lanes w)) w, [])
      | _, _ => None
      end
  | LExpired i =>
      l ← w_lanes w !! i;
      match l_sender l with
      | Taken s => Some (with_hub (on_stream i count_drop (w_hub w))
                           (with_lanes (<[i := mkLane (l_queue l) Waiting]> (w_lanes w)) (putBuf (sl_buf s) w)),
                         [Expired i (contents (w_heap w) s)])
      | _ => None
      end
  | LWrite i written =>
      l ← w_lanes w !! i;
      match l_sender l with
      | Taken s =>
          let pkt := contents (w_heap w) s in
          Some (with_lanes (<[i := mkLane (l_queue l) (Sent s (written pkt))]> (w_lanes w)) w, [Wrote i pkt])
      | _ => None
      end
  | LPut i =>
      l ← w_lanes w !! i;
      match l_sender l with
      | Sent s r => Some (with_hub (on_stream i (after_write r) (w_hub w))
                            (with_lanes (<[i := mkLane (l_queue l) Waiting]> (w_lanes w)) (putBuf (sl_buf s) w)), [])
      | _ => None
      end
  | LReady i r => Some (with_hub (on_stream i (fun s => set_ready s r) (w_hub w)) w, [])
  | LForget n => Some (with_pool (delete n (w_pool w)) w, [])
  end.

Fixpoint run (ls : list label) (w : world) : option (world * list event) :=
  match ls with
  | [] => Some (w, [])
  | l :: ls => '(w, es) ← exec l w; '(w, es') ← run ls w; Some (w, es ++ es')
  end.

(** ** The program over values *)

(** The hub of Proxy, whose queues hold packets, with the packet the loop has
    read and what the goroutines hold. *)
Inductive held := Nothing | Packet (pkt : bytes) | Written (r : result error Z).
Record values := mkValues { v_hub : Hub; v_read : option (bytes * bytes); v_held : list held }.

Definition hold (i : nat) (x : held) (h : Hub) (v : values) : values := mkValues h (v_read v) (<[i := x]> (v_held v)).

Definition vexec (l : label) (v : values) : option (values * list event) :=
  match l with
  | LRead pkt from =>
      match v_read v with
      | None => Some (mkValues (v_hub v) (Some (take PacketBufSize pkt, from)) (v_held v), [])
      | Some _ => None
      end
  | LHandOff =>
      '(pkt, from) ← v_read v;
      let '(h, o) := schedule (v_hub v) pkt from in
      Some (mkValues h None (v_held v), [Decided pkt o])
  | LTake i =>
      s ← hb_streams (v_hub v) !! i;
      match st_in s, v_held v !! i with
      | pkt :: q, Some Nothing => Some (hold i (Packet pkt) (on_stream i (fun s => set_in s q) (v_hub v)) v, [])
      | _, _ => None
      end
  | LExpired i =>
      match v_held v !! i with
      | Some (Packet pkt) => Some (hold i Nothing (on_stream i count_drop (v_hub v)) v, [Expired i pkt])
      | _ => None
      end
  | LWrite i written =>
      match v_held v !! i with
      | Some (Packet pkt) => Some (hold i (Written (written pkt)) (v_hub v) v, [Wrote i pkt])
      | _ => None
      end
  | LPut i =>
      match v_held v !! i with
      | Some (Written r) => Some (hold i Nothing (on_stream i (after_write r) (v_hub v)) v, [])
      | _ => None
      end
  | LReady i r => Some (mkValues (on_stream i (fun s => set_ready s r) (v_hub v)) (v_read v) (v_held v), [])
  | LGet _ | LReadFailed | LForget _ => Some (v, [])
  end.

Fixpoint vrun (ls : list label) (v : values) : option (values * list event) :=
  match ls with
  | [] => Some (v, [])
  | l :: ls => '(v, es) ← vexec l v; '(v, es') ← vrun ls v; Some (v, es ++ es')
  end.

(** What the heap stands for. *)
Definition lane_stream (h : gmap buf bytes) (s : stream) (l : lane) : stream := set_in s (contents h <$> l_queue l).
Definition lane_held (h : gmap buf bytes) (l : lane) : held :=
  match l_sender l with Waiting => Nothing | Taken s => Packet (contents h s) | Sent _ r => Written r end.
Definition view (w : world) : values :=
  mkValues (set_streams (w_hub w) (zip_with (lane_stream (w_heap w)) (hb_streams (w_hub w)) (w_lanes w)))
    (match w_sched w with Filled s from => Some (contents (w_heap w) s, from) | _ => None end)
    (lane_held (w_heap w) <$> w_lanes w).

(** ** Ownership *)

Definition sched_bufs (s : scheduler) : list buf :=
  match s with Holding b => [b] | Filled s _ => [sl_buf s] | Ready | Stopped => [] end.
Definition sender_bufs (s : sender) : list buf :=
  match s with Waiting => [] | Taken s | Sent s _ => [sl_buf s] end.
Definition lane_bufs (l : lane) : list buf := sender_bufs (l_sender l) ++ (sl_buf <$> l_queue l).
Definition lanes_bufs (ls : list lane) : list buf := concat (lane_bufs <$> ls).

(** Every array has one owner: the pool, the loop, a slice in a channel, a
    goroutine. *)
Definition owned (w : world) : list buf := w_pool w ++ sched_bufs (w_sched w) ++ lanes_bufs (w_lanes w).

Definition inv (w : world) : Prop :=
  NoDup (owned w) /\ (forall b, b ∈ owned w -> is_Some (w_heap w !! b)) /\
  (forall b a, w_heap w !! b = Some a -> length a = PacketBufSize) /\
  length (w_lanes w) = length (hb_streams (w_hub w)).

Lemma lanes_bufs_insert ls i l l' : ls !! i = Some l ->
  lanes_bufs (<[i := l']> ls) ++ lane_bufs l ≡ₚ lanes_bufs ls ++ lane_bufs l'.
Proof.
  intros H. rewrite <-(take_drop_middle ls i l H) at 2. rewrite (insert_take_drop ls i l') by (by eapply lookup_lt_Some).
  unfold lanes_bufs. rewrite !fmap_app, !concat_app, !fmap_cons. cbn [concat]. solve_Permutation.
Qed.

Lemma lane_bufs_in ls i l b : ls !! i = Some l -> b ∈ lane_bufs l -> b ∈ lanes_bufs ls.
Proof.
  intros H Hb. unfold lanes_bufs. rewrite <-(take_drop_middle ls i l H), fmap_app, fmap_cons, concat_app. cbn [concat].
  rewrite !elem_of_app. auto.
Qed.

(** Moving arrays between owners, or losing some, keeps the invariant. *)
Lemma inv_moves w w' : inv w -> owned w' ⊆+ owned w -> w_heap w' = w_heap w ->
  length (w_lanes w') = length (hb_streams (w_hub w')) -> inv w'.
Proof.
  intros (HN & HD & HL & _) Ho Hh Hlen. unfold inv. rewrite Hh. split_and!; try done.
  - destruct (submseteq_Permutation _ _ Ho) as [k E]. rewrite E in HN. by apply NoDup_app in HN as [? _].
  - intros b Hb. apply HD. by eapply elem_of_submseteq.
Qed.

Lemma putBuf_owned w w' b : inv w -> b ∈ owned w -> w_heap w' = w_heap w -> putBuf b w' = with_pool (b :: w_pool w') w'.
Proof.
  intros (_ & HD & HL & _) Hb Hh. unfold putBuf. rewrite Hh. destruct (HD b Hb) as [a Ha]. rewrite Ha.
  change (default [] (Some a)) with a. by rewrite (HL b a Ha), Nat.eqb_refl.
Qed.

Lemma lane_owned w i l b : w_lanes w !! i = Some l -> b ∈ lane_bufs l -> b ∈ owned w.
Proof. intros Hl Hb. unfold owned. rewrite !elem_of_app. right. right. by eapply lane_bufs_in. Qed.

Lemma contents_other h b a s : sl_buf s <> b -> contents (<[b := a]> h) s = contents h s.
Proof. intros H. unfold contents. by rewrite lookup_insert_ne by done. Qed.

Lemma lane_other h b a l : b ∉ lane_bufs l ->
  (forall s, lane_stream (<[b := a]> h) s l = lane_stream h s l) /\ lane_held (<[b := a]> h) l = lane_held h l.
Proof.
  unfold lane_bufs. rewrite not_elem_of_app. intros [Hs Hq]. split.
  - intros s. unfold lane_stream. f_equal. apply list_fmap_ext. intros i x Hx. apply contents_other.
    intros <-. apply Hq, list_elem_of_fmap. exists x. split; [done|]. by eapply list_elem_of_lookup_2.
  - unfold lane_held, sender_bufs in *. destruct (l_sender l) as [|s|s r]; try done.
    f_equal. apply contents_other. intros <-. apply Hs. by left.
Qed.

(** Filling an array nobody else holds changes no other value. *)
Lemma view_other w b a : b ∉ lanes_bufs (w_lanes w) ->
  zip_with (lane_stream (<[b := a]> (w_heap w))) (hb_streams (w_hub w)) (w_lanes w) =
    zip_with (lane_stream (w_heap w)) (hb_streams (w_hub w)) (w_lanes w) /\
  (lane_held (<[b := a]> (w_heap w)) <$> w_lanes w) = (lane_held (w_heap w) <$> w_lanes w).
Proof.
  intros Hb. generalize (hb_streams (w_hub w)). revert Hb. induction (w_lanes w) as [|l ls IH]; intros Hb ss.
  { by destruct ss. }
  unfold lanes_bufs in Hb. cbn in Hb. apply not_elem_of_app in Hb as [Hl Hls].
  destruct (lane_other (w_heap w) b a l Hl) as [H1 H2]. rewrite !fmap_cons, H2.
  split; [|f_equal; apply (proj2 (IH Hls []))].
  destruct ss as [|s ss]; [done|]. cbn. rewrite H1. f_equal. apply (proj1 (IH Hls ss)).
Qed.

(** ** The refinement *)

Lemma pick_ready ss ts start i k : st_ready <$> ss = st_ready <$> ts -> pick ss start i k = pick ts start i k.
Proof.
  intros H. revert i. induction k as [|k IH]; intros i; [done|]. cbn [pick].
  pose proof (f_equal length H) as Hl. rewrite !length_fmap in Hl. rewrite Hl.
  pose proof (f_equal (fun l => l !! ((start + i) mod length ts)%nat) H) as Hj. cbn in Hj. rewrite !list_lookup_fmap in Hj.
  destruct (ss !! _), (ts !! _); cbn in Hj; try done. injection Hj as ->. by rewrite IH.
Qed.

Section View.
Context (h : gmap buf bytes).

Lemma view_ready ss ls : length ls = length ss -> st_ready <$> zip_with (lane_stream h) ss ls = st_ready <$> ss.
Proof. revert ls. induction ss as [|s ss IH]; intros [|l ls] Hl; try done. cbn. f_equal. apply IH. by injection Hl. Qed.

Lemma view_lookup ss ls i s l : ss !! i = Some s -> ls !! i = Some l ->
  zip_with (lane_stream h) ss ls !! i = Some (lane_stream h s l).
Proof. intros Hs Hl. by rewrite lookup_zip_with, Hs, Hl. Qed.

(** A change of a stream or of its lane is a change of the stream seen. *)
Lemma view_alter ss ls i s l s' l' f : ss !! i = Some s -> ls !! i = Some l ->
  f (lane_stream h s l) = lane_stream h s' l' ->
  zip_with (lane_stream h) (<[i := s']> ss) (<[i := l']> ls) = alter f i (zip_with (lane_stream h) ss ls).
Proof.
  intros Hs Hl Hf. rewrite <-insert_zip_with, <-Hf.
  apply list_eq. intros j. destruct (decide (j = i)) as [->|Hj].
  - rewrite list_lookup_alter_eq, (view_lookup _ _ _ _ _ Hs Hl). cbn.
    apply list_lookup_insert_eq. eapply lookup_lt_Some, (view_lookup _ _ _ _ _ Hs Hl).
  - by rewrite list_lookup_alter_ne, list_lookup_insert_ne by done.
Qed.

Lemma alter_as_insert {A} (f : A -> A) i (l : list A) x : l !! i = Some x -> alter f i l = <[i := f x]> l.
Proof.
  intros H. apply list_eq. intros j. destruct (decide (j = i)) as [->|Hj].
  - rewrite list_lookup_alter_eq, H. cbn. symmetry. apply list_lookup_insert_eq. by eapply lookup_lt_Some.
  - by rewrite list_lookup_alter_ne, list_lookup_insert_ne by done.
Qed.
End View.

(** A step of one lane: arrays move between it and the pool, and its stream
    changes as it is seen to. *)
Lemma lane_step w i l l' p f g :
  inv w -> w_lanes w !! i = Some l -> p ++ lane_bufs l' ⊆+ w_pool w ++ lane_bufs l ->
  (forall s, f (lane_stream (w_heap w) s l) = lane_stream (w_heap w) (g s) l') ->
  let w' := mkWorld (w_heap w) p (on_stream i g (w_hub w)) (<[i := l']> (w_lanes w)) (w_sched w) in
  inv w' /\ view w' = hold i (lane_held (w_heap w) l') (on_stream i f (v_hub (view w))) (view w).
Proof.
  intros HI Hl Hp Hf w'. pose proof HI as (_ & _ & _ & Hlen).
  destruct (lookup_lt_is_Some_2 (hb_streams (w_hub w)) i) as [s Hs].
  { rewrite <-Hlen. by eapply lookup_lt_Some. }
  split.
  - apply (inv_moves w); [done| |done|].
    + unfold owned. cbn [w_pool w_sched w_lanes w'].
      apply (submseteq_app_inv_r _ _ (lane_bufs l)).
      transitivity ((p ++ lane_bufs l') ++ sched_bufs (w_sched w) ++ lanes_bufs (w_lanes w)).
      * rewrite <-!(assoc_L (++)), (lanes_bufs_insert _ _ _ l' Hl). apply Permutation_submseteq. solve_Permutation.
      * etransitivity; [apply (submseteq_app _ _ _ _ Hp (reflexivity _))|]. apply Permutation_submseteq. solve_Permutation.
    + cbn. rewrite length_insert, length_alter. done.
  - unfold view, hold, on_stream. cbn [w_heap w_hub w_lanes w_sched w' v_hub v_read v_held hb_streams set_streams].
    f_equal.
    + unfold on_stream, set_streams. cbn. f_equal. rewrite (alter_as_insert _ _ _ _ Hs). by apply (view_alter _ _ _ _ _ _ _ _ _ Hs Hl).
    + apply list_fmap_insert.
Qed.

Lemma on_stream_id i h : on_stream i id h = h.
Proof. unfold on_stream. rewrite list_alter_id by done. by destruct h. Qed.

(** The refinement of each kind of step. *)
Definition refines (l : label) (w : world) : Prop :=
  forall w' es, exec l w = Some (w', es) -> inv w' /\ vexec l (view w) = Some (view w', es).

Lemma view_stutter w w' : w_heap w' = w_heap w -> w_hub w' = w_hub w -> w_lanes w' = w_lanes w ->
  match w_sched w' with Filled _ _ => False | _ => True end ->
  match w_sched w with Filled _ _ => False | _ => True end -> view w' = view w.
Proof. unfold view. intros -> -> ->. by destruct (w_sched w'), (w_sched w). Qed.

Lemma get_refines w c : inv w -> refines (LGet c) w.
Proof.
  intros HI w' es H. cbn in H. destruct (w_sched w) eqn:Es; try done.
  destruct (getBuf c w) as [[b w1]|] eqn:Eg; [|done]. cbn in H. injection H as <- <-.
  destruct c as [n|b']; cbn in Eg.
  - destruct (w_pool w !! n) as [b'|] eqn:En; [|done]. cbn in Eg. injection Eg as <- <-. split.
    + apply (inv_moves w); [done| |done|apply HI]. unfold owned. rewrite Es.
      cbn [with_sched with_pool w_pool w_sched w_lanes sched_bufs app].
      etransitivity; [|apply Permutation_submseteq, Permutation_app_tail, Permutation_sym, (delete_Permutation _ _ _ En)].
      apply Permutation_submseteq. solve_Permutation.
    + cbn. f_equal. f_equal. symmetry. apply view_stutter; cbn; rewrite ?Es; done.
  - case_bool_decide as Hn; [|done]. injection Eg as <- <-. destruct HI as (HN & HD & HL & Hlen).
    assert (b' ∉ owned w) as Hb by (intros Hb; destruct (HD _ Hb) as [a Ha]; congruence).
    split; [split_and!|].
    + unfold owned in *. cbn. rewrite Es in *. cbn [sched_bufs app] in *.
      rewrite <-Permutation_middle. by constructor.
    + unfold owned in *. cbn. rewrite Es in *. cbn [sched_bufs app] in *. intros b Hin.
      rewrite <-Permutation_middle in Hin. apply elem_of_cons in Hin as [->|Hin]; [rewrite lookup_insert_eq; eauto|].
      rewrite lookup_insert_ne by (intros ->; done). by apply HD.
    + cbn. intros b a. rewrite lookup_insert_Some. intros [[_ <-]|[_ Ha]]; [apply length_replicate|by eapply HL].
    + done.
    + cbn. f_equal. f_equal. unfold view. cbn. rewrite Es.
      assert (b' ∉ lanes_bufs (w_lanes w)) as Hb' by (unfold owned in Hb; rewrite !elem_of_app in Hb; naive_solver).
      destruct (view_other w b' new_array Hb') as [-> ->]. done.
Qed.

Lemma take_take_length {A} n (l : list A) : take (length (take n l)) l = take n l.
Proof. rewrite length_take. destruct (decide (n <= length l)%nat); [by rewrite Nat.min_l by lia|]. by rewrite Nat.min_r, !take_ge by lia. Qed.

Lemma read_refines w pkt from : inv w -> refines (LRead pkt from) w.
Proof.
  intros (HN & HD & HL & Hlen) w' es H. cbn in H. destruct (w_sched w) as [|b| |] eqn:Es; try done.
  destruct (w_heap w !! b) as [old|] eqn:Eb; [|done]. cbn in H. injection H as <- <-. pose proof (HL _ _ Eb) as Hold.
  assert (length (fill pkt old) = PacketBufSize) as Hfill.
  { unfold fill. rewrite length_app, length_drop, length_take. lia. }
  assert (b ∉ lanes_bufs (w_lanes w)) as Hb.
  { unfold owned in HN. rewrite Es in HN. cbn [sched_bufs] in HN. rewrite (Permutation_app_comm (w_pool w)) in HN.
    cbn [app] in HN. apply NoDup_cons in HN as [HN _]. rewrite !elem_of_app in HN. naive_solver. }
  split; [split_and!|].
  - unfold owned in *. cbn. by rewrite Es in HN.
  - unfold owned in *. cbn. rewrite Es in HD. intros b' Hb'. destruct (decide (b' = b)) as [->|Hne].
    + rewrite lookup_insert_eq. eauto.
    + rewrite lookup_insert_ne by done. by apply HD.
  - cbn. intros b' a. rewrite lookup_insert_Some. intros [[_ <-]|[_ Ha]]; [done|by eapply HL].
  - done.
  - cbn. unfold view. cbn. rewrite Es. f_equal. f_equal.
    destruct (view_other w b (fill pkt old) Hb) as [-> ->]. f_equal. f_equal. f_equal.
    unfold contents. cbn. rewrite lookup_insert_eq. cbn. unfold fill. rewrite Hold.
    by rewrite take_app_length.
Qed.

Lemma contents_bounded w s : inv w -> take PacketBufSize (contents (w_heap w) s) = contents (w_heap w) s.
Proof.
  intros (_ & _ & HL & _). apply take_ge. unfold contents. rewrite length_take.
  destruct (w_heap w !! sl_buf s) as [a|] eqn:E; [|cbn; lia]. change (default [] (Some a)) with a.
  rewrite (HL _ _ E). lia.
Qed.

Lemma read_failed_refines w : inv w -> refines LReadFailed w.
Proof.
  intros HI w' es H. cbn in H. destruct (w_sched w) as [|b| |] eqn:Es; try done. injection H as <- <-.
  rewrite (putBuf_owned w) by (done || unfold owned; rewrite Es; cbn; rewrite elem_of_app, elem_of_cons; auto).
  split.
  - apply (inv_moves w); [done| |done|apply HI]. unfold owned. rewrite Es.
    cbn [with_sched with_pool w_pool w_sched w_lanes sched_bufs]. apply Permutation_submseteq. solve_Permutation.
  - cbn. f_equal. f_equal. symmetry. apply view_stutter; cbn; rewrite ?Es; done.
Qed.

Lemma forget_refines w n : inv w -> refines (LForget n) w.
Proof.
  intros HI w' es H. injection H as <- <-. split.
  - apply (inv_moves w); [done| |done|apply HI]. unfold owned. cbn [with_pool w_pool w_sched w_lanes].
    apply submseteq_app; [apply sublist_submseteq, sublist_delete|done].
  - cbn. done.
Qed.

Lemma ready_refines w i r : inv w -> refines (LReady i r) w.
Proof.
  intros HI w' es H. injection H as <- <-. pose proof HI as (_ & _ & _ & Hlen). split.
  - apply (inv_moves w); [done|done|done|]. cbn. by rewrite length_alter.
  - cbn. f_equal. f_equal. unfold view, on_stream, set_streams. cbn. f_equal. f_equal. symmetry.
    destruct (hb_streams (w_hub w) !! i) as [s|] eqn:Hs.
    + destruct (lookup_lt_is_Some_2 (w_lanes w) i) as [l Hl]; [rewrite Hlen; by eapply lookup_lt_Some|].
      rewrite (alter_as_insert _ _ _ _ Hs), <-(list_insert_id (w_lanes w) i l Hl) at 1.
      by apply (view_alter _ _ _ _ _ _ _ _ _ Hs Hl).
    + assert (alter (fun s => set_ready s r) i (hb_streams (w_hub w)) = hb_streams (w_hub w)) as ->.
      { apply list_eq. intros j. destruct (decide (j = i)) as [->|]; [by rewrite list_lookup_alter_eq, Hs|by rewrite list_lookup_alter_ne]. }
      apply list_eq. intros j. destruct (decide (j = i)) as [->|]; [|by rewrite list_lookup_alter_ne].
      by rewrite list_lookup_alter_eq, !lookup_zip_with, Hs.
Qed.

(** A goroutine's step. *)
Lemma held_lookup w i l : w_lanes w !! i = Some l -> v_held (view w) !! i = Some (lane_held (w_heap w) l).
Proof. intros H. cbn. by rewrite list_lookup_fmap, H. Qed.

Lemma take_refines w i : inv w -> refines (LTake i) w.
Proof.
  intros HI w' es H. cbn [exec] in H. destruct (w_lanes w !! i) as [l|] eqn:Hl; [|done]. cbn in H.
  destruct (l_sender l) eqn:El; try done. destruct (l_queue l) as [|s q] eqn:Eq; [done|]. injection H as <- <-.
  destruct (lane_step w i l (mkLane q (Taken s)) (w_pool w) (fun st => set_in st (contents (w_heap w) <$> q)) id HI Hl)
    as [HI' HV]; [|done|].
  { apply submseteq_app; [done|]. unfold lane_bufs. cbn. rewrite El, Eq. done. }
  rewrite on_stream_id in HI', HV. split; [exact HI'|]. unfold with_lanes. rewrite HV.
  destruct (lookup_lt_is_Some_2 (hb_streams (w_hub w)) i) as [st Hs].
  { destruct HI as (_ & _ & _ & <-). by eapply lookup_lt_Some. }
  cbn [vexec]. rewrite (held_lookup w i l Hl). cbn [view v_hub hb_streams set_streams].
  rewrite (view_lookup _ _ _ _ _ _ Hs Hl). cbn. unfold lane_held at 1. by rewrite Eq, El.
Qed.

Lemma write_refines w i written : inv w -> refines (LWrite i written) w.
Proof.
  intros HI w' es H. cbn [exec] in H. destruct (w_lanes w !! i) as [l|] eqn:Hl; [|done]. cbn in H.
  destruct (l_sender l) as [|s|] eqn:El; try done. injection H as <- <-.
  destruct (lane_step w i l (mkLane (l_queue l) (Sent s (written (contents (w_heap w) s)))) (w_pool w) id id HI Hl)
    as [HI' HV]; [|done|].
  { apply submseteq_app; [done|]. unfold lane_bufs. cbn. by rewrite El. }
  rewrite on_stream_id in HI'. rewrite !on_stream_id in HV. split; [exact HI'|]. unfold with_lanes. rewrite HV.
  cbn [vexec]. rewrite (held_lookup w i l Hl). unfold lane_held. rewrite El. reflexivity.
Qed.

(** The two ways an array comes back from a goroutine. *)
Lemma release_step w i l s g : inv w -> w_lanes w !! i = Some l -> sender_bufs (l_sender l) = [sl_buf s] ->
  (forall st q, g (set_in st q) = set_in (g st) q) ->
  let w' := with_hub (on_stream i g (w_hub w)) (with_lanes (<[i := mkLane (l_queue l) Waiting]> (w_lanes w)) (putBuf (sl_buf s) w)) in
  inv w' /\ view w' = hold i Nothing (on_stream i g (v_hub (view w))) (view w).
Proof.
  intros HI Hl Hs Hg. rewrite (putBuf_owned w); [|done| |done].
  - apply (lane_step w i l (mkLane (l_queue l) Waiting) (sl_buf s :: w_pool w) g g HI Hl).
    + unfold lane_bufs. cbn [l_sender l_queue sender_bufs]. rewrite Hs. apply Permutation_submseteq. solve_Permutation.
    + intros st. apply Hg.
  - apply (lane_owned w i l); [done|]. unfold lane_bufs. rewrite Hs. by left.
Qed.

Lemma expired_refines w i : inv w -> refines (LExpired i) w.
Proof.
  intros HI w' es H. cbn [exec] in H. destruct (w_lanes w !! i) as [l|] eqn:Hl; [|done]. cbn in H.
  destruct (l_sender l) as [|s|] eqn:El; try done. injection H as <- <-.
  destruct (release_step w i l s count_drop HI Hl) as [HI' HV]; [by rewrite El|done|].
  split; [exact HI'|]. rewrite HV. cbn [vexec]. rewrite (held_lookup w i l Hl). unfold lane_held. by rewrite El.
Qed.

Lemma put_refines w i : inv w -> refines (LPut i) w.
Proof.
  intros HI w' es H. cbn [exec] in H. destruct (w_lanes w !! i) as [l|] eqn:Hl; [|done]. cbn in H.
  destruct (l_sender l) as [| |s r] eqn:El; try done. injection H as <- <-.
  destruct (release_step w i l s (after_write r) HI Hl) as [HI' HV]; [by rewrite El|by destruct r|].
  split; [exact HI'|]. rewrite HV. cbn [vexec]. rewrite (held_lookup w i l Hl). unfold lane_held. by rewrite El.
Qed.

(** A packet that goes to no queue gives its array back. *)
Lemma discard_step w s from hub' : inv w -> w_sched w = Filled s from ->
  length (hb_streams hub') = length (hb_streams (w_hub w)) ->
  let w2 := putBuf (sl_buf s) (with_hub hub' (with_sched Ready w)) in
  inv w2 /\ view w2 = mkValues (set_streams hub' (zip_with (lane_stream (w_heap w)) (hb_streams hub') (w_lanes w)))
                        None (v_held (view w)).
Proof.
  intros HI Es Hlen w2. unfold w2.
  rewrite (putBuf_owned w); [|done| |done].
  - split; [|done]. apply (inv_moves w); [done| |done|].
    + unfold owned. rewrite Es. cbn [with_pool with_hub with_sched w_pool w_sched w_lanes sched_bufs].
      apply Permutation_submseteq. solve_Permutation.
    + cbn. rewrite Hlen. apply HI.
  - unfold owned. rewrite Es. cbn [sched_bufs]. rewrite !elem_of_app, list_elem_of_singleton. auto.
Qed.

(** The loop's turn of the hub, before the packet is handed to a stream. *)
Definition turn (h : Hub) : nat := ((Z.to_nat (hb_lastUsed h) + 1) mod length (hb_streams h))%nat.
Definition turned (h : Hub) : Hub :=
  mkHub (hb_cfg h) (hb_creds h) (hb_started h) (hb_stopped h) (hb_streams h) (Z.of_nat (turn h)) (hb_ready_closed h).
Definition chosen (h : Hub) : option nat := pick (hb_streams h) (turn h) 0 (length (hb_streams h)).

Lemma schedule_turn h pkt from : hb_streams h <> [] ->
  schedule h pkt from =
  match chosen h with
  | None => (turned h, Discarded)
  | Some i =>
      match hb_streams h !! i with
      | None => (turned h, Discarded)
      | Some s =>
          let s := set_peer s from in
          if (length (st_in s) <? queue_cap)%nat
          then (set_streams (turned h) (<[i := set_in s (st_in s ++ [take PacketBufSize pkt])]> (hb_streams h)), Queued i)
          else (set_streams (turned h) (<[i := count_drop s]> (hb_streams h)), QueueFull i)
      end
  end.
Proof. unfold schedule, chosen, turned, turn. by destruct (hb_streams h). Qed.

Lemma hand_off_turn s from w : hb_streams (w_hub w) <> [] ->
  hand_off s from w =
  match chosen (w_hub w) with
  | None => (putBuf (sl_buf s) (with_hub (turned (w_hub w)) w), Discarded)
  | Some i =>
      match hb_streams (w_hub w) !! i, w_lanes w !! i with
      | Some st, Some l =>
          let st := set_peer st from in
          if (length (l_queue l) <? queue_cap)%nat
          then (with_lanes (<[i := mkLane (l_queue l ++ [s]) (l_sender l)]> (w_lanes w))
                  (with_hub (set_streams (turned (w_hub w)) (<[i := st]> (hb_streams (w_hub w)))) w), Queued i)
          else (putBuf (sl_buf s) (with_hub (set_streams (turned (w_hub w)) (<[i := count_drop st]> (hb_streams (w_hub w)))) w), QueueFull i)
      | _, _ => (putBuf (sl_buf s) (with_hub (turned (w_hub w)) w), Discarded)
      end
  end.
Proof. unfold hand_off, chosen, turned, turn. by destruct (hb_streams (w_hub w)). Qed.

Lemma view_length w : inv w -> length (hb_streams (v_hub (view w))) = length (hb_streams (w_hub w)).
Proof. intros (_ & _ & _ & Hlen). cbn. rewrite length_zip_with. lia. Qed.

(** The machines choose the same stream. *)
Lemma view_chosen w : inv w -> chosen (v_hub (view w)) = chosen (w_hub w) /\ turn (v_hub (view w)) = turn (w_hub w).
Proof.
  intros HI. assert (turn (v_hub (view w)) = turn (w_hub w)) as Ht by (unfold turn; by rewrite view_length).
  split; [|done]. unfold chosen. rewrite Ht, view_length by done. apply pick_ready. apply view_ready, HI.
Qed.

(** One that is queued goes into its lane. *)
Lemma queue_step w s from i st l : inv w -> w_sched w = Filled s from ->
  hb_streams (w_hub w) !! i = Some st -> w_lanes w !! i = Some l ->
  let w2 := with_lanes (<[i := mkLane (l_queue l ++ [s]) (l_sender l)]> (w_lanes w))
              (with_hub (set_streams (turned (w_hub w)) (<[i := set_peer st from]> (hb_streams (w_hub w)))) (with_sched Ready w)) in
  inv w2 /\ view w2 =
    mkValues (set_streams (turned (v_hub (view w)))
       (<[i := set_in (set_peer (lane_stream (w_heap w) st l) from) ((contents (w_heap w) <$> l_queue l) ++ [contents (w_heap w) s])]>
          (hb_streams (v_hub (view w))))) None (v_held (view w)).
Proof.
  intros HI Es Hs Hl w2. pose proof HI as (_ & _ & _ & Hlen). set (l' := mkLane (l_queue l ++ [s]) (l_sender l)) in w2. split.
  - apply (inv_moves w); [done| |done|by cbn; rewrite !length_insert].
    unfold owned, w2. rewrite Es. cbn [with_lanes with_hub with_sched w_pool w_sched w_lanes sched_bufs app].
    apply (submseteq_app_inv_r _ _ (lane_bufs l)). rewrite <-!(assoc_L (++)), (lanes_bufs_insert _ _ _ l' Hl).
    assert (lane_bufs l' ≡ₚ sl_buf s :: lane_bufs l) as ->.
    { unfold lane_bufs. cbn [l' l_queue l_sender]. rewrite fmap_app. cbn [fmap list_fmap]. solve_Permutation. }
    apply Permutation_submseteq. solve_Permutation.
  - destruct (view_chosen w HI) as [_ Ht]. unfold w2, view. cbn [with_lanes with_hub with_sched w_heap w_hub w_lanes w_sched v_hub v_held].
    f_equal.
    + unfold set_streams, turned. cbn. f_equal; [|by rewrite <-Ht]. rewrite <-insert_zip_with. f_equal.
      unfold lane_stream. cbn. by rewrite fmap_app.
    + rewrite list_fmap_insert. apply list_insert_id. by rewrite list_lookup_fmap, Hl.
Qed.

Lemma hand_off_refines w : inv w -> refines LHandOff w.
Proof.
  intros HI w' es H. cbn [exec] in H. destruct (w_sched w) as [| |s from|] eqn:Es; try done.
  pose proof HI as (_ & _ & _ & Hlen). destruct (view_chosen w HI) as [Hc Ht].
  destruct (hand_off s from (with_sched Ready w)) as [w1 o] eqn:Eo. injection H as <- <-.
  cbn [vexec]. replace (v_read (view w)) with (Some (contents (w_heap w) s, from)) by (cbn; by rewrite Es).
  cbn [mbind option_bind].
  enough (inv w1 /\ exists h, schedule (v_hub (view w)) (contents (w_heap w) s) from = (h, o) /\
            view w1 = mkValues h None (v_held (view w))) as (HI1 & h & -> & ->) by done.
  destruct (decide (hb_streams (w_hub w) = [])) as [En|En].
  { assert (hb_streams (v_hub (view w)) = []) as En' by (cbn; by rewrite En).
    unfold schedule. rewrite En'. unfold hand_off in Eo. cbn [w_hub with_sched] in Eo. rewrite En in Eo.
    injection Eo as <- <-. destruct (discard_step w s from (w_hub w) HI Es eq_refl) as [HI2 HV].
    split; [exact HI2|]. eexists. split; [done|exact HV]. }
  rewrite hand_off_turn in Eo by done. rewrite schedule_turn, Hc.
  2:{ intros E. apply (f_equal length) in E. rewrite view_length in E by done. by destruct (hb_streams (w_hub w)). }
  cbn [w_hub with_sched w_lanes] in Eo.
  assert (Hdis : (putBuf (sl_buf s) (with_hub (turned (w_hub w)) (with_sched Ready w)), Discarded) = (w1, o) -> inv w1 /\
    exists h, (turned (v_hub (view w)), Discarded) = (h, o) /\ view w1 = mkValues h None (v_held (view w))).
  { intros [= <- <-]. destruct (discard_step w s from (turned (w_hub w)) HI Es eq_refl) as [HI2 HV].
    split; [exact HI2|]. eexists. split; [done|]. rewrite HV. unfold turned. by rewrite Ht. }
  destruct (chosen (w_hub w)) as [i|]; [|by apply Hdis].
  destruct (hb_streams (w_hub w) !! i) as [st|] eqn:Hs.
  2:{ cbn [view v_hub hb_streams set_streams]. rewrite lookup_zip_with, Hs. by apply Hdis. }
  destruct (lookup_lt_is_Some_2 (w_lanes w) i) as [l Hl]; [rewrite Hlen; by eapply lookup_lt_Some|].
  rewrite Hl in Eo. change (hb_streams (v_hub (view w)) !! i) with (zip_with (lane_stream (w_heap w)) (hb_streams (w_hub w)) (w_lanes w) !! i).
  rewrite (view_lookup _ _ _ _ _ _ Hs Hl), contents_bounded by done.
  cbn [lane_stream set_in set_peer st_in]. rewrite length_fmap.
  destruct (length (l_queue l) <? queue_cap)%nat; injection Eo as <- <-.
  - destruct (queue_step w s from i st l HI Es Hs Hl) as [HI2 HV]. split; [exact HI2|]. eexists. split; [done|exact HV].
  - destruct (discard_step w s from (set_streams (turned (w_hub w)) (<[i := count_drop (set_peer st from)]> (hb_streams (w_hub w)))) HI Es)
      as [HI2 HV]; [cbn; by rewrite length_insert|]. split; [exact HI2|]. eexists. split; [done|]. rewrite HV.
    unfold turned. rewrite <-Ht. cbn. do 2 f_equal. rewrite <-(list_insert_id (w_lanes w) i l Hl) at 1. by rewrite <-insert_zip_with.
Qed.

Lemma exec_refines w l : inv w -> refines l w.
Proof.
  intros HI. destruct l; eauto using get_refines, read_refines, read_failed_refines, hand_off_refines, take_refines,
    expired_refines, write_refines, put_refines, ready_refines, forget_refines.
Qed.

Lemma run_refines ls w w' es : inv w -> run ls w = Some (w', es) -> inv w' /\ vrun ls (view w) = Some (view w', es).
Proof.
  revert w es. induction ls as [|l ls IH]; intros w es HI H; cbn [run] in H; [by injection H as <- <-|].
  destruct (exec l w) as [[w1 es1]|] eqn:E1; [|done]. cbn in H.
  destruct (run ls w1) as [[w2 es2]|] eqn:E2; [|done]. cbn in H. injection H as <- <-.
  destruct (exec_refines w l HI _ _ E1) as [HI1 H1]. destruct (IH _ _ HI1 E2) as [HI2 H2].
  split; [done|]. cbn [vrun]. rewrite H1. cbn. by rewrite H2.
Qed.

(** ** First in, first out *)

Definition accepted (i : nat) (es : list event) : list bytes :=
  omap (fun e => match e with Decided p (Queued j) => if (j =? i)%nat then Some p else None | _ => None end) es.
Definition gone_out (i : nat) (es : list event) : list bytes :=
  omap (fun e => match e with Wrote j p | Expired j p => if (j =? i)%nat then Some p else None | _ => None end) es.
Definition decided (es : list event) : list bytes :=
  omap (fun e => match e with Decided p _ => Some p | _ => None end) es.
Definition arrived (ls : list label) : list bytes :=
  omap (fun l => match l with LRead p _ => Some (take PacketBufSize p) | _ => None end) ls.

Definition pending (v : values) : list bytes := match v_read v with Some (p, _) => [p] | None => [] end.
Definition waiting (i : nat) (v : values) : list bytes :=
  (match v_held v !! i with Some (Packet p) => [p] | _ => [] end) ++
  (match hb_streams (v_hub v) !! i with Some s => st_in s | None => [] end).

Lemma on_stream_queue i j f h : (forall s, st_in (f s) = st_in s) ->
  match hb_streams (on_stream i f h) !! j with Some s => st_in s | None => [] end =
  match hb_streams h !! j with Some s => st_in s | None => [] end.
Proof.
  intros Hf. cbn. destruct (decide (j = i)) as [->|]; [|by rewrite list_lookup_alter_ne].
  rewrite list_lookup_alter_eq. destruct (hb_streams h !! i); [apply Hf|done].
Qed.

Definition bounded (v : values) : Prop := Forall (fun p => take PacketBufSize p = p) (pending v).

Lemma schedule_fifo h pkt from h' o i : take PacketBufSize pkt = pkt -> schedule h pkt from = (h', o) ->
  match hb_streams h !! i with Some s => st_in s | None => [] end ++ accepted i [Decided pkt o] =
  match hb_streams h' !! i with Some s => st_in s | None => [] end.
Proof.
  intros Hp H. destruct (schedule_spec _ _ _ _ _ H) as (_ & Hr & Hlen & He).
  destruct (hb_streams h !! i) as [s|] eqn:Es.
  - destruct (He i s Es) as [-> _]. unfold accepted.
    destruct o as [|j|j]; cbn [omap list_omap after_packet]; [apply app_nil_r| |].
    + destruct (j =? i)%nat; cbn [st_in set_in set_peer]; [by rewrite Hp|apply app_nil_r].
    + rewrite app_nil_r. by destruct (j =? i)%nat.
  - assert (hb_streams h' !! i = None) as -> by (apply lookup_ge_None; rewrite Hlen; by apply lookup_ge_None).
    destruct o as [|j|j]; cbn; try done. destruct (Nat.eqb_spec j i) as [->|]; [|done].
    destruct (Hr i eq_refl) as (s & Hs & _). congruence.
Qed.

Definition held_packet (x : held) : list bytes := match x with Packet p => [p] | Nothing | Written _ => [] end.

(** What is on its way to stream [i] after its goroutine, or another's, has
    moved from [x] to [y]. *)
Lemma hold_waiting i j x y h v : v_held v !! j = Some x ->
  waiting i (hold j y h v) =
  (if (j =? i)%nat then held_packet y else match v_held v !! i with Some (Packet p) => [p] | _ => [] end) ++
  match hb_streams h !! i with Some s => st_in s | None => [] end.
Proof.
  intros Hj. unfold waiting. cbn [v_held v_hub hold]. f_equal. destruct (Nat.eqb_spec j i) as [->|Hne].
  - rewrite list_lookup_insert_eq by (by eapply lookup_lt_Some). by destruct y.
  - by rewrite list_lookup_insert_ne.
Qed.

Definition gone_packets (i : nat) (j : nat) (ps : list bytes) : list bytes := if (j =? i)%nat then ps else [].

Lemma hold_fifo i j x y f v : v_held v !! j = Some x -> (forall s, st_in (f s) = st_in s) ->
  length (v_held v) = length (hb_streams (v_hub v)) -> bounded v ->
  let v' := hold j y (on_stream j f (v_hub v)) v in
  bounded v' /\ length (v_held v') = length (hb_streams (v_hub v')) /\ pending v' = pending v /\
  forall gone, held_packet x = gone ++ held_packet y -> waiting i v = gone_packets i j gone ++ waiting i v'.
Proof.
  intros Hj Hf Hl Hb v'. split; [done|]. split; [cbn; by rewrite length_insert, length_alter|]. split; [done|].
  intros gone Hx. unfold v', gone_packets. rewrite (hold_waiting _ _ _ _ _ _ Hj), (on_stream_queue j i f) by done.
  unfold waiting. destruct (Nat.eqb_spec j i) as [->|]; [|done]. rewrite Hj, app_assoc, <-Hx. by destruct x.
Qed.

Lemma take_fifo i j p q s v : v_held v !! j = Some Nothing -> hb_streams (v_hub v) !! j = Some s -> st_in s = p :: q ->
  waiting i (hold j (Packet p) (on_stream j (fun s => set_in s q) (v_hub v)) v) = waiting i v.
Proof.
  intros Hj Hs Hq. rewrite (hold_waiting _ _ _ _ _ _ Hj). unfold waiting. cbn [on_stream hb_streams set_streams].
  destruct (Nat.eqb_spec j i) as [->|]; [|by rewrite list_lookup_alter_ne].
  by rewrite list_lookup_alter_eq, Hs, Hj, Hq.
Qed.

Ltac by_hold H gone :=
  destruct H as (H1 & H2 & H3 & H4);
  split_and!; [done|done| |by rewrite H3; cbn; rewrite app_nil_r];
  rewrite (H4 gone eq_refl), app_nil_r; unfold gone_packets; cbn; by case_match.

(** A step keeps the order: what has gone out, is held and is queued is what
    has been accepted. *)
Lemma vexec_fifo l v v' es i : bounded v -> length (v_held v) = length (hb_streams (v_hub v)) -> vexec l v = Some (v', es) ->
  bounded v' /\ length (v_held v') = length (hb_streams (v_hub v')) /\
  waiting i v ++ accepted i es = gone_out i es ++ waiting i v' /\
  pending v ++ arrived [l] = decided es ++ pending v'.
Proof.
  intros Hb Hl H. destruct l as [c|pkt from| | |j|j|j written|j|j r|n]; cbn [vexec] in H;
    try (injection H as <- <-; cbn; rewrite ?app_nil_r; by split_and!).
  - unfold bounded, pending in *. destruct (v_read v); [done|]. injection H as <- <-. cbn [v_read v_held v_hub].
    split; [|by rewrite app_nil_r]. constructor; [|done]. by rewrite take_take, Nat.min_id.
  - unfold bounded, pending in *. destruct (v_read v) as [[pkt from]|] eqn:Er; [|done]. cbn [mbind option_bind] in H.
    destruct (schedule (v_hub v) pkt from) as [h o] eqn:Es. injection H as <- <-. inversion Hb as [|? ? Hp _]; subst.
    destruct (schedule_spec _ _ _ _ _ Es) as (_ & _ & Hlen & _). cbn [v_read v_held v_hub].
    split; [constructor|]. split; [by rewrite Hl|]. split; [|done].
    unfold waiting. cbn [v_held v_hub]. rewrite <-(app_assoc _ _ (accepted _ _)), (schedule_fifo _ _ _ _ _ _ Hp Es). done.
  - destruct (hb_streams (v_hub v) !! j) as [s|] eqn:Es; [|done]. cbn [mbind option_bind] in H.
    destruct (st_in s) as [|p q] eqn:Eq; [done|]. destruct (v_held v !! j) as [[]|] eqn:Ej; try done. injection H as <- <-.
    cbn [accepted gone_out decided arrived omap list_omap]. rewrite !app_nil_r, (take_fifo _ _ _ _ _ _ Ej Es Eq).
    split_and!; try done. cbn. by rewrite length_insert, length_alter.
  - destruct (v_held v !! j) as [[|p|]|] eqn:Ej; try done. injection H as <- <-.
    by_hold (hold_fifo i j _ Nothing count_drop v Ej ltac:(done) Hl Hb) [p].
  - destruct (v_held v !! j) as [[|p|]|] eqn:Ej; try done. injection H as <- <-. 
    replace (hold j (Written (written p)) (v_hub v) v) with (hold j (Written (written p)) (on_stream j id (v_hub v)) v)
      by (by rewrite on_stream_id).
    by_hold (hold_fifo i j _ (Written (written p)) id v Ej ltac:(done) Hl Hb) [p].
  - destruct (v_held v !! j) as [[| |r]|] eqn:Ej; try done. injection H as <- <-.
    assert (forall s, st_in (after_write r s) = st_in s) as Hf by (by destruct r).
    by_hold (hold_fifo i j _ Nothing (after_write r) v Ej Hf Hl Hb) (@nil bytes).
  - injection H as <- <-. split_and!; [done|cbn; by rewrite length_alter| |cbn; by rewrite app_nil_r].
    unfold waiting. cbn [v_hub v_held]. rewrite (on_stream_queue j i (fun s => set_ready s r)) by done. cbn. apply app_nil_r.
Qed.

Lemma vrun_fifo ls v v' es i : bounded v -> length (v_held v) = length (hb_streams (v_hub v)) -> vrun ls v = Some (v', es) ->
  waiting i v ++ accepted i es = gone_out i es ++ waiting i v' /\ pending v ++ arrived ls = decided es ++ pending v'.
Proof.
  revert v es. induction ls as [|l ls IH]; intros v es Hb Hl H; cbn [vrun] in H.
  { injection H as <- <-. cbn. by rewrite !app_nil_r. }
  destruct (vexec l v) as [[v1 es1]|] eqn:E1; [|done]. cbn in H.
  destruct (vrun ls v1) as [[v2 es2]|] eqn:E2; [|done]. cbn in H. injection H as <- <-.
  destruct (vexec_fifo _ _ _ _ i Hb Hl E1) as (Hb1 & Hl1 & Hw1 & Hp1).
  destruct (IH v1 es2 Hb1 Hl1 E2) as [Hw2 Hp2]. unfold accepted, gone_out, decided, arrived in *.
  change (l :: ls) with ([l] ++ ls). rewrite !omap_app.
  rewrite (app_assoc (waiting i v)), Hw1, <-!app_assoc, Hw2. split; [done|].
  by rewrite (app_assoc (pending v)), Hp1, <-!app_assoc, Hp2.
Qed.

Lemma hold_held i x y h v : v_held v !! i = Some x -> v_held (hold i y h v) !! i = Some y.
Proof. intros H. cbn. apply list_lookup_insert_eq. by eapply lookup_lt_Some. Qed.

(** A goroutine's three steps on a packet are one round of [pumpRaw_tx]. *)
Lemma round_is_pumpRaw_tx v i s pkt q written :
  hb_streams (v_hub v) !! i = Some s -> v_held v !! i = Some Nothing -> st_in s = pkt :: q ->
  exists v', vrun [LTake i; LWrite i written; LPut i] v = Some (v', [Wrote i pkt]) /\
    hb_streams (v_hub v') !! i = Some (fst (fst (pumpRaw_tx s written))).
Proof.
  intros Hs Hh Hq. eexists. split.
  - cbn [vrun vexec]. rewrite Hs. cbn [mbind option_bind]. rewrite Hq, Hh. cbn [mbind option_bind].
    rewrite (hold_held _ _ _ _ _ Hh). cbn [mbind option_bind].
    rewrite (hold_held _ _ _ _ _ (hold_held _ _ _ _ _ Hh)). cbn [mbind option_bind app]. reflexivity.
  - cbn [v_hub hold on_stream hb_streams set_streams]. rewrite !list_lookup_alter_eq, Hs. unfold pumpRaw_tx. rewrite Hq. cbn.
    destruct (written pkt); reflexivity.
Qed.

(** The hub started with no buffer in use. *)
Definition boot (h : Hub) : world := mkWorld ∅ [] h (replicate (length (hb_streams h)) (mkLane [] Waiting)) Ready.

Lemma boot_bufs n : lanes_bufs (replicate n (mkLane [] Waiting)) = [].
Proof. induction n as [|n IH]; [done|]. cbn. exact IH. Qed.

Lemma inv_boot h : inv (boot h).
Proof.
  unfold inv, owned, boot. cbn [w_pool w_sched w_lanes w_heap w_hub sched_bufs app]. rewrite boot_bufs.
  split_and!; [constructor|by intros b ?%elem_of_nil|done|apply length_replicate].
Qed.

Lemma view_boot h : Forall (fun s => st_in s = []) (hb_streams h) ->
  view (boot h) = mkValues h None (replicate (length (hb_streams h)) Nothing).
Proof.
  intros Hq. unfold view, boot. cbn [w_heap w_hub w_lanes w_sched]. f_equal.
  - destruct h as [cfg cr st sp ss lu rc]. unfold set_streams. cbn in *. f_equal.
    induction Hq as [|s ss Hs _ IH]; [done|]. cbn. rewrite IH. f_equal. unfold lane_stream. cbn. rewrite <-Hs. by destruct s.
  - by rewrite fmap_replicate.
Qed.

(** C7. The buffers of the hub are shared safely.  In every interleaving of
    the scheduler, the sending goroutines, the pool and the collector, from a
    hub without packets, an array has one owner, and the run over shared
    arrays shows what the run over packet values shows: the scheduler's
    decisions, and what every stream writes.  No packet is lost, repeated,
    reordered or overwritten: for every stream what has gone out, is held and
    is queued is what the scheduler accepted for it, in order; and what it has
    decided on, with the packet in its hands, is what arrived. *)
Theorem buffers_invisible h ls w es :
  Forall (fun s => st_in s = []) (hb_streams h) -> run ls (boot h) = Some (w, es) ->
  NoDup (owned w) /\
  vrun ls (mkValues h None (replicate (length (hb_streams h)) Nothing)) = Some (view w, es) /\
  (forall i, gone_out i es ++ waiting i (view w) = accepted i es) /\
  decided es ++ pending (view w) = arrived ls.
Proof.
  intros Hq H. destruct (run_refines _ _ _ _ (inv_boot h) H) as [HI HV]. rewrite (view_boot h Hq) in HV.
  split; [apply HI|]. split; [done|].
  set (v := mkValues h None (replicate (length (hb_streams h)) Nothing)) in *.
  assert (forall i, waiting i v = []) as Hw.
  { intros i. unfold waiting. cbn [v v_held v_hub]. destruct (hb_streams h !! i) as [s|] eqn:Es.
    - rewrite (proj1 (Forall_lookup _ _) Hq i s Es), app_nil_r. rewrite lookup_replicate_2; [done|by eapply lookup_lt_Some].
    - rewrite app_nil_r. destruct (replicate _ _ !! i) eqn:E; [|done]. by apply lookup_replicate in E as [-> _]. }
  assert (length (v_held v) = length (hb_streams (v_hub v))) as Hl by apply length_replicate.
  split.
  - intros i. pose proof (proj1 (vrun_fifo ls v (view w) es i ltac:(constructor) Hl HV)) as HF.
    rewrite Hw in HF. by rewrite <-HF.
  - pose proof (proj2 (vrun_fifo ls v (view w) es 0 ltac:(constructor) Hl HV)) as HF. by rewrite <-HF.
Qed.

(** Two packets through one array: the second is read while the first is
    being written, into another array, and a third reuses the first's. *)
Definition sent_ok : bytes -> result error Z := fun b => Ok (Z.of_nat (length b)).
Definition demo_labels : list label :=
  [LGet (Alloc 1%positive); LRead "one"%go "a:1"%go; LHandOff; LTake 0; LGet (Alloc 2%positive); LRead "three"%go "a:1"%go;
   LWrite 0 sent_ok; LPut 0; LHandOff; LGet (Reuse 0); LRead "x"%go "a:1"%go; LTake 0; LHandOff; LWrite 0 sent_ok].

Lemma buffers_invisible_witness :
  exists w es, run demo_labels (boot (demo_hub [true])) = Some (w, es) /\ NoDup (owned w) /\
    gone_out 0 es = ["one"%go; "three"%go] /\ waiting 0 (view w) = ["x"%go] /\
    gone_out 0 es ++ waiting 0 (view w) = accepted 0 es.
Proof.
  destruct (run demo_labels (boot (demo_hub [true]))) as [[w es]|] eqn:E; [|vm_compute in E; discriminate E].
  destruct (buffers_invisible (demo_hub [true]) demo_labels w es ltac:(repeat constructor) E) as (H1 & _ & H2 & _).
  exists w, es. split; [reflexivity|]. split; [exact H1|]. vm_compute in E. injection E as <- <-.
  split; [vm_compute; reflexivity|]. split; [vm_compute; reflexivity|]. exact (H2 0%nat).
Defined.
