(* ===== verification/Link.v ===== *)
(** * The tunnel end to end: the hub's streams and the server's session

    The client of Proxy and the server of Server and Session put together:
    each stream's preamble on a connection of its own, the packets of the
    local application through the scheduler, a stream and the server's reader
    to the backend, and the backend's packets through the session's round
    robin back to the stream of the connection and the application.  The
    network is what it is between them when nothing is lost: records arrive
    whole and in order. *)

From stdpp Require Import gmap list_tactics.
From S2P Require Import Prelude GoStrings GoErrors Encoding Framing RoundRobin Session Server Proxy.

(** ** Connecting *)

(** What the server reads first from the connection of stream [i]: the records
    [pumpDTLS] has written. *)
Definition preamble (sid : bytes) (i : nat) : wire :=
  fst (WriteHandshake (E := unit) (fun w b => (w ++ [Chunk b], None)) [] sid (byte_of_Z (Z.of_nat i))).

(** [handleConn] up to [runStream], without interruption. *)
Fixpoint settle (fuel : nat) (σ : server) (t : thread) : server :=
  match fuel, t with
  | O, _ | _, TStream _ _ _ => σ
  | S fuel, _ => match handler_step σ t IoOk with Some (σ, t, _) => settle fuel σ t | None => σ end
  end.
Definition attach (σ : server) (conn : nat) (r : wire) : server := settle 5 σ (TConn r conn).

(** The streams of [order] connect, one after the other. *)
Fixpoint attach_all (sid : bytes) (σ : server) (conn : nat) (order : list nat) : server :=
  match order with
  | [] => σ
  | i :: order => attach_all sid (attach σ conn (preamble sid i)) (S conn) order
  end.

(** ** Up: from the application to the backend *)

(** A round of the server's [runStream]: a record read from the connection is
    written to the backend; [inr]: the reader returns, and whether it ends the
    session. *)
Definition runStream_round (read : result error bytes) (write : option error) : bytes + bool :=
  match read with
  | Err _ => inr false
  | Ok rec => match write with Some _ => inr true | None => inl (take readBufSize rec) end
  end.

(** A stream sends what it has queued, and the server's reader passes it on. *)
Definition accepts : bytes -> result error Z := fun b => Ok (Z.of_nat (length b)).
Fixpoint carry_up (n : nat) (s : stream) (now : Z) : stream * list bytes :=
  match n with
  | O => (s, [])
  | S n =>
      match pumpDTLS_tx s 0 0 now accepts with
      | (s, Some rec, _) =>
          let '(s, out) := carry_up n s now in
          (s, match runStream_round (Ok rec) None with inl p => p :: out | inr _ => out end)
      | (s, None, _) => (s, [])
      end
  end.

(** What the backend gets for the application's packets, by stream. *)
Definition uplink (h : Hub) (now : Z) : list bytes :=
  concat (map (fun s => snd (carry_up (length (st_in s)) s now)) (hb_streams h)).

(** ** Down: from the backend to the application *)

(** The server has written a packet to connection [conn], that of stream
    [order !! conn]. *)
Definition receive (order : list nat) (now : Z) (h : Hub) (o : dispatched) : Hub * option (bytes * bytes) :=
  match o with
  | Sent conn pkt =>
      match order !! conn with
      | Some i =>
          match hb_streams h !! i with
          | Some s => let '(s, out, _, _) := pumpDTLS_rx s 0 now (Ok pkt) None in
                      (Proxy.set_streams h (<[i := s]> (hb_streams h)), out)
          | None => (h, None)
          end
      | None => (h, None)
      end
  | Dropped | IndexPanic => (h, None)
  end.

Fixpoint receive_all (order : list nat) (now : Z) (h : Hub) (os : list dispatched) : Hub * list (option (bytes * bytes)) :=
  match os with
  | [] => (h, [])
  | o :: os =>
      let '(h, r) := receive order now h o in
      let '(h, rs) := receive_all order now h os in (h, r :: rs)
  end.

(** ** Lemmas: connecting *)

Lemma ReadHandshake_record (sid : bytes) (id : byte) (r : wire) : length sid = SessionIDSize ->
  exists r', ReadHandshake (Chunk (handshake_bytes sid id) :: r) = (r', Ok (sid, id)).
Proof.
  intros Hl. assert (length (handshake_bytes sid id) = HandshakeSize) as Hh.
  { unfold handshake_bytes. rewrite length_app, Hl. done. }
  unfold ReadHandshake. replace HandshakeSize with (S SessionIDSize) at 1 by done. cbn [ReadFull].
  rewrite (proj2 (Nat.leb_le _ _)) by (rewrite Hh; done).
  rewrite take_ge by (rewrite Hh; done). eexists. cbn [app]. f_equal. f_equal. unfold handshake_bytes.
  rewrite <-Hl, take_app_length, lookup_app_r, Nat.sub_diag by done. done.
Qed.

Lemma put_stream_append l id conn : id ∉ map se_id l -> put_stream l id conn = (l ++ [Session.mkStream id conn], None).
Proof.
  induction l as [|e l IH]; intros H; [done|]. cbn [map] in H. apply not_elem_of_cons in H as [Hne H].
  cbn [put_stream]. rewrite (IH H). destruct (byte_eqb_spec (se_id e) id) as [E|]; [congruence|reflexivity].
Qed.

(** The session of a client whose streams connected in [order]. *)
Definition joined (sid : bytes) (order : list nat) : session :=
  mkSession (hex_encode sid) (imap (fun c i => Session.mkStream (byte_of_Z (Z.of_nat i)) c) order) 0 false false 0.
Definition serving (σ : server) (sid : bytes) (order : list nat) : Prop :=
  sv_closed σ = ∅ /\
  match order with
  | [] => sv_sessions σ = ∅ /\ sv_heap σ = []
  | _ => sv_sessions σ = {[hex_encode sid := O]} /\ sv_heap σ = [joined sid order]
  end.

Lemma byte_of_nat_inj i j : (i < 256)%nat -> (j < 256)%nat ->
  byte_of_Z (Z.of_nat i) = byte_of_Z (Z.of_nat j) -> i = j.
Proof.
  intros Hi Hj E. apply (f_equal byte_val) in E. rewrite !byte_val_of_Z, !Z.mod_small in E by lia. lia.
Qed.

Lemma joined_ids sid order : ids (joined sid order) = map (fun i => byte_of_Z (Z.of_nat i)) order.
Proof.
  unfold ids, joined. cbn [s_streams]. change (map se_id) with (fmap (M := list) se_id).
  rewrite fmap_imap. apply imap_const.
Qed.

Lemma joined_snoc sid order i :
  s_streams (joined sid (order ++ [i])) = s_streams (joined sid order) ++ [Session.mkStream (byte_of_Z (Z.of_nat i)) (length order)].
Proof. unfold joined. cbn [s_streams]. rewrite imap_app. cbn [imap]. by rewrite Nat.add_0_r. Qed.

(** One more stream joins the session of those before it. *)
Lemma attach_joins σ sid order i : length sid = SessionIDSize -> NoDup (order ++ [i]) ->
  Forall (fun j => j < 256)%nat (order ++ [i]) -> serving σ sid order ->
  serving (attach σ (length order) (preamble sid i)) sid (order ++ [i]).
Proof.
  intros Hsid Hnd H256 [Hcl Hσ]. unfold attach, preamble, WriteHandshake. 
  rewrite (proj2 (Nat.eqb_eq _ _)) by done. cbn [negb fst app].
  destruct (ReadHandshake_record sid (byte_of_Z (Z.of_nat i)) [] Hsid) as [r' Hr].
  assert (byte_of_Z (Z.of_nat i) ∉ ids (joined sid order)) as Hfresh.
  { rewrite joined_ids. intros (j & Ej & Hj)%list_elem_of_In%in_map_iff. apply list_elem_of_In in Hj.
    apply NoDup_app in Hnd as (_ & Hd & _). rewrite Forall_app in H256. destruct H256 as [Ho [Hi _]%Forall_cons].
    rewrite Forall_forall in Ho. assert (j = i) as -> by (apply byte_of_nat_inj; [by apply Ho|exact Hi|exact Ej]).
    apply (Hd i Hj). by left. }
  assert (exists σ', getOrCreateSession σ (hex_encode sid) IoOk = (σ', Some (O, bool_decide (order = []))) /\
    sv_closed σ' = ∅ /\ sv_sessions σ' = {[hex_encode sid := O]} /\ sv_heap σ' = [joined sid order]) as (σ' & Eg & Hcl' & Hse & Hhe).
  { unfold getOrCreateSession. destruct order as [|j order]; destruct Hσ as [Hse Hhe]; rewrite Hse.
    - rewrite lookup_empty, Hhe. eexists. split; [done|]. cbn. rewrite insert_empty. by split_and!.
    - rewrite lookup_singleton_eq. exists σ. by split_and!. }
  cbn [settle handler_step]. rewrite Hr. cbn [settle handler_step]. rewrite Eg. cbn [settle handler_step].
  rewrite Hhe. cbn [lookup list_lookup mbind option_bind s_terminated joined settle handler_step]. rewrite Hhe.
  cbn [lookup list_lookup mbind option_bind]. unfold insertStream. rewrite (put_stream_append _ _ _ Hfresh). cbn [settle].
  rewrite <-joined_snoc. unfold serving. destruct (order ++ [i]) as [|x l] eqn:E; [by destruct order|].
  cbn. rewrite Hhe. by split_and!.
Qed.

Lemma attach_all_joins σ sid done order : length sid = SessionIDSize -> NoDup (done ++ order) ->
  Forall (fun j => j < 256)%nat (done ++ order) -> serving σ sid done ->
  serving (attach_all sid σ (length done) order) sid (done ++ order).
Proof.
  intros Hsid. revert σ done. induction order as [|i order IH]; intros σ done Hnd H256 Hσ; [by rewrite app_nil_r|].
  cbn [attach_all]. change (i :: order) with ([i] ++ order) in *. rewrite app_assoc in *.
  replace (S (length done)) with (length (done ++ [i])) by (rewrite length_app; cbn; lia).
  apply IH; [done|done|]. apply NoDup_app in Hnd as [Hnd _]. apply Forall_app in H256 as [H256 _].
  by apply attach_joins.
Qed.

(** ** Lemmas: up *)

Lemma carry_up_queue s now : snd (carry_up (length (st_in s)) s now) = map (take readBufSize) (st_in s).
Proof.
  remember (length (st_in s)) as n eqn:En. revert s En.
  induction n as [|n IH]; intros s En; [by destruct (st_in s)|].
  cbn [carry_up]. unfold pumpDTLS_tx. destruct (st_in s) as [|b q] eqn:Eq; [done|]. injection En as En.
  change (watchdog_expired 0 0 now) with false. cbn [accepts].
  set (s1 := count_tx (set_in s q) (Z.of_nat (length b))). specialize (IH s1 En).
  destruct (carry_up n s1 now) as [s2 out]. cbn [snd runStream_round map] in IH |- *. by rewrite IH.
Qed.

Lemma concat_update {A B} (f : A -> list B) l i x y : l !! i = Some x ->
  concat (map f (<[i:=y]> l)) ++ f x ≡ₚ concat (map f l) ++ f y.
Proof.
  intros Hi. rewrite <-(take_drop_middle l i x Hi) at 2. rewrite (insert_take_drop l i y) by (by eapply lookup_lt_Some).
  rewrite !map_app, !concat_app. cbn [map concat]. solve_Permutation.
Qed.

Lemma concat_part {A B} (f : A -> list B) l i x : l !! i = Some x -> (length (f x) <= length (concat (map f l)))%nat.
Proof.
  intros Hi. rewrite <-(take_drop_middle l i x Hi), map_app, concat_app. cbn [map concat]. rewrite !length_app. lia.
Qed.

Definition all_ready (h : Hub) : Prop := forall i s, hb_streams h !! i = Some s -> st_ready s = true.
Definition queues (h : Hub) : list bytes := concat (map st_in (hb_streams h)).

(** A packet is on a queue or on none, and the others are where they were. *)
Lemma schedule_moves h p a h' o : schedule h p a = (h', o) ->
  queues h' ≡ₚ queues h ++ match o with Queued _ => [take PacketBufSize p] | _ => [] end.
Proof.
  intros H. destruct (schedule_spec _ _ _ _ _ H) as (_ & Ht & Hlen & He).
  assert (hb_streams h' = match target o with
    | Some j => match hb_streams h !! j with Some s => <[j := after_packet j p a o s]> (hb_streams h) | None => hb_streams h end
    | None => hb_streams h end) as Es.
  { apply list_eq. intros i. destruct (hb_streams h !! i) as [s|] eqn:Ei.
    - destruct (He i s Ei) as [-> _]. destruct o as [|j|j]; cbn [target after_packet]; [done|..];
        (destruct (Nat.eqb_spec j i) as [->|Hji];
          [rewrite Ei, Nat.eqb_refl; symmetry; apply list_lookup_insert_eq; by eapply lookup_lt_Some|
           destruct (hb_streams h !! j); [by rewrite list_lookup_insert_ne|done]]).
    - transitivity (@None Proxy.stream); [apply lookup_ge_None; rewrite Hlen; by apply lookup_ge_None|].
      symmetry. apply lookup_ge_None. apply lookup_ge_None in Ei. destruct (target o) as [j|]; [|done].
      destruct (hb_streams h !! j); [by rewrite length_insert|done]. }
  unfold queues. rewrite Es. destruct (target o) as [j|] eqn:Ej.
  2:{ destruct o; try done. by rewrite app_nil_r. }
  destruct (Ht j eq_refl) as (s & Hs & _). rewrite Hs.
  pose proof (concat_update st_in (hb_streams h) j s (after_packet j p a o s) Hs) as HP.
  destruct o as [|k|k]; cbn in Ej; [done|..]; injection Ej as ->; cbn [after_packet] in *; rewrite Nat.eqb_refl in *; cbn in HP.
  - apply (Permutation_app_inv_r (st_in s)). rewrite HP. solve_Permutation.
  - rewrite app_nil_r. by apply Permutation_app_inv_r in HP.
Qed.

Lemma schedule_queues h p a h' o : all_ready h -> hb_streams h <> [] -> (length (queues h) < queue_cap)%nat ->
  schedule h p a = (h', o) -> all_ready h' /\ length (hb_streams h') = length (hb_streams h) /\
  queues h' ≡ₚ queues h ++ [take PacketBufSize p].
Proof.
  intros Hr Hne Hq H. pose proof (schedule_moves _ _ _ _ _ H) as HP. destruct (schedule_spec _ _ _ _ _ H) as (_ & Ht & Hlen & He).
  destruct (schedule_all_ready _ _ _ _ _ Hne Hr H) as [Ho _].
  set (j := ((Z.to_nat (hb_lastUsed h) + 1) mod length (hb_streams h))%nat) in *.
  destruct (Ht j Ho) as (s & Hs & _). destruct (He j s Hs) as (_ & _ & Hfull).
  pose proof (concat_part st_in _ _ _ Hs) as Hp. fold (queues h) in Hp.
  destruct o as [|k|k]; cbn in Ho; try done; injection Ho as ->; [|specialize (Hfull eq_refl); lia].
  split; [|by split].
  intros i s1 Hi. destruct (lookup_lt_is_Some_2 (hb_streams h) i) as [s0 Hs0]; [rewrite <-Hlen; by eapply lookup_lt_Some|].
  destruct (He i s0 Hs0) as [Hi' _]. assert (s1 = after_packet i p a (Queued j) s0) as -> by congruence.
  rewrite after_packet_ready. by eapply Hr.
Qed.

Lemma schedule_all_queues h pkts : all_ready h -> hb_streams h <> [] -> (length (queues h) + length pkts <= queue_cap)%nat ->
  all_ready (fst (schedule_all h pkts)) /\ length (hb_streams (fst (schedule_all h pkts))) = length (hb_streams h) /\
  queues (fst (schedule_all h pkts)) ≡ₚ queues h ++ map (fun q => take PacketBufSize (fst q)) pkts.
Proof.
  revert h. induction pkts as [|[p a] pkts IH]; intros h Hr Hne Hq; [cbn; by rewrite app_nil_r|].
  cbn [schedule_all length] in *. destruct (schedule h p a) as [h1 o] eqn:E.
  destruct (schedule_queues h p a h1 o Hr Hne ltac:(lia) E) as (Hr1 & Hl1 & Hq1).
  assert (hb_streams h1 <> []) as Hne1 by (intros En; rewrite En in Hl1; by destruct (hb_streams h)).
  pose proof (Permutation_length Hq1) as Hlq. rewrite length_app in Hlq. cbn [length] in Hlq.
  destruct (IH h1 Hr1 Hne1 ltac:(lia)) as (Hr2 & Hl2 & Hq2). destruct (schedule_all h1 pkts) as [h2 os]. cbn [fst map] in *.
  split; [done|]. split; [by rewrite Hl2|]. by rewrite Hq2, Hq1, <-app_assoc.
Qed.

(** ** Lemmas: down *)

(** A stream that has carried a packet sends what it receives to its source. *)
Lemma peer_remembered h pkts src i : Forall (fun q => snd q = src) pkts ->
  (exists s, hb_streams h !! i = Some s /\ st_peer s = Some src) \/ Some i ∈ map target (snd (schedule_all h pkts)) ->
  exists s, hb_streams (fst (schedule_all h pkts)) !! i = Some s /\ st_peer s = Some src.
Proof.
  intros HF. revert h. induction HF as [|[p a] pkts Ha HF IH]; intros h H.
  { destruct H as [H|H]; [done|by apply elem_of_nil in H]. }
  cbn [snd] in Ha. subst a. cbn [schedule_all] in *. destruct (schedule h p src) as [h1 o] eqn:E.
  specialize (IH h1). destruct (schedule_all h1 pkts) as [h2 os]. cbn [fst snd map] in *. apply IH.
  destruct (schedule_spec _ _ _ _ _ E) as (_ & Ht & _ & He). destruct H as [(s & Hs & Hp)|[Ho|H]%elem_of_cons]; [|left|by right].
  - left. destruct (He i s Hs) as [Hs' _]. eexists. split; [exact Hs'|]. destruct o as [|j|j]; cbn; [done|..]; by destruct (j =? i)%nat.
  - destruct (Ht i (eq_sym Ho)) as (s & Hs & _). destruct (He i s Hs) as [Hs' _]. eexists. split; [exact Hs'|].
    destruct o as [|j|j]; cbn in Ho; try done; injection Ho as ->; cbn; by rewrite Nat.eqb_refl.
Qed.

Lemma every_stream_used h pkts i : all_ready h -> (0 <= hb_lastUsed h)%Z -> (i < length (hb_streams h) <= length pkts)%nat ->
  Some i ∈ map target (snd (schedule_all h pkts)).
Proof.
  intros Hr H0 Hi. rewrite all_ready_positions by (done || by intros E; rewrite E in Hi; cbn in Hi; lia).
  set (n := length (hb_streams h)) in *. apply list_elem_of_In, in_map.
  replace (length pkts) with (n + (length pkts - n))%nat by lia. rewrite rr_positions_add. apply in_or_app. left.
  pose proof (rr_positions_block n (Z.to_nat (hb_lastUsed h) + 1) ltac:(lia)) as HP.
  apply list_elem_of_In. rewrite HP. apply elem_of_seq. lia.
Qed.

(** The streams of [order] all answer to [src]. *)
Definition answering (order : list nat) (src : bytes) (h : Hub) : Prop :=
  forall i, i ∈ order -> exists s, hb_streams h !! i = Some s /\ st_peer s = Some src.

Lemma receive_answering order src now h conn pkt : answering order src h -> (conn < length order)%nat ->
  exists h', receive order now h (Sent conn pkt) = (h', Some (take PacketBufSize pkt, src)) /\ answering order src h'.
Proof.
  intros HA Hc. destruct (lookup_lt_is_Some_2 order conn Hc) as [i Hi].
  destruct (HA i ltac:(by eapply list_elem_of_lookup_2)) as (s & Hs & Hp).
  unfold receive. rewrite Hi, Hs. unfold pumpDTLS_rx. cbn [st_peer]. rewrite Hp. eexists. split; [done|].
  intros j Hj. destruct (HA j Hj) as (s' & Hs' & Hp'). cbn [hb_streams Proxy.set_streams]. destruct (decide (j = i)) as [->|Hne].
  - rewrite list_lookup_insert_eq by (by eapply lookup_lt_Some). eexists. split; [done|]. exact Hp.
  - rewrite list_lookup_insert_ne by done. eauto.
Qed.

Lemma replies order src now h s ds : answering order src h -> s_streams s <> [] ->
  length (s_streams s) = length order -> (forall c e, s_streams s !! c = Some e -> se_conn e = c) ->
  (0 <= s_rrCounter s)%Z -> (s_rrCounter s + Z.of_nat (length ds) <= 9223372036854775808)%Z ->
  Forall (fun d => length d <= readBufSize)%nat ds ->
  snd (receive_all order now h (snd (dispatch_all s ds))) = map (fun d => Some (d, src)) ds.
Proof.
  intros HA Hne Hlen Hconn. revert h s HA Hne Hlen Hconn. induction ds as [|d ds IH]; intros h s HA Hne Hlen Hconn H0 Hb HF; [done|].
  apply Forall_cons in HF as [Hd HF]. cbn [length] in Hb. cbn [dispatch_all].
  destruct (dispatch_small s d Hne ltac:(lia)) as (e & He & ->). pose proof (Hconn _ _ He) as Hc.
  specialize (IH) with (s := mkSession (s_id s) (s_streams s) (s_rrCounter s + 1) (s_terminated s) (s_cancelled s) (s_backendCloses s)).
  destruct (receive_answering order src now h (se_conn e) (take readBufSize d) HA) as (h' & Er & HA').
  { rewrite Hc, <-Hlen. by eapply lookup_lt_Some. }
  specialize (IH h' HA' Hne Hlen Hconn ltac:(cbn; lia) ltac:(cbn; lia) HF). destruct (dispatch_all _ ds) as [s' os].
  cbn [snd receive_all map] in *. rewrite Er. destruct (receive_all order now h' os) as [h2 rs]. cbn [snd] in *. rewrite IH.
  f_equal. f_equal. f_equal. rewrite (take_ge d) by done. apply take_ge. transitivity readBufSize; [done|]. unfold readBufSize, PacketBufSize. lia.
Qed.

(** ** The tunnel *)

Lemma joined_conn sid order c e : s_streams (joined sid order) !! c = Some e -> se_conn e = c.
Proof. unfold joined. cbn [s_streams]. rewrite list_lookup_imap. destruct (order !! c); [|done]. by intros [= <-]. Qed.

(** C3. The tunnel carries packets both ways.  The streams of a hub, up to
    255, connect in any order to a server without sessions: it then has one
    session with all of them, none evicted.  Once the application has sent a
    packet per stream from one address, the backend has got every packet it
    sent, once and unchanged, and every packet of the backend comes back to
    that address, in order and unchanged, given that none is longer than the
    server's buffer and no queue overflows. *)
Theorem tunnel_end_to_end sid σ order h pkts src ds now :
  length sid = SessionIDSize -> serving σ sid [] ->
  order ≡ₚ seq 0 (length (hb_streams h)) -> (1 <= length (hb_streams h) <= 255)%nat ->
  all_ready h -> queues h = [] -> (0 <= hb_lastUsed h)%Z ->
  Forall (fun q => snd q = src) pkts -> Forall (fun q => length (fst q) <= readBufSize)%nat pkts ->
  (length (hb_streams h) <= length pkts <= queue_cap)%nat ->
  Forall (fun d => length d <= readBufSize)%nat ds -> (Z.of_nat (length ds) <= 9223372036854775808)%Z ->
  let σ' := attach_all sid σ 0 order in
  let h' := fst (schedule_all h pkts) in
  sv_sessions σ' = {[hex_encode sid := O]} /\ sv_closed σ' = ∅ /\
  exists s, sv_heap σ' = [s] /\ length (s_streams s) = length (hb_streams h) /\
    uplink h' now ≡ₚ map fst pkts /\
    snd (receive_all order now h' (snd (dispatch_all s ds))) = map (fun d => Some (d, src)) ds.
Proof.
  intros Hsid Hσ Ho Hn Hr Hq H0 Happ Hsize Hlen Hds Hds64 σ' h'.
  assert (length order = length (hb_streams h)) as Hol by (rewrite Ho, length_seq; done).
  assert (hb_streams h <> []) as Hne by (intros E; rewrite E in Hn; cbn in Hn; lia).
  destruct (attach_all_joins σ sid [] order Hsid) as [Hcl Hs]; [by rewrite Ho; apply NoDup_seq| |done|].
  { rewrite Ho. apply Forall_forall. intros j Hj%elem_of_seq. lia. }
  cbn [app length] in Hs, Hcl. fold σ' in Hs, Hcl. destruct order as [|i0 order0] eqn:Eo; [cbn in Hol; lia|]. rewrite <-Eo in *.
  destruct Hs as [Hse Hhe]. split; [done|]. split; [done|]. exists (joined sid order). split; [done|].
  assert (length (s_streams (joined sid order)) = length order) as Hjl by apply length_imap.
  split; [by rewrite Hjl|]. split.
  - destruct (schedule_all_queues h pkts Hr Hne) as (_ & _ & HQ); [rewrite Hq; cbn; lia|]. rewrite Hq in HQ. fold h' in HQ. cbn [app] in HQ.
    unfold uplink. rewrite (map_ext _ (fun s => map (take readBufSize) (st_in s))) by (intros; apply carry_up_queue).
    rewrite <-(map_map st_in (map (take readBufSize))), <-concat_map. fold (queues h').
    etransitivity; [apply Permutation_map, HQ|]. rewrite map_map. apply Permutation_refl'. apply map_ext_Forall.
    eapply Forall_impl; [exact Hsize|]. intros [p a] Hp. cbn [fst] in *. rewrite (take_ge p); [by apply take_ge|].
    transitivity readBufSize; [done|]. unfold readBufSize, PacketBufSize. lia.
  - apply replies; try done.
    + intros i Hi. apply (peer_remembered h pkts src i Happ). right. apply every_stream_used; [done|done|].
      rewrite Ho in Hi. apply elem_of_seq in Hi. lia.
    + intros E. rewrite E in Hjl. cbn in Hjl. lia.
    + intros c e. apply joined_conn.
Qed.

(** Two streams that connect in reverse order, two packets out, three back. *)
Definition idle_server : server := mkServer StateStarted true 2 ∅ [] ∅.
Definition pair_hub : Hub := demo_hub [true; true].

Lemma tunnel_end_to_end_witness :
  let σ' := attach_all "0123456789abcdef" idle_server 0 [1%nat; 0%nat] in
  let h' := fst (schedule_all pair_hub [("ping1"%go, "a:1"%go); ("ping2"%go, "a:1"%go)]) in
  exists s, sv_heap σ' = [s] /\ uplink h' 7 ≡ₚ ["ping1"%go; "ping2"%go] /\
    snd (receive_all [1%nat; 0%nat] 7 h' (snd (dispatch_all s ["p1"%go; "p2"%go; "p3"%go]))) =
      [Some ("p1"%go, "a:1"%go); Some ("p2"%go, "a:1"%go); Some ("p3"%go, "a:1"%go)].
Proof.
  destruct (tunnel_end_to_end "0123456789abcdef" idle_server [1%nat; 0%nat] pair_hub
    [("ping1"%go, "a:1"%go); ("ping2"%go, "a:1"%go)] "a:1" ["p1"%go; "p2"%go; "p3"%go] 7)
    as (_ & _ & s & H1 & _ & H2 & H3).
  - reflexivity.
  - by split.
  - constructor.
  - cbn. lia.
  - intros [|[|i]] s H; cbn in H; by injection H as <- || done.
  - reflexivity.
  - cbn. lia.
  - repeat constructor.
  - by apply (bool_decide_unpack _).
  - cbn. unfold queue_cap. lia.
  - by apply (bool_decide_unpack _).
  - cbn. lia.
  - exists s. split; [exact H1|]. split; [exact H2|exact H3].
Defined.

(** A return address belongs to the stream that carried a packet from it, not
    to the listener: the answer to the application's first packet is given to
    the session's first stream, which has carried none, and is dropped. *)
Lemma first_reply_dropped :
  let σ' := attach_all "0123456789abcdef" idle_server 0 [0%nat; 1%nat] in
  let h' := fst (schedule_all pair_hub [("hello"%go, "a:1"%go)]) in
  exists s, sv_heap σ' = [s] /\ uplink h' 7 = ["hello"%go] /\
    snd (receive_all [0%nat; 1%nat] 7 h' (snd (dispatch_all s ["reply"%go]))) = [None].
Proof. eexists. split; [vm_compute; reflexivity|]. split; vm_compute; reflexivity. Qed.

(** And after the application has moved to another port, a stream that has
    carried nothing since answers to the old one. *)
Lemma reply_to_old_address :
  let σ' := attach_all "0123456789abcdef" idle_server 0 [0%nat; 1%nat] in
  let h' := fst (schedule_all pair_hub [("x"%go, "a:1"%go); ("y"%go, "a:1"%go); ("z"%go, "a:2"%go)]) in
  exists s, sv_heap σ' = [s] /\
    snd (receive_all [0%nat; 1%nat] 7 h' (snd (dispatch_all s ["reply"%go]))) = [Some ("reply"%go, "a:1"%go)].
Proof. eexists. split; [vm_compute; reflexivity|]. vm_compute; reflexivity. Qed.
