(* ===== verification/Lossy.v ===== *)
(** * The tunnel over a network that loses and reorders

    The hub of Proxy and the session of Session while streams come and go:
    the application's and the backend's packets as records in flight, each of
    which arrives at any time or never.  DTLS over UDP may lose and reorder
    records; it makes none up and delivers none twice.  Every step is an
    operation of the program; Link has the run in which nothing is lost. *)

From stdpp Require Import gmap list_tactics.
From S2P Require Import Prelude GoStrings GoErrors Encoding Framing RoundRobin Session Server Proxy Link.

(** ** The state *)

(** Why a packet went no further. *)
Inductive loss :=
| NoStreamReady | QueueOverflow | Watchdog | WriteFailed       (* in the hub *)
| InTransit
| BackendFailed | SessionEmpty | CounterPanic                  (* in the server *)
| NoReturnAddress | LocalFailed.                               (* in the hub, on the way back *)

(** Connection [c] is one of stream [tn_conns !! c].  The lists of lost packets
    only record what happened. *)
Record tunnel := mkTunnel {
  tn_hub : Hub;
  tn_session : session;
  tn_conns : list nat;
  tn_up : list (nat * bytes);          (* records in flight, with their connection *)
  tn_down : list (nat * bytes);
  tn_backend : list bytes;             (* what the backend has got *)
  tn_app : list (bytes * bytes);       (* what the application has got, and where *)
  tn_lostUp : list (loss * bytes);
  tn_lostDown : list (loss * bytes) }.

Definition begin (h : Hub) (sid : bytes) : tunnel := mkTunnel h (newSession sid) [] [] [] [] [] [] [].

Definition with_hub (h : Hub) (t : tunnel) : tunnel :=
  mkTunnel h (tn_session t) (tn_conns t) (tn_up t) (tn_down t) (tn_backend t) (tn_app t) (tn_lostUp t) (tn_lostDown t).
Definition with_session (s : session) (cs : list nat) (t : tunnel) : tunnel :=
  mkTunnel (tn_hub t) s cs (tn_up t) (tn_down t) (tn_backend t) (tn_app t) (tn_lostUp t) (tn_lostDown t).
Definition with_up (up : list (nat * bytes)) (b : list bytes) (t : tunnel) : tunnel :=
  mkTunnel (tn_hub t) (tn_session t) (tn_conns t) up (tn_down t) b (tn_app t) (tn_lostUp t) (tn_lostDown t).
Definition with_down (down : list (nat * bytes)) (a : list (bytes * bytes)) (t : tunnel) : tunnel :=
  mkTunnel (tn_hub t) (tn_session t) (tn_conns t) (tn_up t) down (tn_backend t) a (tn_lostUp t) (tn_lostDown t).
Definition lose_up (why : loss) (p : bytes) (t : tunnel) : tunnel :=
  mkTunnel (tn_hub t) (tn_session t) (tn_conns t) (tn_up t) (tn_down t) (tn_backend t) (tn_app t)
    (tn_lostUp t ++ [(why, p)]) (tn_lostDown t).
Definition lose_down (why : loss) (p : bytes) (t : tunnel) : tunnel :=
  mkTunnel (tn_hub t) (tn_session t) (tn_conns t) (tn_up t) (tn_down t) (tn_backend t) (tn_app t)
    (tn_lostUp t) (tn_lostDown t ++ [(why, p)]).

Definition put (i : nat) (s : stream) (t : tunnel) : tunnel :=
  with_hub (Proxy.set_streams (tn_hub t) (<[i := s]> (hb_streams (tn_hub t)))) t.

(** ** The steps *)

Inductive action :=
| AppSends (p from : bytes)                        (* [scheduleLoop] *)
| TurnsReady (i : nat) (b : bool)                  (* a pump of stream [i] begins or ends *)
| Connects (i : nat)                               (* the server has read the preamble of a connection *)
| Leaves (c : nat)                                 (* [runStream] of a connection has returned *)
| Restarts                                         (* the session ends, the next preamble makes another *)
| SendsRecord (c : nat) (wd lastRx now : Z) (written : bytes -> result error Z)
| UpArrives (k : nat) (write : option error)
| UpLost (k : nat)
| BackendSends (d : bytes)
| DownArrives (k : nat) (now : Z) (write : option error)
| DownLost (k : nat).

Definition step (t : tunnel) (a : action) : option tunnel :=
  match a with
  | AppSends p from =>
      let '(h, o) := schedule (tn_hub t) p from in
      Some (match o with
            | Queued _ => with_hub h t
            | Discarded => lose_up NoStreamReady p (with_hub h t)
            | QueueFull _ => lose_up QueueOverflow p (with_hub h t)
            end)
  | TurnsReady i b => s ← hb_streams (tn_hub t) !! i; Some (put i (set_ready s b) t)
  | Connects i =>
      s ← hb_streams (tn_hub t) !! i;
      let '(sess, _) := insertStream (tn_session t) (byte_of_Z (st_id s)) (length (tn_conns t)) in
      Some (with_session sess (tn_conns t ++ [i]) t)
  | Leaves c =>
      i ← tn_conns t !! c; s ← hb_streams (tn_hub t) !! i;
      Some (with_session (fst (removeStream (tn_session t) (byte_of_Z (st_id s)) c)) (tn_conns t) t)
  | Restarts => Some (with_session (newSession (s_id (tn_session t))) (tn_conns t) t)
  | SendsRecord c wd lastRx now written =>
      i ← tn_conns t !! c; s ← hb_streams (tn_hub t) !! i; b ← head (st_in s);
      let '(s, out, _) := pumpDTLS_tx s wd lastRx now written in
      let t := put i s t in
      Some (match out with
            | Some rec => with_up (tn_up t ++ [(c, rec)]) (tn_backend t) t
            | None => lose_up (if watchdog_expired wd lastRx now then Watchdog else WriteFailed) b t
            end)
  | UpArrives k write =>
      '(c, rec) ← tn_up t !! k;
      Some (match runStream_round (Ok rec) write with
            | inl p => with_up (delete k (tn_up t)) (tn_backend t ++ [p]) t
            | inr _ => lose_up BackendFailed rec (with_up (delete k (tn_up t)) (tn_backend t) t)
            end)
  | UpLost k =>
      '(c, rec) ← tn_up t !! k; Some (lose_up InTransit rec (with_up (delete k (tn_up t)) (tn_backend t) t))
  | BackendSends d =>
      let '(sess, o) := dispatch (tn_session t) d in
      let t := with_session sess (tn_conns t) t in
      Some (match o with
            | Sent c pkt => with_down (tn_down t ++ [(c, pkt)]) (tn_app t) t
            | Dropped => lose_down SessionEmpty d t
            | IndexPanic => lose_down CounterPanic d t
            end)
  | DownArrives k now write =>
      '(c, pkt) ← tn_down t !! k; i ← tn_conns t !! c; s ← hb_streams (tn_hub t) !! i;
      let '(s', out, _, _) := pumpDTLS_rx s 0 now (Ok pkt) write in
      let t := put i s' t in
      Some (match out with
            | Some pa => with_down (delete k (tn_down t)) (tn_app t ++ [pa]) t
            | None => lose_down (match st_peer s with Some _ => LocalFailed | None => NoReturnAddress end) pkt (with_down (delete k (tn_down t)) (tn_app t) t)
            end)
  | DownLost k =>
      '(c, pkt) ← tn_down t !! k; Some (lose_down InTransit pkt (with_down (delete k (tn_down t)) (tn_app t) t))
  end.

Fixpoint run (t : tunnel) (acts : list action) : option tunnel :=
  match acts with [] => Some t | a :: acts => t ← step t a; run t acts end.

(** ** The accounts *)

Definition app_sent (acts : list action) : list (bytes * bytes) :=
  omap (fun a => match a with AppSends p from => Some (p, from) | _ => None end) acts.
Definition backend_sent (acts : list action) : list bytes :=
  omap (fun a => match a with BackendSends d => Some d | _ => None end) acts.

(** A packet as far as the server's buffer holds it. *)
Definition cut (p : bytes) : bytes := take readBufSize p.
Definition all_up (t : tunnel) : list bytes :=
  tn_backend t ++ map snd (tn_up t) ++ queues (tn_hub t) ++ map snd (tn_lostUp t).
Definition all_down (t : tunnel) : list bytes :=
  map fst (tn_app t) ++ map snd (tn_down t) ++ map snd (tn_lostDown t).

(** Every packet is in one place. *)
Record accounts_ok (sent : list (bytes * bytes)) (answers : list bytes) (t : tunnel) : Prop := {
  ac_up : map cut (all_up t) ≡ₚ map (fun q => cut (fst q)) sent;
  ac_down : map cut (all_down t) ≡ₚ map cut answers;
  ac_backend : Forall (fun p => length p <= readBufSize)%nat (tn_backend t);
  ac_small : Forall (fun q => length (snd q) <= readBufSize)%nat (tn_down t);
  ac_app : Forall (fun q => (length (fst q) <= readBufSize)%nat /\ (snd q ∈ map snd sent)) (tn_app t) }.

(** A stream answers to an address that sent, and its queue is no longer than
    its channel. *)
Definition hub_ok (sent : list (bytes * bytes)) (h : Hub) : Prop := forall i s, hb_streams h !! i = Some s ->
  (forall a, st_peer s = Some a -> a ∈ map snd sent) /\ (length (st_in s) <= queue_cap)%nat.

(** The session's slots are different streams of the hub, each with a
    connection of its own. *)
Definition server_ok (sess : session) (conns : list nat) (h : Hub) : Prop :=
  NoDup (ids sess) /\ forall e, e ∈ s_streams sess -> exists i s,
    conns !! se_conn e = Some i /\ hb_streams h !! i = Some s /\ se_id e = byte_of_Z (st_id s).

Record tunnel_ok (sent : list (bytes * bytes)) (answers : list bytes) (t : tunnel) : Prop := {
  tk_accounts : accounts_ok sent answers t;
  tk_hub : hub_ok sent (tn_hub t);
  tk_server : server_ok (tn_session t) (tn_conns t) (tn_hub t) }.

(** ** Lemmas: the hub and the server *)

Lemma cut_short p : (length p <= readBufSize)%nat -> cut p = p.
Proof. apply take_ge. Qed.
Lemma cut_length p : (length (cut p) <= readBufSize)%nat.
Proof. unfold cut. rewrite length_take. lia. Qed.
Lemma cut_packet p : cut (take PacketBufSize p) = cut p.
Proof. unfold cut. rewrite take_take. reflexivity. Qed.
Lemma cut_cut p : cut (cut p) = cut p.
Proof. apply cut_short, cut_length. Qed.

Lemma hub_ok_mono sent q h : hub_ok sent h -> hub_ok (sent ++ q) h.
Proof. intros H i s Hi. destruct (H i s Hi) as [H1 H2]. split; [|done]. intros a Ha. rewrite map_app. apply elem_of_app. left. by apply H1. Qed.

(** The streams keep their numbers. *)
Definition same_ids (h h' : Hub) : Prop := forall i s, hb_streams h !! i = Some s ->
  exists s', hb_streams h' !! i = Some s' /\ st_id s' = st_id s.

Lemma server_same sess conns h h' : same_ids h h' -> server_ok sess conns h -> server_ok sess conns h'.
Proof.
  intros Hs [H1 H2]. split; [done|]. intros e He. destruct (H2 e He) as (i & s & Hi & Hh & E).
  destruct (Hs i s Hh) as (s' & Hh' & E'). exists i, s'. by rewrite E'.
Qed.

Lemma schedule_keeps h p a h' o sent : schedule h p a = (h', o) -> hub_ok sent h ->
  hub_ok (sent ++ [(p, a)]) h' /\ same_ids h h'.
Proof.
  intros H Hh. destruct (schedule_spec _ _ _ _ _ H) as (_ & _ & Hlen & He). split.
  - intros i s' Hi. destruct (lookup_lt_is_Some_2 (hb_streams h) i) as [s Hs]; [rewrite <-Hlen; by eapply lookup_lt_Some|].
    destruct (He i s Hs) as (Hi' & Hq & _). assert (s' = after_packet i p a o s) as -> by congruence.
    apply (hub_ok_mono _ [(p, a)]) in Hh. destruct (Hh i s Hs) as [H1 H2].
    destruct o as [|j|j]; cbn [after_packet]; [done|..]; destruct (Nat.eqb_spec j i) as [->|]; try done; cbn.
    + specialize (Hq eq_refl). rewrite length_app. cbn. split; [|lia]. intros a' [= <-]. rewrite map_app. set_solver.
    + split; [|done]. intros a' [= <-]. rewrite map_app. set_solver.
  - intros i s Hs. destruct (He i s Hs) as [Hi _]. eexists. split; [exact Hi|].
    destruct o as [|j|j]; cbn [after_packet]; [done|..]; by destruct (j =? i)%nat.
Qed.

Lemma put_keeps h i s s' sent : hb_streams h !! i = Some s -> hub_ok sent h -> st_id s' = st_id s -> st_peer s' = st_peer s ->
  (length (st_in s') <= length (st_in s))%nat ->
  let h' := Proxy.set_streams h (<[i := s']> (hb_streams h)) in
  hub_ok sent h' /\ same_ids h h' /\ queues h' ++ st_in s ≡ₚ queues h ++ st_in s'.
Proof.
  intros Hi Hh Hid Hp Hl h'. destruct (Hh i s Hi) as [H1 H2]. split_and!.
  - intros j u. cbn. destruct (decide (j = i)) as [->|Hne].
    + rewrite list_lookup_insert_eq by (by eapply lookup_lt_Some). intros [= <-]. rewrite Hp. split; [done|lia].
    + rewrite list_lookup_insert_ne by done. apply Hh.
  - intros j u Hj. cbn. destruct (decide (j = i)) as [->|Hne].
    + rewrite list_lookup_insert_eq by (by eapply lookup_lt_Some). exists s'. split; [done|congruence].
    + rewrite list_lookup_insert_ne by done. by exists u.
  - by apply concat_update.
Qed.

Lemma connects_keeps sess conns h i s : hb_streams h !! i = Some s -> server_ok sess conns h ->
  server_ok (fst (insertStream sess (byte_of_Z (st_id s)) (length conns))) (conns ++ [i]) h.
Proof.
  intros Hi [H1 H2]. split; [by apply ids_insertStream|]. intros e. unfold insertStream.
  destruct (put_stream (s_streams sess) _ _) as [l d] eqn:E. cbn [fst]. intros He.
  destruct (put_stream_elem _ _ _ _ _ e E He) as [->|He'].
  - exists i, s. cbn [se_conn se_id]. split; [|done]. rewrite lookup_app_r, Nat.sub_diag by done. done.
  - destruct (H2 e He') as (j & u & Hj & Hu & Eu). exists j, u. split; [|done]. by apply lookup_app_l_Some.
Qed.

Lemma leaves_keeps sess conns h id c : server_ok sess conns h -> server_ok (fst (removeStream sess id c)) conns h.
Proof.
  intros [H1 H2]. split; [by apply ids_removeStream|]. intros e He. apply H2.
  eapply elem_of_sublist; [exact He|]. apply del_stream_sublist.
Qed.

Lemma dispatch_keeps sess d sess' o : dispatch sess d = (sess', o) -> s_streams sess' = s_streams sess.
Proof.
  unfold dispatch, snapshotStreams. destruct (s_streams sess) eqn:E; intros [= <- <-]; [done|]. done.
Qed.

(** ** Lemmas: the accounts *)

Lemma accounts_step sent answers t t' q1 q2 : accounts_ok sent answers t ->
  map cut (all_up t') ≡ₚ map cut (all_up t) ++ map (fun q => cut (fst q)) q1 ->
  map cut (all_down t') ≡ₚ map cut (all_down t) ++ map cut q2 ->
  Forall (fun p => length p <= readBufSize)%nat (tn_backend t') ->
  Forall (fun q => length (snd q) <= readBufSize)%nat (tn_down t') ->
  Forall (fun q => (length (fst q) <= readBufSize)%nat /\ (snd q ∈ map snd sent)) (tn_app t') ->
  accounts_ok (sent ++ q1) (answers ++ q2) t'.
Proof.
  intros [H1 H2 _ _ _] Hu Hd Hb Hs Ha. split; [by rewrite Hu, H1, <-map_app|by rewrite Hd, H2, <-map_app|done|done|].
  eapply Forall_impl; [exact Ha|]. intros [p a] [? ?]. split; [done|]. rewrite map_app. apply elem_of_app. by left.
Qed.

Lemma Forall_delete' {A} (P : A -> Prop) l k : Forall P l -> Forall P (delete k l).
Proof. intros H. rewrite Forall_forall in *. intros x Hx. apply H. eapply elem_of_sublist; [exact Hx|]. apply sublist_delete. Qed.

Lemma account_app sent answers t p a h o : accounts_ok sent answers t -> schedule (tn_hub t) p a = (h, o) ->
  accounts_ok (sent ++ [(p, a)]) (answers ++ [])
    (match o with
     | Queued _ => with_hub h t
     | Discarded => lose_up NoStreamReady p (with_hub h t)
     | QueueFull _ => lose_up QueueOverflow p (with_hub h t)
     end).
Proof.
  intros H E. pose proof (schedule_moves _ _ _ _ _ E) as HQ. pose proof H as [_ _ H3 H4 H5].
  destruct o as [|j|j]; (eapply accounts_step; [exact H| | |exact H3|exact H4|exact H5]); unfold all_up, all_down; cbn;
    rewrite ?app_nil_r; try done; rewrite HQ, !map_app; cbn; rewrite ?cut_packet, ?app_nil_r; solve_Permutation.
Qed.

Lemma account_record sent answers t c i s wd lastRx now written s' out pm :
  accounts_ok sent answers t -> hub_ok sent (tn_hub t) -> hb_streams (tn_hub t) !! i = Some s ->
  pumpDTLS_tx s wd lastRx now written = (s', out, pm) -> forall b, head (st_in s) = Some b ->
  let t1 := put i s' t in
  accounts_ok sent answers
    (match out with
     | Some rec => with_up (tn_up t1 ++ [(c, rec)]) (tn_backend t1) t1
     | None => lose_up (if watchdog_expired wd lastRx now then Watchdog else WriteFailed) b t1
     end) /\ hub_ok sent (tn_hub t1) /\ same_ids (tn_hub t) (tn_hub t1).
Proof.
  intros H Hh Hi E b Hb t1. unfold pumpDTLS_tx in E. destruct (st_in s) as [|b0 q] eqn:Eq; [done|]. injection Hb as ->.
  assert (exists out', out = out' /\ (out' = Some b \/ out' = None) /\ st_id s' = st_id s /\ st_peer s' = st_peer s /\ st_in s' = q)
    as (? & -> & Ho & Hid & Hp & Hq).
  { destruct (watchdog_expired wd lastRx now); [|destruct (written b)]; injection E as <- <- _; eexists; eauto 8. }
  destruct (put_keeps (tn_hub t) i s s' sent Hi Hh Hid Hp) as (Hh1 & Hs1 & HQ); [rewrite Hq, Eq; cbn; lia|].
  split; [|by split]. rewrite Hq, Eq in HQ. change (b :: q) with ([b] ++ q) in HQ. rewrite app_assoc in HQ.
  apply Permutation_app_inv_r in HQ. pose proof H as [_ _ H3 H4 H5].
  rewrite <-(app_nil_r sent), <-(app_nil_r answers).
  destruct Ho as [-> | ->]; (eapply accounts_step; [exact H| | |exact H3|exact H4|exact H5]); unfold all_up, all_down; cbn;
    rewrite ?app_nil_r; try done; rewrite <-HQ, !map_app; cbn; rewrite ?map_app; cbn; solve_Permutation.
Qed.

Lemma account_up sent answers t k c rec write : accounts_ok sent answers t -> tn_up t !! k = Some (c, rec) ->
  accounts_ok sent answers
    (match runStream_round (Ok rec) write with
     | inl p => with_up (delete k (tn_up t)) (tn_backend t ++ [p]) t
     | inr _ => lose_up BackendFailed rec (with_up (delete k (tn_up t)) (tn_backend t) t)
     end) /\
  accounts_ok sent answers (lose_up InTransit rec (with_up (delete k (tn_up t)) (tn_backend t) t)).
Proof.
  intros H Hk. pose proof H as [_ _ H3 H4 H5]. pose proof (delete_Permutation _ _ _ Hk) as HU.
  assert (forall why, accounts_ok sent answers (lose_up why rec (with_up (delete k (tn_up t)) (tn_backend t) t))) as HL.
  { intros why. rewrite <-(app_nil_r sent), <-(app_nil_r answers).
    eapply accounts_step; [exact H| | |exact H3|exact H4|exact H5]; unfold all_up, all_down; cbn; rewrite ?app_nil_r; [|done].
    rewrite HU at 2. rewrite !map_app. cbn. solve_Permutation. }
  split; [|apply HL]. cbn [runStream_round]. destruct write; [apply HL|].
  rewrite <-(app_nil_r sent), <-(app_nil_r answers).
  eapply accounts_step; [exact H| | | |exact H4|exact H5]; unfold all_up, all_down; cbn; rewrite ?app_nil_r; [|done|].
  - rewrite HU at 2. rewrite !map_app. cbn. change (take readBufSize rec) with (cut rec). rewrite cut_cut. solve_Permutation.
  - apply Forall_app. split; [done|]. constructor; [apply cut_length|constructor].
Qed.

Lemma account_dispatch sent answers t d sess o : accounts_ok sent answers t -> dispatch (tn_session t) d = (sess, o) ->
  let t1 := with_session sess (tn_conns t) t in
  accounts_ok (sent ++ []) (answers ++ [d])
    (match o with
     | Sent c pkt => with_down (tn_down t1 ++ [(c, pkt)]) (tn_app t1) t1
     | Dropped => lose_down SessionEmpty d t1
     | IndexPanic => lose_down CounterPanic d t1
     end).
Proof.
  intros H E t1. pose proof H as [_ _ H3 H4 H5].
  assert (forall c pkt, o = Sent c pkt -> pkt = cut d) as Hpkt.
  { intros c pkt ->. unfold dispatch, snapshotStreams in E. destruct (s_streams (tn_session t)); [done|].
    destruct (_ <? 0)%Z; [done|]. destruct (_ !! _); [|done]. by injection E as _ _ <-. }
  destruct o as [|c pkt|]; [| rewrite (Hpkt c pkt eq_refl) in * |];
    (eapply accounts_step; [exact H| | |exact H3| |exact H5]); unfold all_up, all_down; cbn; rewrite ?app_nil_r; try done;
    rewrite ?map_app; cbn; rewrite ?cut_cut; try solve_Permutation.
  apply Forall_app. split; [done|]. constructor; [apply cut_length|constructor].
Qed.

Lemma account_down sent answers t k c pkt : accounts_ok sent answers t -> tn_down t !! k = Some (c, pkt) ->
  (length pkt <= readBufSize)%nat /\
  (forall why, accounts_ok sent answers (lose_down why pkt (with_down (delete k (tn_down t)) (tn_app t) t))) /\
  (forall a, a ∈ map snd sent ->
     accounts_ok sent answers (with_down (delete k (tn_down t)) (tn_app t ++ [(take PacketBufSize pkt, a)]) t)).
Proof.
  intros H Hk. pose proof H as [_ _ H3 H4 H5]. pose proof (delete_Permutation _ _ _ Hk) as HD.
  assert (length pkt <= readBufSize)%nat as Hl by (by apply (Forall_lookup_1 _ _ _ _ H4 Hk)).
  split; [done|]. split; [intros why|intros a Ha]; rewrite <-(app_nil_r sent), <-(app_nil_r answers);
    (eapply accounts_step; [exact H| | |exact H3|by apply Forall_delete'|]); unfold all_up, all_down; cbn; rewrite ?app_nil_r; try done.
  - rewrite HD at 2. rewrite !map_app. cbn. solve_Permutation.
  - rewrite HD at 2. rewrite !map_app. cbn. rewrite cut_packet. solve_Permutation.
  - apply Forall_app. split; [done|]. constructor; [|constructor]. split; [|done]. cbn [fst]. rewrite length_take. lia.
Qed.

(** The hub's streams are counted on, nothing else, when a record comes back. *)
Lemma rx_stream s now pkt write s' out pm lr : pumpDTLS_rx s 0 now (Ok pkt) write = (s', out, pm, lr) ->
  st_id s' = st_id s /\ st_peer s' = st_peer s /\ st_in s' = st_in s /\
  (out = None \/ exists a, st_peer s = Some a /\ out = Some (take PacketBufSize pkt, a)).
Proof.
  unfold pumpDTLS_rx. destruct (st_peer s) as [a|] eqn:Ep; [destruct write|]; intros [= <- <- _ _]; cbn; eauto 10.
Qed.

(** The accounts do not look at what a step does to the hub beyond its queues. *)
Lemma accounts_queues sent answers t h : accounts_ok sent answers t -> queues h ≡ₚ queues (tn_hub t) ->
  accounts_ok sent answers (with_hub h t).
Proof.
  intros [H1 H2 H3 H4 H5] Hq. split; try done. unfold all_up in *. cbn. rewrite Hq. exact H1.
Qed.

Lemma session_ok sent answers t sess cs : tunnel_ok sent answers t -> server_ok sess cs (tn_hub t) ->
  tunnel_ok sent answers (with_session sess cs t).
Proof. intros [[] Hh _] Hv. by split. Qed.

Lemma put_accounts sent answers t i s s' : hb_streams (tn_hub t) !! i = Some s -> tunnel_ok sent answers t ->
  st_id s' = st_id s -> st_peer s' = st_peer s -> st_in s' = st_in s -> tunnel_ok sent answers (put i s' t).
Proof.
  intros Hi [Ha Hh Hv] Hid Hp Hq.
  destruct (put_keeps (tn_hub t) i s s' sent Hi Hh Hid Hp) as (Hh1 & Hs1 & HQ); [by rewrite Hq|].
  split; [|done|by eapply server_same]. apply accounts_queues; [done|]. rewrite Hq in HQ. by apply Permutation_app_inv_r in HQ.
Qed.

(** ** Every step keeps the accounts *)

Lemma lossy_step_ok t a t' sent answers : step t a = Some t' -> tunnel_ok sent answers t ->
  tunnel_ok (sent ++ app_sent [a]) (answers ++ backend_sent [a]) t'.
Proof.
  intros H Ht. pose proof Ht as [Ha Hh Hv].
  assert (tunnel_ok sent answers t' -> tunnel_ok (sent ++ []) (answers ++ []) t') as Hq by (by rewrite !app_nil_r).
  destruct a as [p from|i b|i|c| |c wd lr now written|k write|k|d|k now write|k]; cbn [app_sent backend_sent omap list_omap]; cbn [step] in H.
  - destruct (schedule (tn_hub t) p from) as [h o] eqn:E. injection H as <-.
    pose proof (account_app _ _ _ _ _ _ _ Ha E). destruct (schedule_keeps _ _ _ _ _ _ E Hh) as [Hh' Hs].
    destruct o; (split; [done|exact Hh'|by eapply server_same]).
  - destruct (hb_streams (tn_hub t) !! i) as [s|] eqn:Ei; [|done]. injection H as <-. apply Hq. by eapply put_accounts.
  - destruct (hb_streams (tn_hub t) !! i) as [s|] eqn:Ei; [|done]. cbn [mbind option_bind] in H.
    pose proof (connects_keeps _ _ _ _ _ Ei Hv) as Hv'. destruct (insertStream _ _ _) as [sess d]. injection H as <-.
    apply Hq. by apply session_ok.
  - destruct (tn_conns t !! c) as [i|]; [|done]. cbn [mbind option_bind] in H. destruct (hb_streams (tn_hub t) !! i) as [s|]; [|done].
    injection H as <-. apply Hq. apply session_ok; [done|]. by apply leaves_keeps.
  - injection H as <-. apply Hq. apply session_ok; [done|]. split; [constructor|]. cbn. set_solver.
  - destruct (tn_conns t !! c) as [i|]; [|done]. cbn [mbind option_bind] in H. destruct (hb_streams (tn_hub t) !! i) as [s|] eqn:Ei; [|done]. cbn [mbind option_bind] in H.
    destruct (head (st_in s)) as [b|] eqn:Eb; [|done]. cbn [mbind option_bind] in H.
    destruct (pumpDTLS_tx s wd lr now written) as [[s' out] pm] eqn:E. injection H as <-. apply Hq.
    destruct (account_record _ _ _ c i s _ _ _ _ _ _ _ Ha Hh Ei E b Eb) as (Ha' & Hh' & Hs').
    destruct out; (split; [done|exact Hh'|by eapply server_same]).
  - destruct (tn_up t !! k) as [[c rec]|] eqn:Ek; [|done]. cbn [mbind option_bind] in H. injection H as <-. apply Hq.
    destruct (account_up _ _ _ _ _ _ write Ha Ek) as [Ha' _].
    destruct write; by split.
  - destruct (tn_up t !! k) as [[c rec]|] eqn:Ek; [|done]. injection H as <-. apply Hq.
    destruct (account_up _ _ _ _ _ _ None Ha Ek) as [_ Ha']. by split.
  - destruct (dispatch (tn_session t) d) as [sess o] eqn:E. injection H as <-.
    pose proof (account_dispatch _ _ _ _ _ _ Ha E) as Ha'. rewrite app_nil_r in *.
    assert (server_ok sess (tn_conns t) (tn_hub t)) as Hv'.
    { destruct Hv as [H1 H2]. unfold server_ok, ids in *. by rewrite (dispatch_keeps _ _ _ _ E). }
    destruct o; by split.
  - destruct (tn_down t !! k) as [[c pkt]|] eqn:Ek; [|done]. cbn [mbind option_bind] in H.
    destruct (tn_conns t !! c) as [i|]; [|done]. cbn [mbind option_bind] in H. destruct (hb_streams (tn_hub t) !! i) as [s|] eqn:Ei; [|done]. cbn [mbind option_bind] in H.
    destruct (pumpDTLS_rx s 0 now (Ok pkt) write) as [[[s' out] pm] lr] eqn:E. injection H as <-. apply Hq.
    destruct (rx_stream _ _ _ _ _ _ _ _ E) as (Hid & Hp & Hi' & Ho).
    pose proof (put_accounts _ _ _ _ _ _ Ei Ht Hid Hp Hi') as [Ha' Hh' Hv'].
    destruct (account_down _ _ (put i s' t) k c pkt Ha' Ek) as (_ & HL & HA).
    destruct Ho as [->|(a & Ea & ->)]; [split; [apply HL|exact Hh'|exact Hv']|].
    split; [apply HA; by apply (Hh i s Ei)|exact Hh'|exact Hv'].
  - destruct (tn_down t !! k) as [[c pkt]|] eqn:Ek; [|done]. injection H as <-. apply Hq.
    destruct (account_down _ _ _ _ _ _ Ha Ek) as (_ & HL & _). split; [apply HL|done|done].
Qed.

Lemma lossy_run_ok acts : forall t t' sent answers, run t acts = Some t' -> tunnel_ok sent answers t ->
  tunnel_ok (sent ++ app_sent acts) (answers ++ backend_sent acts) t'.
Proof.
  induction acts as [|a acts IH]; intros t t' sent answers H Ht; [injection H as <-; by rewrite !app_nil_r|].
  cbn [run] in H. destruct (step t a) as [t1|] eqn:E; [|done]. specialize (IH _ _ _ _ H (lossy_step_ok _ _ _ _ _ E Ht)).
  rewrite <-!app_assoc in IH. change (a :: acts) with ([a] ++ acts). unfold app_sent, backend_sent in *. by rewrite !omap_app.
Qed.

Lemma begin_ok h sid : Forall (fun s => st_in s = [] /\ st_peer s = None) (hb_streams h) -> tunnel_ok [] [] (begin h sid).
Proof.
  intros HF. split.
  - assert (queues h = []) as Hq.
    { unfold queues. induction HF as [|s l [Hs _] _ IH]; [done|]. cbn. by rewrite Hs. }
    split; try constructor. unfold all_up. cbn. by rewrite Hq.
  - intros i s Hi. destruct (Forall_lookup_1 _ _ _ _ HF Hi) as [H1 H2]. split; [by rewrite H2|rewrite H1; cbn; lia].
  - split; [constructor|]. cbn. set_solver.
Qed.

(** ** Theorem *)

(** C4.  Whatever the network does: a hub [NewHub] and [Start] made, its
    streams connecting, losing readiness and leaving in any order, the server's
    session restarting, records lost and reordered.  Every packet the
    application sent is in exactly one place, at the backend, in flight, queued
    or lost for a recorded reason, and likewise every answer of the backend; so
    neither side gets a packet twice or one the other did not send.  An answer
    goes to an address the application sent from, no queue outgrows its
    channel, and the session's slots are distinct streams of the hub, each with
    a connection of that stream. *)
Theorem tunnel_accounts cfg h0 h sid acts t :
  NewHub cfg = Ok h0 -> hub_Start h0 true true = (h, None) -> run (begin h sid) acts = Some t ->
  tn_backend t ++ map cut (map snd (tn_up t) ++ queues (tn_hub t) ++ map snd (tn_lostUp t)) ≡ₚ
    map (fun q => cut (fst q)) (app_sent acts) /\
  map fst (tn_app t) ++ map cut (map snd (tn_down t) ++ map snd (tn_lostDown t)) ≡ₚ map cut (backend_sent acts) /\
  (forall p a, (p, a) ∈ tn_app t -> a ∈ map snd (app_sent acts)) /\
  (forall i s, hb_streams (tn_hub t) !! i = Some s -> (length (st_in s) <= queue_cap)%nat) /\
  server_ok (tn_session t) (tn_conns t) (tn_hub t).
Proof.
  intros H0 H1 H. assert (tunnel_ok [] [] (begin h sid)) as Hb.
  { apply begin_ok. unfold hub_Start in H1. destruct (hb_started h0); [done|]. injection H1 as <-.
    apply Forall_forall. intros s Hs. apply list_elem_of_In, in_map_iff in Hs as (i & <- & _). done. }
  apply (lossy_run_ok _ _ _ _ _ H) in Hb as [[Hu Hd Hbk _ Ha] Hh Hv]. cbn [app] in *. split_and!; [| | |by intros i s Hi; apply (Hh i s)|done].
  - rewrite <-Hu. unfold all_up. rewrite (map_app cut (tn_backend t)). f_equiv.
    rewrite (map_ext_Forall cut id); [by rewrite map_id|]. eapply Forall_impl; [exact Hbk|]. apply cut_short.
  - rewrite <-Hd. unfold all_down. rewrite (map_app cut (map fst (tn_app t))). f_equiv.
    rewrite (map_ext_Forall cut id); [by rewrite map_id|]. apply Forall_map. eapply Forall_impl; [exact Ha|].
    intros q [Hq _]. by apply cut_short.
  - intros p a Hin. rewrite Forall_forall in Ha. by apply (Ha _ Hin).
Qed.

(** Two streams; the second packet overtakes the first, a third is lost, the
    first stream reconnects, and of two answers one is lost. *)
Definition lossy_cfg : HubConfig :=
  mkHubConfig "192.0.2.9:56000" "127.0.0.1:0" 2 "proxy_v2" true [] 0 4 0 ["a"%go] true true.
Definition lossy_acts : list action :=
  [Connects 1; TurnsReady 1 true; AppSends "p0" "a:1"; Connects 0; TurnsReady 0 true; AppSends "p1" "a:1"; AppSends "p2" "a:1";
   SendsRecord 0 0 0 7 accepts; SendsRecord 1 0 0 7 accepts; UpArrives 1 None; UpArrives 0 None;
   SendsRecord 0 0 0 7 accepts; UpLost 0; TurnsReady 1 false; Leaves 0; Connects 1; BackendSends "r0"; BackendSends "r1";
   DownLost 0; DownArrives 0 9 None].

Lemma tunnel_accounts_witness :
  exists h0 h t, NewHub lossy_cfg = Ok h0 /\ hub_Start h0 true true = (h, None) /\
    run (begin h "0123456789abcdef") lossy_acts = Some t /\
    tn_backend t = ["p1"%go; "p0"%go] /\ tn_lostUp t = [(InTransit, "p2"%go)] /\ tn_app t = [("r1"%go, "a:1"%go)] /\
    tn_backend t ++ map cut (map snd (tn_up t) ++ queues (tn_hub t) ++ map snd (tn_lostUp t)) ≡ₚ
      map (fun q => cut (fst q)) (app_sent lossy_acts).
Proof.
  destruct (NewHub lossy_cfg) as [h0|e] eqn:E0; [|by vm_compute in E0].
  destruct (hub_Start h0 true true) as [h [e|]] eqn:E1; [injection E0 as <-; by vm_compute in E1|].
  destruct (run (begin h "0123456789abcdef") lossy_acts) as [t|] eqn:E;
    [|injection E0 as <-; vm_compute in E1; injection E1 as <-; by vm_compute in E].
  destruct (tunnel_accounts lossy_cfg h0 h "0123456789abcdef" lossy_acts t E0 E1 E) as (H & _).
  exists h0, h, t. split; [reflexivity|]. split; [exact E1|]. split; [exact E|].
  injection E0 as <-. vm_compute in E1. injection E1 as <-. vm_compute in E. injection E as <-.
  split; [reflexivity|]. split; [reflexivity|]. split; [reflexivity|exact H].
Defined.
