(* ===== verification/Pump.v ===== *)
(** * internal/proxy: the goroutines of a pump (stream.go)

    [pumpRaw] and [pumpDTLS] as the threads they start: the function's own
    goroutine up to its [wg.Wait] and its deferred calls, the [AfterFunc] that
    expires the deadlines when the pump's context ends, the two carriers of
    the DTLS pipe, and the two data goroutines, whose rounds are those of
    Proxy.  They interleave at every call that others can see. *)

From stdpp Require Import relations.
From S2P Require Import Prelude GoStrings GoErrors Proxy.

Inductive kind := Raw | DTLS (sendHandshake : bool).

(** A deadline: none, ahead, or over. *)
Inductive deadline := NoDeadline | Ahead | Past.

(** The function's own goroutine, by the call it is about to make. *)
Inductive main_pc :=
| MInit          (* dtls.Client; the first goroutines *)
| MArm           (* SetDeadline, ten seconds ahead *)
| MHandshake     (* HandshakeContext *)
| MClear         (* SetDeadline(time.Time{}) *)
| MWArm          (* SetWriteDeadline *)
| MWrite         (* WriteHandshake *)
| MWClear        (* SetWriteDeadline(time.Time{}) *)
| MReady         (* ready; the data goroutines *)
| MWait          (* wg.Wait *)
| MReturn        (* the deferred calls *)
| MEnd.
Inductive after_pc := AOff | AArmed | ARelay | ADtls | AC2 | ADone.
Inductive worker := Off | Running | Leaving | Done.

#[global] Instance deadline_eq_dec : EqDecision deadline.
Proof. solve_decision. Defined.
#[global] Instance main_eq_dec : EqDecision main_pc.
Proof. solve_decision. Defined.
#[global] Instance worker_eq_dec : EqDecision worker.
Proof. solve_decision. Defined.

Record pump := mkPump {
  p_stream : stream;
  p_cancelled : bool;                  (* pumpCtx has ended *)
  p_relay : deadline; p_read : deadline; p_write : deadline; p_c2 : deadline;
  p_closed : bool;                     (* dtlsConn, c2 and c1 *)
  p_main : main_pc; p_after : after_pc;
  p_out : worker; p_in : worker; p_tx : worker; p_rx : worker;
  p_lastRx : Z }.

Definition set_stream s (p : pump) := mkPump s (p_cancelled p) (p_relay p) (p_read p) (p_write p) (p_c2 p) (p_closed p) (p_main p) (p_after p) (p_out p) (p_in p) (p_tx p) (p_rx p) (p_lastRx p).
Definition cancel (p : pump) := mkPump (p_stream p) true (p_relay p) (p_read p) (p_write p) (p_c2 p) (p_closed p) (p_main p) (p_after p) (p_out p) (p_in p) (p_tx p) (p_rx p) (p_lastRx p).
Definition set_relay d (p : pump) := mkPump (p_stream p) (p_cancelled p) d (p_read p) (p_write p) (p_c2 p) (p_closed p) (p_main p) (p_after p) (p_out p) (p_in p) (p_tx p) (p_rx p) (p_lastRx p).
Definition set_dtls r w (p : pump) := mkPump (p_stream p) (p_cancelled p) (p_relay p) r w (p_c2 p) (p_closed p) (p_main p) (p_after p) (p_out p) (p_in p) (p_tx p) (p_rx p) (p_lastRx p).
Definition set_c2 d (p : pump) := mkPump (p_stream p) (p_cancelled p) (p_relay p) (p_read p) (p_write p) d (p_closed p) (p_main p) (p_after p) (p_out p) (p_in p) (p_tx p) (p_rx p) (p_lastRx p).
Definition close_all (p : pump) := mkPump (p_stream p) (p_cancelled p) (p_relay p) (p_read p) (p_write p) (p_c2 p) true (p_main p) (p_after p) (p_out p) (p_in p) (p_tx p) (p_rx p) (p_lastRx p).
Definition goto pc (p : pump) := mkPump (p_stream p) (p_cancelled p) (p_relay p) (p_read p) (p_write p) (p_c2 p) (p_closed p) pc (p_after p) (p_out p) (p_in p) (p_tx p) (p_rx p) (p_lastRx p).
Definition set_after a (p : pump) := mkPump (p_stream p) (p_cancelled p) (p_relay p) (p_read p) (p_write p) (p_c2 p) (p_closed p) (p_main p) a (p_out p) (p_in p) (p_tx p) (p_rx p) (p_lastRx p).
Definition set_carriers o i (p : pump) := mkPump (p_stream p) (p_cancelled p) (p_relay p) (p_read p) (p_write p) (p_c2 p) (p_closed p) (p_main p) (p_after p) o i (p_tx p) (p_rx p) (p_lastRx p).
Definition set_data t r (p : pump) := mkPump (p_stream p) (p_cancelled p) (p_relay p) (p_read p) (p_write p) (p_c2 p) (p_closed p) (p_main p) (p_after p) (p_out p) (p_in p) t r (p_lastRx p).
Definition set_lastRx z (p : pump) := mkPump (p_stream p) (p_cancelled p) (p_relay p) (p_read p) (p_write p) (p_c2 p) (p_closed p) (p_main p) (p_after p) (p_out p) (p_in p) (p_tx p) (p_rx p) z.

(** [pumpRaw] or [pumpDTLS] is entered. *)
Definition start (s : stream) (lastRx : Z) : pump :=
  mkPump s false NoDeadline NoDeadline NoDeadline NoDeadline false MInit AOff Off Off Off Off lastRx.

Section Kind.
Context (k : kind) (wd : Z).

Definition gone (w : worker) : bool := match w with Off | Done => true | _ => false end.
Definition all_gone (p : pump) : bool := gone (p_out p) && gone (p_in p) && gone (p_tx p) && gone (p_rx p).

(** The next call of the function; [ok]: it succeeds, where it can fail.  The
    handshake ends with an error at its deadline or with the context. *)
Definition main_step (ok : bool) (p : pump) : option pump :=
  match p_main p with
  | MInit =>
      match k with
      | Raw => Some (goto MReady (set_after AArmed (set_data Running Running p)))
      | DTLS _ => if ok then Some (goto MArm (set_after AArmed (set_carriers Running Running p)))
                  else Some (goto MReturn p)
      end
  | MArm => Some (goto MHandshake (set_dtls Ahead Ahead p))
  | MHandshake => Some (goto (if ok then MClear else MReturn) p)
  | MClear => Some (goto (match k with DTLS true => MWArm | _ => MReady end) (set_dtls NoDeadline NoDeadline p))
  | MWArm => Some (goto MWrite (set_dtls (p_read p) Ahead p))
  | MWrite => Some (goto (if ok then MWClear else MReturn) p)
  | MWClear => Some (goto MReady (set_dtls (p_read p) NoDeadline p))
  | MReady =>
      let p := set_stream (set_ready (p_stream p) true) p in
      Some (goto MWait (match k with Raw => p | DTLS _ => set_data Running Running p end))
  | MWait => if all_gone p then Some (goto MReturn p) else None
  | MReturn => Some (goto MEnd (cancel (close_all (set_stream (set_ready (p_stream p) false) p))))
  | MEnd => None
  end.

(** The [AfterFunc], once the context has ended. *)
Definition after_step (p : pump) : option pump :=
  match p_after p with
  | AArmed => if p_cancelled p then Some (set_after ARelay p) else None
  | ARelay => Some (set_after (match k with Raw => ADone | DTLS _ => ADtls end) (set_relay Past p))
  | ADtls => Some (set_after AC2 (set_dtls Past Past p))
  | AC2 => Some (set_after ADone (set_c2 Past p))
  | AOff | ADone => None
  end.

(** A read succeeds only on an open connection before its deadline. *)
Definition can_read (d : deadline) (closed : bool) : bool :=
  match d with Past => false | _ => negb closed end.
Definition after_round (r : Proxy.pump) (w : worker) : worker :=
  match r with Again => w | Return => Leaving end.

Definition queued (s : stream) : bool := match st_in s with [] => false | _ :: _ => true end.

(** The round of the goroutine that sends. *)
Definition tx_round (p : pump) (now : Z) (written : bytes -> result error Z) : stream * option bytes * Proxy.pump :=
  match k with
  | Raw => pumpRaw_tx (p_stream p) written
  | DTLS _ => pumpDTLS_tx (p_stream p) wd (p_lastRx p) now written
  end.

(** What happens: a step of the function or of the [AfterFunc], a round of a
    goroutine with what its calls answer, the deferred [cancel] and [Done] of
    one that returns, the end of the parent context, a packet queued by the
    scheduler. *)
Inductive label :=
| LMain (ok : bool)
| LAfter
| LOut (read : result error bytes) (write : option error)
| LIn (read : result error (bytes * bool)) (write : option error)
| LTx (now : Z) (written : bytes -> result error Z)
| LTxDone
| LRxRaw (read : result error (bytes * bool)) (write_local : option error)
| LRx (now : Z) (read : result error bytes) (write_local : option error)
| LLeaveOut | LLeaveIn | LLeaveTx | LLeaveRx
| LParent
| LQueue (pkt : bytes).

Definition readable {A} (read : result error A) (d : deadline) (closed : bool) : bool :=
  match read with Ok _ => can_read d closed | Err _ => true end.

Definition exec (l : label) (p : pump) : option pump :=
  match l with
  | LMain ok => main_step ok p
  | LAfter => after_step p
  | LOut read write =>
      if bool_decide (p_out p = Running) && readable read (p_c2 p) (p_closed p) then
        let '(s, _, r) := carrier_out (p_stream p) read write in
        Some (set_carriers (after_round r Running) (p_in p) (set_stream s p))
      else None
  | LIn read write =>
      if bool_decide (p_in p = Running) && readable read (p_relay p) false then
        let '(s, _, r) := carrier_in (p_stream p) read write in
        Some (set_carriers (p_out p) (after_round r Running) (set_stream s p))
      else None
  | LTx now written =>
      if bool_decide (p_tx p = Running) && queued (p_stream p) then
        let '(s, _, r) := tx_round p now written in
        Some (set_data (after_round r Running) (p_rx p) (set_stream s p))
      else None
  | LTxDone => if bool_decide (p_tx p = Running) && p_cancelled p then Some (set_data Leaving (p_rx p) p) else None
  | LRxRaw read write =>
      match k with
      | Raw =>
          if bool_decide (p_rx p = Running) && readable read (p_relay p) false then
            let '(s, _, r) := pumpRaw_rx (p_stream p) read write in
            Some (set_data (p_tx p) (after_round r Running) (set_stream s p))
          else None
      | DTLS _ => None
      end
  | LRx now read write =>
      match k with
      | Raw => None
      | DTLS _ =>
          if bool_decide (p_rx p = Running) && readable read (p_read p) (p_closed p) then
            let '(s, _, r, last) := pumpDTLS_rx (p_stream p) (p_lastRx p) now read write in
            Some (set_data (p_tx p) (after_round r Running) (set_lastRx last (set_stream s p)))
          else None
      end
  | LLeaveOut => if bool_decide (p_out p = Leaving) then Some (cancel (set_carriers Done (p_in p) p)) else None
  | LLeaveIn => if bool_decide (p_in p = Leaving) then Some (cancel (set_carriers (p_out p) Done p)) else None
  | LLeaveTx => if bool_decide (p_tx p = Leaving) then Some (cancel (set_data Done (p_rx p) p)) else None
  | LLeaveRx => if bool_decide (p_rx p = Leaving) then Some (cancel (set_data (p_tx p) Done p)) else None
  | LParent => Some (cancel p)
  | LQueue pkt =>
      let s := p_stream p in
      if st_ready s && (length (st_in s) <? queue_cap)%nat then Some (set_stream (set_in s (st_in s ++ [pkt])) p) else None
  end.

Definition step (p p' : pump) : Prop := exists l, exec l p = Some p'.

(** The steps that need nobody: no peer, no scheduler, no error of the network;
    a read at its deadline or on a closed connection fails by itself, and the
    select of a goroutine that sends may go on taking what is queued. *)
Definition timeout : error := errors_New "i/o timeout".
Definition alone (p : pump) (l : label) : Prop :=
  match l with
  | LMain ok => match p_main p with MHandshake => ok = false | _ => True end
  | LAfter | LTx _ _ | LTxDone | LLeaveOut | LLeaveIn | LLeaveTx | LLeaveRx => True
  | LOut (Err e) _ => e = timeout /\ can_read (p_c2 p) (p_closed p) = false
  | LIn (Err e) _ => e = timeout /\ can_read (p_relay p) false = false
  | LRxRaw (Err e) _ => e = timeout /\ can_read (p_relay p) false = false
  | LRx _ (Err e) _ => e = timeout /\ can_read (p_read p) (p_closed p) = false
  | _ => False
  end.
Definition alone_step (p p' : pump) : Prop := exists l, alone p l /\ exec l p = Some p'.

(** *** What holds at every moment *)

Definition inv_after (p : pump) : Prop :=
  match p_after p with
  | AOff => p_out p = Off /\ p_in p = Off /\ p_tx p = Off /\ p_rx p = Off /\
            match p_main p with MInit | MReturn | MEnd => True | _ => False end
  | AArmed => True
  | ARelay => p_cancelled p = true
  | ADtls | AC2 => p_cancelled p = true /\ p_relay p = Past /\ k <> Raw
  | ADone => p_cancelled p = true /\ p_relay p = Past /\ (k <> Raw -> p_c2 p = Past)
  end.

Definition inv_main (p : pump) : Prop :=
  match p_main p with
  | MInit => p_after p = AOff /\ p_read p = NoDeadline /\ p_closed p = false
  | MArm | MHandshake | MClear => k <> Raw /\ p_tx p = Off /\ p_rx p = Off /\ p_closed p = false
  | MWArm | MWrite | MWClear =>
      k <> Raw /\ p_tx p = Off /\ p_rx p = Off /\ p_closed p = false /\ p_read p <> Ahead
  | MReady => (k <> Raw -> p_tx p = Off /\ p_rx p = Off) /\ p_closed p = false /\ p_read p <> Ahead
  | MWait => p_closed p = false /\ p_read p <> Ahead /\ st_ready (p_stream p) = true
  | MReturn => gone (p_tx p) = true /\ gone (p_rx p) = true
  | MEnd => gone (p_tx p) = true /\ gone (p_rx p) = true /\ p_closed p = true /\
            p_cancelled p = true /\ st_ready (p_stream p) = false
  end.

Definition inv (p : pump) : Prop :=
  (p_out p = Done \/ p_in p = Done \/ p_tx p = Done \/ p_rx p = Done -> p_cancelled p = true) /\
  (k = Raw -> p_out p = Off /\ p_in p = Off) /\ inv_after p /\ inv_main p.

(** A round changes the stream's counters and its queue, never its readiness;
    one that sends takes a packet off the queue. *)
Lemma carrier_out_frame s read write s' o r : carrier_out s read write = (s', o, r) ->
  st_ready s' = st_ready s /\ st_in s' = st_in s /\ (r = Again -> exists v, read = Ok v).
Proof. unfold carrier_out. intros H. repeat case_match; simplify_eq; naive_solver. Qed.
Lemma carrier_in_frame s read write s' o r : carrier_in s read write = (s', o, r) ->
  st_ready s' = st_ready s /\ st_in s' = st_in s /\ (r = Again -> exists v, read = Ok v).
Proof. unfold carrier_in. intros H. repeat case_match; simplify_eq; naive_solver. Qed.
Lemma raw_rx_frame s read write s' o r : pumpRaw_rx s read write = (s', o, r) ->
  st_ready s' = st_ready s /\ st_in s' = st_in s /\ (r = Again -> exists v, read = Ok v).
Proof. unfold pumpRaw_rx. intros H. repeat case_match; simplify_eq; naive_solver. Qed.
Lemma dtls_rx_frame s last now read write s' o r z : pumpDTLS_rx s last now read write = (s', o, r, z) ->
  st_ready s' = st_ready s /\ st_in s' = st_in s /\ (r = Again -> exists v, read = Ok v).
Proof. unfold pumpDTLS_rx. intros H. repeat case_match; simplify_eq; naive_solver. Qed.

Lemma tx_frame p now written s' o r : queued (p_stream p) = true -> tx_round p now written = (s', o, r) ->
  st_ready s' = st_ready (p_stream p) /\ length (st_in (p_stream p)) = S (length (st_in s')).
Proof.
  unfold queued, tx_round, pumpRaw_tx, pumpDTLS_tx. intros Hne H.
  destruct (st_in (p_stream p)); [done|]. by repeat case_match; simplify_eq.
Qed.

Lemma bool_decide_and {P} `{!Decision P} b : bool_decide P && b = true -> P /\ b = true.
Proof. rewrite andb_true_iff, bool_decide_eq_true. done. Qed.

(** A round under its guard, with what it does not touch. *)
Ltac round_frame :=
  match goal with
  | H : carrier_out _ _ _ = _ |- _ => apply carrier_out_frame in H as (? & ? & ?)
  | H : carrier_in _ _ _ = _ |- _ => apply carrier_in_frame in H as (? & ? & ?)
  | H : pumpRaw_rx _ _ _ = _ |- _ => apply raw_rx_frame in H as (? & ? & ?)
  | H : pumpDTLS_rx _ _ _ _ _ = _ |- _ => apply dtls_rx_frame in H as (? & ? & ?)
  | H : tx_round ?p _ _ = _, Q : queued _ = true |- _ => apply (tx_frame p _ _ _ _ _ Q) in H as [? ?]
  end.

(** The cases of a step taken, on the fields of the state. *)
Ltac exec_cases H :=
  repeat match type of H with context [match ?x with _ => _ end] => destruct x eqn:?; try discriminate H end;
  try (injection H as <-);
  repeat match goal with
  | E : bool_decide _ && _ = true |- _ => apply bool_decide_and in E as [-> ?]
  | E : bool_decide (_ = _) = true |- _ => apply bool_decide_eq_true in E as ->
  | E : _ && _ = true |- _ => apply andb_true_iff in E as [? ?]
  end; try round_frame; try match goal with r : Proxy.pump |- _ => destruct r end; cbn in *.

(** The clauses of the invariant one by one. *)
Ltac by_clauses :=
  split_and?; destruct_and?; subst;
  first [done | congruence |
    intros; repeat match goal with H : ?P -> _, H' : ?P |- _ => specialize (H H') end; intuition congruence].

Lemma inv_start s last : inv (start s last).
Proof. unfold inv, inv_after, inv_main. cbn. by_clauses. Qed.

Lemma inv_main_step ok p p' : inv p -> main_step ok p = Some p' -> inv p'.
Proof.
  intros (HD & HK & HA & HM) H. destruct p as [s c rl rd wr c2 cl m a o i t r z].
  unfold main_step, all_gone, inv, inv_after, inv_main in *. cbn in *.
  destruct m; exec_cases H; destruct a; by_clauses.
Qed.

Lemma inv_after_step p p' : inv p -> after_step p = Some p' -> inv p'.
Proof.
  intros (HD & HK & HA & HM) H. destruct p as [s c rl rd wr c2 cl m a o i t r z].
  unfold after_step, inv, inv_after, inv_main in *. cbn in *.
  destruct a; exec_cases H; destruct m; by_clauses.
Qed.

Lemma inv_exec p l p' : inv p -> exec l p = Some p' -> inv p'.
Proof.
  intros HI H. destruct l; try (cbn in H; by eauto using inv_main_step, inv_after_step).
  all: destruct HI as (HD & HK & HA & HM); destruct p as [s c rl rd wr c2 cl m a o i t r z];
    unfold inv, inv_after, inv_main in *; cbn in *.
  all: exec_cases H; try (assert (a <> AOff) by (intros ->; destruct_and?; congruence)).
  all: split; [by_clauses|split; [by_clauses|split; [destruct a; by_clauses | destruct m; by_clauses]]].
Qed.

Lemma inv_steps p p' : inv p -> rtc step p p' -> inv p'.
Proof. intros HI. induction 1 as [|p q r [l H] _ IH]; [done|]. eauto using inv_exec. Qed.
Lemma alone_is_step p p' : alone_step p p' -> step p p'.
Proof. intros (l & _ & H). by exists l. Qed.

(** A context that has ended stays so. *)
Lemma step_cancelled p p' : step p p' -> p_cancelled p = true -> p_cancelled p' = true.
Proof.
  intros [l H] Hc. destruct p as [s c rl rd wr c2 cl m a o i t r z]. cbn in Hc. subst c.
  destruct l; cbn in H; unfold main_step, after_step in H; exec_cases H; done.
Qed.
Lemma alone_cancelled p p' : rtc alone_step p p' -> p_cancelled p = true -> p_cancelled p' = true.
Proof. induction 1 as [|p q r H _ IH]; [done|]. eauto using step_cancelled, alone_is_step. Qed.

(** *** Termination *)

Definition main_left (pc : main_pc) : nat :=
  match pc with
  | MInit => 22 | MArm => 13 | MHandshake => 12 | MClear => 11 | MWArm => 10 | MWrite => 9
  | MWClear => 8 | MReady => 7 | MWait => 2 | MReturn => 1 | MEnd => 0
  end.
Definition after_left (a : after_pc) : nat :=
  match a with AArmed => 4 | ARelay => 3 | ADtls => 2 | AC2 => 1 | AOff | ADone => 0 end.
Definition work_left (w : worker) : nat := match w with Running => 2 | Leaving => 1 | Off | Done => 0 end.
Definition steps_left (p : pump) : nat :=
  main_left (p_main p) + after_left (p_after p) + work_left (p_out p) + work_left (p_in p) +
  work_left (p_tx p) + work_left (p_rx p) + length (st_in (p_stream p)).

Lemma work_left_2 w : (work_left w <= 2)%nat.
Proof. destruct w; cbn; lia. Qed.

Lemma main_decreases ok p p' : main_step ok p = Some p' -> (steps_left p' < steps_left p)%nat.
Proof.
  intros H. destruct p as [s c rl rd wr c2 cl m a o i t r z].
  pose proof (work_left_2 o). pose proof (work_left_2 i). pose proof (work_left_2 t). pose proof (work_left_2 r).
  unfold main_step, steps_left in *. destruct m; exec_cases H; lia.
Qed.

Lemma after_decreases p p' : after_step p = Some p' -> (steps_left p' < steps_left p)%nat.
Proof.
  intros H. destruct p as [s c rl rd wr c2 cl m a o i t r z].
  unfold after_step, steps_left in *. destruct a; exec_cases H; lia.
Qed.

Lemma alone_decreases p p' : alone_step p p' -> (steps_left p' < steps_left p)%nat.
Proof.
  intros (l & HA & H). destruct l; cbn in HA; try done;
    try (cbn in H; by eauto using main_decreases, after_decreases).
  all: destruct p as [s c rl rd wr c2 cl m a o i t r z]; cbn in H.
  all: try (destruct read; [done|]); unfold steps_left; exec_cases H; simplify_eq/=;
    try match goal with E : Again = Again -> _ |- _ => by destruct (E eq_refl) end;
    try match goal with E : st_in _ = st_in _ |- _ => rewrite E end; lia.
Qed.

Lemma alone_sn p : sn alone_step p.
Proof.
  apply (wf_projected lt steps_left); [|apply lt_wf].
  intros q q' H. by apply alone_decreases.
Qed.

(** *** Where a pump can stop *)

Definition finished (p : pump) : Prop :=
  p_main p = MEnd /\ all_gone p = true /\ st_ready (p_stream p) = false /\
  (p_after p = AOff \/ p_after p = ADone).

(** The goroutine that receives waits in [dtlsConn.Read] without a deadline,
    [wg.Wait] for it, and the scheduler still selects the stream. *)
Definition hung (p : pump) : Prop :=
  k <> Raw /\ p_main p = MWait /\ p_rx p = Running /\ p_read p = NoDeadline /\ p_closed p = false /\
  p_after p = ADone /\ gone (p_out p) = true /\ gone (p_in p) = true /\ gone (p_tx p) = true /\
  st_ready (p_stream p) = true.

Lemma nf_label p l : nf alone_step p -> alone p l -> exec l p = None.
Proof. intros Hn Ha. destruct (exec l p) as [q|] eqn:E; [|done]. destruct Hn. exists q. by exists l. Qed.

Lemma nf_after p : p_cancelled p = true -> nf alone_step p -> p_after p = AOff \/ p_after p = ADone.
Proof.
  intros Hc Hn. pose proof (nf_label p LAfter Hn I) as H. cbn in H. unfold after_step in H.
  rewrite Hc in H. destruct (p_after p); auto; done.
Qed.

Lemma nf_main p : nf alone_step p -> p_main p = MEnd \/ p_main p = MWait /\ all_gone p = false.
Proof.
  intros Hn. pose proof (nf_label p (LMain false) Hn) as H. cbn in H. unfold main_step in H.
  destruct (p_main p); cbn in H; try (specialize (H ltac:(done)); repeat case_match; done); auto.
  right. split; [done|]. specialize (H I). by destruct (all_gone p).
Qed.

(** A goroutine that has not finished and whose last steps are its own. *)
Lemma nf_worker p w :
  (w = Leaving -> exists l, alone p l /\ exec l p <> None) ->
  (w = Running -> exists l, alone p l /\ exec l p <> None) ->
  nf alone_step p -> gone w = true.
Proof.
  intros HL HR Hn. destruct w; try done.
  - destruct (HR eq_refl) as (l & A & B). by rewrite (nf_label p l Hn A) in B.
  - destruct (HL eq_refl) as (l & A & B). by rewrite (nf_label p l Hn A) in B.
Qed.

Lemma expired_read {A} (e : error) d closed : can_read d closed = false ->
  readable (@Err error A e) d closed = true.
Proof. done. Qed.

Lemma nf_gone p : inv p -> p_cancelled p = true -> p_after p = ADone -> nf alone_step p ->
  gone (p_out p) = true /\ gone (p_in p) = true /\ gone (p_tx p) = true /\
  (gone (p_rx p) = true \/ k <> Raw /\ p_rx p = Running /\ can_read (p_read p) (p_closed p) = true).
Proof.
  intros (HD & HK & HA & HM) Hc Ha Hn. unfold inv_after in HA. rewrite Ha in HA.
  destruct HA as (_ & Hrelay & Hc2).
  split; [|split; [|split]].
  - apply (nf_worker p); [intros E; exists LLeaveOut; cbn; by rewrite E | | done].
    intros E. assert (k <> Raw) as Hk by (intros ->; by destruct HK as [? ?]; [|congruence]).
    exists (LOut (Err timeout) None). cbn. rewrite E, (Hc2 Hk). done.
  - apply (nf_worker p); [intros E; exists LLeaveIn; cbn; by rewrite E | | done].
    intros E. exists (LIn (Err timeout) None). cbn. rewrite E, Hrelay. done.
  - apply (nf_worker p); [intros E; exists LLeaveTx; cbn; by rewrite E | | done].
    intros E. exists LTxDone. cbn. rewrite E, Hc. done.
  - destruct (p_rx p) eqn:E; auto.
    + destruct k as [|b] eqn:Ek.
      * left. apply (nf_worker p); [done | | done]. intros _.
        exists (LRxRaw (Err timeout) None). cbn. by rewrite Ek, E, Hrelay.
      * destruct (can_read (p_read p) (p_closed p)) eqn:Er; [auto|].
        left. apply (nf_worker p); [done | | done]. intros _.
        exists (LRx 0 (Err timeout) None). cbn. by rewrite Ek, E.
    + left. apply (nf_worker p); [ | done | done]. intros _. exists LLeaveRx. cbn. by rewrite E.
Qed.

Lemma nf_stopped p : inv p -> p_cancelled p = true -> nf alone_step p -> finished p \/ hung p.
Proof.
  intros HI Hc Hn. pose proof HI as (_ & _ & HA & HM). unfold inv_after in HA. unfold inv_main in HM.
  destruct (nf_after p Hc Hn) as [Ea|Ea].
  { left. rewrite Ea in HA. destruct HA as (Ho & Hi & Ht & Hr & Hm).
    destruct (nf_main p Hn) as [Em|[Em _]]; [|by rewrite Em in Hm].
    rewrite Em in HM. unfold finished, all_gone. rewrite Ho, Hi, Ht, Hr. naive_solver. }
  destruct (nf_gone p HI Hc Ea Hn) as (Ho & Hi & Ht & Hr).
  destruct (nf_main p Hn) as [Em|[Em Hg]]; rewrite Em in HM.
  - left. destruct HM as (_ & Hr' & _ & _ & Hs). unfold finished, all_gone. rewrite Ho, Hi, Ht, Hr'. auto.
  - right. unfold all_gone in Hg. rewrite Ho, Hi, Ht in Hg. destruct Hr as [Hr|(Hk & Hr & Hcan)]; [by rewrite Hr in Hg|].
    destruct HM as (Hcl & Hrd & Hs). unfold hung. split_and!; try done. by destruct (p_read p).
Qed.

(** Once the function waits for its goroutines nothing takes a deadline back. *)
Definition settled (p : pump) : Prop :=
  match p_main p with MWait | MReturn | MEnd => True | _ => False end /\
  (k = Raw \/ p_read p = Past \/ match p_after p with AArmed | ARelay | ADtls => True | _ => False end).

Lemma settled_exec p l p' : settled p -> exec l p = Some p' -> settled p'.
Proof.
  intros [Hm Hd] H. destruct p as [s c rl rd wr c2 cl m a o i t r z].
  unfold settled in *. destruct l; cbn in H; unfold main_step, after_step in H; exec_cases H;
    try done; split; try done; naive_solver.
Qed.

Lemma settled_steps p q : settled p -> rtc step p q -> settled q.
Proof. intros HS. induction 1 as [|p q r [l H] _ IH]; [done|]. eauto using settled_exec. Qed.

Lemma settled_not_hung p : settled p -> ~ hung p.
Proof. intros (_ & H) (Hk & _ & _ & Hr & _ & Ha & _). rewrite Hr, Ha in H. naive_solver. Qed.

Lemma waiting_settled p : inv p -> p_main p = MWait -> p_cancelled p = false -> settled p.
Proof.
  intros (_ & _ & HA & _) Hm Hc. unfold settled, inv_after in *. rewrite Hm, Hc in *.
  destruct (p_after p); naive_solver.
Qed.

(** C8.  When a pump's context ends the pump comes to rest, whatever the
    relay, the peer and the scheduler did before: by itself it can only take
    finitely many more steps, and where none is left the function has
    returned, its goroutines are over and the stream is no longer ready, unless
    a DTLS pump hangs with its receiver in a read that has lost its deadline.
    That never happens to a pump without DTLS, nor to one whose context ends
    after its handshake. *)
Theorem pump_stops s last p :
  rtc step (start s last) p ->
  sn alone_step p /\
  (p_cancelled p = true -> forall q, rtc alone_step p q -> nf alone_step q -> finished q \/ hung q) /\
  (k = Raw -> ~ hung p) /\
  (p_main p = MWait -> p_cancelled p = false ->
     forall q, rtc step p q -> p_cancelled q = true -> nf alone_step q -> finished q).
Proof.
  intros HR. pose proof (inv_steps _ _ (inv_start s last) HR) as HI.
  split; [apply alone_sn|]. split; [|split].
  - intros Hc q HQ Hn. apply nf_stopped; [|by eapply alone_cancelled|done].
    eapply inv_steps, rtc_subrel, HQ; [done|]. intros ??. apply alone_is_step.
  - by intros Hk (Hk' & _).
  - intros Hm Hc q HQ Hc' Hn.
    destruct (nf_stopped q (inv_steps _ _ HI HQ) Hc' Hn) as [|Hh]; [done|].
    by destruct (settled_not_hung q); [eapply settled_steps, HQ; by apply waiting_settled|].
Qed.
End Kind.

(** *** Schedules *)

Fixpoint play (k : kind) (wd : Z) (ls : list label) (p : pump) : option pump :=
  match ls with
  | [] => Some p
  | l :: ls => match exec k wd l p with Some p' => play k wd ls p' | None => None end
  end.

Lemma play_steps k wd ls p q : play k wd ls p = Some q -> rtc (step k wd) p q.
Proof.
  revert p. induction ls as [|l ls IH]; intros p H; cbn in H; [by injection H as ->|].
  destruct (exec k wd l p) as [p'|] eqn:E; [|done]. eapply rtc_l; [by exists l | by apply IH].
Qed.

(** A proxy_v2 pump is set up, a packet goes each way, and the caller stops. *)
Definition opening : list label := replicate 8 (LMain true).
Definition traffic : list label :=
  [LQueue "ping"%go; LTx 0 (fun b => Ok (Z.of_nat (length b))); LOut (Ok "record"%go) None;
   LIn (Ok ("record"%go, true)) None; LRx 5 (Ok "pong"%go) None; LParent].
Definition demo : pump := set_stream (set_peer (new_stream 0) "10.0.0.1:5"%go) (start (new_stream 0) 0).
Definition running : pump := default demo (play (DTLS true) 0 (opening ++ traffic) demo).

Lemma pump_stops_witness :
  p_cancelled running = true /\ st_packetsRx (p_stream running) = 1%Z /\
  sn (alone_step (DTLS true) 0) running /\
  forall q, rtc (alone_step (DTLS true) 0) running q -> nf (alone_step (DTLS true) 0) q ->
    finished q \/ hung (DTLS true) q.
Proof.
  assert (rtc (step (DTLS true) 0) demo running) as HR
    by (apply (play_steps _ _ (opening ++ traffic)); vm_compute; reflexivity).
  split; [vm_compute; reflexivity|]. split; [vm_compute; reflexivity|].
  destruct (pump_stops (DTLS true) 0 (set_peer (new_stream 0) "10.0.0.1:5"%go) 0 running HR) as (H1 & H2 & _).
  split; [exact H1|]. apply H2. vm_compute. reflexivity.
Defined.

(** The context ends between the handshake's return and the call that takes
    the handshake's deadline back: [SetDeadline(time.Time{})] then takes back
    the deadline the [AfterFunc] has just set, and with both carriers gone
    nothing ever ends the receiver's read.  The stream stays ready for ever. *)
Definition lost_deadline : list label :=
  replicate 3 (LMain true) ++ [LParent; LAfter; LAfter; LAfter; LAfter;
    LOut (Err timeout) None; LLeaveOut; LIn (Err timeout) None; LLeaveIn] ++
  replicate 5 (LMain true) ++ [LTxDone; LLeaveTx].

Lemma deadline_lost_hangs :
  exists p, rtc (step (DTLS true) 0) demo p /\ hung (DTLS true) p /\ nf (alone_step (DTLS true) 0) p.
Proof.
  destruct (play (DTLS true) 0 lost_deadline demo) as [p|] eqn:E; [|vm_compute in E; discriminate E].
  exists p. split; [by eapply play_steps|]. vm_compute in E. injection E as <-.
  split; [unfold hung; cbn; by split_and!|].
  intros (q & l & HA & H). destruct l; try destruct read; cbn in HA; try done; destruct_and?; try done;
    cbn in H; done.
Qed.

(** A pump without DTLS comes to rest under a like schedule. *)
Lemma raw_comes_to_rest :
  exists p, play Raw 0 [LMain true; LMain true; LParent; LAfter; LAfter; LRxRaw (Err timeout) None; LTxDone;
    LLeaveRx; LLeaveTx; LMain true; LMain true] demo = Some p /\ finished p.
Proof. eexists. split; [vm_compute; reflexivity|]. unfold finished. cbn. split_and!; auto. Qed.
