(* ===== verification/Tunnel.v ===== *)
(** * pkg/wgturn: the tunnel's configuration and life cycle

    config.go, tunnel.go and stats.go.  Interfaces ([Provider], [Protector],
    [Logger]) are modelled by whether they are nil; the hub is the one of
    Proxy.v. *)

From S2P Require Import Prelude GoStrings GoErrors Creds Framing Proxy.

Definition PeerTypeProxyV2 : bytes := "proxy_v2".
Definition PeerTypeProxyV1 : bytes := "proxy_v1".
Definition PeerTypeWireGuard : bytes := "wireguard".
Definition ModeVKLink : bytes := "vk_link".
Definition ModeWB : bytes := "wb".
Definition ModeStub : bytes := "stub".

Record Config := mkConfig {
  PeerAddr : bytes;
  ListenAddr : bytes;
  Streams : Z;
  PeerType : bytes;
  Mode : bytes;
  Hint : bytes;
  Hints : list bytes;
  UDP : bool;
  TURNHostOverride : bytes;
  TURNPortOverride : Z;
  StreamsPerCred : Z;
  WatchdogTimeout : Z;
  has_Provider : bool;
  has_Protector : bool;
  has_Logger : bool }.

(** All of these wrap [ErrInvalidConfig]. *)
Inductive config_error :=
| PeerAddrRequired | BadPeerAddr (e : addr_error)
| ListenAddrRequired | BadListenAddr (e : addr_error)
| NegativeStreams | TooManyStreams | NegativeStreamsPerCred | NegativeWatchdog
| ProviderRequired | ProtectorRequired | UnknownPeerType (t : bytes).

Definition known_peer_type (t : bytes) : bool :=
  mem_bytes t [[]; PeerTypeProxyV2; PeerTypeProxyV1; PeerTypeWireGuard].

Definition Validate (c : Config) : result config_error unit :=
  guard negb (PeerAddr c =s? []) else PeerAddrRequired in
  let* _ := rwrap BadPeerAddr (SplitHostPort (PeerAddr c)) in
  guard negb (ListenAddr c =s? []) else ListenAddrRequired in
  let* _ := rwrap BadListenAddr (SplitHostPort (ListenAddr c)) in
  guard negb (Streams c <? 0)%Z else NegativeStreams in
  guard negb (255 <? Streams c)%Z else TooManyStreams in
  guard negb (StreamsPerCred c <? 0)%Z else NegativeStreamsPerCred in
  guard negb (WatchdogTimeout c <? 0)%Z else NegativeWatchdog in
  guard has_Provider c else ProviderRequired in
  guard has_Protector c else ProtectorRequired in
  guard known_peer_type (PeerType c) else UnknownPeerType (PeerType c) in
  Ok tt.

Definition withDefaults (c : Config) : Config :=
  mkConfig (PeerAddr c) (ListenAddr c)
    (if (Streams c =? 0)%Z then 1%Z else Streams c)
    (if PeerType c =s? [] then PeerTypeProxyV2 else PeerType c)
    (if Mode c =s? [] then ModeStub else Mode c)
    (Hint c) (Hints c) (UDP c) (TURNHostOverride c) (TURNPortOverride c)
    (if (StreamsPerCred c =? 0)%Z then 4%Z else StreamsPerCred c)
    (WatchdogTimeout c) (has_Provider c) (has_Protector c) true.

(** What an embedder adds to a configuration made from a file or a share
    URL: a provider, a protector and a logger. *)
Definition with_provider (c : Config) : Config :=
  mkConfig (PeerAddr c) (ListenAddr c) (Streams c) (PeerType c) (Mode c) (Hint c) (Hints c) (UDP c)
    (TURNHostOverride c) (TURNPortOverride c) (StreamsPerCred c) (WatchdogTimeout c) true true true.

(** ** Life cycle *)

Inductive state := stateNew | stateStarted | stateStopped.

Record Tunnel := mkTunnel { t_cfg : Config; t_hub : option Hub; t_state : state }.

Definition New (cfg : Config) : result config_error Tunnel :=
  let* _ := Validate cfg in Ok (mkTunnel (withDefaults cfg) None stateNew).

(** The hint pool [Start] hands to the hub. *)
Definition hint_pool (c : Config) : list bytes :=
  match Hints c with
  | [] => if Hint c =s? [] then [] else [Hint c]
  | hs => hs
  end.

Definition hub_config (c : Config) : HubConfig :=
  mkHubConfig (PeerAddr c) (ListenAddr c) (Streams c) (PeerType c) (UDP c)
    (TURNHostOverride c) (TURNPortOverride c) (StreamsPerCred c) (WatchdogTimeout c)
    (hint_pool c) true true.

Inductive start_error :=
| ErrAlreadyStarted
| BuildHub (e : hub_error)
| StartHub (e : hub_error)
| ErrStartTimeout
| CtxEnded (e : error).

(** What ends the wait of [Start]: the hub is ready (with the streams in the
    state they have then), the 30 seconds are over, or the caller's context
    ended first. *)
Inductive waited := HubReady (h : Hub -> Hub) | Deadline | CtxDone (e : error).

Definition Start (t : Tunnel) (listened certified : bool) (w : waited) : Tunnel * option start_error :=
  match t_state t with
  | stateNew =>
      match NewHub (hub_config (t_cfg t)) with
      | Err e => (t, Some (BuildHub e))
      | Ok hub =>
          match hub_Start hub listened certified with
          | (_, Some e) => (t, Some (StartHub e))
          | (hub, None) =>
              match w with
              | HubReady f => (mkTunnel (t_cfg t) (Some (f hub)) stateStarted, None)
              | Deadline => (t, Some ErrStartTimeout)
              | CtxDone e => (t, Some (CtxEnded e))
              end
          end
      end
  | _ => (t, Some ErrAlreadyStarted)
  end.

Definition Stop (t : Tunnel) : Tunnel :=
  match t_state t with
  | stateStarted =>
      mkTunnel (t_cfg t) ((fun h => fst (hub_Stop h)) <$> t_hub t) stateStopped
  | _ => t
  end.

(** [ErrNotStarted] is [None]. *)
Definition tunnel_stats (t : Tunnel) : option HubStats :=
  match t_state t, t_hub t with
  | stateStarted, Some h => Some (hub_stats h)
  | _, _ => None
  end.

Definition Healthy (t : Tunnel) (min : Z) : bool :=
  match tunnel_stats t with
  | None => false
  | Some s => let min := if (min <=? 0)%Z then 1%Z else min in (min <=? StreamsRunning s)%Z
  end.

(** Calls of an embedder, and what streams do meanwhile. *)
Inductive call :=
| CallStart (listened certified : bool) (w : waited)
| CallStop
| CallStats
| HubProgress (f : Hub -> Hub).

Inductive answer := Started | NotStarted (e : start_error) | Stopped | StatsIs (s : option HubStats) | Internal.

Definition do_call (t : Tunnel) (c : call) : Tunnel * answer :=
  match c with
  | CallStart l ce w =>
      match Start t l ce w with
      | (t, None) => (t, Started)
      | (t, Some e) => (t, NotStarted e)
      end
  | CallStop => (Stop t, Stopped)
  | CallStats => (t, StatsIs (tunnel_stats t))
  | HubProgress f => (mkTunnel (t_cfg t) (f <$> t_hub t) (t_state t), Internal)
  end.

Fixpoint do_calls (t : Tunnel) (cs : list call) : Tunnel * list answer :=
  match cs with
  | [] => (t, [])
  | c :: cs => let '(t, a) := do_call t c in let '(t, l) := do_calls t cs in (t, a :: l)
  end.

(** ** Theorems *)

Lemma New_ok cfg t :
  New cfg = Ok t -> t = mkTunnel (withDefaults cfg) None stateNew /\
  (0 <= Streams cfg <= 255)%Z /\ (0 <= StreamsPerCred cfg)%Z /\
  (0 <= WatchdogTimeout cfg)%Z /\ known_peer_type (PeerType cfg) = true /\
  is_ok (SplitHostPort (PeerAddr cfg)) = true /\ is_ok (SplitHostPort (ListenAddr cfg)) = true.
Proof.
  unfold New, Validate. intros H. inv_result H.
  repeat match goal with
  | E : rbind _ _ = Ok _ |- _ => inv_result E
  | E : rwrap _ _ = Ok _ |- _ => inv_result E
  | E : (if _ then _ else _) = Ok _ |- _ => inv_result E
  end.
  injection H as <-. bprop.
  repeat match goal with E : SplitHostPort ?a = Ok _ |- _ => rewrite E; clear E end.
  repeat match goal with E : rwrap _ (SplitHostPort ?a) = Ok _ |- _ =>
    destruct (SplitHostPort a); [clear E | discriminate E] end.
  split_and!; try done; lia.
Qed.

Lemma byte_of_Z_inj_small i j :
  (0 <= i < 256)%Z -> (0 <= j < 256)%Z -> byte_of_Z i = byte_of_Z j -> i = j.
Proof.
  intros Hi Hj H. apply (f_equal byte_val) in H. rewrite !byte_val_of_Z in H.
  rewrite !Z.mod_small in H by lia. done.
Qed.

(** An attempt of a hub with a known peer type never ends for the type. *)
Lemma runOnce_known_peer cfg c id sess ev text :
  mem_bytes (hc_PeerType cfg) [PeerTypeProxyV2; PeerTypeProxyV1; PeerTypeWireGuard; []] = true ->
  snd (runOnce cfg c id sess ev) <> (errors_New ("unknown PeerType " ++ text), false).
Proof.
  intros Hk HE. unfold runOnce in HE.
  assert (forall pre e, (Errorf_w pre e, false) = (errors_New ("unknown PeerType " ++ text), false) ->
    head pre = Some x75 \/ pre = []) as HP.
  { intros pre e He. injection He as He _. destruct pre as [|a pre]; [by right|left].
    injection He as -> _. done. }
  assert (forall b, snd (pumpDTLS ev id sess b) = false ->
    fst (pumpDTLS ev id sess b) <> errors_New ("unknown PeerType " ++ text)) as HD.
  { intros b Hb E. unfold pumpDTLS in *. destruct (ev_dtls_client ev); [discriminate E|].
    destruct (ev_dtls_handshake ev); [discriminate E|].
    destruct (if b : bool then _ else _); [discriminate E | discriminate Hb]. }
  destruct (Get c _ _ _ _ _ _) as [[c' [cr|e]] f]; [|discriminate HE].
  destruct (ev_dial ev _ _); [destruct (hc_UDP cfg); discriminate HE|].
  destruct (ev_resolve ev _); [|discriminate HE]. destruct (ev_resolve ev _); [|discriminate HE].
  destruct (ev_client ev); [discriminate HE|]. destruct (ev_listen ev); [discriminate HE|].
  destruct (ev_allocate ev); [discriminate HE|]. cbn [snd] in HE.
  destruct (seqb_spec (hc_PeerType cfg) "wireguard") as [|H1]; [discriminate HE|].
  destruct (seqb_spec (hc_PeerType cfg) "proxy_v1") as [|H2].
  { specialize (HD false). destruct (pumpDTLS ev id sess false). injection HE as -> ->. by apply HD. }
  destruct (seqb_spec (hc_PeerType cfg) "proxy_v2") as [|H3].
  { cbn [orb] in HE. specialize (HD true). destruct (pumpDTLS ev id sess true). injection HE as -> ->. by apply HD. }
  destruct (seqb_spec (hc_PeerType cfg) []) as [|H4].
  { cbn [orb] in HE. specialize (HD true). destruct (pumpDTLS ev id sess true). injection HE as -> ->. by apply HD. }
  apply mem_bytes_In in Hk. set_solver.
Qed.

(** C33.  A configuration [New] accepts brings up a well-formed hub: building
    it cannot fail; it has between 1 and 255 streams and at least one stream
    per credential; the preambles its streams send differ pairwise, so on the
    server none evicts another; and no attempt ends for an unknown peer type. *)
Theorem New_brings_up_hub cfg t :
  New cfg = Ok t ->
  exists hub hub', NewHub (hub_config (t_cfg t)) = Ok hub /\ hub_Start hub true true = (hub', None) /\
    (1 <= Z.of_nat (length (hb_streams hub')) <= 255)%Z /\
    (1 <= hc_StreamsPerCred (hb_cfg hub'))%Z /\
    (forall sid i j s1 s2, hb_streams hub' !! i = Some s1 -> hb_streams hub' !! j = Some s2 ->
       handshake_bytes sid (byte_of_Z (st_id s1)) = handshake_bytes sid (byte_of_Z (st_id s2)) -> i = j) /\
    (forall c id sess ev text,
       snd (runOnce (hb_cfg hub') c id sess ev) <> (errors_New ("unknown PeerType " ++ text), false)).
Proof.
  intros H. apply New_ok in H as (-> & Hs & Hspc & _ & Hpt & _).
  cbn [t_cfg]. set (n := if (Streams cfg =? 0)%Z then 1%Z else Streams cfg).
  assert (1 <= n <= 255)%Z as Hn by (unfold n; destruct (Z.eqb_spec (Streams cfg) 0); lia).
  eexists _, _. split; [reflexivity|]. cbn [hc_Streams hub_config withDefaults Streams].
  cbn [hc_StreamsPerCred hub_config withDefaults StreamsPerCred]. fold n.
  replace (n <=? 0)%Z with false by (symmetry; apply Z.leb_gt; lia).
  split; [reflexivity|]. cbn [hb_streams set_streams hb_cfg hc_Streams hc_StreamsPerCred].
  split_and!.
  - rewrite length_map, length_seq. lia.
  - rewrite length_map, length_seq. lia.
  - destruct (Z.eqb_spec (StreamsPerCred cfg) 0); [done|].
    destruct (Z.leb_spec (StreamsPerCred cfg) 0); lia.
  - intros sid i j s1 s2 H1 H2 HB.
    rewrite (list_lookup_fmap _ (seq 0 (Z.to_nat n))) in H1, H2.
    apply fmap_Some in H1 as (x & Hx & ->), H2 as (y & Hy & ->).
    apply lookup_seq in Hx as [-> Hi], Hy as [-> Hj]. cbn [st_id new_stream] in HB.
    unfold handshake_bytes in HB. apply app_inv_head in HB. injection HB as HB.
    apply byte_of_Z_inj_small in HB; lia.
  - intros c id sess ev text. apply runOnce_known_peer. cbn.
    unfold known_peer_type, mem_bytes in Hpt. cbn in Hpt.
    destruct (seqb_spec (PeerType cfg) []) as [->|Hne]; [by vm_compute|].
    destruct (PeerType cfg); [done|]. cbn [existsb seqb] in *. by rewrite !orb_false_r in *.
Qed.

Definition demo_config : Config :=
  mkConfig "vpn.example:56000" "127.0.0.1:9000" 16 [] [] "link" [] false [] 0 0 0 true true false.

Lemma New_brings_up_hub_witness :
  exists t hub hub', New demo_config = Ok t /\ NewHub (hub_config (t_cfg t)) = Ok hub /\
    hub_Start hub true true = (hub', None) /\ (1 <= Z.of_nat (length (hb_streams hub')) <= 255)%Z.
Proof.
  destruct (New_brings_up_hub demo_config (mkTunnel (withDefaults demo_config) None stateNew))
    as (hub & hub' & H1 & H2 & H3 & _); [reflexivity|].
  eexists _, hub, hub'. split; [reflexivity|]. split; [exact H1|]. split; [exact H2 | exact H3].
Defined.

(** A tunnel is single-use: over any sequence of calls, at most one
    [Start] succeeds, and [Stats] answers exactly between it and the [Stop]
    that follows. *)
Theorem tunnel_single_use cfg t cs t' out :
  New cfg = Ok t -> do_calls t cs = (t', out) ->
  (length (List.filter (fun a => match a with Started => true | _ => false end) out) <= 1)%nat /\
  (t_state t' = stateNew -> Forall (fun a => a <> Started) out) /\
  (tunnel_stats t' <> None <-> t_state t' = stateStarted).
Proof.
  intros HN. apply New_ok in HN as (-> & _).
  assert (forall t, (t_state t = stateStarted -> t_hub t <> None) ->
    forall t' out, do_calls t cs = (t', out) ->
    (length (List.filter (fun a => match a with Started => true | _ => false end) out) <=
       match t_state t with stateNew => 1 | _ => 0 end)%nat /\
    (t_state t' = stateNew -> t_state t = stateNew /\ Forall (fun a => a <> Started) out) /\
    (t_state t' = stateStarted -> t_hub t' <> None)) as HA.
  { clear. induction cs as [|c cs IH]; intros t Ht t' out H; cbn [do_calls] in H.
    - injection H as <- <-. cbn. split; [lia|]. split; [by intros ->|done].
    - destruct (do_call t c) as [t1 a] eqn:E1. destruct (do_calls t1 cs) as [t2 l] eqn:E2.
      injection H as <- <-.
      assert ((t_state t1 = stateStarted -> t_hub t1 <> None) /\
        (a = Started -> t_state t = stateNew /\ t_state t1 = stateStarted) /\
        (t_state t1 = stateNew -> t_state t = stateNew) /\
        (t_state t <> stateNew -> t_state t1 <> stateNew)) as (I1 & I2 & I3 & I4).
      { destruct c as [li ce w| | |f]; cbn [do_call] in E1.
        - unfold Start in E1. destruct (t_state t) eqn:Es; [|injection E1 as <- <-; rewrite Es; done..].
          destruct (NewHub _) as [h|e]; [|injection E1 as <- <-; rewrite Es; done].
          destruct (hub_Start h li ce) as [h1 [e|]]; [injection E1 as <- <-; rewrite Es; done|].
          destruct w; injection E1 as <- <-; cbn; rewrite ?Es; done.
        - injection E1 as <- <-. unfold Stop. destruct (t_state t) eqn:Es; cbn; rewrite ?Es; done.
        - injection E1 as <- <-. done.
        - injection E1 as <- <-. cbn. split_and!; try done.
          intros Hst. specialize (Ht Hst). by destruct (t_hub t). }
      destruct (IH t1 I1 _ _ E2) as (J1 & J2 & J3). split_and!; try done.
      + cbn [List.filter]. destruct a; try (destruct (t_state t) eqn:Es, (t_state t1) eqn:Es1; cbn in *; try lia;
          exfalso; by apply I4).
        destruct (I2 eq_refl) as [Ea Eb]. rewrite Ea, Eb in *. cbn. lia.
      + intros Hnew. destruct (J2 Hnew) as [K1 K2]. split; [auto|]. constructor; [|done].
        intros ->. destruct (I2 eq_refl) as [_ K]. congruence. }
  intros H. assert (t_state (mkTunnel (withDefaults cfg) None stateNew) = stateStarted ->
    t_hub (mkTunnel (withDefaults cfg) None stateNew) <> None) as HX by (cbn; discriminate).
  destruct (HA _ HX _ _ H) as (A1 & A2 & A3). split; [done|]. split.
  - intros Hs. by apply A2.
  - unfold tunnel_stats. destruct (t_state t'); [by split | | by split]. specialize (A3 eq_refl).
    by destruct (t_hub t').
Qed.

Lemma tunnel_single_use_witness :
  exists t t' out, New demo_config = Ok t /\
    do_calls t [CallStart true true Deadline; CallStart true true (HubReady (fun h => hub_ready h 0));
                CallStats; CallStop; CallStart true true (HubReady id)] = (t', out) /\
    (length (List.filter (fun a => match a with Started => true | _ => false end) out) <= 1)%nat.
Proof.
  eexists _, _, _. split; [reflexivity|]. split; [reflexivity|].
  eapply (tunnel_single_use demo_config _
    [CallStart true true Deadline; CallStart true true (HubReady (fun h => hub_ready h 0));
     CallStats; CallStop; CallStart true true (HubReady id)]); reflexivity.
Defined.

Lemma stats_running l acc :
  StreamsRunning (fold_left add_stats l acc) =
  (StreamsRunning acc + Z.of_nat (length (List.filter st_ready l)))%Z.
Proof.
  revert acc. induction l as [|s l IH]; intros acc; cbn [fold_left List.filter]; [cbn; lia|].
  rewrite IH. unfold add_stats; cbn [StreamsRunning]. destruct (st_ready s); cbn [length]; lia.
Qed.

(** [Healthy] counts: it holds exactly when the tunnel is started and at
    least [min] of its streams (one, for [min <= 0]) are ready; so it is
    monotone in [min] and false outside [Start]..[Stop]. *)
Theorem Healthy_iff t h min :
  t_hub t = Some h ->
  Healthy t min = true <->
  t_state t = stateStarted /\
  (Z.max 1 min <= Z.of_nat (length (List.filter st_ready (hb_streams h))))%Z.
Proof.
  intros Hh. unfold Healthy, tunnel_stats. rewrite Hh.
  destruct (t_state t); [split; [discriminate|]; intros [H _]; discriminate H| |
    split; [discriminate|]; intros [H _]; discriminate H].
  cbn zeta. unfold hub_stats. rewrite stats_running. cbn [StreamsRunning].
  destruct (Z.leb_spec min 0); rewrite Z.leb_le; (split; [intros H1; split; [done|]; lia|]);
    intros [_ H1]; lia.
Qed.

Lemma Healthy_iff_witness :
  Healthy (mkTunnel demo_config (Some (demo_hub [true; false; true])) stateStarted) 2 = true.
Proof.
  apply (Healthy_iff _ (demo_hub [true; false; true]) 2); [reflexivity|].
  split; [reflexivity|]. vm_compute. discriminate.
Defined.
