(* ===== verification/WgConf.v ===== *)
(** * pkg/wgconf/parse.go: the configuration file parser

    [Parse] line by line: metadata lines ([#@wgt:Key = Value]), section
    headers, wg-quick keys.  The reader's contents are the argument; error
    values keep the line number, the field and the offending text. *)

From S2P Require Import Prelude GoStrings GoErrors NetIP GoTime Tunnel.

Definition MetaPrefix : bytes := "#@wgt:".
Definition DefaultLocalListen : bytes := "127.0.0.1:9000".

(** ** Data *)

Record IfaceSection := mkIface {
  if_PrivateKey : bytes;
  if_Address : list Prefix;
  if_DNS : list Addr;
  if_MTU : Z;
  if_ListenPort : Z }.

Record PeerSection := mkPeer {
  pr_PublicKey : bytes;
  pr_PresharedKey : bytes;
  pr_Endpoint : bytes;
  pr_AllowedIPs : list Prefix;
  pr_PersistentKeepalive : Z }.

Record Settings := mkSettings {
  EnableTURN : bool;
  Mode : bytes;
  VkLink : bytes;
  PeerType : bytes;
  Streams : Z;
  StreamsPerCred : Z;
  WatchdogTimeout : Z;
  UDP : bool;
  TURNHost : bytes;
  TURNPort : Z;
  LocalListen : bytes;
  Peer : bytes;
  EnableServer : bool;
  Listen : bytes;
  BackendSpec : bytes;
  Iface : IfaceSection;
  WGPeers : list PeerSection;
  Unknown : gmap bytes bytes }.

Definition no_iface : IfaceSection := mkIface [] [] [] 0 0.
Definition no_peer : PeerSection := mkPeer [] [] [] [] 0.
Definition no_settings : Settings :=
  mkSettings false [] [] [] 0 0 0 false [] 0 [] [] false [] [] no_iface [] ∅.

Inductive section := sectionNone | sectionInterface | sectionPeer.

Inductive value_error :=
| BadValue (field v : bytes)
| NoActivePeer.

Inductive conf_error :=
| MissingEquals (line : nat) (raw : bytes)
| EmptyKey (line : nat) (raw : bytes)
| AtLine (line : nat) (e : value_error)
| ReadTooLong.

(** ** Values *)

Definition mem (s : bytes) (l : list bytes) : bool := existsb (seqb s) l.

Definition parseBool (v : bytes) : option bool :=
  let t := ToLower (TrimSpace v) in
  if mem t ["1"; "true"; "yes"; "on"; "y"] then Some true
  else if mem t ["0"; "false"; "no"; "off"; "n"] then Some false
  else None.

Definition hasPrefixFold (s prefix : bytes) : bool :=
  if (length s <? length prefix)%nat then false
  else EqualFold (take (length prefix) s) prefix.

Definition list_sep (c : byte) : bool :=
  (Byte.eqb c "," || Byte.eqb c " " || Byte.eqb c x09 || Byte.eqb c x0a)%bool.

Definition splitListField (v : bytes) : list bytes :=
  List.filter (fun t => negb (t =s? [])) (map TrimSpace (FieldsFunc v list_sep)).

Definition parse_cidr (t : bytes) : option Prefix :=
  match ParsePrefix t with
  | Some p => Some p
  | None => addr ← ParseAddr t; Some (PrefixFrom addr (if Is6 addr then 128 else 32))
  end.

Definition parsePrefixList (v : bytes) : option (list Prefix) :=
  mapM parse_cidr (splitListField v).

Definition parseAddrList (v : bytes) : option (list Addr) :=
  mapM ParseAddr (splitListField v).

(** A Go duration, or bare seconds, whose conversion to nanoseconds wraps. *)
Definition parse_seconds (v : bytes) : option Z :=
  match ParseDuration v with
  | Some d => Some d
  | None => n ← Atoi v; if (n <? 0)%Z then None else Some (wrap_int64 (n * Second))
  end.

Definition parse_nonneg (v : bytes) : option Z :=
  n ← Atoi v; if (n <? 0)%Z then None else Some n.

Definition parse_port (v : bytes) : option Z :=
  n ← Atoi v; if ((n <? 0) || (65535 <? n))%Z%bool then None else Some n.

Definition need {A} (field v : bytes) (o : option A) : result value_error A :=
  match o with Some a => Ok a | None => Err (BadValue field v) end.

(** ** Assignments *)

(** [set]: one metadata key. *)
Definition set (s : Settings) (key val : bytes) : result value_error Settings :=
  let '(mkSettings et mo vk pt st spc wd ud th tp ll pe es li be ifc ps unk) := s in
  let k := ToLower key in
  if k =s? "enableturn" then
    let* b := need "EnableTURN" val (parseBool val) in
    Ok (mkSettings b mo vk pt st spc wd ud th tp ll pe es li be ifc ps unk)
  else if k =s? "mode" then
    Ok (mkSettings et val vk pt st spc wd ud th tp ll pe es li be ifc ps unk)
  else if k =s? "vklink" then
    Ok (mkSettings et mo val pt st spc wd ud th tp ll pe es li be ifc ps unk)
  else if k =s? "peertype" then
    Ok (mkSettings et mo vk val st spc wd ud th tp ll pe es li be ifc ps unk)
  else if mem k ["streamnum"; "streams"] then
    let* n := need "Streams" val (parse_nonneg val) in
    Ok (mkSettings et mo vk pt n spc wd ud th tp ll pe es li be ifc ps unk)
  else if k =s? "streamspercred" then
    let* n := need "StreamsPerCred" val (parse_nonneg val) in
    Ok (mkSettings et mo vk pt st n wd ud th tp ll pe es li be ifc ps unk)
  else if k =s? "watchdogtimeout" then
    let* d := need "WatchdogTimeout" val (parse_seconds val) in
    Ok (mkSettings et mo vk pt st spc d ud th tp ll pe es li be ifc ps unk)
  else if k =s? "udp" then
    let* b := need "UDP" val (parseBool val) in
    Ok (mkSettings et mo vk pt st spc wd b th tp ll pe es li be ifc ps unk)
  else if k =s? "turnhost" then
    Ok (mkSettings et mo vk pt st spc wd ud val tp ll pe es li be ifc ps unk)
  else if k =s? "turnport" then
    let* n := need "TURNPort" val (parse_port val) in
    Ok (mkSettings et mo vk pt st spc wd ud th n ll pe es li be ifc ps unk)
  else if k =s? "locallisten" then
    Ok (mkSettings et mo vk pt st spc wd ud th tp val pe es li be ifc ps unk)
  else if k =s? "peer" then
    Ok (mkSettings et mo vk pt st spc wd ud th tp ll val es li be ifc ps unk)
  else if k =s? "enableserver" then
    let* b := need "EnableServer" val (parseBool val) in
    Ok (mkSettings et mo vk pt st spc wd ud th tp ll pe b li be ifc ps unk)
  else if k =s? "listen" then
    Ok (mkSettings et mo vk pt st spc wd ud th tp ll pe es val be ifc ps unk)
  else if k =s? "backend" then
    Ok (mkSettings et mo vk pt st spc wd ud th tp ll pe es li val ifc ps unk)
  else
    Ok (mkSettings et mo vk pt st spc wd ud th tp ll pe es li be ifc ps (<[k := val]> unk)).

Definition set_iface_section (s : Settings) (i : IfaceSection) : Settings :=
  let '(mkSettings et mo vk pt st spc wd ud th tp ll pe es li be _ ps unk) := s in
  mkSettings et mo vk pt st spc wd ud th tp ll pe es li be i ps unk.

Definition set_peers (s : Settings) (ps : list PeerSection) : Settings :=
  let '(mkSettings et mo vk pt st spc wd ud th tp ll pe es li be ifc _ unk) := s in
  mkSettings et mo vk pt st spc wd ud th tp ll pe es li be ifc ps unk.

Definition iface_set (i : IfaceSection) (key val : bytes) : result value_error IfaceSection :=
  let '(mkIface pk ad dn mt lp) := i in
  let k := ToLower key in
  if k =s? "privatekey" then Ok (mkIface val ad dn mt lp)
  else if k =s? "address" then
    let* l := need "Address" val (parsePrefixList val) in Ok (mkIface pk l dn mt lp)
  else if k =s? "dns" then
    let* l := need "DNS" val (parseAddrList val) in Ok (mkIface pk ad l mt lp)
  else if k =s? "mtu" then
    let* n := need "MTU" val (parse_nonneg val) in Ok (mkIface pk ad dn n lp)
  else if k =s? "listenport" then
    let* n := need "ListenPort" val (parse_port val) in Ok (mkIface pk ad dn mt (wrap_uint16 n))
  else Ok i.

Definition setIface (s : Settings) (key val : bytes) : result value_error Settings :=
  let* i := iface_set (Iface s) key val in Ok (set_iface_section s i).

Definition peer_set (p : PeerSection) (key val : bytes) : result value_error PeerSection :=
  let '(mkPeer pk ps ep al ka) := p in
  let k := ToLower key in
  if k =s? "publickey" then Ok (mkPeer val ps ep al ka)
  else if k =s? "presharedkey" then Ok (mkPeer pk val ep al ka)
  else if k =s? "endpoint" then Ok (mkPeer pk ps val al ka)
  else if k =s? "allowedips" then
    let* l := need "AllowedIPs" val (parsePrefixList val) in Ok (mkPeer pk ps ep l ka)
  else if k =s? "persistentkeepalive" then
    let* d := need "PersistentKeepalive" val (parse_seconds val) in Ok (mkPeer pk ps ep al d)
  else Ok p.

(** [setPeer] works on the last peer. *)
Definition setPeer (s : Settings) (key val : bytes) : result value_error Settings :=
  match rev (WGPeers s) with
  | [] => Err NoActivePeer
  | p :: ps => let* p := peer_set p key val in Ok (set_peers s (rev ps ++ [p]))
  end.

(** ** Lines *)

(** [body] up to a [;], trimmed again when there is one. *)
Definition cut_comment (body : bytes) : bytes :=
  match IndexByte body ";" with
  | Some i => TrimSpace (take i body)
  | None => body
  end.

(** Key and value around the first [=]. *)
Definition key_value (body : bytes) : option (bytes * bytes) :=
  i ← IndexByte body "="; Some (TrimSpace (take i body), TrimSpace (drop (S i) body)).

Definition parseMeta (s : Settings) (trimmed raw : bytes) (lineNo : nat)
    : result conf_error Settings :=
  let body := TrimSpace (drop (length MetaPrefix) trimmed) in
  if body =s? [] then Ok s else
  match key_value (cut_comment body) with
  | None => Err (MissingEquals lineNo raw)
  | Some (key, val) =>
      guard negb (key =s? []) else EmptyKey lineNo raw in
      rwrap (AtLine lineNo) (set s key val)
  end.

(** The name between the brackets of a section header. *)
Definition header_name (trimmed : bytes) : option bytes :=
  if (HasPrefix trimmed "[" && HasSuffix trimmed "]")%bool
  then Some (ToLower (TrimSpace (take (length trimmed - 2) (drop 1 trimmed))))
  else None.

(** The body of the loop of [Parse]. *)
Definition parse_line (st : section * Settings) (lineNo : nat) (line : bytes)
    : result conf_error (section * Settings) :=
  let '(cur, s) := st in
  let trimmed := TrimSpace line in
  if trimmed =s? [] then Ok (cur, s)
  else if hasPrefixFold trimmed MetaPrefix then
    let* s := parseMeta s trimmed line lineNo in Ok (cur, s)
  else if (HasPrefix trimmed "#" || HasPrefix trimmed ";")%bool then Ok (cur, s)
  else match header_name trimmed with
  | Some name =>
      if name =s? "interface" then Ok (sectionInterface, s)
      else if name =s? "peer" then Ok (sectionPeer, set_peers s (WGPeers s ++ [no_peer]))
      else Ok (sectionNone, s)
  | None =>
      match cur with
      | sectionNone => Ok (cur, s)
      | _ =>
          match key_value (cut_comment trimmed) with
          | None => Ok (cur, s)
          | Some (key, val) =>
              if key =s? [] then Ok (cur, s)
              else match cur with
                   | sectionInterface =>
                       let* s := rwrap (AtLine lineNo) (setIface s key val) in Ok (cur, s)
                   | _ => let* s := rwrap (AtLine lineNo) (setPeer s key val) in Ok (cur, s)
                   end
          end
      end
  end.

Fixpoint parse_lines (st : section * Settings) (lineNo : nat) (ls : list bytes)
    : result conf_error (section * Settings) :=
  match ls with
  | [] => Ok st
  | l :: ls => let* st := parse_line st lineNo l in parse_lines st (S lineNo) ls
  end.

Definition max_line : Z := 1024 * 1024.

Definition Parse (text : bytes) : result conf_error Settings :=
  let '(lines, too_long) := scan_lines max_line text in
  let* st := parse_lines (sectionNone, no_settings) 1 lines in
  guard negb too_long else ReadTooLong in
  Ok (snd st).

(** ** Backends *)

Inductive BackendKind := BackendUDP | BackendWGKernel.
Inductive backend_error := EmptyBackend | UDPNoAddress | UnknownBackend (spec : bytes).

Definition ParseBackendSpec (spec : bytes) : result backend_error (BackendKind * bytes) :=
  let spec := TrimSpace spec in
  if spec =s? [] then Err EmptyBackend
  else if EqualFold spec "wgkernel" then Ok (BackendWGKernel, [])
  else if HasPrefix (ToLower spec) "udp:" then
    let addr := TrimSpace (drop 4 spec) in
    guard negb (addr =s? []) else UDPNoAddress in Ok (BackendUDP, addr)
  else Err (UnknownBackend spec).

(** ** The tunnel's configuration *)

Inductive lift_error := TurnDisabled | PeerRequired.

(** [ToTunnelConfig]; the caller fills in provider, protector and logger. *)
Definition ToTunnelConfig (s : Settings) : result lift_error Tunnel.Config :=
  guard EnableTURN s else TurnDisabled in
  guard negb (Peer s =s? []) else PeerRequired in
  Ok (Tunnel.mkConfig (Peer s) (if LocalListen s =s? [] then DefaultLocalListen else LocalListen s)
        (Streams s) (PeerType s) (Mode s) (VkLink s) [] (UDP s) (TURNHost s) (TURNPort s)
        (StreamsPerCred s) (WatchdogTimeout s) false false false).

(** ** The invariant of parsed settings *)

Record iface_wf (i : IfaceSection) : Prop := {
  iw_address : Forall prefix_wf (if_Address i);
  iw_dns : Forall (fun a => addr_wf a /\ Addr_IsValid a = true) (if_DNS i);
  iw_mtu : (0 <= if_MTU i <= int64_max)%Z;
  iw_port : (0 <= if_ListenPort i <= 65535)%Z }.

Record peer_wf (p : PeerSection) : Prop := {
  pw_allowed : Forall prefix_wf (pr_AllowedIPs p);
  pw_keepalive : (int64_min <= pr_PersistentKeepalive p <= int64_max)%Z }.

Record settings_wf (s : Settings) : Prop := {
  sw_streams : (0 <= Streams s <= int64_max)%Z;
  sw_percred : (0 <= StreamsPerCred s <= int64_max)%Z;
  sw_watchdog : (int64_min <= WatchdogTimeout s <= int64_max)%Z;
  sw_port : (0 <= TURNPort s <= 65535)%Z;
  sw_iface : iface_wf (Iface s);
  sw_peers : Forall peer_wf (WGPeers s) }.

Lemma duration_loop_range fuel s d v :
  (0 <= d <= 2 ^ 63)%Z -> duration_loop fuel s d = Some v -> (0 <= v <= 2 ^ 63)%Z.
Proof.
  revert s d. induction fuel as [|fuel IH]; intros s d Hd H; destruct s as [|c s];
    cbn [duration_loop] in H; try done; try (injection H as <-; done).
  destruct (negb _); [done|]. destruct (leadingInt (c :: s) 0) as [[w s1]|]; [|done].
  cbn [mbind option_bind] in H.
  destruct (match s1 with [] => _ | _ => _ end) as [[[f scale] s2] post].
  destruct (negb _); [done|]. destruct (take_unit s2) as [u s3]. destruct u; [done|].
  destruct (unit_val _) as [unit|]; [|done]. cbn [mbind option_bind] in H.
  destruct (_ <? w)%Z; [done|]. cbn zeta in H. destruct (_ && _)%bool; [done|].
  match type of H with (if (_ <? ?d')%Z then _ else _) = _ => destruct (Z.ltb_spec (2 ^ 63) d'); [done|] end.
  apply IH in H; [done|]. split; [|done]. apply Z.mod_pos_bound. done.
Qed.

Lemma ParseDuration_range s v : ParseDuration s = Some v -> (int64_min <= v <= int64_max)%Z.
Proof.
  unfold ParseDuration. destruct (match s with [] => _ | _ => _ end) as [neg t].
  destruct (t =s? "0"); [intros [= <-]; unfold int64_min, int64_max; lia|].
  destruct (t =s? []); [done|].
  destruct (duration_loop (length t) t 0) as [d|] eqn:E; [|done]. cbn [mbind option_bind].
  apply duration_loop_range in E; [|lia]. destruct neg; [intros [= <-]; apply wrap_int64_range|].
  destruct (Z.ltb_spec (2 ^ 63 - 1) d); [done|]. intros [= <-]. unfold int64_min, int64_max. lia.
Qed.

Lemma parse_seconds_range s v : parse_seconds s = Some v -> (int64_min <= v <= int64_max)%Z.
Proof.
  unfold parse_seconds. destruct (ParseDuration s) eqn:E; [intros [= <-]; by eapply ParseDuration_range|].
  destruct (Atoi s) as [n|]; [|done]. cbn [mbind option_bind]. destruct (n <? 0)%Z; [done|].
  intros [= <-]. apply wrap_int64_range.
Qed.

Lemma parse_nonneg_range s v : parse_nonneg s = Some v -> (0 <= v <= int64_max)%Z.
Proof.
  unfold parse_nonneg. destruct (Atoi s) as [n|] eqn:E; [|done]. cbn [mbind option_bind].
  apply Atoi_range in E. destruct (Z.ltb_spec n 0); [done|]. intros [= <-]. lia.
Qed.

Lemma parse_port_range s v : parse_port s = Some v -> (0 <= v <= 65535)%Z.
Proof.
  unfold parse_port. destruct (Atoi s) as [n|] eqn:E; [|done]. cbn [mbind option_bind].
  destruct (_ || _)%bool eqn:E2; [done|]. intros [= <-]. bprop. lia.
Qed.

Lemma parse_cidr_wf t p : parse_cidr t = Some p -> prefix_wf p.
Proof.
  unfold parse_cidr. destruct (ParsePrefix t) eqn:E; [intros [= <-]; by eapply ParsePrefix_wf|].
  destruct (ParseAddr t) as [a|] eqn:Ea; [|done]. cbn [mbind option_bind]. intros [= <-].
  apply ParseAddr_wf in Ea as [Hw Hv]. unfold PrefixFrom. rewrite Hv.
  destruct a; [done|..]; repeat split; cbn in *; lia.
Qed.

Lemma mapM_Forall_ok {A B} (f : A -> option B) (P : B -> Prop) l out :
  (forall x y, f x = Some y -> P y) -> mapM f l = Some out -> Forall P out.
Proof.
  intros Hf H. apply mapM_Some in H. induction H; constructor; eauto.
Qed.
#[export] Hint Resolve parse_seconds_range parse_nonneg_range parse_port_range parse_cidr_wf ParseAddr_wf : go.

Lemma need_ok {A} field v (o : option A) a : need field v o = Ok a -> o = Some a.
Proof. by destruct o; [intros [= ->]|]. Qed.

Lemma set_wf s key val s' : set s key val = Ok s' -> settings_wf s -> settings_wf s'.
Proof.
  intros H [H1 H2 H3 H4 H5 H6].
  destruct s as [et mo vk pt st spc wd ud th tp ll pe es li be ifc ps unk]. cbn [Streams StreamsPerCred WatchdogTimeout TURNPort Iface WGPeers] in *.
  cbn [set] in H. 
  repeat match type of H with
  | (if ?b then _ else _) = _ => destruct b;
      [ (inv_result H; repeat match goal with E : need _ _ _ = Ok _ |- _ => apply need_ok in E end;
         injection H as <-; split; cbn; eauto with go) |]
  end.
  injection H as <-. by split.
Qed.

Lemma iface_set_wf i key val i' : iface_set i key val = Ok i' -> iface_wf i -> iface_wf i'.
Proof.
  intros H [H1 H2 H3 H4]. destruct i as [pk ad dn mt lp]. cbn in *. cbn [iface_set] in H.
  repeat match type of H with
  | (if ?b then _ else _) = _ => destruct b;
      [ (inv_result H; repeat match goal with E : need _ _ _ = Ok _ |- _ => apply need_ok in E end;
         injection H as <-; split; cbn; eauto with go) |]
  end.
  - eapply mapM_Forall_ok; [exact parse_cidr_wf | done].
  - eapply mapM_Forall_ok; [exact ParseAddr_wf | done].
  - apply parse_port_range in E. unfold wrap_uint16. rewrite Z.mod_small; lia.
  - injection H as <-. by split.
Qed.

Lemma peer_set_wf p key val p' : peer_set p key val = Ok p' -> peer_wf p -> peer_wf p'.
Proof.
  intros H [H1 H2]. destruct p as [pk ps ep al ka]. cbn in *. cbn [peer_set] in H.
  repeat match type of H with
  | (if ?b then _ else _) = _ => destruct b;
      [ (inv_result H; repeat match goal with E : need _ _ _ = Ok _ |- _ => apply need_ok in E end;
         injection H as <-; split; cbn; eauto with go) |]
  end.
  - eapply mapM_Forall_ok; [exact parse_cidr_wf | done].
  - injection H as <-. by split.
Qed.

Lemma set_peers_fields s ps :
  WGPeers (set_peers s ps) = ps /\ (settings_wf s -> Forall peer_wf ps -> settings_wf (set_peers s ps)).
Proof. destruct s; cbn. split; [done|]. intros [] Hp. by split. Qed.

Lemma set_iface_fields s i :
  WGPeers (set_iface_section s i) = WGPeers s /\
  (settings_wf s -> iface_wf i -> settings_wf (set_iface_section s i)).
Proof. destruct s; cbn. split; [done|]. intros [] Hi. by split. Qed.

Lemma no_peer_wf : peer_wf no_peer.
Proof. split; cbn; [constructor|]. unfold int64_min, int64_max; lia. Qed.

Lemma setPeer_wf s key val s' : setPeer s key val = Ok s' -> settings_wf s -> settings_wf s'.
Proof.
  intros H Hwf. unfold setPeer in H. destruct (rev (WGPeers s)) as [|p ps] eqn:Er; [done|].
  inv_result H. injection H as <-. apply set_peers_fields; [done|].
  pose proof (sw_peers _ Hwf) as HP. rewrite <-(rev_involutive (WGPeers s)), Er in HP. cbn in HP.
  apply Forall_app in HP as [HP1 HP2]. apply Forall_app. split; [done|]. constructor; [|done].
  inversion HP2; subst. by eapply peer_set_wf.
Qed.

(** Case analysis of one line: nothing changes, a metadata key is set, a
    section opens, or a key of the current section is set. *)
Lemma parse_line_cases cur s n line cur' s' :
  parse_line (cur, s) n line = Ok (cur', s') ->
  s' = s \/ (cur' = cur /\ exists k v, set s k v = Ok s') \/
  (cur' = sectionPeer /\ s' = set_peers s (WGPeers s ++ [no_peer])) \/
  (cur' = cur /\ cur = sectionInterface /\ exists k v, setIface s k v = Ok s') \/
  (cur' = cur /\ cur = sectionPeer /\ exists k v, setPeer s k v = Ok s').
Proof.
  cbn [parse_line]. intros H.
  destruct (TrimSpace line =s? []); [injection H as <- <-; by left|].
  destruct (hasPrefixFold _ _).
  { inv_result H. injection H as <- <-. unfold parseMeta in E.
    destruct (_ =s? []); [injection E as <-; by left|].
    destruct (key_value _) as [[k v]|]; [|done]. inv_result E. injection E as <-.
    right; left. eauto. }
  destruct (_ || _)%bool; [injection H as <- <-; by left|].
  destruct (header_name _) as [name|].
  { destruct (name =s? "interface"); [injection H as <- <-; by left|].
    destruct (name =s? "peer"); injection H as <- <-; [tauto | by left]. }
  destruct cur; [injection H as <- <-; by left|..];
    (destruct (key_value _) as [[k v]|]; [|injection H as <- <-; by left]);
    (destruct (k =s? []); [injection H as <- <-; by left|]); inv_result H; injection H as <- <-;
    inv_result E; injection E as ->.
  - right; right; right; left. eauto.
  - right; right; right; right. eauto.
Qed.

Lemma parse_line_wf st n line st' :
  parse_line st n line = Ok st' -> settings_wf (snd st) -> settings_wf (snd st').
Proof.
  destruct st as [cur s], st' as [cur' s']. cbn [snd]. intros H Hwf.
  destruct (parse_line_cases _ _ _ _ _ _ H)
    as [->|[(_ & k & v & E)|[(_ & ->)|[(_ & _ & k & v & E)|(_ & _ & k & v & E)]]]].
  - done.
  - by eapply set_wf.
  - apply set_peers_fields; [done|]. apply Forall_app. split; [by apply sw_peers|].
    constructor; [apply no_peer_wf|done].
  - unfold setIface in E. inv_result E. injection E as <-. apply set_iface_fields; [done|].
    eapply iface_set_wf; [done|]. by apply sw_iface.
  - by eapply setPeer_wf.
Qed.

Lemma parse_lines_wf ls st n st' :
  parse_lines st n ls = Ok st' -> settings_wf (snd st) -> settings_wf (snd st').
Proof.
  revert st n. induction ls as [|l ls IH]; intros st n H Hwf; cbn [parse_lines] in H.
  - by injection H as <-.
  - inv_result H. eapply IH; [done|]. by eapply parse_line_wf.
Qed.

Lemma no_settings_wf : settings_wf no_settings.
Proof.
  split; cbn; try (unfold int64_min, int64_max; lia); [|constructor].
  split; cbn; try constructor; unfold int64_max; lia.
Qed.

Lemma Parse_lines text s :
  Parse text = Ok s -> exists cur,
    parse_lines (sectionNone, no_settings) 1 (fst (scan_lines max_line text)) = Ok (cur, s) /\
    snd (scan_lines max_line text) = false.
Proof.
  unfold Parse. destruct (scan_lines max_line text) as [ls b]. intros H. inv_result H.
  injection H as <-. bprop. destruct a as [cur s]. by exists cur.
Qed.

Lemma Parse_wf text s : Parse text = Ok s -> settings_wf s.
Proof.
  intros H. apply Parse_lines in H as (cur & H & _).
  exact (parse_lines_wf _ _ _ _ H no_settings_wf).
Qed.

(** ** Theorems *)

(** C34.  Whatever the file, settings [Parse] accepts are well-formed: counts
    and the MTU are not negative, ports fit sixteen bits, durations fit
    [int64], every address and prefix of the interface and of every peer is
    valid, its bit count inside its family's width. *)
Theorem Parse_settings_wf text s : Parse text = Ok s -> settings_wf s.
Proof. apply Parse_wf. Qed.

Definition sample_conf : bytes :=
  "[Interface]
PrivateKey = key
Address = 10.7.0.2/24, fd00::2
MTU = 1280 ; tight
#@wgt:EnableTURN = yes
#@WGT:Peer = vpn.example:56000
#@wgt:WatchdogTimeout = 30

[Peer]
PublicKey = pub
AllowedIPs = 0.0.0.0/0
PersistentKeepalive = 25s
".

Lemma Parse_settings_wf_witness :
  exists s, Parse sample_conf = Ok s /\ length (WGPeers s) = 1%nat /\
    WatchdogTimeout s = (30 * Second)%Z /\ settings_wf s.
Proof.
  eexists. split; [vm_compute; reflexivity|]. split; [reflexivity|]. split; [reflexivity|].
  apply (Parse_settings_wf sample_conf). vm_compute. reflexivity.
Defined.

(** C35.  A file's settings lifted to a tunnel configuration and completed by
    the embedder can only be refused for an address, too many streams, a peer
    type the tunnel does not know, or a watchdog given as a negative duration
    -- which the parser accepts although it rejects negative bare seconds. *)
Theorem parsed_settings_validate text s c :
  Parse text = Ok s -> ToTunnelConfig s = Ok c ->
  match Validate (with_provider c) with
  | Ok _ => True
  | Err (BadPeerAddr _) | Err (BadListenAddr _) => True
  | Err TooManyStreams => (255 < Streams s)%Z
  | Err NegativeWatchdog => (WatchdogTimeout s < 0)%Z
  | Err (UnknownPeerType t) => t = PeerType s
  | Err _ => False
  end.
Proof.
  intros HP HT. apply Parse_wf in HP as [H1 H2 H3 _ _ _]. unfold ToTunnelConfig in HT.
  inv_result HT. injection HT as <-. bprop.
  unfold Validate, with_provider; cbn [PeerAddr ListenAddr Tunnel.Streams Tunnel.StreamsPerCred
    Tunnel.WatchdogTimeout has_Provider has_Protector Tunnel.PeerType].
  rewrite E0. cbn [negb]. destruct (SplitHostPort (Peer s)); cbn [rwrap rbind]; [|done].
  assert (((if LocalListen s =s? [] then DefaultLocalListen else LocalListen s) =s? []) = false) as ->.
  { destruct (LocalListen s =s? []) eqn:EL; [by vm_compute | done]. }
  cbn [negb]. destruct (SplitHostPort _); cbn [rwrap rbind]; [|done].
  destruct (Z.ltb_spec (Streams s) 0); [lia|]. cbn [negb].
  destruct (Z.ltb_spec 255 (Streams s)); [done|]. cbn [negb].
  destruct (Z.ltb_spec (StreamsPerCred s) 0); [lia|]. cbn [negb].
  destruct (Z.ltb_spec (WatchdogTimeout s) 0); [done|]. cbn [negb].
  by destruct (known_peer_type (PeerType s)).
Qed.

Lemma parsed_settings_validate_witness :
  exists s c, Parse sample_conf = Ok s /\ ToTunnelConfig s = Ok c /\
    match Validate (with_provider c) with
    | Ok _ => True
    | Err (BadPeerAddr _) | Err (BadListenAddr _) => True
    | Err TooManyStreams => (255 < Streams s)%Z
    | Err NegativeWatchdog => (WatchdogTimeout s < 0)%Z
    | Err (UnknownPeerType t) => t = PeerType s
    | Err _ => False
    end.
Proof.
  eexists _, _. split; [vm_compute; reflexivity|]. split; [vm_compute; reflexivity|].
  eapply (parsed_settings_validate sample_conf); vm_compute; reflexivity.
Defined.

Example negative_watchdog_accepted :
  match Parse "#@wgt:WatchdogTimeout = -5s" with
  | Ok s => WatchdogTimeout s = (-5 * Second)%Z
  | Err _ => False
  end.
Proof. vm_compute. reflexivity. Qed.

(** Only the last peer changes while a file is read. *)
Lemma set_keeps_peers s key val s' : set s key val = Ok s' -> WGPeers s' = WGPeers s.
Proof.
  intros H. destruct s. cbn [set] in H.
  repeat match type of H with
  | (if ?b then _ else _) = _ => destruct b; [inv_result H; by injection H as <-|]
  end.
  by injection H as <-.
Qed.

Lemma parse_line_peers cur s n line cur' s' :
  parse_line (cur, s) n line = Ok (cur', s') ->
  WGPeers s' = WGPeers s \/ WGPeers s' = WGPeers s ++ [no_peer] \/
  exists ps p p', WGPeers s = ps ++ [p] /\ WGPeers s' = ps ++ [p'].
Proof.
  intros H. destruct (parse_line_cases _ _ _ _ _ _ H)
    as [->|[(_ & k & v & E)|[(_ & ->)|[(_ & _ & k & v & E)|(_ & _ & k & v & E)]]]].
  - by left.
  - left. by eapply set_keeps_peers.
  - right; left. apply set_peers_fields.
  - left. unfold setIface in E. inv_result E. injection E as <-. apply set_iface_fields.
  - right; right. unfold setPeer in E. destruct (rev (WGPeers s)) as [|p ps] eqn:Er; [done|].
    inv_result E. injection E as <-. exists (rev ps), p, a. split.
    + rewrite <-(rev_involutive (WGPeers s)), Er. done.
    + apply set_peers_fields.
Qed.

(** Reading on never changes a finished peer: the peers a file's first
    lines give, the last one apart, are the first peers of the whole file. *)
Theorem finished_peers_stable ls cur s n cur' s' :
  parse_lines (cur, s) n ls = Ok (cur', s') ->
  exists tail, WGPeers s' = removelast (WGPeers s) ++ tail /\
    (length (WGPeers s) <= length (WGPeers s'))%nat.
Proof.
  revert cur s n. induction ls as [|l ls IH]; intros cur s n H; cbn [parse_lines] in H.
  - injection H as <- <-. destruct (WGPeers s) as [|p ps] eqn:E; [by exists []|].
    exists [List.last (p :: ps) no_peer]. split; [|done].
    apply app_removelast_last. done.
  - destruct (parse_line (cur, s) n l) as [[cur1 s1]|e] eqn:E1; [cbn [rbind] in H|done].
    destruct (IH _ _ _ H) as (tail & Ht & Hlen).
    destruct (parse_line_peers _ _ _ _ _ _ E1) as [E|[E|(ps & p & p' & Ea & Eb)]].
    + rewrite <-E. eauto.
    + rewrite E, removelast_last in Ht. rewrite E, length_app in Hlen. cbn in Hlen.
      destruct (WGPeers s) as [|p ps] eqn:Es.
      * exists tail. split; [done|lia].
      * exists ([List.last (p :: ps) no_peer] ++ tail). rewrite app_assoc.
        rewrite <-app_removelast_last by done. split; [done|lia].
    + rewrite Eb, removelast_last in Ht. rewrite Ea, removelast_last. exists tail.
      split; [done|]. rewrite Eb in Hlen. rewrite !length_app in *. cbn in *. lia.
Qed.

Lemma finished_peers_stable_witness :
  let s0 := set_peers no_settings [no_peer; no_peer] in
  exists st', parse_lines (sectionPeer, s0) 1 ["PublicKey = a"%go; "[Peer]"%go; "PublicKey = b"%go] = Ok st' /\
    exists tail, WGPeers (snd st') = [no_peer] ++ tail /\ (2 <= length (WGPeers (snd st')))%nat.
Proof.
  eexists. split; [vm_compute; reflexivity|].
  eapply (finished_peers_stable ["PublicKey = a"%go; "[Peer]"%go; "PublicKey = b"%go] sectionPeer
    (set_peers no_settings [no_peer; no_peer]) 1). vm_compute. reflexivity.
Defined.

(** Bare seconds of [WatchdogTimeout] and [PersistentKeepalive]: any
    count up to the range of [int] is accepted, and stands for itself exactly
    up to 9223372036; above, the conversion to nanoseconds wraps around. *)
Theorem bare_seconds n :
  (0 < n <= int64_max)%Z ->
  parse_seconds (dec n) = Some (wrap_int64 (n * Second)) /\
  (wrap_int64 (n * Second) = (n * Second)%Z <-> (n <= 9223372036)%Z).
Proof.
  intros H. split.
  - unfold parse_seconds. rewrite ParseDuration_digits.
    + rewrite Atoi_dec by lia. cbn [mbind option_bind]. destruct (Z.ltb_spec n 0); [lia|done].
    + intros E. destruct (dec_spec n) as (_ & _ & Hp); [lia|]. rewrite E in Hp.
      vm_compute in Hp. injection Hp as <-. lia.
    + by destruct (dec_spec n) as (_ & ? & _); [lia|].
  - split; intros Hw.
    + pose proof (wrap_int64_range (n * Second)) as HR. rewrite Hw in HR.
      unfold int64_max, Second in *. lia.
    + apply wrap_int64_id. unfold int64_min, int64_max, Second in *. lia.
Qed.

Lemma bare_seconds_witness :
  parse_seconds (dec 18446744074) = Some (wrap_int64 (18446744074 * Second)) /\
  (wrap_int64 (18446744074 * Second) = (18446744074 * Second)%Z <-> (18446744074 <= 9223372036)%Z).
Proof. apply (bare_seconds 18446744074). unfold int64_max. lia. Defined.

(** ... to 290 milliseconds, for this one. *)
Example wrapped_watchdog : wrap_int64 (18446744074 * Second) = 290448384%Z.
Proof. reflexivity. Qed.
