(* ===== verification/WgShare.v ===== *)
(** * pkg/wgshare: share URLs

    share.go and convert.go: the profile a wgturn:// URL carries, its JSON
    shape, [Encode], [Parse] and the two configurations built from it.  Every
    error of [Parse] and [Encode] wraps [ErrInvalidURL]. *)

From S2P Require Import Prelude GoStrings GoErrors GoTime Encoding NetIP Json WgKernel Proxy Tunnel.

(** ** url.QueryEscape and url.QueryUnescape *)

Definition unreserved (c : byte) : bool :=
  between 97 122 c || between 65 90 c || is_digit c ||
  existsb (Byte.eqb c) "-_.~".

Definition upper_hex (v : Z) : byte := byte_of_Z (if v <? 10 then 48 + v else 55 + v)%Z.

Definition escape_byte (c : byte) : bytes :=
  if unreserved c then [c]
  else if Byte.eqb c x20 then "+"
  else [x25; upper_hex (byte_val c / 16); upper_hex (byte_val c mod 16)].
Definition QueryEscape (s : bytes) : bytes := concat (map escape_byte s).

Fixpoint QueryUnescape (s : bytes) : option bytes :=
  match s with
  | [] => Some []
  | c :: s =>
      if Byte.eqb c "%" then
        match s with
        | a :: b :: s => x ← from_hex a; y ← from_hex b; t ← QueryUnescape s; Some (byte_of_Z (16 * x + y) :: t)
        | _ => None
        end
      else t ← QueryUnescape s; Some ((if Byte.eqb c "+" then x20 else c) :: t)
  end.

(** ** Profiles *)

Definition Scheme : bytes := "wgturn".
Definition formatVersion : Z := 1.

Record Profile := mkProfile {
  Label : bytes;
  ServerPublicKey : bytes;
  ClientPrivateKey : bytes;
  PresharedKey : bytes;
  Endpoint : bytes;
  Address : Prefix;
  AllowedIPs : list Prefix;
  DNS : list Addr;
  MTU : Z;
  PersistentKeepalive : Z }.

Record wireFormat := mkWire {
  w_V : Z; w_SP : bytes; w_CP : bytes; w_PSK : bytes; w_EP : bytes; w_AD : bytes;
  w_AI : list bytes; w_DNS : list bytes; w_MTU : Z; w_KA : Z }.

Inductive share_error :=
| ServerPublicKeyRequired | ClientPrivateKeyRequired | EndpointRequired | AddressRequired
| MissingScheme | EmptyPayload | BadBase64 | BadJSON | UnsupportedVersion (v : Z)
| BadAddress (s : bytes) | BadAllowedIPs (s : bytes) | BadDNS (s : bytes).

Definition Validate (p : Profile) : result share_error unit :=
  guard negb (ServerPublicKey p =s? []) else ServerPublicKeyRequired in
  guard negb (ClientPrivateKey p =s? []) else ClientPrivateKeyRequired in
  guard negb (Endpoint p =s? []) else EndpointRequired in
  guard Prefix_IsValid (Address p) else AddressRequired in
  Ok tt.

(** ** The JSON shape *)

(** [json.Marshal] of a [wireFormat]: fields in order, [omitempty] where the
    tags say it. *)
Definition omit_string (k s : bytes) : list (bytes * json) := if s =s? [] then [] else [(k, JStr s)].
Definition omit_strings (k : bytes) (l : list bytes) : list (bytes * json) :=
  match l with [] => [] | _ => [(k, JArr (map JStr l))] end.
Definition omit_int (k : bytes) (n : Z) : list (bytes * json) :=
  if (n =? 0)%Z then [] else [(k, JNum (itoa n))].

Definition wire_members (w : wireFormat) : list (bytes * json) :=
  [("v"%go, JNum (itoa (w_V w))); ("sp"%go, JStr (w_SP w)); ("cp"%go, JStr (w_CP w))] ++
  omit_string "psk" (w_PSK w) ++
  [("ep"%go, JStr (w_EP w)); ("ad"%go, JStr (w_AD w))] ++
  omit_strings "ai" (w_AI w) ++ omit_strings "dns" (w_DNS w) ++
  omit_int "mtu" (w_MTU w) ++ omit_int "ka" (w_KA w).
Definition Marshal (w : wireFormat) : bytes := print (JObj (wire_members w)).

(** [json.Unmarshal] into a [wireFormat]: keys match up to case folding, the
    last of several wins, unknown ones are skipped; a value of the wrong type
    makes it fail. *)
Definition decode_member (w : wireFormat) (kv : bytes * json) : option wireFormat :=
  let '(mkWire v sp cp psk ep ad ai dns mtu ka) := w in
  let '(k, j) := kv in
  if EqualFold k "v" then x ← decode_int v j; Some (mkWire x sp cp psk ep ad ai dns mtu ka)
  else if EqualFold k "sp" then x ← decode_string sp j; Some (mkWire v x cp psk ep ad ai dns mtu ka)
  else if EqualFold k "cp" then x ← decode_string cp j; Some (mkWire v sp x psk ep ad ai dns mtu ka)
  else if EqualFold k "psk" then x ← decode_string psk j; Some (mkWire v sp cp x ep ad ai dns mtu ka)
  else if EqualFold k "ep" then x ← decode_string ep j; Some (mkWire v sp cp psk x ad ai dns mtu ka)
  else if EqualFold k "ad" then x ← decode_string ad j; Some (mkWire v sp cp psk ep x ai dns mtu ka)
  else if EqualFold k "ai" then x ← decode_strings ai j; Some (mkWire v sp cp psk ep ad x dns mtu ka)
  else if EqualFold k "dns" then x ← decode_strings dns j; Some (mkWire v sp cp psk ep ad ai x mtu ka)
  else if EqualFold k "mtu" then x ← decode_int mtu j; Some (mkWire v sp cp psk ep ad ai dns x ka)
  else if EqualFold k "ka" then x ← decode_int ka j; Some (mkWire v sp cp psk ep ad ai dns mtu x)
  else Some w.

Fixpoint decode_members (w : wireFormat) (l : list (bytes * json)) : option wireFormat :=
  match l with
  | [] => Some w
  | kv :: l => w ← decode_member w kv; decode_members w l
  end.

Definition no_wire : wireFormat := mkWire 0 [] [] [] [] [] [] [] 0 0.

Definition Unmarshal (js : bytes) : option wireFormat :=
  j ← parse js;
  match j with
  | JObj l => decode_members no_wire l
  | JNull => Some no_wire
  | _ => None
  end.

(** ** Encode and Parse *)

Definition to_wire (p : Profile) : wireFormat :=
  mkWire formatVersion (ServerPublicKey p) (ClientPrivateKey p) (PresharedKey p) (Endpoint p)
    (Prefix_String (Address p)) (map Prefix_String (AllowedIPs p)) (map Addr_String (DNS p))
    (MTU p) (Z.quot (PersistentKeepalive p) Second).

Definition Encode (p : Profile) : result share_error bytes :=
  let* _ := Validate p in
  Ok (Scheme ++ "://" ++ b64_encode RawURLEncoding (Marshal (to_wire p)) ++
      (if Label p =s? [] then [] else "#" ++ QueryEscape (Label p))).

(** The payload and the label; a label that does not decode is kept raw. *)
Definition cut_label (rest : bytes) : bytes * bytes :=
  match IndexByte rest "#" with
  | Some i => let raw := drop (S i) rest in (take i rest, default raw (QueryUnescape raw))
  | None => (rest, [])
  end.

Definition need {A} (e : bytes -> share_error) (f : bytes -> option A) (s : bytes) : result share_error A :=
  match f s with Some x => Ok x | None => Err (e s) end.

(** The profile of a wire value; the keepalive's conversion to nanoseconds
    wraps. *)
Definition from_wire (label : bytes) (w : wireFormat) : result share_error Profile :=
  guard (w_V w =? formatVersion)%Z else UnsupportedVersion (w_V w) in
  let* ad := (if w_AD w =s? [] then Ok zero_prefix else need BadAddress ParsePrefix (w_AD w)) in
  let* ai := rmap (need BadAllowedIPs ParsePrefix) (w_AI w) in
  let* dns := rmap (need BadDNS ParseAddr) (w_DNS w) in
  let p := mkProfile label (w_SP w) (w_CP w) (w_PSK w) (w_EP w) ad ai dns (w_MTU w)
             (wrap_int64 (w_KA w * Second)) in
  let* _ := Validate p in Ok p.

Definition Parse (s : bytes) : result share_error Profile :=
  match cut_prefix (Scheme ++ "://") s with
  | None => Err MissingScheme
  | Some rest =>
      let '(rest, label) := cut_label rest in
      guard negb (rest =s? []) else EmptyPayload in
      match b64_decode RawURLEncoding rest with
      | None => Err BadBase64
      | Some js =>
          match Unmarshal js with
          | None => Err BadJSON
          | Some w => from_wire label w
          end
      end
  end.

(** ** Configurations *)

Definition DefaultStreams : Z := 24.
Definition DefaultListen : bytes := "127.0.0.1:0".

(** [ToTunnelConfig]; the caller attaches provider, protector and logger. *)
Definition ToTunnelConfig (p : Profile) (vkLink : bytes) : Tunnel.Config :=
  let '(mode, hint) := if vkLink =s? [] then ([], []) else (ModeVKLink, vkLink) in
  Tunnel.mkConfig (Endpoint p) DefaultListen DefaultStreams PeerTypeProxyV2 mode hint [] true
    [] 0 0 0 false false false.

Definition any4 : Prefix := mkPrefix (Addr4 0) 0.

Definition ToKernelConfig (p : Profile) : WgKernel.Config :=
  let allowed := match AllowedIPs p with [] => [any4] | l => l end in
  WgKernel.mkConfig (ClientPrivateKey p) [Address p] 0 (MTU p) (DNS p)
    [WgKernel.mkPeerConfig (ServerPublicKey p) (PresharedKey p) [] allowed (PersistentKeepalive p)].

(** ** Lemmas *)

Lemma unescape_byte c t :
  QueryUnescape (escape_byte c ++ t) = (s ← QueryUnescape t; Some (c :: s)).
Proof. destruct c; reflexivity. Qed.

Lemma QueryUnescape_Escape s : QueryUnescape (QueryEscape s) = Some s.
Proof.
  unfold QueryEscape. induction s as [|c s IH]; [done|]. cbn [map concat].
  by rewrite unescape_byte, IH.
Qed.

Lemma Atoi_itoa n : in_int64 n = true -> Atoi (itoa n) = Some n.
Proof.
  intros Hn. assert (Hr := Hn). unfold in_int64 in Hr. bprop.
  unfold itoa. destruct (Z.ltb_spec n 0) as [Hneg|Hpos].
  - unfold Atoi. destruct (dec_spec (- n)) as (_ & _ & ->); [lia|]. cbn [mbind option_bind].
    rewrite Z.opp_involutive. by rewrite Hn.
  - apply Atoi_dec. unfold int64_max in *. lia.
Qed.

Record wire_ok (w : wireFormat) : Prop := {
  wo_V : in_int64 (w_V w) = true;
  wo_strings : Forall (fun s => valid_utf8 s = true)
    ([w_SP w; w_CP w; w_PSK w; w_EP w; w_AD w] ++ w_AI w ++ w_DNS w);
  wo_MTU : in_int64 (w_MTU w) = true;
  wo_KA : in_int64 (w_KA w) = true }.

Lemma members_ok_app d l1 l2 :
  fold_right (fun kv P => (valid_utf8 (fst kv) = true /\ json_ok d (snd kv)) /\ P) True (l1 ++ l2) <->
  fold_right (fun kv P => (valid_utf8 (fst kv) = true /\ json_ok d (snd kv)) /\ P) True l1 /\
  fold_right (fun kv P => (valid_utf8 (fst kv) = true /\ json_ok d (snd kv)) /\ P) True l2.
Proof. induction l1 as [|kv l1 IH]; cbn; tauto. Qed.

Lemma strings_ok d l :
  (0 < d)%Z -> Forall (fun s => valid_utf8 s = true) l -> json_ok d (JArr (map JStr l)).
Proof. intros Hd Hl. split; [done|]. induction Hl; cbn; tauto. Qed.

Lemma wire_json_ok w : wire_ok w -> json_ok maxNestingDepth (JObj (wire_members w)).
Proof.
  intros [_ Hs _ _]. split; [done|]. unfold wire_members.
  rewrite !Forall_app, !Forall_cons in Hs. destruct Hs as ((H1 & H2 & H3 & H4 & H5 & _) & H6 & H7).
  rewrite !members_ok_app. split_and!.
  - cbn. split_and!; try done. by eexists.
  - unfold omit_string. destruct (_ =s? _); cbn; done.
  - done.
  - unfold omit_strings. destruct (w_AI w) as [|a l] eqn:E; [done|].
    split; [|done]. split; [done|]. by apply strings_ok.
  - unfold omit_strings. destruct (w_DNS w) as [|a l] eqn:E; [done|].
    split; [|done]. split; [done|]. by apply strings_ok.
  - unfold omit_int. destruct (_ =? _)%Z; cbn; [done|]. split; [|done]. split; [done|]. by eexists.
  - unfold omit_int. destruct (_ =? _)%Z; cbn; [done|]. split; [|done]. split; [done|]. by eexists.
Qed.

Lemma decode_members_app w l1 l2 :
  decode_members w (l1 ++ l2) = (w ← decode_members w l1; decode_members w l2).
Proof.
  revert w. induction l1 as [|kv l1 IH]; intros w; [done|]. cbn [app decode_members].
  destruct (decode_member w kv); [apply IH|done].
Qed.

Lemma decode_list_map l : decode_list [] (map JStr l) = Some l.
Proof. induction l as [|s l IH]; [done|]. cbn. by rewrite IH. Qed.

Lemma decode_omit_string k s w w' :
  decode_member w (k, JStr s) = Some w' -> (s = [] -> w' = w) ->
  decode_members w (omit_string k s) = Some w'.
Proof.
  intros H H0. unfold omit_string. destruct (seqb_spec s []) as [->|]; cbn; [by rewrite H0|].
  by rewrite H.
Qed.
Lemma decode_omit_strings k l w w' :
  decode_member w (k, JArr (map JStr l)) = Some w' -> (l = [] -> w' = w) ->
  decode_members w (omit_strings k l) = Some w'.
Proof.
  intros H H0. destruct l as [|s l]; cbn [omit_strings decode_members]; [by rewrite H0|]. by rewrite H.
Qed.
Lemma decode_omit_int k n w w' :
  decode_member w (k, JNum (itoa n)) = Some w' -> (n = 0%Z -> w' = w) ->
  decode_members w (omit_int k n) = Some w'.
Proof.
  intros H H0. unfold omit_int. destruct (Z.eqb_spec n 0) as [->|]; cbn [decode_members]; [by rewrite H0|].
  by rewrite H.
Qed.

Lemma Unmarshal_Marshal w : wire_ok w -> Unmarshal (Marshal w) = Some w.
Proof.
  intros Hw. unfold Unmarshal, Marshal. rewrite parse_print by (by apply wire_json_ok).
  cbn [mbind option_bind]. destruct Hw as [HV _ HM HK].
  destruct w as [v sp cp psk ep ad ai dns mtu ka]. cbn [w_V w_MTU w_KA] in *.
  unfold wire_members. cbn [w_V w_SP w_CP w_PSK w_EP w_AD w_AI w_DNS w_MTU w_KA].
  rewrite decode_members_app.
  replace (decode_members no_wire _) with (Some (mkWire v sp cp [] [] [] [] [] 0 0)).
  2:{ cbn -[Atoi itoa]. by rewrite Atoi_itoa. }
  cbn [mbind option_bind]. rewrite decode_members_app.
  rewrite (decode_omit_string _ _ _ (mkWire v sp cp psk [] [] [] [] 0 0)) by (done || by intros ->).
  cbn [mbind option_bind]. rewrite decode_members_app.
  replace (decode_members _ [_; _]) with (Some (mkWire v sp cp psk ep ad [] [] 0 0)) by done.
  cbn [mbind option_bind]. rewrite decode_members_app.
  rewrite (decode_omit_strings _ _ _ (mkWire v sp cp psk ep ad ai [] 0 0)).
  3:{ by intros ->. }
  2:{ cbn. by rewrite decode_list_map. }
  cbn [mbind option_bind]. rewrite decode_members_app.
  rewrite (decode_omit_strings _ _ _ (mkWire v sp cp psk ep ad ai dns 0 0)).
  3:{ by intros ->. }
  2:{ cbn. by rewrite decode_list_map. }
  cbn [mbind option_bind]. rewrite decode_members_app.
  rewrite (decode_omit_int _ _ _ (mkWire v sp cp psk ep ad ai dns mtu 0)).
  3:{ by intros ->. }
  2:{ cbn -[Atoi itoa]. by rewrite Atoi_itoa. }
  cbn [mbind option_bind].
  apply decode_omit_int; [|by intros ->]. cbn -[Atoi itoa]. by rewrite Atoi_itoa.
Qed.

(** ** Theorems *)

(** A profile whose strings are UTF-8, whose addresses read back from their
    text and whose keepalive is a whole number of seconds. *)
Record encodable (p : Profile) : Prop := {
  en_strings : Forall (fun s => valid_utf8 s = true)
    [ServerPublicKey p; ClientPrivateKey p; PresharedKey p; Endpoint p];
  en_prefixes : Forall (fun q => prefix_rt q /\ valid_utf8 (Prefix_String q) = true)
    (Address p :: AllowedIPs p);
  en_dns : Forall (fun a => addr_rt a /\ valid_utf8 (Addr_String a) = true) (DNS p);
  en_mtu : in_int64 (MTU p) = true;
  en_keepalive : exists n, PersistentKeepalive p = (n * Second)%Z /\ in_int64 (n * Second) = true }.

Lemma in_int64_range z : in_int64 z = true -> (int64_min <= z <= int64_max)%Z.
Proof. unfold in_int64. intros H. bprop. lia. Qed.

Lemma in_int64_quot n : in_int64 (n * Second) = true -> in_int64 n = true.
Proof. unfold in_int64, int64_min, int64_max, Second. intros H. bprop. apply andb_true_iff. rewrite !Z.leb_le. lia. Qed.

Lemma quot_seconds n : Z.quot (n * Second) Second = n.
Proof. apply Z.quot_mul. by unfold Second. Qed.

Lemma to_wire_ok p : encodable p -> wire_ok (to_wire p).
Proof.
  intros [Hs Hp Hd Hm (n & Hn & Hr)]. rewrite !Forall_cons in Hs.
  destruct Hs as (H1 & H2 & H3 & H4 & _). apply Forall_cons in Hp as [[_ Ha] Hp].
  split; cbn [to_wire w_V w_SP w_CP w_PSK w_EP w_AD w_AI w_DNS w_MTU w_KA]; [done| |done|].
  - rewrite !Forall_app, !Forall_cons, !Forall_map. split_and!; try done.
    + eapply Forall_impl; [exact Hp|]. by intros ? [_ ?].
    + eapply Forall_impl; [exact Hd|]. by intros ? [_ ?].
  - rewrite Hn, quot_seconds. by apply in_int64_quot.
Qed.

Lemma rmap_need {A} e (f : bytes -> option A) (g : A -> bytes) l :
  Forall (fun x => f (g x) = Some x) l -> rmap (need e f) (map g l) = Ok l.
Proof.
  intros H. apply rmap_fmap_ok. intros y Hy. unfold need.
  rewrite Forall_forall in H. by rewrite H.
Qed.

Lemma Prefix_String_ne p : Prefix_String p <> [].
Proof.
  unfold Prefix_String. destruct (Prefix_IsValid p); [|done]. intros E.
  apply app_eq_nil in E as [_ E]. done.
Qed.

Lemma from_to_wire p :
  encodable p -> Validate p = Ok tt -> from_wire (Label p) (to_wire p) = Ok p.
Proof.
  intros [_ Hp Hd _ (n & Hn & Hr)] Hv. apply Forall_cons in Hp as [[Ha _] Hp].
  unfold from_wire. cbn [to_wire w_V w_SP w_CP w_PSK w_EP w_AD w_AI w_DNS w_MTU w_KA].
  replace (formatVersion =? formatVersion)%Z with true by done.
  destruct (seqb_spec (Prefix_String (Address p)) []) as [E|_]; [by apply Prefix_String_ne in E|].
  unfold need at 1. unfold prefix_rt in Ha. rewrite Ha. cbn [rbind].
  rewrite rmap_need by (eapply Forall_impl; [exact Hp|]; by intros ? [? _]). cbn [rbind].
  rewrite rmap_need by (eapply Forall_impl; [exact Hd|]; by intros ? [? _]). cbn [rbind].
  rewrite Hn, quot_seconds, wrap_int64_id, <-Hn by (by apply in_int64_range).
  destruct p. cbn [Label ServerPublicKey ClientPrivateKey PresharedKey Endpoint Address AllowedIPs DNS MTU PersistentKeepalive] in *.
  by rewrite Hv.
Qed.

Lemma payload_plain s : x23 ∉ b64_encode RawURLEncoding s.
Proof.
  pose proof (b64_encode_Forall RawURLEncoding (fun c => negb (Byte.eqb c x23)) s) as H.
  intros Hin. assert (forallb (fun c => negb (Byte.eqb c x23)) (b64_encode RawURLEncoding s) = true) as Hf.
  { apply H; reflexivity. }
  rewrite forallb_forall in Hf. specialize (Hf x23). rewrite list_elem_of_In in Hin.
  specialize (Hf Hin). done.
Qed.

Lemma cut_label_spec payload label :
  x23 ∉ payload ->
  cut_label (payload ++ (if label =s? [] then [] else "#" ++ QueryEscape label)) = (payload, label).
Proof.
  intros Hp. unfold cut_label. destruct (seqb_spec label []) as [->|Hne].
  - rewrite app_nil_r. by apply IndexByte_None in Hp as ->.
  - cbn [app]. rewrite IndexByte_app by done. rewrite take_app_length.
    rewrite drop_app, drop_ge by lia. replace (S (length payload) - length payload)%nat with 1%nat by lia.
    change ([] ++ drop 1 (x23 :: QueryEscape label)) with (QueryEscape label). by rewrite QueryUnescape_Escape.
Qed.

(** ** The round trip *)

Lemma Parse_Encode p url : Encode p = Ok url -> encodable p -> Parse url = Ok p.
Proof.
  unfold Encode. intros H Hok. destruct (Validate p) as [[]|] eqn:Hv; [|done]. cbn [rbind] in H.
  match type of H with Ok ?x = _ => assert (url = x) as -> by congruence end. clear H.
  unfold Parse. rewrite (app_assoc Scheme), cut_prefix_app, cut_label_spec by apply payload_plain.
  pose proof (b64_decode_encode RawURLEncoding url_alphabet (Marshal (to_wire p))) as Hb.
  destruct (seqb_spec (b64_encode RawURLEncoding (Marshal (to_wire p))) []) as [E|_].
  { rewrite E in Hb. by assert (Some [] = Some (Marshal (to_wire p))). }
  cbn [negb]. rewrite Hb.
  rewrite Unmarshal_Marshal by (by apply to_wire_ok). by apply from_to_wire.
Qed.

(** C10.  A share URL gives back the profile it was made from: [Parse] inverts
    [Encode] on every profile with UTF-8 strings (whatever the characters, in
    the label any bytes), addresses in canonical form and a keepalive of whole
    seconds. *)
Theorem share_roundtrip p url : Encode p = Ok url -> encodable p -> Parse url = Ok p.
Proof. apply Parse_Encode. Qed.

Definition demo_profile : Profile :=
  mkProfile "alice & bob / phone" (encodeWGKeyBase64 (replicate 32 x01)) (encodeWGKeyBase64 (replicate 32 x02))
    [] "is-01.example.com:56000" (mkPrefix (Addr4 0x0a070005) 24) [any4; mkPrefix (Addr6 0 []) 0]
    [Addr4 0x01010101] 1280 (25 * Second).

Lemma demo_encodable : encodable demo_profile.
Proof.
  split.
  - repeat constructor; vm_compute; reflexivity.
  - repeat constructor; vm_compute; reflexivity.
  - repeat constructor; vm_compute; reflexivity.
  - done.
  - by exists 25%Z.
Qed.

Lemma share_roundtrip_witness :
  exists url, Encode demo_profile = Ok url /\ encodable demo_profile /\ Parse url = Ok demo_profile.
Proof.
  destruct (Encode demo_profile) as [url|] eqn:E; [|by vm_compute in E].
  exists url. split; [done|]. split; [exact demo_encodable|].
  apply (share_roundtrip demo_profile url E demo_encodable).
Defined.

(** What a keepalive under a second becomes. *)
Example subsecond_keepalive_lost : w_KA (to_wire (mkProfile [] [] [] [] [] zero_prefix [] [] 0 (900 * Millisecond))) = 0%Z.
Proof. reflexivity. Qed.

(** ** What [Parse] lets through *)

Lemma need_some {A} e (f : bytes -> option A) s x : need e f s = Ok x -> f s = Some x.
Proof. unfold need. destruct (f s); congruence. Qed.

Lemma from_wire_wf label w p :
  from_wire label w = Ok p ->
  Validate p = Ok tt /\ prefix_wf (Address p) /\ Forall prefix_wf (AllowedIPs p) /\
  Forall (fun a => addr_wf a /\ Addr_IsValid a = true) (DNS p).
Proof.
  unfold from_wire. intros H. inv_result H.
  match type of H with Ok ?x = _ => assert (p = x) as -> by congruence end. clear H.
  destruct a2. split; [done|].
  cbn [Address AllowedIPs DNS]. split_and!.
  - destruct (w_AD w =s? []); [injection E0 as <-|].
    + unfold Validate in E3. cbn in E3. repeat destruct (_ =s? _); done.
    + eapply ParsePrefix_wf, need_some. done.
  - apply rmap_ok_Forall2 in E1. clear - E1.
    induction E1; constructor; [|done]. eapply ParsePrefix_wf, need_some. done.
  - apply rmap_ok_Forall2 in E2. clear - E2.
    induction E2; constructor; [|done]. eapply ParseAddr_wf, need_some. done.
Qed.

Lemma Parse_from_wire s p : Parse s = Ok p -> exists label w, from_wire label w = Ok p.
Proof.
  unfold Parse. destruct (cut_prefix _ s) as [rest|]; [|done].
  destruct (cut_label rest) as [payload label]. destruct (negb _); [|done].
  destruct (b64_decode _ _); [|done]. destruct (Unmarshal _) as [w|]; [|done]. by exists label, w.
Qed.

Lemma check_allowed_wf i j l : Forall prefix_wf l -> check_allowed i j l = Ok tt.
Proof.
  intros H. revert j. induction H as [|q l Hq _ IH]; intros j; [done|]. cbn [check_allowed].
  assert (Prefix_IsValid q = true) as -> by (apply Z.leb_le; by destruct Hq as (_ & [? _] & _)). apply IH.
Qed.

(** The two configurations made from a parsed profile. *)
Lemma profile_configures s p link :
  Parse s = Ok p ->
  (Tunnel.Validate (with_provider (ToTunnelConfig p link)) = Ok tt <->
     exists host port, SplitHostPort (Endpoint p) = Ok (host, port)) /\
  (WgKernel.Validate (ToKernelConfig p) = Ok tt <->
     is_ok (decodeWGKey (ClientPrivateKey p)) = true /\ is_ok (decodeWGKey (ServerPublicKey p)) = true /\
     (PresharedKey p = [] \/ is_ok (decodeWGKey (PresharedKey p)) = true) /\
     (0 <= MTU p)%Z /\ (0 <= PersistentKeepalive p)%Z).
Proof.
  intros H. apply Parse_from_wire in H as (label & w & H).
  apply from_wire_wf in H as (Hv & _ & Hai & _). unfold Validate in Hv. inv_result Hv. bprop.
  split.
  - assert (Tunnel.Validate (with_provider (ToTunnelConfig p link)) =
      (let* _ := rwrap BadPeerAddr (SplitHostPort (Endpoint p)) in Ok tt)) as ->.
    { unfold Tunnel.Validate, ToTunnelConfig. destruct (link =s? []);
        cbn [with_provider PeerAddr ListenAddr Streams StreamsPerCred WatchdogTimeout has_Provider
          has_Protector PeerType]; rewrite E1; cbn [negb]; by destruct (SplitHostPort (Endpoint p)). }
    destruct (SplitHostPort (Endpoint p)) as [[h po]|e]; cbn; split; try done; [by eexists _, _|by intros (? & ? & ?)].
  - unfold WgKernel.Validate, ToKernelConfig.
    cbn [WgKernel.PrivateKey WgKernel.MTU WgKernel.Peers validate_peers].
    unfold validate_peer. cbn [pc_PublicKey pc_PresharedKey pc_AllowedIPs pc_PersistentKeepalive].
    rewrite check_allowed_wf.
    2:{ destruct (AllowedIPs p); [|done]. constructor; [|constructor]. repeat split; cbn; lia. }
    destruct (decodeWGKey (ClientPrivateKey p)); cbn; [|intuition congruence].
    destruct (Z.ltb_spec (MTU p) 0); cbn; [intuition (congruence || lia)|].
    destruct (decodeWGKey (ServerPublicKey p)); cbn; [|intuition congruence].
    destruct (seqb_spec (PresharedKey p) []); [|destruct (decodeWGKey (PresharedKey p))]; cbn;
      destruct (Z.ltb_spec (PersistentKeepalive p) 0); cbn; intuition (congruence || lia).
Qed.

(** What a share URL leaves to be refused later: with a call link and a
    provider attached the tunnel's configuration is valid exactly when the
    endpoint is host:port, and the kernel's exactly when its keys decode and
    neither MTU nor keepalive is negative.  Nothing else [Parse] accepts can
    fail. *)
Theorem parsed_profile_configures s p link :
  Parse s = Ok p ->
  (Tunnel.Validate (with_provider (ToTunnelConfig p link)) = Ok tt <->
     exists host port, SplitHostPort (Endpoint p) = Ok (host, port)) /\
  (WgKernel.Validate (ToKernelConfig p) = Ok tt <->
     is_ok (decodeWGKey (ClientPrivateKey p)) = true /\ is_ok (decodeWGKey (ServerPublicKey p)) = true /\
     (PresharedKey p = [] \/ is_ok (decodeWGKey (PresharedKey p)) = true) /\
     (0 <= MTU p)%Z /\ (0 <= PersistentKeepalive p)%Z).
Proof. apply profile_configures. Qed.

Lemma parsed_profile_configures_witness :
  exists s, let p := demo_profile in Parse s = Ok p /\
  (Tunnel.Validate (with_provider (ToTunnelConfig p "link")) = Ok tt <->
     exists host port, SplitHostPort (Endpoint p) = Ok (host, port)) /\
  (WgKernel.Validate (ToKernelConfig p) = Ok tt <->
     is_ok (decodeWGKey (ClientPrivateKey p)) = true /\ is_ok (decodeWGKey (ServerPublicKey p)) = true /\
     (PresharedKey p = [] \/ is_ok (decodeWGKey (PresharedKey p)) = true) /\
     (0 <= MTU p)%Z /\ (0 <= PersistentKeepalive p)%Z).
Proof.
  destruct (Encode demo_profile) as [url|] eqn:E; [|by vm_compute in E].
  assert (Parse url = Ok demo_profile) as H.
  { vm_compute in E. injection E as <-. vm_compute. reflexivity. }
  exists url. split; [done|]. apply (parsed_profile_configures url demo_profile "link" H).
Defined.
