(* ===== verification/WgAdmin.v ===== *)
(** * pkg/wgadmin: peers of a WireGuard server

    wgconf.go, keys.go and server.go: the parser and printer of the server's
    configuration file, key generation, and [Provision], [Revoke] and [List]
    over a world made of that file and of what the live interface was last
    given.  X25519, the random source, and the file system's and the sync
    command's failures are arguments. *)

From S2P Require Import Prelude GoStrings GoErrors Encoding NetIP Subnet Proxy Tunnel WgKernel WgShare.

(** ** The configuration file *)

Definition nameTag : bytes := "# wgturn-name =".

Record Peer := mkPeer {
  Name : bytes;
  PublicKey : bytes;
  PresharedKey : bytes;
  AllowedIPs : list Prefix;
  rawLines : list bytes }.

Record confState := mkConf {
  header : list bytes;
  privateKey : bytes;
  peers : list Peer }.

(** The section being read.  [pendingPeer] is non-nil in a peer section and
    nil elsewhere, so the section carries it. *)
Inductive section := sectionNone | sectionInterface | sectionPeer (pendingPeer : Peer).

Definition flushPeer (st : confState) (cur : section) : confState :=
  match cur with
  | sectionPeer p => mkConf (header st) (privateKey st) (peers st ++ [p])
  | _ => st
  end.

Definition add_header (st : confState) (line : bytes) : confState :=
  mkConf (header st ++ [line]) (privateKey st) (peers st).
Definition add_raw (p : Peer) (line : bytes) : Peer :=
  mkPeer (Name p) (PublicKey p) (PresharedKey p) (AllowedIPs p) (rawLines p ++ [line]).

(** A line kept verbatim, in the peer's block or in the header. *)
Definition keep (st : confState) (cur : section) (line : bytes) : confState * section :=
  match cur with
  | sectionPeer p => (st, sectionPeer (add_raw p line))
  | _ => (add_header st line, cur)
  end.

Definition is_list_sep (c : byte) : bool :=
  Byte.eqb c "," || Byte.eqb c x20 || Byte.eqb c x09 || Byte.eqb c x0a.

Definition parse_token (t : bytes) : option Prefix :=
  match ParsePrefix t with
  | Some p => Some p
  | None => addr ← ParseAddr t; Some (PrefixFrom addr (if Is6 addr then 128 else 32))
  end.

Definition parsePrefixList (v : bytes) : option (list Prefix) :=
  mapM parse_token (List.filter (fun t => negb (t =s? [])) (map TrimSpace (FieldsFunc v is_list_sep))).

Definition header_name (trimmed : bytes) : option bytes :=
  if (HasPrefix trimmed "[" && HasSuffix trimmed "]")%bool
  then Some (ToLower (TrimSpace (take (length trimmed - 2) (drop 1 trimmed))))
  else None.

Inductive conf_error := BadAllowedIPs (v : bytes) | ReadTooLong.

(** The fields of a peer a key sets. *)
Definition peer_field (p : Peer) (key val : bytes) : result conf_error Peer :=
  if key =s? "publickey" then Ok (mkPeer (Name p) val (PresharedKey p) (AllowedIPs p) (rawLines p))
  else if key =s? "presharedkey" then Ok (mkPeer (Name p) (PublicKey p) val (AllowedIPs p) (rawLines p))
  else if key =s? "allowedips" then
    match parsePrefixList val with
    | Some l => Ok (mkPeer (Name p) (PublicKey p) (PresharedKey p) l (rawLines p))
    | None => Err (BadAllowedIPs val)
    end
  else Ok p.

(** A [Key = Value] line. *)
Definition key_line (st : confState) (cur : section) (line key val : bytes)
    : result conf_error (confState * section) :=
  match cur with
  | sectionInterface =>
      let st := add_header st line in
      Ok (if key =s? "privatekey" then mkConf (header st) val (peers st) else st, cur)
  | sectionPeer p => let* p := peer_field (add_raw p line) key val in Ok (st, sectionPeer p)
  | sectionNone => Ok (add_header st line, cur)
  end.

(** The body of the loop of [parseConf]. *)
Definition parse_line (s : confState * section) (line : bytes) : result conf_error (confState * section) :=
  let '(st, cur) := s in
  let trimmed := TrimSpace line in
  match header_name trimmed with
  | Some name =>
      let st := flushPeer st cur in
      if name =s? "interface" then Ok (add_header st line, sectionInterface)
      else if name =s? "peer" then Ok (st, sectionPeer (mkPeer [] [] [] [] [line]))
      else Ok (add_header st line, sectionNone)
  | None =>
      match cur, cut_prefix nameTag trimmed with
      | sectionPeer p, Some rest =>
          Ok (st, sectionPeer (mkPeer (TrimSpace rest) (PublicKey p) (PresharedKey p) (AllowedIPs p)
                                 (rawLines p ++ [line])))
      | _, _ =>
          if (trimmed =s? []) || HasPrefix trimmed "#" || HasPrefix trimmed ";" then Ok (keep st cur line)
          else match IndexByte trimmed "=" with
               | None => Ok (keep st cur line)
               | Some eq =>
                   let key := ToLower (TrimSpace (take eq trimmed)) in
                   let val := TrimSpace (drop (S eq) trimmed) in
                   key_line st cur line key val
               end
      end
  end.

Fixpoint parse_lines (s : confState * section) (ls : list bytes) : result conf_error (confState * section) :=
  match ls with
  | [] => Ok s
  | l :: ls => let* s := parse_line s l in parse_lines s ls
  end.

Definition no_conf : confState := mkConf [] [] [].
Definition max_line : Z := 1024 * 1024.

Definition parseConf (text : bytes) : result conf_error confState :=
  let '(lines, too_long) := scan_lines max_line text in
  let* s := parse_lines (no_conf, sectionNone) lines in
  guard negb too_long else ReadTooLong in
  let '(st, cur) := s in Ok (flushPeer st cur).

(** ** Printing *)

Definition prefix_list (l : list Prefix) : bytes := Join (map Prefix_String l) ", ".

(** The key lines of a peer block: [formatPeer] and [strippedConf] share
    them. *)
Definition key_lines (p : Peer) : list bytes :=
  ["PublicKey = " ++ PublicKey p] ++
  (if PresharedKey p =s? [] then [] else ["PresharedKey = " ++ PresharedKey p]) ++
  match AllowedIPs p with [] => [] | l => ["AllowedIPs = " ++ prefix_list l] end.

Definition formatPeer (p : Peer) : list bytes :=
  [[]; "[Peer]"%go] ++ (if Name p =s? [] then [] else [nameTag ++ " " ++ Name p]) ++ key_lines p.

Definition peer_block (p : Peer) : list bytes :=
  match rawLines p with [] => formatPeer p | l => l end.

Definition conf_lines (st : confState) : list bytes := header st ++ concat (map peer_block (peers st)).

Definition writeConf (st : confState) : bytes := unlines (conf_lines st).

Definition strippedConf (st : confState) : bytes :=
  unlines (["[Interface]"%go; "PrivateKey = " ++ privateKey st] ++
           List.filter (fun l => HasPrefix (ToLower (TrimSpace l)) "listenport") (header st) ++
           concat (map (fun p => [[]; "[Peer]"%go] ++ key_lines p) (peers st))).

(** ** Keys *)

(** X25519's and the random source's failures. *)
Inductive keys_error := RandFailed (e : error) | DeriveFailed (e : error) | DecodeKey | KeyLength (n : nat).

(** The scalar's clamping: bytes 0 and 31. *)
Definition clamp_at (i : nat) (b : byte) : byte :=
  let v := byte_val b in
  match i with
  | 0%nat => byte_of_Z (Z.land v 248)
  | 31%nat => byte_of_Z (Z.lor (Z.land v 127) 64)
  | _ => b
  end.
Definition clamp (sk : bytes) : bytes := imap clamp_at sk.

Section Keys.
Context (X25519 : bytes -> result error bytes).

(** [rand] is what [crypto/rand] answers. *)
Definition GenerateKeypair (rand : result error bytes) : result keys_error (bytes * bytes) :=
let* sk := rwrap RandFailed rand in
let sk := clamp sk in
let* pk := rwrap DeriveFailed (X25519 sk) in
Ok (b64_encode StdEncoding sk, b64_encode StdEncoding pk).

Definition GeneratePresharedKey (rand : result error bytes) : result keys_error bytes :=
let* psk := rwrap RandFailed rand in Ok (b64_encode StdEncoding psk).

Definition PublicKeyFor (priv : bytes) : result keys_error bytes :=
match b64_decode StdEncoding priv with
| None => Err DecodeKey
| Some sk =>
    guard (length sk =? 32)%nat else KeyLength (length sk) in
    let* pk := rwrap DeriveFailed (X25519 sk) in Ok (b64_encode StdEncoding pk)
end.
End Keys.

(** ** The server *)

Record Server := mkServer {
  has_ConfPath : bool;
  Subnet : Prefix;
  ServerAddress : Addr;
  srv_Endpoint : bytes;
  srv_AllowedIPs : list Prefix;
  srv_DNS : list Addr;
  srv_MTU : Z;
  srv_PersistentKeepalive : Z }.

Definition NewServer (s : Server) : Server :=
  let subnet := if Prefix_IsValid (Subnet s) then Subnet s else mkPrefix (Addr4 0x0a070000) 24 in
  mkServer (has_ConfPath s) subnet
    (if Addr_IsValid (ServerAddress s) then ServerAddress s else Next (pf_addr (Masked subnet)))
    (srv_Endpoint s)
    (match srv_AllowedIPs s with [] => [mkPrefix (Addr4 0) 0] | l => l end)
    (srv_DNS s) (srv_MTU s) (srv_PersistentKeepalive s).

Inductive admin_error :=
| NameRequired | ConfPathRequired | OpenConf (e : error) | ConfRefused (e : conf_error) | NoPrivateKey
| ErrPeerExists (name : bytes) | ErrPeerNotFound (name : bytes)
| DeriveServer (e : keys_error) | KeyFailed (e : keys_error) | AllocFailed (e : alloc_error)
| WriteFailed (e : error) | SyncFailed (e : error).

(** The file at [ConfPath], or what opening it fails with, and the text the
    interface was last synchronised with. *)
Record world := mkWorld { w_conf : result error bytes; w_live : option bytes }.

Definition readState (s : Server) (w : world) : result admin_error confState :=
  guard has_ConfPath s else ConfPathRequired in
  let* text := rwrap OpenConf (w_conf w) in
  let* st := rwrap ConfRefused (parseConf text) in
  guard negb (privateKey st =s? []) else NoPrivateKey in
  Ok st.

(** [writeState]: a new file renamed over the old one, or a failure before
    the rename, [fails], that leaves the old one. *)
Definition writeState (w : world) (st : confState) (fails : option error) : world * option admin_error :=
  match fails with
  | Some e => (w, Some (WriteFailed e))
  | None => (mkWorld (Ok (writeConf st)) (w_live w), None)
  end.

(** [sync]: the command is given the stripped configuration. *)
Definition sync (w : world) (st : confState) (fails : option error) : world * option admin_error :=
  match fails with
  | Some e => (w, Some (SyncFailed e))
  | None => (mkWorld (w_conf w) (Some (strippedConf st)), None)
  end.

(** [realSyncConf], the command by default: [wg syncconf] on the interface,
    given the configuration on its standard input; [exec] answers its error
    with what it wrote to the standard error. *)
Definition realSyncConf (exec : list bytes -> bytes -> option (error * bytes)) (iface stripped : bytes) : option error :=
  match exec ["wg"%go; "syncconf"%go; iface; "/dev/stdin"%go] stripped with
  | None => None
  | Some (err, stderr) => Some (mkError (error_text err ++ ": " ++ TrimSpace stderr) (error_is err))
  end.

(** [sync] with it: the interface has the peers of the file, or the error that
    is reported is the command's. *)
Lemma sync_real exec iface w st w' r :
  sync w st (realSyncConf exec iface (strippedConf st)) = (w', r) ->
  match r with
  | None => w_live w' = Some (strippedConf st) /\
            exec ["wg"%go; "syncconf"%go; iface; "/dev/stdin"%go] (strippedConf st) = None
  | Some (SyncFailed e) => w' = w /\ exists err out, exec ["wg"%go; "syncconf"%go; iface; "/dev/stdin"%go]
      (strippedConf st) = Some (err, out) /\ forall sent, errors_Is e sent = errors_Is err sent
  | Some _ => False
  end.
Proof.
  unfold sync, realSyncConf. destruct (exec _ _) as [[err out]|] eqn:E; intros [= <- <-]; [|done].
  split; [done|]. by exists err, out.
Qed.

Definition write_and_sync (w : world) (st : confState) (wfails sfails : option error)
    : world * option admin_error :=
  match writeState w st wfails with
  | (w, Some e) => (w, Some e)
  | (w, None) => sync w st sfails
  end.

Definition existingPeerAddrs (ps : list Peer) : list Addr :=
  map pf_addr (List.filter IsSingleIP (concat (map AllowedIPs ps))).

(** [List]: the internals of a peer are not shown. *)
Definition strip (p : Peer) : Peer :=
  mkPeer (Name p) (PublicKey p) (PresharedKey p) (AllowedIPs p) [].
Definition peers_list (s : Server) (w : world) : result admin_error (list Peer) :=
  let* st := readState s w in Ok (map strip (peers st)).

(** What the random source, the file system and the sync command answer
    during a call. *)
Record answers := mkAnswers {
  a_rand_key : result error bytes;
  a_rand_psk : result error bytes;
  a_write_fails : option error;
  a_sync_fails : option error }.

Section Operations.
Context (X25519 : bytes -> result error bytes).

(** [Provision] up to the write: the new state, its new peer, and the
  profile. *)
Definition new_client (s : Server) (st : confState) (name : bytes) (a : answers)
  : result admin_error (confState * Profile) :=
guard negb (existsb (fun p => Name p =s? name) (peers st)) else ErrPeerExists name in
let* serverPub := rwrap DeriveServer (PublicKeyFor X25519 (privateKey st)) in
let* cli := rwrap KeyFailed (GenerateKeypair X25519 (a_rand_key a)) in
let* psk := rwrap KeyFailed (GeneratePresharedKey (a_rand_psk a)) in
let* addr := rwrap AllocFailed
               (AllocateClientIP (Subnet s) (ServerAddress s) (existingPeerAddrs (peers st))) in
let newPeer := mkPeer name (snd cli) psk [PrefixFrom addr (BitLen addr)] [] in
Ok (mkConf (header st) (privateKey st) (peers st ++ [newPeer]),
    mkProfile name serverPub (fst cli) psk (srv_Endpoint s)
      (PrefixFrom addr (pf_bits (Subnet s))) (srv_AllowedIPs s) (srv_DNS s) (srv_MTU s)
      (srv_PersistentKeepalive s)).

Definition Provision (s : Server) (w : world) (name : bytes) (a : answers)
  : world * result admin_error Profile :=
if name =s? [] then (w, Err NameRequired) else
match (let* st := readState s w in new_client s st name a) with
| Err e => (w, Err e)
| Ok (st, profile) =>
    match write_and_sync w st (a_write_fails a) (a_sync_fails a) with
    | (w, Some e) => (w, Err e)
    | (w, None) => (w, Ok profile)
    end
end.

(** The peers without the first one named [name]. *)
Fixpoint remove_named (name : bytes) (ps : list Peer) : option (list Peer) :=
match ps with
| [] => None
| p :: ps => if Name p =s? name then Some ps else cons p <$> remove_named name ps
end.

Definition Revoke (s : Server) (w : world) (name : bytes) (a : answers) : world * option admin_error :=
if name =s? [] then (w, Some NameRequired) else
match readState s w with
| Err e => (w, Some e)
| Ok st =>
    match remove_named name (peers st) with
    | None => (w, Some (ErrPeerNotFound name))
    | Some ps =>
        write_and_sync w (mkConf (header st) (privateKey st) ps) (a_write_fails a) (a_sync_fails a)
    end
end.
End Operations.

(** ** Reading line by line *)

Definition bare (cur : section) : bool := match cur with sectionPeer _ => false | _ => true end.

(** What a line does: it joins the header, where it would do the same from any
    header; it opens a peer; or it joins the open peer. *)
Inductive line_effect (st : confState) (cur : section) (line : bytes) (st' : confState) (cur' : section) : Prop :=
| joins_header :
    bare cur' = true -> header st' = header st ++ [line] -> peers st' = peers (flushPeer st cur) ->
    (forall c0 h ps, bare c0 = true -> (bare cur = true -> c0 = cur) ->
       parse_line (mkConf h (privateKey st) ps, c0) line = Ok (mkConf (h ++ [line]) (privateKey st') ps, cur')) ->
    line_effect st cur line st' cur'
| opens_peer p' :
    cur' = sectionPeer p' -> st' = flushPeer st cur -> rawLines p' = [line] ->
    (forall s c, parse_line (s, c) line = Ok (flushPeer s c, sectionPeer p')) ->
    line_effect st cur line st' cur'
| joins_peer p p' :
    cur = sectionPeer p -> cur' = sectionPeer p' -> st' = st -> rawLines p' = rawLines p ++ [line] ->
    (forall s, parse_line (s, sectionPeer p) line = Ok (s, sectionPeer p')) ->
    line_effect st cur line st' cur'.

Lemma peer_field_raw p key val p' : peer_field p key val = Ok p' -> rawLines p' = rawLines p.
Proof.
  unfold peer_field. intros H. destruct (key =s? _); [by injection H as <-|].
  destruct (key =s? _); [by injection H as <-|].
  destruct (key =s? _); [|by injection H as <-].
  destruct (parsePrefixList val); [by injection H as <-|done].
Qed.

Lemma bare_flush c h pk ps : bare c = true -> flushPeer (mkConf h pk ps) c = mkConf h pk ps.
Proof. by destruct c. Qed.

(** A line in a peer's block. *)
Lemma joins_peer_intro st p line st' cur' :
  header_name (TrimSpace line) = None ->
  parse_line (st, sectionPeer p) line = Ok (st', cur') ->
  line_effect st (sectionPeer p) line st' cur'.
Proof.
  intros Hh H. assert (forall s, exists r, parse_line (s, sectionPeer p) line =
    match r with Ok p' => Ok (s, sectionPeer p') | Err e => Err e end /\
    (forall p', r = Ok p' -> rawLines p' = rawLines p ++ [line]) /\
    (forall s', parse_line (s', sectionPeer p) line =
       match r with Ok p' => Ok (s', sectionPeer p') | Err e => Err e end)) as Hr.
  { intros s. unfold parse_line. rewrite Hh.
    destruct (cut_prefix nameTag (TrimSpace line)) as [rest|].
    { eexists (Ok _). split; [reflexivity|]. split; [by intros p' [= <-]|done]. }
    destruct (_ || _ || _).
    { exists (Ok (add_raw p line)). split; [done|]. split; [by intros p' [= <-]|done]. }
    destruct (IndexByte (TrimSpace line) "=") as [i|].
    2:{ exists (Ok (add_raw p line)). split; [done|]. split; [by intros p' [= <-]|done]. }
    unfold key_line.
    exists (peer_field (add_raw p line) (ToLower (TrimSpace (take i (TrimSpace line))))
              (TrimSpace (drop (S i) (TrimSpace line)))).
    destruct (peer_field _ _ _) as [q|e] eqn:Eq; cbn [rbind]; split_and!; try done.
    intros p' [= <-]. by apply peer_field_raw in Eq. }
  destruct (Hr st) as (r & E & Hraw & Hall). rewrite E in H.
  destruct r as [p'|e]; [|done]. injection H as <- <-.
  by apply joins_peer with p p'; [..| apply Hraw | apply Hall].
Qed.

Lemma parse_line_effect st cur line st' cur' :
  parse_line (st, cur) line = Ok (st', cur') -> line_effect st cur line st' cur'.
Proof.
  intros H. destruct (header_name (TrimSpace line)) as [name|] eqn:Eh.
  - unfold parse_line in H. rewrite Eh in H.
    assert (privateKey (flushPeer st cur) = privateKey st) as Hpk by (by destruct cur).
    assert (header (flushPeer st cur) = header st) as Hhd by (by destruct cur).
    destruct (name =s? "interface") eqn:Ei.
    { injection H as <- <-. apply joins_header; [done|cbn; by rewrite Hhd|done|].
      intros c0 h ps Hc _. unfold parse_line. rewrite Eh, Ei, bare_flush by done. cbn. by rewrite Hpk. }
    destruct (name =s? "peer") eqn:Ep.
    { injection H as <- <-. eapply opens_peer; [done|done|done|].
      intros s c. unfold parse_line. by rewrite Eh, Ei, Ep. }
    injection H as <- <-. apply joins_header; [done|cbn; by rewrite Hhd|done|].
    intros c0 h ps Hc _. unfold parse_line. rewrite Eh, Ei, Ep, bare_flush by done. cbn. by rewrite Hpk.
  - destruct cur as [| |p]; [| |by apply joins_peer_intro].
    all: unfold parse_line in H; rewrite Eh in H.
    all: destruct ((TrimSpace line =s? []) || HasPrefix (TrimSpace line) "#" || HasPrefix (TrimSpace line) ";") eqn:Ec;
      [|destruct (IndexByte (TrimSpace line) "=") as [i|] eqn:Ex;
          [cbn [key_line] in H; try destruct (ToLower _ =s? "privatekey") eqn:Ek|]].
    all: injection H as <- <-; apply joins_header; [done|done|done|].
    all: intros c0 h ps Hc Hcur; rewrite (Hcur eq_refl); unfold parse_line; rewrite Eh, Ec, ?Ex;
      cbn [key_line]; by rewrite ?Ek.
Qed.

Lemma parse_lines_app s l1 l2 :
  parse_lines s (l1 ++ l2) = (let* s := parse_lines s l1 in parse_lines s l2).
Proof.
  revert s. induction l1 as [|l l1 IH]; intros s; [done|]. cbn [app parse_lines].
  destruct (parse_line s l); [apply IH|done].
Qed.

(** A header that reads back as itself, ending in section [c]. *)
Definition header_ok (st : confState) (c : section) : Prop :=
  parse_lines (no_conf, sectionNone) (header st) = Ok (mkConf (header st) (privateKey st) [], c).

(** A peer whose block reads back as that peer, wherever it stands. *)
Definition peer_ok (p : Peer) : Prop :=
  rawLines p <> [] /\
  forall s c, parse_lines (s, c) (rawLines p) = Ok (flushPeer s c, sectionPeer p).

Definition parse_inv (P : bytes -> Prop) (s : confState * section) : Prop :=
  let '(st, cur) := s in
  (exists c, bare c = true /\ (bare cur = true -> c = cur) /\ header_ok st c) /\
  Forall peer_ok (peers (flushPeer st cur)) /\
  Forall P (header st) /\ Forall (fun p => Forall P (rawLines p)) (peers (flushPeer st cur)).

Lemma flush_bare st c : bare c = true -> flushPeer st c = st.
Proof. by destruct c. Qed.

Lemma parse_line_inv P st cur line st' cur' :
  P line -> parse_line (st, cur) line = Ok (st', cur') -> parse_inv P (st, cur) -> parse_inv P (st', cur').
Proof.
  intros HP H [(c & Hc & Hcc & Hh) (Hps & HPh & HPp)].
  destruct (parse_line_effect _ _ _ _ _ H) as
    [Hb Hhd Hpeers Hre | p' -> -> Hraw Hre | p p' -> -> -> Hraw Hre].
  - split; [exists cur'; split; [done|]; split; [done|]|].
    + unfold header_ok. rewrite Hhd, parse_lines_app. unfold header_ok in Hh. rewrite Hh.
      cbn [rbind parse_lines]. rewrite Hre by done. done.
    + rewrite flush_bare, Hpeers, Hhd by done. split; [done|]. split; [|done].
      apply Forall_app. by split; [|constructor].
  - split; [exists c; split; [done|]; split; [done|]; by destruct cur|].
    cbn [flushPeer peers header]. replace (header (flushPeer st cur)) with (header st) by (by destruct cur).
    split_and!; [|done|].
    + apply Forall_app. split; [done|]. constructor; [|done]. split; [by rewrite Hraw|].
      intros s c'. rewrite Hraw. cbn [parse_lines]. by rewrite Hre.
    + apply Forall_app. split; [done|]. constructor; [|done]. rewrite Hraw. by constructor.
  - split; [by exists c|]. cbn [flushPeer peers header] in *.
    apply Forall_app in Hps as [Hps Hp]. apply Forall_app in HPp as [HPp HPq].
    apply Forall_cons in Hp as [[Hne Hp] _]. apply Forall_cons in HPq as [HPq _].
    split_and!; [|done|].
    + apply Forall_app. split; [done|]. constructor; [|done]. split.
      { rewrite Hraw. by destruct (rawLines p). }
      intros s c'. rewrite Hraw, parse_lines_app, Hp. cbn [rbind parse_lines]. by rewrite Hre.
    + apply Forall_app. split; [done|]. constructor; [|done]. rewrite Hraw. apply Forall_app. split; [done|].
      by constructor.
Qed.

Lemma parse_lines_inv P ls s s' :
  Forall P ls -> parse_lines s ls = Ok s' -> parse_inv P s -> parse_inv P s'.
Proof.
  intros HP. revert s. induction HP as [|l ls Hl _ IH]; intros s H Hs; cbn [parse_lines] in H.
  - by injection H as <-.
  - destruct s as [st cur]. destruct (parse_line (st, cur) l) as [[st1 cur1]|] eqn:E; [|done].
    cbn [rbind] in H. apply (IH _ H). by eapply parse_line_inv.
Qed.

Lemma init_inv P : parse_inv P (no_conf, sectionNone).
Proof. split; [by exists sectionNone|]. split_and!; constructor. Qed.

(** Blocks that read back as themselves, in a row. *)
Lemma parse_blocks ps s c :
  Forall peer_ok ps ->
  exists s' c', parse_lines (s, c) (concat (map peer_block ps)) = Ok (s', c') /\
    flushPeer s' c' = mkConf (header (flushPeer s c)) (privateKey (flushPeer s c)) (peers (flushPeer s c) ++ ps).
Proof.
  intros H. revert s c. induction H as [|p ps [Hne Hp] _ IH]; intros s c; cbn [map concat].
  - exists s, c. split; [done|]. rewrite app_nil_r. by destruct (flushPeer s c).
  - assert (peer_block p = rawLines p) as -> by (unfold peer_block; by destruct (rawLines p)).
    rewrite parse_lines_app, Hp. cbn [rbind].
    destruct (IH (flushPeer s c) (sectionPeer p)) as (s' & c' & E1 & E2). exists s', c'. split; [done|].
    rewrite E2. cbn [flushPeer header privateKey peers]. by rewrite <-app_assoc.
Qed.

(** ** Reading the text *)

(** A line that a file's text keeps as it is: it does not end in a carriage
    return, which a reader drops, nor does it reach the reader's limit. *)
Definition line_ok (l : bytes) : Prop :=
  (x0a ∉ l) /\ drop_cr l = l /\ (Z.of_nat (length l) < max_line)%Z.

(** A text no line of which ends in two carriage returns: lines may end in
    LF or in CR LF. *)
Definition single_cr (text : bytes) : Prop :=
  Forall (fun l => forall l', l <> l' ++ [x0d; x0d]) (raw_lines text).

Lemma drop_cr_spec l : drop_cr l = l \/ exists l', l = l' ++ [x0d] /\ drop_cr l = l'.
Proof.
  unfold drop_cr. destruct (rev l) as [|c q] eqn:E; [by left|].
  destruct (byte_eqb_spec c x0d) as [->|Hne]; [right|left; by destruct c].
  exists (rev q). split; [|done]. by rewrite <-(rev_involutive l), E.
Qed.

Lemma drop_cr_snoc l : drop_cr (l ++ [x0d]) = l.
Proof. unfold drop_cr. rewrite rev_app_distr. cbn. apply rev_involutive. Qed.

Lemma drop_cr_twice l : (forall l', l <> l' ++ [x0d; x0d]) -> drop_cr (drop_cr l) = drop_cr l.
Proof.
  intros H. destruct (drop_cr_spec l) as [E|(l' & El & ->)]; [by rewrite !E|].
  destruct (drop_cr_spec l') as [E|(l2 & E2 & _)]; [done|].
  exfalso. apply (H l2). by rewrite El, E2, <-app_assoc.
Qed.

Lemma drop_cr_sub l : (forall c, c ∈ drop_cr l -> c ∈ l) /\ (length (drop_cr l) <= length l)%nat.
Proof.
  destruct (drop_cr_spec l) as [->|(l' & -> & ->)]; [done|]. rewrite length_app. split; [set_solver|lia].
Qed.

Lemma raw_lines_sub s c : c ∉ s -> Forall (fun l => c ∉ l) (raw_lines s).
Proof.
  induction s as [|a s IH]; intros H; cbn; [constructor|].
  destruct (Byte.eqb a x0a); [constructor; [set_solver|apply IH; set_solver]|].
  specialize (IH ltac:(set_solver)). destruct (raw_lines s) as [|l ls].
  - constructor; [set_solver|done].
  - inversion IH; subst. constructor; [set_solver|done].
Qed.

Lemma single_cr_none text : x0d ∉ text -> single_cr text.
Proof.
  intros H. eapply Forall_impl; [by apply (raw_lines_sub _ _ H)|].
  intros l Hl l' ->. apply Hl. apply elem_of_app. right. by left.
Qed.

Lemma scan_unlines ls : Forall line_ok ls -> scan_lines max_line (unlines ls) = (ls, false).
Proof.
  intros H. unfold scan_lines, unlines. rewrite raw_lines_concat.
  - apply scan_lines_go_ok. eapply Forall_impl; [exact H|]. intros l (_ & Hr & Hl).
    by split.
  - eapply Forall_impl; [exact H|]. by intros l [? _].
Qed.

Lemma scan_lines_line_ok text ls :
  single_cr text -> scan_lines max_line text = (ls, false) -> Forall line_ok ls.
Proof.
  intros Hcr. unfold scan_lines.
  assert (Forall (fun l => (x0a ∉ l) /\ (forall l', l <> l' ++ [x0d; x0d])) (raw_lines text)) as H
    by (apply Forall_and; split; [apply raw_lines_no_nl | exact Hcr]).
  revert ls. induction H as [|l rl [Hn Hr] _ IH]; intros ls; cbn [scan_lines_go].
  - intros [= <-]. constructor.
  - destruct (Z.leb_spec max_line (Z.of_nat (length l))); [done|].
    destruct (scan_lines_go max_line rl) as [out e]. intros [= <- ->].
    constructor; [|by apply IH]. destruct (drop_cr_sub l) as [Hs Hl].
    split; [by intros Hin%Hs|]. split; [by apply drop_cr_twice|lia].
Qed.

(** A file that parses: its lines, and what is known of the state. *)
Lemma parseConf_inv text st :
  single_cr text -> parseConf text = Ok st ->
  (exists c, bare c = true /\ header_ok st c) /\ Forall peer_ok (peers st) /\
  Forall line_ok (conf_lines st).
Proof.
  intros Hcr. unfold parseConf. destruct (scan_lines max_line text) as [ls too_long] eqn:El.
  intros H. destruct (parse_lines _ ls) as [[s c]|] eqn:Ep; [|done]. cbn [rbind] in H.
  destruct too_long; [done|]. injection H as <-.
  destruct (parse_lines_inv line_ok ls _ _ (scan_lines_line_ok _ _ Hcr El) Ep (init_inv _))
    as [(c0 & Hc0 & _ & Hh) (Hps & HPh & HPp)].
  split_and!; [|done|].
  - exists c0. split; [done|]. unfold header_ok in *. by destruct c.
  - unfold conf_lines. apply Forall_app. split; [by destruct c|].
    clear - Hps HPp. induction Hps as [|p ps [Hne _] _ IH]; cbn [map concat]; [constructor|].
    apply Forall_cons in HPp as [HP HPp]. apply Forall_app. split; [|by apply IH].
    unfold peer_block. by destruct (rawLines p).
Qed.

(** C24.  Rewriting a configuration that nothing changed keeps it: when a
    text, no line of which ends in two carriage returns, parses, what
    [writeConf] writes parses to the same state, verbatim lines included. *)
Theorem rewrite_keeps_conf text st :
  single_cr text -> parseConf text = Ok st -> parseConf (writeConf st) = Ok st.
Proof.
  intros Hcr H. destruct (parseConf_inv text st Hcr H) as ((c & Hc & Hh) & Hps & Hl).
  unfold parseConf, writeConf. rewrite scan_unlines by done. unfold conf_lines.
  rewrite parse_lines_app, Hh. cbn [rbind].
  destruct (parse_blocks (peers st) (mkConf (header st) (privateKey st) []) c Hps) as (s' & c' & -> & E).
  cbn [rbind]. rewrite E, flush_bare by done. cbn. by destruct st.
Qed.

Lemma rewrite_keeps_conf_witness :
  let text := "[Interface]
PrivateKey = k
PostUp = true

[Peer]
# wgturn-name = alice
PublicKey = a
AllowedIPs = 10.7.0.2/32, 10.8.0.0/16
Custom = 1
"%go in
  exists st, single_cr text /\ parseConf text = Ok st /\ parseConf (writeConf st) = Ok st.
Proof.
  intros text. assert (single_cr text) as H by (apply single_cr_none; by apply (bool_decide_unpack _); vm_compute).
  destruct (parseConf text) as [st|] eqn:E; [|by vm_compute in E].
  exists st. split; [done|]. split; [done|]. apply (rewrite_keeps_conf text st H E).
Defined.

(** Lines that end in CR LF are kept too; of a line that ends in CR CR LF the
    second carriage return is lost when the file is written. *)
Example double_cr_lost :
  let text := "[Interface]" ++ [x0d; x0a] ++ "PrivateKey = k" ++ [x0d; x0d; x0a] in
  match parseConf text with
  | Ok st => match parseConf (writeConf st) with Ok st' => bool_decide (header st' = header st) | Err _ => true end
  | Err _ => true
  end = false.
Proof. vm_compute. reflexivity. Qed.

(** ** Fresh peers *)

Lemma trim_kv a pre v :
  is_graph a = true -> v <> [] -> TrimSpace v = v ->
  TrimSpace (a :: pre ++ x20 :: v) = a :: pre ++ x20 :: v.
Proof.
  intros Ha Hv Ht. apply TrimSpace_id in Ht as [_ Ht]. apply TrimSpace_id. split.
  - by apply no_lead_graph.
  - change (no_trail ((a :: pre) ++ x20 :: v)). by apply no_trail_app.
Qed.

(** A written [Key = value] line, read in a peer's block. *)
Lemma parse_key_line s p a K v line :
  is_graph a = true -> negb (existsb (Byte.eqb a) ["["; "#"; ";"]%byte) = true ->
  IndexByte (a :: K) "=" = None -> v <> [] -> TrimSpace v = v ->
  line = a :: (K ++ "=") ++ x20 :: v ->
  parse_line (s, sectionPeer p) line =
    (let* p := peer_field (add_raw p line) (ToLower (TrimSpace (a :: K))) v in Ok (s, sectionPeer p)).
Proof.
  intros Ha Hb HK Hv Ht Eline. unfold parse_line.
  assert (TrimSpace line = line) as Htl by (rewrite Eline; by apply trim_kv).
  cbn in Hb. destruct (byte_eqb_spec a "[") as [|H1]; [done|].
  destruct (byte_eqb_spec a "#") as [|H2]; [done|]. destruct (byte_eqb_spec a ";") as [|H3]; [done|].
  rewrite Htl. unfold header_name.
  assert (forall b, a <> b -> HasPrefix line [b] = false) as Hpre.
  { intros b Hne. rewrite Eline. apply HasPrefix_ne. congruence. }
  rewrite !Hpre by done. cbn [andb].
  assert (cut_prefix nameTag line = None) as ->.
  { unfold nameTag. rewrite Eline. cbn [cut_prefix]. by destruct (byte_eqb_spec "#" a). }
  assert ((line =s? []) = false) as -> by (by rewrite Eline). cbn [orb].
  assert (line = (a :: K) ++ x3d :: x20 :: v) as E.
  { rewrite Eline. cbn. f_equal. by rewrite <-app_assoc. }
  assert (IndexByte line "=" = Some (length (a :: K))) as Hi.
  { rewrite E. apply IndexByte_app. by apply IndexByte_None. }
  rewrite Hi. cbn [key_line].
  assert (take (length (a :: K)) line = a :: K) as -> by (rewrite E; apply take_app_length).
  assert (drop (S (length (a :: K))) line = x20 :: v) as ->.
  { rewrite E, drop_app, drop_ge by (cbn; lia).
    replace (S (length (a :: K)) - length (a :: K))%nat with 1%nat by lia. done. }
  by rewrite TrimSpace_space, Ht.
Qed.

Lemma parse_name_line s p v :
  v <> [] -> TrimSpace v = v ->
  let line := nameTag ++ " " ++ v in
  parse_line (s, sectionPeer p) line =
    Ok (s, sectionPeer (mkPeer v (PublicKey p) (PresharedKey p) (AllowedIPs p) (rawLines p ++ [line]))).
Proof.
  intros Hv Ht line. unfold parse_line.
  assert (TrimSpace line = line) as -> by (by apply (trim_kv "#" " wgturn-name =")).
  replace (header_name line) with (@None bytes) by done.
  assert (cut_prefix nameTag line = Some (x20 :: v)) as -> by apply cut_prefix_app.
  by rewrite TrimSpace_space, Ht.
Qed.

Lemma parse_blank s c : parse_line (s, c) [] = Ok (keep s c []).
Proof. by destruct c. Qed.

Lemma parse_peer_header s c :
  parse_line (s, c) "[Peer]" = Ok (flushPeer s c, sectionPeer (mkPeer [] [] [] [] ["[Peer]"%go])).
Proof. by destruct c. Qed.

(** A prefix its own text gives back inside a list of prefixes. *)
Record prefix_plain (q : Prefix) : Prop := {
  pp_rt : prefix_rt q;
  pp_chars : forallb (fun c => is_graph c && negb (is_list_sep c)) (Prefix_String q) = true;
  pp_length : (length (Prefix_String q) <= 1000)%nat }.

Lemma prefix_plain_graph q : prefix_plain q -> forallb is_graph (Prefix_String q) = true.
Proof.
  intros [_ H _]. rewrite forallb_forall in *. intros c Hc. apply H in Hc. by apply andb_true_iff in Hc as [? _].
Qed.

Lemma parse_single_prefix q : prefix_plain q -> parsePrefixList (Prefix_String q) = Some [q].
Proof.
  intros Hq. unfold parsePrefixList.
  assert (FieldsFunc (Prefix_String q) is_list_sep = [Prefix_String q]) as ->.
  { apply (FieldsFunc_Join is_list_sep ","%go [Prefix_String q]); [done|done|]. constructor; [|done].
    split; [apply Prefix_String_ne|]. destruct Hq as [_ H _]. rewrite forallb_forall in *.
    intros c Hc. apply H in Hc. by apply andb_true_iff in Hc as [_ ?]. }
  cbn [map]. rewrite TrimSpace_graphs by (by apply prefix_plain_graph). cbn [List.filter].
  destruct (seqb_spec (Prefix_String q) []) as [E|_]; [by apply Prefix_String_ne in E|]. cbn.
  unfold parse_token. by rewrite (pp_rt q Hq).
Qed.

(** A name that survives the comment it is written in. *)
Record plain_name (name : bytes) : Prop := {
  pn_ne : name <> [];
  pn_trim : TrimSpace name = name;
  pn_nl : x0a ∉ name;
  pn_cr : x0d ∉ name;
  pn_length : (Z.of_nat (length name) + 20 < max_line)%Z }.

Definition key_text (k : bytes) : Prop :=
  k <> [] /\ forallb is_graph k = true /\ (length k <= 1000)%nat.

(** A peer [Provision] makes. *)
Record fresh (p : Peer) : Prop := {
  fr_raw : rawLines p = [];
  fr_name : plain_name (Name p);
  fr_public : key_text (PublicKey p);
  fr_psk : key_text (PresharedKey p);
  fr_allowed : exists q, AllowedIPs p = [q] /\ prefix_plain q }.

Lemma formatPeer_fresh p q : fresh p -> AllowedIPs p = [q] ->
  formatPeer p = [[]; "[Peer]"%go; nameTag ++ " " ++ Name p; "PublicKey = " ++ PublicKey p;
                  "PresharedKey = " ++ PresharedKey p; "AllowedIPs = " ++ Prefix_String q].
Proof.
  intros [_ Hn _ (Hp & _) _] Hq. unfold formatPeer, key_lines. rewrite Hq.
  destruct (seqb_spec (Name p) []) as [E|_]; [by apply (pn_ne _ Hn) in E|].
  by destruct (seqb_spec (PresharedKey p) []).
Qed.

Lemma peer_field_public p v : peer_field p "publickey" v =
  Ok (mkPeer (Name p) v (PresharedKey p) (AllowedIPs p) (rawLines p)).
Proof. done. Qed.
Lemma peer_field_psk p v : peer_field p "presharedkey" v =
  Ok (mkPeer (Name p) (PublicKey p) v (AllowedIPs p) (rawLines p)).
Proof. done. Qed.
Lemma peer_field_allowed p v l : parsePrefixList v = Some l -> peer_field p "allowedips" v =
  Ok (mkPeer (Name p) (PublicKey p) (PresharedKey p) l (rawLines p)).
Proof. intros H. cbn [peer_field]. unfold peer_field. by rewrite H. Qed.

Lemma fresh_reads p s c : fresh p ->
  exists s' p', parse_lines (s, c) (peer_block p) = Ok (s', sectionPeer p') /\ strip p' = strip p /\
    privateKey s' = privateKey s /\ map strip (peers s') = map strip (peers (flushPeer s c)).
Proof.
  intros Hf. destruct (fr_allowed p Hf) as (q & Hq & Hqp).
  assert (peer_block p = formatPeer p) as -> by (unfold peer_block; by rewrite (fr_raw p Hf)).
  rewrite (formatPeer_fresh p q Hf Hq).
  destruct Hf as [_ Hn (Hk & Hkg & _) (Hs & Hsg & _) _].
  cbn [parse_lines]. rewrite parse_blank. cbn [rbind].
  destruct (keep s c []) as [s1 c1] eqn:E1. rewrite parse_peer_header. cbn [rbind].
  rewrite parse_name_line by apply Hn. cbn [rbind].
  rewrite (parse_key_line _ _ "P" "ublicKey " (PublicKey p)) by (done || by apply TrimSpace_graphs). cbn [rbind].
  replace (ToLower (TrimSpace (x50 :: "ublicKey "))) with "publickey"%go by (vm_compute; reflexivity).
  rewrite peer_field_public. cbn [rbind].
  rewrite (parse_key_line _ _ "P" "resharedKey " (PresharedKey p)) by (done || by apply TrimSpace_graphs).
  replace (ToLower (TrimSpace (x50 :: "resharedKey "))) with "presharedkey"%go by (vm_compute; reflexivity).
  rewrite peer_field_psk. cbn [rbind].
  rewrite (parse_key_line _ _ "A" "llowedIPs " (Prefix_String q))
    by (done || apply Prefix_String_ne || by apply TrimSpace_graphs, prefix_plain_graph).
  replace (ToLower (TrimSpace (x41 :: "llowedIPs "))) with "allowedips"%go by (vm_compute; reflexivity).
  rewrite (peer_field_allowed _ _ [q]) by (by apply parse_single_prefix). cbn [rbind].
  eexists _, _. split; [reflexivity|]. split_and!.
  - unfold strip. cbn. by rewrite Hq.
  - destruct c; injection E1 as <- <-; done.
  - destruct c; injection E1 as <- <-; cbn; [done|done|]. by rewrite !map_app.
Qed.

Lemma peer_ok_reads p s c : peer_ok p ->
  exists s' p', parse_lines (s, c) (peer_block p) = Ok (s', sectionPeer p') /\ strip p' = strip p /\
    privateKey s' = privateKey s /\ map strip (peers s') = map strip (peers (flushPeer s c)).
Proof.
  intros [Hne Hp]. assert (peer_block p = rawLines p) as -> by (unfold peer_block; by destruct (rawLines p)).
  rewrite Hp. eexists _, _. split; [done|]. split; [done|]. by destruct c.
Qed.

(** Blocks of parsed and fresh peers in a row: the peers they list. *)
Lemma blocks_view ps s c :
  Forall (fun p => peer_ok p \/ fresh p) ps ->
  exists s' c', parse_lines (s, c) (concat (map peer_block ps)) = Ok (s', c') /\
    privateKey (flushPeer s' c') = privateKey s /\
    map strip (peers (flushPeer s' c')) = map strip (peers (flushPeer s c)) ++ map strip ps.
Proof.
  intros H. revert s c. induction H as [|p ps Hp _ IH]; intros s c; cbn [map concat].
  - exists s, c. rewrite app_nil_r. split_and!; try done. by destruct c.
  - assert (exists s1 p', parse_lines (s, c) (peer_block p) = Ok (s1, sectionPeer p') /\ strip p' = strip p /\
      privateKey s1 = privateKey s /\ map strip (peers s1) = map strip (peers (flushPeer s c)))
      as (s1 & p' & E & Hs & Hk & Hps) by (destruct Hp; [by apply peer_ok_reads | by apply fresh_reads]).
    rewrite parse_lines_app, E. cbn [rbind].
    destruct (IH s1 (sectionPeer p')) as (s' & c' & E1 & E2 & E3). exists s', c'. split; [done|].
    rewrite E2, E3. split; [done|]. cbn [flushPeer peers].
    by rewrite map_app, Hps, <-app_assoc, <-Hs.
Qed.

(** ** Lines of fresh peers *)

Lemma graph_clean k : forallb is_graph k = true -> (x0a ∉ k) /\ (x0d ∉ k).
Proof.
  intros Hg. rewrite forallb_forall in Hg.
  split; intros Hin; apply list_elem_of_In, Hg in Hin; by vm_compute in Hin.
Qed.

Lemma line_ok_graph k : forallb is_graph k = true -> (length k <= 1100)%nat -> line_ok k.
Proof.
  intros Hg Hl. destruct (graph_clean k Hg) as [H1 H2].
  split_and!; [done|by apply drop_cr_id|unfold max_line; lia].
Qed.

Lemma line_ok_app l1 l2 :
  (x0a ∉ l1 ++ l2) -> (x0d ∉ l1 ++ l2) -> (Z.of_nat (length l1 + length l2) < max_line)%Z -> line_ok (l1 ++ l2).
Proof. intros. split_and!; [done|by apply drop_cr_id|]. by rewrite length_app. Qed.

(** A literal in front of a line. *)
Lemma line_ok_literal l k :
  bool_decide ((x0a ∉ l) /\ (x0d ∉ l)) = true -> (length l <= 20)%nat ->
  x0a ∉ k -> x0d ∉ k -> (Z.of_nat (length k) + 20 < max_line)%Z -> line_ok (l ++ k).
Proof.
  intros [H1 H2]%bool_decide_eq_true Hl H3 H4 H5. apply line_ok_app; [set_solver|set_solver|lia].
Qed.

Lemma line_ok_key l k :
  bool_decide ((x0a ∉ l) /\ (x0d ∉ l)) = true -> (length l <= 20)%nat ->
  forallb is_graph k = true -> (length k <= 1000)%nat -> line_ok (l ++ k).
Proof.
  intros Hl Hn Hg Hk. destruct (graph_clean k Hg) as [H1 H2].
  apply line_ok_literal; [done|done|done|done|]. unfold max_line. lia.
Qed.

Lemma fresh_lines_ok p : fresh p -> Forall line_ok (peer_block p).
Proof.
  intros Hf. destruct (fr_allowed p Hf) as (q & Hq & Hqp).
  assert (peer_block p = formatPeer p) as -> by (unfold peer_block; by rewrite (fr_raw p Hf)).
  rewrite (formatPeer_fresh p q Hf Hq).
  destruct Hf as [_ [_ _ Hn Hr Hl] (_ & Hkg & Hkl) (_ & Hsg & Hsl) _].
  constructor; [by apply line_ok_graph; [|cbn; lia]|].
  constructor; [by apply line_ok_graph; [|cbn; lia]|].
  constructor.
  { rewrite app_assoc. apply line_ok_literal; [by vm_compute|cbn; lia|done|done|done]. }
  constructor; [apply line_ok_key; [by vm_compute|cbn; lia|done|done]|].
  constructor; [apply line_ok_key; [by vm_compute|cbn; lia|done|done]|].
  constructor; [|constructor].
  apply line_ok_key; [by vm_compute|cbn; lia|by apply prefix_plain_graph|apply Hqp].
Qed.

(** ** What a rewritten file lists *)

Definition conf_ok (st : confState) : Prop :=
  (exists c, bare c = true /\ header_ok st c) /\ Forall line_ok (conf_lines st) /\
  Forall (fun p => peer_ok p \/ fresh p) (peers st).

Lemma parsed_conf_ok text st : single_cr text -> parseConf text = Ok st -> conf_ok st.
Proof.
  intros Hcr H. destruct (parseConf_inv text st Hcr H) as (Hh & Hps & Hl). split; [done|].
  split; [done|]. eapply Forall_impl; [exact Hps|]. tauto.
Qed.

Lemma unlines_single_cr ls : Forall line_ok ls -> single_cr (unlines ls).
Proof.
  intros H. unfold single_cr, unlines. rewrite raw_lines_concat by (eapply Forall_impl; [exact H|by intros l [? _]]).
  eapply Forall_impl; [exact H|]. intros l (_ & Hl & _) l' ->.
  change [x0d; x0d] with ([x0d] ++ [x0d]) in Hl. rewrite app_assoc, drop_cr_snoc in Hl.
  apply (f_equal length) in Hl. rewrite !length_app in Hl. cbn in Hl. lia.
Qed.

Lemma write_reads st :
  conf_ok st ->
  exists st', parseConf (writeConf st) = Ok st' /\ privateKey st' = privateKey st /\
    map strip (peers st') = map strip (peers st) /\ single_cr (writeConf st).
Proof.
  intros ((c & Hc & Hh) & Hl & Hps). unfold parseConf, writeConf. rewrite scan_unlines by done.
  unfold conf_lines at 1. rewrite parse_lines_app, Hh. cbn [rbind].
  destruct (blocks_view (peers st) (mkConf (header st) (privateKey st) []) c Hps) as (s' & c' & -> & H1 & H2).
  cbn [rbind]. eexists. split; [reflexivity|]. split; [done|]. rewrite H2, flush_bare by done.
  split; [done|]. by apply unlines_single_cr.
Qed.

Lemma conf_ok_add st p :
  conf_ok st -> fresh p -> conf_ok (mkConf (header st) (privateKey st) (peers st ++ [p])).
Proof.
  intros (Hh & Hl & Hps) Hf. split; [done|]. cbn [peers]. split.
  - unfold conf_lines in *. cbn [header peers]. rewrite map_app, concat_app, app_assoc. apply Forall_app.
    split; [done|]. cbn. rewrite app_nil_r. by apply fresh_lines_ok.
  - apply Forall_app. split; [done|]. constructor; [by right|done].
Qed.

Lemma remove_named_split name ps qs :
  remove_named name ps = Some qs ->
  exists l p r, ps = l ++ p :: r /\ qs = l ++ r /\ Name p = name /\ Forall (fun p => Name p <> name) l.
Proof.
  revert qs. induction ps as [|p ps IH]; intros qs H; [done|]. cbn [remove_named] in H.
  destruct (seqb_spec (Name p) name) as [E|Hne].
  - injection H as <-. by exists [], p, ps.
  - destruct (remove_named name ps) as [qs'|]; [|done]. injection H as <-.
    destruct (IH qs' eq_refl) as (l & p' & r & -> & -> & H1 & H2).
    exists (p :: l), p', r. split_and!; [done|done|done|]. by constructor.
Qed.

Lemma conf_ok_remove st l p r :
  conf_ok st -> peers st = l ++ p :: r -> conf_ok (mkConf (header st) (privateKey st) (l ++ r)).
Proof.
  intros (Hh & Hl & Hps) E. rewrite E in Hps. split; [done|]. cbn [peers]. split.
  - unfold conf_lines in *. cbn [header peers]. rewrite E in Hl.
    rewrite map_app, concat_app in *. cbn [map concat] in Hl. rewrite !Forall_app in *. tauto.
  - rewrite Forall_app in *. rewrite Forall_cons in Hps. tauto.
Qed.

(** ** Provision and Revoke *)

Lemma existingPeerAddrs_strip ps : existingPeerAddrs (map strip ps) = existingPeerAddrs ps.
Proof. unfold existingPeerAddrs. f_equal. f_equal. f_equal. by induction ps; cbn; f_equal. Qed.

Lemma existingPeerAddrs_app l r : existingPeerAddrs (l ++ r) = existingPeerAddrs l ++ existingPeerAddrs r.
Proof. unfold existingPeerAddrs. by rewrite map_app, concat_app, List.filter_app, map_app. Qed.

Lemma host_prefix subnet a : is_host subnet a = true -> PrefixFrom a (BitLen a) = mkPrefix a (BitLen a).
Proof.
  intros H. unfold is_host, Prefix_Contains in H. rewrite !andb_true_iff in H. destruct H as [[[_ H] _] _].
  destruct (pf_addr subnet), a as [|?|? [|]]; done.
Qed.

Lemma host_addrs subnet a name pk psk raw :
  is_host subnet a = true ->
  existingPeerAddrs [mkPeer name pk psk [PrefixFrom a (BitLen a)] raw] = [a].
Proof.
  intros H. rewrite (host_prefix subnet a H). unfold existingPeerAddrs. cbn [map concat AllowedIPs app List.filter].
  assert (IsSingleIP (mkPrefix a (BitLen a)) = true) as ->; [|done].
  unfold IsSingleIP, Prefix_IsValid. cbn [pf_bits pf_addr]. rewrite Z.eqb_refl, andb_true_r.
  apply Z.leb_le. apply BitLen_max.
Qed.

Lemma key_text_b64 k : length k = 32%nat -> key_text (b64_encode StdEncoding k).
Proof.
  intros Hk. pose proof (b64_std_length k) as Hl. rewrite Hk in Hl. cbn in Hl.
  split_and!; [by intros E; rewrite E in Hl| |lia]. apply b64_encode_Forall; vm_compute; done.
Qed.

(** The file is readable, no line ends in two carriage returns, and it lists
    [ps]. *)
Definition lists (s : Server) (w : world) (ps : list Peer) : Prop :=
  has_ConfPath s = true /\ exists text st, w_conf w = Ok text /\ single_cr text /\ parseConf text = Ok st /\
    privateKey st <> [] /\ map strip (peers st) = ps.

Lemma lists_peers_list s w ps : lists s w ps -> peers_list s w = Ok ps.
Proof.
  intros (Hp & text & st & Hw & _ & Hst & Hk & <-). unfold peers_list, readState. rewrite Hp, Hw.
  cbn [rwrap rbind]. rewrite Hst. cbn [rwrap rbind]. by destruct (seqb_spec (privateKey st) []).
Qed.

Lemma peers_list_lists s w ps text :
  peers_list s w = Ok ps -> w_conf w = Ok text -> single_cr text -> lists s w ps.
Proof.
  unfold peers_list, readState. intros H Hw Hcr. destruct (has_ConfPath s) eqn:E; [|done].
  rewrite Hw in H. cbn [rwrap rbind] in H. destruct (parseConf text) as [st|] eqn:Ep; [|done].
  cbn [rwrap rbind] in H. destruct (seqb_spec (privateKey st) []); [done|].
  injection H as <-. split; [done|]. by exists text, st.
Qed.

Lemma lists_state s w ps : lists s w ps ->
  exists st, readState s w = Ok st /\ conf_ok st /\ privateKey st <> [] /\ map strip (peers st) = ps.
Proof.
  intros (Hp & text & st & Hw & Hcr & Hst & Hk & Hl). exists st. unfold readState. rewrite Hp, Hw.
  cbn [rwrap rbind]. rewrite Hst. cbn [rwrap rbind]. destruct (seqb_spec (privateKey st) []); [done|].
  split_and!; try done. by eapply parsed_conf_ok.
Qed.

(** The outcome of writing and synchronising a good state. *)
Lemma write_and_sync_lists s w st wf sf :
  has_ConfPath s = true -> conf_ok st -> privateKey st <> [] ->
  match write_and_sync w st wf sf with
  | (w', None) => lists s w' (map strip (peers st)) /\ w_live w' = Some (strippedConf st)
  | (w', Some (SyncFailed _)) => lists s w' (map strip (peers st)) /\ w_live w' = w_live w
  | (w', Some _) => w' = w
  end.
Proof.
  intros Hp Hok Hk. unfold write_and_sync, writeState, sync. destruct wf as [e|]; [done|].
  destruct (write_reads st Hok) as (st' & H1 & H2 & H3 & H4).
  assert (forall live, lists s (mkWorld (Ok (writeConf st)) live) (map strip (peers st))) as Hl.
  { intros live. split; [done|]. exists (writeConf st), st'. rewrite H2. done. }
  destruct sf as [e|]; split; (apply Hl || done).
Qed.

Definition answers_ok (a : answers) : Prop :=
  (forall k, a_rand_key a = Ok k -> length k = 32%nat) /\ (forall k, a_rand_psk a = Ok k -> length k = 32%nat).

Section Operations_correct.
Context (X25519 : bytes -> result error bytes) (s : Server).
(** An X25519 result has 32 bytes. *)
Hypothesis HX : forall k out, X25519 k = Ok out -> length out = 32%nat.
Hypothesis Hsubnet : prefix_wf (Subnet s).
(** A host's prefix is read back from its text; [plain4] shows it for IPv4. *)
Hypothesis Hhosts : forall a, is_host (Subnet s) a = true -> prefix_plain (PrefixFrom a (BitLen a)).

Lemma clamp_length k : length (clamp k) = length k.
Proof. unfold clamp. apply length_imap. Qed.

Lemma new_client_spec st name a st' prof :
plain_name name -> answers_ok a -> new_client X25519 s st name a = Ok (st', prof) ->
exists p addr, st' = mkConf (header st) (privateKey st) (peers st ++ [p]) /\ fresh p /\
  p = mkPeer name (PublicKey p) (WgShare.PresharedKey prof) [PrefixFrom addr (BitLen addr)] [] /\
  Forall (fun q => Name q <> name) (peers st) /\
  is_host (Subnet s) addr = true /\ addr <> ServerAddress s /\ (addr ∉ existingPeerAddrs (peers st)) /\
  PublicKeyFor X25519 (ClientPrivateKey prof) = Ok (PublicKey p) /\
  PublicKeyFor X25519 (privateKey st) = Ok (ServerPublicKey prof) /\
  Label prof = name /\ Address prof = PrefixFrom addr (pf_bits (Subnet s)).
Proof.
intros Hname [Hr1 Hr2] H. unfold new_client in H.
destruct (existsb _ (peers st)) eqn:Ex; [done|]. cbn [negb] in H.
destruct (PublicKeyFor X25519 (privateKey st)) as [spub|] eqn:Es; [|done]. cbn [rwrap rbind] in H.
unfold GenerateKeypair, GeneratePresharedKey in H.
destruct (a_rand_key a) as [sk|] eqn:E1; [|done]. cbn [rwrap rbind] in H.
destruct (X25519 (clamp sk)) as [pk|] eqn:E2; [|done]. cbn [rwrap rbind] in H.
destruct (a_rand_psk a) as [psk|] eqn:E3; [|done]. cbn [rwrap rbind] in H.
pose proof (alloc_spec (Subnet s) (ServerAddress s) (existingPeerAddrs (peers st)) Hsubnet) as Ha.
destruct (AllocateClientIP _ _ _) as [addr|] eqn:E4; [|done]. cbn [rwrap rbind fst snd] in H.
injection H as <- <-. destruct Ha as (Hh & Hne & Hnin & _).
eexists _, addr. split; [done|]. split.
{ split; [done|done| | |by exists (PrefixFrom addr (BitLen addr)); split; [|apply Hhosts]].
  - apply key_text_b64. by apply (HX (clamp sk)).
  - apply key_text_b64. by apply Hr2. }
split; [done|]. split.
{ apply Forall_forall. intros q Hq E. apply not_true_iff_false in Ex. apply Ex, existsb_exists.
  exists q. split; [by apply list_elem_of_In|]. rewrite E. apply seqb_refl. }
split_and!; try done. unfold PublicKeyFor. cbn [ClientPrivateKey PublicKey].
rewrite b64_decode_encode by apply std_alphabet. rewrite clamp_length, (Hr1 sk eq_refl). cbn. by rewrite E2.
Qed.

(** What a call of [Provision] leaves, whatever the environment answers. *)
Lemma Provision_spec w name a ps :
lists s w ps -> plain_name name -> answers_ok a ->
match Provision X25519 s w name a with
| (w', Ok prof) => exists pub addr,
    lists s w' (ps ++ [mkPeer name pub (WgShare.PresharedKey prof) [PrefixFrom addr (BitLen addr)] []]) /\
    Forall (fun q => Name q <> name) ps /\
    is_host (Subnet s) addr = true /\ addr <> ServerAddress s /\ (addr ∉ existingPeerAddrs ps) /\
    PublicKeyFor X25519 (ClientPrivateKey prof) = Ok pub /\
    Label prof = name /\ Address prof = PrefixFrom addr (pf_bits (Subnet s))
| (w', Err (SyncFailed _)) => w_live w' = w_live w /\ exists p addr, lists s w' (ps ++ [p]) /\ Name p = name /\
    Forall (fun q => Name q <> name) ps /\ existingPeerAddrs [p] = [addr] /\
    is_host (Subnet s) addr = true /\ addr <> ServerAddress s /\ (addr ∉ existingPeerAddrs ps)
| (w', Err _) => w' = w
end.
Proof.
intros Hw Hname Ha. destruct (lists_state s w ps Hw) as (st & Hst & Hok & Hk & <-).
unfold Provision. destruct (seqb_spec name []) as [E|_]; [by apply (pn_ne _ Hname) in E|].
rewrite Hst. cbn [rbind]. destruct (new_client X25519 s st name a) as [[st' prof]|e] eqn:En.
2:{ unfold new_client in En. repeat match type of En with context [if ?b then _ else _] => destruct b end; try by injection En as <-.
    destruct (PublicKeyFor _ _); cbn in En; [|by injection En as <-].
    destruct (GenerateKeypair _ _); cbn in En; [|by injection En as <-].
    destruct (GeneratePresharedKey _); cbn in En; [|by injection En as <-].
    destruct (AllocateClientIP _ _ _); cbn in En; [done|by injection En as <-]. }
destruct (new_client_spec _ _ _ _ _ Hname Ha En)
  as (p & addr & -> & Hf & Hp & Hnames & Hh & Hne & Hnin & Hpub & _ & Hlab & Haddr).
pose proof (write_and_sync_lists s w _ (a_write_fails a) (a_sync_fails a)
  (proj1 Hw) (conf_ok_add st p Hok Hf) Hk) as Hws.
cbn [peers] in Hws. rewrite map_app in Hws. cbn [map] in Hws.
assert (strip p = p) as Hsp by (by rewrite Hp). rewrite Hsp in Hws.
assert (Forall (fun q => Name q <> name) (map strip (peers st))) as Hnames'.
{ rewrite Forall_map. eapply Forall_impl; [exact Hnames|]. done. }
rewrite <-existingPeerAddrs_strip in Hnin.
destruct (write_and_sync _ _ _ _) as [w' [e|]].
- destruct e; try done. destruct Hws as [Hl Hlive]. split; [done|]. exists p, addr.
  split_and!; try done; [by rewrite Hp|]. rewrite Hp. by eapply host_addrs.
- destruct Hws as [Hl _]. exists (PublicKey p), addr. rewrite <-Hp. split_and!; done.
Qed.

Lemma Revoke_spec w name a ps :
lists s w ps ->
match Revoke s w name a with
| (w', None) => exists l p r, ps = l ++ p :: r /\ lists s w' (l ++ r) /\ Name p = name /\
    Forall (fun q => Name q <> name) l
| (w', Some (SyncFailed _)) => w_live w' = w_live w /\ exists l p r, ps = l ++ p :: r /\ lists s w' (l ++ r) /\
    Name p = name /\ Forall (fun q => Name q <> name) l
| (w', Some _) => w' = w
end.
Proof.
intros Hw. destruct (lists_state s w ps Hw) as (st & Hst & Hok & Hk & <-).
unfold Revoke. destruct (name =s? []); [done|]. rewrite Hst.
destruct (remove_named name (peers st)) as [qs|] eqn:Er; [|done].
apply remove_named_split in Er as (l & p & r & E & -> & Hn & Hl).
pose proof (write_and_sync_lists s w _ (a_write_fails a) (a_sync_fails a)
  (proj1 Hw) (conf_ok_remove st l p r Hok E) Hk) as Hws.
cbn [peers] in Hws. rewrite map_app in Hws.
assert (Forall (fun q => Name q <> name) (map strip l)) as Hl' by (by rewrite Forall_map).
rewrite E, map_app. cbn [map].
destruct (write_and_sync _ _ _ _) as [w' [e|]].
- destruct e; try done. destruct Hws as [Hls Hlive]. split; [done|]. by exists (map strip l), (strip p), (map strip r).
- destruct Hws as [Hls _]. by exists (map strip l), (strip p), (map strip r).
Qed.

(** ** Sequences of calls *)

Inductive admin_call :=
| CallProvision (name : bytes) (a : answers)
| CallRevoke (name : bytes) (a : answers).

Definition call_ok (c : admin_call) : Prop :=
match c with CallProvision name a => plain_name name /\ answers_ok a | CallRevoke _ _ => True end.

Definition do_admin (w : world) (c : admin_call) : world :=
match c with
| CallProvision name a => fst (Provision X25519 s w name a)
| CallRevoke name a => fst (Revoke s w name a)
end.

(** No two peers share an address or a name, and none has the server's. *)
Definition book_ok (ps : list Peer) : Prop :=
NoDup (existingPeerAddrs ps) /\ (ServerAddress s ∉ existingPeerAddrs ps) /\
NoDup (List.filter (fun n => negb (n =s? [])) (map Name ps)).

Lemma book_ok_remove l p r : book_ok (l ++ p :: r) -> book_ok (l ++ r).
Proof.
unfold book_ok. change (p :: r) with ([p] ++ r).
rewrite !existingPeerAddrs_app, !map_app, !List.filter_app.
set (ns := List.filter _ (map Name [p])). rewrite !NoDup_app. intros (H1 & H2 & H3). split_and!; set_solver.
Qed.

Lemma book_ok_add ps p addr :
book_ok ps -> existingPeerAddrs [p] = [addr] -> addr <> ServerAddress s -> addr ∉ existingPeerAddrs ps ->
Forall (fun q => Name q <> Name p) ps -> Name p <> [] -> book_ok (ps ++ [p]).
Proof.
intros (H1 & H2 & H3) Ha Hs Hn Hnames Hne. unfold book_ok.
rewrite existingPeerAddrs_app, Ha, map_app, List.filter_app. cbn [map List.filter].
destruct (seqb_spec (Name p) []); [done|]. cbn [negb]. rewrite Forall_forall in Hnames.
rewrite !NoDup_app. split_and!; try done.
- set_solver.
- apply NoDup_singleton.
- set_solver.
- intros n0 Hn0 E. apply list_elem_of_singleton in E as ->. apply list_elem_of_In, List.filter_In in Hn0 as [Hn0 _].
  apply in_map_iff in Hn0 as (q & Eq & Hq). apply list_elem_of_In in Hq. by apply (Hnames q).
- apply NoDup_singleton.
Qed.

Lemma do_admin_ok w c ps :
lists s w ps -> book_ok ps -> call_ok c -> exists ps', lists s (do_admin w c) ps' /\ book_ok ps'.
Proof.
intros Hw Hb Hc. destruct c as [name a|name a]; cbn [do_admin].
- destruct Hc as [Hname Ha]. pose proof (Provision_spec w name a ps Hw Hname Ha) as H.
  destruct (Provision X25519 s w name a) as [w' [prof|e]]; cbn [fst].
  + destruct H as (pub & addr & Hl & Hn & Hh & Hs & Hnin & _). eexists. split; [exact Hl|].
    eapply book_ok_add; [done|by eapply host_addrs|done|done|done|apply Hname].
  + assert (w' = w \/ exists p addr, lists s w' (ps ++ [p]) /\ Name p = name /\
      Forall (fun q => Name q <> name) ps /\ existingPeerAddrs [p] = [addr] /\
      is_host (Subnet s) addr = true /\ addr <> ServerAddress s /\ (addr ∉ existingPeerAddrs ps))
      as [-> | (p & addr & Hl & <- & Hn & Ha1 & _ & Hs & Hnin)] by (destruct e; tauto).
    * by exists ps.
    * eexists. split; [exact Hl|]. eapply book_ok_add; [done..|apply Hname].
- pose proof (Revoke_spec w name a ps Hw) as H.
  destruct (Revoke s w name a) as [w' [e|]]; cbn [fst].
  + assert (w' = w \/ exists l p r, ps = l ++ p :: r /\ lists s w' (l ++ r)) as [-> | (l & p & r & -> & Hl)].
    { destruct e; (by left) || idtac. destruct H as (_ & l & p & r & E & Hl & _). right. by exists l, p, r. }
    * by exists ps.
    * exists (l ++ r). split; [done|]. by eapply book_ok_remove.
  + destruct H as (l & p & r & -> & Hl & _). exists (l ++ r). split; [done|]. by eapply book_ok_remove.
Qed.
End Operations_correct.

(** ** IPv4 subnets meet the hypothesis on hosts *)

Lemma dec_short n : (0 <= n < 256)%Z -> (length (dec n) <= 3)%nat.
Proof.
  intros H. assert (forallb (fun n => length (dec n) <=? 3)%nat (map Z.of_nat (seq 0 256)) = true) as Hall
    by (vm_compute; reflexivity).
  rewrite forallb_forall in Hall. apply Nat.leb_le, Hall, in_map_iff.
  exists (Z.to_nat n). rewrite in_seq. lia.
Qed.

Lemma fmt4_length v : (0 <= v < 2 ^ 32)%Z -> (length (fmt4 v) <= 15)%nat.
Proof.
  intros H. unfold fmt4. rewrite !length_app.
  pose proof (dec_short (v / 16777216) ltac:(Z.div_mod_to_equations; lia)).
  pose proof (dec_short (v / 65536 mod 256) ltac:(Z.div_mod_to_equations; lia)).
  pose proof (dec_short (v / 256 mod 256) ltac:(Z.div_mod_to_equations; lia)).
  pose proof (dec_short (v mod 256) ltac:(Z.div_mod_to_equations; lia)).
  cbn [length]. lia.
Qed.

Lemma plain4 v : (0 <= v < 2 ^ 32)%Z -> prefix_plain (mkPrefix (Addr4 v) 32).
Proof.
  intros Hv. assert (Prefix_String (mkPrefix (Addr4 v) 32) = fmt4 v ++ "/32") as E by done.
  split; [by apply prefix4_rt| |].
  - rewrite E, forallb_app. apply andb_true_iff. split; [|done].
    pose proof (fmt4_chars v Hv) as Hc. rewrite forallb_forall in *. intros c Hin. apply Hc in Hin.
    clear - Hin. destruct c; (vm_compute in Hin; discriminate) || reflexivity.
  - rewrite E, length_app. pose proof (fmt4_length v Hv). change (length "/32") with 3%nat. lia.
Qed.

Lemma hosts_plain4 v bits a :
  (0 <= v < 2 ^ 32)%Z -> (0 <= bits <= 32)%Z ->
  is_host (mkPrefix (Addr4 v) bits) a = true -> prefix_plain (PrefixFrom a (BitLen a)).
Proof.
  intros Hv Hb Hh. rewrite (host_prefix _ _ Hh). unfold is_host in Hh. rewrite !andb_true_iff in Hh.
  destruct Hh as [[Hc _] _].
  assert (Hfam : (Addr4 = Addr4 /\ 32%Z = 32%Z) \/ (Addr4 = (fun v => Addr6 v []) /\ 32%Z = 128%Z)) by (by left).
  pose proof (Contains_family Addr4 32 Hfam v bits a Hc) as Ha. rewrite Ha in *. cbn [BitLen].
  apply plain4. set (x := addr_val a) in *.
  destruct (Z.ltb_spec x 0) as [Hneg|Hpos].
  - exfalso. unfold Prefix_Contains in Hc. cbn [pf_addr pf_bits] in Hc. apply andb_true_iff in Hc as [_ Hc].
    apply Z.eqb_eq in Hc. assert (0 < 2 ^ (32 - bits))%Z by (apply Z.pow_pos_nonneg; lia).
    assert (x / 2 ^ (32 - bits) < 0)%Z by (apply Z.div_lt_upper_bound; lia).
    assert (0 <= v / 2 ^ (32 - bits))%Z by (apply Z.div_pos; lia). lia.
  - apply (Contains_mk Addr4 32 Hfam v bits Hv Hb) in Hc; [|done].
    pose proof (base_bounds Addr4 32 Hfam v bits Hv Hb). lia.
Qed.

(** ** Theorems *)

(** C11.  A successful [Provision] of a plain name adds exactly one peer to
    what [List] shows: it has the given name, which nobody had, the public key
    of the private key in the profile, and the address in the profile, which
    is a free host of the subnet.  A failed one leaves the world as it was,
    unless only the synchronisation failed: then the file has one such peer
    more and the running interface is as before.  A plain name has no white
    space around it, no line break, and fits a line ([padded_name_twice] and
    [newline_name_injects] show what others do); no line of the file ends in
    two carriage returns; and the text of a host's prefix is read back, which
    holds of every IPv4 subnet ([hosts_plain4]).  X25519 and the random source
    give 32 bytes. *)
Theorem Provision_then_List X25519 s w name a ps text :
  (forall k out, X25519 k = Ok out -> length out = 32%nat) ->
  prefix_wf (Subnet s) ->
  (forall a, is_host (Subnet s) a = true -> prefix_plain (PrefixFrom a (BitLen a))) ->
  plain_name name -> answers_ok a ->
  w_conf w = Ok text -> single_cr text -> peers_list s w = Ok ps ->
  match Provision X25519 s w name a with
  | (w', Ok prof) => exists pub addr,
      peers_list s w' =
        Ok (ps ++ [mkPeer name pub (WgShare.PresharedKey prof) [PrefixFrom addr (BitLen addr)] []]) /\
      Forall (fun q => Name q <> name) ps /\
      is_host (Subnet s) addr = true /\ addr <> ServerAddress s /\ (addr ∉ existingPeerAddrs ps) /\
      PublicKeyFor X25519 (ClientPrivateKey prof) = Ok pub /\
      Label prof = name /\ Address prof = PrefixFrom addr (pf_bits (Subnet s))
  | (w', Err (SyncFailed _)) => w_live w' = w_live w /\ exists p addr,
      peers_list s w' = Ok (ps ++ [p]) /\ Name p = name /\ Forall (fun q => Name q <> name) ps /\
      existingPeerAddrs [p] = [addr] /\
      is_host (Subnet s) addr = true /\ addr <> ServerAddress s /\ (addr ∉ existingPeerAddrs ps)
  | (w', Err _) => w' = w
  end.
Proof.
  intros HX Hs Hh Hn Ha Hw Hcr Hl. apply (peers_list_lists s w ps text) in Hl; [|done..].
  pose proof (Provision_spec X25519 s HX Hs Hh w name a ps Hl Hn Ha) as H.
  destruct (Provision X25519 s w name a) as [w' [prof|e]].
  - destruct H as (pub & addr & Hl' & H). exists pub, addr. split; [by apply lists_peers_list|done].
  - destruct e; try done. destruct H as (Hlive & p & addr & Hl' & H). split; [done|].
    exists p, addr. split; [by apply lists_peers_list|done].
Qed.

(** C6.  Over any sequence of [Provision] calls with plain names (no white
    space around them, no line break) and [Revoke] calls, whatever fails in
    them, starting from a file that lists peers with distinct addresses and
    names and no line of which ends in two carriage returns: the file stays
    readable and no two peers ever share an address or a name, nor has one
    the server's address; provided the text of a host's prefix is read back,
    as it is for every IPv4 subnet ([hosts_plain4]), and X25519 and the random
    source give 32 bytes.  [padded_name_twice] and [newline_name_injects] show
    what other names do. *)
Theorem addresses_never_shared X25519 s w cs ps text :
  (forall k out, X25519 k = Ok out -> length out = 32%nat) ->
  prefix_wf (Subnet s) ->
  (forall a, is_host (Subnet s) a = true -> prefix_plain (PrefixFrom a (BitLen a))) ->
  w_conf w = Ok text -> single_cr text -> peers_list s w = Ok ps -> book_ok s ps -> Forall call_ok cs ->
  exists ps', peers_list s (fold_left (do_admin X25519 s) cs w) = Ok ps' /\ book_ok s ps'.
Proof.
  intros HX Hs Hh Hw Hcr Hl Hb Hcs. apply (peers_list_lists s w ps text) in Hl; [|done..].
  clear Hw Hcr text. revert w ps Hl Hb.
  induction Hcs as [|c cs Hc _ IH]; intros w ps Hl Hb; cbn [fold_left].
  - exists ps. split; [by apply lists_peers_list|done].
  - destruct (do_admin_ok X25519 s HX Hs Hh w c ps Hl Hb Hc) as (ps1 & Hl1 & Hb1). by apply (IH _ ps1).
Qed.

(** *** Witnesses *)

(** A stand-in for X25519: any function to 32 bytes. *)
Definition demo_X25519 (k : bytes) : result error bytes :=
  Ok (map (fun b => byte_of_Z (byte_val b + 7)) (take 32 (k ++ replicate 32 x00))).

Lemma demo_X25519_length k out : demo_X25519 k = Ok out -> length out = 32%nat.
Proof.
  unfold demo_X25519. intros H. assert (out = map (fun b => byte_of_Z (byte_val b + 7)) (take 32 (k ++ replicate 32 x00)))
    as -> by congruence.
  rewrite length_map, length_take, length_app, length_replicate. lia.
Qed.

Definition demo_server : Server :=
  NewServer (mkServer true zero_prefix AddrZero "is-01.example.com:56000" [] [] 1280 (25 * Second)).

Lemma demo_subnet : prefix_wf (Subnet demo_server).
Proof. repeat split; cbn; lia. Qed.

Lemma demo_hosts a : is_host (Subnet demo_server) a = true -> prefix_plain (PrefixFrom a (BitLen a)).
Proof. apply (hosts_plain4 0x0a070000 24); lia. Qed.

Definition demo_answers (b : byte) (sync : option error) : answers :=
  mkAnswers (Ok (replicate 32 b)) (Ok (replicate 32 b)) None sync.

Lemma demo_answers_ok b sync : answers_ok (demo_answers b sync).
Proof. by split; intros k [= <-]. Qed.

Definition demo_text : bytes := "[Interface]
PrivateKey = AAAAAAAAAAAAAAAAAAAAAAAAAAAAAAAAAAAAAAAAAAA=
ListenPort = 56001
".
Definition demo_world : world := mkWorld (Ok demo_text) None.

Lemma demo_text_cr : single_cr demo_text.
Proof. apply single_cr_none. by apply (bool_decide_unpack _); vm_compute. Qed.

Lemma plain_alice : plain_name "alice".
Proof.
  split; [done|by vm_compute| | |vm_compute; done];
    by apply (bool_decide_unpack _); vm_compute.
Qed.

Lemma Provision_then_List_witness :
  peers_list demo_server demo_world = Ok [] /\
  match Provision demo_X25519 demo_server demo_world "alice" (demo_answers x01 None) with
  | (w', Ok prof) => exists pub addr,
      peers_list demo_server w' =
        Ok ([] ++ [mkPeer "alice" pub (WgShare.PresharedKey prof) [PrefixFrom addr (BitLen addr)] []]) /\
      Forall (fun q => Name q <> "alice"%go) [] /\
      is_host (Subnet demo_server) addr = true /\ addr <> ServerAddress demo_server /\
      (addr ∉ existingPeerAddrs []) /\
      PublicKeyFor demo_X25519 (ClientPrivateKey prof) = Ok pub /\
      Label prof = "alice"%go /\ Address prof = PrefixFrom addr (pf_bits (Subnet demo_server))
  | (w', Err (SyncFailed _)) => w_live w' = w_live demo_world /\ exists p addr,
      peers_list demo_server w' = Ok ([] ++ [p]) /\ Name p = "alice"%go /\ Forall (fun q => Name q <> "alice"%go) [] /\
      existingPeerAddrs [p] = [addr] /\
      is_host (Subnet demo_server) addr = true /\ addr <> ServerAddress demo_server /\ (addr ∉ existingPeerAddrs [])
  | (w', Err _) => w' = demo_world
  end.
Proof.
  assert (peers_list demo_server demo_world = Ok []) as Hl by (vm_compute; reflexivity).
  split; [done|].
  apply (Provision_then_List demo_X25519 demo_server demo_world "alice" (demo_answers x01 None) [] demo_text
    demo_X25519_length demo_subnet demo_hosts plain_alice (demo_answers_ok _ _) eq_refl demo_text_cr Hl).
Defined.

Definition demo_calls : list admin_call :=
  [CallProvision "alice" (demo_answers x01 None); CallProvision "alice" (demo_answers x02 None);
   CallRevoke "alice" (demo_answers x03 None)].

Lemma book_ok_nil s : book_ok s [].
Proof. unfold book_ok, existingPeerAddrs. cbn. split_and!; [constructor|apply not_elem_of_nil|constructor]. Qed.

Lemma addresses_never_shared_witness :
  peers_list demo_server demo_world = Ok [] /\
  exists ps', peers_list demo_server (fold_left (do_admin demo_X25519 demo_server) demo_calls demo_world) = Ok ps' /\
    book_ok demo_server ps'.
Proof.
  assert (peers_list demo_server demo_world = Ok []) as Hl by (vm_compute; reflexivity).
  assert (Forall call_ok demo_calls) as Hc.
  { repeat constructor; apply plain_alice || apply demo_answers_ok. }
  split; [done|].
  apply (addresses_never_shared demo_X25519 demo_server demo_world demo_calls [] demo_text
    demo_X25519_length demo_subnet demo_hosts eq_refl demo_text_cr Hl); [|exact Hc].
  apply book_ok_nil.
Defined.

(** The call that succeeds: what the server's file becomes. *)
Example provision_alice :
  match Provision demo_X25519 demo_server demo_world "alice" (demo_answers x01 None) with
  | (w', Ok prof) => Address prof = mkPrefix (Addr4 0x0a070002) 24
  | _ => False
  end.
Proof. vm_compute. reflexivity. Qed.

(** ** Divergences *)

(** A name with white space around it is read back without it, so the test for
    an existing name misses it: the same name can be provisioned twice. *)
Example padded_name_twice :
  match Provision demo_X25519 demo_server demo_world " bob" (demo_answers x01 None) with
  | (w1, Ok _) =>
      match Provision demo_X25519 demo_server w1 " bob" (demo_answers x02 None) with
      | (w2, Ok _) => (map Name <$> match peers_list demo_server w2 with Ok l => Some l | Err _ => None end)
                      = Some ["bob"%go; "bob"%go]
      | _ => False
      end
  | _ => False
  end.
Proof. vm_compute. reflexivity. Qed.

(** A name with a newline writes lines of its own into the file. *)
Example newline_name_injects :
  match Provision demo_X25519 demo_server demo_world "x
AllowedIPs = 0.0.0.0/0
#" (demo_answers x01 None) with
  | (w1, Ok _) =>
      (match peers_list demo_server w1 with Ok l => length l | Err _ => O end,
       match w_conf w1 with Ok t => Contains t "
AllowedIPs = 0.0.0.0/0
" | Err _ => false end) = (1%nat, true)
  | _ => False
  end.
Proof. vm_compute. reflexivity. Qed.
