(* ===== verification/Vk.v ===== *)
(** * pkg/wgturn/provider/vk: TURN credentials from VK Calls

    parse.go, errors.go, captcha.go, api.go and provider.go.  What the network
    answers to each request, the captcha solver and the random choices are
    arguments ([env]); a run of [fetchTurn] also returns its trace, the
    requests posted and the challenges handed to the solver, in order. *)

From Stdlib Require Import Floats.SpecFloat.
From S2P Require Import Prelude GoStrings GoErrors GoTime Encoding NetIP Json Creds Proxy.

(** ** parse.go *)

Definition ErrInvalidLink : error := errors_New "vk: invalid call link".

Definition isCallIDRune (c : byte) : bool :=
  between 97 122 c || between 65 90 c || is_digit c ||
  Byte.eqb c "-" || Byte.eqb c "_" || Byte.eqb c ".".

(** A rune that is not ASCII is no call-ID rune, nor is any of its bytes. *)
Definition extractCallID (link : bytes) : result error bytes :=
  let s := TrimSpace link in
  guard negb (s =s? []) else ErrInvalidLink in
  let urlLike := Contains s "/" || Contains s "://" in
  let s := match Index s "://" with Some i => drop (i + 3) s | None => s end in
  let* s := match Index s "join/" with
            | Some i => Ok (drop (i + 5) s)
            | None => if urlLike then Err ErrInvalidLink else Ok s
            end in
  let s := match IndexAny s "/?#" with Some i => take i s | None => s end in
  let s := TrimSpace s in
  guard negb (s =s? []) else ErrInvalidLink in
  guard forallb isCallIDRune s else ErrInvalidLink in
  Ok s.

(** The first of the prefixes that [s] has is dropped. *)
Fixpoint drop_scheme (ps : list bytes) (s : bytes) : bytes :=
  match ps with
  | [] => s
  | p :: ps => match cut_prefix p s with Some r => r | None => drop_scheme ps s end
  end.

Definition parseTurnURL (s : bytes) : result error bytes :=
  let s := TrimSpace s in
  guard negb (s =s? []) else errors_New "vk: empty turn URL" in
  let s := drop_scheme ["turns:"%go; "turn:"%go; "stun:"%go; "stuns:"%go] s in
  let s := match IndexByte s "?" with Some i => take i s | None => s end in
  match SplitHostPort s with
  | Ok _ => Ok s
  | Err _ => Err (errors_New ("vk: turn URL missing host:port: " ++ s))
  end.

(** ** captcha.go *)

Record CaptchaChallenge := mkChallenge {
  SID : bytes; ImgURL : bytes; RedirectURI : bytes; Attempt : Z; TS : bytes }.

Definition captchaNeededMsg : bytes := "Captcha needed".

Record Solution := mkSolution { Key : bytes; SuccessToken : bytes }.

(** [x.(string)] and [x.(float64)], with their zero values. *)
Definition as_string (j : option json) : bytes := match j with Some (JStr s) => s | _ => [] end.
Definition as_float (j : option json) : spec_float :=
  match j with Some (JNum lit) => f64_of_lit lit | _ => S754_zero false end.
Definition is_code (f : spec_float) (n : Z) : bool := SFeqb f (f64_of_Z n).

(** [fmt.Sscanf(v, "%d", &n)]: white space without a newline, a sign, digits;
    the rest is ignored. *)
Definition sscanf_d (s : bytes) : option Z :=
  let r := TrimLeftSpace s in
  if existsb (Byte.eqb x0a) (take (length s - length r) s) then None else
  let '(sign, r) := match r with
                    | x2d :: r => ([x2d], r) | x2b :: r => ([x2b], r) | _ => ([], r)
                    end in
  Atoi (sign ++ fst (digit_run r)).

Definition extractCaptcha (e : list (bytes * json)) : option CaptchaChallenge :=
  let code := as_float (jget e "error_code") in
  let msg := as_string (jget e "error_msg") in
  if negb (f64_to_int code =? 14)%Z && negb (msg =s? captchaNeededMsg) then None else
  let sid := as_string (jget e "captcha_sid") in
  let img := as_string (jget e "captcha_img") in
  let redirect := as_string (jget e "redirect_uri") in
  if (sid =s? []) && (img =s? []) then None else
  let attempt := match jget e "captcha_attempt" with
                 | Some (JNum lit) => f64_to_int (f64_of_lit lit)
                 | Some (JStr v) => match sscanf_d v with
                                    | Some n => if (0 <? n)%Z then n else 1%Z
                                    | None => 1%Z
                                    end
                 | _ => 1%Z
                 end in
  let ts := match jget e "captcha_ts" with
            | Some (JStr v) => v
            | Some (JNum lit) => itoa (f64_to_int (f64_of_lit lit))
            | _ => []
            end in
  Some (mkChallenge sid img redirect attempt ts).

(** [url.Values], each key with one value. *)
Abbreviation form := (list (bytes * bytes)).
Fixpoint form_set (k v : bytes) (f : form) : form :=
  match f with
  | [] => [(k, v)]
  | (k', v') :: f => if k' =s? k then (k, v) :: f else (k', v') :: form_set k v f
  end.
Fixpoint form_get (k : bytes) (f : form) : option bytes :=
  match f with
  | [] => None
  | (k', v) :: f => if k' =s? k then Some v else form_get k f
  end.

Definition applySolution (f : form) (ch : CaptchaChallenge) (sol : Solution) : result error form :=
  guard negb (SID ch =s? []) else errors_New "captcha SID is empty" in
  let f := form_set "captcha_sid" (SID ch) f in
  if negb (SuccessToken sol =s? []) then
    let f := form_set "captcha_key" [] f in
    let f := form_set "is_sound_captcha" "0" f in
    let f := form_set "success_token" (SuccessToken sol) f in
    let f := if TS ch =s? [] then f else form_set "captcha_ts" (TS ch) f in
    Ok (if (0 <? Attempt ch)%Z then form_set "captcha_attempt" (itoa (Attempt ch)) f else f)
  else if negb (Key sol =s? []) then
    let f := form_set "success_token" [] f in
    let f := form_set "is_sound_captcha" [] f in
    Ok (form_set "captcha_key" (Key sol) f)
  else Err (errors_New "solver returned empty solution").

(** ** errors.go *)

Definition ErrAuthFailure : error :=
  mkError "wgturn: credentials rejected (auth failure)" [GoErrors.ErrAuthFailure].
Definition ErrCaptchaRequired : error := mkError "wgturn: captcha required" [GoErrors.ErrCaptchaRequired].

(** An error of [post]: plain, or a [captchaErrWrapper] with its challenge.
    [errors.Is] finds [errCaptchaChallenge] in the latter alone, and
    [lastCaptchaChallenge] its challenge. *)
Inductive vk_error :=
| Plain (e : error)
| Captcha (ch : CaptchaChallenge) (parent : error).

Definition vk_text (e : vk_error) : error :=
  match e with
  | Plain e => e
  | Captcha ch parent =>
      mkError ("vk: captcha required (sid=" ++ SID ch ++ ", img=" ++ ImgURL ch ++ ")") (error_is parent)
  end.

(** [fmt.Errorf("%w<post>", err)]. *)
Definition Errorf_pre (err : error) (post : bytes) : error := mkError (error_text err ++ post) (error_is err).

Section Provider.
(** [strconv.Quote], the [%q] of a format: its text is only shown. *)
Context (Quote : bytes -> bytes).

Definition code_msg (code : spec_float) (msg : bytes) : bytes :=
  "code=" ++ itoa (f64_to_int code) ++ " msg=" ++ Quote msg.

Definition detectVKError (resp : list (bytes * json)) : option vk_error :=
  let ok_shape :=
    match jget resp "error_code" with
    | Some c =>
        let code := as_float (Some c) in
        let msg := as_string (jget resp "error_msg") in
        if is_code code 14 || (msg =s? captchaNeededMsg)
        then Some (Plain (Errorf_pre ErrCaptchaRequired (": ok " ++ code_msg code msg)))
        else Some (Plain (errors_New ("ok error " ++ code_msg code msg)))
    | None => None
    end in
  match jget resp "error" with
  | Some (JStr e) =>
      if (e =s? "need_captcha") || (e =s? "captcha_required") then
        let parent := Errorf_pre ErrCaptchaRequired (": " ++ e) in
        let sid := as_string (jget resp "captcha_sid") in
        let img := as_string (jget resp "captcha_img") in
        if (sid =s? []) && (img =s? []) then Some (Plain parent)
        else Some (Captcha (mkChallenge sid img [] 0 []) parent)
      else Some (Plain (errors_New ("vk error: " ++ e)))
  | Some (JObj e) =>
      let code := as_float (jget e "error_code") in
      let msg := as_string (jget e "error_msg") in
      if is_code code 14 || (msg =s? captchaNeededMsg) then
        let wrapped := Errorf_pre ErrCaptchaRequired (": " ++ code_msg code msg) in
        match extractCaptcha e with
        | Some ch => Some (Captcha ch wrapped)
        | None => Some (Plain wrapped)
        end
      else if is_code code 5 || is_code code 15 || is_code code 17 then
        Some (Plain (Errorf_pre ErrAuthFailure (": " ++ code_msg code msg)))
      else Some (Plain (errors_New ("vk error " ++ code_msg code msg)))
  | _ => ok_shape
  end.

(** ** api.go *)

(** What becomes of a request. *)
Inductive http_outcome :=
| BuildFailed (e : error) | HttpFailed (e : error) | ReadFailed (e : error)
| Replied (status : Z) (status_line body : bytes).

Definition bytesPreview (b : bytes) : bytes :=
  if (length b <=? 200)%nat then TrimSpace b else TrimSpace (take 200 b) ++ "...(truncated)".

(** [post], after the request: the body is read up to 1 MiB. *)
Definition post (o : http_outcome) : result vk_error (list (bytes * json)) :=
  match o with
  | BuildFailed e => Err (Plain (Errorf_w "build request: " e))
  | HttpFailed e => Err (Plain (Errorf_w "http: " e))
  | ReadFailed e => Err (Plain (Errorf_w "read body: " e))
  | Replied status status_line body =>
      let body := take (Z.to_nat (1024 * 1024)) body in
      if (status =? 401)%Z || (status =? 403)%Z then
        Err (Plain (Errorf_pre ErrAuthFailure (": HTTP " ++ itoa status ++ " " ++ bytesPreview body)))
      else if (400 <=? status)%Z then
        Err (Plain (errors_New ("HTTP " ++ itoa status ++ " " ++ status_line ++ ": " ++ bytesPreview body)))
      else
        let decoded := match Unmarshal_any body with
                       | Some (JObj l) => Some l
                       | Some JNull => Some []
                       | _ => None
                       end in
        match decoded with
        | None => Err (Plain (errors_New ("decode JSON: (body preview: " ++ bytesPreview body ++ ")")))
        | Some out => match detectVKError out with Some e => Err e | None => Ok out end
        end
  end.

Definition dig_error : error := errors_New "path: missing key".

(** [dig]: the path's last segment, through objects. *)
Fixpoint dig (cur : json) (keys : list bytes) : option json :=
  match keys with
  | [] => Some cur
  | k :: keys => match cur with
                 | JObj l => j ← jget l k; dig j keys
                 | _ => None
                 end
  end.
Definition digString (resp : list (bytes * json)) (keys : list bytes) : result error bytes :=
  match dig (JObj resp) keys with Some (JStr s) => Ok s | _ => Err dig_error end.
Definition digSlice (resp : list (bytes * json)) (keys : list bytes) : result error (list json) :=
  match dig (JObj resp) keys with Some (JArr l) => Ok l | _ => Err dig_error end.

Record apiHosts := mkHosts { h_login : bytes; h_api : bytes; h_ok : bytes }.
Definition hostAPI : bytes := "https://api.vk.ru".
Definition defaultHosts : apiHosts := mkHosts "https://login.vk.ru" hostAPI "https://calls.okcdn.ru".
Definition apiVersion : bytes := "5.275".

Inductive event := Posted (url : bytes) (f : form) | Solved (ch : CaptchaChallenge).

(** The surroundings of one fetch: the outcome of each request and the
    solver's answer to each challenge, given everything before; the guest name
    and the device id drawn. *)
Record env := mkEnv {
  e_http : list event -> bytes -> form -> http_outcome;
  e_solve : option (list event -> CaptchaChallenge -> result error Solution);
  e_guest : bytes;
  e_device : bytes;
  e_appID : bytes;
  e_secret : bytes;
  e_hosts : apiHosts }.

(** A computation that extends the trace. *)
Definition io A := list event -> list event * A.
Definition posting (E : env) (url : bytes) (f : form) : io (result vk_error (list (bytes * json))) :=
  fun tr => (tr ++ [Posted url f], post (e_http E tr url f)).

Definition maxCaptchaAttempts : nat := 3.

(** Why the loop of step 3 ends. *)
Inductive step3_result :=
| Token (resp : list (bytes * json))
| Failed (e : error).

(** The attempts of step 3 from [attempt] on; [tries] of them are left. *)
Fixpoint step3 (E : env) (url : bytes) (tries : nat) (f : form) (last : vk_error) : io step3_result :=
  fun tr =>
  match tries with
  | O => (tr, Failed (Errorf_w "step3 anon token after 3 captcha attempts: " (vk_text last)))
  | S tries =>
      let '(tr, r) := posting E url f tr in
      match r with
      | Ok resp => (tr, Token resp)
      | Err (Plain e) => (tr, Failed (Errorf_w "step3 anon token: " e))
      | Err (Captcha ch parent) =>
          match e_solve E with
          | None => (tr, Failed (Errorf_w "step3 anon token: " ErrCaptchaRequired))
          | Some solve =>
              let answer := solve tr ch in
              let tr := tr ++ [Solved ch] in
              match answer with
              | Err e => (tr, Failed (Errorf_w "step3 captcha solver: " e))
              | Ok sol =>
                  match applySolution f ch sol with
                  | Err e => (tr, Failed (Errorf_w "step3 captcha apply: " e))
                  | Ok f => step3 E url tries f (Captcha ch parent) tr
                  end
              end
          end
      end
  end.

Definition step1_form (E : env) : form :=
  [("client_id"%go, e_appID E); ("token_type"%go, "messages"%go); ("client_secret"%go, e_secret E);
   ("version"%go, "1"%go); ("app_id"%go, e_appID E)].
Definition preview_link (E : env) (callID : bytes) : bytes :=
  if h_api (e_hosts E) =s? hostAPI then "https://vk.ru/call/join/" ++ callID
  else "https://vk.com/call/join/" ++ callID.
Definition step2_form (E : env) (callID token1 : bytes) : form :=
  [("vk_join_link"%go, preview_link E callID); ("fields"%go, "photo_200"%go); ("access_token"%go, token1)].
Definition step3_form (E : env) (callID token1 : bytes) : form :=
  [("vk_join_link"%go, "https://vk.com/call/join/" ++ callID); ("name"%go, e_guest E);
   ("access_token"%go, token1)].
Definition dq (s : bytes) : bytes := [x22] ++ s ++ [x22].
Definition session_data (E : env) : bytes :=
  "{" ++ dq "version" ++ ":2," ++ dq "device_id" ++ ":" ++ dq (e_device E) ++ "," ++
  dq "client_version" ++ ":1.1," ++ dq "client_type" ++ ":" ++ dq "SDK_JS" ++ "}".
Definition step4_form (E : env) : form :=
  [("session_data"%go, session_data E); ("method"%go, "auth.anonymLogin"%go); ("format"%go, "JSON"%go);
   ("application_key"%go, "CGMMEJLGDIHBABABA"%go)].
Definition step5_form (callID token2 sessionKey : bytes) : form :=
  [("joinLink"%go, callID); ("isVideo"%go, "false"%go); ("protocolVersion"%go, "5"%go);
   ("capabilities"%go, "2F7F"%go); ("anonymToken"%go, token2);
   ("method"%go, "vchat.joinConversationByLink"%go); ("format"%go, "JSON"%go);
   ("application_key"%go, "CGMMEJLGDIHBABABA"%go); ("session_key"%go, sessionKey)].

Definition step1_url (E : env) : bytes := h_login (e_hosts E) ++ "/?act=get_anonym_token".
Definition step2_url (E : env) : bytes :=
  h_api (e_hosts E) ++ "/method/calls.getCallPreview?v=" ++ apiVersion ++ "&client_id=" ++ e_appID E.
Definition step3_url (E : env) : bytes :=
  h_api (e_hosts E) ++ "/method/calls.getAnonymousToken?v=" ++ apiVersion ++ "&client_id=" ++ e_appID E.
Definition ok_url (E : env) : bytes := h_ok (e_hosts E) ++ "/fb.do".

(** The TURN credentials of step 5's answer. *)
Definition turn_creds (resp : list (bytes * json)) : result error (bytes * bytes * bytes) :=
  let* user := rwrap (Errorf_w "step5 username: ") (digString resp ["turn_server"%go; "username"%go]) in
  let* pass := rwrap (Errorf_w "step5 credential: ") (digString resp ["turn_server"%go; "credential"%go]) in
  let* urls := rwrap (Errorf_w "step5 urls: ") (digSlice resp ["turn_server"%go; "urls"%go]) in
  match urls with
  | [] => Err (errors_New "step5: empty turn_server.urls")
  | JStr rawURL :: _ =>
      let* addr := rwrap (Errorf_w "step5 url: ") (parseTurnURL rawURL) in Ok (user, pass, addr)
  | _ => Err (errors_New "step5: turn_server.urls[0] is not a string")
  end.

Definition step_error (pre : bytes) (e : vk_error) : error := Errorf_w pre (vk_text e).

(** Continue with what a step gave, or stop. *)
Definition stop_or {A B} (r : result error A) (k : A -> io (result error B)) : io (result error B) :=
  match r with Ok x => k x | Err e => fun tr => (tr, Err e) end.
Definition then_io {A B} (c : io A) (k : A -> io B) : io B := fun tr => let '(tr, x) := c tr in k x tr.

Definition fetchTurn (E : env) (callID : bytes) : io (result error (bytes * bytes * bytes)) :=
  then_io (posting E (step1_url E) (step1_form E)) (fun r =>
  stop_or (rwrap (step_error "step1 anonym token: ") r) (fun resp =>
  stop_or (rwrap (Errorf_w "step1: ") (digString resp ["data"%go; "access_token"%go])) (fun token1 =>
  then_io (posting E (step2_url E) (step2_form E callID token1)) (fun _ =>
  then_io (step3 E (step3_url E) maxCaptchaAttempts (step3_form E callID token1) (Plain dig_error)) (fun r3 =>
  stop_or (match r3 with Token resp => Ok resp | Failed e => Err e end) (fun resp =>
  stop_or (rwrap (Errorf_w "step3: ") (digString resp ["response"%go; "token"%go])) (fun token2 =>
  then_io (posting E (ok_url E) (step4_form E)) (fun r =>
  stop_or (rwrap (step_error "step4 ok login: ") r) (fun resp =>
  stop_or (rwrap (Errorf_w "step4: ") (digString resp ["session_key"%go])) (fun sessionKey =>
  then_io (posting E (ok_url E) (step5_form callID token2 sessionKey)) (fun r =>
  stop_or (rwrap (step_error "step5 vchat: ") r) (fun resp =>
  fun tr => (tr, turn_creds resp))))))))))))).

(** ** provider.go *)

(** The provider's own solver when none is configured. *)
Definition rejectingSolver (tr : list event) (ch : CaptchaChallenge) : result error Solution :=
  Err (Errorf_pre ErrCaptchaRequired ": solver not configured").

(** [New] without options; [http], the draws and the rest come from outside. *)
Definition New_env (http : list event -> bytes -> form -> http_outcome) (guest device : bytes) : env :=
  mkEnv http (Some rejectingSolver) guest device "6287487" "QbYic1K3lEV5kTGiqlq2" defaultHosts.

Definition Fetch (E : env) (hint : bytes) : list event * result error Credentials :=
  match extractCallID hint with
  | Err e => ([], Err (Errorf_w ("vk: parse hint " ++ Quote hint ++ ": ") e))
  | Ok callID =>
      let '(tr, r) := fetchTurn E callID [] in
      (tr, match r with
           | Ok (user, pass, addr) => Ok (mkCredentials user pass addr 0)
           | Err e => Err e
           end)
  end.
End Provider.

(** ** Call IDs *)

Lemma callID_graph id : forallb isCallIDRune id = true -> forallb is_graph id = true.
Proof.
  rewrite !forallb_forall. intros H c Hc. specialize (H c Hc). clear - H.
  destruct c; (vm_compute in H; discriminate) || reflexivity.
Qed.

Lemma callID_plain id c : forallb isCallIDRune id = true -> isCallIDRune c = false -> c ∉ id.
Proof. rewrite forallb_forall. intros H Hc Hin%list_elem_of_In. apply H in Hin. congruence. Qed.

Lemma Index_none s sub c : c ∈ sub -> c ∉ s -> Index s sub = None.
Proof.
  intros Hc. induction s as [|a s IH]; intros Hs; cbn [Index].
  - destruct (HasPrefix [] sub) eqn:E; [|done]. apply HasPrefix_true in E as [t E].
    symmetry in E. apply app_eq_nil in E as [-> _]. by apply elem_of_nil in Hc.
  - destruct (HasPrefix (a :: s) sub) eqn:E.
    + apply HasPrefix_true in E as [t E]. exfalso. apply Hs. rewrite E. apply elem_of_app. by left.
    + rewrite IH by set_solver. done.
Qed.

Lemma IndexAny_none s cs : (forall c, c ∈ cs -> c ∉ s) -> IndexAny s cs = None.
Proof.
  intros H. induction s as [|a s IH]; [done|]. cbn [IndexAny].
  destruct (existsb (Byte.eqb a) cs) eqn:E.
  - apply existsb_exists in E as (c & Hc & E). apply byte_eqb_eq in E as <-.
    exfalso. apply (H a); [by apply list_elem_of_In | set_solver].
  - rewrite IH; [done|]. intros c Hc. specialize (H c Hc). set_solver.
Qed.

Lemma IndexAny_here s c t cs :
  (forall c, c ∈ cs -> c ∉ s) -> c ∈ cs -> IndexAny (s ++ c :: t) cs = Some (length s).
Proof.
  intros H Hc. induction s as [|a s IH]; cbn [app IndexAny].
  - assert (existsb (Byte.eqb c) cs = true) as ->; [|done].
    apply existsb_exists. exists c. split; [by apply list_elem_of_In | apply byte_eqb_refl].
  - destruct (existsb (Byte.eqb a) cs) eqn:E.
    + apply existsb_exists in E as (x & Hx & E). apply byte_eqb_eq in E as <-.
      exfalso. apply (H a); [by apply list_elem_of_In | set_solver].
    + rewrite IH; [done|]. intros x Hx. specialize (H x Hx). set_solver.
Qed.

Lemma Contains_none s sub c : c ∈ sub -> c ∉ s -> Contains s sub = false.
Proof. intros H1 H2. unfold Contains. by rewrite (Index_none s sub c). Qed.

Lemma slashes_plain id :
  forallb isCallIDRune id = true -> forall c, c ∈ "/?#"%go -> c ∉ id.
Proof.
  intros H c Hc. apply callID_plain; [done|].
  repeat (apply elem_of_cons in Hc as [->|Hc]; [done|]). by apply elem_of_nil in Hc.
Qed.

(** A bare id is accepted as it is. *)
Lemma extract_bare id :
  id <> [] -> forallb isCallIDRune id = true -> extractCallID id = Ok id.
Proof.
  intros Hne Hid. unfold extractCallID. assert (Hg := callID_graph id Hid).
  rewrite TrimSpace_graphs by done.
  assert (x2f ∉ id) as Hs by (by apply callID_plain).
  destruct (seqb_spec id []); [done|]. cbn [negb].
  rewrite !(Contains_none id _ x2f) by (done || set_solver).
  rewrite !(Index_none id _ x2f) by (done || set_solver). cbn [orb rbind].
  rewrite IndexAny_none by (by apply slashes_plain). rewrite TrimSpace_graphs by done.
  destruct (seqb_spec id []); [done|]. cbn [negb]. by rewrite Hid.
Qed.

Definition join_prefix : bytes := "https://vk.com/call/join/".

Lemma extract_link id tail :
  id <> [] -> forallb isCallIDRune id = true ->
  (tail = [] \/ exists c t, tail = c :: t /\ c ∈ "/?#"%go /\ forallb is_graph t = true) ->
  extractCallID (join_prefix ++ id ++ tail) = Ok id.
Proof.
  intros Hne Hid Htail. unfold extractCallID. assert (Hg := callID_graph id Hid).
  assert (forallb is_graph (id ++ tail) = true) as Hgt.
  { rewrite forallb_app, Hg. destruct Htail as [->|(c & t & -> & Hc & Ht)]; [done|]. cbn. rewrite Ht.
    repeat (apply elem_of_cons in Hc as [->|Hc]; [done|]). by apply elem_of_nil in Hc. }
  rewrite TrimSpace_graphs by (by rewrite forallb_app, Hgt).
  replace (join_prefix ++ id ++ tail =s? []) with false by done. cbn [negb].
  replace (Contains (join_prefix ++ id ++ tail) "/") with true by done. cbn [orb].
  replace (Index (join_prefix ++ id ++ tail) "://") with (Some 5%nat) by done.
  change (drop (5 + 3) (join_prefix ++ id ++ tail)) with ("vk.com/call/join/" ++ id ++ tail).
  replace (Index ("vk.com/call/join/" ++ id ++ tail) "join/") with (Some 12%nat) by done.
  change (drop (12 + 5) ("vk.com/call/join/" ++ id ++ tail)) with (id ++ tail). cbn [rbind].
  assert (match IndexAny (id ++ tail) "/?#" with Some i => take i (id ++ tail) | None => id ++ tail end = id) as ->.
  { destruct Htail as [->|(c & t & -> & Hc & Ht)].
    - rewrite app_nil_r. rewrite IndexAny_none; [done|]. by apply slashes_plain.
    - rewrite IndexAny_here by (done || by apply slashes_plain). by rewrite take_app_length. }
  rewrite TrimSpace_graphs by done. destruct (seqb_spec id []); [done|]. cbn [negb]. by rewrite Hid.
Qed.

Lemma extract_sound link id :
  extractCallID link = Ok id -> id <> [] /\ forallb isCallIDRune id = true.
Proof.
  unfold extractCallID. intros H. inv_result H. injection H as <-. bprop. split; [by apply seqb_neq|done].
Qed.

(** A call link yields a non-empty id of call-ID characters; the bare id
    and any invite link made of it, with or without a query or a fragment,
    yield the same id. *)
Theorem call_id_canonical link id :
  extractCallID link = Ok id ->
  id <> [] /\ forallb isCallIDRune id = true /\ extractCallID id = Ok id /\
  forall tail, (tail = [] \/ exists c t, tail = c :: t /\ c ∈ "/?#"%go /\ forallb is_graph t = true) ->
    extractCallID (join_prefix ++ id ++ tail) = Ok id.
Proof.
  intros H. apply extract_sound in H as [Hne Hid]. split_and!; [done|done|by apply extract_bare|].
  intros tail Ht. by apply extract_link.
Qed.

Lemma call_id_canonical_witness :
  extractCallID "http://vk.ru/call/join/a-B_9.z?utm_source=x" = Ok "a-B_9.z"%go /\
  let id := "a-B_9.z"%go in
  id <> [] /\ forallb isCallIDRune id = true /\ extractCallID id = Ok id /\
  forall tail, (tail = [] \/ exists c t, tail = c :: t /\ c ∈ "/?#"%go /\ forallb is_graph t = true) ->
    extractCallID (join_prefix ++ id ++ tail) = Ok id.
Proof.
  assert (extractCallID "http://vk.ru/call/join/a-B_9.z?utm_source=x" = Ok "a-B_9.z"%go) as H
    by (vm_compute; reflexivity).
  split; [done|]. apply (call_id_canonical _ _ H).
Defined.

(** ** What a complete handshake is

    The replies that count and what is read in them, by the JSON text VK sends
    and apart from the code that takes it to pieces. *)

(** The object of a reply with a status of success: the code reads 1 MiB. *)
Definition replied (o : http_outcome) (resp : list (bytes * json)) : Prop :=
  exists status line body, o = Replied status line body /\ (status < 400)%Z /\
    (Unmarshal_any (take (Z.to_nat (1024 * 1024)) body) = Some (JObj resp) \/
     (Unmarshal_any (take (Z.to_nat (1024 * 1024)) body) = Some JNull /\ resp = [])).

(** A reply without any of VK's shapes of an error. *)
Definition accepted (o : http_outcome) (resp : list (bytes * json)) : Prop :=
  replied o resp /\ jget resp "error_code" = None /\
  (forall e, jget resp "error" <> Some (JStr e)) /\ (forall e, jget resp "error" <> Some (JObj e)).

(** A reply that asks for a captcha, and its challenge. *)
Definition challenged (o : http_outcome) (ch : CaptchaChallenge) : Prop :=
  exists resp, replied o resp /\
    ((exists e, jget resp "error" = Some (JObj e) /\ SID ch = as_string (jget e "captcha_sid") /\
        ImgURL ch = as_string (jget e "captcha_img") /\ RedirectURI ch = as_string (jget e "redirect_uri")) \/
     (exists e, jget resp "error" = Some (JStr e) /\ (e = "need_captcha"%go \/ e = "captcha_required"%go) /\
        SID ch = as_string (jget resp "captcha_sid") /\ ImgURL ch = as_string (jget resp "captcha_img") /\
        RedirectURI ch = [])).

(** The value at the end of a path through objects. *)
Inductive at_path : json -> list bytes -> json -> Prop :=
| path_end j : at_path j [] j
| path_key l k ks j v : jget l k = Some j -> at_path j ks v -> at_path (JObj l) (k :: ks) v.

Definition captcha_fields : list bytes :=
  ["captcha_sid"%go; "captcha_key"%go; "is_sound_captcha"%go; "success_token"%go; "captcha_ts"%go;
   "captcha_attempt"%go].

(** The form that answers a challenge: the challenge's id, the token of the
    solution or, without one, its text, and otherwise the same request. *)
Definition answers (f : form) (ch : CaptchaChallenge) (sol : Solution) (f' : form) : Prop :=
  SID ch <> [] /\ form_get "captcha_sid" f' = Some (SID ch) /\
  (if decide (SuccessToken sol = [])
   then Key sol <> [] /\ form_get "captcha_key" f' = Some (Key sol) /\ form_get "success_token" f' = Some []
   else form_get "success_token" f' = Some (SuccessToken sol) /\ form_get "captcha_key" f' = Some [] /\
        (TS ch <> [] -> form_get "captcha_ts" f' = Some (TS ch)) /\
        ((0 < Attempt ch)%Z -> form_get "captcha_attempt" f' = Some (itoa (Attempt ch)))) /\
  (forall k, k ∉ captcha_fields -> form_get k f' = form_get k f).

(** Requests to one URL, each but the last refused with a challenge that the
    solver solved and the next request answers; the last gives [resp]. *)
Inductive exchange (E : env) (url : bytes) : list event -> form -> list event -> list (bytes * json) -> Prop :=
| ex_last pre f resp : accepted (e_http E pre url f) resp -> exchange E url pre f [Posted url f] resp
| ex_more pre f ch solve sol f' l resp :
    challenged (e_http E pre url f) ch -> e_solve E = Some solve ->
    solve (pre ++ [Posted url f]) ch = Ok sol -> answers f ch sol f' ->
    exchange E url (pre ++ [Posted url f; Solved ch]) f' l resp ->
    exchange E url pre f (Posted url f :: Solved ch :: l) resp.

(** A TURN URL's host and port: what is between its scheme and its query. *)
Definition turn_address (raw addr : bytes) : Prop :=
  (exists hp, SplitHostPort addr = Ok hp) /\ (x3f ∉ addr) /\
  exists scheme query, scheme ∈ [[]; "turns:"%go; "turn:"%go; "stun:"%go; "stuns:"%go] /\
    (query = [] \/ exists q, query = x3f :: q) /\ TrimSpace raw = scheme ++ addr ++ query.

(** The forms of the requests after the first, by the fields that come from
    earlier replies and the link. *)
Definition carries (f : form) (fields : list (bytes * bytes)) : Prop :=
  Forall (fun '(k, v) => form_get k f = Some v) fields.

(** The requests of a trace, and the captchas solved in it. *)
Definition is_posted (e : event) : bool := match e with Posted _ _ => true | _ => false end.
Definition n_posted (tr : list event) : nat := length (List.filter is_posted tr).
Definition n_solved (tr : list event) : nat := length (List.filter (fun e => negb (is_posted e)) tr).

Lemma n_posted_app l r : n_posted (l ++ r) = (n_posted l + n_posted r)%nat.
Proof. unfold n_posted. by rewrite List.filter_app, length_app. Qed.
Lemma n_solved_app l r : n_solved (l ++ r) = (n_solved l + n_solved r)%nat.
Proof. unfold n_solved. by rewrite List.filter_app, length_app. Qed.

(** A handshake for [callID], request by request, that yields [c]. *)
Definition handshake (E : env) (callID : bytes) (tr : list event) (c : Credentials) : Prop :=
  exists token1 token2 key l resp1 resp3 resp4 resp5 raw urls,
    let start := [Posted (step1_url E) (step1_form E); Posted (step2_url E) (step2_form E callID token1)] in
    let login := Posted (ok_url E) (step4_form E) in
    let join := step5_form callID token2 key in
    tr = start ++ l ++ [login; Posted (ok_url E) join] /\
    accepted (e_http E [] (step1_url E) (step1_form E)) resp1 /\
    at_path (JObj resp1) ["data"%go; "access_token"%go] (JStr token1) /\
    carries (step2_form E callID token1) [("access_token"%go, token1)] /\
    carries (step3_form E callID token1)
      [("access_token"%go, token1); ("vk_join_link"%go, "https://vk.com/call/join/" ++ callID)] /\
    exchange E (step3_url E) start (step3_form E callID token1) l resp3 /\
    (n_posted l <= 3)%nat /\ n_posted l = S (n_solved l) /\
    at_path (JObj resp3) ["response"%go; "token"%go] (JStr token2) /\
    accepted (e_http E (start ++ l) (ok_url E) (step4_form E)) resp4 /\
    at_path (JObj resp4) ["session_key"%go] (JStr key) /\
    carries join [("joinLink"%go, callID); ("anonymToken"%go, token2); ("session_key"%go, key)] /\
    accepted (e_http E (start ++ l ++ [login]) (ok_url E) join) resp5 /\
    at_path (JObj resp5) ["turn_server"%go; "username"%go] (JStr (Username c)) /\
    at_path (JObj resp5) ["turn_server"%go; "credential"%go] (JStr (Password c)) /\
    at_path (JObj resp5) ["turn_server"%go; "urls"%go] (JArr (JStr raw :: urls)) /\
    turn_address raw (ServerAddr c) /\ ExpiresIn c = 0%Z.

(** ** Forms *)

Lemma form_get_set k v f : form_get k (form_set k v f) = Some v.
Proof.
  induction f as [|[k' v'] f IH]; cbn; [by rewrite seqb_refl|].
  destruct (seqb_spec k' k) as [->|Hne]; cbn; [by rewrite seqb_refl|]. by rewrite (proj2 (seqb_neq k' k) Hne).
Qed.
Lemma form_get_other k k' v f : k' <> k -> form_get k (form_set k' v f) = form_get k f.
Proof.
  intros Hne. induction f as [|[k1 v1] f IH]; cbn; [by rewrite (proj2 (seqb_neq k' k) Hne)|].
  destruct (seqb_spec k1 k') as [->|H1]; cbn; [by rewrite (proj2 (seqb_neq k' k) Hne)|].
  by rewrite IH.
Qed.

Ltac form_fields := repeat first [rewrite form_get_set | rewrite form_get_other by done]; try done.

Lemma applySolution_answers f ch sol f' : applySolution f ch sol = Ok f' -> answers f ch sol f'.
Proof.
  unfold applySolution, answers. intros H. destruct (seqb_spec (SID ch) []) as [|Hs]; [done|]. cbn [negb] in H.
  split; [done|]. destruct (seqb_spec (SuccessToken sol) []) as [Ht|Ht]; cbn [negb] in H.
  - rewrite decide_True by done. destruct (seqb_spec (Key sol) []) as [|Hk]; [done|]. cbn [negb] in H.
    injection H as <-. split_and!; [by form_fields..|].
    intros k Hk'. unfold captcha_fields in Hk'. rewrite !form_get_other by set_solver. done.
  - rewrite decide_False by done. injection H as <-.
    destruct (seqb_spec (TS ch) []), (Z.ltb_spec 0 (Attempt ch));
      (split_and!; [by form_fields..|intros ?; first [done|lia|by form_fields]|intros ?; first [done|lia|by form_fields]|]);
      intros k Hk'; unfold captcha_fields in Hk'; rewrite !form_get_other by set_solver; done.
Qed.

(** ** The steps of a fetch *)

Section Fetch_correct.
Context (Quote : bytes -> bytes).

Lemma stop_or_ok {A B} (r : result error A) (k : A -> io (result error B)) tr tr' y :
  stop_or r k tr = (tr', Ok y) -> exists x, r = Ok x /\ k x tr = (tr', Ok y).
Proof. destruct r as [x|e]; cbn; [by exists x|done]. Qed.

Lemma then_io_eq {A B} (c : io A) (k : A -> io B) tr : then_io c k tr = k (snd (c tr)) (fst (c tr)).
Proof. unfold then_io. by destruct (c tr). Qed.

(** Step 3, whatever comes of it: at most [tries] requests and as many
    challenges; a token ends a run one challenge short of its requests. *)
Lemma step3_spec E url tries f last tr tr' r :
  step3 Quote E url tries f last tr = (tr', r) ->
  exists mid, tr' = tr ++ mid /\ (n_posted mid <= tries)%nat /\ (n_solved mid <= n_posted mid)%nat /\
    match r with Token _ => n_posted mid = S (n_solved mid) | Failed _ => True end.
Proof.
  revert f last tr. induction tries as [|tries IH]; intros f last tr H; cbn [step3] in H.
  { injection H as <- <-. exists []. split_and!; [by rewrite app_nil_r|cbn; lia..|done]. }
  unfold posting in H. destruct (post Quote (e_http E tr url f)) as [resp|[e|ch parent]].
  - injection H as <- <-. exists [Posted url f]. split_and!; done || (cbn; lia).
  - injection H as <- <-. exists [Posted url f]. split_and!; done || (cbn; lia).
  - destruct (e_solve E) as [solve|].
    2:{ injection H as <- <-. exists [Posted url f]. split_and!; done || (cbn; lia). }
    set (tr1 := tr ++ [Posted url f]) in *.
    assert (tr1 ++ [Solved ch] = tr ++ [Posted url f; Solved ch]) as E1 by (unfold tr1; by rewrite <-app_assoc).
    destruct (solve tr1 ch) as [sol|e].
    2:{ injection H as <- <-. exists [Posted url f; Solved ch]. split_and!; done || (cbn; lia). }
    destruct (applySolution f ch sol) as [f'|e].
    2:{ injection H as <- <-. exists [Posted url f; Solved ch]. split_and!; done || (cbn; lia). }
    destruct (IH _ _ _ H) as (mid & -> & Hp & Hs & Hr). exists (Posted url f :: Solved ch :: mid).
    assert (n_posted (Posted url f :: Solved ch :: mid) = S (n_posted mid)) as E2 by done.
    assert (n_solved (Posted url f :: Solved ch :: mid) = S (n_solved mid)) as E3 by done.
    rewrite E1, <-app_assoc, E2, E3. split_and!; [done|lia|lia|]. destruct r; [lia|done].
Qed.

(** What [post] lets through, and what it takes for a captcha. *)
Lemma post_ok o resp : post Quote o = Ok resp -> accepted o resp.
Proof.
  destruct o as [e|e|e|status line body]; try done. unfold post.
  destruct ((status =? 401)%Z || _)%bool; [done|]. destruct (Z.leb_spec 400 status); [done|].
  intros H0.
  assert (exists out, replied (Replied status line body) out /\
    match detectVKError Quote out with Some e => Err e | None => Ok out end = Ok resp) as (out & Hr & Hd).
  { destruct (Unmarshal_any _) as [[]|] eqn:Eu; try done; 
      (match type of H0 with context [detectVKError _ ?l] => exists l end; split; [|exact H0]);
      exists status, line, body; (split; [reflexivity|]); (split; [assumption|]);
      first [left; exact Eu | right; split; [exact Eu|reflexivity]]. }
  clear H0. unfold detectVKError in Hd. unfold accepted.
  destruct (jget out "error") as [[]|] eqn:Ee; try (by repeat case_match; simplify_eq/=);
    destruct (jget out "error_code") eqn:Ec; try (by repeat case_match; simplify_eq/=);
    injection Hd as <-; rewrite Ee, Ec; by split_and!.
Qed.

Lemma extractCaptcha_fields e ch : extractCaptcha e = Some ch ->
  SID ch = as_string (jget e "captcha_sid") /\ ImgURL ch = as_string (jget e "captcha_img") /\
  RedirectURI ch = as_string (jget e "redirect_uri").
Proof. unfold extractCaptcha. intros H. by repeat case_match; simplify_eq/=. Qed.

Lemma post_captcha o ch parent : post Quote o = Err (Captcha ch parent) -> challenged o ch.
Proof.
  destruct o as [e|e|e|status line body]; try done. unfold post.
  destruct ((status =? 401)%Z || _)%bool; [done|]. destruct (Z.leb_spec 400 status); [done|].
  intros H0.
  assert (exists out, replied (Replied status line body) out /\ detectVKError Quote out = Some (Captcha ch parent))
    as (out & Hr & Hd).
  { destruct (Unmarshal_any _) as [[]|] eqn:Eu; try done;
      match type of H0 with context [detectVKError _ ?l] => exists l end;
      (split; [exists status, line, body; (split; [reflexivity|]); (split; [assumption|]);
        first [left; exact Eu | right; split; [exact Eu|reflexivity]]|]); destruct (detectVKError _ _); [congruence|done]. }
  clear H0. exists out. split; [done|]. unfold detectVKError in Hd.
  destruct (jget out "error") as [[]|] eqn:Ee; try (by repeat case_match; simplify_eq/=).
  - right. destruct ((s =s? _) || _)%bool eqn:Eb; [|done]. destruct (_ && _)%bool; [done|]. injection Hd as <- _.
    exists s. apply orb_true_iff in Eb as [Eb|Eb]; apply seqb_eq in Eb; split_and!; auto.
  - left. destruct (is_code _ 14 || _)%bool; [|by repeat case_match].
    destruct (extractCaptcha l) as [ch'|] eqn:Ex; [|done]. injection Hd as -> _.
    exists l. split; [done|]. by apply extractCaptcha_fields.
Qed.

Lemma dig_path keys : forall cur j, dig cur keys = Some j -> at_path cur keys j.
Proof.
  induction keys as [|k keys IH]; intros cur j H; cbn [dig] in H; [injection H as ->; constructor|].
  destruct cur; try done. destruct (jget l k) eqn:E; [|done]. by econstructor; [|apply IH].
Qed.
Lemma digString_path resp keys x : digString resp keys = Ok x -> at_path (JObj resp) keys (JStr x).
Proof.
  unfold digString. intros H. apply dig_path. destruct (dig _ _) as [[]|]; try done. by injection H as ->.
Qed.
Lemma digSlice_path resp keys x : digSlice resp keys = Ok x -> at_path (JObj resp) keys (JArr x).
Proof.
  unfold digSlice. intros H. apply dig_path. destruct (dig _ _) as [[]|]; try done. by injection H as ->.
Qed.

Lemma drop_scheme_split ps : forall s, exists scheme, (scheme = [] \/ scheme ∈ ps) /\ s = scheme ++ drop_scheme ps s.
Proof.
  induction ps as [|p ps IH]; intros s; cbn [drop_scheme]; [exists []; auto|].
  destruct (cut_prefix p s) as [t|] eqn:E.
  - apply cut_prefix_Some in E. exists p. split; [right; set_solver|done].
  - destruct (IH s) as (scheme & [->|H] & Hs); [by exists []; auto|]. exists scheme. split; [right; set_solver|done].
Qed.

Lemma parseTurnURL_ok raw addr : parseTurnURL raw = Ok addr -> turn_address raw addr.
Proof.
  unfold parseTurnURL. destruct (drop_scheme_split ["turns:"%go; "turn:"%go; "stun:"%go; "stuns:"%go] (TrimSpace raw))
    as (scheme & Hsch & Hraw).
  set (rest := drop_scheme _ _) in *. clearbody rest. intros H. inv_result H.
  destruct (SplitHostPort _) as [hp|] eqn:Es; [|done].
  injection H as <-. split; [by exists hp|]. clear Es.
  assert (scheme ∈ [[]; "turns:"%go; "turn:"%go; "stun:"%go; "stuns:"%go]) as Hin
    by (apply elem_of_cons; destruct Hsch; auto).
  destruct (IndexByte rest "?") as [i|] eqn:Ei.
  - apply IndexByte_Some in Ei as [Ei Hn]. split; [done|]. exists scheme, (x3f :: drop (S i) rest).
    split; [done|]. split; [by right; eexists|]. by rewrite Hraw, Ei at 1.
  - apply IndexByte_None in Ei. split; [done|]. exists scheme, []. split; [done|]. split; [by left|].
    by rewrite app_nil_r.
Qed.

Lemma turn_creds_ok resp user pass addr : turn_creds resp = Ok (user, pass, addr) ->
  exists raw urls, at_path (JObj resp) ["turn_server"%go; "username"%go] (JStr user) /\
    at_path (JObj resp) ["turn_server"%go; "credential"%go] (JStr pass) /\
    at_path (JObj resp) ["turn_server"%go; "urls"%go] (JArr (JStr raw :: urls)) /\ turn_address raw addr.
Proof.
  unfold turn_creds. intros H.
  destruct (digString resp ["turn_server"%go; "username"%go]) as [u|] eqn:Eu; [|done]. cbn [rwrap rbind] in H.
  destruct (digString resp ["turn_server"%go; "credential"%go]) as [p|] eqn:Ep; [|done]. cbn [rwrap rbind] in H.
  destruct (digSlice resp _) as [us|] eqn:Es; [|done]. cbn [rwrap rbind] in H.
  destruct us as [|[] urls]; try done. destruct (parseTurnURL s) as [a|] eqn:Ea; [|done]. cbn [rwrap rbind] in H.
  injection H as <- <- <-. exists s, urls.
  split_and!; [by apply digString_path..|by apply digSlice_path|by apply parseTurnURL_ok].
Qed.

Lemma step3_exchange E url tries : forall f last tr tr' resp,
  step3 Quote E url tries f last tr = (tr', Token resp) ->
  exists l, tr' = tr ++ l /\ exchange E url tr f l resp /\ (n_posted l <= tries)%nat /\ n_posted l = S (n_solved l).
Proof.
  induction tries as [|tries IH]; intros f last tr tr' resp H; cbn [step3] in H; [done|].
  unfold posting in H. destruct (post Quote (e_http E tr url f)) as [r1|[e|ch parent]] eqn:Ep; [|done|].
  - injection H as <- <-. exists [Posted url f].
    split_and!; [done|constructor; by apply post_ok|cbn; lia|done].
  - destruct (e_solve E) as [solve|] eqn:Eso; [|done]. destruct (solve _ ch) as [sol|] eqn:Es; [|done].
    destruct (applySolution f ch sol) as [f'|] eqn:Ea; [|done].
    apply IH in H as (l & -> & Hl & Hp & Hn). rewrite <-!app_assoc in *. cbn [app] in *.
    exists (Posted url f :: Solved ch :: l).
    change (n_posted (Posted url f :: Solved ch :: l)) with (S (n_posted l)).
    change (n_solved (Posted url f :: Solved ch :: l)) with (S (n_solved l)).
    split_and!; [done| |lia|lia].
    econstructor; [by eapply post_captcha|done|exact Es|by apply applySolution_answers|done].
Qed.

Lemma rwrap_Ok {X Y A} (w : X -> Y) (x : result X A) (a : A) : rwrap w x = Ok a -> x = Ok a.
Proof. destruct x; cbn; congruence. Qed.

(** A fetch that succeeds went through the handshake. *)
Lemma fetchTurn_ok E callID tr user pass addr :
  fetchTurn Quote E callID [] = (tr, Ok (user, pass, addr)) ->
  handshake E callID tr (mkCredentials user pass addr 0).
Proof.
  unfold fetchTurn. rewrite then_io_eq. cbn [posting fst snd app]. intros H.
  apply stop_or_ok in H as (resp1 & H1 & H). apply stop_or_ok in H as (token1 & Ht1 & H).
  rewrite then_io_eq in H. cbn [posting fst snd app] in H. rewrite then_io_eq in H.
  destruct (step3 _ _ _ _ _ _ _) as [tr3 r3] eqn:E3. cbn [fst snd] in H.
  apply stop_or_ok in H as (resp3 & H3 & H). destruct r3 as [resp|e]; [|done]. injection H3 as ->.
  apply step3_exchange in E3 as (l & -> & Hx & Hp & Hn).
  apply stop_or_ok in H as (token2 & Ht2 & H). rewrite then_io_eq in H. cbn [posting fst snd] in H.
  apply stop_or_ok in H as (resp4 & H4 & H). apply stop_or_ok in H as (key & Hk & H).
  rewrite then_io_eq in H. cbn [posting fst snd] in H. apply stop_or_ok in H as (resp5 & H5 & H).
  injection H as <- H. apply turn_creds_ok in H as (raw & urls & Hu & Hc & Hl & Ha).
  exists token1, token2, key, l, resp1, resp3, resp4, resp5, raw, urls. cbn zeta.
  apply rwrap_Ok in H1, Ht1, Ht2, H4, Hk, H5. rewrite <-!app_assoc in *. cbn [app] in *.
  split_and!; try done; try (by apply post_ok); try (by apply digString_path); by repeat constructor.
Qed.

Ltac ran := let H := fresh in intros H;
  match type of H with (?t, ?x) = (?tr, ?r) =>
    assert (tr = t) as -> by congruence; assert (r = x) as -> by congruence end; clear H.

(** Every run keeps within the budget of requests and challenges. *)
Lemma fetchTurn_budget E callID tr r :
  fetchTurn Quote E callID [] = (tr, r) ->
  (n_posted tr <= 7)%nat /\ (n_solved tr <= 3)%nat /\ (is_ok r = true -> (n_solved tr <= 2)%nat).
Proof.
  unfold fetchTurn. rewrite then_io_eq. cbn [posting fst snd app].
  destruct (post Quote _) as [resp1|e]; cbn [rwrap stop_or]; [|ran; cbn; split_and!; lia || done].
  destruct (digString resp1 _) as [token1|e]; cbn [rwrap stop_or]; [|ran; cbn; split_and!; lia || done].
  rewrite then_io_eq. cbn [posting fst snd app]. rewrite then_io_eq.
  destruct (step3 _ _ _ _ _ _ _) as [tr3 r3] eqn:E3. cbn [fst snd].
  apply step3_spec in E3 as (mid & -> & Hp & Hs & Hr). unfold maxCaptchaAttempts in Hp.
  assert (forall l, n_posted ([Posted (step1_url E) (step1_form E);
    Posted (step2_url E) (step2_form E callID token1)] ++ l) = S (S (n_posted l))) as Hc1 by done.
  assert (forall l, n_solved ([Posted (step1_url E) (step1_form E);
    Posted (step2_url E) (step2_form E callID token1)] ++ l) = n_solved l) as Hc2 by done.
  destruct r3 as [resp|e]; cbn [stop_or].
  2:{ ran. rewrite Hc1, Hc2. split_and!; lia || done. }
  assert (Hn := Hr).
  destruct (digString resp _) as [token2|e]; cbn [rwrap stop_or].
  2:{ ran. rewrite Hc1, Hc2. split_and!; lia || done. }
  rewrite then_io_eq. cbn [posting fst snd].
  destruct (post Quote _) as [resp4|e]; cbn [rwrap stop_or].
  2:{ ran. rewrite <-app_assoc, Hc1, Hc2, n_posted_app, n_solved_app. cbn. split_and!; lia || done. }
  destruct (digString resp4 _) as [key|e]; cbn [rwrap stop_or].
  2:{ ran. rewrite <-app_assoc, Hc1, Hc2, n_posted_app, n_solved_app. cbn. split_and!; lia || done. }
  rewrite then_io_eq. cbn [posting fst snd].
  destruct (post Quote _) as [resp5|e]; cbn [rwrap stop_or]; ran;
    rewrite <-!app_assoc, Hc1, Hc2, !n_posted_app, !n_solved_app; cbn; split_and!; lia.
Qed.

(** A failure of step 3 right after a request is that request's. *)
Lemma step3_cause E url tries f last tr tr0 u g e e' :
  (tries <> O \/ exists t ch, tr = t ++ [Solved ch]) ->
  step3 Quote E url tries f last tr = (tr0 ++ [Posted u g], Failed e') ->
  post Quote (e_http E tr0 u g) = Err (Plain e) -> e' = Errorf_w "step3 anon token: " e.
Proof.
  revert f last tr. induction tries as [|tries IH]; intros f last tr Hne H He; cbn [step3] in H.
  { injection H as H _. destruct Hne as [|(t & ch & ->)]; [done|]. apply app_inj_tail in H as [_ H]. done. }
  unfold posting in H. destruct (post Quote (e_http E tr url f)) as [resp|[e1|ch parent]] eqn:Ep.
  - done.
  - injection H as H <-. apply app_inj_tail in H as [<- H]. injection H as <- <-. congruence.
  - destruct (e_solve E) as [solve|].
    2:{ injection H as H _. apply app_inj_tail in H as [<- H]. injection H as <- <-. congruence. }
    destruct (solve _ ch) as [sol|e1].
    2:{ injection H as H _. by apply app_inj_tail in H as [_ H]. }
    destruct (applySolution f ch sol) as [f'|e1].
    2:{ injection H as H _. by apply app_inj_tail in H as [_ H]. }
    apply (IH _ _ _ ltac:(right; by eexists _, _) H He).
Qed.

(** A token comes from the last request. *)
Lemma step3_token E url tries f last tr tr' resp :
  step3 Quote E url tries f last tr = (tr', Token resp) ->
  exists tr1 f1, tr' = tr1 ++ [Posted url f1] /\ post Quote (e_http E tr1 url f1) = Ok resp.
Proof.
  revert f last tr. induction tries as [|tries IH]; intros f last tr H; cbn [step3] in H; [done|].
  unfold posting in H. destruct (post Quote (e_http E tr url f)) as [resp1|[e1|ch parent]] eqn:Ep; [|done|].
  - exists tr, f. split; congruence.
  - destruct (e_solve E) as [solve|]; [|done]. destruct (solve _ ch) as [sol|]; [|done].
    destruct (applySolution f ch sol) as [f'|]; [|done]. by apply IH in H.
Qed.

(** What the callers of [Fetch] read off an error: its sentinels and whether
    its text means a rate limit. *)
Definition same_cause (e e' : error) : Prop :=
  error_is e' = error_is e /\ (IsRateLimitError (Some e) = true -> IsRateLimitError (Some e') = true) /\
  (IsAuthError (Some e) = true -> IsAuthError (Some e') = true).

Lemma same_cause_wrap pre e : same_cause e (Errorf_w pre e).
Proof. split; [done|]. split; [apply IsRateLimitError_wrap | apply IsAuthError_wrap]. Qed.

Lemma fetchTurn_cause E callID tr0 u g e e' :
  fetchTurn Quote E callID [] = (tr0 ++ [Posted u g], Err e') ->
  post Quote (e_http E tr0 u g) = Err (Plain e) -> same_cause e e'.
Proof.
  intros H He. unfold fetchTurn in H. rewrite then_io_eq in H. cbn [posting fst snd app] in H.
  assert (forall tr1 u1 g1 pre (e1 : vk_error),
    tr1 ++ [Posted u1 g1] = tr0 ++ [Posted u g] -> post Quote (e_http E tr1 u1 g1) = Err e1 ->
    same_cause e (step_error pre e1)) as Hstop.
  { intros tr1 u1 g1 pre e1 Heq Hp. apply app_inj_tail in Heq as [<- Heq]. injection Heq as <- <-.
    rewrite He in Hp. injection Hp as <-. apply same_cause_wrap. }
  assert (forall tr1 u1 g1 resp, tr1 ++ [Posted u1 g1] = tr0 ++ [Posted u g] ->
    post Quote (e_http E tr1 u1 g1) = Ok resp -> False) as Hgo.
  { intros tr1 u1 g1 resp Heq Hp. apply app_inj_tail in Heq as [<- Heq]. injection Heq as <- <-. congruence. }
  destruct (post Quote (e_http E [] _ _)) as [resp1|e1] eqn:E1; cbn [rwrap stop_or] in H.
  2:{ injection H as H <-. apply (Hstop [] (step1_url E) (step1_form E)); done. }
  destruct (digString resp1 _) as [token1|e1]; cbn [rwrap stop_or] in H.
  2:{ injection H as H _. exfalso. by apply (Hgo [] (step1_url E) (step1_form E) resp1). }
  rewrite then_io_eq in H. cbn [posting fst snd app] in H. rewrite then_io_eq in H.
  destruct (step3 _ _ _ _ _ _ _) as [tr3 r3] eqn:E3. cbn [fst snd] in H.
  destruct r3 as [resp3|e3]; cbn [stop_or] in H.
  2:{ injection H as -> <-. apply (step3_cause _ _ _ _ _ _ _ _ _ e) in E3 as ->; [|by left|done].
      apply same_cause_wrap. }
  destruct (digString resp3 _) as [token2|e3]; cbn [rwrap stop_or] in H.
  2:{ apply step3_token in E3 as (tr1 & f1 & -> & Hp). injection H as H _. exfalso. by eapply Hgo. }
  rewrite then_io_eq in H. cbn [posting fst snd] in H.
  destruct (post Quote (e_http E tr3 _ _)) as [resp4|e4] eqn:E4; cbn [rwrap stop_or] in H.
  2:{ injection H as H <-. by apply (Hstop tr3 (ok_url E) (step4_form E)). }
  destruct (digString resp4 _) as [key|e4]; cbn [rwrap stop_or] in H.
  2:{ injection H as H _. exfalso. by eapply Hgo. }
  rewrite then_io_eq in H. cbn [posting fst snd] in H.
  destruct (post Quote (e_http E (tr3 ++ _) _ _)) as [resp5|e5] eqn:E5; cbn [rwrap stop_or] in H.
  - injection H as H _. exfalso. by eapply Hgo.
  - injection H as H <-. by eapply Hstop.
Qed.
End Fetch_correct.

(** ** Theorems *)

(** C22.  Credentials come only from a complete handshake for the call of the
    link.  Its requests are, in order: the anonymous token; the preview with
    that token; one to three requests for the call's token with the anonymous
    one, each but the last refused with a challenge that the solver solved and
    that the next request answers with its id and the solution, otherwise the
    same request; the login; and the join, with the call's id, the token the
    last of those requests gave and the login's session key.  The replies that
    count have a status of success and none of VK's errors, each token is the
    one in the reply before, and user, password and the host and port of the
    first TURN URL are the join's. *)
Theorem fetch_success Quote E hint tr c :
  Fetch Quote E hint = (tr, Ok c) ->
  exists callID, extractCallID hint = Ok callID /\ handshake E callID tr c.
Proof.
  unfold Fetch. destruct (extractCallID hint) as [callID|e]; [|done].
  destruct (fetchTurn Quote E callID []) as [tr1 [[[user pass] addr]|e]] eqn:Ef; [|done].
  intros H. assert (tr = tr1) as -> by congruence.
  assert (c = mkCredentials user pass addr 0) as -> by congruence.
  exists callID. split; [done|]. by eapply fetchTurn_ok.
Qed.

(** A fetch makes at most seven requests and shows at most three captchas
    to the solver, of which at most two solutions can lead to credentials. *)
Theorem captcha_budget Quote E hint tr r :
  Fetch Quote E hint = (tr, r) ->
  (n_posted tr <= 7)%nat /\ (n_solved tr <= 3)%nat /\ (is_ok r = true -> (n_solved tr <= 2)%nat).
Proof.
  unfold Fetch. destruct (extractCallID hint) as [callID|e].
  2:{ intros [= <- <-]. cbn. split_and!; lia || done. }
  destruct (fetchTurn Quote E callID []) as [tr1 r1] eqn:Ef. apply fetchTurn_budget in Ef as (H1 & H2 & H3).
  intros H. assert (tr = tr1) as -> by congruence. split_and!; [done|done|].
  destruct r1 as [[[user pass] addr]|e]; [intros _; by apply H3|].
  assert (r = Err e) as -> by congruence. done.
Qed.

Lemma is_code_29 f : is_code f 29 = true -> f = f64_of_Z 29.
Proof.
  unfold is_code, SFeqb. set (n := f64_of_Z 29). vm_compute in n. subst n.
  destruct f as [[]|[]| |[] m e]; try done. cbn [SFcompare].
  destruct (Z.compare_spec e (-48)) as [->| |]; try done.
  match goal with |- context [Pos.compare_cont Eq m ?x] => destruct (Pos.compare_cont Eq m x) eqn:Ec end; try done.
  apply Pos.compare_eq in Ec. by subst.
Qed.

(** Code 29 in an error object, not disguised as a captcha. *)
Lemma detect_rate_limit Quote resp e :
  jget resp "error" = Some (JObj e) -> is_code (as_float (jget e "error_code")) 29 = true ->
  as_string (jget e "error_msg") <> captchaNeededMsg ->
  exists err, detectVKError Quote resp = Some (Plain err) /\ IsRateLimitError (Some err) = true.
Proof.
  intros Hr Hc Hm. unfold detectVKError. rewrite Hr.
  apply is_code_29 in Hc. rewrite Hc.
  replace (is_code (f64_of_Z 29) 14) with false by (by vm_compute).
  destruct (seqb_spec (as_string (jget e "error_msg")) captchaNeededMsg); [done|]. cbn [orb].
  replace (is_code (f64_of_Z 29) 5 || is_code (f64_of_Z 29) 15 || is_code (f64_of_Z 29) 17) with false by (by vm_compute).
  eexists. split; [done|]. cbn [IsRateLimitError]. apply orb_true_iff. left.
  unfold errors_New, code_msg. cbn [error_text].
  replace (itoa (f64_to_int (f64_of_Z 29))) with "29"%go by (by vm_compute).
  change ("vk error " ++ "code=" ++ "29" ++ " msg=" ++ Quote (as_string (jget e "error_msg")))
    with ("vk error " ++ "code=29" ++ (" msg=" ++ Quote (as_string (jget e "error_msg")))).
  apply Contains_app.
Qed.

(** When the request that ends a fetch is answered with VK's error 29
    (rate limited), the stream that asked pauses for the long backoff. *)
Theorem rate_limit_pauses Quote E hint tr u g err st body resp eo :
  Fetch Quote E hint = (tr ++ [Posted u g], Err err) ->
  e_http E tr u g = Replied 200 st body ->
  Unmarshal_any (take (Z.to_nat (1024 * 1024)) body) = Some (JObj resp) ->
  jget resp "error" = Some (JObj eo) -> is_code (as_float (jget eo "error_code")) 29 = true ->
  as_string (jget eo "error_msg") <> captchaNeededMsg ->
  backoff (Errorf_w "creds: " err) = (15 * Second)%Z.
Proof.
  intros HF Hh Hu Hr Hc Hm. unfold Fetch in HF. destruct (extractCallID hint) as [callID|e].
  2:{ exfalso. assert ([] = tr ++ [Posted u g]) as E0 by congruence. by destruct tr. }
  destruct (fetchTurn Quote E callID []) as [tr1 r1] eqn:Ef.
  assert (tr1 = tr ++ [Posted u g]) as -> by congruence.
  destruct r1 as [[[user pass] addr]|e1]; [congruence|]. assert (e1 = err) as -> by congruence.
  destruct (detect_rate_limit Quote resp eo Hr Hc Hm) as (e2 & Hd & Hl).
  assert (post Quote (e_http E tr u g) = Err (Plain e2)) as Hp.
  { rewrite Hh. unfold post. cbn [Z.eqb orb Z.leb]. rewrite Hu. by rewrite Hd. }
  destruct (fetchTurn_cause Quote E callID tr u g e2 err Ef Hp) as (_ & Hrl & _).
  unfold backoff. by rewrite IsRateLimitError_wrap by (by apply Hrl).
Qed.

(** ** Concrete runs *)

(** JSON text with its quotes written as apostrophes. *)
Definition js (s : bytes) : bytes := map (fun c => if Byte.eqb c "'" then x22 else c) s.

Definition ok_body (s : bytes) : http_outcome := Replied 200 "OK" (js s).
Definition captcha_body : http_outcome :=
  ok_body "{'error':{'error_code':14,'error_msg':'Captcha needed','captcha_sid':'77','captcha_img':'i','captcha_ts':1.5,'captcha_attempt':2}}".
Definition limited_body : bytes := js "{'error':{'error_code':29,'error_msg':'Rate limit reached'}}".

(** A service that asks for [n] captchas. *)
Definition ask_http (n : nat) (tr : list event) (u : bytes) (f : form) : http_outcome :=
  let k := length tr in
  match k with
  | O => ok_body "{'data':{'access_token':'t1'}}"
  | S O => ok_body "{}"
  | _ =>
    if (k <? 2 * n + 2)%nat then captcha_body
    else if (k =? 2 * n + 2)%nat then ok_body "{'response':{'token':'t2'}}"
    else if (k =? 2 * n + 3)%nat then ok_body "{'session_key':'s'}"
    else ok_body "{'turn_server':{'username':'u','credential':'p','urls':['turn:1.2.3.4:3478?transport=udp','x']}}"
  end.
(** A service that turns the third request down with a rate limit. *)
Definition limit_http (tr : list event) (u : bytes) (f : form) : http_outcome :=
  match tr with
  | [] => ok_body "{'data':{'access_token':'t1'}}"
  | [_] => ok_body "{}"
  | _ => Replied 200 "OK" limited_body
  end.
Definition sample_env (http : list event -> bytes -> form -> http_outcome) (sol : Solution) : env :=
  mkEnv http (Some (fun _ _ => Ok sol)) "Guest" "dev" "1" "2" defaultHosts.
Definition sample_link : bytes := " https://vk.com/call/join/Ab-1?x=y ".
Definition sample_token : Solution := mkSolution [] "tok".

Lemma fetch_success_witness :
  exists tr c, Fetch dq (sample_env (ask_http 1) sample_token) sample_link = (tr, Ok c) /\
  c = mkCredentials "u" "p" "1.2.3.4:3478" 0 /\ length tr = 7%nat /\
  exists callID, extractCallID sample_link = Ok callID /\
    handshake (sample_env (ask_http 1) sample_token) callID tr c.
Proof.
  assert (exists tr c, Fetch dq (sample_env (ask_http 1) sample_token) sample_link = (tr, Ok c) /\
    c = mkCredentials "u" "p" "1.2.3.4:3478" 0 /\ length tr = 7%nat) as (tr & c & H & H1 & H2).
  { eexists _, _. split; [vm_compute; reflexivity|]. split; vm_compute; reflexivity. }
  exists tr, c. split; [exact H|]. split; [exact H1|]. split; [exact H2|].
  exact (fetch_success dq _ sample_link tr c H).
Defined.

Lemma captcha_budget_witness :
  exists tr r, Fetch dq (sample_env (ask_http 3) sample_token) sample_link = (tr, r) /\ is_ok r = false /\
  n_solved tr = 3%nat /\ (n_posted tr <= 7)%nat /\ (n_solved tr <= 3)%nat /\ (is_ok r = true -> (n_solved tr <= 2)%nat).
Proof.
  assert (exists tr r, Fetch dq (sample_env (ask_http 3) sample_token) sample_link = (tr, r) /\ is_ok r = false /\
    n_solved tr = 3%nat) as (tr & r & H & H1 & H2).
  { eexists _, _. split; [vm_compute; reflexivity|]. split; vm_compute; reflexivity. }
  exists tr, r. split; [exact H|]. split; [exact H1|]. split; [exact H2|].
  exact (captcha_budget dq _ sample_link tr r H).
Defined.

Lemma rate_limit_pauses_witness :
  exists tr u g err, Fetch dq (sample_env limit_http sample_token) sample_link = (tr ++ [Posted u g], Err err) /\
  backoff (Errorf_w "creds: " err) = (15 * Second)%Z.
Proof.
  assert (exists tr u g err, Fetch dq (sample_env limit_http sample_token) sample_link = (tr ++ [Posted u g], Err err) /\
    length tr = 2%nat /\ limit_http tr u g = Replied 200 "OK" limited_body) as (tr & u & g & err & H & H1 & H2).
  { exists [Posted (step1_url (sample_env limit_http sample_token)) (step1_form (sample_env limit_http sample_token));
            Posted (step2_url (sample_env limit_http sample_token)) (step2_form (sample_env limit_http sample_token) "Ab-1" "t1")].
    eexists _, _, _. split; [vm_compute; reflexivity|]. split; vm_compute; reflexivity. }
  exists tr, u, g, err. split; [exact H|].
  apply (rate_limit_pauses dq (sample_env limit_http sample_token) sample_link tr u g err "OK" limited_body
    [("error"%go, JObj [("error_code"%go, JNum "29"); ("error_msg"%go, JStr "Rate limit reached")])]
    [("error_code"%go, JNum "29"); ("error_msg"%go, JStr "Rate limit reached")]).
  - exact H.
  - exact H2.
  - vm_compute. reflexivity.
  - vm_compute. reflexivity.
  - vm_compute. reflexivity.
  - vm_compute. discriminate.
Defined.

(** With three captchas the solver is consulted three times and the third
    solution is never sent: the last event is the solver's. *)
Example third_solution_unused :
  exists tr ch r, Fetch dq (sample_env (ask_http 3) sample_token) sample_link = (tr ++ [Solved ch], r) /\ n_posted tr = 5%nat.
Proof.
  pose (run := Fetch dq (sample_env (ask_http 3) sample_token) sample_link).
  assert (exists ch, run = (removelast (fst run) ++ [Solved ch], snd run)) as [ch H].
  { eexists. vm_compute. reflexivity. }
  exists (removelast (fst run)), ch, (snd run). split; [exact H|]. vm_compute. reflexivity.
Qed.

(** A text answer after a token answer keeps two fields of token mode. *)
Example text_retry_keeps_token_fields :
  let ch := mkChallenge "77" "i" [] 2 "1.5" in
  exists f1 f2, applySolution [] ch (mkSolution [] "tok") = Ok f1 /\ applySolution f1 ch (mkSolution "abc" []) = Ok f2 /\
  form_get "success_token" f2 = Some [] /\ form_get "captcha_ts" f2 = Some "1.5"%go /\
  form_get "captcha_attempt" f2 = Some "2"%go.
Proof. eexists _, _. split; [reflexivity|]. split; [reflexivity|]. vm_compute. done. Qed.

Example parse_turn_1 : parseTurnURL "turn:1.2.3.4:3478?transport=udp" = Ok "1.2.3.4:3478"%go.
Proof. vm_compute. reflexivity. Qed.

Example sscanf_1 : (sscanf_d " 12x", sscanf_d "-3", sscanf_d "x1", sscanf_d (x0a :: "1"%go)) = (Some 12%Z, Some (-3)%Z, None, None).
Proof. vm_compute. reflexivity. Qed.
