(* ===== verification/HostSetup.v ===== *)
(** * cmd/wgturn-cli: from a configuration file to a configured host

    connect.go's [buildKernelConfig], the glue between wgconf and wgkernel,
    and hostsetup.go, which sets the interface up by running [ip] and rolls
    everything back when one of its commands fails.  The machine [ip] works
    on is a parameter: a type of host states and what each command does. *)

From S2P Require Import Prelude GoStrings GoErrors NetIP WgConf WgKernel.

(** ** connect.go *)

Inductive build_error := NoPrivateKey | NoPeers | NoPublicKey (peer : nat).

Definition kernel_peer (p : PeerSection) : PeerConfig :=
  mkPeerConfig (pr_PublicKey p) (pr_PresharedKey p) (pr_Endpoint p) (pr_AllowedIPs p) (pr_PersistentKeepalive p).

Fixpoint build_peers (i : nat) (ps : list PeerSection) : result build_error (list PeerConfig) :=
  match ps with
  | [] => Ok []
  | p :: ps =>
      guard negb (pr_PublicKey p =s? []) else NoPublicKey i in
      let* l := build_peers (S i) ps in Ok (kernel_peer p :: l)
  end.

Definition buildKernelConfig (s : Settings) : result build_error Config :=
  guard negb (if_PrivateKey (Iface s) =s? []) else NoPrivateKey in
  guard negb (length (WGPeers s) =? 0)%nat else NoPeers in
  let* peers := build_peers 0 (WGPeers s) in
  Ok (mkConfig (if_PrivateKey (Iface s)) (if_Address (Iface s)) (if_ListenPort (Iface s))
        (if_MTU (Iface s)) (if_DNS (Iface s)) peers).

(** ** hostsetup.go *)

Definition isCoveredByConnectedRoute (prefix : Prefix) (addrs : list Prefix) : bool :=
  let want := Masked prefix in
  existsb (fun a =>
    let ap := Masked a in
    bool_decide (ap = want) ||
    ((pf_bits ap <=? pf_bits prefix)%Z && Prefix_Contains ap (pf_addr prefix)
     && Bool.eqb (Is4 (pf_addr ap)) (Is4 (pf_addr prefix)))) addrs.

(** A command of [ip]: its arguments. *)
Abbreviation command := (list bytes).

Definition link_up (iface : bytes) : command := ["link"%go; "set"%go; iface; "up"%go].
Definition link_down (iface : bytes) : command := ["link"%go; "set"%go; iface; "down"%go].
Definition addr_cmd (verb : bytes) (a : Prefix) (iface : bytes) : command :=
  ["addr"%go; verb; Prefix_String a; "dev"%go; iface].
Definition route_cmd (verb : bytes) (a : Prefix) (iface : bytes) : command :=
  ["route"%go; verb; Prefix_String a; "dev"%go; iface].

Section Host.
(** What running [ip] does to the host: the new state, and the error with the
    output when it fails. *)
Context {H : Type} (ip : H -> command -> H * option (error * bytes)).

Definition runIP (h : H) (args : command) : H * result error unit :=
  match ip h args with
  | (h, None) => (h, Ok tt)
  | (h, Some (err, out)) =>
      (h, Err (mkError ("ip " ++ Join args " " ++ ": " ++ error_text err ++ " (" ++ TrimSpace out ++ ")")
                 (error_is err)))
  end.

(** The closures of [rollbacks], by the command each runs; [rollback] runs
    the last one first and ignores failures. *)
Definition rollback (rollbacks : list command) (h : H) : H :=
  fold_left (fun h undo => fst (runIP h undo)) (rev rollbacks) h.

(** The host and [rollbacks]; an operation that fails has rolled back. *)
Definition setup A := H * list command -> (H * list command) * result error A.
Definition ret {A} (x : A) : setup A := fun s => (s, Ok x).
Definition bind {A B} (c : setup A) (k : A -> setup B) : setup B :=
  fun s => let '(s, r) := c s in match r with Ok x => k x s | Err e => (s, Err e) end.

(** Run [cmd]; register [undo], or roll back. *)
Definition attempt (pre : bytes) (cmd undo : command) : setup unit :=
  fun '(h, rollbacks) =>
  let '(h, r) := runIP h cmd in
  match r with
  | Ok _ => ((h, rollbacks ++ [undo]), Ok tt)
  | Err e => ((rollback rollbacks h, rollbacks), Err (Errorf_w pre e))
  end.

Fixpoint add_addrs (iface : bytes) (addrs : list Prefix) : setup unit :=
  match addrs with
  | [] => ret tt
  | a :: addrs =>
      bind (attempt ("addr add " ++ Prefix_String a ++ ": ") (addr_cmd "add" a iface) (addr_cmd "del" a iface))
        (fun _ => add_addrs iface addrs)
  end.

(** One peer's prefixes, with the set [seen] so far. *)
Fixpoint add_routes (iface : bytes) (addrs : list Prefix) (seen : list Prefix) (aips : list Prefix) : setup (list Prefix) :=
  match aips with
  | [] => ret seen
  | aip :: aips =>
      if bool_decide (aip ∈ seen) then add_routes iface addrs seen aips
      else
        let seen := aip :: seen in
        if isCoveredByConnectedRoute aip addrs then add_routes iface addrs seen aips
        else
          bind (attempt ("route add " ++ Prefix_String aip ++ ": ") (route_cmd "add" aip iface) (route_cmd "del" aip iface))
            (fun _ => add_routes iface addrs seen aips)
  end.
Fixpoint add_peers (iface : bytes) (addrs : list Prefix) (seen : list Prefix) (peers : list PeerConfig) : setup unit :=
  match peers with
  | [] => ret tt
  | p :: peers => bind (add_routes iface addrs seen (pc_AllowedIPs p)) (fun seen => add_peers iface addrs seen peers)
  end.

(** The host after, and the commands of the teardown on success. *)
Definition setupHostIfaceLinux (iface : bytes) (cfg : Config) (h : H) : H * result error (list command) :=
  let '((h, rollbacks), r) :=
    bind (attempt "link set up: " (link_up iface) (link_down iface)) (fun _ =>
    bind (add_addrs iface (Address cfg)) (fun _ =>
    add_peers iface (Address cfg) [] (Peers cfg))) (h, []) in
  (h, match r with Ok _ => Ok rollbacks | Err e => Err e end).

Definition goosLinux : bytes := "linux".

(** [errHostSetupUnsupported] with the system's name, or the failure of a
    command. *)
Inductive setup_error := HostSetupUnsupported (goos : bytes) | SetupFailed (e : error).

Definition setupHostIface (goos : bytes) (iface : bytes) (cfg : Config) (h : H) : H * result setup_error (list command) :=
  if negb (goos =s? goosLinux) then (h, Err (HostSetupUnsupported goos))
  else let '(h, r) := setupHostIfaceLinux iface cfg h in (h, rwrap SetupFailed r).
End Host.

(** ** What a run does *)

(** The routes added: the distinct prefixes not covered, in order. *)
Fixpoint new_routes (addrs seen aips : list Prefix) : list Prefix :=
  match aips with
  | [] => []
  | a :: aips =>
      if bool_decide (a ∈ seen) then new_routes addrs seen aips
      else if isCoveredByConnectedRoute a addrs then new_routes addrs (a :: seen) aips
      else a :: new_routes addrs (a :: seen) aips
  end.
Definition all_allowed (cfg : Config) : list Prefix := concat (map pc_AllowedIPs (Peers cfg)).

(** The commands of a whole run in order, each with the one that undoes it. *)
Definition run_log (iface : bytes) (cfg : Config) : list (command * command) :=
  [(link_up iface, link_down iface)] ++
  map (fun a => (addr_cmd "add" a iface, addr_cmd "del" a iface)) (Address cfg) ++
  map (fun a => (route_cmd "add" a iface, route_cmd "del" a iface)) (new_routes (Address cfg) [] (all_allowed cfg)).

(** ** Prefixes as sets of addresses *)

Definition addr_num (a : Addr) : Z := match a with Addr4 v | Addr6 v _ => v | AddrZero => 0 end.
Definition host_bits (p : Prefix) : Z := (BitLen (pf_addr p) - pf_bits p)%Z.

Lemma Contains_num p x :
  prefix_wf p -> Prefix_Contains p x = true <->
  BitLen x = BitLen (pf_addr p) /\ without_zone x = x /\
  (addr_num (pf_addr p) / 2 ^ host_bits p = addr_num x / 2 ^ host_bits p)%Z.
Proof.
  intros (_ & Hb & Hz & Hv). unfold Prefix_Contains, Prefix_IsValid, host_bits.
  replace (0 <=? pf_bits p)%Z with true by (symmetry; apply Z.leb_le; lia). cbn [andb].
  destruct (pf_addr p) as [|v|v z], x as [|w|w [|? ?]]; cbn in *; rewrite ?Z.eqb_eq; split; try done; try tauto;
    intros (? & ? & ?); done.
Qed.

Lemma Masked_wf p : prefix_wf p -> prefix_wf (Masked p) /\ pf_bits (Masked p) = pf_bits p /\
  BitLen (pf_addr (Masked p)) = BitLen (pf_addr p) /\ Is4 (pf_addr (Masked p)) = Is4 (pf_addr p) /\
  addr_num (pf_addr (Masked p)) = (addr_num (pf_addr p) / 2 ^ host_bits p * 2 ^ host_bits p)%Z.
Proof.
  intros (Ha & Hb & Hz & Hv). unfold Masked, Prefix_IsValid, prefix_wf, mask_val, host_bits.
  replace (0 <=? pf_bits p)%Z with true by (symmetry; apply Z.leb_le; lia).
  assert (forall n v, (0 <= pf_bits p <= n)%Z -> (0 <= v < 2 ^ n)%Z ->
    (0 <= v / 2 ^ (n - pf_bits p) * 2 ^ (n - pf_bits p) < 2 ^ n)%Z) as Hm.
  { intros n v Hn H. pose proof (Z.pow_pos_nonneg 2 (n - pf_bits p) ltac:(lia) ltac:(lia)) as Hp.
    pose proof (Z.div_mod v (2 ^ (n - pf_bits p)) ltac:(lia)).
    pose proof (Z.mod_pos_bound v (2 ^ (n - pf_bits p)) ltac:(lia)).
    pose proof (Z.div_pos v (2 ^ (n - pf_bits p)) ltac:(lia) ltac:(lia)). nia. }
  destruct (pf_addr p) as [|v|v z]; cbn in *; try done; split_and!; try done; try lia; try congruence; by apply Hm.
Qed.

(** Masking keeps the set. *)
Lemma Masked_Contains p x : prefix_wf p -> Prefix_Contains (Masked p) x = Prefix_Contains p x.
Proof.
  intros Hp. destruct (Masked_wf p Hp) as (Hm & Hb & Hl & _ & Hn).
  apply eq_true_iff_eq. rewrite !Contains_num by done. rewrite Hl, Hn.
  replace (host_bits (Masked p)) with (host_bits p) by (unfold host_bits; congruence).
  rewrite Z.div_mul; [done|]. unfold host_bits. destruct Hp as (_ & ? & _).
  pose proof (Z.pow_pos_nonneg 2 (BitLen (pf_addr p) - pf_bits p)). lia.
Qed.

Lemma Contains_self p : prefix_wf p -> Prefix_Contains p (pf_addr p) = true.
Proof. intros Hp. apply Contains_num; [done|]. by destruct Hp as (_ & _ & ? & _). Qed.

(** The address of [p] with its lowest [k] bits cleared, and the one that
    differs from it in bit [k], are both in [p] when [k] is a host bit. *)
Lemma div_shift a k m :
  (0 <= k <= m)%Z -> (a / 2 ^ m = a / 2 ^ k / 2 ^ (m - k))%Z.
Proof.
  intros H. rewrite Z.div_div by (apply Z.pow_nonzero || apply Z.pow_pos_nonneg; lia).
  rewrite <-Z.pow_add_r by lia. do 2 f_equal. lia.
Qed.

(** A prefix is inside another exactly when all its addresses are. *)
Lemma prefix_inside p a : prefix_wf p -> prefix_wf a ->
  (pf_bits a <= pf_bits p)%Z /\ Prefix_Contains a (pf_addr p) = true <->
  forall x, Prefix_Contains p x = true -> Prefix_Contains a x = true.
Proof.
  intros Hp Ha. split.
  - intros [Hb Hc] x Hx. apply Contains_num in Hc as (H1 & H2 & H3); [|done].
    apply Contains_num in Hx as (H4 & H5 & H6); [|done].
    apply Contains_num; [done|]. split_and!; [congruence|done|]. rewrite H3.
    destruct Hp as (_ & Hbp & _), Ha as (_ & Hba & _). unfold host_bits in *.
    rewrite !(div_shift _ (BitLen (pf_addr p) - pf_bits p) (BitLen (pf_addr a) - pf_bits a)) by lia.
    by rewrite H6.
  - intros Hall. pose proof (Hall _ (Contains_self p Hp)) as Hc. split; [|done].
    destruct (Z.le_gt_cases (pf_bits a) (pf_bits p)) as [|Hgt]; [done|exfalso].
    pose proof (proj1 (Contains_num _ _ Ha) Hc) as (Hl & _ & _).
    pose proof Hp as (Hwp & Hbp & Hzp & Hvp). pose proof Ha as (_ & Hba & _).
    set (k := host_bits a). set (m := host_bits p).
    assert (0 <= k < m)%Z as Hkm by (unfold k, m, host_bits; lia).
    set (b := (addr_num (pf_addr p) / 2 ^ m * 2 ^ m)%Z).
    set (mk := fun v => match pf_addr p with Addr4 _ => Addr4 v | _ => Addr6 v [] end).
    assert (0 < 2 ^ k < 2 ^ m)%Z as Hpow by (split; [apply Z.pow_pos_nonneg | apply Z.pow_lt_mono_r]; lia).
    assert (forall v, addr_num (mk v) = v) as Hnum by (intros v; unfold mk; by destruct (pf_addr p)).
    assert (forall d, (0 <= d < 2 ^ m)%Z -> Prefix_Contains p (mk (b + d)%Z) = true) as Hin.
    { intros d Hd. apply Contains_num; [done|]. rewrite Hnum. fold m. unfold b.
      rewrite Z.div_add_l, (Z.div_small d) by lia. rewrite Z.add_0_r.
      unfold mk. destruct (pf_addr p); done. }
    pose proof (Hall _ (Hin 0 ltac:(lia))%Z) as H0. pose proof (Hall _ (Hin (2 ^ k) ltac:(lia))%Z) as H1.
    apply Contains_num in H0 as (_ & _ & H0); [|done]. apply Contains_num in H1 as (_ & _ & H1); [|done].
    rewrite Hnum in H0, H1. fold k in H0, H1. rewrite H0 in H1.
    replace (b + 2 ^ k)%Z with (b + 1 * 2 ^ k)%Z in H1 by lia.
    rewrite Z.div_add, Z.add_0_r in H1 by lia. lia.
Qed.

Lemma Masked_eq_inside a p : prefix_wf a -> prefix_wf p -> Masked a = Masked p ->
  forall x, Prefix_Contains p x = true -> Prefix_Contains a x = true.
Proof. intros Ha Hp E x. by rewrite <-(Masked_Contains a), <-(Masked_Contains p), E. Qed.

Lemma isCovered_iff p addrs : prefix_wf p -> Forall prefix_wf addrs ->
  isCoveredByConnectedRoute p addrs = true <->
  exists a, a ∈ addrs /\ forall x, Prefix_Contains p x = true -> Prefix_Contains a x = true.
Proof.
  intros Hp Hall. unfold isCoveredByConnectedRoute. rewrite existsb_exists. setoid_rewrite <-list_elem_of_In.
  rewrite Forall_forall in Hall. split.
  - intros (a & Hin & Hc). exists a. split; [done|]. pose proof (Hall a Hin) as Ha.
    apply orb_true_iff in Hc as [Hc|Hc].
    + apply bool_decide_eq_true in Hc. by apply Masked_eq_inside.
    + bprop. apply prefix_inside; [done..|]. destruct (Masked_wf a Ha) as (_ & Hb & _).
      rewrite Hb in *. by rewrite Masked_Contains in *.
  - intros (a & Hin & Hc). exists a. split; [done|]. pose proof (Hall a Hin) as Ha.
    apply prefix_inside in Hc as [Hb Hc]; [|done..]. apply orb_true_iff. right.
    destruct (Masked_wf a Ha) as (_ & Hb' & _ & H4 & _). rewrite Hb', H4, Masked_Contains by done.
    apply Contains_num in Hc as Hl; [|done]. destruct Hl as (Hl & _).
    rewrite Hc. apply Z.leb_le in Hb as ->. cbn [andb].
    by destruct (pf_addr a), (pf_addr p).
Qed.

(** ** The routes of a run *)

Lemma new_routes_sound addrs aips : forall seen r, r ∈ new_routes addrs seen aips ->
  (r ∈ aips) /\ (r ∉ seen) /\ isCoveredByConnectedRoute r addrs = false.
Proof.
  induction aips as [|a aips IH]; intros seen r H; cbn [new_routes] in H; [set_solver|].
  case_bool_decide. { apply IH in H. set_solver. }
  destruct (isCoveredByConnectedRoute a addrs) eqn:Ec. { apply IH in H. set_solver. }
  apply elem_of_cons in H as [->|H]; [set_solver|]. apply IH in H. set_solver.
Qed.

Lemma new_routes_complete addrs aips : forall seen a, a ∈ aips ->
  a ∈ seen \/ isCoveredByConnectedRoute a addrs = true \/ a ∈ new_routes addrs seen aips.
Proof.
  induction aips as [|b aips IH]; intros seen a H; cbn [new_routes]; [set_solver|].
  apply elem_of_cons in H as [->|H].
  - case_bool_decide; [by left|]. destruct (isCoveredByConnectedRoute b addrs); [by right; left|]. set_solver.
  - case_bool_decide; [by apply IH|]. specialize (IH (b :: seen) a H).
    destruct (isCoveredByConnectedRoute b addrs) eqn:Ec; set_solver.
Qed.

Lemma new_routes_NoDup addrs aips : forall seen, NoDup (new_routes addrs seen aips).
Proof.
  induction aips as [|a aips IH]; intros seen; cbn [new_routes]; [constructor|].
  case_bool_decide; [apply IH|]. destruct (isCoveredByConnectedRoute a addrs); [apply IH|].
  constructor; [|apply IH]. intros Hin. apply new_routes_sound in Hin. set_solver.
Qed.

(** The prefixes met so far, as the code keeps them. *)
Definition seen_after (seen aips : list Prefix) : list Prefix :=
  fold_left (fun seen a => if bool_decide (a ∈ seen) then seen else a :: seen) aips seen.

Lemma new_routes_app addrs l1 l2 : forall seen,
  new_routes addrs seen (l1 ++ l2) = new_routes addrs seen l1 ++ new_routes addrs (seen_after seen l1) l2.
Proof.
  induction l1 as [|a l1 IH]; intros seen; [done|]. cbn [app new_routes seen_after fold_left].
  case_bool_decide; [apply IH|]. destruct (isCoveredByConnectedRoute a addrs); [apply IH|].
  cbn [app]. f_equal. apply IH.
Qed.

(** Every address some peer is allowed is in a route or in a network of the
    interface. *)
Definition reach_allowed (cfg : Config) (routes : list Prefix) : Prop :=
  forall p aip x, p ∈ Peers cfg -> aip ∈ pc_AllowedIPs p -> Prefix_Contains aip x = true ->
    (exists r, r ∈ routes /\ Prefix_Contains r x = true) \/
    (exists a, a ∈ Address cfg /\ Prefix_Contains a x = true).

(** Each route is an allowed prefix, and no network of the interface has all
    its addresses. *)
Definition not_reached_before (cfg : Config) (routes : list Prefix) : Prop :=
  forall r, r ∈ routes -> (exists p, p ∈ Peers cfg /\ r ∈ pc_AllowedIPs p) /\
    forall a, a ∈ Address cfg -> ~ (forall x, Prefix_Contains r x = true -> Prefix_Contains a x = true).

Lemma elem_of_all_allowed cfg a : a ∈ all_allowed cfg <-> exists p, p ∈ Peers cfg /\ a ∈ pc_AllowedIPs p.
Proof.
  unfold all_allowed. rewrite list_elem_of_In, in_concat. split.
  - intros (l & (p & <- & Hp)%in_map_iff & Ha). exists p. by rewrite !list_elem_of_In.
  - intros (p & Hp & Ha). exists (pc_AllowedIPs p). split; [|by apply list_elem_of_In].
    apply in_map. by apply list_elem_of_In.
Qed.

Lemma new_routes_reach cfg : Forall prefix_wf (Address cfg) -> Forall prefix_wf (all_allowed cfg) ->
  reach_allowed cfg (new_routes (Address cfg) [] (all_allowed cfg)) /\
  not_reached_before cfg (new_routes (Address cfg) [] (all_allowed cfg)).
Proof.
  intros Ha Hr. rewrite Forall_forall in Hr. split.
  - intros p aip x Hp Hin Hx. assert (aip ∈ all_allowed cfg) as Hall by (apply elem_of_all_allowed; eauto).
    destruct (new_routes_complete (Address cfg) (all_allowed cfg) [] aip Hall) as [H|[H|H]]; [set_solver| |].
    + right. apply isCovered_iff in H as (a & H1 & H2); [|by apply Hr|done]. eauto.
    + left. eauto.
  - intros r (Hall & _ & Hc)%new_routes_sound. split; [by apply elem_of_all_allowed|]. intros a Hina Hcov.
    assert (isCoveredByConnectedRoute r (Address cfg) = true) as Ht; [|congruence].
    apply isCovered_iff; [by apply Hr|done|]. eauto.
Qed.

(** ** Runs of [setup] *)

Section Runs.
Context {T : Type} (ip : T -> command -> T * option (error * bytes)).
Abbreviation setup := (@setup T).

(** The host after the commands ran one after the other, all with success. *)
Fixpoint runs (cmds : list command) (h : T) : option T :=
  match cmds with
  | [] => Some h
  | c :: cmds => match ip h c with (h, None) => runs cmds h | _ => None end
  end.

Lemma runs_app l1 l2 : forall h, runs (l1 ++ l2) h = (h ← runs l1 h; runs l2 h).
Proof.
  induction l1 as [|c l1 IH]; intros h; [done|]. cbn [app runs].
  destruct (ip h c) as [h1 [e|]]; [done|apply IH].
Qed.

(** On success commands have been run, all with success, and the ones that
    undo them have been registered. *)
Definition logs {A} (c : setup A) (post : A -> list (command * command) -> Prop) : Prop :=
  forall h rs h' rs' x, c (h, rs) = ((h', rs'), Ok x) ->
  exists l, rs' = rs ++ map snd l /\ runs (map fst l) h = Some h' /\ post x l.

Lemma logs_ret {A} (x : A) : logs (ret x) (fun y l => y = x /\ l = []).
Proof. intros h rs h' rs' y E. injection E as <- <- <-. exists []. by rewrite app_nil_r. Qed.

Lemma logs_weaken {A} (c : setup A) (P Q : A -> list (command * command) -> Prop) :
  logs c P -> (forall x l, P x l -> Q x l) -> logs c Q.
Proof. intros Hc HPQ h rs h' rs' x (l & ? & ? & ?)%Hc. exists l. auto. Qed.

Lemma logs_attempt pre cmd undo : logs (attempt ip pre cmd undo) (fun _ l => l = [(cmd, undo)]).
Proof.
  intros h rs h' rs' x E. unfold attempt, runIP in E. destruct (ip h cmd) as [h1 [[? ?]|]] eqn:Ei; [done|].
  injection E as <- <- <-. exists [(cmd, undo)]. cbn. by rewrite Ei.
Qed.

Lemma logs_bind {A B} (c : setup A) (k : A -> setup B) (P : A -> list (command * command) -> Prop)
    (Q : B -> list (command * command) -> Prop) :
  logs c P -> (forall x, logs (k x) (fun y l2 => forall l1, P x l1 -> Q y (l1 ++ l2))) -> logs (bind c k) Q.
Proof.
  intros Hc Hk h rs h' rs' y E. unfold bind in E. destruct (c (h, rs)) as [[h1 rs1] [x|e]] eqn:E1; [|done].
  apply Hc in E1 as (l1 & -> & R1 & H1). apply Hk in E as (l2 & -> & R2 & H2). exists (l1 ++ l2).
  rewrite !map_app, app_assoc, runs_app, R1. auto.
Qed.

Lemma logs_addrs iface addrs :
  logs (add_addrs ip iface addrs)
    (fun _ l => l = map (fun a => (addr_cmd "add" a iface, addr_cmd "del" a iface)) addrs).
Proof.
  induction addrs as [|a addrs IH]; cbn [add_addrs map];
    [by eapply logs_weaken; [apply logs_ret|intros ?? []]|].
  eapply logs_bind; [apply logs_attempt|]. intros []. eapply logs_weaken; [exact IH|].
  by intros ? l -> l1 ->.
Qed.

Lemma logs_routes iface addrs aips : forall seen,
  logs (add_routes ip iface addrs seen aips) (fun seen' l =>
    seen' = seen_after seen aips /\
    l = map (fun a => (route_cmd "add" a iface, route_cmd "del" a iface)) (new_routes addrs seen aips)).
Proof.
  induction aips as [|a aips IH]; intros seen; cbn [add_routes new_routes seen_after fold_left]; [apply logs_ret|].
  case_bool_decide; [apply IH|]. destruct (isCoveredByConnectedRoute a addrs); [apply IH|].
  eapply logs_bind; [apply logs_attempt|]. intros []. eapply logs_weaken; [apply IH|].
  by intros ? l [-> ->] l1 ->.
Qed.

Lemma logs_peers iface addrs peers : forall seen,
  logs (add_peers ip iface addrs seen peers) (fun _ l =>
    l = map (fun a => (route_cmd "add" a iface, route_cmd "del" a iface))
          (new_routes addrs seen (concat (map pc_AllowedIPs peers)))).
Proof.
  induction peers as [|p peers IH]; intros seen; cbn [add_peers map concat new_routes];
    [by eapply logs_weaken; [apply logs_ret|intros ?? []]|].
  eapply logs_bind; [apply logs_routes|]. intros seen'. eapply logs_weaken; [apply IH|].
  intros ? l -> l1 [-> ->]. by rewrite new_routes_app, map_app.
Qed.

(** A run that succeeds. *)
Lemma setup_log iface cfg h h' td :
  setupHostIfaceLinux ip iface cfg h = (h', Ok td) ->
  td = map snd (run_log iface cfg) /\ runs (map fst (run_log iface cfg)) h = Some h'.
Proof.
  unfold setupHostIfaceLinux. intros E.
  match type of E with context [?c (h, [])] => assert (logs c (fun _ l => l = run_log iface cfg)) as Hl end.
  { eapply logs_bind; [apply logs_attempt|]. intros []. eapply logs_bind; [apply logs_addrs|].
    intros []. eapply logs_weaken; [apply logs_peers|]. by intros ? l -> l1 -> l2 ->. }
  match type of E with context [?c (h, [])] => destruct (c (h, [])) as [[h1 rs1] [x|e]] eqn:E1; [|done] end.
  apply Hl in E1 as (l & -> & Hr & ->). by injection E as <- <-.
Qed.
End Runs.

(** ** Rollback *)

Section Restore.
Context {T : Type} (ip : T -> command -> T * option (error * bytes)) (iface : bytes) (h0 : T).

(** What is relied on of [ip]: a command that fails changes nothing, and
    deleting an address or a route that was just added takes it away. *)
Definition ip_atomic : Prop := forall h c e, snd (ip h c) = Some e -> fst (ip h c) = h.
Definition ip_undone (h : T) (cmd undo : command) : Prop :=
  snd (ip h cmd) = None -> fst (ip (fst (ip h cmd)) undo) = h.

(** From a state whose rollback is [h0] to one whose rollback is [h0], or
    rolled back to [h0]. *)
Definition safe {A} (c : @setup T A) : Prop :=
  forall h rs, rollback ip rs h = h0 ->
  match c (h, rs) with
  | ((h', rs'), Ok _) => rollback ip rs' h' = h0
  | ((h', _), Err _) => h' = h0
  end.

Lemma runIP_fst h c : fst (runIP ip h c) = fst (ip h c).
Proof. unfold runIP. by destruct (ip h c) as [h1 [[err out]|]]. Qed.

Lemma safe_ret {A} (x : A) : safe (ret x).
Proof. by intros h rs E. Qed.

Lemma safe_bind {A B} (c : @setup T A) (k : A -> @setup T B) : safe c -> (forall x, safe (k x)) -> safe (bind c k).
Proof.
  intros Hc Hk h rs E. unfold bind. specialize (Hc h rs E). destruct (c (h, rs)) as [[h1 rs1] [x|e]]; [|done].
  by apply Hk.
Qed.

Lemma attempt_restores pre cmd undo h rs :
  ip_atomic -> ip_undone h cmd undo -> rollback ip rs h = h0 ->
  match attempt ip pre cmd undo (h, rs) with
  | ((h', rs'), Ok _) => rollback ip rs' h' = h0
  | ((h', _), Err _) => h' = h0
  end.
Proof.
  intros Hat Hun E. unfold attempt, runIP. unfold ip_undone in Hun.
  destruct (ip h cmd) as [h1 [[err out]|]] eqn:Ei.
  - assert (h1 = h) as ->; [|done]. specialize (Hat h cmd (err, out)). rewrite Ei in Hat. by apply Hat.
  - unfold rollback. rewrite rev_app_distr. cbn [rev app fold_left]. rewrite runIP_fst.
    cbn [fst snd] in Hun. by rewrite Hun.
Qed.

Lemma safe_attempt pre cmd undo : ip_atomic -> (forall h, ip_undone h cmd undo) -> safe (attempt ip pre cmd undo).
Proof. intros Hat Hun h rs. by apply attempt_restores. Qed.

Lemma safe_addrs addrs :
  ip_atomic -> (forall h a, ip_undone h (addr_cmd "add" a iface) (addr_cmd "del" a iface)) ->
  safe (add_addrs ip iface addrs).
Proof.
  intros Hat Hun. induction addrs as [|a addrs IH]; cbn [add_addrs]; [apply safe_ret|].
  apply safe_bind; [by apply safe_attempt|done].
Qed.

Lemma safe_routes addrs aips :
  ip_atomic -> (forall h a, ip_undone h (route_cmd "add" a iface) (route_cmd "del" a iface)) ->
  forall seen, safe (add_routes ip iface addrs seen aips).
Proof.
  intros Hat Hun. induction aips as [|a aips IH]; intros seen; cbn [add_routes]; [apply safe_ret|].
  case_bool_decide; [apply IH|]. destruct (isCoveredByConnectedRoute a addrs); [apply IH|].
  apply safe_bind; [by apply safe_attempt|done].
Qed.

Lemma safe_peers addrs peers :
  ip_atomic -> (forall h a, ip_undone h (route_cmd "add" a iface) (route_cmd "del" a iface)) ->
  forall seen, safe (add_peers ip iface addrs seen peers).
Proof.
  intros Hat Hun. induction peers as [|p peers IH]; intros seen; cbn [add_peers]; [apply safe_ret|].
  apply safe_bind; [by apply safe_routes|done].
Qed.
End Restore.

(** Where no command fails a set up does not either. *)
Section Willing.
Context {T : Type} (ip : T -> command -> T * option (error * bytes)).
Hypothesis Hip : forall h c, snd (ip h c) = None.

Definition succeeds {A} (c : @setup T A) : Prop := forall s, exists s' x, c s = (s', Ok x).

Lemma succeeds_ret {A} (x : A) : succeeds (ret x).
Proof. intros s. by eexists _, _. Qed.

Lemma succeeds_bind {A B} (c : @setup T A) (k : A -> @setup T B) :
  succeeds c -> (forall x, succeeds (k x)) -> succeeds (bind c k).
Proof. intros Hc Hk s. unfold bind. destruct (Hc s) as (s' & x & ->). apply Hk. Qed.

Lemma succeeds_attempt pre cmd undo : succeeds (attempt ip pre cmd undo).
Proof.
  intros [h rs]. unfold attempt, runIP. specialize (Hip h cmd). destruct (ip h cmd) as [h' o]. cbn in Hip. subst.
  by eexists _, _.
Qed.

Lemma setup_succeeds iface cfg h : exists h' td, setupHostIfaceLinux ip iface cfg h = (h', Ok td).
Proof.
  unfold setupHostIfaceLinux.
  match goal with |- context [?c (h, [])] => assert (succeeds c) as Hc end.
  - apply succeeds_bind; [apply succeeds_attempt|]. intros _. apply succeeds_bind.
    + induction (Address cfg) as [|a l IH]; cbn [add_addrs]; [apply succeeds_ret|].
      apply succeeds_bind; [apply succeeds_attempt|by intros _].
    + intros _. generalize (@nil Prefix). induction (Peers cfg) as [|p ps IH]; intros seen; cbn [add_peers]; [apply succeeds_ret|].
      apply succeeds_bind; [|done]. generalize seen. induction (pc_AllowedIPs p) as [|a l IHl]; intros seen'; cbn [add_routes]; [apply succeeds_ret|].
      case_bools; [apply IHl..|]. apply succeeds_bind; [apply succeeds_attempt|]. intros _. apply IHl.
  - destruct (Hc (h, [])) as ([h' rs] & x & ->). by eexists _, _.
Qed.
End Willing.

(** A run, from the host as it is found. *)
Lemma setup_restores {T} (ip : T -> command -> T * option (error * bytes)) iface cfg h0 h r :
  ip_atomic ip ->
  ip_undone ip h0 (link_up iface) (link_down iface) ->
  (forall h a, ip_undone ip h (addr_cmd "add" a iface) (addr_cmd "del" a iface)) ->
  (forall h a, ip_undone ip h (route_cmd "add" a iface) (route_cmd "del" a iface)) ->
  setupHostIfaceLinux ip iface cfg h0 = (h, r) ->
  match r with
  | Ok teardown => rollback ip teardown h = h0
  | Err _ => h = h0
  end.
Proof.
  intros Hat Hlink Haddr Hroute E. unfold setupHostIfaceLinux in E.
  match type of E with context [bind ?c ?k (h0, [])] => assert (safe ip h0 (k tt)) as Hk end.
  { apply safe_bind; [by apply safe_addrs|]. intros _. by apply safe_peers. }
  unfold bind at 1 in E.
  pose proof (attempt_restores ip h0 "link set up: " (link_up iface) (link_down iface) h0 [] Hat Hlink eq_refl) as H1.
  destruct (attempt _ _ _ _ _) as [[h1 rs1] [[]|e]]; [|by injection E as <- <-].
  specialize (Hk h1 rs1 H1). cbn beta in E, Hk.
  destruct (bind _ _ (h1, rs1)) as [[h2 rs2] [x|e]]; by injection E as <- <-.
Qed.

(** ** Theorems *)

(** C17.  The host is configured completely or not at all.  A successful run
    brought the link up, assigned every address of the interface and added a
    set of distinct routes, one command after the other and all with success:
    with the networks of the addresses these reach every address some peer is
    allowed, and no added route was already reached through one of those
    networks; its teardown takes the host back to how it was found.  When any
    command fails the host is left as it was found.  A failing [ip] is relied
    on to change nothing, a delete to undo the add just before it, and the
    interface is down to begin with. *)
Theorem setup_restores_host {T} (ip : T -> command -> T * option (error * bytes)) iface cfg h0 h r :
  ip_atomic ip ->
  ip_undone ip h0 (link_up iface) (link_down iface) ->
  (forall h a, ip_undone ip h (addr_cmd "add" a iface) (addr_cmd "del" a iface)) ->
  (forall h a, ip_undone ip h (route_cmd "add" a iface) (route_cmd "del" a iface)) ->
  setupHostIfaceLinux ip iface cfg h0 = (h, r) ->
  match r with
  | Ok teardown =>
      rollback ip teardown h = h0 /\
      exists routes,
        runs ip ([["link"%go; "set"%go; iface; "up"%go]] ++
                 map (fun a => ["addr"%go; "add"%go; Prefix_String a; "dev"%go; iface]) (Address cfg) ++
                 map (fun a => ["route"%go; "add"%go; Prefix_String a; "dev"%go; iface]) routes) h0 = Some h /\
        NoDup routes /\
        (Forall prefix_wf (Address cfg) -> Forall prefix_wf (all_allowed cfg) ->
         reach_allowed cfg routes /\ not_reached_before cfg routes)
  | Err _ => h = h0
  end.
Proof.
  intros Hat Hl Ha Hr E. pose proof (setup_restores _ _ _ _ _ _ Hat Hl Ha Hr E) as Hres.
  destruct r as [td|e]; [|done]. split; [done|].
  apply setup_log in E as [-> Hruns]. exists (new_routes (Address cfg) [] (all_allowed cfg)).
  split_and!; [|apply new_routes_NoDup|by apply new_routes_reach].
  rewrite <-Hruns. f_equal. unfold run_log. by rewrite !map_app, !map_map.
Qed.

(** [buildKernelConfig] keeps every peer, in order. *)
Lemma build_peers_ok ps : forall i l, build_peers i ps = Ok l ->
  l = map kernel_peer ps /\ Forall (fun p => pr_PublicKey p <> []) ps.
Proof.
  induction ps as [|p ps IH]; intros i l E; cbn [build_peers] in E; [by injection E as <-|].
  inv_result E. apply IH in E1 as [-> Hps]. injection E as <-. bprop. split; [done|].
  constructor; [by apply seqb_neq|done].
Qed.

Lemma kernel_allowed_ok i l : forall j, Forall prefix_wf l -> check_allowed i j l = Ok tt.
Proof.
  induction l as [|a l IH]; intros j Hl; [done|]. apply Forall_cons in Hl as [(_ & Hb & _) Hl].
  cbn [check_allowed]. unfold Prefix_IsValid. destruct (Z.leb_spec 0 (pf_bits a)); [by apply IH|lia].
Qed.

(** How [wgkernel]'s validation of well-formed peers can fail. *)
Definition peers_verdict (ps : list PeerSection) (i0 : nat) (r : result config_error unit) : Prop :=
  match r with
  | Ok _ | Err (BadPublicKey _ _) | Err (BadPresharedKey _ _) => True
  | Err (NegativeKeepalive i) => exists p, ps !! (i - i0)%nat = Some p /\ (i0 <= i)%nat /\ (pr_PersistentKeepalive p < 0)%Z
  | Err _ => False
  end.

Lemma validate_peers_verdict ps : forall i, Forall peer_wf ps ->
  peers_verdict ps i (validate_peers i (map kernel_peer ps)).
Proof.
  induction ps as [|p ps IH]; intros i Hps; [done|]. apply Forall_cons in Hps as [[Hp _] Hps].
  cbn [map validate_peers]. unfold validate_peer. cbn [kernel_peer pc_PublicKey pc_PresharedKey pc_AllowedIPs pc_PersistentKeepalive].
  destruct (decodeWGKey (pr_PublicKey p)); cbn [rwrap rbind]; [|done].
  match goal with |- peers_verdict _ _ (rbind (rbind ?c _) _) =>
    assert (c = Ok tt \/ exists e, c = Err (BadPresharedKey i e)) as [->|[e ->]] end; [|cbn [rbind]|done].
  { destruct (pr_PresharedKey p =s? []); [by left|].
    destruct (decodeWGKey (pr_PresharedKey p)); cbn [rwrap rbind]; [by left|right; by eexists]. }
  rewrite kernel_allowed_ok by done. cbn [rbind].
  destruct (Z.ltb_spec (pr_PersistentKeepalive p) 0); cbn [negb rbind].
  - exists p. by rewrite Nat.sub_diag.
  - specialize (IH (S i) Hps). destruct (validate_peers (S i) _) as [|[]]; try done.
    destruct IH as (q & H1 & H2 & H3). exists q. split_and!; [|lia|done].
    by replace (peer - i)%nat with (S (peer - S i)) by lia.
Qed.

(** The kernel configuration built from a parsed file has the file's
    peers in order, and the kernel refuses it only for a key it cannot decode
    or for a keepalive the file gives as a negative duration: never for the
    MTU or a prefix. *)
Theorem parsed_conf_kernel text s c :
  Parse text = Ok s -> buildKernelConfig s = Ok c ->
  Peers c = map kernel_peer (WGPeers s) /\ Peers c <> [] /\
  match Validate c with
  | Ok _ => True
  | Err (BadPrivateKey _) | Err (BadPublicKey _ _) | Err (BadPresharedKey _ _) => True
  | Err (NegativeKeepalive i) => exists p, WGPeers s !! i = Some p /\ (pr_PersistentKeepalive p < 0)%Z
  | Err _ => False
  end.
Proof.
  intros HP HB. apply Parse_wf in HP as [_ _ _ _ [_ _ Hmtu _] Hpeers]. unfold buildKernelConfig in HB.
  inv_result HB. apply build_peers_ok in E1 as [-> _]. injection HB as <-. bprop. cbn [Peers].
  split_and!; [done|intros H; apply map_eq_nil in H; by rewrite H in E0|].
  unfold Validate. cbn [PrivateKey MTU Peers].
  destruct (decodeWGKey (if_PrivateKey (Iface s))); cbn [rwrap rbind]; [|done].
  destruct (Z.ltb_spec (if_MTU (Iface s)) 0); [lia|]. cbn [negb].
  pose proof (validate_peers_verdict (WGPeers s) 0 Hpeers) as Hv.
  destruct (validate_peers 0 _) as [|[]]; try done. destruct Hv as (q & H1 & _ & H3).
  rewrite Nat.sub_0_r in H1. by exists q.
Qed.

Definition kernel_conf : bytes :=
  "[Interface]
PrivateKey = AAECAwQFBgcICQoLDA0ODxAREhMUFRYXGBkaGxwdHh8=
Address = 10.7.0.2/24

[Peer]
PublicKey = AAECAwQFBgcICQoLDA0ODxAREhMUFRYXGBkaGxwdHh8=
AllowedIPs = 10.7.0.0/24, 0.0.0.0/0
PersistentKeepalive = -5s
".

Lemma parsed_conf_kernel_witness :
  exists s c, Parse kernel_conf = Ok s /\ buildKernelConfig s = Ok c /\
    Validate c = Err (NegativeKeepalive 0) /\ Peers c = map kernel_peer (WGPeers s) /\
    exists p, WGPeers s !! 0%nat = Some p /\ (pr_PersistentKeepalive p < 0)%Z.
Proof.
  assert (exists s c, Parse kernel_conf = Ok s /\ buildKernelConfig s = Ok c /\ Validate c = Err (NegativeKeepalive 0))
    as (s & c & H1 & H2 & H3).
  { eexists _, _. split; [vm_compute; reflexivity|]. split; [vm_compute; reflexivity|]. vm_compute; reflexivity. }
  exists s, c. destruct (parsed_conf_kernel kernel_conf s c H1 H2) as (H4 & _ & H5). rewrite H3 in H5.
  split; [exact H1|]. split; [exact H2|]. split; [exact H3|]. split; [exact H4|exact H5].
Defined.

(** ** A concrete host

    Its state lists the interfaces that are up, the addresses and the routes;
    bringing up a link that is up changes nothing, and there is no room for a
    route to [full]. *)
Fixpoint drop_item (x : command) (h : list command) : list command :=
  match h with [] => [] | y :: h => if decide (y = x) then h else y :: drop_item x h end.

Definition sample_ip (full : bytes) (h : list command) (c : command) : list command * option (error * bytes) :=
  match c with
  | [_; _; i; dir] =>
      if dir =s? "up" then ((if bool_decide ([i] ∈ h) then h else [i] :: h), None)
      else (drop_item [i] h, None)
  | [kind; verb; what; _; _] =>
      let item := [kind; what] in
      if verb =s? "add" then
        if what =s? full then (h, Some (errors_New "exit status 2", "RTNETLINK answers: No space left on device"%go))
        else if bool_decide (item ∈ h) then (h, Some (errors_New "exit status 2", "RTNETLINK answers: File exists"%go))
        else (item :: h, None)
      else (drop_item item h, None)
  | _ => (h, Some (errors_New "exit status 255", []))
  end.

Lemma drop_item_cons x h : drop_item x (x :: h) = h.
Proof. cbn [drop_item]. by rewrite decide_True. Qed.

Lemma sample_ip_atomic full : ip_atomic (sample_ip full).
Proof.
  intros h c e. unfold sample_ip.
  destruct c as [|k [|v [|w [|d [|? [|? ?]]]]]]; cbn [fst snd]; try done; case_bools; done.
Qed.

Lemma sample_ip_undone full h kind a iface :
  ip_undone (sample_ip full) h [kind; "add"%go; Prefix_String a; "dev"%go; iface]
    [kind; "del"%go; Prefix_String a; "dev"%go; iface].
Proof.
  unfold ip_undone, sample_ip. rewrite seqb_refl. replace ("del" =s? "add") with false by done.
  case_bools; cbn [fst snd]; try done. intros _. apply drop_item_cons.
Qed.

Lemma sample_link_undone full h iface :
  [iface] ∉ h -> ip_undone (sample_ip full) h (link_up iface) (link_down iface).
Proof.
  intros Hn _. unfold sample_ip, link_up, link_down. rewrite seqb_refl. replace ("down" =s? "up") with false by done.
  cbn [fst]. rewrite bool_decide_false by done. apply drop_item_cons.
Qed.

(** A link that was up is down after the commands and their undoing. *)
Example link_found_up :
  let h := fst (sample_ip [] [["wg0"%go]] (link_up "wg0")) in
  fst (sample_ip [] h (link_down "wg0")) = [].
Proof. by vm_compute. Qed.

Definition sample_cfg : Config :=
  mkConfig [] [mkPrefix (Addr4 168230914) 24] 0 0 []
    [mkPeerConfig [] [] [] [mkPrefix (Addr4 168230912) 24; mkPrefix (Addr4 0) 0] 0;
     mkPeerConfig [] [] [] [mkPrefix (Addr4 0) 0; mkPrefix (Addr4 167772160) 8] 0].

Lemma setup_restores_host_witness :
  (exists e, setupHostIfaceLinux (sample_ip "10.0.0.0/8") "wg0" sample_cfg [] = ([], Err e)) /\
  exists h td, setupHostIfaceLinux (sample_ip []) "wg0" sample_cfg [] = (h, Ok td) /\ length h = 4%nat /\
    rollback (sample_ip []) td h = [] /\
    exists routes, reach_allowed sample_cfg routes /\ not_reached_before sample_cfg routes.
Proof.
  assert (forall full, ip_undone (sample_ip full) [] (link_up "wg0") (link_down "wg0")) as Hlink.
  { intros full. apply sample_link_undone. apply not_elem_of_nil. }
  split.
  - destruct (setupHostIfaceLinux (sample_ip "10.0.0.0/8") "wg0" sample_cfg []) as [h r] eqn:E.
    pose proof (setup_restores_host (sample_ip "10.0.0.0/8") "wg0" sample_cfg [] h r (sample_ip_atomic _)
      (Hlink _) ltac:(intros; apply sample_ip_undone) ltac:(intros; apply sample_ip_undone) E) as H.
    destruct r as [td|e]; [by vm_compute in E|]. exists e. by rewrite H.
  - assert (exists h td, setupHostIfaceLinux (sample_ip []) "wg0" sample_cfg [] = (h, Ok td) /\ length h = 4%nat)
      as (h & td & E & Hl). { eexists _, _. split; [vm_compute; reflexivity|]. vm_compute; reflexivity. }
    exists h, td. split; [exact E|]. split; [exact Hl|].
    destruct (setup_restores_host (sample_ip []) "wg0" sample_cfg [] h (Ok td) (sample_ip_atomic _)
      (Hlink _) ltac:(intros; apply sample_ip_undone) ltac:(intros; apply sample_ip_undone) E)
      as (H1 & routes & _ & _ & H2).
    split; [exact H1|]. exists routes. apply H2; repeat constructor; cbn; lia.
Defined.
