(* ===== verification/KernelBackend.v ===== *)
(** * pkg/wgturnsrv: the backends (backend.go, backend_kernel.go)

    [UDPBackend] and the bridge to an in-process WireGuard kernel.  The
    bridge is a state machine: two bounded channels, the connections handed to
    the server, and the generations of the kernel's receive functions.  Every
    call is cut at the points where other goroutines may run, and each ready
    case of a [select] is a step of its own. *)

From S2P Require Import Prelude GoStrings GoErrors NetIP.

(** ** backend.go *)

(** [dial] is what the system's dialer answers. *)
Definition UDPBackend_Open {C} (dial : bytes -> result error C) (addr : bytes) : result error C :=
  guard negb (addr =s? []) else errors_New "wgturnsrv: UDPBackend.Addr is empty" in
  rwrap (Errorf_w ("wgturnsrv: backend dial " ++ addr ++ ": ")) (dial addr).

(** ** backend_kernel.go: the addresses, and what the bind only answers *)

Definition kernelAddrName : bytes := "wgkernel".

(** [kernelAddr], and [kernelEndpoint], of which a bind has one. *)
Definition kernelAddr_Network : bytes := kernelAddrName.
Definition kernelAddr_String : bytes := kernelAddrName.
Inductive kernelEndpoint := bind_endpoint.
Definition SrcToString (e : kernelEndpoint) : bytes := kernelAddrName.
Definition DstToString (e : kernelEndpoint) : bytes := kernelAddrName.
Definition DstToBytes (e : kernelEndpoint) : bytes := [x00; x00; x00; x00; x00; x00].
Definition DstIP (e : kernelEndpoint) : Addr := Addr4 0.
Definition SrcIP (e : kernelEndpoint) : Addr := Addr4 0.

Definition SetMark (mark : Z) : option error := None.
Definition ParseEndpoint (s : bytes) : result error kernelEndpoint := Ok bind_endpoint.
Definition BatchSize : Z := 1.

(** ** backend_kernel.go: the state *)

Definition kernelBindQueueDepth : nat := 256.

(** A deadline; [None] for none or the zero time. *)
Abbreviation deadline := (option Z).

Record WGKernelBackend := mkBackend {
  opened : bool;
  conns : nat;                                  (* connections handed out so far *)
  closed : gset nat;
  releasing : list nat;                         (* in [Close], before [release] *)
  toKernel : list bytes;
  fromKernel : list bytes;
  readers : list (nat * deadline);              (* in [recvFromKernel] *)
  writers : list (nat * bytes * deadline);      (* in [sendToKernel] *)
  gens : nat;                                   (* generations opened so far *)
  openGen : option nat;
  genClosing : list nat;                        (* in [kernelBind.Close], before the channel is closed *)
  genClosed : gset nat;
  readDdl : deadline;
  writeDdl : deadline }.

Definition NewWGKernelBackend : WGKernelBackend :=
  mkBackend false 0 ∅ [] [] [] [] [] 0 None [] ∅ None None.

(** What a caller may do next; a position says which of the pending calls goes
    on, and with which ready case. *)
Inductive action :=
| Open                                   (* WGKernelBackend.Open *)
| ReadCheck (c : nat)                    (* kernelBackendConn.Read up to its select *)
| ReadPacket (i : nat) (room : nat)      (* the buffer's length *)
| ReadClosed (i : nat)
| ReadDeadline (i : nat) (now : Z)
| WriteCheck (c : nat) (p : bytes)       (* kernelBackendConn.Write up to its select *)
| WritePut (i : nat)
| WriteClosed (i : nat)
| WriteDeadline (i : nat) (now : Z)
| WriteDrop (i : nat)                    (* the default case *)
| CloseCas (c : nat)                     (* kernelBackendConn.Close: the swap and close(closeC) *)
| Release (i : nat)
| SetReadDeadline (t : deadline)
| SetWriteDeadline (t : deadline)
| SetDeadline (t : deadline)
| BindOpen (port : Z)                    (* kernelBind.Open *)
| BindClose                              (* kernelBind.Close up to its Unlock *)
| BindCloseGen (i : nat)                 (* its select, and close(gen) *)
| BindSend (p : bytes)                   (* one buffer of kernelBind.Send *)
| Receive (gen room : nat)               (* a ReceiveFunc taking a packet *)
| ReceiveClosed (gen : nat).

Inductive backend_error := NetErrClosed | BindDeadline | AlreadyActive.

(** What the step shows its caller. *)
Inductive answer :=
| Opened (c : nat)
| Count (n : nat) (data : bytes)         (* bytes copied, or taken from the caller *)
| Failed (e : backend_error)
| Ports (actual : Z) (gen : nat)
| Silent.

Definition deadline_passed (d : deadline) (now : Z) : bool :=
  match d with Some t => (t <=? now)%Z | None => false end.

Definition is_conn (b : WGKernelBackend) (c : nat) : bool := (c <? conns b)%nat.

(** Field updates. *)
Definition with_conns o n cl rel (b : WGKernelBackend) : WGKernelBackend :=
  mkBackend o n cl rel (toKernel b) (fromKernel b) (readers b) (writers b) (gens b) (openGen b)
    (genClosing b) (genClosed b) (readDdl b) (writeDdl b).
Definition with_queues tk fk rs ws (b : WGKernelBackend) : WGKernelBackend :=
  mkBackend (opened b) (conns b) (closed b) (releasing b) tk fk rs ws (gens b) (openGen b)
    (genClosing b) (genClosed b) (readDdl b) (writeDdl b).
Definition with_gens n g cl gc (b : WGKernelBackend) : WGKernelBackend :=
  mkBackend (opened b) (conns b) (closed b) (releasing b) (toKernel b) (fromKernel b) (readers b) (writers b) n g cl gc
    (readDdl b) (writeDdl b).
Definition with_ddls r w (b : WGKernelBackend) : WGKernelBackend :=
  mkBackend (opened b) (conns b) (closed b) (releasing b) (toKernel b) (fromKernel b) (readers b) (writers b) (gens b)
    (openGen b) (genClosing b) (genClosed b) r w.

(** The pending readers, or writers, without the one that returns. *)
Definition read_done (i : nat) (b : WGKernelBackend) : WGKernelBackend :=
  with_queues (toKernel b) (fromKernel b) (delete i (readers b)) (writers b) b.
Definition write_done (i : nat) (b : WGKernelBackend) : WGKernelBackend :=
  with_queues (toKernel b) (fromKernel b) (readers b) (delete i (writers b)) b.

Definition room_in (q : list bytes) : bool := (length q <? kernelBindQueueDepth)%nat.
#[global] Arguments room_in : simpl never.

(** Each operation, or each piece of one: [None] when it cannot happen now. *)
Abbreviation outcome := (option (WGKernelBackend * answer)).

Definition backend_Open (b : WGKernelBackend) : outcome :=
  if opened b then Some (b, Failed AlreadyActive)
  else Some (with_conns true (S (conns b)) (closed b) (releasing b) b, Opened (conns b)).

Definition release (b : WGKernelBackend) (i : nat) : outcome :=
  _ ← releasing b !! i;
  Some (with_conns false (conns b) (closed b) (delete i (releasing b)) b, Silent).

(** [Read]'s test of [closed]; then it waits, with the deadline of that
    moment. *)
Definition conn_Read (b : WGKernelBackend) (c : nat) : outcome :=
  if negb (is_conn b c) then None
  else if bool_decide (c ∈ closed b) then Some (b, Failed NetErrClosed)
  else Some (with_queues (toKernel b) (fromKernel b) (readers b ++ [(c, readDdl b)]) (writers b) b, Silent).

Inductive wakeup := Data | ConnClosed | DeadlineAt (now : Z) | Default.

(** A case of the select of [recvFromKernel], with the copy of [Read]. *)
Definition recvFromKernel (b : WGKernelBackend) (i room : nat) (w : wakeup) : outcome :=
  '(c, d) ← readers b !! i;
  match w with
  | Data =>
      match fromKernel b with
      | [] => None
      | pkt :: q =>
          let data := take room pkt in
          Some (read_done i (with_queues (toKernel b) q (readers b) (writers b) b), Count (length data) data)
      end
  | ConnClosed => if bool_decide (c ∈ closed b) then Some (read_done i b, Failed NetErrClosed) else None
  | DeadlineAt now => if deadline_passed d now then Some (read_done i b, Failed BindDeadline) else None
  | Default => None
  end.

Definition conn_Write (b : WGKernelBackend) (c : nat) (p : bytes) : outcome :=
  if negb (is_conn b c) then None
  else if bool_decide (c ∈ closed b) then Some (b, Failed NetErrClosed)
  else Some (with_queues (toKernel b) (fromKernel b) (readers b) (writers b ++ [(c, p, writeDdl b)]) b, Silent).

(** A case of the select of [sendToKernel]; the default case needs the queue
    full and the connection open. *)
Definition sendToKernel (b : WGKernelBackend) (i : nat) (w : wakeup) : outcome :=
  '(c, p, d) ← writers b !! i;
  match w with
  | Data =>
      if room_in (toKernel b)
      then Some (write_done i (with_queues (toKernel b ++ [p]) (fromKernel b) (readers b) (writers b) b), Count (length p) p)
      else None
  | ConnClosed => if bool_decide (c ∈ closed b) then Some (write_done i b, Failed NetErrClosed) else None
  | DeadlineAt now => if deadline_passed d now then Some (write_done i b, Failed BindDeadline) else None
  | Default =>
      if room_in (toKernel b) || bool_decide (c ∈ closed b) then None
      else Some (write_done i b, Count (length p) [])
  end.

(** [Close] up to [release]. *)
Definition conn_Close (b : WGKernelBackend) (c : nat) : outcome :=
  if negb (is_conn b c) then None
  else if bool_decide (c ∈ closed b) then Some (b, Silent)
  else Some (with_conns (opened b) (conns b) ({[c]} ∪ closed b) (releasing b ++ [c]) b, Silent).

Definition bind_Open (b : WGKernelBackend) (port : Z) : outcome :=
  let gc := match openGen b with Some g => {[g]} ∪ genClosed b | None => genClosed b end in
  Some (with_gens (S (gens b)) (Some (gens b)) (genClosing b) gc b, Ports (if (port =? 0)%Z then 1 else port)%Z (gens b)).

(** [Close] takes the generation away under the lock and closes it after the
    lock is released: another [Open] or [Close] may run in between. *)
Definition bind_Close (b : WGKernelBackend) : outcome :=
  match openGen b with
  | Some g => Some (with_gens (gens b) None (genClosing b ++ [g]) (genClosed b) b, Silent)
  | None => Some (b, Silent)
  end.
Definition bind_Close_gen (b : WGKernelBackend) (i : nat) : outcome :=
  g ← genClosing b !! i;
  let gc := if bool_decide (g ∈ genClosed b) then genClosed b else {[g]} ∪ genClosed b in
  Some (with_gens (gens b) (openGen b) (delete i (genClosing b)) gc b, Silent).

Definition bind_Send (b : WGKernelBackend) (p : bytes) : outcome :=
  if (length p =? 0)%nat then Some (b, Silent)
  else if room_in (fromKernel b)
  then Some (with_queues (toKernel b) (fromKernel b ++ [p]) (readers b) (writers b) b, Silent)
  else Some (b, Silent).

(** The [ReceiveFunc] of generation [gen]. *)
Definition receive (b : WGKernelBackend) (gen room : nat) : outcome :=
  if (gen <? gens b)%nat then
    match toKernel b with
    | [] => None
    | pkt :: q =>
        let data := take room pkt in
        Some (with_queues q (fromKernel b) (readers b) (writers b) b, Count (length data) data)
    end
  else None.
Definition receive_closed (b : WGKernelBackend) (gen : nat) : outcome :=
  if bool_decide (gen ∈ genClosed b) then Some (b, Failed NetErrClosed) else None.

Definition step (b : WGKernelBackend) (a : action) : outcome :=
  match a with
  | Open => backend_Open b
  | ReadCheck c => conn_Read b c
  | ReadPacket i room => recvFromKernel b i room Data
  | ReadClosed i => recvFromKernel b i 0 ConnClosed
  | ReadDeadline i now => recvFromKernel b i 0 (DeadlineAt now)
  | WriteCheck c p => conn_Write b c p
  | WritePut i => sendToKernel b i Data
  | WriteClosed i => sendToKernel b i ConnClosed
  | WriteDeadline i now => sendToKernel b i (DeadlineAt now)
  | WriteDrop i => sendToKernel b i Default
  | CloseCas c => conn_Close b c
  | Release i => release b i
  | SetReadDeadline t => Some (with_ddls t (writeDdl b) b, Silent)
  | SetWriteDeadline t => Some (with_ddls (readDdl b) t b, Silent)
  | SetDeadline t => Some (with_ddls t t b, Silent)
  | BindOpen port => bind_Open b port
  | BindClose => bind_Close b
  | BindCloseGen i => bind_Close_gen b i
  | BindSend p => bind_Send b p
  | Receive gen room => receive b gen room
  | ReceiveClosed gen => receive_closed b gen
  end.

(** ** Runs *)

(** The packets a step puts on, and takes from, each channel. *)
Definition up_put (b : WGKernelBackend) (a : action) : list bytes :=
  match a with
  | WritePut i => match writers b !! i with Some (_, p, _) => [p] | None => [] end
  | _ => []
  end.
Definition up_got (b : WGKernelBackend) (a : action) : list bytes :=
  match a with Receive _ _ => take 1 (toKernel b) | _ => [] end.
Definition down_put (b : WGKernelBackend) (a : action) : list bytes :=
  match a with
  | BindSend p => if negb (length p =? 0)%nat && room_in (fromKernel b) then [p] else []
  | _ => []
  end.
Definition down_got (b : WGKernelBackend) (a : action) : list bytes :=
  match a with ReadPacket _ _ => take 1 (fromKernel b) | _ => [] end.

(** A run with its final state, its answers, and what went through [f]. *)
Fixpoint run (b : WGKernelBackend) (acts : list action) : option WGKernelBackend :=
  match acts with
  | [] => Some b
  | a :: acts => '(b, _) ← step b a; run b acts
  end.
Fixpoint flow (f : WGKernelBackend -> action -> list bytes) (b : WGKernelBackend) (acts : list action) : list bytes :=
  match acts with
  | [] => []
  | a :: acts => f b a ++ match step b a with Some (b, _) => flow f b acts | None => [] end
  end.

(** The connections the server holds open. *)
Definition live (b : WGKernelBackend) : list nat := filter (fun c => c ∉ closed b) (seq 0 (conns b)).

Record gens_ok (n : nat) (cur : option nat) (closing : list nat) (done : gset nat) : Prop := {
  go_cur : forall g, cur = Some g -> (g < n)%nat /\ (g ∉ closing) /\ (g ∉ done);
  go_all : forall g, (g < n)%nat -> cur = Some g \/ (g ∈ closing) \/ g ∈ done;
  go_closing : forall g, g ∈ closing -> (g < n)%nat /\ (g ∉ done);
  go_once : NoDup closing;
  go_done : forall g, g ∈ done -> (g < n)%nat }.

Record backend_ok (b : WGKernelBackend) : Prop := {
  bo_up : (length (toKernel b) <= kernelBindQueueDepth)%nat;
  bo_down : (length (fromKernel b) <= kernelBindQueueDepth)%nat;
  bo_closed : forall c, c ∈ closed b -> (c < conns b)%nat;
  (* a connection that is open or being closed holds the backend *)
  bo_holder : (length (live b) + length (releasing b) = if opened b then 1 else 0)%nat;
  (* a generation is current, being closed, or closed, and only one of these *)
  bo_gens : gens_ok (gens b) (openGen b) (genClosing b) (genClosed b) }.

(** ** Lemmas *)

Lemma filter_ext_in (P Q : nat -> Prop) `{!forall x, Decision (P x), !forall x, Decision (Q x)} (l : list nat) :
  (forall x, x ∈ l -> P x <-> Q x) -> filter P l = filter Q l.
Proof.
  induction l as [|x l IH]; intros Hl; [done|]. rewrite !filter_cons.
  rewrite (decide_ext (P x) (Q x)) by (apply Hl; set_solver). rewrite IH by (intros; apply Hl; set_solver). done.
Qed.

Lemma live_close (cl : gset nat) c l : NoDup l -> (c ∈ l) -> (c ∉ cl) ->
  length (filter (fun x => x ∉ cl) l) = S (length (filter (fun x => x ∉ {[c]} ∪ cl) l)).
Proof.
  induction l as [|x l IH]; intros Hn Hin Hc; [by apply elem_of_nil in Hin|].
  apply NoDup_cons in Hn as [Hx Hn]. rewrite !filter_cons. apply elem_of_cons in Hin as [->|Hin].
  - rewrite decide_True by done. rewrite (decide_False (P := x ∉ {[x]} ∪ cl)) by set_solver.
    cbn [length]. do 2 f_equal. apply filter_ext_in. intros y Hy. assert (y <> x) by (by intros ->). set_solver.
  - assert (x <> c) by (intros ->; done). destruct (decide (x ∉ cl)) as [H1|H1].
    + rewrite decide_True by set_solver. cbn [length]. f_equal. by apply IH.
    + rewrite (decide_False (P := x ∉ {[c]} ∪ cl)) by set_solver. by apply IH.
Qed.

Lemma room_in_spec q : room_in q = true <-> (length q < kernelBindQueueDepth)%nat.
Proof. unfold room_in. apply Nat.ltb_lt. Qed.

Lemma live_open b : backend_ok b -> opened b = false ->
  length (filter (fun c => c ∉ closed b) (seq 0 (S (conns b)))) = 1%nat /\ releasing b = [].
Proof.
  intros [_ _ Hc Hh _] Ho. rewrite Ho in Hh. unfold live in Hh. rewrite seq_S, filter_app, length_app.
  cbn [Nat.add filter list_filter]. rewrite decide_True by (intros H%Hc; lia). cbn [length].
  destruct (releasing b); cbn [length] in Hh; [|lia]. split; [lia|done].
Qed.

Ltac step_inv H := repeat match type of H with
  | (if ?x then _ else _) = Some _ => let E := fresh "E" in destruct x eqn:E; try discriminate H
  | match ?x with _ => _ end = Some _ => let E := fresh "E" in destruct x eqn:E; try discriminate H
  | (?x ≫= _) = Some _ => let E := fresh "E" in destruct x eqn:E; cbn [mbind option_bind] in H; try discriminate H
  end.

Lemma with_queues_ok tk fk rs ws b : backend_ok b ->
  (length tk <= kernelBindQueueDepth)%nat -> (length fk <= kernelBindQueueDepth)%nat ->
  backend_ok (with_queues tk fk rs ws b).
Proof. by intros [] ? ?. Qed.

Lemma with_ddls_ok r w b : backend_ok b -> backend_ok (with_ddls r w b).
Proof. by intros []. Qed.

Lemma read_done_ok i b : backend_ok b -> backend_ok (read_done i b).
Proof. intros H. apply with_queues_ok; [done|apply H..]. Qed.
Lemma write_done_ok i b : backend_ok b -> backend_ok (write_done i b).
Proof. intros H. apply with_queues_ok; [done|apply H..]. Qed.
#[local] Hint Resolve with_ddls_ok read_done_ok write_done_ok : go.

Lemma open_ok b : backend_ok b -> opened b = false ->
  backend_ok (with_conns true (S (conns b)) (closed b) (releasing b) b).
Proof.
  intros Hok Ho. destruct (live_open b Hok Ho) as [Hl Hr]. destruct Hok as [H1 H2 H3 H4 H5].
  split; try done; cbn [with_conns closed conns opened releasing live].
  - intros c ?%H3. lia.
  - unfold live; cbn [with_conns closed conns]. rewrite Hl, Hr. done.
Qed.

Lemma close_ok b c : backend_ok b -> is_conn b c = true -> (c ∉ closed b) ->
  backend_ok (with_conns (opened b) (conns b) ({[c]} ∪ closed b) (releasing b ++ [c]) b).
Proof.
  intros [H1 H2 H3 H4 H5] Hc Hn. unfold is_conn in Hc. bprop.
  split; try done; cbn [with_conns closed conns opened releasing].
  - intros x [->%elem_of_singleton|?%H3]%elem_of_union; done.
  - unfold live in *; cbn [with_conns closed conns] in *.
    rewrite (live_close (closed b) c (seq 0 (conns b))) in H4; [|apply NoDup_seq|apply elem_of_seq; lia|done].
    rewrite length_app. cbn [length]. lia.
Qed.

Lemma release_ok b i c : backend_ok b -> releasing b !! i = Some c ->
  backend_ok (with_conns false (conns b) (closed b) (delete i (releasing b)) b).
Proof.
  intros [H1 H2 H3 H4 H5] Hi. split; try done; cbn [with_conns closed conns opened releasing].
  unfold live in *; cbn [with_conns closed conns] in *. rewrite length_delete by (by eexists).
  apply lookup_lt_Some in Hi. destruct (opened b); lia.
Qed.

Lemma gens_open n cur closing dn : gens_ok n cur closing dn ->
  gens_ok (S n) (Some n) closing (match cur with Some g => {[g]} ∪ dn | None => dn end).
Proof.
  intros [H1 H2 H3 H4 H5]. split; [..|done|].
  - intros g [= <-]. split; [lia|]. split; [intros []%H3; lia|].
    destruct cur as [g'|]; [destruct (H1 g' eq_refl)|]; intros Hg; [|apply H5 in Hg; lia].
    apply elem_of_union in Hg as [E%elem_of_singleton|?%H5]; lia.
  - intros g Hg. destruct (decide (g = n)) as [->|]; [by left|right].
    destruct (H2 g ltac:(lia)) as [->|[|]]; [right; set_solver|by left|]. right. destruct cur; set_solver.
  - intros g Hg. destruct (H3 g Hg). split; [lia|]. destruct cur as [g'|]; [|done].
    destruct (H1 g' eq_refl) as (_ & ? & _). set_solver.
  - intros g. destruct cur as [g'|]; [|intros ?%H5; lia]. destruct (H1 g' eq_refl).
    intros [->%elem_of_singleton|?%H5]%elem_of_union; lia.
Qed.

Lemma gens_take n g closing dn : gens_ok n (Some g) closing dn -> gens_ok n None (closing ++ [g]) dn.
Proof.
  intros [H1 H2 H3 H4 H5]. destruct (H1 g eq_refl) as (Hlt & Hc & Hd). split; [done|..|done].
  - intros g' Hg. destruct (H2 g' Hg) as [[= ->]|[|]]; set_solver.
  - intros g' [?%H3 | ->%list_elem_of_singleton]%elem_of_app; done.
  - apply NoDup_app. split; [done|]. split; [set_solver|apply NoDup_singleton].
Qed.

Lemma gens_close n cur closing dn i g : gens_ok n cur closing dn -> closing !! i = Some g ->
  gens_ok n cur (delete i closing) ({[g]} ∪ dn).
Proof.
  intros [H1 H2 H3 H4 H5] Hi. pose proof (delete_Permutation _ _ _ Hi) as HP.
  assert (Hn : NoDup (g :: delete i closing)) by by rewrite <-HP.
  assert (Hin : forall x, x ∈ closing <-> x = g \/ x ∈ delete i closing).
  { intros x. rewrite HP at 1. apply elem_of_cons. }
  apply NoDup_cons in Hn as [Hg Hn]. destruct (H3 g) as [Hlt Hd]; [apply Hin; auto|].
  split; [..|done|].
  - intros g' E. destruct (H1 g' E) as (? & Hc & ?). rewrite Hin in Hc. set_solver.
  - intros g' Hg'. destruct (H2 g' Hg') as [|[[->|]%Hin|]]; set_solver.
  - intros g' Hg'. destruct (H3 g'); [apply Hin; auto|]. set_solver.
  - intros g' [->%elem_of_singleton|?%H5]%elem_of_union; done.
Qed.

Lemma bind_open_ok b : backend_ok b ->
  backend_ok (with_gens (S (gens b)) (Some (gens b)) (genClosing b)
    (match openGen b with Some g => {[g]} ∪ genClosed b | None => genClosed b end) b).
Proof. intros [H1 H2 H3 H4 H5]. split; try done. by apply gens_open. Qed.

Lemma bind_close_ok b g : backend_ok b -> openGen b = Some g ->
  backend_ok (with_gens (gens b) None (genClosing b ++ [g]) (genClosed b) b).
Proof. intros [H1 H2 H3 H4 H5] E. rewrite E in H5. split; try done. by apply gens_take. Qed.

Lemma bind_close_gen_ok b i g : backend_ok b -> genClosing b !! i = Some g ->
  backend_ok (with_gens (gens b) (openGen b) (delete i (genClosing b))
    (if bool_decide (g ∈ genClosed b) then genClosed b else {[g]} ∪ genClosed b) b).
Proof.
  intros [H1 H2 H3 H4 H5] Hi. split; try done. cbn [with_gens openGen genClosing genClosed gens].
  rewrite bool_decide_false; [by apply gens_close|]. eapply (go_closing _ _ _ _ H5).
  by eapply list_elem_of_lookup_2.
Qed.

(** One step keeps the invariant and moves packets through the channels in
    order. *)
Lemma step_ok b a b' r : step b a = Some (b', r) -> backend_ok b ->
  backend_ok b' /\
  toKernel b ++ up_put b a = up_got b a ++ toKernel b' /\
  fromKernel b ++ down_put b a = down_got b a ++ fromKernel b'.
Proof.
  intros H Hok. pose proof (bo_up b Hok) as Hu. pose proof (bo_down b Hok) as Hd.
  destruct a; cbn [step] in H; unfold backend_Open, release, conn_Read, recvFromKernel, conn_Write, sendToKernel,
    conn_Close, bind_Open, bind_Close, bind_Close_gen, bind_Send, receive, receive_closed in H; step_inv H; injection H as <- <-;
    unfold up_put, up_got, down_put, down_got; rewrite ?app_nil_r; cbn [app].
  all: (split; [|split]; cbn; rewrite ?app_nil_r; try done).
  all: lazymatch goal with
  | |- backend_ok _ => idtac
  | |- _ = _ => repeat match goal with E : ?x = _ |- context [?x] => rewrite E end; cbn; by rewrite ?app_nil_r
  end.
  all: try (apply read_done_ok || apply write_done_ok || apply with_ddls_ok); try done.
  all: try (apply with_queues_ok; [done|rewrite ?length_app; cbn [length]..]).
  all: repeat match goal with E : room_in _ = true |- _ => apply room_in_spec in E end.
  all: try (cbn [length] in Hu, Hd; lia).
  all: bprop.
  - by apply open_ok.
  - apply close_ok; [done|done|]. by eapply bool_decide_eq_false_1.
  - by eapply release_ok.
  - by apply bind_open_ok.
  - by apply bind_close_ok.
  - by apply bind_close_gen_ok.
Qed.

Lemma run_ok acts : forall b b', run b acts = Some b' -> backend_ok b ->
  backend_ok b' /\
  toKernel b ++ flow up_put b acts = flow up_got b acts ++ toKernel b' /\
  fromKernel b ++ flow down_put b acts = flow down_got b acts ++ fromKernel b'.
Proof.
  induction acts as [|a acts IH]; intros b b' H Hok; cbn [run flow] in *.
  - injection H as <-. by rewrite !app_nil_r.
  - destruct (step b a) as [[b1 r]|] eqn:E; [|done]. cbn [mbind option_bind] in H.
    destruct (step_ok _ _ _ _ E Hok) as (Hok1 & Hu & Hd). destruct (IH _ _ H Hok1) as (Hok2 & Hu2 & Hd2).
    split; [done|]. split.
    + by rewrite app_assoc, Hu, <-app_assoc, Hu2, app_assoc.
    + by rewrite app_assoc, Hd, <-app_assoc, Hd2, app_assoc.
Qed.

Lemma NewWGKernelBackend_ok : backend_ok NewWGKernelBackend.
Proof.
  split; cbn; try done; try lia; intros; try lia; try set_solver.
  split; intros; try lia; try done; try set_solver. constructor.
Qed.

(** ** Closing unblocks *)

Definition returns_closed (a : action) : bool :=
  match a with ReadClosed _ | WriteClosed _ => true | _ => false end.

(** A pending call of a closed connection. *)
Definition stuck_reader (b : WGKernelBackend) (r : nat * deadline) : Prop := fst r ∈ closed b.
Definition stuck_writer (b : WGKernelBackend) (w : nat * bytes * deadline) : Prop := fst (fst w) ∈ closed b.
#[global] Instance stuck_reader_dec b r : Decision (stuck_reader b r).
Proof. unfold stuck_reader. apply _. Defined.
#[global] Instance stuck_writer_dec b w : Decision (stuck_writer b w).
Proof. unfold stuck_writer. apply _. Defined.

(** Two states that differ in the pending calls only. *)
Definition same_data (b b' : WGKernelBackend) : Prop :=
  toKernel b' = toKernel b /\ fromKernel b' = fromKernel b /\ closed b' = closed b /\
  opened b' = opened b /\ conns b' = conns b /\ releasing b' = releasing b.

Lemma drain_readers n : forall b, (length (readers b) <= n)%nat ->
  exists acts b', forallb returns_closed acts = true /\ (length acts <= n)%nat /\ run b acts = Some b' /\
    same_data b b' /\ writers b' = writers b /\ Forall (fun r => ~ stuck_reader b' r) (readers b').
Proof.
  induction n as [|n IH]; intros b Hn; destruct (decide (Exists (stuck_reader b) (readers b))) as [He|He].
  2,4: exists [], b; split_and!; try done; first [by apply Forall_Exists_neg | cbn [length]; lia].
  all: apply Exists_exists in He as ([c d] & Hin & Hc); apply list_elem_of_lookup in Hin as [i Hi];
    pose proof (lookup_lt_Some _ _ _ Hi); try lia.
  assert (length (readers (read_done i b)) <= n)%nat as Hlen.
  { cbn [read_done with_queues readers]. rewrite length_delete by (by eexists). lia. }
  destruct (IH (read_done i b) Hlen) as (acts & b' & H1 & H2 & H3 & H4 & H5 & H6).
  exists (ReadClosed i :: acts), b'. split_and!; try done; [cbn [length]; lia|].
  cbn [run step]. unfold recvFromKernel. rewrite Hi. cbn [mbind option_bind]. unfold stuck_reader in Hc. cbn [fst] in Hc.
  by rewrite bool_decide_true.
Qed.

Lemma drain_writers n : forall b, (length (writers b) <= n)%nat ->
  exists acts b', forallb returns_closed acts = true /\ (length acts <= n)%nat /\ run b acts = Some b' /\
    same_data b b' /\ readers b' = readers b /\ Forall (fun w => ~ stuck_writer b' w) (writers b').
Proof.
  induction n as [|n IH]; intros b Hn; destruct (decide (Exists (stuck_writer b) (writers b))) as [He|He].
  2,4: exists [], b; split_and!; try done; first [by apply Forall_Exists_neg | cbn [length]; lia].
  all: apply Exists_exists in He as ([[c p] d] & Hin & Hc); apply list_elem_of_lookup in Hin as [i Hi];
    pose proof (lookup_lt_Some _ _ _ Hi); try lia.
  assert (length (writers (write_done i b)) <= n)%nat as Hlen.
  { cbn [write_done with_queues writers]. rewrite length_delete by (by eexists). lia. }
  destruct (IH (write_done i b) Hlen) as (acts & b' & H1 & H2 & H3 & H4 & H5 & H6).
  exists (WriteClosed i :: acts), b'. split_and!; try done; [cbn [length]; lia|].
  cbn [run step]. unfold sendToKernel. rewrite Hi. cbn [mbind option_bind]. unfold stuck_writer in Hc. cbn [fst] in Hc.
  by rewrite bool_decide_true.
Qed.

Lemma run_app acts1 : forall b acts2, run b (acts1 ++ acts2) = (b' ← run b acts1; run b' acts2).
Proof.
  induction acts1 as [|a acts1 IH]; intros b acts2; [done|]. cbn [app run].
  destruct (step b a) as [[b1 r]|]; [|done]. apply IH.
Qed.

(** ** Theorems *)


Definition bridge_acts : list action :=
  [BindOpen 0; Open; ReadCheck 0; WriteCheck 0 "up"; BindSend "one"; WritePut 0; BindSend "two"; BindOpen 7;
   ReadPacket 0 1500; Receive 1 1500; CloseCas 0; Release 0; Open; ReadCheck 1; ReadPacket 0 2].


(** Closing a connection leaves no goroutine behind: in every state all
    pending reads and writes of closed connections can return with
    [net.ErrClosed], without waiting for a packet, a deadline or any other
    call, in at most one step each, the data and the other calls untouched. *)
Theorem close_unblocks b :
  exists returns b', forallb returns_closed returns = true /\
    (length returns <= length (readers b) + length (writers b))%nat /\
    run b returns = Some b' /\ same_data b b' /\
    Forall (fun r => ~ stuck_reader b' r) (readers b') /\ Forall (fun w => ~ stuck_writer b' w) (writers b').
Proof.
  destruct (drain_readers (length (readers b)) b (le_n _)) as (a1 & b1 & H1 & H2 & H3 & H4 & H5 & H6).
  destruct (drain_writers (length (writers b1)) b1 (le_n _)) as (a2 & b2 & G1 & G2 & G3 & G4 & G5 & G6).
  exists (a1 ++ a2), b2. split_and!.
  - by rewrite forallb_app, H1, G1.
  - rewrite length_app. rewrite H5 in G2. lia.
  - by rewrite run_app, H3.
  - unfold same_data in *. naive_solver congruence.
  - rewrite G5. unfold stuck_reader in *. destruct G4 as (_ & _ & -> & _). done.
  - done.
Qed.

(** An [Open] between the two halves of a [Close]: both receive functions take
    packets until the [Close] goes on. *)
Example open_within_close :
  exists b b', run NewWGKernelBackend [BindOpen 0; BindClose; BindOpen 0] = Some b /\
    step b (ReceiveClosed 0) = None /\ step b (ReceiveClosed 1) = None /\
    step b (BindCloseGen 0) = Some (b', Silent) /\
    step b' (ReceiveClosed 0) = Some (b', Failed NetErrClosed) /\ step b' (ReceiveClosed 1) = None.
Proof. eexists _, _. split; [vm_compute; reflexivity|]. vm_compute. done. Qed.

Definition blocked_acts : list action :=
  [Open; ReadCheck 0; WriteCheck 0 "late"; ReadCheck 0; CloseCas 0; Release 0; Open; ReadCheck 1].

Example blocked_calls_return :
  exists b, run NewWGKernelBackend blocked_acts = Some b /\ length (readers b) = 3%nat /\
  run b [ReadClosed 1; ReadClosed 0; WriteClosed 0] <> None /\ run b [ReadClosed 2] = None.
Proof. eexists. split; [vm_compute; reflexivity|]. vm_compute. done. Qed.

(** What the kernel sent for one session is read by the next: the channels
    outlive the connection. *)
Example next_session_reads_stale_packets :
  exists b b', run NewWGKernelBackend
    [BindOpen 0; Open; BindSend "secret"; CloseCas 0; Release 0; Open; ReadCheck 1] = Some b /\
  step b (ReadPacket 0 1500) = Some (b', Count 6 "secret").
Proof. eexists _, _. split; [vm_compute; reflexivity|]. vm_compute. reflexivity. Qed.

(** A deadline set while a [Read] is blocked does not reach it: after it has
    passed, only a packet or [Close] lets the call go on. *)
Example deadline_misses_blocked_read :
  exists b, run NewWGKernelBackend [BindOpen 0; Open; ReadCheck 0; SetDeadline (Some 5%Z)] = Some b /\
  step b (ReadDeadline 0 10) = None.
Proof. eexists. split; [vm_compute; reflexivity|]. vm_compute. reflexivity. Qed.

(** A packet larger than the reader's buffer is cut silently. *)
Example short_read_truncates :
  exists b b', run NewWGKernelBackend [BindOpen 0; Open; BindSend "packet"; ReadCheck 0] = Some b /\
  step b (ReadPacket 0 3) = Some (b', Count 3 "pac").
Proof. eexists _, _. split; [vm_compute; reflexivity|]. vm_compute. reflexivity. Qed.
