(* ===== verification/Yandex.v ===== *)
(** * pkg/wgturn/provider/yandex: TURN credentials from Yandex Telemost

    parse.go, api.go, ws.go and provider.go.  The answer to the HTTP request,
    the WebSocket's behaviour and the random identifiers are arguments.  Go
    ranges over a map in no fixed order: the order in which the search of a
    frame visits an object's members is an argument too. *)

From S2P Require Import Prelude GoStrings GoErrors GoTime Encoding NetIP Json Creds WgShare Vk.

(** ** parse.go *)

Definition ErrInvalidLink : error := errors_New "yandex: invalid telemost link".

Definition isCallIDRune (c : byte) : bool :=
  between 97 122 c || between 65 90 c || is_digit c ||
  Byte.eqb c "-" || Byte.eqb c "_" || Byte.eqb c ".".

Definition extractCallID (link : bytes) : result error bytes :=
  let s := TrimSpace link in
  guard negb (s =s? []) else ErrInvalidLink in
  let s := if HasPrefix (ToLower s) "telemost:" then drop 9 s else s in
  let urlLike := Contains s "/" || Contains s "://" in
  let s := match Index s "://" with Some i => drop (i + 3) s | None => s end in
  let* s := match Index s "/j/" with
            | Some i => Ok (drop (i + 3) s)
            | None => if urlLike then Err ErrInvalidLink else Ok s
            end in
  let s := match IndexAny s "/?#" with Some i => take i s | None => s end in
  let s := TrimSpace s in
  guard negb (s =s? []) else ErrInvalidLink in
  guard forallb isCallIDRune s else ErrInvalidLink in
  Ok s.

Definition IsTelemostLink (s : bytes) : bool :=
  let low := ToLower (TrimSpace s) in
  HasPrefix low "telemost:" || Contains low "telemost.yandex.".

Definition parseTurnURL (s : bytes) : result error bytes :=
  let s := TrimSpace s in
  guard negb (s =s? []) else errors_New "yandex: empty turn URL" in
  let s := drop_scheme ["turns:"%go; "turn:"%go; "stuns:"%go; "stun:"%go] s in
  let s := match IndexByte s "?" with Some i => take i s | None => s end in
  match SplitHostPort s with
  | Err _ => Err (errors_New ("yandex: turn URL missing host:port: " ++ s))
  | Ok (host, port) =>
      guard negb (host =s? []) else errors_New ("yandex: turn URL missing host: " ++ s) in
      match Atoi port with
      | Some n =>
          guard negb ((n <? 1)%Z || (65535 <? n)%Z) else errors_New ("yandex: turn URL has bad port: " ++ s) in
          Ok s
      | None => Err (errors_New ("yandex: turn URL has bad port: " ++ s))
      end
  end.

(** ** api.go: the shape of the first answer *)

Definition isTurnURL (s : bytes) : bool :=
  let s := ToLower (TrimSpace s) in HasPrefix s "turn:" || HasPrefix s "turns:".

Record iceServer := mkIce { Urls : list bytes; Username : bytes; Credential : bytes }.

Record conferenceResponse := mkConf {
  RoomID : bytes; PeerID : bytes; SessionID : bytes; PeerSessionID : bytes; URI : bytes;
  MediaPlatform : bytes; cr_Credentials : bytes; WSURI : bytes; ConnectionType : bytes;
  MediaServerURL : bytes; ServiceName : bytes; cc_IceServers : list iceServer;
  IceServers : list iceServer }.

(** [jsonStringOrSlice.UnmarshalJSON]: what it is given replaces the old
    value, null included. *)
Definition decode_string_or_slice (j : json) : option (list bytes) :=
  match j with
  | JStr s => Some [s]
  | JArr l => decode_list [] l
  | JNull => Some []
  | _ => None
  end.

Definition decode_ice_member (s : iceServer) (kv : bytes * json) : option iceServer :=
  let '(mkIce urls user cred) := s in
  let '(k, j) := kv in
  if EqualFold k "urls" then x ← decode_string_or_slice j; Some (mkIce x user cred)
  else if EqualFold k "username" then x ← decode_string user j; Some (mkIce urls x cred)
  else if EqualFold k "credential" then x ← decode_string cred j; Some (mkIce urls user x)
  else Some s.

Definition no_ice : iceServer := mkIce [] [] [].
Fixpoint decode_ices (old : list iceServer) (l : list json) : option (list iceServer) :=
  match l with
  | [] => Some []
  | j :: l =>
      s ← decode_object decode_ice_member (default no_ice (head old)) j;
      ls ← decode_ices (tail old) l; Some (s :: ls)
  end.
Definition decode_ice_servers (old : list iceServer) (j : json) : option (list iceServer) :=
  match j with JArr l => decode_ices old l | JNull => Some [] | _ => None end.

Definition decode_client_member (c : bytes * bytes * list iceServer) (kv : bytes * json) : option (bytes * bytes * list iceServer) :=
  let '(url, name, ice) := c in
  let '(k, j) := kv in
  if EqualFold k "media_server_url" then x ← decode_string url j; Some (x, name, ice)
  else if EqualFold k "service_name" then x ← decode_string name j; Some (url, x, ice)
  else if EqualFold k "ice_servers" then x ← decode_ice_servers ice j; Some (url, name, x)
  else Some c.

Definition decode_conf_member (c : conferenceResponse) (kv : bytes * json) : option conferenceResponse :=
  let '(mkConf rid pid sid psid uri mp cr ws ct url name ci ice) := c in
  let '(k, j) := kv in
  if EqualFold k "room_id" then x ← decode_string rid j; Some (mkConf x pid sid psid uri mp cr ws ct url name ci ice)
  else if EqualFold k "peer_id" then x ← decode_string pid j; Some (mkConf rid x sid psid uri mp cr ws ct url name ci ice)
  else if EqualFold k "session_id" then x ← decode_string sid j; Some (mkConf rid pid x psid uri mp cr ws ct url name ci ice)
  else if EqualFold k "peer_session_id" then x ← decode_string psid j; Some (mkConf rid pid sid x uri mp cr ws ct url name ci ice)
  else if EqualFold k "uri" then x ← decode_string uri j; Some (mkConf rid pid sid psid x mp cr ws ct url name ci ice)
  else if EqualFold k "media_platform" then x ← decode_string mp j; Some (mkConf rid pid sid psid uri x cr ws ct url name ci ice)
  else if EqualFold k "credentials" then x ← decode_string cr j; Some (mkConf rid pid sid psid uri mp x ws ct url name ci ice)
  else if EqualFold k "ws_uri" then x ← decode_string ws j; Some (mkConf rid pid sid psid uri mp cr x ct url name ci ice)
  else if EqualFold k "connection_type" then x ← decode_string ct j; Some (mkConf rid pid sid psid uri mp cr ws x url name ci ice)
  else if EqualFold k "client_configuration" then
    '(url, name, ci) ← decode_object decode_client_member (url, name, ci) j;
    Some (mkConf rid pid sid psid uri mp cr ws ct url name ci ice)
  else if EqualFold k "ice_servers" then x ← decode_ice_servers ice j; Some (mkConf rid pid sid psid uri mp cr ws ct url name ci x)
  else Some c.
Definition no_conf : conferenceResponse := mkConf [] [] [] [] [] [] [] [] [] [] [] [] [].
Definition Unmarshal_conf (body : bytes) : option conferenceResponse :=
  j ← Json.parse body; decode_object decode_conf_member no_conf j.

(** TURN credentials: user, password, address. *)
Abbreviation turn := (bytes * bytes * bytes)%type.

Definition turn_url (raw : bytes) : option bytes :=
  if isTurnURL raw then match parseTurnURL raw with Ok addr => Some addr | Err _ => None end else None.

Definition turnFromConference (c : conferenceResponse) : option turn :=
  first_some (first_some (fun srv =>
    first_some (fun raw => addr ← turn_url raw; Some (Username srv, Credential srv, addr)) (Urls srv)))
    [IceServers c; cc_IceServers c].

(** ** ws.go: the search of a frame *)

Definition tryICEEntry (v : json) : option turn :=
  match v with
  | JObj m =>
      let urls := match jget m "urls" with
                  | Some u => Some u
                  | None => jget m "url"
                  end in
      match urls with
      | None | Some JNull => None
      | Some urls =>
          let username := as_string (jget m "username") in
          let credential := as_string (jget m "credential") in
          if (username =s? []) || (credential =s? []) then None else
          match urls with
          | JStr u => addr ← turn_url u; Some (username, credential, addr)
          | JArr l =>
              first_some (fun e => match e with
                                   | JStr s => addr ← turn_url s; Some (username, credential, addr)
                                   | _ => None
                                   end) l
          | _ => None
          end
      end
  | _ => None
  end.

(** The members of the map an object decodes to: the last of each key. *)
Fixpoint go_map (l : list (bytes * json)) : list (bytes * json) :=
  match l with
  | [] => []
  | (k, j) :: l => if existsb (fun kv => fst kv =s? k) l then go_map l else (k, j) :: go_map l
  end.

Fixpoint first_at {A B} (f : nat -> A -> option B) (i : nat) (l : list A) : option B :=
  match l with
  | [] => None
  | x :: l => match f i x with Some y => Some y | None => first_at f (S i) l end
  end.

Definition ice_keys : list bytes := ["iceServers"%go; "ice_servers"%go; "iceServer"%go; "ice_server"%go].

Section Walk.
(** The order of the iteration over a map, at each place of the search. *)
Context (order : list nat -> list (bytes * json) -> list (bytes * json)).

(** [fuel] bounds the nesting; [path] says where the search is. *)
Fixpoint walkForTurn (fuel : nat) (path : list nat) (v : json) : option turn :=
  match fuel with
  | O => None
  | S fuel =>
      match v with
      | JArr l =>
          match first_some tryICEEntry l with
          | Some c => Some c
          | None => first_at (fun i e => walkForTurn fuel (i :: path) e) 0 l
          end
      | JObj m =>
          match first_at (fun i key => e ← jget m key; walkForTurn fuel (i :: path) e) 0 ice_keys with
          | Some c => Some c
          | None =>
              match tryICEEntry v with
              | Some c => Some c
              | None => first_at (fun i kv => walkForTurn fuel (i :: path) (snd kv)) 4 (order path (go_map m))
              end
          end
      | _ => None
      end
  end.

Fixpoint depth (v : json) : nat :=
  match v with
  | JArr l => S (list_max (map depth l))
  | JObj m => S (list_max (map (fun kv => depth (snd kv)) m))
  | _ => 1
  end.

Definition scanFrameForTurn (b : bytes) : option turn :=
  v ← Unmarshal_any b; walkForTurn (depth v) [] v.
End Walk.

(** ** ws.go: the exchange *)

(** What becomes of the next read before the deadline: a frame, or an error. *)
Inductive ws_read := Frame (raw : bytes) | ReadFailed (e : error).

Record ws_env := mkWs {
  ws_dial : option error;
  ws_hello_uid : bytes;
  ws_sdk_id : bytes;
  ws_hello_write : option error;
  ws_reads : list ws_read;          (* until the 15 seconds are over *)
  ws_order : list nat -> list (bytes * json) -> list (bytes * json) }.

(** [mustMarshal] of the ack: a map's keys are sorted. *)
Definition ack_body (uid : bytes) : bytes :=
  print (JObj [("ack"%go, JObj [("status"%go, JObj [("code"%go, JStr "OK"); ("description"%go, JStr [])])]);
               ("uid"%go, JStr uid)]).

Definition hello_body (uid sdk : bytes) (conf : conferenceResponse) : bytes :=
  let name := if ServiceName conf =s? [] then "telemost"%go else ServiceName conf in
  print (JObj
    [("hello"%go, JObj
       [("capabilitiesOffer"%go, JObj []);
        ("credentials"%go, JStr (cr_Credentials conf));
        ("participantAttributes"%go, JObj
           [("description"%go, JStr []); ("name"%go, JStr "Guest"); ("role"%go, JStr "SPEAKER")]);
        ("participantId"%go, JStr (PeerID conf));
        ("participantMeta"%go, JObj
           [("description"%go, JStr []); ("name"%go, JStr "Guest"); ("role"%go, JStr "SPEAKER");
            ("sendAudio"%go, JBool false); ("sendVideo"%go, JBool false)]);
        ("roomId"%go, JStr (RoomID conf));
        ("sdkInfo"%go, JObj [("implementation"%go, JStr "browser"); ("version"%go, JStr "1.0.0")]);
        ("sdkInitializationId"%go, JStr sdk);
        ("sendAudio"%go, JBool false); ("sendSharing"%go, JBool false); ("sendVideo"%go, JBool false);
        ("serviceName"%go, JStr name)]);
     ("uid"%go, JStr uid)]).

(** The uid of a frame and whether it has an ack: a member of the wrong type
    is passed over, a frame that is no object has neither. *)
Fixpoint probe_members (uid : bytes) (ack : bool) (l : list (bytes * json)) : bytes * bool :=
  match l with
  | [] => (uid, ack)
  | (k, j) :: l =>
      if EqualFold k "uid" then probe_members (match j with JStr s => s | _ => uid end) ack l
      else if EqualFold k "ack" then probe_members uid true l
      else probe_members uid ack l
  end.
Definition probe (raw : bytes) : bytes * bool :=
  match Json.parse raw with Some (JObj l) => probe_members [] false l | _ => ([], false) end.

(** The frame's ack, when it wants one: not an ack itself, not the answer to
    the hello. *)
Definition ack_for (hello raw : bytes) : list bytes :=
  let '(uid, ack) := probe raw in
  if negb (uid =s? []) && negb ack && negb (uid =s? hello) then [ack_body uid] else [].

(** The loop over the frames: what it writes and what it returns.  A failed
    ack is only logged. *)
Fixpoint ws_loop (E : ws_env) (reads : list ws_read) : list bytes * result error turn :=
  match reads with
  | [] => ([], Err (errors_New "ws: no turn ice_servers within deadline"))
  | ReadFailed e :: _ => ([], Err (Errorf_w "ws read: " e))
  | Frame raw :: reads =>
      let acks := ack_for (ws_hello_uid E) raw in
      match scanFrameForTurn (ws_order E) raw with
      | Some c => (acks, Ok c)
      | None => let '(w, r) := ws_loop E reads in (acks ++ w, r)
      end
  end.

(** What is written to the socket, in order, and the result. *)
Definition wsFetchTurn (E : ws_env) (conf : conferenceResponse) : list bytes * result error turn :=
  if MediaServerURL conf =s? [] then ([], Err (errors_New "media_server_url is empty")) else
  match ws_dial E with
  | Some e => ([], Err (Errorf_w "ws dial: " e))
  | None =>
      let hello := hello_body (ws_hello_uid E) (ws_sdk_id E) conf in
      match ws_hello_write E with
      | Some e => ([hello], Err (Errorf_w "ws write hello: " e))
      | None => let '(w, r) := ws_loop E (ws_reads E) in (hello :: w, r)
      end
  end.

(** ** api.go: fetchTurn *)

Definition cloudAPIHost : bytes := "https://cloud-api.yandex.ru".

(** [url.PathEscape]. *)
Definition path_byte (c : byte) : bytes :=
  if unreserved c || existsb (Byte.eqb c) "$&+:=@" then [c]
  else [x25; upper_hex (byte_val c / 16); upper_hex (byte_val c mod 16)].
Definition PathEscape (s : bytes) : bytes := concat (map path_byte s).

Definition endpoint (base callID : bytes) : bytes :=
  let base := if base =s? [] then cloudAPIHost else base in
  TrimRight_slash base ++ "/telemost_front/v2/telemost/conferences/" ++
  PathEscape ("https://telemost.yandex.ru/j/" ++ callID) ++
  "/connection?next_gen_media_platform_allowed=false".

(** The [error] and [description] of a 404's body. *)
Definition decode_api_error (acc : bytes * bytes) (kv : bytes * json) : bytes * bytes :=
  let '(err, desc) := acc in
  let '(k, j) := kv in
  if EqualFold k "error" then (default err (decode_string err j), desc)
  else if EqualFold k "description" then (err, default desc (decode_string desc j))
  else (err, desc).
Definition api_error (body : bytes) : bytes * bytes :=
  match Json.parse body with Some (JObj l) => fold_left decode_api_error l ([], []) | _ => ([], []) end.

(** The answer to the first request, up to the decoded body. *)
Definition step1 (o : http_outcome) : result error conferenceResponse :=
  match o with
  | BuildFailed e => Err (Errorf_w "build step1 request: " e)
  | HttpFailed e => Err (Errorf_w "step1 http: " e)
  | Vk.ReadFailed e => Err (Errorf_w "step1 read: " e)
  | Replied status _ body =>
      let body := take (Z.to_nat (1024 * 1024)) body in
      if (status =? 404)%Z then
        let '(err, desc) := api_error body in
        Err (Errorf_pre ErrAuthFailure (": telemost: " ++ err ++ [x20; xe2; x80; x94; x20] ++ desc))
      else if (status =? 401)%Z || (status =? 403)%Z then
        Err (Errorf_pre ErrAuthFailure (": HTTP " ++ itoa status ++ " " ++ bytesPreview body))
      else if negb (status =? 200)%Z then
        Err (errors_New ("step1 HTTP " ++ itoa status ++ ": " ++ bytesPreview body))
      else
        match Unmarshal_conf body with
        | Some conf => Ok conf
        | None => Err (errors_New ("step1 decode: (body=" ++ bytesPreview body ++ ")"))
        end
  end.

(** [http] answers the request for a URL, [ws] is the socket then dialed.
    Returned with the result: what was written to the socket. *)
Definition fetchTurn (http : bytes -> http_outcome) (ws : bytes -> ws_env) (base callID : bytes)
    : list bytes * result error turn :=
  match step1 (http (endpoint base callID)) with
  | Err e => ([], Err e)
  | Ok conf =>
      match turnFromConference conf with
      | Some c => ([], Ok c)
      | None =>
          if MediaServerURL conf =s? [] then
            ([], Err (errors_New "yandex: step1 missing client_configuration.media_server_url and no inline TURN creds"))
          else
            let '(w, r) := wsFetchTurn (ws (MediaServerURL conf)) conf in
            (w, rwrap (Errorf_w "step2 ws: ") r)
      end
  end.

(** ** provider.go *)

(** [Quote] is [strconv.Quote]. *)
Definition Fetch (Quote : bytes -> bytes) (http : bytes -> http_outcome) (ws : bytes -> ws_env)
    (cloudAPI hint : bytes) : list bytes * result error Credentials :=
  match extractCallID hint with
  | Err e => ([], Err (Errorf_w ("yandex: parse hint " ++ Quote hint ++ ": ") e))
  | Ok callID =>
      let '(w, r) := fetchTurn http ws cloudAPI callID in
      (w, match r with
          | Ok (user, pass, addr) => Ok (mkCredentials user pass addr 0)
          | Err e => Err e
          end)
  end.

(** ** cmd/wgturn-cli: the routed provider (main.go) *)

(** [routedProvider.Fetch]. *)
Definition routed_Fetch {A} (vk yandex : bytes -> A) (hint : bytes) : A :=
  if IsTelemostLink hint then yandex hint else vk hint.

(** ** Lemmas: searching lists *)

Lemma first_at_in {A B} (f : nat -> A -> option B) l : forall i y,
  first_at f i l = Some y -> exists j x, x ∈ l /\ f j x = Some y.
Proof.
  induction l as [|x l IH]; intros i y; cbn [first_at]; [done|]. destruct (f i x) eqn:E.
  - intros [= <-]. exists i, x. split; [set_solver|done].
  - intros (j & z & Hz & H)%IH. exists j, z. split; [set_solver|done].
Qed.

Lemma first_at_found {A B} (f : nat -> A -> option B) l : forall i x,
  x ∈ l -> (forall j, is_Some (f j x)) -> is_Some (first_at f i l).
Proof.
  induction l as [|y l IH]; intros i x Hx Hf; cbn [first_at]; [by apply elem_of_nil in Hx|].
  destruct (f i y) eqn:E; [by eauto|]. apply elem_of_cons in Hx as [->|Hx].
  - specialize (Hf i). rewrite E in Hf. by destruct Hf.
  - by eapply IH.
Qed.

Lemma first_at_ext {A B} (f g : nat -> A -> option B) l : forall i,
  (forall j x, x ∈ l -> f j x = g j x) -> first_at f i l = first_at g i l.
Proof.
  induction l as [|x l IH]; intros i H; cbn [first_at]; [done|]. rewrite H by set_solver.
  destruct (g i x); [done|]. apply IH. intros; apply H; set_solver.
Qed.

(** ** Lemmas: objects as maps *)

Lemma jget_in m k j : jget m k = Some j -> (k, j) ∈ m.
Proof.
  induction m as [|[k' j'] m IH]; cbn [jget]; [done|]. destruct (jget m k).
  - intros [= ->]. apply elem_of_cons. right. by apply IH.
  - destruct (seqb_spec k' k) as [->|]; [|done]. intros [= ->]. set_solver.
Qed.

Lemma jget_none m k : existsb (fun kv => fst kv =s? k) m = false -> jget m k = None.
Proof.
  induction m as [|[k' j'] m IH]; cbn [jget existsb fst]; [done|]. intros [E1 E2]%orb_false_iff.
  by rewrite IH, E1.
Qed.

Lemma go_map_sub m kv : kv ∈ go_map m -> kv ∈ m.
Proof.
  induction m as [|[k j] m IH]; cbn [go_map]; [done|].
  destruct (existsb _ m); set_solver.
Qed.

Lemma jget_go_map m k j : jget m k = Some j <-> (k, j) ∈ go_map m.
Proof.
  induction m as [|[k' j'] m IH]; cbn [jget go_map].
  - split; [done|]. by intros ?%elem_of_nil.
  - destruct (existsb (fun kv => fst kv =s? k') m) eqn:E.
    + rewrite <-IH. destruct (jget m k) eqn:Ej; [done|]. split; [|done].
      destruct (seqb_spec k' k) as [->|]; [|done]. intros _. exfalso.
      apply existsb_exists in E as ([k1 j1] & Hin & E). cbn [fst] in E. apply seqb_eq in E as ->.
      clear -Ej Hin. induction m as [|[k2 j2] m IH]; [done|]. cbn [jget] in Ej.
      destruct Hin as [[= -> ->]|Hin]; destruct (jget m k) eqn:E2; try done; [by rewrite seqb_refl in Ej|].
      by apply IH.
    + rewrite elem_of_cons. destruct (seqb_spec k' k) as [->|Hne].
      * rewrite (jget_none m k E). split; [intros [= ->]; by left|]. intros [[= ->]|H]; [done|].
        apply IH in H. by rewrite (jget_none m k E) in H.
      * rewrite <-IH. destruct (jget m k); [split; [by right|by intros [[= -> ->]|?]]|].
        split; [done|]. by intros [[= -> ->]|?].
Qed.

(** ** The search *)

(** [x] occurs in [v], through arrays and through objects read as maps. *)
Inductive inside (x : json) : json -> Prop :=
| inside_here : inside x x
| inside_arr l e : e ∈ l -> inside x e -> inside x (JArr l)
| inside_obj m k e : jget m k = Some e -> inside x e -> inside x (JObj m).

Lemma depth_pos v : (1 <= depth v)%nat.
Proof. destruct v; cbn [depth]; lia. Qed.

Lemma list_max_in n l : n ∈ l -> (n <= list_max l)%nat.
Proof.
  intros H. pose proof (proj1 (list_max_le l (list_max l)) (le_n _)) as Hf.
  rewrite List.Forall_forall in Hf. apply Hf. by apply list_elem_of_In.
Qed.

Lemma depth_arr l e : e ∈ l -> (depth e < depth (JArr l))%nat.
Proof.
  intros H. cbn [depth]. apply Nat.lt_succ_r, list_max_in, list_elem_of_In, in_map.
  by apply list_elem_of_In.
Qed.

Lemma depth_obj m k e : (k, e) ∈ m -> (depth e < depth (JObj m))%nat.
Proof.
  intros H. cbn [depth]. apply Nat.lt_succ_r, list_max_in, list_elem_of_In.
  apply (in_map (fun kv : bytes * json => depth (snd kv)) m (k, e)). by apply list_elem_of_In.
Qed.

Section Walk_correct.
Context (order : list nat -> list (bytes * json) -> list (bytes * json)).
Context (order_perm : forall path m, order path m ≡ₚ m).

Lemma order_in path m kv : kv ∈ order path (go_map m) <-> jget m (fst kv) = Some (snd kv).
Proof. rewrite order_perm. destruct kv. by rewrite jget_go_map. Qed.

Lemma walk_stable f1 : forall f2 path v, (depth v <= f1)%nat -> (depth v <= f2)%nat ->
  walkForTurn order f1 path v = walkForTurn order f2 path v.
Proof.
  induction f1 as [|f1 IH]; intros f2 path v H1 H2; [pose proof (depth_pos v); lia|].
  destruct f2 as [|f2]; [pose proof (depth_pos v); lia|]. destruct v as [| | | |l|m]; try done.
  - cbn [walkForTurn]. destruct (first_some _ _); [done|].
    apply first_at_ext. intros j e He. apply depth_arr in He. apply IH; lia.
  - assert (forall p k e, jget m k = Some e -> walkForTurn order f1 p e = walkForTurn order f2 p e) as Hc.
    { intros p k e He%jget_in%depth_obj. apply IH; lia. }
    cbn [walkForTurn].
    rewrite (first_at_ext _ (fun i key => e ← jget m key; walkForTurn order f2 (i :: path) e)).
    2:{ intros j k _. destruct (jget m k) eqn:E; [|done]. by apply (Hc _ k). }
    destruct (first_at _ 0 _); [done|]. destruct (tryICEEntry _); [done|].
    apply first_at_ext. intros j [k e] Hin%order_in. by apply (Hc _ k).
Qed.

Lemma walk_sound fuel : forall path v c, walkForTurn order fuel path v = Some c ->
  exists e, inside e v /\ tryICEEntry e = Some c.
Proof.
  induction fuel as [|fuel IH]; intros path v c H; [done|]. destruct v as [| | | |l|m]; try done; cbn [walkForTurn] in H.
  - destruct (first_some tryICEEntry l) eqn:E.
    + injection H as ->. apply first_some_in in E as (e & He & E). exists e. split; [|done].
      econstructor 2; [done|constructor].
    + apply first_at_in in H as (j & e & He & H). apply IH in H as (x & Hx & H). exists x.
      split; [by econstructor 2|done].
  - destruct (first_at _ 0 ice_keys) eqn:E.
    + injection H as ->. apply first_at_in in E as (j & k & _ & E). destruct (jget m k) as [e|] eqn:Ej; [|done].
      apply IH in E as (x & Hx & E). exists x. split; [by econstructor 3|done].
    + destruct (tryICEEntry (JObj m)) eqn:Et; [exists (JObj m); split; [constructor|congruence]|].
      apply first_at_in in H as (j & [k e] & He & H). apply order_in in He.
      apply IH in H as (x & Hx & H). exists x. split; [by econstructor 3|done].
Qed.

Lemma walk_complete fuel : forall path v e, (depth v <= fuel)%nat -> inside e v -> is_Some (tryICEEntry e) ->
  is_Some (walkForTurn order fuel path v).
Proof.
  induction fuel as [|fuel IH]; intros path v e Hd Hin Ht; [pose proof (depth_pos v); lia|].
  destruct Hin as [|l e' He Hin|m k e' He Hin].
  - destruct e as [| | | | |m]; try by destruct Ht. cbn [walkForTurn].
    destruct (first_at _ 0 _); [by eauto|]. by destruct (tryICEEntry (JObj m)).
  - cbn [walkForTurn]. destruct (first_some _ _); [by eauto|]. apply (first_at_found _ _ _ e'); [done|].
    intros j. apply (IH _ _ e); [|done..]. apply depth_arr in He. lia.
  - cbn [walkForTurn]. destruct (first_at _ 0 _); [by eauto|]. destruct (tryICEEntry (JObj m)); [by eauto|].
    apply (first_at_found _ _ _ (k, e')); [by apply order_in|].
    intros j. apply (IH _ _ e); [|done..]. apply jget_in, depth_obj in He. cbn [snd]. lia.
Qed.
End Walk_correct.

(** An address [parseTurnURL] accepts is [host:port] with a port of sixteen
    bits. *)
Definition turn_addr_ok (addr : bytes) : Prop :=
  exists host port n, SplitHostPort addr = Ok (host, port) /\ host <> [] /\ Atoi port = Some n /\ (1 <= n <= 65535)%Z.

Lemma parseTurnURL_addr s addr : parseTurnURL s = Ok addr -> turn_addr_ok addr.
Proof.
  unfold parseTurnURL. intros H. inv_result H. destruct (SplitHostPort _) as [[host port]|] eqn:Es; [|done].
  inv_result H. destruct (Atoi port) as [n|] eqn:En; [|done]. inv_result H. injection H as <-. bprop.
  exists host, port, n. split_and!; [done|by apply seqb_neq|done|lia..].
Qed.

Lemma turn_url_ok raw addr : turn_url raw = Some addr -> turn_addr_ok addr.
Proof.
  unfold turn_url. destruct (isTurnURL raw); [|done]. destruct (parseTurnURL raw) eqn:E; [|done].
  intros [= <-]. by apply parseTurnURL_addr in E.
Qed.

Lemma tryICEEntry_ok v u p addr : tryICEEntry v = Some (u, p, addr) ->
  u <> [] /\ p <> [] /\ turn_addr_ok addr.
Proof.
  intros H. destruct v as [| | | | |m]; try done. cbn [tryICEEntry] in H.
  destruct (match jget m "urls" with Some x => Some x | None => jget m "url" end) as [urls|]; [|done].
  destruct urls; try done; destruct (_ || _)%bool eqn:E; try done; bprop.
  - destruct (turn_url s) eqn:Et; [|done]. cbn in H. injection H as <- <- <-.
    split_and!; [by apply seqb_neq..|by eapply turn_url_ok].
  - apply first_some_in in H as (e & _ & H). destruct e; try done. destruct (turn_url s) eqn:Et; [|done].
    cbn in H. injection H as <- <- <-. split_and!; [by apply seqb_neq..|by eapply turn_url_ok].
Qed.

(** ** The exchange *)

Lemma ws_loop_ok E reads w c : ws_loop E reads = (w, Ok c) ->
  exists pre raw rest, reads = map Frame pre ++ Frame raw :: rest /\
    Forall (fun f => scanFrameForTurn (ws_order E) f = None) pre /\
    scanFrameForTurn (ws_order E) raw = Some c /\
    w = concat (map (ack_for (ws_hello_uid E)) (pre ++ [raw])).
Proof.
  revert w. induction reads as [|[raw|e] reads IH]; intros w H; cbn [ws_loop] in H; [done| |done].
  destruct (scanFrameForTurn (ws_order E) raw) as [c'|] eqn:Es.
  - injection H as <- <-. exists [], raw, reads. split_and!; [done|constructor|done|]. cbn. by rewrite app_nil_r.
  - destruct (ws_loop E reads) as [w' r]. injection H as <- ->.
    destruct (IH w' eq_refl) as (pre & raw' & rest & -> & Hf & Hr & ->).
    exists (raw :: pre), raw', rest. split_and!; [done|by constructor|done|done].
Qed.

Lemma scan_ok order raw u p addr : (forall path m, order path m ≡ₚ m) ->
  scanFrameForTurn order raw = Some (u, p, addr) -> turn_addr_ok addr.
Proof.
  intros Hperm H. unfold scanFrameForTurn in H. destruct (Unmarshal_any raw) as [v|]; [|done].
  cbn [mbind option_bind] in H. apply walk_sound in H as (e & _ & H); [|done].
  by apply tryICEEntry_ok in H as (_ & _ & H).
Qed.

Lemma turnFromConference_ok c u p addr : turnFromConference c = Some (u, p, addr) -> turn_addr_ok addr.
Proof.
  intros H. unfold turnFromConference in H. apply first_some_in in H as (pool & _ & H).
  apply first_some_in in H as (srv & _ & H). apply first_some_in in H as (raw & _ & H).
  destruct (turn_url raw) eqn:E; [|done]. cbn in H. injection H as _ _ <-. by eapply turn_url_ok.
Qed.

(** ** Theorems *)

(** C39.  The search of a frame ends: nesting as deep as the document's is
    enough, and more changes nothing.  In whatever order the members of its
    objects are visited it finds credentials exactly when some object of the
    document is an ICE entry with a TURN URL that parses; what it returns
    comes from such an entry, with a user, a password and a host:port. *)
Theorem frame_search order v :
  (forall path m, order path m ≡ₚ m) ->
  (forall fuel, (depth v <= fuel)%nat -> walkForTurn order fuel [] v = walkForTurn order (depth v) [] v) /\
  (is_Some (walkForTurn order (depth v) [] v) <-> exists e, inside e v /\ is_Some (tryICEEntry e)) /\
  (forall u p addr, walkForTurn order (depth v) [] v = Some (u, p, addr) ->
     (exists e, inside e v /\ tryICEEntry e = Some (u, p, addr)) /\ u <> [] /\ p <> [] /\ turn_addr_ok addr).
Proof.
  intros Hperm. split_and!.
  - intros fuel Hf. by apply walk_stable.
  - split.
    + intros [c H]. apply walk_sound in H as (e & H1 & H2); [|done]. exists e. split; [done|by eauto].
    + intros (e & H1 & H2). by apply (walk_complete order Hperm _ _ _ e).
  - intros u p addr H. apply walk_sound in H as (e & H1 & H2); [|done].
    split; [by exists e|]. by eapply tryICEEntry_ok.
Qed.

Definition frame_1 : bytes := js
  "{'uid':'f1','serverHello':{'rtcConfiguration':{'iceServers':[{'urls':'stun:s:1'},{'urls':['turns:t.example:443?x','turn:9'],'username':'u','credential':'p'}]}}}".
Definition frame_2 : bytes := js
  "{'x':{'url':'turn:1.1.1.1:0','username':'u','credential':'p'},'y':[{'urls':'TURN:2.2.2.2:3478','username':'u','credential':'p'}]}".
Definition rev_order : list nat -> list (bytes * json) -> list (bytes * json) := fun _ m => rev m.

Lemma rev_order_perm path m : rev_order path m ≡ₚ m.
Proof. unfold rev_order. by rewrite <-Permutation_rev. Qed.

Lemma frame_search_witness :
  exists v, Unmarshal_any frame_1 = Some v /\
    walkForTurn rev_order (depth v) [] v = Some ("u"%go, "p"%go, "t.example:443"%go) /\
    turn_addr_ok "t.example:443".
Proof.
  assert (exists v, Unmarshal_any frame_1 = Some v /\
    walkForTurn rev_order (depth v) [] v = Some ("u"%go, "p"%go, "t.example:443"%go)) as (v & H1 & H2).
  { eexists. split; [vm_compute; reflexivity|]. vm_compute. reflexivity. }
  exists v. split; [exact H1|]. split; [exact H2|].
  destruct (frame_search rev_order v rev_order_perm) as (_ & _ & H).
  destruct (H _ _ _ H2) as (_ & _ & _ & H3). exact H3.
Defined.

(** C38.  Credentials come from a link with a call id and a first answer that
    decodes.  Either that answer holds them, and no socket is opened; or the
    exchange on the socket read frames without a TURN entry up to one that
    has it, after writing the hello and, in order, the acknowledgement of
    each frame read that wants one.  Their address is host:port, the port
    between 1 and 65535. *)
Theorem telemost_fetch Quote http ws cloudAPI hint w c :
  (forall url path m, ws_order (ws url) path m ≡ₚ m) ->
  Fetch Quote http ws cloudAPI hint = (w, Ok c) ->
  exists callID conf,
    extractCallID hint = Ok callID /\ step1 (http (endpoint cloudAPI callID)) = Ok conf /\
    turn_addr_ok (ServerAddr c) /\
    let found := Some (Creds.Username c, Creds.Password c, ServerAddr c) in
    let E := ws (MediaServerURL conf) in
    (turnFromConference conf = found /\ w = [] \/
     turnFromConference conf = None /\
     exists pre raw rest, ws_reads E = map Frame pre ++ Frame raw :: rest /\
       Forall (fun f => scanFrameForTurn (ws_order E) f = None) pre /\
       scanFrameForTurn (ws_order E) raw = found /\
       w = hello_body (ws_hello_uid E) (ws_sdk_id E) conf ::
           concat (map (ack_for (ws_hello_uid E)) (pre ++ [raw]))).
Proof.
  intros Hperm H. unfold Fetch in H. destruct (extractCallID hint) as [callID|e]; [|done].
  destruct (fetchTurn http ws cloudAPI callID) as [w1 r] eqn:Ef. unfold fetchTurn in Ef.
  destruct (step1 (http (endpoint cloudAPI callID))) as [conf|e] eqn:E1; [|by injection Ef as <- <-].
  exists callID, conf. split; [done|]. split; [done|].
  destruct (turnFromConference conf) as [[[u p] addr]|] eqn:Et.
  { injection Ef as <- <-. injection H as <- <-. cbn [ServerAddr Creds.Username Creds.Password].
    split; [by eapply turnFromConference_ok|]. by left. }
  destruct (MediaServerURL conf =s? []) eqn:Em; [by injection Ef as <- <-|].
  unfold wsFetchTurn in Ef. rewrite Em in Ef.
  destruct (ws_dial _); [by injection Ef as <- <-|]. destruct (ws_hello_write _); [by injection Ef as <- <-|].
  destruct (ws_loop _ _) as [w2 r2] eqn:El. injection Ef as <- <-. destruct r2 as [[[u p] addr]|e]; [|done].
  injection H as <- <-. apply ws_loop_ok in El as (pre & raw & rest & H1 & H2 & H3 & ->).
  cbn [ServerAddr Creds.Username Creds.Password].
  split; [by eapply scan_ok|]. right. split; [done|]. by exists pre, raw, rest.
Qed.

Definition sample_http (url : bytes) : http_outcome :=
  Replied 200 "200 OK" (js "{'room_id':'r','peer_id':'p','credentials':'c','client_configuration':{'media_server_url':'wss://m','ice_servers':[{'urls':['stun:s:3478']}]}}").
Definition sample_ws (url : bytes) : ws_env :=
  mkWs None "h" "sdk" None [Frame (js "{'uid':'h','ack':{}}"); Frame frame_1; Frame frame_2] rev_order.

Lemma telemost_fetch_witness :
  exists w c, Fetch dq sample_http sample_ws [] "https://telemost.yandex.ru/j/123-a?x" = (w, Ok c) /\
    length w = 2%nat /\ ServerAddr c = "t.example:443"%go /\ turn_addr_ok (ServerAddr c).
Proof.
  assert (exists w c, Fetch dq sample_http sample_ws [] "https://telemost.yandex.ru/j/123-a?x" = (w, Ok c) /\
    length w = 2%nat /\ ServerAddr c = "t.example:443"%go) as (w & c & H1 & H2 & H3).
  { eexists _, _. split; [vm_compute; reflexivity|]. split; [vm_compute; reflexivity|]. vm_compute; reflexivity. }
  exists w, c. split; [exact H1|]. split; [exact H2|]. split; [exact H3|].
  destruct (telemost_fetch dq sample_http sample_ws [] "https://telemost.yandex.ru/j/123-a?x" w c
    (fun _ => rev_order_perm) H1) as (callID & conf & _ & _ & H & _). exact H.
Defined.

(** A TURN URL whose scheme is in capitals counts as one and is then refused. *)
Example capital_scheme :
  isTurnURL "TURN:2.2.2.2:3478" = true /\ is_ok (parseTurnURL "TURN:2.2.2.2:3478") = false.
Proof. vm_compute. done. Qed.

(** A VK link whose id has the host name in it goes to Telemost. *)
Example vk_link_routed_to_telemost :
  IsTelemostLink "https://vk.com/call/join/telemost.yandex.x" = true /\
  Vk.extractCallID "https://vk.com/call/join/telemost.yandex.x" = Ok "telemost.yandex.x"%go.
Proof. vm_compute. done. Qed.

Example endpoint_1 : endpoint "https://h/" "a_b" =
  "https://h/telemost_front/v2/telemost/conferences/https:%2F%2Ftelemost.yandex.ru%2Fj%2Fa_b/connection?next_gen_media_platform_allowed=false"%go.
Proof. vm_compute. reflexivity. Qed.
