(* ===== verification/Providers.v ===== *)
(** * Providers of credentials as an embedder makes them

    pkg/wgturn/provider.go and protector.go, the options and constructors of
    provider/vk and provider/yandex, and provider/stub: the interface the
    tunnel asks for credentials through, who implements it, and what the
    options make of a provider. *)

From S2P Require Import Prelude GoStrings GoErrors WgKernel Creds Vk Yandex.

(** ** pkg/wgturn/provider.go *)

(** A provider may keep state; the context is what [ctx.Err()] answers. *)
Class CredentialsProvider (P : Type) :=
  provider_Fetch : P -> option error -> bytes -> Z -> P * result error Credentials.

Definition ProviderFunc := option error -> bytes -> Z -> result error Credentials.
#[export] Instance ProviderFunc_provider : CredentialsProvider ProviderFunc :=
  fun f ctx hint id => (f, f ctx hint id).

(** [credsAdapter]: what the cache fetches through (stream.go). *)
Definition credsAdapter {P} `{!CredentialsProvider P} (p : P) (ctx : option error) : fetcher :=
  fun hint id => match snd (provider_Fetch p ctx hint id) with Ok c => Ok c | Err e => Err e end.

(** The tunnel's adapter around its provider (tunnel.go). *)
Record providerAdapter (P : Type) := mkAdapter { pa_p : P }.
Arguments mkAdapter {P} pa_p.
Arguments pa_p {P} _.
Definition providerAdapter_Fetch {P} `{!CredentialsProvider P} (a : providerAdapter P) (ctx : option error)
    (hint : bytes) (id : Z) : providerAdapter P * result error Credentials :=
  let '(p, r) := provider_Fetch (pa_p a) ctx hint id in
  (mkAdapter p,
   match r with
   | Err e => Err e
   | Ok c => Ok (mkCredentials (Creds.Username c) (Creds.Password c) (ServerAddr c) (ExpiresIn c))
   end).
#[export] Instance providerAdapter_provider {P} `{!CredentialsProvider P} : CredentialsProvider (providerAdapter P) :=
  providerAdapter_Fetch.

(** ** provider/stub *)

Record stub := mkStub { st_Creds : Credentials; st_Err : option error; st_Calls : Z }.
Definition stub_New (user pass server : bytes) : stub := mkStub (mkCredentials user pass server 0) None 0.
Definition stub_Fetch (p : stub) (ctx : option error) (hint : bytes) (id : Z) : stub * result error Credentials :=
  let p := mkStub (st_Creds p) (st_Err p) (wrap_int64 (st_Calls p + 1)) in
  (p, match st_Err p with
      | Some e => Err e
      | None => match ctx with Some e => Err e | None => Ok (st_Creds p) end
      end).
#[export] Instance stub_provider : CredentialsProvider stub := stub_Fetch.

(** ** pkg/wgturn/protector.go *)

Class SocketProtector (P : Type) := Protect : P -> Z -> option error.
Inductive NoopProtector := noop_protector.
#[export] Instance Noop_protector : SocketProtector NoopProtector := fun _ _ => None.
Definition FuncProtector := Z -> option error.
#[export] Instance Func_protector : SocketProtector FuncProtector := fun f fd => f fd.

(** [ControlFunc], with what the raw connection's [Control] answers: the
    descriptor it calls back with, or its own error.  The descriptors shown to
    the protector, and the outcome of the dial. *)
Definition ControlFunc {P} `{!SocketProtector P} (p : option P) (raw : result error Z) : list Z * option error :=
  match raw with
  | Err e => ([], Some e)
  | Ok fd => match p with Some p => ([fd], Protect p fd) | None => ([], Protect noop_protector fd) end
  end.

(** ** The options of provider/vk and provider/yandex *)

(** An [http.Client]: the embedder's, or the default one with the hook its
    dialer calls on every socket. *)
Inductive http_client := Custom (id : nat) | Default (control : option (result error Z -> list Z * option error)).

Definition newDefaultHTTPClient (p : option FuncProtector) : http_client :=
  Default (match p with Some f => Some (ControlFunc (Some f)) | None => None end).

(** What a client does before a socket it opened is used. *)
Definition before_use (c : http_client) (raw : result error Z) : list Z * option error :=
  match c with Default (Some hook) => hook raw | _ => ([], None) end.

Section Options.
Context {L S : Type}.   (* loggers and captcha solvers *)

Record vk_Provider := mkVk {
  vk_http : option http_client; vk_logger : L; vk_appID : bytes; vk_secret : bytes;
  vk_hosts : apiHosts; vk_captcha : option S }.   (* [None]: [rejectingSolver] *)

Inductive vk_Option :=
| WithHTTPClient (c : option nat) | WithProtector (p : option FuncProtector) | WithLogger (l : option L)
| WithAppCredentials (appID secret : bytes) | WithHostsForTest (login api ok : bytes) | WithCaptchaSolver (s : option S).

Definition or_else (new old : bytes) : bytes := if negb (new =s? []) then new else old.
Definition vk_apply (p : vk_Provider) (o : vk_Option) : vk_Provider :=
  match o with
  | WithHTTPClient c => mkVk (Custom <$> c) (vk_logger p) (vk_appID p) (vk_secret p) (vk_hosts p) (vk_captcha p)
  | WithProtector sp =>
      mkVk (Some (newDefaultHTTPClient sp)) (vk_logger p) (vk_appID p) (vk_secret p) (vk_hosts p) (vk_captcha p)
  | WithLogger l => mkVk (vk_http p) (default (vk_logger p) l) (vk_appID p) (vk_secret p) (vk_hosts p) (vk_captcha p)
  | WithAppCredentials a s => mkVk (vk_http p) (vk_logger p) a s (vk_hosts p) (vk_captcha p)
  | WithHostsForTest l a k =>
      mkVk (vk_http p) (vk_logger p) (vk_appID p) (vk_secret p)
        (mkHosts (or_else l (h_login (vk_hosts p))) (or_else a (h_api (vk_hosts p))) (or_else k (h_ok (vk_hosts p))))
        (vk_captcha p)
  | WithCaptchaSolver s =>
      mkVk (vk_http p) (vk_logger p) (vk_appID p) (vk_secret p) (vk_hosts p)
        (match s with Some _ => s | None => vk_captcha p end)
  end.

Definition vk_New (noop : L) (opts : list vk_Option) : vk_Provider :=
  let p := fold_left vk_apply opts (mkVk None noop "6287487" "QbYic1K3lEV5kTGiqlq2" defaultHosts None) in
  mkVk (Some (default (newDefaultHTTPClient None) (vk_http p))) (vk_logger p) (vk_appID p) (vk_secret p)
    (vk_hosts p) (vk_captcha p).

Record yandex_Provider := mkYandex { ya_http : option http_client; ya_logger : L; ya_cloudAPI : bytes }.
Inductive yandex_Option :=
| YaHTTPClient (c : option nat) | YaProtector (p : option FuncProtector) | YaLogger (l : option L) | YaHosts (cloudAPI : bytes).
Definition yandex_apply (p : yandex_Provider) (o : yandex_Option) : yandex_Provider :=
  match o with
  | YaHTTPClient c => mkYandex (Custom <$> c) (ya_logger p) (ya_cloudAPI p)
  | YaProtector sp => mkYandex (Some (newDefaultHTTPClient sp)) (ya_logger p) (ya_cloudAPI p)
  | YaLogger l => mkYandex (ya_http p) (default (ya_logger p) l) (ya_cloudAPI p)
  | YaHosts h => mkYandex (ya_http p) (ya_logger p) (or_else h (ya_cloudAPI p))
  end.
Definition yandex_New (noop : L) (opts : list yandex_Option) : yandex_Provider :=
  let p := fold_left yandex_apply opts (mkYandex None noop cloudAPIHost) in
  mkYandex (Some (default (newDefaultHTTPClient None) (ya_http p))) (ya_logger p) (ya_cloudAPI p).
End Options.
Arguments vk_Option : clear implicits.
Arguments vk_Provider : clear implicits.
Arguments yandex_Option : clear implicits.
Arguments yandex_Provider : clear implicits.

(** ** The options of pkg/wgkernel *)

Section KernelOptions.
Context {L B T : Type}.   (* loggers, binds and tunnels *)

Record kernel_fields := mkFields { kf_logger : L; kf_bind : B; kf_turnTun : option T }.
Inductive kernel_Option := KLogger (l : option L) | WithBind (b : option B) | WithTurnTunnel (t : option T).
Definition kernel_apply (k : kernel_fields) (o : kernel_Option) : kernel_fields :=
  match o with
  | KLogger l => mkFields (default (kf_logger k) l) (kf_bind k) (kf_turnTun k)
  | WithBind b => mkFields (kf_logger k) (default (kf_bind k) b) (kf_turnTun k)
  | WithTurnTunnel t => mkFields (kf_logger k) (kf_bind k) t
  end.

(** [New] with its options; [LocalAddr] of the tunnel is what [Start] will
    ask. *)
Definition kernel_New (noop : L) (bind : B) (LocalAddr : T -> option bytes)
    (cfg : WgKernel.Config) (has_tun : bool) (opts : list kernel_Option)
    : result WgKernel.new_error (WgKernel.Kernel * kernel_fields) :=
  let k := fold_left kernel_apply opts (mkFields noop bind None) in
  let* kern := WgKernel.New cfg has_tun (LocalAddr <$> kf_turnTun k) in Ok (kern, k).
End KernelOptions.
Arguments kernel_fields : clear implicits.
Arguments kernel_Option : clear implicits.

(** The providers behind the interface: with the surroundings of their
    fetches, as Vk and Yandex have them. *)
Abbreviation solver := (list event -> CaptchaChallenge -> result error Solution).
Definition vk_env {L} (p : vk_Provider L solver) (http : list event -> bytes -> form -> http_outcome) (guest device : bytes) : env :=
  mkEnv http (Some (default rejectingSolver (vk_captcha p))) guest device (vk_appID p) (vk_secret p) (vk_hosts p).

Record vk_at (L : Type) := mkVkAt {
  va_provider : vk_Provider L solver;
  va_quote : bytes -> bytes;
  va_http : list event -> bytes -> form -> http_outcome; va_guest : bytes; va_device : bytes }.
Arguments mkVkAt {L}. Arguments va_provider {L}. Arguments va_quote {L}. Arguments va_http {L}.
Arguments va_guest {L}. Arguments va_device {L}.
#[export] Instance vk_provider {L} : CredentialsProvider (vk_at L) := fun p _ hint _ =>
  (p, snd (Vk.Fetch (va_quote p) (vk_env (va_provider p) (va_http p) (va_guest p) (va_device p)) hint)).

(** [routedProvider] (main.go): a Telemost link goes to the second. *)
Record routedProvider (P Q : Type) := mkRouted { rp_vk : P; rp_yandex : Q }.
Arguments mkRouted {P Q}. Arguments rp_vk {P Q}. Arguments rp_yandex {P Q}.
#[export] Instance routed_provider {P Q} `{!CredentialsProvider P, !CredentialsProvider Q} :
    CredentialsProvider (routedProvider P Q) := fun p ctx hint id =>
  if IsTelemostLink hint
  then let '(q, r) := provider_Fetch (rp_yandex p) ctx hint id in (mkRouted (rp_vk p) q, r)
  else let '(q, r) := provider_Fetch (rp_vk p) ctx hint id in (mkRouted q (rp_yandex p), r).

Record yandex_at (L : Type) := mkYandexAt {
  yat_provider : yandex_Provider L; yat_quote : bytes -> bytes;
  yat_http : bytes -> http_outcome; yat_ws : bytes -> ws_env }.
Arguments mkYandexAt {L}. Arguments yat_provider {L}. Arguments yat_quote {L}.
Arguments yat_http {L}. Arguments yat_ws {L}.
#[export] Instance yandex_provider {L} : CredentialsProvider (yandex_at L) := fun p _ hint _ =>
  (p, snd (Yandex.Fetch (yat_quote p) (yat_http p) (yat_ws p) (ya_cloudAPI (yat_provider p)) hint)).

(** ** What the options make *)

(** Without options: the published application, VK's own hosts, no solver. *)
Lemma vk_New_defaults {L} (noop : L) http guest device :
  vk_env (vk_New noop []) http guest device = New_env http guest device.
Proof. reflexivity. Qed.

Lemma yandex_New_defaults {L} (noop : L) :
  yandex_New noop [] = mkYandex (Some (Default None)) noop cloudAPIHost.
Proof. reflexivity. Qed.

(** The options of a client, and what the last of them leaves. *)
Definition vk_client {L S} (o : vk_Option L S) : option (option http_client) :=
  match o with
  | WithHTTPClient c => Some (Custom <$> c)
  | WithProtector sp => Some (Some (newDefaultHTTPClient sp))
  | _ => None
  end.

Lemma vk_client_kept {L S} (opts : list (vk_Option L S)) : forall p,
  Forall (fun o => vk_client o = None) opts -> vk_http (fold_left vk_apply opts p) = vk_http p.
Proof.
  induction opts as [|o opts IH]; intros p H; [done|]. inversion H as [|? ? Ho Hr]; subst.
  cbn [fold_left]. rewrite IH by done. by destruct o.
Qed.

(** Among [WithHTTPClient] and [WithProtector] the last option wins. *)
Lemma last_client_wins {L S} (noop : L) (before after : list (vk_Option L S)) o c :
  vk_client o = Some c -> Forall (fun o => vk_client o = None) after ->
  vk_http (vk_New noop (before ++ o :: after)) = Some (default (newDefaultHTTPClient None) c).
Proof.
  intros Ho Ha. unfold vk_New. rewrite fold_left_app. cbn [fold_left vk_http]. rewrite vk_client_kept by done.
  by destruct o; simplify_eq/=.
Qed.

(** A provider made with a protector shows it every socket its client opens,
    whatever options came before, and a refusal is the dial's error. *)
Lemma sockets_protected {L S} (noop : L) (before after : list (vk_Option L S)) (f : FuncProtector) c fd :
  Forall (fun o => vk_client o = None) after ->
  vk_http (vk_New noop (before ++ WithProtector (Some f) :: after)) = Some c ->
  before_use c (Ok fd) = ([fd], f fd).
Proof.
  intros Ha. rewrite (last_client_wins _ _ _ (WithProtector (Some f)) _ eq_refl Ha). by intros [= <-].
Qed.

(** A client of the embedder's own is never shown to a protector given before. *)
Lemma custom_client_unprotected {L S} (noop : L) (before after : list (vk_Option L S)) i c raw :
  Forall (fun o => vk_client o = None) after ->
  vk_http (vk_New noop (before ++ WithHTTPClient (Some i) :: after)) = Some c ->
  before_use c raw = ([], None).
Proof.
  intros Ha. rewrite (last_client_wins _ _ _ (WithHTTPClient (Some i)) _ eq_refl Ha). by intros [= <-].
Qed.

(** Whatever the options, a provider has a client, and its hosts are never empty. *)
Lemma vk_New_usable {L S} (noop : L) (opts : list (vk_Option L S)) :
  is_Some (vk_http (vk_New noop opts)) /\
  let h := vk_hosts (vk_New noop opts) in h_login h <> [] /\ h_api h <> [] /\ h_ok h <> [].
Proof.
  split; [by eexists|]. unfold vk_New. cbn [vk_hosts].
  assert (H : forall p : vk_Provider L S,
    (h_login (vk_hosts p) <> [] /\ h_api (vk_hosts p) <> [] /\ h_ok (vk_hosts p) <> []) ->
    let h := vk_hosts (fold_left vk_apply opts p) in h_login h <> [] /\ h_api h <> [] /\ h_ok h <> []).
  { induction opts as [|o opts IH]; intros p Hp; [done|]. cbn [fold_left]. apply IH.
    destruct o as [| | | |l a k|]; [done..| |done]. destruct Hp as (? & ? & ?).
    cbn [vk_apply vk_hosts h_login h_api h_ok]. unfold or_else. by destruct l, a, k. }
  by apply H.
Qed.

(** Every peer's endpoint is the tunnel's address exactly when the last
    [WithTurnTunnel] gave one, whatever the other options are. *)
Lemma kernel_follows_tunnel {L B T} (noop : L) (bind : B) (LocalAddr : T -> option bytes) cfg has_tun
    (before after : list (kernel_Option L B T)) t k f :
  Forall (fun o => match o with WithTurnTunnel _ => False | _ => True end) after ->
  kernel_New noop bind LocalAddr cfg has_tun (before ++ WithTurnTunnel t :: after) = Ok (k, f) ->
  WgKernel.k_turnTun k = LocalAddr <$> t.
Proof.
  intros Ha H. unfold kernel_New in H. rewrite fold_left_app in H. cbn [fold_left] in H.
  assert (G : forall k0, kf_turnTun (fold_left kernel_apply after k0) = kf_turnTun k0).
  { clear H. induction Ha as [|o l Ho _ IH]; intros k0; [done|]. cbn [fold_left]. rewrite IH. by destruct o. }
  rewrite G in H. cbn in H. inv_result H. injection H as <- <-. unfold WgKernel.New in E. by inv_result E; simplify_eq/=.
Qed.

(** ** The stub behind the cache *)

(** One fetch: counted, and refused when it should be or the context is over. *)
Lemma stub_Fetch_spec p ctx hint id p' r :
  stub_Fetch p ctx hint id = (p', r) ->
  st_Calls p' = wrap_int64 (st_Calls p + 1) /\ st_Creds p' = st_Creds p /\ st_Err p' = st_Err p /\
  (forall c, r = Ok c <-> c = st_Creds p /\ st_Err p = None /\ ctx = None).
Proof.
  unfold stub_Fetch. intros [= <- <-]. do 3 (split; [done|]). intros c. cbn.
  destruct (st_Err p), ctx; naive_solver.
Qed.

(** Through the cache, a stub's credentials come back unchanged. *)
Lemma stub_through_cache user pass server c hint id now later c' r b :
  wf c -> e_link (view c (groupID c id)) <> hint ->
  Get c None hint id (Some (credsAdapter (stub_New user pass server) None)) now later = (c', r, b) ->
  r = Ok (mkCredentials user pass server 0) /\ b = true.
Proof.
  intros Hwf Hn H. destruct (Get_view _ _ _ _ _ _ _ _ _ _ Hwf H) as (_ & _ & Hg & _).
  unfold get_entry in Hg. by destruct (seqb_spec (e_link (view c (groupID c id))) hint); simplify_eq/=.
Qed.

(** The tunnel's adapter changes nothing. *)
Lemma adapter_Fetch {P} `{!CredentialsProvider P} (p : P) ctx hint id :
  provider_Fetch (mkAdapter p) ctx hint id = (fun '(p, r) => (mkAdapter p, r)) (provider_Fetch p ctx hint id).
Proof.
  unfold provider_Fetch at 1, providerAdapter_provider, providerAdapter_Fetch. cbn [pa_p]. by destruct (provider_Fetch p ctx hint id) as [p' [[]|e]].
Qed.

(** The routed provider fetches what the commands' [routed_Fetch] fetches. *)
Lemma routed_provider_Fetch {L} (v : vk_at L) (y : yandex_at L) ctx hint id :
  snd (provider_Fetch (mkRouted v y) ctx hint id) =
  routed_Fetch (fun h => snd (provider_Fetch v ctx h id)) (fun h => snd (provider_Fetch y ctx h id)) hint.
Proof. unfold provider_Fetch, routed_provider, routed_Fetch. by destruct (IsTelemostLink hint). Qed.
