(* ===== verification/Attempt.v ===== *)
(** * internal/proxy: a stream's attempt with what it opens (stream.go)

    [runOnce] with its deferred calls and the provider it fetches through:
    the carrier, the TURN client, the relayed address, the pipe and the DTLS
    connection are opened and closed on a log; Proxy's [runOnce] is what
    becomes of the cache and the error.  The rounds of a running pump are
    those of Proxy and Pump. *)

From S2P Require Import Prelude GoStrings GoErrors Creds Framing Proxy Providers.

(** ** What is opened *)

Inductive handle := HCarrier | HClient | HRelay | HPipe1 | HPipe2 | HDtls.
#[global] Instance handle_eq_dec : EqDecision handle.
Proof. solve_decision. Defined.

Inductive event :=
| Asked (hint : bytes) (id : Z)              (* Provider.Fetch *)
| Dialed (network addr : bytes)
| Opened (h : handle)
| Preamble (frame : bytes)                   (* dtlsConn.Write in WriteHandshake *)
| Ready (b : bool)                           (* s.ready.Store *)
| Closed (h : handle).

(** [body] between an open and the deferred close. *)
Definition deferring {A} (h : handle) (body : list event * A) : list event * A :=
  let '(log, r) := body in (Opened h :: log ++ [Closed h], r).

(** The deferred [s.ready.Store(false)] of a pump. *)
Definition then_unready {A} (body : list event * A) : list event * A :=
  let '(log, r) := body in (log ++ [Ready false], r).

(** ** pumpRaw and pumpDTLS, from their start to their return *)

Definition attempt_pumpRaw (ev : env) : list event * error :=
  then_unready ([Ready true], pumpExitErr (ev_ctx_end ev)).

Definition attempt_pumpDTLS (ev : env) (id : Z) (sessionID : bytes) (sendHandshake : bool) : list event * error :=
  then_unready (deferring HPipe1 (deferring HPipe2
    match ev_dtls_client ev with
    | Some e => ([], Errorf_w "dtls client: " e)
    | None =>
        deferring HDtls
        match ev_dtls_handshake ev with
        | Some e => ([], Errorf_w "dtls handshake: " e)
        | None =>
            let '(sent, w) :=
              if sendHandshake : bool
              then WriteHandshake (fun sent b => (sent ++ [Preamble b], ev_preamble ev b)) [] sessionID (byte_of_Z id)
              else ([], None) in
            match w with
            | Some e => (sent, Errorf_w "session-id handshake: " (write_handshake_error e))
            | None => (sent ++ [Ready true], pumpExitErr (ev_ctx_end ev))
            end
        end
    end)).

(** The switch on the peer's type; the quotes of the error's [%q] are left out. *)
Definition attempt_pump (cfg : HubConfig) (id : Z) (sessionID : bytes) (ev : env) : list event * error :=
  if hc_PeerType cfg =s? "wireguard" then attempt_pumpRaw ev
  else if hc_PeerType cfg =s? "proxy_v1" then attempt_pumpDTLS ev id sessionID false
  else if (hc_PeerType cfg =s? "proxy_v2") || (hc_PeerType cfg =s? []) then attempt_pumpDTLS ev id sessionID true
  else ([], errors_New ("unknown PeerType " ++ hc_PeerType cfg)).

(** ** runOnce after the credentials: the cache is told of a rejection *)

Definition connect (cfg : HubConfig) (c : Cache) (id : Z) (sessionID : bytes) (ev : env) (cr : Credentials)
    : list event * (Cache * error) :=
  let addr := turn_addr cfg (ServerAddr cr) in
  let network := if hc_UDP cfg then "udp"%go else "tcp"%go in
  let rejected err := (invalidateOnAuthError c id (ev_unix ev) err, err) in
  match ev_dial ev network addr with
  | Some e => ([Dialed network addr], (c, Errorf_w (if hc_UDP cfg then "dial udp: " else "dial tcp: ") e))
  | None =>
      let '(log, r) := deferring HCarrier
        match ev_resolve ev addr with
        | Err e => ([], (c, Errorf_w "resolve turn addr: " e))
        | Ok _ =>
        match ev_resolve ev (hc_PeerAddr cfg) with
        | Err e => ([], (c, Errorf_w "resolve peer addr: " e))
        | Ok _ =>
        match ev_client ev with
        | Some e => ([], (c, Errorf_w "turn client: " e))
        | None =>
            deferring HClient
            match ev_listen ev with
            | Some e => ([], rejected (Errorf_w "turn listen: " e))
            | None =>
            match ev_allocate ev with
            | Some e => ([], rejected (Errorf_w "turn allocate: " e))
            | None =>
                deferring HRelay (let '(log, err) := attempt_pump cfg id sessionID ev in (log, (c, err)))
            end end
        end end end in
      (Dialed network addr :: log, r)
  end.

(** ** runOnce over a provider *)

Section Provider.
Context {P : Type} `{!CredentialsProvider P}.

(** [creds.Get] through the adapter: the provider, when it was called, is as
    its call left it. *)
Definition provider_Get (c : Cache) (p : P) (ctx : option error) (hint : bytes) (id now later : Z)
    : Cache * P * result error Credentials * bool :=
  let '(c, r, asked) := Get c ctx hint id (Some (credsAdapter p ctx)) now later in
  (c, if asked : bool then fst (provider_Fetch p ctx hint id) else p, r, asked).

(** The field [ev_fetch] of the answers is not looked at. *)
Definition attempt (cfg : HubConfig) (p : P) (c : Cache) (id : Z) (sessionID : bytes) (ev : env)
    : Cache * P * list event * error :=
  let hint := hintFor cfg id in
  let '(c, p, cr, asked) := provider_Get c p (ev_ctx ev) hint id (ev_now ev) (ev_later ev) in
  let log := if asked : bool then [Asked hint id] else [] in
  match cr with
  | Err e => (c, p, log, Errorf_w "creds: " e)
  | Ok cr =>
      let '(more, (c, err)) := connect cfg c id sessionID ev cr in (c, p, log ++ more, err)
  end.

(** Attempts of streams, one after another; a group's attempts take turns at
    its entry's lock, and no other part of an attempt looks at the cache or the
    provider but [invalidateOnAuthError], under the same lock. *)
Fixpoint attempts (cfg : HubConfig) (p : P) (c : Cache) (sessionID : bytes) (l : list (Z * env))
    : Cache * P * list (Z * list event * error) :=
  match l with
  | [] => (c, p, [])
  | (id, ev) :: l =>
      let '(c, p, log, err) := attempt cfg p c id sessionID ev in
      let '(c, p, rest) := attempts cfg p c sessionID l in (c, p, (id, log, err) :: rest)
  end.
End Provider.

(** ** The log is well nested *)

(** The handles open after [log], the last opened first; [None] when something
    else was closed than the last opened. *)
Fixpoint open_after (stack : list handle) (log : list event) : option (list handle) :=
  match log with
  | [] => Some stack
  | Opened h :: log => open_after (h :: stack) log
  | Closed h :: log =>
      match stack with h' :: stack => if decide (h = h') then open_after stack log else None | [] => None end
  | _ :: log => open_after stack log
  end.
(** From any stack back to it. *)
Definition nested (log : list event) : Prop := forall stack, open_after stack log = Some stack.

Lemma open_after_app l1 l2 : forall stack, open_after stack (l1 ++ l2) = s ← open_after stack l1; open_after s l2.
Proof.
  induction l1 as [|e l1 IH]; intros stack; [done|]. destruct e; cbn [app open_after]; try apply IH.
  destruct stack as [|h' stack]; [done|]. case_decide; [apply IH|done].
Qed.

Lemma nested_nil : nested [].
Proof. done. Qed.
Lemma nested_app l1 l2 : nested l1 -> nested l2 -> nested (l1 ++ l2).
Proof. intros H1 H2 s. rewrite open_after_app, H1. apply H2. Qed.
Lemma nested_bracket h l : nested l -> nested (Opened h :: l ++ [Closed h]).
Proof. intros H s. cbn [open_after]. rewrite open_after_app, H. cbn. by rewrite decide_True. Qed.
Lemma nested_plain e l : match e with Opened _ | Closed _ => False | _ => True end -> nested l -> nested (e :: l).
Proof. intros He H s. destruct e; try done; cbn [open_after]; apply H. Qed.
Create HintDb nest.
#[export] Hint Resolve nested_nil nested_app nested_bracket : nest.
#[export] Hint Extern 2 (nested (_ :: _)) => apply nested_plain; [exact I|] : nest.

Lemma nested_deferring {A} h (b : list event * A) : nested (fst b) -> nested (fst (deferring h b)).
Proof. destruct b. cbn. auto with nest. Qed.
Lemma nested_unready {A} (b : list event * A) : nested (fst b) -> nested (fst (then_unready b)).
Proof. destruct b. cbn. auto with nest. Qed.
#[export] Hint Resolve nested_deferring nested_unready : nest.

(** ** An attempt's log *)

Definition opened (log : list event) : list handle := omap (fun e => match e with Opened h => Some h | _ => None end) log.
Definition became_ready (log : list event) : bool := existsb (fun e => match e with Ready true => true | _ => false end) log.
(** What the stream's flag is after [log]. *)
Definition ready_after (b : bool) (log : list event) : bool :=
  fold_left (fun b e => match e with Ready b' => b' | _ => b end) log b.

Definition with_fetch (f : fetcher) (ev : env) : env :=
  mkEnv (ev_ctx ev) f (ev_now ev) (ev_later ev) (ev_dial ev) (ev_resolve ev) (ev_client ev) (ev_listen ev)
    (ev_allocate ev) (ev_unix ev) (ev_dtls_client ev) (ev_dtls_handshake ev) (ev_preamble ev) (ev_ctx_end ev).

(** What a piece of an attempt leaves behind. *)
Record tidy (log : list event) : Prop := {
  td_nested : nested log;
  td_once : NoDup (opened log);
  td_unready : became_ready log = true -> ready_after false log = false }.

Lemma tidy_intro log : nested log -> bool_decide (NoDup (opened log)) = true ->
  implb (became_ready log) (negb (ready_after false log)) = true -> tidy log.
Proof.
  intros H1 H2 H3. split; [done|by apply bool_decide_eq_true in H2|]. intros Hr. rewrite Hr in H3. by destruct (ready_after _ _).
Qed.

Lemma WriteHandshake_log ev sess b :
  WriteHandshake (fun sent fr => (sent ++ [Preamble fr], ev_preamble ev fr)) [] sess b =
    (if (length sess =? SessionIDSize)%nat then [Preamble (handshake_bytes sess b)] else [],
     snd (WriteHandshake (fun (_ : unit) fr => (tt, ev_preamble ev fr)) tt sess b)).
Proof. unfold WriteHandshake. destruct (length sess =? _)%nat; cbn; [by destruct (ev_preamble ev _)|done]. Qed.

Ltac tidy := apply tidy_intro; [cbn; auto 12 with nest|done|done].

(** A pump's part: its error and readiness are Proxy's. *)
Lemma pumpDTLS_log ev id sess b :
  exists log, attempt_pumpDTLS ev id sess b = (log, fst (pumpDTLS ev id sess b)) /\
    became_ready log = snd (pumpDTLS ev id sess b) /\ tidy log /\ Forall (fun h => h <> HCarrier /\ h <> HClient /\ h <> HRelay) (opened log).
Proof.
  unfold attempt_pumpDTLS, pumpDTLS. destruct (ev_dtls_client ev); [eexists; split; [reflexivity|]; split; [done|]; split; [tidy|by repeat constructor]|].
  destruct (ev_dtls_handshake ev); [eexists; split; [reflexivity|]; split; [done|]; split; [tidy|by repeat constructor]|].
  rewrite WriteHandshake_log. destruct b; cbn [snd].
  - destruct (snd (WriteHandshake _ _ _ _)); destruct (_ =? _)%nat;
      (eexists; split; [reflexivity|]; split; [done|]; split; [tidy|by repeat constructor]).
  - eexists; split; [reflexivity|]; split; [done|]; split; [tidy|by repeat constructor].
Qed.

Lemma tidy_deferring h log : tidy log -> h ∉ opened log -> tidy (Opened h :: log ++ [Closed h]).
Proof.
  intros [H1 H2 H3] Hh. split; [auto with nest| |].
  - unfold opened in *. cbn. rewrite omap_app. cbn. rewrite app_nil_r. by constructor.
  - unfold became_ready, ready_after in *. cbn. rewrite existsb_app, fold_left_app. cbn.
    rewrite orb_false_r. exact H3.
Qed.
Lemma tidy_plain e log : match e with Opened _ | Closed _ | Ready _ => False | _ => True end -> tidy log -> tidy (e :: log).
Proof. intros He [H1 H2 H3]. destruct e; try done; (split; [auto with nest|done|done]). Qed.
Lemma tidy_nil : tidy [].
Proof. tidy. Qed.
#[local] Hint Resolve tidy_nil : core.

Definition of_pump (h : handle) : Prop := h <> HCarrier /\ h <> HClient /\ h <> HRelay.
Lemma attempt_pump_log cfg id sess ev :
  exists log err b, attempt_pump cfg id sess ev = (log, err) /\ became_ready log = b /\ tidy log /\ Forall of_pump (opened log) /\
    (err, b) = (if hc_PeerType cfg =s? "wireguard" then (pumpExitErr (ev_ctx_end ev), true)
      else if hc_PeerType cfg =s? "proxy_v1" then pumpDTLS ev id sess false
      else if (hc_PeerType cfg =s? "proxy_v2") || (hc_PeerType cfg =s? []) then pumpDTLS ev id sess true
      else (errors_New ("unknown PeerType " ++ hc_PeerType cfg), false)).
Proof.
  unfold attempt_pump. destruct (_ =s? "wireguard").
  { eexists _, _, _. split; [reflexivity|]. split; [reflexivity|]. split; [tidy|]. by split; [repeat constructor|]. }
  destruct (_ =s? "proxy_v1"); [|destruct (_ || _)%bool].
  3:{ eexists _, _, _. split; [reflexivity|]. split; [reflexivity|]. split; [tidy|]. by split; [repeat constructor|]. }
  all: destruct (pumpDTLS_log ev id sess) with (b := true) as (l1 & E1 & R1 & T1 & F1);
    destruct (pumpDTLS_log ev id sess) with (b := false) as (l0 & E0 & R0 & T0 & F0).
  - exists l0, (fst (pumpDTLS ev id sess false)), (snd (pumpDTLS ev id sess false)).
    repeat (split; [done|]). symmetry. apply surjective_pairing.
  - exists l1, (fst (pumpDTLS ev id sess true)), (snd (pumpDTLS ev id sess true)).
    repeat (split; [done|]). symmetry. apply surjective_pairing.
Qed.

Lemma opened_bracket h l : opened (Opened h :: l ++ [Closed h]) = h :: opened l.
Proof. unfold opened. cbn. rewrite omap_app. cbn. by rewrite app_nil_r. Qed.
Lemma ready_bracket h l : became_ready (Opened h :: l ++ [Closed h]) = became_ready l.
Proof. unfold became_ready. cbn. rewrite existsb_app. cbn. by rewrite orb_false_r. Qed.

Lemma ready_dialed n a l : became_ready (Dialed n a :: l) = became_ready l.
Proof. done. Qed.

Lemma connect_tidy cfg c id sess ev cr : tidy (fst (connect cfg c id sess ev cr)).
Proof.
  unfold connect. destruct (ev_dial _ _ _); [apply tidy_plain; done|].
  assert (Hs : tidy (Opened HCarrier :: [] ++ [Closed HCarrier])) by (by apply tidy_deferring; [|set_solver]).
  assert (Hc : tidy (Opened HCarrier :: (Opened HClient :: [] ++ [Closed HClient]) ++ [Closed HCarrier])) by tidy.
  destruct (ev_resolve ev (turn_addr _ _)); [|by apply tidy_plain]. destruct (ev_resolve ev (hc_PeerAddr _)); [|by apply tidy_plain].
  destruct (ev_client ev); [by apply tidy_plain|]. destruct (ev_listen ev); [by apply tidy_plain|].
  destruct (ev_allocate ev); [by apply tidy_plain|].
  destruct (attempt_pump_log cfg id sess ev) as (log & err & b & -> & _ & Ht & Hf & _). cbn [deferring fst].
  assert (forall h, ~ of_pump h -> h ∉ opened log) as Hn by (intros h Hh Hin; rewrite Forall_forall in Hf; by apply Hh, Hf).
  apply tidy_plain; [done|]. apply tidy_deferring; [apply tidy_deferring; [apply tidy_deferring|]|];
    rewrite ?opened_bracket, ?not_elem_of_cons; try done; split_and?; try done; apply Hn; unfold of_pump; tauto.
Qed.

(** Proxy's [runOnce], from its credentials on. *)
Lemma runOnce_connect cfg c id sess ev f c1 cr asked :
  Get c (ev_ctx ev) (hintFor cfg id) id (Some f) (ev_now ev) (ev_later ev) = (c1, cr, asked) ->
  runOnce cfg c id sess (with_fetch f ev) =
    match cr with
    | Err e => (c1, (Errorf_w "creds: " e, false))
    | Ok cr =>
        let '(log, (c2, err)) := connect cfg c1 id sess ev cr in (c2, (err, became_ready log))
    end.
Proof.
  intros HG. unfold runOnce. cbn [with_fetch ev_ctx ev_fetch ev_now ev_later ev_dial ev_resolve ev_client ev_listen
    ev_allocate ev_unix ev_ctx_end]. rewrite HG. destruct cr as [cr|e]; [|done].
  unfold connect. destruct (ev_dial _ _ _); [done|]. destruct (ev_resolve ev (turn_addr _ _)); [|done].
  destruct (ev_resolve ev (hc_PeerAddr _)); [|done]. destruct (ev_client ev); [done|].
  destruct (ev_listen ev); [done|]. destruct (ev_allocate ev); [done|].
  destruct (attempt_pump_log cfg id sess ev) as (log & err & b & -> & Hb & _ & _ & E). cbn [deferring].
  change (pumpDTLS (with_fetch f ev)) with (pumpDTLS ev). rewrite <-E, ready_dialed.
  by rewrite !ready_bracket, Hb.
Qed.

Section Attempts.
Context {P : Type} `{!CredentialsProvider P}.

(** The provider is called when, and only when, the cache asks. *)
Definition asks (log : list event) : list (bytes * Z) :=
  omap (fun e => match e with Asked h i => Some (h, i) | _ => None end) log.

Lemma connect_asks cfg c id sess ev cr : asks (fst (connect cfg c id sess ev cr)) = [].
Proof.
  unfold connect. destruct (ev_dial _ _ _); [done|]. destruct (ev_resolve ev (turn_addr _ _)); [|done].
  destruct (ev_resolve ev (hc_PeerAddr _)); [|done]. destruct (ev_client ev); [done|].
  destruct (ev_listen ev); [done|]. destruct (ev_allocate ev); [done|].
  assert (asks (fst (attempt_pump cfg id sess ev)) = []) as Ha.
  { unfold attempt_pump. destruct (_ =s? "wireguard"); [done|].
    assert (forall b, asks (fst (attempt_pumpDTLS ev id sess b)) = []) as Hd.
    { intros b. unfold attempt_pumpDTLS. destruct (ev_dtls_client ev); [done|]. destruct (ev_dtls_handshake ev); [done|].
      rewrite WriteHandshake_log. destruct b; cbn [snd]; [|done].
      by destruct (snd (WriteHandshake _ _ _ _)), (_ =? _)%nat. }
    destruct (_ =s? "proxy_v1"); [apply Hd|]. destruct (_ || _)%bool; [apply Hd|done]. }
  destruct (attempt_pump cfg id sess ev) as [log err]. cbn in Ha |- *. unfold asks in *. rewrite !omap_app. cbn.
  by rewrite Ha.
Qed.

Lemma attempt_spec cfg (p : P) c id sess ev c' p' log err :
  attempt cfg p c id sess ev = (c', p', log, err) ->
  exists c1 cr asked, Get c (ev_ctx ev) (hintFor cfg id) id (Some (credsAdapter p (ev_ctx ev))) (ev_now ev) (ev_later ev)
      = (c1, cr, asked) /\
    p' = (if asked : bool then fst (provider_Fetch p (ev_ctx ev) (hintFor cfg id) id) else p) /\
    asks log = (if asked then [(hintFor cfg id, id)] else []) /\ tidy log /\
    runOnce cfg c id sess (with_fetch (credsAdapter p (ev_ctx ev)) ev) = (c', (err, became_ready log)).
Proof.
  unfold attempt, provider_Get.
  destruct (Get c _ _ _ _ _ _) as [[c1 cr] asked] eqn:EG. intros H. exists c1, cr, asked. split; [done|].
  rewrite (runOnce_connect _ _ _ _ _ _ _ _ _ EG). destruct cr as [cr|e].
  - pose proof (connect_asks cfg c1 id sess ev cr) as Ha. pose proof (connect_tidy cfg c1 id sess ev cr) as Ht.
    destruct (connect cfg c1 id sess ev cr) as [more [c2 err2]]. cbn in Ha, Ht. injection H as <- <- <- <-.
    split; [done|]. destruct asked; cbn [app]; [|by split].
    split; [unfold asks in *; cbn; by rewrite Ha|]. split; [by apply tidy_plain|done].
  - injection H as <- <- <- <-. split; [done|]. destruct asked; [|by split].
    split; [done|]. split; [by apply tidy_plain|done].
Qed.
End Attempts.

(** C9.  An attempt gives back what it opened, and is Proxy's attempt: whatever
    the provider and the calls answer, what [runOnce] opened has been closed
    when it returns, each thing once and in the reverse order; the stream is
    not ready any more; the provider was asked at most once, with the hint of
    the stream's group, exactly when the cache had nothing to serve; and the
    cache, the error and the readiness are those of [Proxy.runOnce]. *)
Theorem attempt_tidy {P} `{!CredentialsProvider P} cfg (p : P) c id sess ev c' p' log err :
  attempt cfg p c id sess ev = (c', p', log, err) ->
  runOnce cfg c id sess (with_fetch (credsAdapter p (ev_ctx ev)) ev) = (c', (err, became_ready log)) /\
  open_after [] log = Some [] /\ NoDup (opened log) /\ ready_after false log = false /\
  exists asked, snd (Get c (ev_ctx ev) (hintFor cfg id) id (Some (credsAdapter p (ev_ctx ev))) (ev_now ev) (ev_later ev)) = asked /\
    asks log = (if asked then [(hintFor cfg id, id)] else []) /\
    p' = (if asked then fst (provider_Fetch p (ev_ctx ev) (hintFor cfg id) id) else p).
Proof.
  intros (c1 & cr & asked & EG & Hp & Ha & [H1 H2 H3] & HR)%attempt_spec. split; [done|]. split; [apply H1|].
  split; [done|]. split.
  - destruct (became_ready log) eqn:Eb; [by apply H3|]. clear - Eb. unfold ready_after, became_ready in *.
    induction log as [|e log IH]; [done|]. cbn in *. apply orb_false_iff in Eb as [E1 E2].
    destruct e as [| | | |[]|]; try done; by apply IH.
  - exists asked. by rewrite EG.
Qed.

(** ** A group shares one fetch *)

Section Groups.
Context {P : Type} `{!CredentialsProvider P} (lo hi : Z).

(** Attempts between [lo] and [hi], none of which sees its context end or its
    credentials rejected; they may fail in any other way. *)
Record calm (ev : env) : Prop := {
  ca_ctx : ev_ctx ev = None;
  ca_now : (lo <= ev_now ev <= hi)%Z;
  ca_later : (lo <= ev_later ev)%Z;
  ca_listen : forall e, ev_listen ev = Some e -> IsAuthError (Some (Errorf_w "turn listen: " e)) = false;
  ca_allocate : forall e, ev_allocate ev = Some e -> IsAuthError (Some (Errorf_w "turn allocate: " e)) = false }.

(** A provider that keeps giving credentials good for longer than that. *)
Definition gives (I : P -> Prop) : Prop := forall p hint id, I p ->
  exists p' cr, provider_Fetch p None hint id = (p', Ok cr) /\ I p' /\ (hi < lo + ttl cr)%Z.

Lemma connect_keeps cfg c id sess ev cr : calm ev -> fst (snd (connect cfg c id sess ev cr)) = c.
Proof.
  intros Hc. unfold connect. destruct (ev_dial _ _ _); [done|]. destruct (ev_resolve ev (turn_addr _ _)); [|done].
  destruct (ev_resolve ev (hc_PeerAddr _)); [|done]. destruct (ev_client ev); [done|].
  destruct (ev_listen ev) eqn:El; [cbn; unfold invalidateOnAuthError; by rewrite (ca_listen _ Hc _ El)|].
  destruct (ev_allocate ev) eqn:Ea; [cbn; unfold invalidateOnAuthError; by rewrite (ca_allocate _ Hc _ Ea)|].
  by destruct (attempt_pump _ _ _ _).
Qed.

(** The entries of the groups served so far, and of the others. *)
Record shared (h : Hub) (served : list Z) (c : Cache) : Prop := {
  sh_wf : wf c;
  sh_size : streamsPerCred c = streamsPerCred (hb_creds h);
  sh_served : forall id, (0 <= id)%Z -> groupID (hb_creds h) id ∈ served ->
    e_link (view c (groupID (hb_creds h) id)) = hintFor (hb_cfg h) id /\
    (hi < e_expires (view c (groupID (hb_creds h) id)))%Z;
  sh_other : forall g, g ∉ served -> e_expires (view c g) = zero_time }.

Lemma attempt_shared cfg0 h (I : P -> Prop) p c served id sess ev c' p' log err :
  NewHub cfg0 = Ok h -> (zero_time <= lo)%Z -> gives I -> I p -> shared h served c -> (0 <= id)%Z -> calm ev ->
  attempt (hb_cfg h) p c id sess ev = (c', p', log, err) ->
  let g := groupID (hb_creds h) id in
  I p' /\ shared h (if decide (g ∈ served) then served else g :: served) c' /\
  asks log = (if decide (g ∈ served) then [] else [(hintFor (hb_cfg h) id, id)]).
Proof.
  intros Hh Hlo HI Hp [Hwf Hsz Hs Ho] Hid Hev H g. pose proof H as Hsp.
  apply attempt_spec in Hsp as (c1 & cr & asked & EG & Ep & Ea & _ & _).
  assert (c' = c1) as ->.
  { unfold attempt, provider_Get in H. rewrite EG in H. destruct cr as [cr|e]; [|by injection H as <- <- <- <-].
    pose proof (connect_keeps (hb_cfg h) c1 id sess ev cr Hev) as Hk. destruct (connect _ _ _ _ _ _) as [more [c2 e2]].
    cbn in Hk. injection H as <- <- <- <-. done. }
  destruct (Get_view _ _ _ _ _ _ _ _ _ _ Hwf EG) as (Hwf' & Hsz' & HG & Hrest).
  assert (groupID c id = g) as Eg by (unfold g, groupID; by rewrite Hsz). rewrite Eg in *.
  rewrite (ca_ctx _ Hev) in *. pose proof (ca_now _ Hev) as Hnow. pose proof (ca_later _ Hev) as Hlater.
  unfold get_entry in HG. case_decide as Hg.
  - destruct (Hs id Hid Hg) as [Hl He]. fold g in Hl, He. rewrite Hl, seqb_refl in HG.
    replace (ev_now ev <? _)%Z with true in HG by (symmetry; apply Z.ltb_lt; lia). cbn [andb] in HG.
    injection HG as Hv _ Hasked. rewrite <-Hasked in Ea, Ep. subst p'. split; [done|]. split; [|done]. split; [done|congruence| |].
    + intros i Hi Hin. destruct (decide (groupID (hb_creds h) i = g)) as [E|E].
      * rewrite E, <-Hv, <-E. by apply Hs.
      * rewrite Hrest by done. by apply Hs.
    + intros g' Hg'. assert (g' <> g) by (by intros ->). rewrite Hrest by done. by apply Ho.
  - pose proof (Ho g Hg) as He. rewrite He in HG.
    replace (ev_now ev <? zero_time)%Z with false in HG by (symmetry; apply Z.ltb_ge; lia).
    rewrite andb_false_r in HG. unfold credsAdapter in HG.
    destruct (HI p (hintFor (hb_cfg h) id) id Hp) as (p1 & cr1 & Hf & Hp1 & Httl). rewrite Hf in HG, Ep. cbn [snd] in HG.
    injection HG as Hv _ Hasked. rewrite <-Hasked in Ea, Ep. subst p'. split; [done|]. split; [|done]. split; [done|congruence| |].
    + intros i Hi Hin. destruct (decide (groupID (hb_creds h) i = g)) as [E|E].
      * rewrite E, <-Hv. cbn [e_link e_expires]. split; [|lia].
        symmetry. by apply (hint_follows_group cfg0 h i id).
      * apply elem_of_cons in Hin as [?|Hin]; [done|]. rewrite Hrest by done. by apply Hs.
    + intros g' Hg'. apply not_elem_of_cons in Hg' as [? ?]. rewrite Hrest by done. by apply Ho.
Qed.

Lemma attempts_shared cfg0 h (I : P -> Prop) sess l : forall p c served c' p' outs,
  NewHub cfg0 = Ok h -> (zero_time <= lo)%Z -> gives I -> I p -> shared h served c ->
  Forall (fun '(id, ev) => (0 <= id)%Z /\ calm ev) l ->
  attempts (hb_cfg h) p c sess l = (c', p', outs) ->
  let asked := concat (map (fun '(_, log, _) => asks log) outs) in
  NoDup (map (fun '(_, id) => groupID (hb_creds h) id) asked) /\
  (forall hint id, (hint, id) ∈ asked -> hint = hintFor (hb_cfg h) id /\ (id ∈ map fst l) /\ (groupID (hb_creds h) id ∉ served)) /\
  (forall id, id ∈ map fst l -> groupID (hb_creds h) id ∈ served \/
     exists hint j, (hint, j) ∈ asked /\ groupID (hb_creds h) j = groupID (hb_creds h) id).
Proof.
  induction l as [|[id ev] l IH]; intros p c served c' p' outs Hh Hlo HI Hp Hsh Hl H.
  { injection H as <- <- <-. split_and!; [constructor|intros ?? ?%elem_of_nil; done|intros ? ?%elem_of_nil; done]. }
  inversion Hl as [|x l0 Hx Hl' Heq]; subst. destruct Hx as [Hid Hev]. cbn [attempts] in H.
  destruct (attempt _ _ _ _ _ _) as [[[c1 p1] log] err] eqn:E.
  destruct (attempts _ _ _ _ _) as [[c2 p2] rest] eqn:Er. injection H as <- <- <-.
  destruct (attempt_shared _ _ _ _ _ _ _ _ _ _ _ _ _ Hh Hlo HI Hp Hsh Hid Hev E) as (Hp1 & Hsh1 & Ha).
  destruct (IH p1 c1 _ _ _ _ Hh Hlo HI Hp1 Hsh1 Hl' Er) as (H1 & H2 & H3).
  cbn [map concat fst]. rewrite Ha. clear Ha IH E Er. case_decide as Hg; cbn [app map].
  - split; [done|]. split; [intros hint j Hin; destruct (H2 _ _ Hin) as (? & ? & ?); split_and!; [done|set_solver|done]|].
    intros j [->|Hj]%elem_of_cons; [by left|by apply H3].
  - split.
    + constructor; [|done]. intros Hin. apply list_elem_of_In, in_map_iff in Hin as ([hint j] & Ej & Hin).
      apply list_elem_of_In in Hin. destruct (H2 _ _ Hin) as (_ & _ & Hn). rewrite Ej in Hn. apply Hn. set_solver.
    + split.
      * intros hint j [[= -> ->]|Hin]%elem_of_cons; [split_and!; [done|set_solver|done]|].
        destruct (H2 _ _ Hin) as (? & ? & Hn). split_and!; [done|set_solver|]. intros Hs. apply Hn. set_solver.
      * intros j [->|Hj]%elem_of_cons; [right; exists (hintFor (hb_cfg h) id), id; split; [set_solver|done]|].
        destruct (H3 j Hj) as [Hin|(hint & k & Hin & Ek)]; [|right; exists hint, k; split; [set_solver|done]].
        apply elem_of_cons in Hin as [Ej|?]; [|by left]. right. exists (hintFor (hb_cfg h) id), id. split; [set_solver|done].
Qed.

Lemma Get_ext c ctx hint id (f g : fetcher) now later :
  f hint id = g hint id -> Get c ctx hint id (Some f) now later = Get c ctx hint id (Some g) now later.
Proof. intros E. unfold Get. destruct (getEntry c id). unfold get_entry. by rewrite E. Qed.

(** Through the tunnel's adapter the same attempts are made. *)
Lemma attempts_adapter cfg sess l : forall (p : P) c,
  attempts cfg (mkAdapter p) c sess l = (fun '(c, p, outs) => (c, mkAdapter p, outs)) (attempts cfg p c sess l).
Proof.
  induction l as [|[id ev] l IH]; intros p c; [done|]. cbn [attempts].
  assert (attempt cfg (mkAdapter p) c id sess ev =
    (fun '(c, p, log, err) => (c, mkAdapter p, log, err)) (attempt cfg p c id sess ev)) as ->.
  { unfold attempt, provider_Get.
    rewrite (Get_ext _ _ _ _ (credsAdapter (mkAdapter p) _) (credsAdapter p (ev_ctx ev)))
      by (unfold credsAdapter; rewrite adapter_Fetch; by destruct (provider_Fetch p _ _ _)).
    destruct (Get c _ _ _ _ _ _) as [[c1 cr] []]; rewrite ?adapter_Fetch; [destruct (provider_Fetch p _ _ _)|];
      (destruct cr; [by destruct (connect _ _ _ _ _ _) as [more [c2 err]]|done]). }
  destruct (attempt cfg p c id sess ev) as [[[c1 p1] log] err]. rewrite IH.
  by destruct (attempts cfg p1 c1 sess l) as [[c2 p2] rest].
Qed.

(** C14.  The streams of a group share one fetch: when the streams of a new hub
    make attempts in any order and number, within the life of the credentials
    the provider gives and without a rejection by the TURN server, the provider
    is asked exactly once for each group that made an attempt, by one of its
    streams and with the group's hint, whatever else fails. *)
Theorem one_fetch_per_group cfg0 h (I : P -> Prop) p sess l c' p' outs :
  NewHub cfg0 = Ok h -> (zero_time <= lo)%Z -> gives I -> I p ->
  Forall (fun '(id, ev) => (0 <= id)%Z /\ calm ev) l ->
  attempts (hb_cfg h) p (hb_creds h) sess l = (c', p', outs) ->
  let asked := concat (map (fun '(_, log, _) => asks log) outs) in
  NoDup (map (fun '(_, id) => groupID (hb_creds h) id) asked) /\
  (forall hint id, (hint, id) ∈ asked -> hint = hintFor (hb_cfg h) id /\ (id ∈ map fst l)) /\
  (forall id, id ∈ map fst l -> exists hint j, (hint, j) ∈ asked /\ groupID (hb_creds h) j = groupID (hb_creds h) id).
Proof.
  intros Hh Hlo HI Hp Hl H.
  assert (shared h [] (hb_creds h)) as Hsh.
  { assert (exists n, hb_creds h = NewCache n) as [n Hn] by (unfold NewHub in Hh; inv_result Hh; injection Hh as <-; by eexists).
    split; [rewrite Hn; auto with go|done|set_solver|]. intros g _. rewrite Hn. done. }
  destruct (attempts_shared cfg0 h I sess l p (hb_creds h) [] c' p' outs Hh Hlo HI Hp Hsh Hl H) as (H1 & H2 & H3).
  split; [done|]. split.
  - intros hint id Hin. by destruct (H2 _ _ Hin) as (? & ? & _).
  - intros id Hin. by destruct (H3 _ Hin) as [?%elem_of_nil|?].
Qed.
End Groups.

(** ** Instances *)

(** Five streams of two groups; the third's allocation fails, the first comes
    back. *)
Definition demo_ev (now : Z) (alloc : option error) : env :=
  mkEnv None (fun _ _ => Err (errors_New "unused")) now now (fun _ _ => None) (fun _ => Ok true) None None alloc 0
    None None (fun _ => None) None.
Definition demo_l : list (Z * env) :=
  [(4, demo_ev 10 None); (1, demo_ev 11 None); (2, demo_ev 12 (Some (errors_New "quota reached")));
   (3, demo_ev 13 None); (1, demo_ev 14 None)]%Z.
Definition demo_hub_cfg : HubConfig :=
  mkHubConfig "192.0.2.9:56000" "127.0.0.1:0" 8 "proxy_v2" true [] 0 4 0 ["a"%go; "b"%go] true true.
Definition demo_session : bytes := replicate 16 x07.

Lemma one_fetch_per_group_witness :
  exists h outs, NewHub demo_hub_cfg = Ok h /\
    attempts (hb_cfg h) (stub_New "u" "p" "turn.example:3478") (hb_creds h) demo_session demo_l = outs /\
    st_Calls (snd (fst outs)) = 2%Z /\
    NoDup (map (fun '(_, id) => groupID (hb_creds h) id) (concat (map (fun '(_, log, _) => asks log) (snd outs)))).
Proof.
  destruct (NewHub demo_hub_cfg) as [h|e] eqn:Eh; [|by vm_compute in Eh].
  destruct (attempts (hb_cfg h) (stub_New "u" "p" "turn.example:3478") (hb_creds h) demo_session demo_l) as [[c' p'] outs] eqn:E.
  destruct (one_fetch_per_group 0 20 demo_hub_cfg h (fun p => st_Err p = None /\ st_Creds p = mkCredentials "u" "p" "turn.example:3478" 0)
    (stub_New "u" "p" "turn.example:3478") demo_session demo_l c' p' outs Eh) as (H & _ & _).
  - vm_compute. discriminate.
  - intros p hint id [H1 H2]. exists (mkStub (st_Creds p) (st_Err p) (wrap_int64 (st_Calls p + 1))), (st_Creds p).
    split; [unfold provider_Fetch, stub_provider, stub_Fetch; cbn [st_Err st_Creds]; by rewrite H1|]. split; [by split|]. rewrite H2. vm_compute. reflexivity.
  - by split.
  - repeat constructor; first [solve [vm_compute; discriminate]|solve [intros ? [=]]|intros ? [= <-]; vm_compute; reflexivity].
  - exact E.
  - exists h, (c', p', outs). split; [reflexivity|]. split; [exact E|]. split; [|exact H].
    injection Eh as <-. vm_compute in E. injection E as _ <- _. reflexivity.
Defined.

Lemma attempt_tidy_witness :
  exists c' p' log err, attempt demo_hub_cfg (stub_New "u" "p" "turn.example:3478") (NewCache 4) 5 demo_session (demo_ev 10 None)
      = (c', p', log, err) /\
    log = [Asked "b" 5; Dialed "udp" "turn.example:3478"; Opened HCarrier; Opened HClient; Opened HRelay;
           Opened HPipe1; Opened HPipe2; Opened HDtls; Preamble (demo_session ++ [x05]); Ready true;
           Closed HDtls; Closed HPipe2; Closed HPipe1; Ready false; Closed HRelay; Closed HClient; Closed HCarrier] /\
    open_after [] log = Some [].
Proof.
  destruct (attempt demo_hub_cfg (stub_New "u" "p" "turn.example:3478") (NewCache 4) 5 demo_session (demo_ev 10 None))
    as [[[c' p'] log] err] eqn:E.
  destruct (attempt_tidy demo_hub_cfg (stub_New "u" "p" "turn.example:3478") (NewCache 4) 5 demo_session (demo_ev 10 None)
    c' p' log err E) as (_ & H & _).
  exists c', p', log, err. split; [reflexivity|]. split; [|exact H]. vm_compute in E. by injection E as _ _ <- _.
Defined.
