(* ===== verification/QuickConf.v ===== *)
(** * cmd/wgturn-cli: the wg-quick file of a provisioned client

    provision_url.go's [formatWGQuickConf], the lists its flags are given as,
    and what wgconf reads back of the file: the two ways a client gets its
    configuration, the share URL and the file, meet here. *)

From S2P Require Import Prelude GoStrings GoErrors GoTime Encoding NetIP WgKernel Tunnel WgAdmin WgConf HostSetup WgShare.

(** ** provision_url.go *)

(** The lines written; [Fprintln] and the formats end each with a newline. *)
Definition quick_lines (p : Profile) : list bytes :=
  ["# wgturn-name = " ++ Label p;
   "[Interface]"%go;
   "PrivateKey = " ++ ClientPrivateKey p;
   "Address = " ++ Prefix_String (Address p)] ++
  match DNS p with [] => [] | l => ["DNS = " ++ Join (map Addr_String l) ", "] end ++
  (if (0 <? MTU p)%Z then ["MTU = " ++ itoa (MTU p)] else []) ++
  [[]; "[Peer]"%go; "PublicKey = " ++ ServerPublicKey p] ++
  (if negb (PresharedKey p =s? []) then ["PresharedKey = " ++ PresharedKey p] else []) ++
  ["Endpoint = " ++ Endpoint p] ++
  match AllowedIPs p with [] => [] | l => ["AllowedIPs = " ++ Join (map Prefix_String l) ", "] end ++
  (if (0 <? PersistentKeepalive p)%Z
   then ["PersistentKeepalive = " ++ itoa (Z.quot (PersistentKeepalive p) Second)] else []) ++
  [[]].
Definition formatWGQuickConf (p : Profile) : bytes := unlines (quick_lines p).

Definition flag_sep (c : byte) : bool := Byte.eqb c "," || Byte.eqb c " ".
Definition flag_tokens (s : bytes) : list bytes :=
  List.filter (fun t => negb (t =s? [])) (map TrimSpace (FieldsFunc s flag_sep)).

Definition parse_flag_list {A} (parse : bytes -> option A) (s : bytes) : option (list A) :=
  if TrimSpace s =s? [] then Some [] else mapM parse (flag_tokens s).
Definition parseCIDRList : bytes -> option (list Prefix) := parse_flag_list ParsePrefix.
Definition parseIPList : bytes -> option (list Addr) := parse_flag_list ParseAddr.

(** ** Texts that survive a file *)

(** A token of a list, or a single value: graphic, no comma, no [;]. *)
Definition token_char (c : byte) : bool := is_graph c && negb (Byte.eqb c ",") && negb (Byte.eqb c ";").
Definition token (t : bytes) : Prop := t <> [] /\ forallb token_char t = true.

Record quick_ok (p : Profile) : Prop := {
  qo_label : x0a ∉ Label p;
  qo_label_cr : x0d ∉ Label p;
  qo_lines : Forall (fun l => (Z.of_nat (length l) < WgConf.max_line)%Z) (quick_lines p);
  qo_values : Forall token [ClientPrivateKey p; ServerPublicKey p; Endpoint p];
  qo_psk : PresharedKey p = [] \/ token (PresharedKey p);
  qo_prefixes : Forall (fun q => prefix_rt q /\ token (Prefix_String q)) (Address p :: AllowedIPs p);
  qo_dns : Forall (fun a => addr_rt a /\ token (Addr_String a)) (DNS p);
  qo_mtu : (0 <= MTU p <= int64_max)%Z;
  qo_keepalive : exists n, PersistentKeepalive p = (n * Second)%Z /\ (0 <= n <= 9223372036)%Z }.

Lemma token_graph t : token t -> forallb is_graph t = true.
Proof.
  intros [_ H]. rewrite forallb_forall in *. intros c Hc. apply H in Hc. unfold token_char in Hc.
  by destruct (is_graph c).
Qed.

Lemma token_not t c : token t -> token_char c = false -> c ∉ t.
Proof.
  intros [_ H] Hc Hin. rewrite forallb_forall in H. apply list_elem_of_In, H in Hin. congruence.
Qed.

Lemma token_trim t : token t -> TrimSpace t = t.
Proof. intros H. by apply TrimSpace_graphs, token_graph. Qed.

Lemma token_dec n : (0 <= n)%Z -> token (dec n).
Proof.
  intros H. destruct (dec_spec n H) as (Hne & Hd & _). split; [done|].
  rewrite forallb_forall in *. intros c Hc. apply Hd in Hc. clear - Hc.
  destruct c; (vm_compute in Hc; discriminate) || reflexivity.
Qed.

(** A list of tokens joined as the file has it. *)
Lemma split_tokens ts : Forall token ts -> splitListField (Join ts ", ") = ts.
Proof.
  intros H. unfold splitListField. rewrite FieldsFunc_Join; [|done|done|].
  - induction H as [|t ts Ht _ IH]; [done|]. cbn [map List.filter]. rewrite token_trim, IH by done.
    destruct Ht as [Ht _]. by rewrite (proj2 (seqb_neq t []) Ht).
  - eapply Forall_impl; [exact H|]. intros t [Hne Ht]. split; [done|].
    rewrite forallb_forall in *. intros c Hc. apply Ht in Hc. clear - Hc.
    destruct c; (vm_compute in Hc; discriminate) || reflexivity.
Qed.

Lemma mapM_id {A} (f : bytes -> option A) (g : A -> bytes) l :
  Forall (fun x => f (g x) = Some x) l -> mapM f (map g l) = Some l.
Proof. induction 1 as [|x l Hx _ IH]; [done|]. cbn [map mapM]. rewrite Hx. cbn. by rewrite IH. Qed.

Lemma parse_prefixes l : Forall (fun q => prefix_rt q /\ token (Prefix_String q)) l ->
  parsePrefixList (Join (map Prefix_String l) ", ") = Some l.
Proof.
  intros H. unfold parsePrefixList. rewrite split_tokens.
  - apply mapM_id. eapply Forall_impl; [exact H|]. intros q [Hq _]. unfold parse_cidr. by rewrite Hq.
  - rewrite Forall_map. eapply Forall_impl; [exact H|]. by intros q [_ ?].
Qed.

Lemma parse_addrs l : Forall (fun a => addr_rt a /\ token (Addr_String a)) l ->
  parseAddrList (Join (map Addr_String l) ", ") = Some l.
Proof.
  intros H. unfold parseAddrList. rewrite split_tokens.
  - apply mapM_id. eapply Forall_impl; [exact H|]. by intros q [Hq _].
  - rewrite Forall_map. eapply Forall_impl; [exact H|]. by intros q [_ ?].
Qed.

(** Such a list has neither end blank and no [;]. *)
Lemma Join_tokens ts : Forall token ts -> ts <> [] ->
  let v := Join ts ", " in v <> [] /\ no_lead v /\ no_trail v /\ (";"%byte ∉ v) /\ (x0a ∉ v) /\ (x0d ∉ v).
Proof.
  intros H Hne. induction H as [|t ts Ht Hts IH]; [done|]. clear Hne.
  pose proof Ht as Ht0. pose proof (token_trim t Ht) as [Hl Htr]%TrimSpace_id. destruct ts as [|u ts].
  - cbn [Join]. split_and!; [by destruct Ht0|done|done|..]; by eapply token_not.
  - specialize (IH ltac:(done)). cbn zeta in *. destruct IH as (I1 & I2 & I3 & I4 & I5 & I6).
    change (Join (t :: u :: ts) ", ") with (t ++ x2c :: x20 :: Join (u :: ts) ", ").
    assert (forall c, token_char c = false -> c <> x2c -> c <> x20 -> (c ∉ Join (u :: ts) ", ") ->
      (c ∉ t ++ x2c :: x20 :: Join (u :: ts) ", ")) as Hnot.
    { intros c Hc H1 H2 H3. rewrite not_elem_of_app, !not_elem_of_cons. split_and!; try done. by apply (token_not t). }
    split_and!; try (by apply Hnot).
    + by destruct t.
    + apply no_lead_app; [done|by destruct Ht0|done].
    + change (no_trail (t ++ [x2c] ++ x20 :: Join (u :: ts) ", ")). rewrite app_assoc. by apply no_trail_app.
Qed.

(** ** Trimming keeps a graphic character *)

Lemma skip_rune_stop rs u c v t :
  Forall (fun r => c ∉ r) rs -> skip_rune rs (u ++ c :: v) = Some t -> exists u', t = u' ++ c :: v.
Proof.
  induction 1 as [|r rs Hr _ IH]; cbn [skip_rune]; [done|].
  destruct (cut_prefix r (u ++ c :: v)) as [t'|] eqn:E; [|done]. intros [= ->].
  apply cut_prefix_Some in E. destruct (decide (length r <= length u)%nat) as [Hle|Hgt].
  - exists (drop (length r) u). apply (f_equal (drop (length r))) in E.
    rewrite drop_app_le, drop_app_length in E by done. done.
  - exfalso. apply Hr. apply (f_equal (lookup (length u))) in E.
    rewrite lookup_app_r, Nat.sub_diag in E by done. rewrite lookup_app_l in E by lia.
    apply list_elem_of_lookup. by exists (length u).
Qed.

Lemma trim_left_stop n rs : forall u c v, Forall (fun r => c ∉ r) rs ->
  exists u', trim_left n rs (u ++ c :: v) = u' ++ c :: v.
Proof.
  induction n as [|n IH]; intros u c v H; cbn [trim_left]; [by exists u|].
  destruct (skip_rune rs (u ++ c :: v)) as [t|] eqn:E; [|by exists u].
  apply skip_rune_stop in E as [u' ->]; [|done]. by apply IH.
Qed.

Lemma graph_in_no_rune c : is_graph c = true -> Forall (fun r => c ∉ r) (map (@rev byte) space_runes).
Proof.
  intros Hc. assert (forall b, negb (is_graph b) ||
    forallb (fun r => negb (existsb (Byte.eqb b) r)) (map (@rev byte) space_runes) = true) as H.
  { by apply forall_bytes; vm_compute. }
  specialize (H c). rewrite Hc in H. cbn [negb orb] in H. rewrite forallb_forall in H.
  apply Forall_forall. intros r Hr Hin. apply list_elem_of_In, H in Hr. bprop.
  assert (existsb (Byte.eqb c) r = true) as E; [|congruence].
  apply existsb_exists. exists c. split; [by apply list_elem_of_In|apply byte_eqb_refl].
Qed.

Lemma TrimSpace_keeps a p c s : is_graph a = true -> is_graph c = true ->
  exists t, TrimSpace ((a :: p) ++ c :: s) = (a :: p) ++ c :: t.
Proof.
  intros Ha Hc. unfold TrimSpace. change ((a :: p) ++ c :: s) with (a :: p ++ c :: s) at 1.
  rewrite TrimLeftSpace_graph by done. change (a :: p ++ c :: s) with ((a :: p) ++ c :: s).
  unfold TrimRightSpace. rewrite rev_app_distr. cbn [rev]. rewrite <-!app_assoc.
  match goal with |- context [trim_left ?n ?rs (?u ++ ?w)] => change (u ++ w) with (u ++ c :: rev p ++ [a]);
    destruct (trim_left_stop n rs u c (rev p ++ [a]) (graph_in_no_rune c Hc)) as [u' ->] end.
  exists (rev u'). rewrite rev_app_distr. cbn [rev]. rewrite rev_app_distr, rev_involutive.
  cbn [rev app]. by rewrite <-!app_assoc.
Qed.

(** ** Reading the lines *)

(** What [Parse] makes of some lines, whatever their numbers. *)
Definition reads (cur : WgConf.section) (s : Settings) (ls : list bytes) (cur' : WgConf.section) (s' : Settings) : Prop :=
  forall n, WgConf.parse_lines (cur, s) n ls = Ok (cur', s').

Lemma reads_nil cur s : reads cur s [] cur s.
Proof. by intros n. Qed.

Lemma reads_app cur s l1 cur1 s1 l2 cur2 s2 :
  reads cur s l1 cur1 s1 -> reads cur1 s1 l2 cur2 s2 -> reads cur s (l1 ++ l2) cur2 s2.
Proof.
  intros H1 H2. revert cur s H1. induction l1 as [|l l1 IH]; intros cur s H1 n.
  - specialize (H1 0%nat). injection H1 as -> ->. apply H2.
  - pose proof (H1 n) as Hn. cbn [app WgConf.parse_lines] in *.
    destruct (WgConf.parse_line (cur, s) n l) as [[c0 s0]|e] eqn:E; [|done]. cbn [rbind] in *.
    (* the state after the line does not depend on its number *)
    clear IH H1. revert Hn. generalize (S n). clear E. revert c0 s0.
    induction l1 as [|l' l1 IH]; intros c0 s0 m Hm; cbn [app WgConf.parse_lines] in *.
    + injection Hm as -> ->. apply H2.
    + destruct (WgConf.parse_line (c0, s0) m l') as [[c3 s3]|]; [|done]. cbn [rbind] in *. by apply IH.
Qed.

Lemma reads_one cur s l cur' s' : (forall n, WgConf.parse_line (cur, s) n l = Ok (cur', s')) -> reads cur s [l] cur' s'.
Proof. intros H n. cbn [WgConf.parse_lines]. by rewrite H. Qed.

(** The comment with the name. *)
Lemma read_comment cur s L : reads cur s ["# wgturn-name = " ++ L] cur s.
Proof.
  apply reads_one. intros n. unfold WgConf.parse_line.
  destruct (TrimSpace_keeps x23 " wgturn-name " "=" (x20 :: L)) as [t Ht]; [done..|].
  change ("# wgturn-name = " ++ L) with ((x23 :: " wgturn-name ") ++ x3d :: x20 :: L).
  rewrite Ht. reflexivity.
Qed.

Lemma read_blank cur s : reads cur s [[]] cur s.
Proof. by apply reads_one. Qed.
Lemma read_interface cur s : reads cur s ["[Interface]"%go] sectionInterface s.
Proof. by apply reads_one. Qed.
Lemma read_peer cur s : reads cur s ["[Peer]"%go] sectionPeer (set_peers s (WGPeers s ++ [no_peer])).
Proof. by apply reads_one. Qed.

(** A value that can stand after [Key = ]. *)
Definition line_value (v : bytes) : Prop := v <> [] /\ TrimSpace v = v /\ (";"%byte ∉ v).

Lemma token_value t : token t -> line_value t.
Proof. intros H. split_and!; [by destruct H|by apply token_trim|by apply (token_not t)]. Qed.

Lemma list_value ts : Forall token ts -> ts <> [] -> line_value (Join ts ", ").
Proof.
  intros H Hne. destruct (Join_tokens ts H Hne) as (H1 & H2 & H3 & H4 & _).
  split_and!; [done|by apply TrimSpace_id|done].
Qed.

Lemma TrimSpace_blank_after a K :
  is_graph a = true -> forallb is_graph K = true -> TrimSpace ((a :: K) ++ " ") = a :: K.
Proof.
  intros Ha HK. unfold TrimSpace. cbn [app]. rewrite TrimLeftSpace_graph by done.
  change (a :: K ++ " ") with ((a :: K) ++ " "). unfold TrimRightSpace.
  rewrite rev_app_distr. change (rev " " ++ rev (a :: K)) with (x20 :: rev (a :: K)).
  rewrite length_app. cbn [length]. rewrite Nat.add_1_r. cbn [trim_left].
  replace (skip_rune (map (@rev byte) space_runes) (x20 :: rev (a :: K))) with (Some (rev (a :: K))) by done.
  cbv beta iota. rewrite (no_trail_graphs (a :: K)); [apply rev_involutive|done|]. cbn [forallb]. by rewrite Ha.
Qed.

Lemma not_in_existsb c (s : bytes) : existsb (Byte.eqb c) s = false -> c ∉ s.
Proof.
  intros H Hin. assert (existsb (Byte.eqb c) s = true) as E; [|congruence].
  apply existsb_exists. exists c. split; [by apply list_elem_of_In|apply byte_eqb_refl].
Qed.

Lemma no_meta_prefix a u : is_graph a = true -> a <> "#"%byte -> hasPrefixFold (a :: u) MetaPrefix = false.
Proof.
  intros Ha Hne. unfold hasPrefixFold. destruct (_ <? _)%nat; [done|]. change (length MetaPrefix) with 6%nat.
  cbn [take]. unfold EqualFold. destruct a; (vm_compute in Ha; discriminate) || done.
Qed.

(** A line [Key = value] of a section. *)
Lemma read_key cur s n a K v :
  is_graph a = true -> forallb is_graph K = true -> negb (existsb (Byte.eqb a) ["["; "#"; ";"]%byte) = true ->
  existsb (Byte.eqb "=") (a :: K) = false -> existsb (Byte.eqb ";") (a :: K) = false ->
  line_value v ->
  WgConf.parse_line (cur, s) n (a :: K ++ " = " ++ v) =
    match cur with
    | sectionNone => Ok (cur, s)
    | sectionInterface => let* s := rwrap (WgConf.AtLine n) (setIface s (a :: K) v) in Ok (cur, s)
    | sectionPeer => let* s := rwrap (WgConf.AtLine n) (setPeer s (a :: K) v) in Ok (cur, s)
    end.
Proof.
  intros Ha HK Hb Heq Hsemi (Hv & Ht & Hvs). unfold WgConf.parse_line.
  set (line := a :: K ++ " = " ++ v).
  assert (TrimSpace line = line) as ->.
  { unfold line. change (" = " ++ v) with (" =" ++ x20 :: v). rewrite app_assoc. by apply trim_kv. }
  cbn in Hb. destruct (byte_eqb_spec a "[") as [|H1]; [done|].
  destruct (byte_eqb_spec a "#") as [|H2]; [done|]. destruct (byte_eqb_spec a ";") as [|H3]; [done|].
  replace (line =s? []) with false by done. unfold line at 1. rewrite no_meta_prefix by done.
  assert (forall b, a <> b -> HasPrefix line [b] = false) as Hpre by (intros b Hne; apply HasPrefix_ne; congruence).
  unfold WgConf.header_name. rewrite !Hpre by done. cbn [orb andb].
  assert (cut_comment line = line) as ->.
  { unfold cut_comment. replace (IndexByte line ";") with (@None nat); [done|]. symmetry.
    apply IndexByte_None. unfold line. change (a :: K ++ " = " ++ v) with ((a :: K) ++ " = " ++ v).
    rewrite !not_elem_of_app. split_and!; [by apply not_in_existsb|by apply (bool_decide_unpack _)|done]. }
  assert (key_value line = Some (a :: K, v)) as ->.
  { unfold key_value. assert (line = ((a :: K) ++ " ") ++ x3d :: x20 :: v) as E.
    { unfold line. by rewrite <-app_assoc. }
    rewrite E, IndexByte_app.
    2:{ rewrite not_elem_of_app. split; [by apply not_in_existsb|by apply (bool_decide_unpack _)]. }
    cbn [mbind option_bind]. rewrite take_app_length, TrimSpace_blank_after by done.
    rewrite drop_app, drop_ge by lia.
    match goal with |- context [(S ?n - ?n)%nat] => replace (S n - n)%nat with 1%nat by lia end.
    cbn [app drop]. by rewrite TrimSpace_space, Ht. }
  by destruct cur.
Qed.

(** ** The file *)

Definition st (i : IfaceSection) (ps : list PeerSection) : Settings := set_peers (set_iface_section no_settings i) ps.

Lemma reads_iface i i' ps a K v :
  is_graph a = true -> forallb is_graph K = true -> negb (existsb (Byte.eqb a) ["["; "#"; ";"]%byte) = true ->
  existsb (Byte.eqb "=") (a :: K) = false -> existsb (Byte.eqb ";") (a :: K) = false ->
  line_value v -> iface_set i (a :: K) v = Ok i' ->
  reads sectionInterface (st i ps) [a :: K ++ " = " ++ v] sectionInterface (st i' ps).
Proof.
  intros. apply reads_one. intros n. rewrite read_key by done. unfold setIface.
  change (Iface (st i ps)) with i. by rewrite H5.
Qed.

Lemma reads_peer i p p' a K v :
  is_graph a = true -> forallb is_graph K = true -> negb (existsb (Byte.eqb a) ["["; "#"; ";"]%byte) = true ->
  existsb (Byte.eqb "=") (a :: K) = false -> existsb (Byte.eqb ";") (a :: K) = false ->
  line_value v -> peer_set p (a :: K) v = Ok p' ->
  reads sectionPeer (st i [p]) [a :: K ++ " = " ++ v] sectionPeer (st i [p']).
Proof.
  intros. apply reads_one. intros n. rewrite read_key by done. unfold setPeer.
  change (rev (WGPeers (st i [p]))) with [p]. cbn beta iota. by rewrite H5.
Qed.

(** The values the file gives back. *)
Lemma parse_nonneg_itoa n : (0 <= n <= int64_max)%Z -> parse_nonneg (itoa n) = Some n.
Proof.
  intros H. unfold parse_nonneg. rewrite itoa_nonneg by lia. rewrite Atoi_dec by lia. cbn [mbind option_bind].
  destruct (Z.ltb_spec n 0); [lia|done].
Qed.

Lemma parse_seconds_itoa n : (0 < n <= 9223372036)%Z -> parse_seconds (itoa n) = Some (n * Second)%Z.
Proof.
  intros H. rewrite itoa_nonneg by lia. destruct (bare_seconds n) as [-> Hw]; [unfold int64_max; lia|].
  by rewrite (proj2 Hw) by lia.
Qed.

Definition quick_iface (p : Profile) : IfaceSection :=
  mkIface (ClientPrivateKey p) [Address p] (DNS p) (MTU p) 0.
Definition quick_peer (p : Profile) : PeerSection :=
  mkPeer (ServerPublicKey p) (PresharedKey p) (Endpoint p) (AllowedIPs p) (PersistentKeepalive p).

Lemma set_address i v l : parsePrefixList v = Some l ->
  iface_set i "Address" v = Ok (mkIface (if_PrivateKey i) l (if_DNS i) (if_MTU i) (if_ListenPort i)).
Proof. intros E. destruct i. unfold iface_set. cbn -[parsePrefixList]. by rewrite E. Qed.
Lemma set_dns i v l : parseAddrList v = Some l ->
  iface_set i "DNS" v = Ok (mkIface (if_PrivateKey i) (if_Address i) l (if_MTU i) (if_ListenPort i)).
Proof. intros E. destruct i. unfold iface_set. cbn -[parseAddrList]. by rewrite E. Qed.
Lemma set_mtu i v n : parse_nonneg v = Some n ->
  iface_set i "MTU" v = Ok (mkIface (if_PrivateKey i) (if_Address i) (if_DNS i) n (if_ListenPort i)).
Proof. intros E. destruct i. unfold iface_set. cbn -[parse_nonneg]. by rewrite E. Qed.
Lemma set_allowed q v l : parsePrefixList v = Some l ->
  peer_set q "AllowedIPs" v = Ok (mkPeer (pr_PublicKey q) (pr_PresharedKey q) (pr_Endpoint q) l (pr_PersistentKeepalive q)).
Proof. intros E. destruct q. unfold peer_set. cbn -[parsePrefixList]. by rewrite E. Qed.
Lemma set_keepalive q v d : parse_seconds v = Some d ->
  peer_set q "PersistentKeepalive" v = Ok (mkPeer (pr_PublicKey q) (pr_PresharedKey q) (pr_Endpoint q) (pr_AllowedIPs q) d).
Proof. intros E. destruct q. unfold peer_set. cbn -[parse_seconds]. by rewrite E. Qed.

(** The [Interface] and the [Peer] block. *)
Lemma interface_reads p : quick_ok p ->
  reads sectionInterface (st no_iface [])
    (["PrivateKey = " ++ ClientPrivateKey p; "Address = " ++ Prefix_String (Address p)] ++
     match DNS p with [] => [] | l => ["DNS = " ++ Join (map Addr_String l) ", "] end ++
     (if (0 <? MTU p)%Z then ["MTU = " ++ itoa (MTU p)] else []))
    sectionInterface (st (quick_iface p) []).
Proof.
  intros [_ _ _ Hv _ Hpre Hdns Hmtu _]. rewrite !Forall_cons in Hv. destruct Hv as (Hcp & _ & _ & _).
  apply Forall_cons in Hpre as [Ha _].
  change (?a :: ?b :: []) with ([a] ++ [b]) at 1. rewrite <-!app_assoc.
  apply (reads_app _ _ _ sectionInterface (st (mkIface (ClientPrivateKey p) [] [] 0 0) [])).
  { apply (reads_iface _ _ [] "P" "rivateKey"); try done. by apply token_value. }
  apply (reads_app _ _ _ sectionInterface (st (mkIface (ClientPrivateKey p) [Address p] [] 0 0) [])).
  { apply (reads_iface _ _ [] "A" "ddress"); try done; [by apply token_value, Ha|].
    apply (set_address (mkIface (ClientPrivateKey p) [] [] 0 0)). apply (parse_prefixes [Address p]). by constructor. }
  apply (reads_app _ _ _ sectionInterface (st (mkIface (ClientPrivateKey p) [Address p] (DNS p) 0 0) [])).
  { destruct (DNS p) as [|d ds] eqn:Ed; [apply reads_nil|].
    apply (reads_iface _ _ [] "D" "NS"); try done.
    - apply list_value; [|done]. rewrite Forall_map. eapply Forall_impl; [exact Hdns|]. by intros ? [_ ?].
    - apply (set_dns (mkIface (ClientPrivateKey p) [Address p] [] 0 0)). by apply parse_addrs. }
  unfold quick_iface. destruct (Z.ltb_spec 0 (MTU p)).
  - apply (reads_iface _ _ [] "M" "TU"); try done.
    + rewrite itoa_nonneg by lia. apply token_value, token_dec. lia.
    + apply (set_mtu (mkIface (ClientPrivateKey p) [Address p] (DNS p) 0 0)). by apply parse_nonneg_itoa.
  - replace (MTU p) with 0%Z by lia. apply reads_nil.
Qed.

Lemma peer_reads p i : quick_ok p ->
  reads sectionPeer (st i [no_peer])
    (["PublicKey = " ++ ServerPublicKey p] ++
     (if negb (PresharedKey p =s? []) then ["PresharedKey = " ++ PresharedKey p] else []) ++
     ["Endpoint = " ++ Endpoint p] ++
     match AllowedIPs p with [] => [] | l => ["AllowedIPs = " ++ Join (map Prefix_String l) ", "] end ++
     (if (0 <? PersistentKeepalive p)%Z
      then ["PersistentKeepalive = " ++ itoa (Z.quot (PersistentKeepalive p) Second)] else []))
    sectionPeer (st i [quick_peer p]).
Proof.
  intros [_ _ _ Hv Hpsk Hpre _ _ (k & Hk & Hkr)]. rewrite !Forall_cons in Hv. destruct Hv as (_ & Hsp & Hep & _).
  apply Forall_cons in Hpre as [_ Hai].
  apply (reads_app _ _ _ sectionPeer (st i [mkPeer (ServerPublicKey p) [] [] [] 0])).
  { apply (reads_peer _ _ _ "P" "ublicKey"); try done. by apply token_value. }
  apply (reads_app _ _ _ sectionPeer (st i [mkPeer (ServerPublicKey p) (PresharedKey p) [] [] 0])).
  { destruct Hpsk as [->|Hpsk]; [apply reads_nil|]. replace (PresharedKey p =s? []) with false.
    2:{ symmetry. apply seqb_neq. by destruct Hpsk. }
    apply (reads_peer _ _ _ "P" "resharedKey"); try done. by apply token_value. }
  apply (reads_app _ _ _ sectionPeer (st i [mkPeer (ServerPublicKey p) (PresharedKey p) (Endpoint p) [] 0])).
  { apply (reads_peer _ _ _ "E" "ndpoint"); try done. by apply token_value. }
  apply (reads_app _ _ _ sectionPeer (st i [mkPeer (ServerPublicKey p) (PresharedKey p) (Endpoint p) (AllowedIPs p) 0])).
  { destruct (AllowedIPs p) as [|q qs] eqn:Ea; [apply reads_nil|].
    apply (reads_peer _ _ _ "A" "llowedIPs"); try done.
    - apply list_value; [|done]. rewrite Forall_map. eapply Forall_impl; [exact Hai|]. by intros ? [_ ?].
    - apply (set_allowed (mkPeer (ServerPublicKey p) (PresharedKey p) (Endpoint p) [] 0)). by apply parse_prefixes. }
  unfold quick_peer. rewrite Hk, quot_seconds. unfold Second at 1. destruct (Z.ltb_spec 0 (k * 1000000000)).
  - apply (reads_peer _ _ _ "P" "ersistentKeepalive"); try done.
    + rewrite itoa_nonneg by lia. apply token_value, token_dec. lia.
    + apply (set_keepalive (mkPeer (ServerPublicKey p) (PresharedKey p) (Endpoint p) (AllowedIPs p) 0)).
      apply parse_seconds_itoa. lia.
  - replace (k * Second)%Z with 0%Z by (unfold Second; lia). apply reads_nil.
Qed.

Lemma quick_reads p : quick_ok p ->
  reads sectionNone no_settings (quick_lines p) sectionPeer (st (quick_iface p) [quick_peer p]).
Proof.
  intros Hp. change no_settings with (st no_iface []) at 1. unfold quick_lines.
  change (?a :: ?b :: ?c :: ?d :: []) with ([a] ++ [b] ++ [c; d]) at 1. rewrite <-!app_assoc.
  eapply reads_app; [apply read_comment|]. eapply reads_app; [apply read_interface|].
  rewrite (app_assoc [_; _]). rewrite (app_assoc _ (if (0 <? MTU p)%Z then _ else _)).
  eapply reads_app; [rewrite <-app_assoc; by apply interface_reads|].
  change (?a :: ?b :: ?c :: []) with ([a] ++ [b] ++ [c]) at 1. rewrite <-!app_assoc.
  eapply reads_app; [apply read_blank|]. eapply reads_app; [apply read_peer|].
  change (set_peers _ _) with (st (quick_iface p) [no_peer]).
  rewrite 4!app_assoc. eapply reads_app; [|apply read_blank]. rewrite <-!app_assoc. by apply peer_reads.
Qed.

Definition clean (l : bytes) : Prop := (x0a ∉ l) /\ (x0d ∉ l).

Lemma clean_app l1 l2 : clean l1 -> clean l2 -> clean (l1 ++ l2).
Proof. intros [H1 H2] [H3 H4]. split; rewrite not_elem_of_app; done. Qed.

Lemma clean_literal l : bool_decide (x0a ∉ l) = true -> bool_decide (x0d ∉ l) = true -> clean l.
Proof. intros H1 H2. split; by eapply bool_decide_eq_true_1. Qed.

Lemma clean_token t : token t -> clean t.
Proof. intros H. split; by apply (token_not t). Qed.

Lemma clean_tokens ts : Forall token ts -> clean (Join ts ", ").
Proof.
  intros H. destruct ts as [|t ts]; [by apply clean_literal|].
  destruct (Join_tokens (t :: ts) H ltac:(done)) as (_ & _ & _ & _ & ? & ?). by split.
Qed.

Lemma quick_lines_clean p : quick_ok p -> Forall clean (quick_lines p).
Proof.
  intros [HL HLr _ Hv Hpsk Hpre Hdns Hmtu (k & Hk & Hkr)]. rewrite !Forall_cons in Hv. destruct Hv as (Hcp & Hsp & Hep & _).
  apply Forall_cons in Hpre as [[_ Ha] Hai].
  assert (forall l t, bool_decide (x0a ∉ l) = true -> bool_decide (x0d ∉ l) = true -> clean t -> clean (l ++ t)) as Hkv
    by (intros; apply clean_app; [by apply clean_literal|done]).
  unfold quick_lines. rewrite !Forall_app. split_and!.
  - repeat apply Forall_cons_2; [| |..|constructor].
    + apply Hkv; done.
    + by apply clean_literal.
    + apply Hkv; [done..|]. by apply clean_token.
    + apply Hkv; [done..|]. by apply clean_token.
  - destruct (DNS p) as [|d ds]; [constructor|]. apply Forall_singleton, Hkv; [done..|].
    apply clean_tokens. rewrite Forall_map. eapply Forall_impl; [exact Hdns|]. by intros ? [_ ?].
  - destruct (Z.ltb_spec 0 (MTU p)); [|constructor]. apply Forall_singleton, Hkv; [done..|].
    rewrite itoa_nonneg by lia. apply clean_token, token_dec. lia.
  - repeat apply Forall_cons_2; [by apply clean_literal|by apply clean_literal| |constructor].
    apply Hkv; [done..|]. by apply clean_token.
  - destruct Hpsk as [->|Hpsk]; [constructor|]. destruct (negb _); [|constructor].
    apply Forall_singleton, Hkv; [done..|]. by apply clean_token.
  - apply Forall_singleton, Hkv; [done..|]. by apply clean_token.
  - destruct (AllowedIPs p) as [|q qs]; [constructor|]. apply Forall_singleton, Hkv; [done..|].
    apply clean_tokens. rewrite Forall_map. eapply Forall_impl; [exact Hai|]. by intros ? [_ ?].
  - rewrite Hk, quot_seconds. destruct (_ <? _)%Z; [|constructor]. apply Forall_singleton, Hkv; [done..|].
    rewrite itoa_nonneg by lia. apply clean_token, token_dec. lia.
  - apply Forall_singleton. by apply clean_literal.
Qed.

Lemma quick_parses p : quick_ok p -> WgConf.Parse (formatWGQuickConf p) = Ok (st (quick_iface p) [quick_peer p]).
Proof.
  intros Hp. unfold WgConf.Parse, formatWGQuickConf.
  change WgConf.max_line with WgAdmin.max_line. rewrite scan_unlines.
  2:{ apply Forall_forall. intros l Hl. pose proof (quick_lines_clean p Hp) as Hc. pose proof (qo_lines p Hp) as Hn.
      rewrite Forall_forall in Hc, Hn. destruct (Hc l Hl). split_and!; [done|by apply drop_cr_id|by apply Hn]. }
  pose proof (quick_reads p Hp 1%nat) as ->. done.
Qed.

(** ** Theorems *)

(** C40.  For a profile of plain values ([quick_ok]: keys, endpoint, prefixes and
    DNS addresses are non-empty tokens that are read back, the label has no
    line break, the keepalive is whole seconds, the MTU is not negative, every
    line fits the reader) the wg-quick file printed for it parses and
    [buildKernelConfig] accepts it; and once both peers' endpoints are replaced
    by the tunnel's address, that kernel configuration is the one
    [ToKernelConfig] makes of the profile itself exactly when the profile names
    the prefixes it routes ([no_allowed_ips_differ] shows one that does not). *)
Theorem conf_and_url_agree p :
  quick_ok p ->
  exists s c, WgConf.Parse (formatWGQuickConf p) = Ok s /\ buildKernelConfig s = Ok c /\
    forall addr, point_at addr c = point_at addr (ToKernelConfig p) <-> AllowedIPs p <> [].
Proof.
  intros Hp. exists (st (quick_iface p) [quick_peer p]).
  pose proof (qo_values p Hp) as Hv. rewrite !Forall_cons in Hv. destruct Hv as ((Hcp & _) & (Hsp & _) & _).
  exists (WgKernel.mkConfig (ClientPrivateKey p) [Address p] 0 (MTU p) (DNS p) [kernel_peer (quick_peer p)]).
  split; [by apply quick_parses|]. split.
  - unfold buildKernelConfig. cbn [st set_peers set_iface_section no_settings Iface WGPeers quick_iface if_PrivateKey].
    rewrite (proj2 (seqb_neq _ _) Hcp). cbn [negb length Nat.eqb build_peers quick_peer pr_PublicKey].
    by rewrite (proj2 (seqb_neq _ _) Hsp).
  - intros addr. unfold point_at, ToKernelConfig, quick_peer, kernel_peer. by destruct (AllowedIPs p).
Qed.

Definition quick_profile : Profile :=
  mkProfile "alice smith" key_a key_b [] "vpn.example:56000" (mkPrefix (Addr4 0x0a070002) 32)
    [mkPrefix (Addr4 0) 0; mkPrefix (Addr4 0x0a000000) 8] [Addr4 0x01010101; Addr4 0x08080808] 1280 (25 * Second).

Lemma quick_profile_ok : quick_ok quick_profile.
Proof.
  split.
  - by apply (bool_decide_unpack _).
  - by apply (bool_decide_unpack _).
  - apply Forall_forall. intros l Hl.
    assert (forallb (fun l => (Z.of_nat (length l) <? WgConf.max_line)%Z) (quick_lines quick_profile) = true) as H
      by (vm_compute; reflexivity).
    rewrite forallb_forall in H. apply list_elem_of_In, H in Hl. by apply Z.ltb_lt.
  - repeat constructor; try (vm_compute; reflexivity); by vm_compute.
  - by left.
  - repeat constructor; try (vm_compute; reflexivity); by vm_compute.
  - repeat constructor; try (vm_compute; reflexivity); by vm_compute.
  - cbn. unfold int64_max. lia.
  - exists 25%Z. split; [done|lia].
Qed.

Lemma conf_and_url_agree_witness :
  exists s c, WgConf.Parse (formatWGQuickConf quick_profile) = Ok s /\ buildKernelConfig s = Ok c /\
    forall addr, point_at addr c = point_at addr (ToKernelConfig quick_profile) <-> AllowedIPs quick_profile <> [].
Proof. apply (conf_and_url_agree quick_profile quick_profile_ok). Defined.

(** A label with a newline adds lines of its own to the printed file. *)
Example label_injects :
  let p := mkProfile ("a" ++ [x0a] ++ "#@wgt:EnableTURN = yes") key_a key_b [] "e:1" (mkPrefix (Addr4 1) 32) [] [] 0 0 in
  match WgConf.Parse (formatWGQuickConf p) with Ok s => EnableTURN s = true | Err _ => False end.
Proof. vm_compute. reflexivity. Qed.

(** Without prefixes the two differ: the URL's kernel routes everything, the
    file's nothing. *)
Example no_allowed_ips_differ :
  let p := mkProfile [] key_a key_b [] "e:1" (mkPrefix (Addr4 1) 32) [] [] 0 0 in
  map pc_AllowedIPs (WgKernel.Peers (ToKernelConfig p)) = [[any4]] /\
  match WgConf.Parse (formatWGQuickConf p) with
  | Ok s => match buildKernelConfig s with Ok c => map pc_AllowedIPs (WgKernel.Peers c) = [[]] | Err _ => False end
  | Err _ => False
  end.
Proof. vm_compute. done. Qed.
