(* ===== verification/Chrome.v ===== *)
(** * cmd/wgturn-cli: the Chrome it starts for captchas (chrome.go)

    The search for a binary, the launch with its scratch directory, the wait
    for the DevTools port, and [Stop].  The machine is the set of children and
    scratch directories of the process; what the system answers is an
    argument. *)

From S2P Require Import Prelude GoStrings GoErrors.

Definition chromeDefaultDebugPort : Z := 9222.
Definition chromeReadyTimeout : Z := 5 * Second.

Definition chromePathCandidates : list bytes :=
  ["google-chrome"%go; "google-chrome-stable"%go; "chromium-browser"%go; "chromium"%go].
Definition chromeMacOSAppBundles : list bytes :=
  ["/Applications/Google Chrome.app/Contents/MacOS/Google Chrome"%go;
   "/Applications/Chromium.app/Contents/MacOS/Chromium"%go].
Definition chromeWindowsInstallPaths : list bytes :=
  ["C:\Program Files\Google\Chrome\Application\chrome.exe"%go;
   "C:\Program Files (x86)\Google\Chrome\Application\chrome.exe"%go;
   "C:\Program Files\Chromium\Application\chrome.exe"%go].

(** ** Finding a binary *)

(** What the system knows: [exec.LookPath], whether a path is a file that is
    no directory, the platform, and the bundled archive when there is one
    ([None]: the build has none). *)
Record system := mkSystem {
  LookPath : bytes -> option bytes;
  is_file : bytes -> bool;
  GOOS : bytes;
  extractEmbeddedChrome : option (option bytes) }.

Definition install_paths (goos : bytes) : list bytes :=
  if goos =s? "darwin" then chromeMacOSAppBundles
  else if goos =s? "windows" then chromeWindowsInstallPaths else [].

Definition findChromeOnPath (s : system) : option bytes :=
  match first_some (LookPath s) chromePathCandidates with
  | Some path => Some path
  | None =>
      match List.find (is_file s) (install_paths (GOOS s)) with
      | Some p => Some p
      | None => match extractEmbeddedChrome s with Some r => r | None => None end
      end
  end.

(** ** Waiting for the DevTools port *)

(** One turn of the loop: the context's error, building the request, the
    status answered or the failure to get one, the clock at the test of the
    deadline, and the context's error when it wins the [select]. *)
Record poll := mkPoll {
  po_ctx : option error;
  po_request : option error;
  po_answer : result error Z;
  po_now : Z;
  po_done : option error }.

Inductive ready_error := CtxEnded (e : error) | BuildProbe (e : error) | NoAnswer.

Definition StatusOK : Z := 200.

(** What a turn ends the loop with, if it does. *)
Definition poll_once (deadline : Z) (p : poll) : option (result ready_error unit) :=
  match po_ctx p with
  | Some e => Some (Err (CtxEnded e))
  | None =>
      match po_request p with
      | Some e => Some (Err (BuildProbe e))
      | None =>
          if match po_answer p with Ok status => (status =? StatusOK)%Z | Err _ => false end then Some (Ok tt)
          else if (deadline <? po_now p)%Z then Some (Err NoAnswer)
          else match po_done p with Some e => Some (Err (CtxEnded e)) | None => None end
      end
  end.

(** The loop; [None]: not over after [fuel] turns. *)
Fixpoint wait_loop (fuel : nat) (deadline : Z) (polls : nat -> poll) (i : nat) : option (result ready_error unit) :=
  match fuel with
  | O => None
  | S fuel =>
      match poll_once deadline (polls i) with
      | Some r => Some r
      | None => wait_loop fuel deadline polls (S i)
      end
  end.

(** The ticker's period, and a bound of the number of turns. *)
Definition poll_period : Z := 100 * Millisecond.
Definition max_polls (timeout : Z) : nat := S (S (Z.to_nat (timeout / poll_period))).

(** A wait that starts at [now]. *)
Definition waitChromeReady (now timeout : Z) (polls : nat -> poll) : option (result ready_error unit) :=
  wait_loop (max_polls timeout) (now + timeout) polls 0.

(** The ticker never fires early: turn [i] tests a clock of [i] periods at
    least. *)
Definition ticking (now : Z) (polls : nat -> poll) : Prop :=
  forall i, (now + Z.of_nat i * poll_period <= po_now (polls i))%Z.

(** ** The process *)

Record machine := mkMachine { m_children : gset nat; m_scratch : gset bytes }.

Record chromeProcess := mkChrome { cp_pid : nat; cp_url : bytes; cp_dataDir : bytes }.

(** What the system answers to a launch and to the [Stop] after it. [Kill]
    fails only for a process that has not ended; [Wait] returns when it has. *)
Record answers := mkAnswers {
  an_system : system;
  an_scratch : result error bytes;   (* os.MkdirTemp *)
  an_start : result error nat;       (* cmd.Start: the child *)
  an_now : Z;
  an_polls : nat -> poll;
  an_kill : option error;
  an_remove : option error }.

Inductive launch_error :=
| NoBinary
| ScratchDir (e : error)
| StartFailed (bin : bytes) (e : error)
| NotReady (e : ready_error).

Inductive stop_error := KillChrome (e : error) | RmDataDir (e : error).

(** [os.RemoveAll]. *)
Definition remove_scratch (a : answers) (dir : bytes) (m : machine) : machine :=
  match an_remove a with
  | None => mkMachine (m_children m) (m_scratch m ∖ {[dir]})
  | Some _ => m
  end.

Definition chrome_Stop (a : answers) (c : chromeProcess) (m : machine) : machine * option stop_error :=
  let first := KillChrome <$> an_kill a in
  let m := mkMachine (m_children m ∖ {[cp_pid c]}) (m_scratch m) in
  if negb (cp_dataDir c =s? []) then
    (remove_scratch a (cp_dataDir c) m,
     match first with Some e => Some e | None => RmDataDir <$> an_remove a end)
  else (m, first).

Definition chrome_url : bytes := "http://127.0.0.1:" ++ itoa chromeDefaultDebugPort.

Definition chrome_args (dataDir : bytes) : list bytes :=
  ["--headless=new"%go; "--no-sandbox"%go; "--disable-gpu"%go;
   "--remote-debugging-port=" ++ itoa chromeDefaultDebugPort;
   "--remote-debugging-address=127.0.0.1"%go;
   "--user-data-dir=" ++ dataDir;
   "--disable-dev-shm-usage"%go; "--no-first-run"%go; "--no-default-browser-check"%go; "about:blank"%go].

(** [launchChrome]; [None] when the wait is not over. *)
Definition launchChrome (a : answers) (m : machine) : option (machine * result launch_error chromeProcess) :=
  match findChromeOnPath (an_system a) with
  | None => Some (m, Err NoBinary)
  | Some bin =>
      match an_scratch a with
      | Err e => Some (m, Err (ScratchDir e))
      | Ok dataDir =>
          let m := mkMachine (m_children m) ({[dataDir]} ∪ m_scratch m) in
          match an_start a with
          | Err e => Some (remove_scratch a dataDir m, Err (StartFailed bin e))
          | Ok pid =>
              let m := mkMachine ({[pid]} ∪ m_children m) (m_scratch m) in
              let cp := mkChrome pid chrome_url dataDir in
              ready ← waitChromeReady (an_now a) chromeReadyTimeout (an_polls a);
              match ready with
              | Err e => Some (fst (chrome_Stop a cp m), Err (NotReady e))
              | Ok _ => Some (m, Ok cp)
              end
          end
      end
  end.

(** ** The wait ends *)

Lemma wait_loop_mono fuel deadline polls i r k :
  wait_loop fuel deadline polls i = Some r -> wait_loop (fuel + k) deadline polls i = Some r.
Proof.
  revert i. induction fuel as [|fuel IH]; intros i H; [done|]. cbn [wait_loop Nat.add] in *.
  destruct (poll_once _ _); [done|]. by apply IH.
Qed.

(** A turn after the deadline is the last. *)
Lemma poll_late deadline p : (deadline < po_now p)%Z -> is_Some (poll_once deadline p).
Proof.
  intros H. apply Z.ltb_lt in H. unfold poll_once. rewrite H.
  destruct (po_ctx p), (po_request p); try done. case_bools; done.
Qed.

Lemma wait_loop_ends fuel deadline polls i :
  (deadline < po_now (polls (i + fuel)%nat))%Z -> is_Some (wait_loop (S fuel) deadline polls i).
Proof.
  revert i. induction fuel as [|fuel IH]; intros i H; cbn [wait_loop].
  - rewrite Nat.add_0_r in H. apply poll_late in H as [r ->]. done.
  - destruct (poll_once deadline (polls i)); [done|]. apply (IH (S i)).
    by rewrite Nat.add_succ_comm.
Qed.

Lemma waitChromeReady_ends now timeout polls :
  (0 <= timeout)%Z -> ticking now polls -> is_Some (waitChromeReady now timeout polls).
Proof.
  intros Ht Hp. unfold waitChromeReady, max_polls. apply wait_loop_ends.
  eapply Z.lt_le_trans; [|apply Hp]. unfold poll_period, Millisecond in *.
  pose proof (Z.mul_succ_div_gt timeout (100 * 1000000) ltac:(lia)).
  pose proof (Z.div_pos timeout (100 * 1000000) Ht ltac:(lia)). lia.
Qed.

(** It ends well exactly when some turn gets 200 with every turn before it
    inconclusive. *)
Lemma wait_loop_ok fuel deadline polls i :
  wait_loop fuel deadline polls i = Some (Ok tt) <->
  exists k, (k < fuel)%nat /\ (forall j, (j < k)%nat -> poll_once deadline (polls (i + j)%nat) = None) /\
    po_ctx (polls (i + k)%nat) = None /\ po_request (polls (i + k)%nat) = None /\
    po_answer (polls (i + k)%nat) = Ok StatusOK.
Proof.
  assert (forall p, poll_once deadline p = Some (Ok tt) <->
    po_ctx p = None /\ po_request p = None /\ po_answer p = Ok StatusOK) as Hone.
  { intros p. unfold poll_once. destruct (po_ctx p), (po_request p), (po_answer p) as [st|]; split; try (intros (? & ? & ?); done); try done.
    - destruct (Z.eqb_spec st StatusOK) as [->|]; [done|]. case_bools; [done|]. by destruct (po_done p).
    - intros (_ & _ & [= ->]). done.
    - case_bools; [done|]. by destruct (po_done p). }
  revert i. induction fuel as [|fuel IH]; intros i; cbn [wait_loop]; [split; [done|intros (k & ? & _); lia]|].
  destruct (poll_once deadline (polls i)) as [r|] eqn:E.
  - split.
    + intros [= ->]. exists 0%nat. rewrite Nat.add_0_r. split; [lia|]. split; [lia|]. by apply Hone.
    + intros ([|k] & _ & Hj & Hk).
      * rewrite Nat.add_0_r in Hk. apply Hone in Hk. congruence.
      * specialize (Hj 0%nat ltac:(lia)). rewrite Nat.add_0_r in Hj. congruence.
  - rewrite IH. split.
    + intros (k & Hk & Hj & H). exists (S k). rewrite Nat.add_succ_r. split; [lia|]. split; [|done].
      intros [|j] Hlt; [by rewrite Nat.add_0_r|]. rewrite Nat.add_succ_r. apply Hj. lia.
    + intros ([|k] & Hk & Hj & H).
      * rewrite Nat.add_0_r in H. apply Hone in H. congruence.
      * exists k. rewrite Nat.add_succ_r in H. split; [lia|]. split; [|done].
        intros j Hlt. specialize (Hj (S j) ltac:(lia)). by rewrite Nat.add_succ_r in Hj.
Qed.

(** ** A launch cleans up *)

(** The directory is new and has a name, the child is new, and removing
    works. *)
Record fresh (a : answers) (m : machine) : Prop := {
  fr_dir : forall d, an_scratch a = Ok d -> d <> [] /\ (d ∉ m_scratch m);
  fr_pid : forall p, an_start a = Ok p -> (p ∉ m_children m);
  fr_remove : an_remove a = None;
  fr_ticking : ticking (an_now a) (an_polls a) }.

Lemma add_remove `{Countable A} (x : A) (X : gset A) : x ∉ X -> ({[x]} ∪ X) ∖ {[x]} = X.
Proof. set_solver. Qed.

Lemma machine_eta m : mkMachine (m_children m) (m_scratch m) = m.
Proof. by destruct m. Qed.

(** Every launch returns; a failed one leaves the machine as it was, and the
    [Stop] of a successful one takes it back there. *)
Lemma launch_restores a m : fresh a m ->
  exists m' r, launchChrome a m = Some (m', r) /\
  match r with
  | Err _ => m' = m
  | Ok cp => cp_url cp = chrome_url /\ (cp_pid cp ∈ m_children m') /\ fst (chrome_Stop a cp m') = m
  end.
Proof.
  intros [Hd Hp Hr Ht]. unfold launchChrome. destruct (findChromeOnPath _) as [bin|]; [|by eexists _, _].
  destruct (an_scratch a) as [d|e]; [|by eexists _, _]. destruct (Hd d eq_refl) as [Hd0 Hd1].
  destruct (an_start a) as [pid|e].
  2:{ eexists _, _. split; [done|]. cbn. unfold remove_scratch. rewrite Hr. cbn [m_children m_scratch].
      rewrite add_remove by done. apply machine_eta. }
  specialize (Hp pid eq_refl).
  assert (fst (chrome_Stop a (mkChrome pid chrome_url d)
    (mkMachine ({[pid]} ∪ m_children m) ({[d]} ∪ m_scratch m))) = m) as HS.
  { unfold chrome_Stop. cbn [cp_dataDir cp_pid m_children m_scratch].
    rewrite (proj2 (seqb_neq d []) Hd0). cbn [negb fst]. unfold remove_scratch. rewrite Hr. cbn [m_children m_scratch].
    rewrite !add_remove by done. apply machine_eta. }
  destruct (waitChromeReady_ends (an_now a) chromeReadyTimeout (an_polls a)) as [[[]|e] ->]; [by vm_compute|done|..];
    cbn [mbind option_bind]; eexists _, _; (split; [done|]); cbn [m_children m_scratch]; [|done].
  split; [done|]. split; [cbn; set_solver|done].
Qed.
