(* ===== verification/Cli.v ===== *)
(** * cmd/wgturn-cli: the commands (main.go, connect.go, connect_url.go, serve.go, provision_url.go)

    How a command's flags become the configuration of the parts the other
    files model, and the life cycle of a command: a monad over the state of
    the process with the stack of its deferred calls.  The flags are given
    parsed (Args parses them); what the machine answers is a record of its own. *)

From Stdlib Require Import Sorting.Sorted.
From S2P Require Import Prelude GoStrings GoErrors NetIP WgKernel Proxy Tunnel WgConf Server Yandex WgShare WgAdmin HostSetup Chrome.

(** ** Links, captcha solver, provider *)

Definition link_sep (c : byte) : bool :=
  Byte.eqb c "," || Byte.eqb c " " || Byte.eqb c x09 || Byte.eqb c x0a.
Definition splitLinks (raw : bytes) : list bytes :=
  List.filter (fun p => negb (p =s? [])) (map TrimSpace (FieldsFunc raw link_sep)).

Inductive captcha_solver := StdioSolver | CDPSolver (chromeURL ua : bytes).

Definition pickCaptchaSolver (chromeURL ua : bytes) : captcha_solver :=
  if chromeURL =s? [] then StdioSolver else CDPSolver chromeURL ua.

(** [stdioCaptchaSolver.Solve]: the context's end, or the line read from the
    standard input ([None]: the end of the input, which is no error). *)
Inductive stdin_event := CtxDone (e : error) | Scanned (line : option bytes) | ScanFailed (e : error).
Inductive stdio_error := StdioCtx (e : error) | ReadStdin (e : error) | EmptyCaptchaKey.
Definition stdio_Solve (ev : stdin_event) : result stdio_error bytes :=
  match ev with
  | CtxDone e => Err (StdioCtx e)
  | ScanFailed e => Err (ReadStdin e)
  | Scanned line =>
      let key := match line with Some l => TrimSpace l | None => [] end in
      guard negb (key =s? []) else EmptyCaptchaKey in Ok key
  end.

(** [routedProvider] with its solver, or the stub. *)
Inductive provider := Routed (captcha : captcha_solver) | StubProvider (user pass server : bytes).

(** ** buildConfig (main.go) *)

Record buildArgs := mkArgs {
  ba_configPath : bytes; ba_peer : bytes; ba_listen : bytes; ba_streams : Z; ba_peerType : bytes;
  ba_watchdog : Z; ba_udp : bool; ba_vkLink : bytes; ba_vkChromeURL : bytes; ba_vkChromeUA : bytes;
  ba_stubUser : bytes; ba_stubPass : bytes; ba_stubServer : bytes }.

Inductive file_error := OpenConfig (e : error) | ParseConfig (e : WgConf.conf_error).

(** [parseWGConfig]; [open] opens and reads a file. *)
Definition parseWGConfig (open : bytes -> result error bytes) (path : bytes) : result file_error Settings :=
  let* text := rwrap OpenConfig (open path) in rwrap ParseConfig (WgConf.Parse text).

Inductive build_config_error :=
| ConfigFile (e : file_error) | ConfigToTunnel (e : lift_error)
| EmptyLinks | StubIncomplete | NoProviderConfigured.

(** The tunnel's configuration with the source of its credentials. *)
Definition with_source (mode hint : bytes) (hints : list bytes) (c : Tunnel.Config) : Tunnel.Config :=
  Tunnel.mkConfig (Tunnel.PeerAddr c) (Tunnel.ListenAddr c) (Tunnel.Streams c) (Tunnel.PeerType c) mode hint hints
    (Tunnel.UDP c) (TURNHostOverride c) (TURNPortOverride c) (Tunnel.StreamsPerCred c) (Tunnel.WatchdogTimeout c)
    true true true.

(** The file, or the flags. *)
Definition base_config (open : bytes -> result error bytes) (a : buildArgs) : result build_config_error Tunnel.Config :=
  if negb (ba_configPath a =s? []) then
    let* s := rwrap ConfigFile (parseWGConfig open (ba_configPath a)) in
    rwrap ConfigToTunnel (WgConf.ToTunnelConfig s)
  else
    Ok (Tunnel.mkConfig (ba_peer a) (ba_listen a) (ba_streams a) (ba_peerType a) [] [] [] (ba_udp a)
          [] 0 0 (ba_watchdog a) false true true).

Definition buildConfig (open : bytes -> result error bytes) (a : buildArgs)
    : result build_config_error (Tunnel.Config * provider) :=
  let* cfg := base_config open a in
  let routed := Routed (pickCaptchaSolver (ba_vkChromeURL a) (ba_vkChromeUA a)) in
  if negb (ba_vkLink a =s? []) then
    match splitLinks (ba_vkLink a) with
    | [] => Err EmptyLinks
    | [link] => Ok (with_source ModeVKLink link (Tunnel.Hints cfg) cfg, routed)
    | links => Ok (with_source ModeVKLink (Tunnel.Hint cfg) links cfg, routed)
    end
  else if negb (ba_stubUser a =s? []) || negb (ba_stubPass a =s? []) || negb (ba_stubServer a =s? []) then
    guard negb ((ba_stubUser a =s? []) || (ba_stubPass a =s? []) || (ba_stubServer a =s? [])) else StubIncomplete in
    Ok (with_source (if Tunnel.Mode cfg =s? [] then ModeStub else Tunnel.Mode cfg) (Tunnel.Hint cfg) (Tunnel.Hints cfg) cfg,
        StubProvider (ba_stubUser a) (ba_stubPass a) (ba_stubServer a))
  else if negb (Tunnel.Hint cfg =s? []) && (Tunnel.Mode cfg =s? ModeVKLink) then
    Ok (with_source (Tunnel.Mode cfg) (Tunnel.Hint cfg) (Tunnel.Hints cfg) cfg, routed)
  else Err NoProviderConfigured.

(** ** A command's run *)

(** What it holds, in the order it takes it. *)
Inductive resource := RContext | RChrome | RHub | RTun | RKernel | RHost | RServer.

Section Command.
Context {H : Type} (ip : H -> command -> H * option (error * bytes)).

(** The process: its children and scratch directories, the host [ip]
    configures, and what it runs. *)
Record proc := mkProc {
  p_machine : machine;
  p_host : H;
  p_context : bool;                      (* rootCtx is live *)
  p_tunnel : option Tunnel.Tunnel;
  p_tun : bool;                          (* the TUN device is open *)
  p_kernel : option WgKernel.Kernel;
  p_server : option (server * list thread) }.

Definition set_machine m (p : proc) := mkProc m (p_host p) (p_context p) (p_tunnel p) (p_tun p) (p_kernel p) (p_server p).
Definition set_host h (p : proc) := mkProc (p_machine p) h (p_context p) (p_tunnel p) (p_tun p) (p_kernel p) (p_server p).
Definition set_context b (p : proc) := mkProc (p_machine p) (p_host p) b (p_tunnel p) (p_tun p) (p_kernel p) (p_server p).
Definition set_tunnel t (p : proc) := mkProc (p_machine p) (p_host p) (p_context p) t (p_tun p) (p_kernel p) (p_server p).
Definition set_tun b (p : proc) := mkProc (p_machine p) (p_host p) (p_context p) (p_tunnel p) b (p_kernel p) (p_server p).
Definition set_kernel k (p : proc) := mkProc (p_machine p) (p_host p) (p_context p) (p_tunnel p) (p_tun p) k (p_server p).
Definition set_server s (p : proc) := mkProc (p_machine p) (p_host p) (p_context p) (p_tunnel p) (p_tun p) (p_kernel p) s.

(** What happens, in order; [Serving] with the process as it is then. *)
Inductive event := Acquired (r : resource) | Serving (p : proc) | Released (r : resource).

(** The deferred calls. *)
Inductive deferred :=
| CancelContext | StopChrome (c : chromeProcess) | StopTunnel | CloseTun | StopKernel
| Teardown (undo : list command) | StopServer.

Definition resource_of (d : deferred) : resource :=
  match d with
  | CancelContext => RContext | StopChrome _ => RChrome | StopTunnel => RHub | CloseTun => RTun
  | StopKernel => RKernel | Teardown _ => RHost | StopServer => RServer
  end.

(** What the machine answers during the run. *)
Record env := mkEnv {
  e_open : bytes -> result error bytes;
  e_chrome : Chrome.answers;
  e_listened : bool; e_certified : bool; e_wait : Tunnel.waited;   (* the hub's start *)
  e_local : bytes;                                                 (* its local address *)
  e_systun : bytes -> Z -> option error;                           (* tun.CreateTUN *)
  e_kctx : option error; e_ipcset : bytes -> option error; e_up : option error;  (* the device's start *)
  e_srv_cert : option error; e_resolved : bool; e_srv_listened : bool;           (* the server's start *)
  e_hub : Hub -> Hub;                                              (* the hub's life while serving *)
  e_pool : server * list thread -> server * list thread }.         (* the server's *)
Context (e : env).

Definition run_deferred (d : deferred) (p : proc) : proc :=
  match d with
  | CancelContext => set_context false p
  | StopChrome c => set_machine (fst (chrome_Stop (e_chrome e) c (p_machine p))) p
  | StopTunnel => set_tunnel (Tunnel.Stop <$> p_tunnel p) p
  | CloseTun => set_tun false p
  | StopKernel => set_kernel (WgKernel.Stop <$> p_kernel p) p
  | Teardown undo => set_host (rollback ip undo (p_host p)) p
  | StopServer => set_server ((fun '(s, ts) => (s, ts ++ [TStop])) <$> p_server p) p
  end.

(** The stack, newest call first, run when the command returns. *)
Fixpoint run_defers (ds : list deferred) (p : proc) : proc * list event :=
  match ds with
  | [] => (p, [])
  | d :: ds =>
      let '(p, log) := run_defers ds (run_deferred d p) in (p, Released (resource_of d) :: log)
  end.

Inductive cli_error :=
| ConfigRequired | FileFailed (e : file_error) | ConfigToTurn (e : lift_error)
| ChromeFailed (e : launch_error) | ChromeHangs
| NewTunnel (e : Tunnel.config_error) | StartTunnel (e : Tunnel.start_error)
| ConfigToKernel (e : build_error) | OpenTUN (e : error)
| NewKernel (e : WgKernel.new_error) | StartKernel (e : WgKernel.kernel_error) | HostSetupFailed (e : error)
| URLRequired | ParseURL (e : share_error) | LinkRequired
| BuildConfig (e : build_config_error)
| NotAServer | ListenRequired | BadBackend (e : backend_error) | BackendNotWired
| NewServer (e : Server.config_error) | GenerateCert (e : error) | StartServer (e : Server.start_error).

Record state := mkState { st_proc : proc; st_log : list event; st_defers : list deferred }.
Definition cmd A := state -> state * result cli_error A.

Definition cret {A} (x : A) : cmd A := fun s => (s, Ok x).
Definition cfail {A} (err : cli_error) : cmd A := fun s => (s, Err err).
Definition clift {A} (r : result cli_error A) : cmd A := fun s => (s, r).
Definition cbind {A B} (c : cmd A) (k : A -> cmd B) : cmd B :=
  fun s => let '(s, r) := c s in match r with Ok x => k x s | Err err => (s, Err err) end.
Notation "x '<~' c ';;' k" := (cbind c (fun x => k)) (at level 100, c at next level, right associativity).

(** [c] changes the process and takes a resource with its deferred release. *)
Definition acquire {A} (c : proc -> proc * result cli_error (A * option deferred)) : cmd A := fun s =>
  match c (st_proc s) with
  | (p, Err err) => (mkState p (st_log s) (st_defers s), Err err)
  | (p, Ok (x, None)) => (mkState p (st_log s) (st_defers s), Ok x)
  | (p, Ok (x, Some d)) => (mkState p (st_log s ++ [Acquired (resource_of d)]) (d :: st_defers s), Ok x)
  end.

(** The wait for a signal. *)
Definition serve : cmd unit := fun s =>
  let p := st_proc s in
  let p' := set_server (e_pool e <$> p_server p)
              (set_tunnel ((fun t => fst (do_call t (HubProgress (e_hub e)))) <$> p_tunnel p) p) in
  (mkState p' (st_log s ++ [Serving p]) (st_defers s), Ok tt).

(** A command from its entry to its return. *)
Definition execute (c : cmd unit) (p : proc) : proc * list event * result cli_error unit :=
  let '(s, r) := c (mkState p [] []) in
  let '(p, released) := run_defers (st_defers s) (st_proc s) in (p, st_log s ++ released, r).

(** ** The steps *)

Definition root_context : cmd unit :=
  acquire (fun p => (set_context true p, Ok (tt, Some CancelContext))).

(** [resolveChromeURL], and the deferred [chrome.Stop]. *)
Definition resolveChromeURL (override : bytes) (auto : bool) : cmd bytes :=
  acquire (fun p =>
    if negb (override =s? []) then (p, Ok (override, None))
    else if negb auto then (p, Ok ([], None))
    else match launchChrome (e_chrome e) (p_machine p) with
         | None => (p, Err ChromeHangs)
         | Some (m, Err err) => (set_machine m p, Err (ChromeFailed err))
         | Some (m, Ok cp) => (set_machine m p, Ok (cp_url cp, Some (StopChrome cp)))
         end).

Definition start_hub (tn : Tunnel.Tunnel) : cmd unit :=
  acquire (fun p =>
    match Tunnel.Start tn (e_listened e) (e_certified e) (e_wait e) with
    | (_, Some err) => (p, Err (StartTunnel err))
    | (tn, None) => (set_tunnel (Some tn) p, Ok (tt, Some StopTunnel))
    end).

Definition open_tun (iface : bytes) (mtu : Z) : cmd unit :=
  acquire (fun p =>
    match NewSystemTUN (e_systun e) iface mtu with
    | Some err => (p, Err (OpenTUN err))
    | None => (set_tun true p, Ok (tt, Some CloseTun))
    end).

(** What the hub's [LocalAddr] answers. *)
Definition local_addr (p : proc) : option bytes :=
  match p_tunnel p with
  | Some t => match t_state t with Tunnel.stateStarted => Some (e_local e) | _ => None end
  | None => None
  end.

Definition start_kernel (cfg : WgKernel.Config) : cmd unit :=
  acquire (fun p =>
    match WgKernel.New cfg true (Some (local_addr p)) with
    | Err err => (p, Err (NewKernel err))
    | Ok k =>
        match WgKernel.Start k (e_kctx e) (e_ipcset e) (e_up e) with
        | (k, Some err) => (set_kernel (Some k) p, Err (StartKernel err))
        | (k, None) => (set_kernel (Some k) p, Ok (tt, Some StopKernel))
        end
    end).

(** An unsupported system is only a warning. *)
Definition setup_host (iface : bytes) (cfg : WgKernel.Config) : cmd unit :=
  acquire (fun p =>
    match setupHostIface ip (GOOS (an_system (e_chrome e))) iface cfg (p_host p) with
    | (h, Err (HostSetupUnsupported _)) => (set_host h p, Ok (tt, None))
    | (h, Err (SetupFailed err)) => (set_host h p, Err (HostSetupFailed err))
    | (h, Ok teardown) => (set_host h p, Ok (tt, Some (Teardown teardown)))
    end).

(** From the two configurations to the shutdown; the kernel's is built once
    the hub runs. *)
Definition bring_up (iface : bytes) (turnCfg : Tunnel.Config) (kernelCfg : result cli_error WgKernel.Config) : cmd unit :=
  tn <~ clift (rwrap NewTunnel (Tunnel.New turnCfg)) ;;
  _ <~ start_hub tn ;;
  kernelCfg <~ clift kernelCfg ;;
  _ <~ open_tun iface (WgKernel.MTU kernelCfg) ;;
  _ <~ start_kernel kernelCfg ;;
  _ <~ setup_host iface kernelCfg ;;
  serve.

(** ** The commands *)

Definition positional (flag : bytes) (args : list bytes) : bytes :=
  if flag =s? [] then match args with [a] => a | _ => flag end else flag.

Record clientFlags := mkClient {
  cf_iface : bytes; cf_vkChromeURL : bytes; cf_vkChromeAuto : bool; cf_vkChromeUA : bytes }.

(** The provider reaches the tunnel's configuration as being there; which one
    it is follows from the URL Chrome answers at. *)
Definition client_provider (f : clientFlags) (chromeURL : bytes) : provider :=
  Routed (pickCaptchaSolver chromeURL (cf_vkChromeUA f)).

Definition runConnect (f : clientFlags) (config : bytes) (args : list bytes) : cmd unit :=
  let configPath := positional config args in
  if configPath =s? [] then cfail ConfigRequired else
  settings <~ clift (rwrap FileFailed (parseWGConfig (e_open e) configPath)) ;;
  turnCfg <~ clift (rwrap ConfigToTurn (WgConf.ToTunnelConfig settings)) ;;
  _ <~ root_context ;;
  _ <~ resolveChromeURL (cf_vkChromeURL f) (cf_vkChromeAuto f) ;;
  bring_up (cf_iface f) (with_provider turnCfg) (rwrap ConfigToKernel (buildKernelConfig settings)).

Definition runConnectURL (f : clientFlags) (url vkLink : bytes) (args : list bytes) : cmd unit :=
  let urlArg := positional url args in
  if urlArg =s? [] then cfail URLRequired else
  profile <~ clift (rwrap ParseURL (WgShare.Parse urlArg)) ;;
  match splitLinks vkLink with
  | [] => cfail LinkRequired
  | link :: more =>
      _ <~ root_context ;;
      _ <~ resolveChromeURL (cf_vkChromeURL f) (cf_vkChromeAuto f) ;;
      let turnCfg := WgShare.ToTunnelConfig profile link in
      let turnCfg :=
        match more with
        | [] => with_provider turnCfg
        | _ => with_source (Tunnel.Mode turnCfg) [] (link :: more) turnCfg
        end in
      bring_up (cf_iface f) turnCfg (Ok (WgShare.ToKernelConfig profile))
  end.

(** The hub alone; [Stop] is called after the signal, before the context is
    cancelled. *)
Definition runProxy (a : buildArgs) : cmd unit :=
  cfg <~ clift (rwrap BuildConfig (buildConfig (e_open e) a)) ;;
  tn <~ clift (rwrap NewTunnel (Tunnel.New (fst cfg))) ;;
  _ <~ root_context ;;
  _ <~ start_hub tn ;;
  serve.

(** ** serve.go *)

(** [buildServerBackend]: the address of a UDP backend. *)
Definition buildServerBackend (spec : bytes) : result cli_error bytes :=
  match WgConf.ParseBackendSpec spec with
  | Err err => Err (BadBackend err)
  | Ok (BackendUDP, addr) => Ok addr
  | Ok (BackendWGKernel, _) => Err BackendNotWired
  end.

(** What the flags and the file say of the server: the address it listens at
    and its backend's. *)
Definition serve_plan (listenOverride backendOverride : bytes) (s : Settings) : result cli_error (bytes * bytes) :=
  guard EnableServer s else NotAServer in
  let listen := if negb (listenOverride =s? []) then listenOverride else Listen s in
  guard negb (listen =s? []) else ListenRequired in
  let* addr := buildServerBackend (if negb (backendOverride =s? []) then backendOverride else WgConf.BackendSpec s) in
  Ok (listen, addr).

(** [wgturnsrv.New], with the certificate generated or not. *)
Definition new_srv (cfg : Server.Config) : result cli_error server :=
  let* _ := rwrap NewServer (Server.validate cfg) in
  match e_srv_cert e with Some err => Err (GenerateCert err) | None => Ok new_server end.

Definition runServe (config listenOverride backendOverride : bytes) (args : list bytes) : cmd unit :=
  let configPath := positional config args in
  if configPath =s? [] then cfail ConfigRequired else
  settings <~ clift (rwrap FileFailed (parseWGConfig (e_open e) configPath)) ;;
  plan <~ clift (serve_plan listenOverride backendOverride settings) ;;
  srv <~ clift (new_srv (Server.mkConfig (fst plan) true true 0 0 0)) ;;
  _ <~ root_context ;;
  _ <~ acquire (fun p =>
         match Server.Start srv (e_resolved e) (e_srv_listened e) with
         | (_, Some err, _) => (p, Err (StartServer err))
         | (srv, None, ts) => (set_server (Some (srv, ts)) p, Ok (tt, Some StopServer))
         end) ;;
  serve.

(** ** main *)

Inductive subcommand :=
| Connect (f : clientFlags) (config : bytes) (args : list bytes)
| ConnectURL (f : clientFlags) (url vkLink : bytes) (args : list bytes)
| Serve (config listenOverride backendOverride : bytes) (args : list bytes)
| HubOnly (a : buildArgs).

Definition run_subcommand (c : subcommand) : cmd unit :=
  match c with
  | Connect f config args => runConnect f config args
  | ConnectURL f url vkLink args => runConnectURL f url vkLink args
  | Serve config lo bo args => runServe config lo bo args
  | HubOnly a => runProxy a
  end.
End Command.

Arguments proc : clear implicits.
Arguments event : clear implicits.
Arguments state : clear implicits.

(** ** The stack of deferred calls *)

(** A resource is taken after those it depends on. *)
Definition rank (r : resource) : nat :=
  match r with
  | RContext => 0 | RChrome => 1 | RHub => 2 | RTun => 3 | RKernel => 4 | RHost => 5 | RServer => 6
  end.

Fixpoint ordered (a : nat) (ds : list deferred) : Prop :=
  match ds with
  | [] => True
  | d :: ds => (rank (resource_of d) < a)%nat /\ ordered (rank (resource_of d)) ds
  end.

Lemma ordered_mono a b ds : (a <= b)%nat -> ordered a ds -> ordered b ds.
Proof. destruct ds; cbn; [done|]. intros ? [? ?]. split; [lia|done]. Qed.

Lemma ordered_sorted a ds : ordered a ds ->
  StronglySorted (fun r r' => rank r' < rank r)%nat (map resource_of ds) /\
  Forall (fun r => rank r < a)%nat (map resource_of ds).
Proof.
  revert a. induction ds as [|d ds IH]; intros a H; cbn [map]; [by repeat constructor|].
  destruct H as [Hd [HS HF]%IH]. split; [by constructor|]. constructor; [done|].
  eapply Forall_impl; [exact HF|]. intros r Hr. cbn in Hr. lia.
Qed.

Section Shape.
Context {H : Type} (ip : H -> command -> H * option (error * bytes)) (e : env).
Abbreviation cmd := (@cmd H).

Lemma run_defers_log ds p : snd (run_defers ip e ds p) = map Released (map resource_of ds).
Proof.
  revert p. induction ds as [|d ds IH]; intros p; [done|]. cbn [run_defers map].
  specialize (IH (run_deferred ip e d p)). destruct (run_defers _ _ _ _) as [q log]. cbn in *. by rewrite IH.
Qed.

(** Up to the wait for a signal, the log is what the stack will release. *)
Definition shape (a : nat) (s : state H) : Prop :=
  st_log s = map Acquired (rev (map resource_of (st_defers s))) /\ ordered a (st_defers s).
Definition keeps {A} (c : cmd A) (a b : nat) : Prop := forall s, shape a s -> shape b (fst (c s)).

(** A command that ends in the wait. *)
Definition finishes (c : cmd unit) (a : nat) : Prop := forall s, shape a s ->
  match c s with
  | (s', Err _) => shape 7 s'
  | (s', Ok _) => exists s0, shape 7 s0 /\ st_log s' = st_log s0 ++ [Serving (st_proc s0)] /\ st_defers s' = st_defers s0
  end.

Lemma shape_mono a b s : (a <= b)%nat -> shape a s -> shape b s.
Proof. intros ? [? ?]. split; [done|]. by eapply ordered_mono. Qed.

Lemma keeps_lift {A} (r : result cli_error A) a : keeps (clift r) a a.
Proof. by intros s. Qed.

Lemma keeps_acquire {A} (c : proc H -> proc H * result cli_error (A * option deferred)) a b :
  (a <= b)%nat ->
  (forall p p' x d, c p = (p', Ok (x, Some d)) -> (a <= rank (resource_of d) < b)%nat) -> keeps (acquire c) a b.
Proof.
  intros Hab Hc s [HL HO]. unfold acquire. destruct (c (st_proc s)) as [p [[x [d|]]|err]] eqn:E; cbn [fst].
  - specialize (Hc _ _ _ _ E). split; cbn [st_log st_defers map rev ordered].
    + by rewrite HL, map_app.
    + split; [lia|]. eapply ordered_mono; [|exact HO]. lia.
  - split; [done|]. by eapply ordered_mono.
  - split; [done|]. by eapply ordered_mono.
Qed.

Lemma finishes_bind {A} (c : cmd A) (k : A -> cmd unit) a b :
  keeps c a b -> (b <= 7)%nat -> (forall x, finishes (k x) b) -> finishes (cbind c k) a.
Proof.
  intros Hc Hb Hk s Hs. unfold cbind. specialize (Hc s Hs). destruct (c s) as [s' [x|err]]; cbn [fst] in Hc.
  - by apply Hk.
  - by apply (shape_mono b).
Qed.

Lemma finishes_fail err a : (a <= 7)%nat -> finishes (cfail err) a.
Proof. intros Ha s Hs. by apply (shape_mono a). Qed.

Lemma finishes_serve a : (a <= 7)%nat -> finishes (serve e) a.
Proof. intros Ha s Hs. exists s. split; [by apply (shape_mono a)|done]. Qed.

Lemma keeps_context : keeps root_context 0 1.
Proof. apply keeps_acquire; [lia|]. intros p p' x d [= <- <- <-]. cbn. lia. Qed.

Lemma keeps_chrome override auto : keeps (resolveChromeURL e override auto) 1 2.
Proof.
  apply keeps_acquire; [lia|]. intros p p' x d E.
  destruct (negb (override =s? [])); [done|]. destruct (negb auto); [done|].
  destruct (launchChrome _ _) as [[m [cp|err]]|]; [|done..]. injection E as <- <- <-. cbn. lia.
Qed.

Lemma keeps_hub tn : keeps (start_hub e tn) 2 3.
Proof.
  apply keeps_acquire; [lia|]. intros p p' x d E. destruct (Tunnel.Start _ _ _ _) as [t [err|]]; [done|].
  injection E as <- <- <-. cbn. lia.
Qed.

Lemma keeps_tun iface mtu : keeps (open_tun e iface mtu) 3 4.
Proof.
  apply keeps_acquire; [lia|]. intros p p' x d E. destruct (NewSystemTUN _ _ _); [done|].
  injection E as <- <- <-. cbn. lia.
Qed.

Lemma keeps_kernel cfg : keeps (start_kernel e cfg) 4 5.
Proof.
  apply keeps_acquire; [lia|]. intros p p' x d E. destruct (WgKernel.New _ _ _) as [k|]; [|done].
  destruct (WgKernel.Start _ _ _ _) as [k' [err|]]; [done|]. injection E as <- <- <-. cbn. lia.
Qed.

Lemma keeps_host iface cfg : keeps (setup_host ip e iface cfg) 5 6.
Proof.
  apply keeps_acquire; [lia|]. intros p p' x d E. destruct (setupHostIface _ _ _ _ _) as [h [td|[g|err]]]; [|done..].
  injection E as <- <- <-. cbn. lia.
Qed.

Lemma bring_up_finishes iface tc kc : finishes (bring_up ip e iface tc kc) 2.
Proof.
  unfold bring_up. eapply finishes_bind; [apply keeps_lift|lia|]. intros tn.
  eapply finishes_bind; [apply keeps_hub|lia|]. intros _. eapply finishes_bind; [apply keeps_lift|lia|]. intros cfg.
  eapply finishes_bind; [apply keeps_tun|lia|]. intros _. eapply finishes_bind; [apply keeps_kernel|lia|]. intros _.
  eapply finishes_bind; [apply keeps_host|lia|]. intros _. apply finishes_serve. lia.
Qed.

Lemma client_finishes override auto iface tc kc :
  finishes (cbind root_context (fun _ => cbind (resolveChromeURL e override auto) (fun _ => bring_up ip e iface tc kc))) 0.
Proof.
  eapply finishes_bind; [apply keeps_context|lia|]. intros _.
  eapply finishes_bind; [apply keeps_chrome|lia|]. intros _. apply bring_up_finishes.
Qed.

Lemma subcommand_finishes c : finishes (run_subcommand ip e c) 0.
Proof.
  destruct c as [f config args|f url vkLink args|config lo bo args|a]; cbn [run_subcommand].
  - unfold runConnect. case_bools; [apply finishes_fail; lia|].
    do 2 (eapply finishes_bind; [apply keeps_lift|lia|]; intros ?). apply client_finishes.
  - unfold runConnectURL. case_bools; [apply finishes_fail; lia|].
    eapply finishes_bind; [apply keeps_lift|lia|]. intros prof.
    destruct (splitLinks vkLink); [apply finishes_fail; lia|]. apply client_finishes.
  - unfold runServe. case_bools; [apply finishes_fail; lia|].
    do 3 (eapply finishes_bind; [apply keeps_lift|lia|]; intros ?).
    eapply finishes_bind; [apply keeps_context|lia|]. intros _.
    eapply finishes_bind; [apply (keeps_acquire _ 1 7); [lia|]|lia|intros _; apply finishes_serve; lia].
    intros q q' y d E. destruct (Server.Start _ _ _) as [[srv [err|]] ts]; [done|]. injection E as <- <- <-. cbn. lia.
  - unfold runProxy. do 2 (eapply finishes_bind; [apply keeps_lift|lia|]; intros ?).
    eapply finishes_bind; [apply keeps_context|lia|]. intros _.
    eapply finishes_bind; [|exact (le_n 7)|intros _; apply finishes_serve; lia].
    intros s Hs. apply (shape_mono 3); [lia|]. apply keeps_hub. by apply (shape_mono 1); [lia|].
Qed.
End Shape.

(** ** What is released *)

(** The interface a command configures. *)
Definition iface_of (c : subcommand) : option bytes :=
  match c with Connect f _ _ | ConnectURL f _ _ _ => Some (cf_iface f) | _ => None end.

(** What is relied on of [ip] for an interface, on the host as it is found. *)
Record ip_undoes {H} (ip : H -> command -> H * option (error * bytes)) (h0 : H) (iface : bytes) : Prop := {
  iu_link : ip_undone ip h0 (link_up iface) (link_down iface);
  iu_addr : forall h a, ip_undone ip h (addr_cmd "add" a iface) (addr_cmd "del" a iface);
  iu_route : forall h a, ip_undone ip h (route_cmd "add" a iface) (route_cmd "del" a iface) }.

Section Release.
Context {H : Type} (ip : H -> command -> H * option (error * bytes)) (e : env) (p0 : proc H).
Abbreviation cmd := (@cmd H).

(** Nothing runs yet. *)
Record idle (p : proc H) : Prop := {
  id_tunnel : p_tunnel p = None; id_tun : p_tun p = false; id_kernel : p_kernel p = None;
  id_server : p_server p = None }.

(** Nothing runs any more: the children, the scratch directories and the host
    are as before the command. *)
Record released (p : proc H) : Prop := {
  rl_machine : p_machine p = p_machine p0;
  rl_host : p_host p = p_host p0;
  rl_context : p_context p = false;
  rl_hub : forall t, p_tunnel p = Some t -> t_state t = Tunnel.stateStopped;
  rl_tun : p_tun p = false;
  rl_kernel : forall k, p_kernel p = Some k -> k_opened k = k_closed k;
  rl_server : forall σ ts, p_server p = Some (σ, ts) -> TStop ∈ ts }.

(** The end of a run from a state: what the stack makes of it. *)
Definition ends (s : state H) : proc H := fst (run_defers ip e (st_defers s) (st_proc s)).

Lemma run_defers_cons d ds p : fst (run_defers ip e (d :: ds) p) = fst (run_defers ip e ds (run_deferred ip e d p)).
Proof. cbn [run_defers]. by destruct (run_defers _ _ _ _). Qed.

(** The stack of a client before the hub: it touches the machine and the
    context only. *)
Definition outer (ds : list deferred) (m : machine) : Prop :=
  forall q, p_machine q = m -> fst (run_defers ip e ds q) = set_context false (set_machine (p_machine p0) q).

Definition client_state (s : state H) : Prop :=
  idle (st_proc s) /\ p_host (st_proc s) = p_host p0 /\ outer (st_defers s) (p_machine (st_proc s)).

Lemma outer_context : outer [CancelContext] (p_machine p0).
Proof. intros [] Hq. cbn in *. by subst. Qed.

(** The setup of an interface restores [p_host p0]. *)
Definition ip_restores (iface : bytes) : Prop := forall goos cfg h r,
  setupHostIface ip goos iface cfg (p_host p0) = (h, r) ->
  match r with Ok td => rollback ip td h = p_host p0 | Err _ => h = p_host p0 end.

Lemma kernel_New_balanced cfg tt_ k : WgKernel.New cfg true tt_ = Ok k ->
  WgKernel.k_state k = WgKernel.stateNew /\ k_opened k = 0%nat /\ k_closed k = 0%nat.
Proof. unfold WgKernel.New. intros E. inv_result E. by injection E as <-. Qed.

(** A start that fails has closed what it opened; a stop closes the rest. *)
Lemma kernel_Start_balanced cfg tt_ k c s u k' r :
  WgKernel.New cfg true tt_ = Ok k -> WgKernel.Start k c s u = (k', r) ->
  match r with
  | Some _ => k_opened k' = k_closed k'
  | None => k_opened (WgKernel.Stop k') = k_closed (WgKernel.Stop k')
  end.
Proof.
  intros (Hs & Ho & Hc)%kernel_New_balanced E. unfold WgKernel.Start in E. rewrite Hs in E.
  destruct c; [injection E as <- <-; congruence|]. destruct (effective_config k); [|injection E as <- <-; congruence].
  destruct (IPC _) as [ipc|]; [|injection E as <- <-; congruence].
  destruct (s ipc); [injection E as <- <-; cbn; congruence|]. destruct u; injection E as <- <-; cbn; congruence.
Qed.

Lemma tunnel_Start_stops t l ce w t' r : Tunnel.Start t l ce w = (t', r) ->
  match r with Some _ => True | None => t_state t' = Tunnel.stateStarted end.
Proof.
  unfold Tunnel.Start. destruct (t_state t); try (intros [= <- <-]; done).
  destruct (NewHub _); [|intros [= <- <-]; done]. destruct (hub_Start _ _ _) as [h [?|]]; [intros [= <- <-]; done|].
  destruct w; intros [= <- <-]; done.
Qed.

Ltac release := unfold ends; cbn [fst st_proc st_defers];
  rewrite ?run_defers_cons; cbn [run_deferred];
  match goal with Ho : outer ?ds _ |- context [run_defers _ _ ?ds ?q] => rewrite (Ho q eq_refl) end;
  split; cbn; try done.

Lemma bring_up_releases iface tc kc s :
  ip_restores iface -> client_state s -> released (ends (fst (bring_up ip e iface tc kc s))).
Proof.
  intros Hip ([Ht Htun Hk Hsv] & Hh & Ho). destruct s as [[m h c tn tun k sv] log ds].
  cbn [st_proc st_defers p_tunnel p_tun p_kernel p_server p_host p_machine] in *. subst.
  unfold bring_up, cbind, clift, start_hub, open_tun, start_kernel, setup_host, serve, acquire.
  destruct (Tunnel.New tc) as [t|er]; cbn [rwrap]; [|by release].
  destruct (Tunnel.Start t _ _ _) as [t' [er|]] eqn:Es; [by release|].
  apply tunnel_Start_stops in Es.
  assert (t_state (Tunnel.Stop t') = Tunnel.stateStopped) as Hstop by (unfold Tunnel.Stop; by rewrite Es).
  assert (forall f, t_state (Tunnel.Stop (mkTunnel (t_cfg t') (f <$> t_hub t') (t_state t'))) = Tunnel.stateStopped) as Hserved
    by (intros f; unfold Tunnel.Stop; cbn; by rewrite Es).
  cbn [st_proc st_log st_defers]. destruct kc as [kc|er]; [|release; by intros ? [= <-]].
  destruct (NewSystemTUN _ _ _); [release; by intros ? [= <-]|].
  cbn [st_proc st_log st_defers]. destruct (WgKernel.New kc true _) as [k|er] eqn:Ek; [|release; by intros ? [= <-]].
  destruct (WgKernel.Start k _ _ _) as [k' [er|]] eqn:Eks;
    pose proof (kernel_Start_balanced _ _ _ _ _ _ _ _ Ek Eks) as Hb; cbn beta iota in Hb;
    [release; by intros ? [= <-]|].
  cbn [st_proc st_log st_defers set_kernel set_tun set_tunnel p_host].
  destruct (setupHostIface _ _ _ _ _) as [h' r] eqn:Eh. apply Hip in Eh.
  destruct r as [td|[g|er]]; release; by intros ? [= <-].
Qed.

Lemma root_context_bind {A} (k : unit -> cmd A) s :
  cbind root_context k s =
  k tt (mkState (set_context true (st_proc s)) (st_log s ++ [Acquired RContext]) (CancelContext :: st_defers s)).
Proof. done. Qed.

Lemma chrome_bind {A} override auto (k : bytes -> cmd A) s :
  cbind (resolveChromeURL e override auto) k s =
  if negb (override =s? []) then k override s
  else if negb auto then k [] s
  else match launchChrome (e_chrome e) (p_machine (st_proc s)) with
       | None => (s, Err ChromeHangs)
       | Some (m, Err err) => (mkState (set_machine m (st_proc s)) (st_log s) (st_defers s), Err (ChromeFailed err))
       | Some (m, Ok cp) => k (cp_url cp) (mkState (set_machine m (st_proc s)) (st_log s ++ [Acquired RChrome]) (StopChrome cp :: st_defers s))
       end.
Proof.
  destruct s as [p log ds]. unfold cbind, resolveChromeURL, acquire. cbn [st_proc st_log st_defers].
  destruct (negb (override =s? [])); [done|]. destruct (negb auto); [done|].
  by destruct (launchChrome _ _) as [[m [cp|err]]|].
Qed.

Lemma client_releases override auto iface tc kc s :
  ip_restores iface -> Chrome.fresh (e_chrome e) (p_machine p0) ->
  st_proc s = p0 -> idle p0 -> st_defers s = [] ->
  released (ends (fst (cbind root_context (fun _ => cbind (resolveChromeURL e override auto)
    (fun _ => bring_up ip e iface tc kc)) s))).
Proof.
  intros Hip Hf Hp Hid Hd. destruct s as [p log ds]. cbn [st_proc st_defers] in *. subst.
  assert (client_state (mkState (set_context true p0) (log ++ [Acquired RContext]) [CancelContext])) as Hc.
  { split; [by destruct Hid|]. split; [done|]. apply outer_context. }
  assert (released (ends (mkState (set_context true p0) (log ++ [Acquired RContext]) [CancelContext]))) as Hr.
  { unfold ends. cbn. destruct Hid. split; try done; cbn; intros; congruence. }
  rewrite root_context_bind. cbn [st_proc st_log st_defers]. rewrite chrome_bind. cbn [st_proc st_log st_defers].
  destruct (negb (override =s? [])); [by apply bring_up_releases|].
  destruct (negb auto); [by apply bring_up_releases|].
  destruct (launch_restores _ _ Hf) as (m' & r & E & HR). cbn [p_machine set_context]. rewrite E.
  destruct r as [cp|err].
  - destruct HR as (_ & _ & HR). apply bring_up_releases; [done|]. split; [by destruct Hid|]. split; [done|].
    intros q Hq. cbn [st_defers]. rewrite run_defers_cons. cbn [run_deferred st_proc p_machine set_machine] in *.
    by rewrite Hq, HR.
  - subst. unfold ends in *. cbn in *. by destruct p0.
Qed.

Lemma subcommand_releases c :
  (forall iface, iface_of c = Some iface -> ip_restores iface) ->
  Chrome.fresh (e_chrome e) (p_machine p0) -> idle p0 -> p_context p0 = false ->
  released (ends (fst (run_subcommand ip e c (mkState p0 [] [])))).
Proof.
  intros Hip Hf Hid Hctx.
  assert (released (ends (mkState p0 [] []))) as Hr.
  { unfold ends. cbn. destruct Hid. split; try done; intros; congruence. }
  destruct c as [f config args|f url vkLink args|config lo bo args|a]; cbn [run_subcommand].
  - unfold runConnect. case_bools; [done|]. unfold cbind at 1. cbn [clift]. destruct (rwrap _ _); [|done].
    unfold cbind at 1. cbn [clift]. destruct (rwrap _ _); [|done]. apply client_releases; auto.
  - unfold runConnectURL. case_bools; [done|]. unfold cbind at 1. cbn [clift]. destruct (rwrap _ _); [|done].
    destruct (splitLinks vkLink); [done|]. apply client_releases; auto.
  - unfold runServe. case_bools; [done|]. do 3 (unfold cbind at 1; cbn [clift]; destruct (rwrap _ _) || destruct (serve_plan _ _ _) || destruct (new_srv _ _); [|done]).
    unfold cbind, root_context, acquire. cbn [st_proc st_log st_defers].
    destruct (Server.Start _ _ _) as [[srv [err|]] ts]; unfold ends; cbn; destruct Hid as [Ht ? Hk Hs]; split; cbn; rewrite ?Ht, ?Hk, ?Hs; try done; try (intros; congruence).
    intros σ ts'. destruct (e_pool e (srv, ts)) as [σ' l]. intros [= <- <-]. set_solver.
  - unfold runProxy. unfold cbind at 1. cbn [clift]. destruct (rwrap _ _) as [[cfg prov]|]; [|done].
    unfold cbind at 1. cbn [clift]. destruct (rwrap _ _) as [tn|]; [|done].
    unfold cbind, root_context, acquire, start_hub. cbn [st_proc st_log st_defers].
    destruct (Tunnel.Start tn _ _ _) as [t' [err|]] eqn:Es; unfold ends; cbn; destruct Hid as [Ht ? Hk Hs]; split; cbn; rewrite ?Ht, ?Hk, ?Hs; try done; try (intros; congruence).
    intros t [= <-]. apply tunnel_Start_stops in Es. unfold Tunnel.Stop. cbn. by rewrite Es.
Qed.
End Release.

(** ** A client that reaches the wait *)

Section Serves.
Context {H : Type} (ip : H -> command -> H * option (error * bytes)) (e : env) (p0 : proc H).

(** A machine that refuses nothing: the hub listens and gets ready, the device
    comes up, [ip] succeeds. *)
Record willing : Prop := {
  wi_listened : e_listened e = true; wi_certified : e_certified e = true;
  wi_ready : exists f, e_wait e = HubReady f;
  wi_tun : forall iface mtu, e_systun e iface mtu = None;
  wi_kernel : e_kctx e = None /\ (forall text, e_ipcset e text = None) /\ e_up e = None;
  wi_ip : forall h c, snd (ip h c) = None }.

(** Captchas are solved by a given Chrome, by none, or by one that starts. *)
Definition chrome_ready (f : clientFlags) : Prop :=
  cf_vkChromeURL f <> [] \/ cf_vkChromeAuto f = false \/
  exists m cp, launchChrome (e_chrome e) (p_machine p0) = Some (m, Ok cp).

(** The process while it serves. *)
Record serves (tc : Tunnel.Config) (kc : WgKernel.Config) (p : proc H) : Prop := {
  sv_hub : exists tn, p_tunnel p = Some tn /\ t_state tn = Tunnel.stateStarted /\ t_cfg tn = Tunnel.withDefaults tc;
  sv_tun : p_tun p = true;
  sv_kernel : exists k payload, p_kernel p = Some k /\ WgKernel.k_state k = WgKernel.stateStarted /\
    IPC (point_at (e_local e) kc) = Ok payload /\ k_applied k = Some payload }.

Lemma willing_hub tc tn : willing -> Tunnel.New tc = Ok tn ->
  exists t, Tunnel.Start tn (e_listened e) (e_certified e) (e_wait e) = (t, None) /\
    t_state t = Tunnel.stateStarted /\ t_cfg t = Tunnel.withDefaults tc.
Proof.
  intros Hw (-> & Hs & _)%New_ok. destruct (wi_ready Hw) as [f Hf]. rewrite Hf, (wi_listened Hw), (wi_certified Hw).
  unfold Tunnel.Start. cbn [t_state t_cfg]. unfold NewHub. cbn [hc_Streams hub_config Tunnel.withDefaults Tunnel.Streams].
  replace (_ <=? 0)%Z with false; [by eexists|].
  symmetry. apply Z.leb_gt. destruct (Z.eqb_spec (Tunnel.Streams tc) 0); lia.
Qed.

Lemma willing_kernel kc : willing -> WgKernel.Validate kc = Ok tt -> forall addr,
  exists k k' payload, WgKernel.New kc true (Some (Some addr)) = Ok k /\
    WgKernel.Start k (e_kctx e) (e_ipcset e) (e_up e) = (k', None) /\ WgKernel.k_state k' = WgKernel.stateStarted /\
    IPC (point_at addr kc) = Ok payload /\ k_applied k' = Some payload.
Proof.
  intros Hw Hv addr. destruct (wi_kernel Hw) as (H1 & H2 & H3).
  destruct (Validate_IPC (point_at addr kc)) as [payload HP]; [by rewrite Validate_point|].
  assert (IPC (point_at addr (WgKernel.withDefaults kc)) = Ok payload) as HP'
    by (rewrite <-HP; by rewrite <-(IPC_withDefaults (point_at addr kc))).
  eexists _, _, payload. unfold WgKernel.New. rewrite Hv. split; [reflexivity|].
  unfold WgKernel.Start. cbn [WgKernel.k_state k_turnTun k_cfg effective_config]. rewrite H1. unfold effective_config.
  cbn [k_turnTun k_cfg]. rewrite HP', H2, H3. done.
Qed.

Lemma bring_up_serves iface tc kc tn s :
  willing -> Tunnel.New tc = Ok tn -> WgKernel.Validate kc = Ok tt ->
  exists s' p, bring_up ip e iface tc (Ok kc) s = (s', Ok tt) /\ (Serving p ∈ st_log s') /\ serves tc kc p.
Proof.
  intros Hw Htn Hkc. destruct s as [[m h c t0 tun k0 sv] log ds].
  unfold bring_up, cbind, clift, start_hub, open_tun, start_kernel, setup_host, serve, acquire. rewrite Htn.
  cbn [rwrap st_proc st_log st_defers].
  destruct (willing_hub tc tn Hw Htn) as (t & -> & Hst & Hcfg).
  cbn [rwrap st_proc st_log st_defers]. unfold NewSystemTUN. rewrite (wi_tun Hw). cbn [st_proc st_log st_defers].
  assert (forall q : proc H, p_tunnel q = Some t -> local_addr e q = Some (e_local e)) as Hl
    by (intros q Hq; unfold local_addr; by rewrite Hq, Hst).
  rewrite Hl by done. destruct (willing_kernel kc Hw Hkc (e_local e)) as (k & k' & payload & -> & -> & Hks & HI & Hka).
  cbn [st_proc st_log st_defers]. unfold setupHostIface. destruct (negb _).
  - eexists _, _. split; [done|]. split; [apply elem_of_app; right; by apply list_elem_of_singleton|].
    split; cbn; by eauto 6.
  - destruct (setup_succeeds ip (wi_ip Hw) iface kc (p_host (set_kernel (Some k')
      (set_tun true (set_tunnel (Some t) (mkProc m h c t0 tun k0 sv)))))) as (h' & td & ->).
    eexists _, _. split; [done|]. split; [apply elem_of_app; right; by apply list_elem_of_singleton|].
    split; cbn; by eauto 6.
Qed.
End Serves.

(** ** Theorems *)

Lemma splitLinks_nonempty raw l : l ∈ splitLinks raw -> l <> [].
Proof. intros Hl. apply list_elem_of_In, filter_In in Hl as [_ Hl]. bprop. by apply seqb_neq. Qed.

(** Neither a file nor the flags give more than one hint. *)
Lemma base_config_hints open a cfg : base_config open a = Ok cfg -> Tunnel.Hints cfg = [].
Proof.
  unfold base_config. destruct (negb _); [|by intros [= <-]]. intros E. inv_result E.
  injection E as <-. unfold WgConf.ToTunnelConfig in E1. inv_result E1. by injection E1 as <-.
Qed.

(** Links on the command line win over everything: they are the tunnel's pool,
    whatever the file says. *)
Lemma buildConfig_links open a cfg prov :
  ba_vkLink a <> [] -> buildConfig open a = Ok (cfg, prov) ->
  Tunnel.Mode cfg = ModeVKLink /\ hint_pool cfg = splitLinks (ba_vkLink a) /\ splitLinks (ba_vkLink a) <> [] /\
  prov = Routed (pickCaptchaSolver (ba_vkChromeURL a) (ba_vkChromeUA a)).
Proof.
  intros Hl E. unfold buildConfig in E. destruct (base_config open a) as [c|] eqn:Eb; [|done]. cbn [rbind] in E.
  apply base_config_hints in Eb. rewrite (proj2 (seqb_neq _ _) Hl) in E. cbn [negb] in E.
  pose proof (splitLinks_nonempty (ba_vkLink a)) as Hne.
  destruct (splitLinks (ba_vkLink a)) as [|link [|link' more]]; [done|injection E as <- <-..]; split_and!; try done.
  unfold hint_pool. cbn [with_source Tunnel.Hints Tunnel.Hint]. rewrite Eb.
  by rewrite (proj2 (seqb_neq link []) (Hne link ltac:(set_solver))).
Qed.

(** Without links the stub wants all three of its flags. *)
Lemma buildConfig_stub open a cfg user pass server :
  buildConfig open a = Ok (cfg, StubProvider user pass server) ->
  user <> [] /\ pass <> [] /\ server <> [] /\ ba_vkLink a = [].
Proof.
  intros E. unfold buildConfig in E. inv_result E.
  - destruct (splitLinks _) as [|? [|? ?]]; done.
  - bprop. repeat match goal with H : _ \/ _ |- _ => clear H end.
    injection E as <- <- <- <-. split_and!; try by apply seqb_neq. by apply seqb_eq.
Qed.

(** The tunnel of a client made from a profile and its links. *)
Definition client_turn (prof : Profile) (link : bytes) (more : list bytes) : Tunnel.Config :=
  let turnCfg := WgShare.ToTunnelConfig prof link in
  match more with
  | [] => with_provider turnCfg
  | _ => with_source (Tunnel.Mode turnCfg) [] (link :: more) turnCfg
  end.

Lemma client_turn_ok prof link more url :
  WgShare.Parse url = Ok prof -> is_ok (SplitHostPort (Endpoint prof)) = true -> link <> [] ->
  (exists tn, Tunnel.New (client_turn prof link more) = Ok tn) /\
  hint_pool (Tunnel.withDefaults (client_turn prof link more)) = link :: more /\
  Tunnel.PeerAddr (Tunnel.withDefaults (client_turn prof link more)) = Endpoint prof.
Proof.
  intros HP He Hl. assert (Tunnel.Validate (with_provider (WgShare.ToTunnelConfig prof link)) = Ok tt) as Hv.
  { apply (profile_configures url prof link HP). destruct (SplitHostPort (Endpoint prof)) as [[host port]|]; [eauto|done]. }
  unfold client_turn, WgShare.ToTunnelConfig in *. rewrite (proj2 (seqb_neq link []) Hl) in *.
  unfold Tunnel.New. destruct more; (split; [|done||(unfold hint_pool; cbn; by rewrite (proj2 (seqb_neq link []) Hl))]).
  all: match type of Hv with ?x = _ => match goal with |- context [Tunnel.Validate ?c] =>
    change (Tunnel.Validate c) with x end end; rewrite Hv; by eexists.
Qed.

(** C5.  A command gives back all it takes: whatever the machine answers, when
    [connect], [connect-url], [serve] or the hub-only mode returns, what it
    acquired has been released once, in reverse order, and each resource after
    those it rests on; it served exactly if it returns without an error; no
    child, scratch directory, device or address is left, the hub is stopped
    and so is every kernel device.  This is of a process that runs nothing
    yet, whose scratch directory is new and removable and whose clock goes
    on, and of an [ip] of which a failing call changes nothing and, for the interface of the command, a
    delete undoes the add just before it and bringing the link down undoes
    bringing it up on the host as found, where the link is down. *)
Theorem command_releases {H} (ip : H -> command -> H * option (error * bytes)) e p0 c p log r :
  ip_atomic ip -> (forall iface, iface_of c = Some iface -> ip_undoes ip (p_host p0) iface) ->
  Chrome.fresh (e_chrome e) (p_machine p0) -> idle p0 -> p_context p0 = false ->
  execute ip e (run_subcommand ip e c) p0 = (p, log, r) ->
  released p0 p /\
  exists held waited,
    StronglySorted (fun later earlier => rank earlier < rank later)%nat held /\
    log = map Acquired (rev held) ++ waited ++ map Released held /\
    match r with Ok _ => exists q, waited = [Serving q] | Err _ => waited = [] end.
Proof.
  intros Hat Hun Hf Hid Hc E.
  assert (forall iface, iface_of c = Some iface -> ip_restores ip p0 iface) as Hip.
  { intros iface [Hl Ha Hr]%Hun goos cfg h x Es. unfold setupHostIface in Es.
    destruct (negb _); [by injection Es as <- <-|].
    destruct (setupHostIfaceLinux _ _ _ _) as [h1 r1] eqn:E1. injection Es as <- <-.
    apply setup_restores in E1; [|done..]. by destruct r1. }
  pose proof (subcommand_releases ip e p0 c Hip Hf Hid Hc) as Hrel.
  pose proof (subcommand_finishes ip e c (mkState p0 [] []) (conj eq_refl I)) as Hfin.
  unfold execute in E. destruct (run_subcommand _ _ _ _) as [s x]. unfold ends in Hrel. cbn [fst] in Hrel.
  pose proof (run_defers_log ip e (st_defers s) (st_proc s)) as Hlog.
  destruct (run_defers _ _ _ _) as [q l]. cbn [fst snd] in *. injection E as <- <- <-. split; [done|].
  subst l. destruct x as [[]|err].
  - destruct Hfin as (s0 & [HL HO] & Hs & ->). exists (map resource_of (st_defers s0)), [Serving (st_proc s0)].
    split; [by eapply ordered_sorted|]. split; [|by eexists]. by rewrite Hs, HL, <-app_assoc.
  - destruct Hfin as [HL HO]. exists (map resource_of (st_defers s)), [].
    split; [by eapply ordered_sorted|]. split; [|done]. by rewrite HL.
Qed.

(** A Linux machine that refuses nothing; Chrome is given. *)
Definition demo_answers : Chrome.answers :=
  mkAnswers (mkSystem (fun _ => None) (fun _ => false) goosLinux None) (Ok "/tmp/wgturn-chrome-1"%go) (Ok 77) 0
    (fun i => mkPoll None None (Err (errors_New "refused")) (Z.of_nat i * poll_period) None) None None.
Definition demo_env : env :=
  mkEnv (fun _ => Err (errors_New "no file")) demo_answers true true (HubReady (fun h => h)) "127.0.0.1:9000"
    (fun _ _ => None) None (fun _ => None) None None true true (fun h => h) (fun p => p).
Definition demo_proc : proc (list command) := mkProc (mkMachine ∅ ∅) [] false None false None None.
Definition demo_flags : clientFlags := mkClient "wgturn0" "http://127.0.0.1:9222" true [].
Definition demo_url : bytes := match Encode demo_profile with Ok url => url | Err _ => [] end.
Definition demo_command : subcommand := ConnectURL demo_flags [] "https://vk.com/call/join/a, https://vk.com/call/join/b" [demo_url].

Lemma demo_fresh : Chrome.fresh demo_answers (p_machine demo_proc).
Proof.
  split; [by intros d [= <-]|by intros p [= <-]|done|]. intros i. cbn. lia.
Qed.

Lemma demo_idle : idle demo_proc.
Proof. by split. Qed.

Lemma demo_undoes iface : iface_of demo_command = Some iface -> ip_undoes (sample_ip []) (p_host demo_proc) iface.
Proof.
  intros _. split; [apply sample_link_undone, not_elem_of_nil|intros; apply sample_ip_undone..].
Qed.

Lemma command_releases_witness :
  exists p log, execute (sample_ip []) demo_env (run_subcommand (sample_ip []) demo_env demo_command) demo_proc = (p, log, Ok tt) /\
    length log = 11%nat /\ released demo_proc p.
Proof.
  destruct (execute (sample_ip []) demo_env (run_subcommand (sample_ip []) demo_env demo_command) demo_proc)
    as [[p log] r] eqn:E.
  pose proof (command_releases (sample_ip []) demo_env demo_proc demo_command p log r (sample_ip_atomic _)
    demo_undoes demo_fresh demo_idle eq_refl E) as [Hr _].
  assert (exists q l, execute (sample_ip []) demo_env (run_subcommand (sample_ip []) demo_env demo_command) demo_proc
    = (q, l, Ok tt) /\ length l = 11%nat) as (q & l & Hq & Hl).
  { eexists _, _. split; vm_compute; reflexivity. }
  rewrite E in Hq. injection Hq as -> -> ->. exists q, l. split; [done|]. split; [exact Hl|exact Hr].
Defined.

(** A share URL is all a client needs besides the call links: from the URL
    of a profile and some links, [connect-url] on a machine that refuses
    nothing brings the hub up with the links as its pool, opens the TUN device
    and runs the kernel with the profile's keys and prefixes, every packet to
    its peer going through the hub's local address. *)
Lemma connect_url_runs {H} (ip : H -> command -> H * option (error * bytes)) e p0 f prof url vkLink :
  Encode prof = Ok url -> encodable prof ->
  is_ok (SplitHostPort (Endpoint prof)) = true -> WgKernel.Validate (WgShare.ToKernelConfig prof) = Ok tt ->
  splitLinks vkLink <> [] -> willing ip e -> chrome_ready e p0 f ->
  exists p log q tn k payload,
    execute ip e (run_subcommand ip e (ConnectURL f [] vkLink [url])) p0 = (p, log, Ok tt) /\
    (Serving q ∈ log) /\
    p_tunnel q = Some tn /\ t_state tn = Tunnel.stateStarted /\
    hint_pool (t_cfg tn) = splitLinks vkLink /\ Tunnel.PeerAddr (t_cfg tn) = Endpoint prof /\
    p_tun q = true /\ p_kernel q = Some k /\ WgKernel.k_state k = WgKernel.stateStarted /\
    IPC (point_at (e_local e) (WgShare.ToKernelConfig prof)) = Ok payload /\ k_applied k = Some payload.
Proof.
  intros HE Henc Hep Hk Hlinks Hw Hch. pose proof (Parse_Encode prof url HE Henc) as HP.
  destruct (splitLinks vkLink) as [|link more] eqn:El; [done|]. clear Hlinks.
  destruct (client_turn_ok prof link more url HP Hep) as ((tn & Htn) & Hpool & Hpeer).
  { apply (splitLinks_nonempty vkLink). rewrite El. set_solver. }
  assert (exists s' p, run_subcommand ip e (ConnectURL f [] vkLink [url]) (mkState p0 [] []) = (s', Ok tt) /\
    (Serving p ∈ st_log s') /\ serves e (client_turn prof link more) (WgShare.ToKernelConfig prof) p)
    as (s' & q & Hrun & Hin & [(t & Ht & Hts & Htc) Htun (k & payload & Hkp & Hks & HI & Hka)]).
  { cbn [run_subcommand]. unfold runConnectURL. change (positional [] [url]) with url.
    destruct (seqb_spec url []) as [->|]; [by vm_compute in HP|]. unfold cbind at 1. cbn [clift]. rewrite HP. cbn [rwrap].
    rewrite El, root_context_bind, chrome_bind. fold (client_turn prof link more).
    destruct (negb (cf_vkChromeURL f =s? [])) eqn:E1; [by eapply bring_up_serves|].
    destruct (negb (cf_vkChromeAuto f)) eqn:E2; [by eapply bring_up_serves|]. bprop.
    destruct Hch as [Hch|[Hch|(m & cp & Hch)]]; [by apply (seqb_neq _ _) in Hch; congruence|congruence|].
    cbn [st_proc p_machine set_context]. rewrite Hch. by eapply bring_up_serves. }
  unfold execute. rewrite Hrun. destruct (run_defers _ _ _ _) as [p l].
  exists p, (st_log s' ++ l), q, t, k, payload. rewrite Htc. split_and!; try done. apply elem_of_app. by left.
Qed.

(** An [ip] that logs its commands. *)
Definition log_ip (h : list command) (c : command) : list command * option (error * bytes) := (c :: h, None).

Lemma connect_url_runs_demo :
  exists p log q, execute log_ip demo_env (run_subcommand log_ip demo_env demo_command) demo_proc = (p, log, Ok tt) /\
    (Serving q ∈ log) /\ p_tun q = true.
Proof.
  destruct (connect_url_runs log_ip demo_env demo_proc demo_flags demo_profile demo_url
    "https://vk.com/call/join/a, https://vk.com/call/join/b") as (p & log & q & tn & k & payload & H1 & H2 & _ & _ & _ & _ & H3 & _).
  - vm_compute. reflexivity.
  - exact demo_encodable.
  - vm_compute. reflexivity.
  - vm_compute. reflexivity.
  - vm_compute. discriminate.
  - split; try done. by exists (fun h => h).
  - left. discriminate.
  - exists p, log, q. split; [exact H1|]. split; [exact H2|exact H3].
Defined.
