(* ===== verification/CliAdmin.v ===== *)
(** * cmd/wgturn-cli: provision-url and revoke-url (provision_url.go)

    The flags of [provision-url] as a [wgadmin.Server], the loops over the
    names of both commands, and what they leave in the server's file. *)

From S2P Require Import Prelude GoStrings GoErrors GoTime Encoding NetIP WgShare Subnet WgAdmin QuickConf.

Record provisionFlags := mkFlags {
  pf_conf : bytes; pf_subnet : bytes; pf_serverAddr : bytes; pf_endpoint : bytes;
  pf_allowed : bytes; pf_dns : bytes; pf_mtu : Z; pf_keepalive : Z; pf_printConf : bool }.

Inductive provision_error :=
| NamesRequired | EndpointRequired | BadSubnet | BadAllowed | BadDNS | BadServerAddr
| ProvisionFailed (name : bytes) (e : admin_error) | EncodeFailed (name : bytes) (e : share_error).

Definition need_flag {A} (e : provision_error) (o : option A) : result provision_error A :=
  match o with Some x => Ok x | None => Err e end.

(** The server the flags describe. *)
Definition provision_server (f : provisionFlags) : result provision_error Server :=
  guard negb (pf_endpoint f =s? []) else EndpointRequired in
  let* subnet := need_flag BadSubnet (ParsePrefix (pf_subnet f)) in
  let* allowed := need_flag BadAllowed (parseCIDRList (pf_allowed f)) in
  let* dns := need_flag BadDNS (parseIPList (pf_dns f)) in
  let* addr := if negb (pf_serverAddr f =s? []) then need_flag BadServerAddr (ParseAddr (pf_serverAddr f))
               else Ok AddrZero in
  Ok (NewServer (mkServer (negb (pf_conf f =s? [])) subnet addr (pf_endpoint f) allowed dns (pf_mtu f) (pf_keepalive f))).

Section Loops.
Context (X25519 : bytes -> result error bytes) (s : Server).

(** The loop of [runProvisionURL] over the names, each with what the
    environment answers to its call: the lines printed, each URL with the
    file that follows it, and the error it stops at. *)
Fixpoint provision_all (printConf : bool) (w : world) (names : list (bytes * answers))
    : world * list (bytes * option bytes) * option provision_error :=
  match names with
  | [] => (w, [], None)
  | (name, a) :: names =>
      match Provision X25519 s w name a with
      | (w, Err e) => (w, [], Some (ProvisionFailed name e))
      | (w, Ok profile) =>
          match Encode profile with
          | Err e => (w, [], Some (EncodeFailed name e))
          | Ok url =>
              let '(w, printed, err) := provision_all printConf w names in
              (w, (url, if printConf then Some (formatWGQuickConf profile) else None) :: printed, err)
          end
      end
  end.

(** The loop of [runRevokeURL]: it goes on after a failure and returns the
    first. *)
Fixpoint revoke_all (w : world) (names : list (bytes * answers)) (firstErr : option admin_error)
    : world * option admin_error :=
  match names with
  | [] => (w, firstErr)
  | (name, a) :: names =>
      match Revoke s w name a with
      | (w, Some e) => revoke_all w names (match firstErr with None => Some e | _ => firstErr end)
      | (w, None) => revoke_all w names firstErr
      end
  end.
End Loops.

Definition runProvisionURL (X25519 : bytes -> result error bytes) (f : provisionFlags) (w : world)
    (names : list (bytes * answers)) : world * list (bytes * option bytes) * option provision_error :=
  match names with
  | [] => (w, [], Some NamesRequired)
  | _ => match provision_server f with
         | Err e => (w, [], Some e)
         | Ok s => provision_all X25519 s (pf_printConf f) w names
         end
  end.

(** [None] for the missing names. *)
Definition runRevokeURL (confPath : bytes) (w : world) (names : list (bytes * answers)) : world * option (option admin_error) :=
  match names with
  | [] => (w, None)
  | _ => let s := NewServer (mkServer (negb (confPath =s? [])) zero_prefix AddrZero [] [] [] 0 0) in
         let '(w, err) := revoke_all s w names None in (w, Some err)
  end.

(** ** What the loops leave *)

(** A printed URL is that of a profile whose client the file has, and so is
    the file printed with it when it is asked for. *)
Definition url_of (X25519 : bytes -> result error bytes) (s : Server) (printConf : bool)
    (line : bytes * option bytes) (p : Peer) : Prop :=
  exists prof addr,
    Encode prof = Ok (fst line) /\
    snd line = (if printConf then Some (formatWGQuickConf prof) else None) /\ Label prof = Name p /\
    PublicKeyFor X25519 (ClientPrivateKey prof) = Ok (PublicKey p) /\
    WgShare.PresharedKey prof = PresharedKey p /\
    Address prof = PrefixFrom addr (pf_bits (Subnet s)) /\ AllowedIPs p = [PrefixFrom addr (BitLen addr)].

(** The client whose call failed after writing the file: the interface could
    not be synchronised, or its profile has no URL. *)
Definition stopped_late (err : option provision_error) (name : bytes) : Prop :=
  (exists e, err = Some (ProvisionFailed name (SyncFailed e))) \/ (exists e, err = Some (EncodeFailed name e)).

Definition names_ok (names : list (bytes * answers)) : Prop :=
  Forall (fun na => plain_name (fst na) /\ answers_ok (snd na)) names.

Section Provisioning.
Context (X25519 : bytes -> result error bytes) (s : Server).
Hypothesis HX : forall k out, X25519 k = Ok out -> length out = 32%nat.
Hypothesis Hsubnet : prefix_wf (Subnet s).
Hypothesis Hhosts : forall a, is_host (Subnet s) a = true -> prefix_plain (PrefixFrom a (BitLen a)).

Lemma provision_all_spec printConf names : forall w ps, lists s w ps -> names_ok names ->
  let '(w', printed, err) := provision_all X25519 s printConf w names in
  exists new rest,
    lists s w' (ps ++ new ++ rest) /\
    Forall2 (url_of X25519 s printConf) printed new /\
    map Name (new ++ rest) = take (length (new ++ rest)) (map fst names) /\
    match rest with
    | [] => (err = None -> length new = length names) /\ (forall name, ~ stopped_late err name)
    | [p] => stopped_late err (Name p)
    | _ => False
    end.
Proof.
  induction names as [|[name a] names IH]; intros w ps Hl Hn.
  - exists [], []. cbn. rewrite app_nil_r. split_and!; [done|constructor|done|done|].
    by intros n [[? [=]]|[? [=]]].
  - apply Forall_cons in Hn as [[Hname Ha] Hn]. cbn [fst snd] in Hname, Ha.
    pose proof (Provision_spec X25519 s HX Hsubnet Hhosts w name a ps Hl Hname Ha) as H.
    cbn [provision_all]. destruct (Provision X25519 s w name a) as [w1 [prof|e]].
    + destruct H as (pub & addr & Hl1 & _ & _ & _ & _ & Hpub & Hlab & Haddr).
      destruct (Encode prof) as [url|e] eqn:E.
      2:{ eexists [], [_]. cbn. split_and!; [done|constructor|done|]. right. by eexists. }
      specialize (IH w1 _ Hl1 Hn). destruct (provision_all _ _ _ w1 names) as [[w2 printed] err].
      destruct IH as (new & rest & H1 & H2 & H3 & H4). rewrite <-app_assoc in H1.
      eexists (_ :: new), rest. split; [exact H1|]. split_and!.
      * constructor; [|done]. exists prof, addr. done.
      * cbn [app map fst length take]. by rewrite H3.
      * destruct rest as [|p [|]]; [|done|done]. destruct H4 as [H4 Hlate]. split; [|done].
        intros Herr%H4. cbn [length]. by rewrite Herr.
    + destruct e;
        try (subst w1; exists [], []; cbn; rewrite app_nil_r; split_and!; [done|constructor|done|done|];
             by intros n [[? [=]]|[? [=]]]).
      destruct H as (_ & p & addr & Hl1 & <- & _). exists [], [p]. cbn.
      split_and!; [done|constructor|done|]. left. by eexists.
Qed.
End Provisioning.

(** The file after [revoke-url] lists some of the peers it listed, and the
    command fails exactly when one of its calls did. *)
Lemma revoke_all_spec s names : forall w ps first, lists s w ps ->
  exists ps', lists s (fst (revoke_all s w names first)) ps' /\ ps' `sublist_of` ps /\
    (snd (revoke_all s w names first) = None -> first = None /\ length ps = (length names + length ps')%nat).
Proof.
  induction names as [|[name a] names IH]; intros w ps first Hl; cbn [revoke_all]; [by exists ps|].
  pose proof (Revoke_spec s w name a ps Hl) as H.
  destruct (Revoke s w name a) as [w1 [e|]].
  - assert (exists ps1, lists s w1 ps1 /\ ps1 `sublist_of` ps) as (ps1 & Hl1 & Hs1).
    { destruct e; try (subst w1; by exists ps).
      destruct H as (_ & l & p & r & -> & Hl1 & _). exists (l ++ r). split; [done|].
      apply sublist_app; [done|]. by apply sublist_cons. }
    destruct (IH w1 ps1 (match first with None => Some e | _ => first end) Hl1) as (ps' & H1 & H2 & H3).
    exists ps'. split; [done|]. split; [by etrans|]. intros [Hf _]%H3. by destruct first.
  - destruct H as (l & p & r & -> & Hl1 & _).
    destruct (IH w1 _ first Hl1) as (ps' & H1 & H2 & H3). exists ps'. split; [done|]. split.
    + etrans; [exact H2|]. apply sublist_app; [done|]. by apply sublist_cons.
    + intros [-> Hlen]%H3. split; [done|]. rewrite length_app in *. cbn [length]. lia.
Qed.

(** ** Theorems *)

(** C25.  For plain names (no white space around them, no line break),
    [provision-url] prints a URL per client it adds, in the order of the
    names, with the wg-quick file of the same profile when it is asked for:
    afterwards the file lists the peers it had and one for each printed URL,
    with the public key of the URL's private key, its preshared key and its
    address.  When the command succeeds every name has its URL.  One client
    more is in the file exactly when the command stops after writing the file
    for it, because the interface could not be synchronised or the profile has
    no URL.  The file is readable to begin with and no line of it ends in two
    carriage returns, and the text of a host's prefix is read back, as for
    every IPv4 subnet. *)
Theorem provisioned_urls X25519 s printConf w names ps text w' printed err :
  (forall k out, X25519 k = Ok out -> length out = 32%nat) ->
  prefix_wf (Subnet s) ->
  (forall a, is_host (Subnet s) a = true -> prefix_plain (PrefixFrom a (BitLen a))) ->
  names_ok names ->
  w_conf w = Ok text -> single_cr text -> peers_list s w = Ok ps ->
  provision_all X25519 s printConf w names = (w', printed, err) ->
  exists new rest,
    peers_list s w' = Ok (ps ++ new ++ rest) /\
    Forall2 (url_of X25519 s printConf) printed new /\
    map Name (new ++ rest) = take (length (new ++ rest)) (map fst names) /\
    match rest with
    | [] => (err = None -> length new = length names) /\ (forall name, ~ stopped_late err name)
    | [p] => stopped_late err (Name p)
    | _ => False
    end.
Proof.
  intros HX Hs Hh Hn Hw Hcr Hl E. apply (peers_list_lists s w ps text) in Hl; [|done..].
  pose proof (provision_all_spec X25519 s HX Hs Hh printConf names w ps Hl Hn) as H. rewrite E in H.
  destruct H as (new & rest & H1 & H2). exists new, rest. split; [by apply lists_peers_list|done].
Qed.

Definition demo_names : list (bytes * answers) :=
  [("alice"%go, demo_answers x01 None); ("alice"%go, demo_answers x02 None)].

(** The second call fails for the name: one URL, one peer. *)
Lemma provisioned_urls_witness :
  exists w' url e new, provision_all demo_X25519 demo_server false demo_world demo_names = (w', [(url, None)], Some e) /\
    peers_list demo_server w' = Ok new /\ map Name new = ["alice"%go].
Proof.
  assert (peers_list demo_server demo_world = Ok []) as Hl by (vm_compute; reflexivity).
  assert (names_ok demo_names) as Hn by (repeat constructor; apply plain_alice || apply demo_answers_ok).
  destruct (provision_all demo_X25519 demo_server false demo_world demo_names) as [[w' printed] err] eqn:E.
  destruct (provisioned_urls demo_X25519 demo_server false demo_world demo_names [] demo_text w' printed err
    demo_X25519_length demo_subnet demo_hosts Hn eq_refl demo_text_cr Hl E) as (new & rest & H1 & _).
  assert (exists w1 url e new1, provision_all demo_X25519 demo_server false demo_world demo_names = (w1, [(url, None)], Some e) /\
    peers_list demo_server w1 = Ok new1 /\ map Name new1 = ["alice"%go]) as (w1 & url & e & new1 & E1 & E2 & E3).
  { eexists _, _, _, _. split; [vm_compute; reflexivity|]. split; vm_compute; reflexivity. }
  rewrite E in E1. injection E1 as -> -> ->. rewrite H1 in E2. injection E2 as <-.
  exists w1, url, e, ([] ++ new ++ rest). split; [done|]. split; [exact H1|exact E3].
Defined.
