(* ===== verification/Logging.v ===== *)
(** * Loggers, statistics and the version

    pkg/wgturn/logger.go, cmd/wgturn-cli/version.go and the statistics loops
    of the commands, as the lines they write; a message is given formatted. *)

From S2P Require Import Prelude GoStrings GoErrors Proxy Tunnel Server.

(** ** logger.go *)

Definition Level := Z.
Definition LevelDebug : Level := 0%Z.
Definition LevelInfo : Level := 1%Z.
Definition LevelWarn : Level := 2%Z.
Definition LevelError : Level := 3%Z.

Definition Level_String (l : Level) : bytes :=
  if (l =? LevelDebug)%Z then "DEBUG" else if (l =? LevelInfo)%Z then "INFO"
  else if (l =? LevelWarn)%Z then "WARN" else if (l =? LevelError)%Z then "ERROR"
  else "LVL" ++ itoa l.

(** The interface: a logger is the lines it writes for a message of a level. *)
Class Logger (L : Type) := log_at : L -> Level -> bytes -> list bytes.

Inductive NoopLogger := noop.
#[export] Instance NoopLogger_Logger : Logger NoopLogger := fun _ _ _ => [].

Record StdLogger := mkStdLogger { MinLevel : Level }.
Definition emit (s : StdLogger) (lvl : Level) (msg : bytes) : list bytes :=
  if (lvl <? MinLevel s)%Z then [] else ["[" ++ Level_String lvl ++ "] " ++ msg].
#[export] Instance StdLogger_Logger : Logger StdLogger := emit.

Definition Debugf {L} `{!Logger L} (l : L) (msg : bytes) : list bytes := log_at l LevelDebug msg.
Definition Infof {L} `{!Logger L} (l : L) (msg : bytes) : list bytes := log_at l LevelInfo msg.
Definition Warnf {L} `{!Logger L} (l : L) (msg : bytes) : list bytes := log_at l LevelWarn msg.
Definition Errorf {L} `{!Logger L} (l : L) (msg : bytes) : list bytes := log_at l LevelError msg.

(** The logger a command's [-v] asks for. *)
Definition cli_logger (verbose : bool) : StdLogger := mkStdLogger (if verbose then LevelDebug else LevelInfo).

(** ** The statistics loops *)

(** The [select] of a loop: a tick with what [Stats] answers then, or the end
    of the context. *)
Inductive tick (A : Type) := Tick (stats : option A) | CtxDone.
Arguments Tick {A} stats.
Arguments CtxDone {A}.

Section Loop.
Context {A : Type} (line : A -> bytes).
Fixpoint stats_loop (ticks : list (tick A)) : list bytes :=
  match ticks with
  | [] | CtxDone :: _ => []
  | Tick None :: ticks => stats_loop ticks
  | Tick (Some s) :: ticks => line s :: stats_loop ticks
  end.
End Loop.

Definition hub_line (s : HubStats) : bytes :=
  "stats: streams=" ++ itoa (StreamsRunning s) ++ "/" ++ itoa (StreamsTotal s) ++
  " tx=" ++ itoa (PacketsTx s) ++ "/" ++ itoa (BytesTx s) ++ "B rx=" ++ itoa (PacketsRx s) ++ "/" ++ itoa (BytesRx s) ++
  "B drops=" ++ itoa (DropsTx s) ++ " errs=" ++ itoa (ErrorsTx s) ++ "/" ++ itoa (ErrorsRx s).
Definition runStatsLoop : list (tick HubStats) -> list bytes := stats_loop hub_line.

Definition server_line (s : Server.Stats) : bytes :=
  "serve.stats: sessions=" ++ itoa (Z.of_nat (SessionsActive s)) ++ " streams=" ++ itoa (Z.of_nat (StreamsActive s)).
Definition runServerStatsLoop : list (tick Server.Stats) -> list bytes := stats_loop server_line.

(** ** version.go *)

(** The settings of the build, when it has them. *)
Definition resolveVersion (version : bytes) (build : option (list (bytes * bytes))) : bytes :=
  if negb (version =s? "dev") && negb (version =s? []) then version
  else match build with
       | Some settings =>
           match List.find (fun '(k, v) => (k =s? "vcs.revision") && negb (v =s? [])) settings with
           | Some (_, v) => if (12 <? length v)%nat then take 12 v else v
           | None => "dev"
           end
       | None => "dev"
       end.
Definition printVersion (version : bytes) (build : option (list (bytes * bytes))) (goVersion goos goarch : bytes) : bytes :=
  "wgturn-cli " ++ resolveVersion version build ++ " (" ++ goVersion ++ " " ++ goos ++ "/" ++ goarch ++ ")" ++ [x0a].

(** ** Lemmas *)

(** Raising the threshold only takes lines away. *)
Lemma emit_filter (m m' lvl : Level) msg : (m <= m')%Z ->
  emit (mkStdLogger m') lvl msg = emit (mkStdLogger m) lvl msg \/ emit (mkStdLogger m') lvl msg = [].
Proof.
  intros H. unfold emit. cbn [MinLevel]. destruct (lvl <? m')%Z eqn:E; [by right|]. left.
  bprop. by rewrite (proj2 (Z.ltb_ge lvl m)) by lia.
Qed.

(** A loop writes one line per tick that found statistics, until the end. *)
Lemma stats_loop_length {A} (line : A -> bytes) ticks :
  (length (stats_loop line ticks) <= length ticks)%nat.
Proof. induction ticks as [|[[s|]|] ticks IH]; cbn; lia. Qed.

Lemma resolveVersion_ne version build : resolveVersion version build <> [].
Proof.
  unfold resolveVersion. destruct (seqb_spec version "dev"), (seqb_spec version []); try done; cbn [negb andb].
  all: destruct build as [l|]; [|done].
  all: destruct (List.find _ l) as [[k v]|] eqn:E; [|done].
  all: apply List.find_some in E as [_ E]; bprop; apply seqb_neq in H0.
  all: destruct v; [done|]; by destruct (12 <? _)%nat.
Qed.
