(* ===== verification/Args.v ===== *)
(** * cmd/wgturn-cli: the command line

    The dispatch of [main] (main.go) and the flags each command declares
    (main.go, connect.go, connect_url.go, serve.go, provision_url.go), from
    the arguments to the command the other files run. *)

From S2P Require Import Prelude GoStrings GoErrors GoFlag Tunnel WgShare WgAdmin HostSetup Cli CliAdmin Logging.

(** What the arguments ask for; revoke-url and provision-url also name the
    interface for [wg syncconf]. *)
Inductive command :=
| Net (c : subcommand)
| ProvisionURL (f : provisionFlags) (iface : bytes) (names : list bytes)
| RevokeURL (conf iface : bytes) (names : list bytes).

(** With the logger of [-v] and the period of [-stats]. *)
Record reporting := mkReporting { re_logger : StdLogger; re_stats : Z }.

Inductive invocation :=
| ShowVersion
| Run (prefix : bytes) (c : command) (r : option reporting)
| Refused (prefix : bytes) (e : flag_error).

(** A command: its flags with their defaults, and what it makes of them and
    of the arguments left. *)
Record front := mkFront {
  fr_name : bytes;
  fr_flags : flags;
  fr_build : flags -> list bytes -> command * option reporting }.

Definition second : Z := Second.
Definition reports (fs : flags) : option reporting :=
  Some (mkReporting (cli_logger (boolean fs "v")) (num fs "stats")).

(** [runProxy]; operands are ignored. *)
Definition proxy_flags : flags :=
  [("config"%go, VString []); ("peer"%go, VString []); ("listen"%go, VString "127.0.0.1:9000");
   ("streams"%go, VInt 24); ("peer-type"%go, VString PeerTypeProxyV2); ("watchdog"%go, VDuration 0);
   ("udp"%go, VBool false); ("vk-link"%go, VString []); ("vk-chrome-url"%go, VString []);
   ("vk-chrome-ua"%go, VString []); ("stub-user"%go, VString []); ("stub-pass"%go, VString []);
   ("stub-server"%go, VString []); ("stats"%go, VDuration (5 * second)); ("v"%go, VBool false)].
Definition runProxy_front : front := mkFront [] proxy_flags (fun fs _ =>
  (Net (HubOnly (mkArgs (str fs "config") (str fs "peer") (str fs "listen") (num fs "streams") (str fs "peer-type")
     (num fs "watchdog") (boolean fs "udp") (str fs "vk-link") (str fs "vk-chrome-url") (str fs "vk-chrome-ua")
     (str fs "stub-user") (str fs "stub-pass") (str fs "stub-server"))), reports fs)).

Definition client_flags (fs : flags) : clientFlags :=
  mkClient (str fs "iface") (str fs "vk-chrome-url") (boolean fs "vk-chrome-auto") (str fs "vk-chrome-ua").

Definition connect_flags : flags :=
  [("config"%go, VString []); ("iface"%go, VString "wgturn0"); ("vk-chrome-url"%go, VString []);
   ("vk-chrome-auto"%go, VBool true); ("vk-chrome-ua"%go, VString []);
   ("stats"%go, VDuration (5 * second)); ("v"%go, VBool false)].
Definition runConnect_front : front := mkFront "connect" connect_flags (fun fs args =>
  (Net (Connect (client_flags fs) (str fs "config") args), reports fs)).

Definition connect_url_flags : flags :=
  [("url"%go, VString []); ("vk-link"%go, VString []); ("iface"%go, VString "wgturn0");
   ("vk-chrome-url"%go, VString []); ("vk-chrome-auto"%go, VBool true); ("vk-chrome-ua"%go, VString []);
   ("stats"%go, VDuration (5 * second)); ("v"%go, VBool false)].
Definition runConnectURL_front : front := mkFront "connect-url" connect_url_flags (fun fs args =>
  (Net (ConnectURL (client_flags fs) (str fs "url") (str fs "vk-link") args), reports fs)).

Definition serve_flags : flags :=
  [("config"%go, VString []); ("listen"%go, VString []); ("backend"%go, VString []);
   ("stats"%go, VDuration (30 * second)); ("v"%go, VBool false)].
Definition runServe_front : front := mkFront "serve" serve_flags (fun fs args =>
  (Net (Serve (str fs "config") (str fs "listen") (str fs "backend") args), reports fs)).

Definition provision_flags : flags :=
  [("conf"%go, VString "/etc/wireguard/wg0.conf"); ("interface"%go, VString "wg0");
   ("subnet"%go, VString "10.7.0.0/24"); ("server-addr"%go, VString []); ("endpoint"%go, VString []);
   ("allowed"%go, VString "0.0.0.0/0"); ("dns"%go, VString []); ("mtu"%go, VInt 0);
   ("keepalive"%go, VDuration 0); ("print-conf"%go, VBool false)].
Definition runProvisionURL_front : front := mkFront "provision-url" provision_flags (fun fs names =>
  (ProvisionURL (mkFlags (str fs "conf") (str fs "subnet") (str fs "server-addr") (str fs "endpoint")
     (str fs "allowed") (str fs "dns") (num fs "mtu") (num fs "keepalive") (boolean fs "print-conf"))
     (str fs "interface") names, None)).

Definition revoke_flags : flags :=
  [("conf"%go, VString "/etc/wireguard/wg0.conf"); ("interface"%go, VString "wg0")].
Definition runRevokeURL_front : front := mkFront "revoke-url" revoke_flags (fun fs names =>
  (RevokeURL (str fs "conf") (str fs "interface") names, None)).

(** The subcommands of the switch, and the legacy mode. *)
Definition fronts : list front :=
  [runConnect_front; runConnectURL_front; runServe_front; runProvisionURL_front; runRevokeURL_front].

Definition invoke (f : front) (args : list bytes) : invocation :=
  match GoFlag.Parse (fr_flags f) args with
  | Err e => Refused (fr_name f) e
  | Ok (fs, rest) => let '(c, r) := fr_build f fs rest in Run (fr_name f) c r
  end.

(** [main] on [os.Args] without the program's name. *)
Definition main (args : list bytes) : invocation :=
  match args with
  | name :: rest =>
      if mem_bytes name ["version"%go; "--version"%go; "-version"%go] then ShowVersion
      else match List.find (fun f => name =s? fr_name f) fronts with
           | Some f => invoke f rest
           | None => invoke runProxy_front args
           end
  | [] => invoke runProxy_front []
  end.

(** ** What a command line means *)

(** The arguments [args] of the command of [f], read as settings of its flags
    and operands. *)
Definition reads (f : front) (args : list bytes) (fs : flags) (rest : list bytes) : Prop :=
  exists st, spells (bool_named (fr_flags f)) args st rest /\ settings (fr_flags f) st = Some fs.

(** Which command the arguments are for. *)
Definition selects (args : list bytes) (f : front) (own : list bytes) : Prop :=
  match args with
  | name :: rest =>
      mem_bytes name ["version"%go; "--version"%go; "-version"%go] = false /\
      ((f ∈ fronts /\ name = fr_name f /\ own = rest) \/
       (~ name ∈ map fr_name fronts /\ f = runProxy_front /\ own = args))
  | [] => f = runProxy_front /\ own = []
  end.

Lemma invoke_iff f args prefix c r :
  invoke f args = Run prefix c r <->
  prefix = fr_name f /\ exists fs rest, reads f args fs rest /\ fr_build f fs rest = (c, r).
Proof.
  unfold invoke, reads. destruct (GoFlag.Parse (fr_flags f) args) as [[fs rest]|e] eqn:E.
  - pose proof (proj1 (Parse_iff _ _ _ _) E) as Hr. destruct (fr_build f fs rest) as [c' r'] eqn:Eb. split.
    + intros [= <- <- <-]. split; [done|]. by exists fs, rest.
    + intros (-> & fs' & rest' & Hr' & Eb'). apply Parse_iff in Hr'. rewrite E in Hr'. injection Hr' as -> ->. congruence.
  - split; [done|]. intros (_ & fs & rest & Hr & _). apply Parse_iff in Hr. congruence.
Qed.

Lemma fronts_names f g : f ∈ fronts -> g ∈ fronts -> fr_name f = fr_name g -> f = g.
Proof.
  unfold fronts. rewrite !list_elem_of_In. cbn. intros Hf Hg.
  repeat (destruct Hf as [<-|Hf]; [repeat (destruct Hg as [<-|Hg]; [done|]); done|]). done.
Qed.

Lemma main_selects args f own : selects args f own -> main args = invoke f own.
Proof.
  destruct args as [|name rest]; cbn [selects main]; [by intros [-> ->]|].
  intros (-> & [(Hf & -> & ->)|(Hn & -> & ->)]).
  - destruct (List.find _ fronts) as [g|] eqn:E.
    + apply List.find_some in E as [Hg Eg%seqb_eq]. by rewrite (fronts_names f g) by (done || by apply list_elem_of_In).
    + apply list_elem_of_In in Hf. pose proof (List.find_none _ _ E f Hf) as E'. cbv beta in E'. by rewrite seqb_refl in E'.
  - destruct (List.find _ fronts) as [g|] eqn:E; [|done].
    apply List.find_some in E as [Hg Eg%seqb_eq]. destruct Hn. rewrite Eg. apply list_elem_of_In, in_map. done.
Qed.

Lemma selects_total args : (exists name rest, args = name :: rest /\ mem_bytes name ["version"%go; "--version"%go; "-version"%go] = true) \/
  exists f own, selects args f own.
Proof.
  destruct args as [|name rest]; [right; by exists runProxy_front, []|].
  destruct (mem_bytes name ["version"%go; "--version"%go; "-version"%go]) eqn:E; [left; by exists name, rest|right].
  destruct (decide (name ∈ map fr_name fronts)) as [H|H].
  - apply list_elem_of_In, in_map_iff in H as (f & En & Hf). exists f, rest. split; [done|].
    left. split; [by apply list_elem_of_In|]. done.
  - exists runProxy_front, (name :: rest). split; [done|by right].
Qed.

(** C18. The command line is read as it is spelled: [main] runs a command
    exactly when the arguments select it and spell settings of its flags that
    are well-formed, with the operands that follow; every flag then has the
    value of its last setting, or its default. *)
Theorem command_line_read args prefix c r :
  main args = Run prefix c r <->
  exists f own fs rest, selects args f own /\ prefix = fr_name f /\ fr_build f fs rest = (c, r) /\
    exists st, spells (bool_named (fr_flags f)) own st rest /\ settings (fr_flags f) st = Some fs /\
    forall name v, lookup_flag (fr_flags f) name = Some v ->
      lookup_flag fs name = match last_setting st name with None => Some v | Some t => Set_value v t end.
Proof.
  split.
  - intros H. destruct (selects_total args) as [(name & rest & -> & E)|(f & own & Hs)].
    { cbn [main] in H. by rewrite E in H. }
    rewrite (main_selects _ _ _ Hs) in H. apply invoke_iff in H as (-> & fs & rest & (st & Hsp & Hset) & Hb).
    exists f, own, fs, rest. split_and!; try done. exists st. split_and!; try done.
    intros name v. by apply settings_last.
  - intros (f & own & fs & rest & Hs & -> & Hb & st & Hsp & Hset & _). rewrite (main_selects _ _ _ Hs).
    apply invoke_iff. split; [done|]. exists fs, rest. split; [by exists st|done].
Qed.

(** ** From the arguments to a running client *)

(** A string flag has the text last set for it. *)
Lemma string_setting fs st fs' name d t :
  settings fs st = Some fs' -> lookup_flag fs name = Some (VString d) ->
  last_setting st name = t -> str fs' name = default d t.
Proof.
  intros Hs Hl <-. unfold str. rewrite (settings_last fs st fs' name _ Hs Hl). by destruct (last_setting st name).
Qed.

(** C19. However its flags are spelled and ordered, [wgturn-cli connect-url]
    with the call links, a Chrome to use and the URL of a profile runs the
    client: on a machine that refuses nothing the hub is up with the links as
    its pool and the profile's server as its peer, and the kernel runs with
    the profile's keys and prefixes, pointed at the hub. *)
Theorem command_line_serves {H} (ip : H -> HostSetup.command -> H * option (error * bytes)) e p0 args st fs prof url links chrome :
  spells (bool_named connect_url_flags) args st [url] -> settings connect_url_flags st = Some fs ->
  last_setting st "url" = None -> last_setting st "vk-link" = Some links ->
  last_setting st "vk-chrome-url" = Some chrome -> chrome <> [] ->
  Encode prof = Ok url -> encodable prof ->
  is_ok (SplitHostPort (Endpoint prof)) = true -> WgKernel.Validate (WgShare.ToKernelConfig prof) = Ok tt ->
  splitLinks links <> [] -> willing ip e ->
  exists c rep, main ("connect-url"%go :: args) = Run "connect-url" (Net c) rep /\
  exists p log q tn k payload,
    execute ip e (run_subcommand ip e c) p0 = (p, log, Ok tt) /\
    (Serving q ∈ log) /\
    p_tunnel q = Some tn /\ t_state tn = Tunnel.stateStarted /\
    hint_pool (t_cfg tn) = splitLinks links /\ Tunnel.PeerAddr (t_cfg tn) = Endpoint prof /\
    p_tun q = true /\ p_kernel q = Some k /\ WgKernel.k_state k = WgKernel.stateStarted /\
    WgKernel.IPC (WgKernel.point_at (e_local e) (WgShare.ToKernelConfig prof)) = Ok payload /\
    WgKernel.k_applied k = Some payload.
Proof.
  intros Hsp Hset Hurl Hlink Hchr Hne HE Henc Hep Hk Hl Hw.
  exists (ConnectURL (client_flags fs) (str fs "url") (str fs "vk-link") [url]), (reports fs). split.
  - change (main ("connect-url"%go :: args)) with (invoke runConnectURL_front args). unfold invoke.
    cbn [fr_flags fr_name runConnectURL_front].
    by rewrite (proj2 (Parse_iff connect_url_flags args fs [url])) by (by exists st).
  - rewrite (string_setting _ _ _ "url" [] _ Hset eq_refl Hurl).
    rewrite (string_setting _ _ _ "vk-link" [] _ Hset eq_refl Hlink). cbn [default].
    apply connect_url_runs; try done. left. cbn [client_flags cf_vkChromeURL].
    by rewrite (string_setting _ _ _ "vk-chrome-url" [] _ Hset eq_refl Hchr).
Qed.

Definition demo_args : list bytes :=
  ["connect-url"%go; "-v"%go; "--vk-link"%go; "https://vk.com/call/join/a, https://vk.com/call/join/b"%go;
   "-vk-chrome-url=http://127.0.0.1:9222"%go; "--"%go; demo_url].

Lemma command_line_serves_witness :
  exists c rep, main demo_args = Run "connect-url" (Net c) rep /\
  exists p log q, execute log_ip demo_env (run_subcommand log_ip demo_env c) demo_proc = (p, log, Ok tt) /\
    (Serving q ∈ log) /\ p_tun q = true.
Proof.
  destruct (command_line_serves log_ip demo_env demo_proc
    ["-v"%go; "--vk-link"%go; "https://vk.com/call/join/a, https://vk.com/call/join/b"%go;
     "-vk-chrome-url=http://127.0.0.1:9222"%go; "--"%go; demo_url]
    [("v"%go, "true"%go); ("vk-link"%go, "https://vk.com/call/join/a, https://vk.com/call/join/b"%go);
     ("vk-chrome-url"%go, "http://127.0.0.1:9222"%go)]
    (set_flag (set_flag (set_flag connect_url_flags "v" (VBool true))
       "vk-link" (VString "https://vk.com/call/join/a, https://vk.com/call/join/b"))
       "vk-chrome-url" (VString "http://127.0.0.1:9222"))
    demo_profile demo_url "https://vk.com/call/join/a, https://vk.com/call/join/b" "http://127.0.0.1:9222")
    as (c & rep & Hm & p & log & q & tn & k & payload & H1 & H2 & _ & _ & _ & _ & H3 & _).
  - assert (G : forall n, mem_bytes n ["v"%go; "vk-link"%go; "vk-chrome-url"%go] = true -> good_name n).
    { intros n [->|[->|[->|?%elem_of_nil]%elem_of_cons]%elem_of_cons]%mem_bytes_In%elem_of_cons; [..|done].
      all: split; [done|]; by apply (bool_decide_unpack _). }
    eapply sp_bare; [done|by apply G|done|]. eapply sp_separate; [done|by apply G|done|].
    eapply sp_attached; [done|by apply G|]. by apply sp_terminator.
  - vm_compute. reflexivity.
  - reflexivity.
  - reflexivity.
  - reflexivity.
  - discriminate.
  - vm_compute. reflexivity.
  - exact demo_encodable.
  - vm_compute. reflexivity.
  - vm_compute. reflexivity.
  - vm_compute. discriminate.
  - split; try done. by exists (fun h => h).
  - exists c, rep. split; [exact Hm|]. by exists p, log, q.
Defined.

(** A misspelled command is taken for the legacy mode, which ignores it. *)
Lemma unknown_command_is_proxy name rest :
  mem_bytes name ["version"%go; "--version"%go; "-version"%go] = false -> ~ name ∈ map fr_name fronts ->
  classify name = Operand ->
  main (name :: rest) = let '(c, r) := fr_build runProxy_front proxy_flags (name :: rest) in Run [] c r.
Proof.
  intros Hv Hn Hc. rewrite (main_selects (name :: rest) runProxy_front (name :: rest)) by (split; [done|by right]).
  unfold invoke. cbn [fr_flags runProxy_front GoFlag.Parse]. by rewrite Hc.
Qed.
