(* ===== verification/VpnClient.v ===== *)
(** * examples/vpn-client: the embedder's example (main.go)

    The same stack as [wgturn-cli connect-url], from one share URL and one
    link, without host set-up and without Chrome: its flags, its steps in the
    commands' monad, and its two ends, a return that runs the deferred calls
    and a [log.Fatalf] that does not. *)

From S2P Require Import Prelude GoStrings GoErrors GoFlag WgKernel Tunnel WgShare HostSetup Cli Args.

#[local] Notation "x '<~' c ';;' k" := (cbind c (fun x => k)) (at level 100, c at next level, right associativity).

Definition vpn_flags : flags :=
  [("url"%go, VString []); ("vk-link"%go, VString []); ("chrome-url"%go, VString "http://127.0.0.1:9222");
   ("iface"%go, VString "wgturn0")].

Section Main.
Context {H : Type} (e : env).

(** From the parsed flags to the signal; a missing URL and a missing link have
    one message. *)
Definition vpn_client (fs : flags) : @cmd H unit :=
  if (str fs "url" =s? []) || (str fs "vk-link" =s? []) then cfail URLRequired else
  profile <~ clift (rwrap ParseURL (WgShare.Parse (str fs "url"))) ;;
  tn <~ clift (rwrap NewTunnel (Tunnel.New (with_provider (ToTunnelConfig profile (str fs "vk-link"))))) ;;
  _ <~ root_context ;;
  _ <~ start_hub e tn ;;
  _ <~ open_tun e (str fs "iface") (WgShare.MTU profile) ;;
  _ <~ start_kernel e (ToKernelConfig profile) ;;
  serve e.

(** The ends of [main]: [flag.Parse] exits by itself, [log.Fatalf] exits with
    the process as it is, a return runs the deferred calls. *)
Inductive ended :=
| BadFlags (err : flag_error)
| Fatal (p : proc H) (log : list (event H)) (err : cli_error)
| Returned (p : proc H) (log : list (event H)).

(** Nothing of the example touches the host: its deferred calls hold no
    [Teardown], so the host's operations are never called. *)
Definition no_ip (h : H) (c : list bytes) : H * option (error * bytes) := (h, None).

Definition vpn_main (args : list bytes) (p : proc H) : ended :=
  match GoFlag.Parse vpn_flags args with
  | Err err => BadFlags err
  | Ok (fs, _) =>
      let '(s, r) := vpn_client fs (mkState p [] []) in
      match r with
      | Err err => Fatal (st_proc s) (st_log s) err
      | Ok _ => let '(p, log) := run_defers no_ip e (st_defers s) (st_proc s) in Returned p (st_log s ++ log)
      end
  end.
End Main.
Arguments ended : clear implicits.

Section Facts.
Context {H : Type} (ip : H -> HostSetup.command -> H * option (error * bytes)) (e : env) (p0 : proc H).

(** On a machine that refuses nothing the example serves what the URL and the
    link say, and has stopped all of it when it returns. *)
Lemma vpn_client_serves args fs rest prof tn :
  willing ip e -> idle p0 -> GoFlag.Parse vpn_flags args = Ok (fs, rest) ->
  str fs "vk-link" <> [] -> WgShare.Parse (str fs "url") = Ok prof ->
  Tunnel.New (with_provider (ToTunnelConfig prof (str fs "vk-link"))) = Ok tn ->
  WgKernel.Validate (ToKernelConfig prof) = Ok tt ->
  exists p log q, vpn_main e args p0 = Returned p log /\ (Serving q ∈ log) /\
    serves e (with_provider (ToTunnelConfig prof (str fs "vk-link"))) (ToKernelConfig prof) q /\
    released p0 p.
Proof.
  intros Hw Hid Hp Hl HP Htn Hk. unfold vpn_main. rewrite Hp. unfold vpn_client.
  assert (str fs "url" <> []) as Hu by (intros E; rewrite E in HP; by vm_compute in HP).
  rewrite (proj2 (seqb_neq _ _) Hu), (proj2 (seqb_neq _ _) Hl). cbn [orb].
  destruct p0 as [m h c t0 tun k0 sv]. destruct Hid as [? ? ? ?]. cbn in *. subst.
  unfold cbind, clift, root_context, start_hub, open_tun, start_kernel, serve, acquire.
  rewrite HP. cbn [rwrap]. rewrite Htn. cbn [rwrap st_proc st_log st_defers].
  destruct (willing_hub ip e _ tn Hw Htn) as (t & -> & Hst & Hcfg).
  cbn [st_proc st_log st_defers]. unfold NewSystemTUN. rewrite (wi_tun _ _ Hw). cbn [st_proc st_log st_defers].
  assert (forall q : proc H, p_tunnel q = Some t -> local_addr e q = Some (e_local e)) as Hloc
    by (intros q Hq; unfold local_addr; by rewrite Hq, Hst).
  rewrite Hloc by done.
  destruct (willing_kernel ip e _ Hw Hk (e_local e)) as (k & k' & payload & HN & HS & Hks & HI & Hka).
  rewrite HN, HS. pose proof (kernel_Start_balanced _ _ _ _ _ _ _ _ HN HS) as Hb. cbn in Hb.
  cbn [st_proc st_log st_defers run_defers run_deferred].
  eexists _, _, _. split; [reflexivity|]. split; [rewrite !elem_of_app, !list_elem_of_singleton; tauto|].
  split; [split; cbn; by eauto 6|]. split; cbn; try done.
  - intros t1 [= <-]. unfold Tunnel.Stop. cbn. by rewrite Hst.
  - by intros ? [= <-].
Qed.

(** A device that cannot be opened leaves the hub running: [log.Fatalf] runs
    no deferred call. *)
Lemma fatal_skips_stop args fs rest prof tn t err :
  GoFlag.Parse vpn_flags args = Ok (fs, rest) -> str fs "vk-link" <> [] ->
  WgShare.Parse (str fs "url") = Ok prof ->
  Tunnel.New (with_provider (ToTunnelConfig prof (str fs "vk-link"))) = Ok tn ->
  Tunnel.Start tn (e_listened e) (e_certified e) (e_wait e) = (t, None) ->
  NewSystemTUN (e_systun e) (str fs "iface") (WgShare.MTU prof) = Some err ->
  exists p, vpn_main e args p0 = Fatal p [Acquired RContext; Acquired RHub] (OpenTUN err) /\
    p_tunnel p = Some t /\ t_state t = Tunnel.stateStarted /\ p_context p = true.
Proof.
  intros Hp Hl HP Htn Hs He. unfold vpn_main. rewrite Hp. unfold vpn_client.
  assert (str fs "url" <> []) as Hu by (intros E; rewrite E in HP; by vm_compute in HP).
  rewrite (proj2 (seqb_neq _ _) Hu), (proj2 (seqb_neq _ _) Hl). cbn [orb].
  unfold cbind, clift, root_context, start_hub, open_tun, acquire. rewrite HP. cbn [rwrap]. rewrite Htn.
  cbn [rwrap st_proc st_log st_defers]. rewrite Hs. cbn [st_proc st_log st_defers]. rewrite He.
  cbn [st_proc st_log]. eexists. split; [reflexivity|]. apply tunnel_Start_stops in Hs. by cbn.
Qed.
End Facts.

(** The demonstration profile's URL, and the link of a call, as the command
    line gives them. *)
Example demo_vpn_client : exists p log,
  vpn_main demo_env ["-url"%go; demo_url; "-vk-link"%go; "https://vk.com/call/join/a"%go] demo_proc = Returned p log /\
  p_tun p = false /\ p_context p = false.
Proof. eexists _, _. split; [vm_compute; reflexivity|]. by vm_compute. Qed.
