(* ===== verification/Url.v ===== *)
(** * Go's net/url, as far as the host of a URL

    [url.Parse], [URL.Scheme] and [URL.Hostname] on byte strings.  The parts
    that only other fields of the result hold (path, query, fragment, user)
    are validated as the library does and dropped. *)

From S2P Require Import Prelude GoStrings Encoding.

(** ** Characters *)

Definition is_letter (c : byte) : bool :=
  (((97 <=? byte_val c) && (byte_val c <=? 122)) || ((65 <=? byte_val c) && (byte_val c <=? 90)))%Z.
Definition is_ctl (c : byte) : bool := ((byte_val c <? 32) || (byte_val c =? 127))%Z.

(** [!shouldEscape(c, encodeHost)]. *)
Definition host_char (c : byte) : bool :=
  is_letter c || is_digit c || existsb (Byte.eqb c) "!$&'()*+,;=:[]<>-_.~" || Byte.eqb c x22.

Inductive encoding := encodeHost | encodeZone | encodeOther.

(** [unescape]: what [%XX] may stand for depends on the part. *)
Definition escape_ok (mode : encoding) (x : byte) (v : Z) : bool :=
  match mode with
  | encodeHost => (negb (default 0 (from_hex x) <? 8) || (v =? 0x25))%Z
  | encodeZone => ((v =? 0x25) || (v =? 0x20) || host_char (byte_of_Z v))%Z
  | encodeOther => true
  end.
Definition plain_ok (mode : encoding) (c : byte) : bool :=
  match mode with
  | encodeOther => true
  | _ => negb (byte_val c <? 128)%Z || host_char c
  end.

Fixpoint unescape (mode : encoding) (s : bytes) : option bytes :=
  match s with
  | [] => Some []
  | c :: s =>
      if Byte.eqb c "%" then
        match s with
        | a :: b :: s =>
            x ← from_hex a; y ← from_hex b;
            if escape_ok mode a (16 * x + y) then t ← unescape mode s; Some (byte_of_Z (16 * x + y) :: t) else None
        | _ => None
        end
      else if plain_ok mode c then t ← unescape mode s; Some (c :: t) else None
  end.

(** ** The parts of a URL *)

(** [strings.Cut] at a byte. *)
Fixpoint cut_byte (c : byte) (s : bytes) : bytes * bytes :=
  match s with
  | [] => ([], [])
  | a :: s => if Byte.eqb a c then ([], s) else let '(x, y) := cut_byte c s in (a :: x, y)
  end.

(** [getScheme]; [None] for a missing scheme. *)
Definition scheme_rest (c : byte) : bool := is_digit c || existsb (Byte.eqb c) "+-.".
Fixpoint scheme_go (first : bool) (s : bytes) : option (option (bytes * bytes)) :=
  match s with
  | [] => Some None
  | c :: s =>
      if is_letter c || (negb first && scheme_rest c) then
        r ← scheme_go false s; Some (option_map (fun '(x, y) => (c :: x, y)) r)
      else if Byte.eqb c ":" then if first then None else Some (Some ([], s))
      else Some None
  end.
Definition getScheme (raw : bytes) : option (bytes * bytes) :=
  r ← scheme_go true raw; Some (default ([], raw) r).

Definition validOptionalPort (port : bytes) : bool :=
  match port with [] => true | c :: ds => Byte.eqb c ":" && forallb is_digit ds end.

Definition userinfo_char (c : byte) : bool :=
  is_letter c || is_digit c || existsb (Byte.eqb c) "-._:~!$&'()*+,;=%@".

(** The text up to the last [c] and from it on. *)
Definition cut_last (c : byte) (s : bytes) : option (bytes * bytes) :=
  i ← LastIndexByte s c; Some (take i s, drop i s).

Section Parse.
(** The releases that check what stands between brackets. *)
Context (literal_ok : bytes -> bool).

(** [parseHost]. *)
Definition parseHost (host : bytes) : option bytes :=
  if HasPrefix host "[" then
    '(inside, rest) ← cut_last "]" host;
    if validOptionalPort (drop 1 rest) && literal_ok (drop 1 inside) then
      match Index inside "%25" with
      | Some z => h1 ← unescape encodeHost (take z host); h2 ← unescape encodeZone (drop z inside);
                  h3 ← unescape encodeHost rest; Some (h1 ++ h2 ++ h3)
      | None => unescape encodeHost host
      end
    else None
  else
    match cut_last ":" host with
    | Some (_, port) => if validOptionalPort port then unescape encodeHost host else None
    | None => unescape encodeHost host
    end.

(** The user's part is valid. *)
Definition user_ok (userinfo : bytes) : bool :=
  forallb userinfo_char userinfo &&
  (if Contains userinfo ":" then
     let '(u, p) := cut_byte ":" userinfo in
     bool_decide (is_Some (unescape encodeOther u)) && bool_decide (is_Some (unescape encodeOther p))
   else bool_decide (is_Some (unescape encodeOther userinfo))).

(** [parseAuthority]: the host. *)
Definition parseAuthority (authority : bytes) : option bytes :=
  match cut_last "@" authority with
  | None => parseHost authority
  | Some (userinfo, rest) =>
      host ← parseHost (drop 1 rest);
      if user_ok userinfo then Some host else None
  end.

(** What follows the scheme, without fragment and query. *)
Definition parse_rest (has_scheme : bool) (rest : bytes) : option bytes :=
  if negb (HasPrefix rest "/") && has_scheme then Some []
  else if negb (HasPrefix rest "/") && Contains (fst (cut_byte "/" rest)) ":" then None
  else if (has_scheme || negb (HasPrefix rest "///")) && HasPrefix rest "//" then
    let authority := fst (cut_byte "/" (drop 2 rest)) in
    host ← parseAuthority authority;
    _ ← unescape encodeOther (drop (2 + length authority) rest); Some host
  else _ ← unescape encodeOther rest; Some [].

(** [url.Parse]: scheme and host. *)
Definition url_Parse (raw : bytes) : option (bytes * bytes) :=
  let '(u, frag) := cut_byte "#" raw in
  r ← (if existsb is_ctl u then None
       else if u =s? "*" then Some ([], [])
       else
         '(scheme, rest) ← getScheme u;
         host ← parse_rest (negb (scheme =s? [])) (fst (cut_byte "?" rest));
         Some (ToLower scheme, host));
  _ ← unescape encodeOther frag; Some r.
End Parse.

(** [URL.Hostname] of a host. *)
Definition Hostname (host : bytes) : bytes :=
  let h := match cut_last ":" host with
           | Some (h, port) => if validOptionalPort port then h else host
           | None => host
           end in
  if HasPrefix h "[" && HasSuffix h "]" then take (length h - 2) (drop 1 h) else h.

(** [URL.Port]: the text after the last colon when it is a port. *)
Definition Port (host : bytes) : bytes :=
  match cut_last ":" host with
  | Some (_, port) => if validOptionalPort port then drop 1 port else []
  | None => []
  end.

Example url_samples :
  let p s := (fun '(sc, h) => (sc, Hostname h)) <$> url_Parse (fun _ => true) s in
  p "HTTPS://id.vk.ru:443/x?y#z"%go = Some ("https"%go, "id.vk.ru"%go) /\
  p "https://evil.com\@vk.ru/"%go = None /\ p "https://vk.ru\.evil.com"%go = None /\
  p "https://u:p@vk.com"%go = Some ("https"%go, "vk.com"%go) /\
  p "https:vk.ru"%go = Some ("https"%go, []) /\ p "https://vk.ru%2eevil.com"%go = None /\
  p "https://[vk.ru]/"%go = Some ("https"%go, "vk.ru"%go) /\
  p "1https://x"%go = None /\ p "//vk.ru/"%go = Some ([], "vk.ru"%go) /\ p "https://[::1%25en0]:8/"%go = Some ("https"%go, "::1%en0"%go).
Proof. vm_compute. done. Qed.

(** ** Lemmas: cutting *)

Lemma cut_byte_spec c s a b : cut_byte c s = (a, b) ->
  (c ∉ a) /\ ((s = a /\ b = []) \/ s = a ++ c :: b).
Proof.
  revert a b. induction s as [|x s IH]; intros a b H; cbn [cut_byte] in H; [injection H as <- <-; set_solver|].
  destruct (byte_eqb_spec x c) as [->|Hne]; [injection H as <- <-; split; [set_solver|by right]|].
  destruct (cut_byte c s) as [u v]. injection H as <- <-. destruct (IH u v eq_refl) as [H1 H2].
  split; [set_solver|]. destruct H2 as [[-> ->]| ->]; [by left|by right].
Qed.

Lemma LastIndexByte_split s c i : LastIndexByte s c = Some i ->
  exists a b, s = a ++ c :: b /\ (c ∉ b) /\ length a = i.
Proof.
  revert i. induction s as [|x s IH]; intros i H; cbn [LastIndexByte] in H; [done|].
  destruct (LastIndexByte s c) as [j|] eqn:E.
  - injection H as <-. destruct (IH j eq_refl) as (a & b & -> & Hb & <-). by exists (x :: a), b.
  - destruct (byte_eqb_spec x c) as [->|]; [|done]. injection H as <-. exists [], s. split_and!; [done| |done].
    clear IH. induction s as [|y s IH]; [set_solver|]. cbn [LastIndexByte] in E.
    destruct (LastIndexByte s c); [done|]. destruct (byte_eqb_spec y c); [done|]. set_solver.
Qed.

Lemma LastIndexByte_none s c : LastIndexByte s c = None -> c ∉ s.
Proof.
  induction s as [|y s IH]; intros E; [set_solver|]. cbn [LastIndexByte] in E.
  destruct (LastIndexByte s c); [done|]. destruct (byte_eqb_spec y c); [done|]. set_solver.
Qed.

Lemma cut_last_some c s h r : cut_last c s = Some (h, r) -> exists b, r = c :: b /\ s = h ++ c :: b /\ (c ∉ b).
Proof.
  unfold cut_last. destruct (LastIndexByte s c) as [i|] eqn:E; [|done]. cbn. intros [= <- <-].
  apply LastIndexByte_split in E as (a & b & -> & Hb & <-).
  exists b. by rewrite take_app_length, drop_app_length.
Qed.

Lemma cut_last_app c h b : c ∉ b -> cut_last c (h ++ c :: b) = Some (h, c :: b).
Proof. intros Hb. unfold cut_last. rewrite LastIndexByte_app by done. cbn. by rewrite take_app_length, drop_app_length. Qed.

Lemma cut_last_none c s : cut_last c s = None -> c ∉ s.
Proof. unfold cut_last. destruct (LastIndexByte s c) eqn:E; [done|]. intros _. by apply LastIndexByte_none. Qed.

Lemma cut_last_none_iff c s : c ∉ s -> cut_last c s = None.
Proof. intros Hc. destruct (cut_last c s) as [[h r]|] eqn:E; [|done]. apply cut_last_some in E as (b & -> & -> & _). set_solver. Qed.

Lemma scheme_go_spec first s x y : scheme_go first s = Some (Some (x, y)) -> s = x ++ ":" ++ y.
Proof.
  revert first x y. induction s as [|c s IH]; intros first x y H; cbn [scheme_go] in H; [done|].
  destruct (is_letter c || negb first && scheme_rest c).
  - destruct (scheme_go false s) as [[[u v]|]|] eqn:E; cbn in H; [|done..]. injection H as <- <-.
    by rewrite (IH false u v E).
  - destruct (byte_eqb_spec c ":") as [->|]; [|done]. destruct first; [done|]. by injection H as <- <-.
Qed.

(** ** Lemmas: unescaping a host *)

(** A byte no escape of a host stands for. *)
Definition fixed (c : byte) : Prop := (byte_val c < 128)%Z /\ c <> "%"%byte.

Lemma from_hex_range c v : from_hex c = Some v -> (0 <= v < 16)%Z.
Proof. unfold from_hex. cbv zeta. case_bools; intros [= <-]; bprop; lia. Qed.

Lemma escape_high x y v w : from_hex x = Some v -> from_hex y = Some w ->
  escape_ok encodeHost x (16 * v + w) = true ->
  (128 <= byte_val (byte_of_Z (16 * v + w)))%Z \/ byte_of_Z (16 * v + w) = "%"%byte.
Proof.
  intros Hv Hw He. apply from_hex_range in Hv as Rv. apply from_hex_range in Hw as Rw.
  unfold escape_ok in He. rewrite Hv in He. cbn [default id] in He. bprop. destruct He as [He|He]; bprop.
  - left. rewrite byte_val_of_Z, Z.mod_small by lia. lia.
  - right. by rewrite He.
Qed.

(** A string is empty, starts with an escape, or with a plain byte. *)
Lemma unescape_cases (P : bytes -> Prop) :
  P [] ->
  (forall a b s, P s -> P ("%"%byte :: a :: b :: s)) ->
  (forall c s, c <> "%"%byte -> P s -> P (c :: s)) ->
  P ["%"%byte] -> (forall a, P ["%"%byte; a]) ->
  forall s, P s.
Proof.
  intros H0 H3 H1 Ha Hb s. remember (length s) as n eqn:Hn. revert s Hn.
  induction n as [n IH] using lt_wf_ind. intros s ->. destruct s as [|c s]; [done|].
  destruct (byte_eqb_spec c "%") as [->|Hc].
  - destruct s as [|a [|b s]]; [done..|]. apply H3. apply (IH (length s)); cbn [length]; lia.
  - apply H1; [done|]. apply (IH (length s)); cbn [length]; lia.
Qed.

Lemma unescape_plain m c s : c <> "%"%byte ->
  unescape m (c :: s) = if plain_ok m c then t ← unescape m s; Some (c :: t) else None.
Proof. intros H. cbn [unescape]. by destruct (byte_eqb_spec c "%"). Qed.

(** Around a byte that is no hexadecimal digit the halves are unescaped
    apart. *)
Lemma unescape_split m c b t a : from_hex c = None -> c <> "%"%byte ->
  unescape m (a ++ c :: b) = Some t ->
  exists a' b', unescape m a = Some a' /\ unescape m b = Some b' /\ t = a' ++ c :: b'.
Proof.
  intros Hx Hc. revert t. pattern a. revert a. apply unescape_cases.
  - intros t H. cbn [app] in H. rewrite unescape_plain in H by done. destruct (plain_ok m c); [|done].
    destruct (unescape m b) as [b'|] eqn:E; [|done]. injection H as <-. by exists [], b'.
  - intros x y s IH t H. cbn [app unescape] in *. change (Byte.eqb "%" "%") with true in *. cbv beta iota in *.
    destruct (from_hex x) as [v|]; [|done]. destruct (from_hex y) as [w|]; [|done]. cbn [mbind option_bind] in *.
    destruct (escape_ok m x _); [|done]. destruct (unescape m (s ++ c :: b)) as [u|]; [|done]. injection H as <-.
    destruct (IH u eq_refl) as (a' & b' & -> & H2 & ->). by eexists (_ :: a'), b'.
  - intros x s Hne IH t H. cbn [app] in H. rewrite unescape_plain in H by done. rewrite unescape_plain by done.
    destruct (plain_ok m x); [|done]. destruct (unescape m (s ++ c :: b)) as [u|]; [|done]. injection H as <-.
    destruct (IH u eq_refl) as (a' & b' & -> & H2 & ->). by eexists (_ :: a'), b'.
  - intros t H. cbn [app unescape] in H. change (Byte.eqb "%" "%") with true in H. cbv beta iota in H.
    destruct b as [|y b]; [done|]. by rewrite Hx in H.
  - intros x t H. cbn [app unescape] in H. change (Byte.eqb "%" "%") with true in H. cbv beta iota in H.
    rewrite Hx in H. by destruct (from_hex x).
Qed.

Lemma unescape_not_in c b b' : fixed c -> (c ∉ b) -> unescape encodeHost b = Some b' -> c ∉ b'.
Proof.
  intros [Hc Hp]. revert b'. pattern b. revert b. apply unescape_cases; try done.
  - intros b' _ [= <-]. set_solver.
  - intros x y s IH b' Hn H. cbn [unescape] in H. change (Byte.eqb "%" "%") with true in H. cbv beta iota in H.
    destruct (from_hex x) as [v|] eqn:Ex; [|done]. destruct (from_hex y) as [w|] eqn:Ey; [|done]. cbn [mbind option_bind] in H.
    destruct (escape_ok _ _ _) eqn:Ee; [|done]. destruct (unescape _ s) as [u|]; [|done]. injection H as <-.
    pose proof (escape_high x y v w Ex Ey Ee) as Hh. intros [->|Hin]%elem_of_cons; [destruct Hh; [lia|done]|].
    apply (IH u); [set_solver|done|done].
  - intros x s Hne IH b' Hn H. rewrite unescape_plain in H by done. destruct (plain_ok _ x); [|done].
    destruct (unescape _ s) as [u|]; [|done]. injection H as <-.
    intros [->|Hin]%elem_of_cons; [set_solver|]. apply (IH u); [set_solver|done|done].
Qed.

Lemma unescape_digits b : forallb is_digit b = true -> unescape encodeHost b = Some b.
Proof.
  induction b as [|c b IH]; [done|]. cbn [forallb]. intros [Hc Hb]%andb_true_iff.
  rewrite unescape_plain by (by intros ->). rewrite IH by done. unfold plain_ok, host_char. rewrite Hc.
  by rewrite !orb_true_r.
Qed.

(** The bytes of a host's text. *)
Definition host_text (c : byte) : bool := Byte.eqb c "%" || negb (byte_val c <? 128)%Z || host_char c.

Lemma hex_host_text x v : from_hex x = Some v -> host_text x = true.
Proof. destruct x; (by intros H; vm_compute in H) || done. Qed.

Lemma unescape_text b b' : unescape encodeHost b = Some b' -> forallb host_text b = true.
Proof.
  revert b'. pattern b. revert b. apply unescape_cases; try done.
  - intros x y s IH b' H. cbn [unescape] in H. change (Byte.eqb "%" "%") with true in H. cbv beta iota in H.
    destruct (from_hex x) eqn:Ex; [|done]. destruct (from_hex y) eqn:Ey; [|done]. cbn [mbind option_bind] in H.
    destruct (escape_ok _ _ _); [|done]. destruct (unescape _ s) as [u|]; [|done].
    cbn [forallb]. rewrite (hex_host_text x _ Ex), (hex_host_text y _ Ey), (IH u eq_refl). done.
  - intros x s Hne IH b' H. rewrite unescape_plain in H by done. destruct (plain_ok _ x) eqn:Ep; [|done].
    destruct (unescape _ s) as [u|]; [|done]. cbn [forallb]. rewrite (IH u eq_refl), andb_true_r.
    unfold host_text. unfold plain_ok in Ep. rewrite <-orb_assoc, Ep. by rewrite orb_true_r.
Qed.

Lemma unescape_head c s t : fixed c -> unescape encodeHost s = Some (c :: t) -> exists s', s = c :: s'.
Proof.
  intros Hf H. destruct s as [|x s]; [done|]. destruct (byte_eqb_spec x "%") as [->|Hx].
  - exfalso. destruct s as [|a [|b s]]; [done..|].
    assert (exists v, (c :: t) = v :: t /\ (128 <= byte_val v \/ v = "%"%byte)%Z) as (v & [= <-] & Hv).
    { cbn [unescape] in H. change (Byte.eqb "%" "%") with true in H. cbv beta iota in H.
      destruct (from_hex a) as [v|] eqn:Ex; [|done]. destruct (from_hex b) as [w|] eqn:Ey; [|done]. cbn [mbind option_bind] in H.
      destruct (escape_ok _ _ _) eqn:Ee; [|done]. destruct (unescape _ s) as [u|]; [|done]. injection H as <- <-.
      eexists. split; [done|]. by apply (escape_high a b v w). }
    destruct Hf, Hv; [lia|done].
  - rewrite unescape_plain in H by done. destruct (plain_ok _ x); [|done].
    destruct (unescape _ s); [|done]. injection H as <- <-. by exists s.
Qed.

Lemma HasPrefix_head_iff (s : bytes) c : HasPrefix s [c] = true <-> exists t, s = c :: t.
Proof. apply HasPrefix_true. Qed.

Lemma digits_no_colon b : forallb is_digit b = true -> (":"%byte ∉ b).
Proof. intros H. by apply (digits_not_in b ":"). Qed.

(** ** What the host of a URL is *)

Section Shape.
Context (literal_ok : bytes -> bool).

(** A host that is no bracketed literal: text, then a port; the host name is
    what the text stands for. *)
Lemma parseHost_shape hp host : HasPrefix hp "[" = false -> parseHost literal_ok hp = Some host ->
  exists h port, hp = h ++ port /\ validOptionalPort port = true /\ unescape encodeHost h = Some (Hostname host).
Proof.
  intros Hb H. unfold parseHost in H. rewrite Hb in H.
  assert (forall h h', unescape encodeHost h = Some h' -> (exists w, hp = h ++ w) -> h' <> [] ->
    HasPrefix h' "[" = false) as Hbr.
  { intros h h' Hu [w Hw] Hne. destruct (HasPrefix h' "[") eqn:E; [|done]. apply HasPrefix_head_iff in E as [t ->].
    apply unescape_head in Hu as [s' ->]; [|by split]. rewrite Hw in Hb. by cbn in Hb. }
  assert (forall h', (h' <> [] -> HasPrefix h' "[" = false) ->
    (if HasPrefix h' "[" && HasSuffix h' "]" then take (length h' - 2) (drop 1 h') else h') = h') as Hstrip.
  { intros [|c h'] Hh; [done|]. by rewrite Hh. }
  destruct (cut_last ":" hp) as [[h r]|] eqn:E.
  - apply cut_last_some in E as (b & -> & -> & Hnb). destruct (validOptionalPort (_ :: b)) eqn:Ev; [|done].
    pose proof Ev as Hd. cbn [validOptionalPort] in Hd. apply andb_true_iff in Hd as [_ Hd].
    apply unescape_split in H as (h' & b' & Hh & Hb' & ->); [|done..].
    rewrite unescape_digits in Hb' by done. injection Hb' as <-.
    exists h, (":"%byte :: b). split_and!; [done..|]. rewrite Hh. f_equal. unfold Hostname.
    rewrite cut_last_app, Ev by done. symmetry. apply Hstrip. intros Hne. apply (Hbr h); [done|by eexists|done].
  - apply cut_last_none in E. exists hp, []. rewrite app_nil_r. split_and!; [done..|]. rewrite H. f_equal.
    assert (":"%byte ∉ host) by (by apply (unescape_not_in _ hp)). unfold Hostname.
    rewrite cut_last_none_iff by done. symmetry. apply Hstrip. intros Hne. apply (Hbr hp); [done|exists []; by rewrite app_nil_r|done].
Qed.

(** Where the authority of a URL ends. *)
Definition tail_ok (t : bytes) : Prop := match t with [] => True | c :: _ => c ∈ ["/"; "?"; "#"]%byte end.

Lemma cut_tail c s a b t : cut_byte c s = (a, b) -> c ∈ ["/"; "?"; "#"]%byte -> tail_ok t ->
  exists t', s ++ t = a ++ t' /\ tail_ok t'.
Proof.
  intros H Hc Ht. apply cut_byte_spec in H as [_ [[-> ->]| ->]]; [by exists t|].
  exists (c :: b ++ t). split; [by rewrite <-app_assoc|done].
Qed.

Lemma parse_rest_shape rest host : parse_rest literal_ok true rest = Some host -> host <> [] ->
  exists authority path, rest = "//" ++ authority ++ path /\ tail_ok path /\ parseAuthority literal_ok authority = Some host.
Proof.
  intros H Hne. unfold parse_rest in H. rewrite andb_true_r in H. cbn [orb] in H.
  destruct (HasPrefix rest "/") eqn:E1; cbn [negb andb] in H; [|injection H as <-; done].
  destruct (HasPrefix rest "//") eqn:E2; [|by destruct (unescape _ rest); cbn in H; [injection H as <-|]].
  apply HasPrefix_true in E2 as [r ->]. change (drop 2 ("//" ++ r)) with r in H.
  destruct (cut_byte "/" r) as [au path] eqn:Ec. rewrite ?Ec in H. cbn [fst] in H.
  destruct (cut_tail "/" r au path [] Ec) as (t & Ht & Htail); [set_solver|done|]. rewrite app_nil_r in Ht. subst r.
  destruct (parseAuthority literal_ok au) as [h|] eqn:Ea; [|done]. cbn [mbind option_bind] in H.
  destruct (unescape _ _); [|done]. injection H as <-. by exists au, t.
Qed.

Lemma parseAuthority_shape au host : parseAuthority literal_ok au = Some host ->
  exists user hp, au = user ++ hp /\ parseHost literal_ok hp = Some host /\
    (user = [] \/ exists u, user = u ++ "@" /\ forallb userinfo_char u = true).
Proof.
  unfold parseAuthority. destruct (cut_last "@" au) as [[u r]|] eqn:E.
  - apply cut_last_some in E as (b & -> & -> & _). change (drop 1 ("@"%byte :: b)) with b.
    destruct (parseHost literal_ok b) as [h|] eqn:Eh; [|done]. cbn [mbind option_bind].
    destruct (user_ok u) eqn:Eu; [|done]. intros [= <-]. exists (u ++ "@"), b. split; [by rewrite <-app_assoc|]. split; [done|].
    right. exists u. split; [done|]. unfold user_ok in Eu. by apply andb_true_iff in Eu as [? _].
  - intros H. exists [], au. split_and!; [done..|by left].
Qed.

(** The text of a URL with a scheme and a host. *)
Lemma url_Parse_shape raw scheme host : url_Parse literal_ok raw = Some (scheme, host) -> scheme <> [] -> host <> [] ->
  exists sch user hp tail,
    raw = sch ++ "://" ++ user ++ hp ++ tail /\ ToLower sch = scheme /\ tail_ok tail /\
    (user = [] \/ exists u, user = u ++ "@" /\ forallb userinfo_char u = true) /\
    parseHost literal_ok hp = Some host.
Proof.
  intros H Hs Hh. unfold url_Parse in H. destruct (cut_byte "#" raw) as [u frag] eqn:Ef.
  destruct (existsb is_ctl u); [done|]. destruct (u =s? "*"); [cbn in H; destruct (unescape _ frag); [by injection H as <- <-|done]|].
  unfold getScheme in H. destruct (scheme_go true u) as [[[sch rest]|]|] eqn:Es; cbn [default id mbind option_bind] in H; [| |done].
  2:{ destruct (parse_rest _ _ _); [|done]. cbn in H. destruct (unescape _ frag); [by injection H as <- <-|done]. }
  apply scheme_go_spec in Es as ->.
  destruct (seqb_spec sch []) as [->|Hsch]; cbn [negb] in H.
  { destruct (parse_rest _ _ _); [|done]. cbn in H. destruct (unescape _ frag); [by injection H as <- <-|done]. }
  destruct (cut_byte "?" rest) as [rest' q] eqn:Eq. cbn [fst] in H.
  destruct (parse_rest literal_ok true rest') as [h|] eqn:Er; [|done]. cbn [mbind option_bind] in H.
  destruct (unescape _ frag); [|done]. injection H as <- <-.
  apply parse_rest_shape in Er as (au & path & -> & Hpath & Ha); [|done].
  apply parseAuthority_shape in Ha as (user & hp & -> & Hhp & Huser).
  destruct (cut_tail "#" raw _ frag [] Ef) as (t1 & H1 & Ht1); [set_solver|done|]. rewrite app_nil_r in H1.
  destruct (cut_tail "?" rest _ q t1 Eq) as (t2 & H2 & Ht2); [set_solver|done|].
  exists sch, user, hp, (path ++ t2). split_and!; try done.
  - rewrite H1, <-app_assoc. f_equal. cbn [app]. f_equal. rewrite H2. by rewrite <-!app_assoc.
  - destruct path; done.
Qed.
End Shape.
