(* ===== verification/Utls.v ===== *)
(** * provider/vk: the HTTPS transport with a browser's fingerprint (utls_transport.go)

    One exchange over a connection of its own: dialled, shaken hands over,
    written to and read from, and closed on every path.  What the network,
    the TLS library, the HTTP reader and the decoders answer is a record; a
    call that may wait for ever answers [None], and gives way to the end of
    the request's context only where it is given the context. *)

From stdpp Require Import gmap.
From S2P Require Import Prelude GoStrings GoErrors Url.

(** ** The transport's settings *)

(** A [net.Dialer] (its hook is in Providers), and what [newUTLSTransport] sets
    on the transport for plain HTTP; the fingerprint is Chrome's latest. *)
Record Dialer := mkDialer { Timeout : Z; KeepAlive : Z }.
Record utlsRoundTripper := mkTripper { dialer : Dialer; fb_DialContext : Dialer; fb_MaxIdleConns : Z; fb_IdleConnTimeout : Z }.
Definition newUTLSTransport (d : option Dialer) : utlsRoundTripper :=
  let d := match d with Some d => d | None => mkDialer (20 * Second) (30 * Second) end in
  mkTripper d d 16 (90 * Second).

(** ** What is handled *)

(** The things that can be closed. *)
Inductive handle := HSocket | HConn | HDecoder | HBody.
#[global] Instance handle_eq_dec : EqDecision handle.
Proof. solve_decision. Defined.

Inductive event := Dialed (addr : bytes) | Offered (protocols : list (list bytes)) | Written | Closed (h : handle).

(** Header names are canonical: [http.ReadResponse] makes them so. *)
Abbreviation header := (gmap bytes (list bytes)).
Definition Get (h : header) (name : bytes) : bytes := match h !! name with Some (v :: _) => v | _ => [] end.

(** A body: the response's, behind a decoder (with what its [Close] calls), or
    tied to the connection with its [sync.Once] and error. *)
Inductive body :=
| Plain
| Decoded (enc : bytes) (closer : option handle).
Record utlsResponseBody := mkBody { rb_body : body; rb_once : bool; rb_err : option error }.

Record response := mkResponse { StatusCode : Z; Header : header; ContentLength : Z; Body : utlsResponseBody }.
(** What [http.ReadResponse] yields. *)
Record raw_response := mkRaw { raw_status : Z; raw_header : header; raw_length : Z }.

Inductive transport_error :=
| DialFailed (addr : bytes) (e : error) | BuildState (host : bytes) (e : error) | HandshakeFailed (host : bytes) (e : error)
| WriteRequest (e : error) | ReadResponseFailed (e : error) | Decompress (enc : bytes) (e : option error) | FallbackFailed (e : error).

(** Extensions of the ClientHello: ALPN with its protocols, or another. *)
Inductive extension := ALPN (protocols : list bytes) | OtherExtension.

Record answers := mkAnswers {
  an_fallback : option (result error response);          (* http.Transport, for http *)
  an_dial : option (option error);
  an_build : option error; an_extensions : list extension;
  an_handshake : list extension -> option (option error);
  an_write : option (option error);
  an_read : option (result error raw_response);
  an_gzip : option error; an_zstd : option error;         (* gzip.NewReader, zstd.NewReader *)
  an_close : handle -> option error }.

(** A call that watches the context: when it would wait for ever it ends with
    the context. *)
Definition watching {A} (call : option (option error)) (ctx : option error) (k : option error -> option A) : option A :=
  match call with
  | Some r => k r
  | None => match ctx with Some e => k (Some e) | None => None end
  end.

(** [wrapDecompressor]; [None] for an encoding it does not know. *)
Definition wrapDecompressor (an : answers) (enc : bytes) : result (option error) body :=
  let e := TrimSpace enc in
  if e =s? "gzip" then match an_gzip an with Some err => Err (Some err) | None => Ok (Decoded e (Some HDecoder)) end
  else if e =s? "deflate" then Ok (Decoded e (Some HDecoder))
  else if e =s? "br" then Ok (Decoded e None)
  else if e =s? "zstd" then match an_zstd an with Some err => Err (Some err) | None => Ok (Decoded e (Some HDecoder)) end
  else if (e =s? "identity") || (e =s? []) then Ok Plain
  else Err None.

Definition force_alpn (x : extension) : extension :=
  match x with ALPN _ => ALPN ["http/1.1"%go] | _ => x end.
Definition protocols (xs : list extension) : list (list bytes) :=
  omap (fun x => match x with ALPN p => Some p | _ => None end) xs.

(** The response with its body decoded, and tied to the connection. *)
Definition finish (an : answers) (r : raw_response) : result transport_error response :=
  let enc := ToLower (Get (raw_header r) "Content-Encoding") in
  let* (b, h, n) :=
    if negb (enc =s? []) then
      let* b := rwrap (Decompress enc) (wrapDecompressor an enc) in
      Ok (b, delete "Content-Length"%go (delete "Content-Encoding"%go (raw_header r)), (-1)%Z)
    else Ok (Plain, raw_header r, raw_length r) in
  Ok (mkResponse (raw_status r) h n (mkBody b false None)).

(** [RoundTrip]: what was done, and the result; [None] when it never
    returns. *)
Definition RoundTrip (an : answers) (ctx : option error) (scheme host : bytes)
    : option (list event * result transport_error response) :=
  if negb (scheme =s? "https") then
    r ← an_fallback an; Some ([], rwrap FallbackFailed r)
  else
    let name := Hostname host in
    let port := if Port host =s? [] then "443"%go else Port host in
    let addr := JoinHostPort name port in
    watching (an_dial an) ctx (fun err =>
    match err with
    | Some e => Some ([], Err (DialFailed addr e))
    | None =>
        let tr := [Dialed addr] in
        match an_build an with
        | Some e => Some (tr ++ [Closed HSocket], Err (BuildState name e))
        | None =>
            let xs := map force_alpn (an_extensions an) in
            let tr := tr ++ [Offered (protocols xs)] in
            watching (an_handshake an xs) ctx (fun err =>
            match err with
            | Some e => Some (tr ++ [Closed HSocket], Err (HandshakeFailed name e))
            | None =>
                err ← an_write an;
                match err with
                | Some e => Some (tr ++ [Closed HConn], Err (WriteRequest e))
                | None =>
                    let tr := tr ++ [Written] in
                    r ← an_read an;
                    match r with
                    | Err e => Some (tr ++ [Closed HConn], Err (ReadResponseFailed e))
                    | Ok raw =>
                        match finish an raw with
                        | Err e => Some (tr ++ [Closed HConn], Err e)
                        | Ok resp => Some (tr, Ok resp)
                        end
                    end
                end
            end)
        end
    end).

(** ** Closing *)

Definition first_error (a b : option error) : option error := match a with Some _ => a | None => b end.

(** [decompReadCloser.Close], or the response body's own; zstd's [Close]
    returns nothing. *)
Definition close_base (an : answers) (b : body) : list event * option error :=
  match b with
  | Plain => ([Closed HBody], an_close an HBody)
  | Decoded enc None => ([Closed HBody], an_close an HBody)
  | Decoded enc (Some h) =>
      ([Closed h; Closed HBody],
       first_error (if enc =s? "zstd" then None else an_close an h) (an_close an HBody))
  end.

(** [utlsResponseBody.Close]. *)
Definition Close (an : answers) (b : utlsResponseBody) : utlsResponseBody * list event * option error :=
  if rb_once b then (b, [], rb_err b)
  else
    let '(tr, err) := close_base an (rb_body b) in
    let err := first_error err (an_close an HConn) in
    (mkBody (rb_body b) true err, tr ++ [Closed HConn], err).

Fixpoint close_times (an : answers) (n : nat) (b : utlsResponseBody) : utlsResponseBody * list event * list (option error) :=
  match n with
  | O => (b, [], [])
  | S n => let '(b, tr, err) := Close an b in
           let '(b, tr', errs) := close_times an n b in (b, tr ++ tr', err :: errs)
  end.

(** ** Properties *)

(** Calls that close the connection: of the socket, or of the TLS connection
    over it. *)
Definition releases (ev : event) : bool :=
  match ev with Closed HSocket | Closed HConn => true | _ => false end.
Definition dialed (ev : event) : bool := match ev with Dialed _ => true | _ => false end.
Definition closes (h : handle) (ev : event) : bool := match ev with Closed h' => bool_decide (h = h') | _ => false end.
Definition count (f : event -> bool) (tr : list event) : nat := length (List.filter f tr).

Lemma count_app f a b : count f (a ++ b) = (count f a + count f b)%nat.
Proof. unfold count. by rewrite List.filter_app, length_app. Qed.

Lemma finish_ok an raw resp : finish an raw = Ok resp ->
  rb_once (Body resp) = false /\
  (Get (raw_header raw) "Content-Encoding" <> [] ->
     ContentLength resp = (-1)%Z /\ Get (Header resp) "Content-Encoding" = [] /\ Get (Header resp) "Content-Length" = []) /\
  match rb_body (Body resp) with Decoded _ (Some h) => h = HDecoder | _ => True end.
Proof.
  unfold finish. intros H. destruct (seqb_spec (ToLower (Get (raw_header raw) "Content-Encoding")) []) as [E|E]; cbn [negb] in H.
  - injection H as <-. split; [done|]. split; [|done]. intros Hne.
    by apply ToLower_nil in E.
  - destruct (wrapDecompressor an _) as [b|e] eqn:Ew; [|done]. injection H as <-. split; [done|]. split.
    + intros _. cbn [ContentLength Header]. split; [done|]. unfold Get. rewrite lookup_delete_ne by done.
      by rewrite !lookup_delete_eq.
    + cbn [Body rb_body]. unfold wrapDecompressor in Ew. cbv zeta in Ew.
      repeat (case_match; try (injection Ew as <-; done); try done).
Qed.

(** Cases of a run by what the calls answer. *)
Ltac exchange_cases H :=
  repeat match type of H with
  | watching ?c _ _ = Some _ => unfold watching at 1 in H; destruct c as [[?|]|]
  | match ?ctx with Some _ => _ | None => None end = Some _ => is_var ctx; destruct ctx
  | match an_build ?an with _ => _ end = Some _ => destruct (an_build an)
  | mbind _ (an_write ?an) = Some _ => destruct (an_write an) as [[?|]|]; cbn [mbind option_bind] in H
  | mbind _ (an_read ?an) = Some _ => destruct (an_read an) as [[?|?]|] eqn:?; cbn [mbind option_bind] in H
  | match finish ?an ?x with _ => _ end = Some _ => destruct (finish an x) eqn:?
  | Some _ = Some _ => injection H as <- <-
  | None = Some _ => done
  end.

(** The exchanges that end in an error have closed what they dialled, once;
    one that succeeds has closed nothing. *)
Lemma RoundTrip_closes an ctx host tr r : RoundTrip an ctx "https" host = Some (tr, r) ->
  (count dialed tr <= 1)%nat /\
  match r with
  | Err _ => count releases tr = count dialed tr
  | Ok resp => count dialed tr = 1%nat /\ count releases tr = O /\
      exists raw, an_read an = Some (Ok raw) /\ finish an raw = Ok resp
  end.
Proof.
  unfold RoundTrip. rewrite seqb_refl. cbn [negb]. cbv zeta. intros H. exchange_cases H.
  all: split; [cbn; lia|]; try done. split; [done|]. split; [done|]. by eexists.
Qed.

Lemma RoundTrip_offers an ctx host tr r ps : RoundTrip an ctx "https" host = Some (tr, r) ->
  Offered ps ∈ tr -> ps = protocols (map force_alpn (an_extensions an)).
Proof.
  unfold RoundTrip. rewrite seqb_refl. cbn [negb]. cbv zeta. intros H. exchange_cases H; cbn [app].
  all: rewrite ?elem_of_cons, ?elem_of_nil; intros Hin; repeat destruct Hin as [Hin|Hin]; by simplify_eq.
Qed.

(** ALPN offers HTTP/1.1 alone, whatever the fingerprint had. *)
Lemma forced_protocols xs p : p ∈ protocols (map force_alpn xs) -> p = ["http/1.1"%go].
Proof.
  unfold protocols. rewrite list_elem_of_omap. intros (x & (y & -> & _)%list_elem_of_fmap & Hx).
  destruct y; [by injection Hx as <-|done].
Qed.

(** Every [Close] after the first does nothing and returns the first's error. *)
Lemma close_times_once an n b : rb_once b = true ->
  close_times an n b = (b, [], replicate n (rb_err b)).
Proof.
  intros Hb. induction n as [|n IH]; [done|]. cbn [close_times]. unfold Close. rewrite Hb. by rewrite IH.
Qed.

Lemma close_times_fresh an n b : rb_once b = false ->
  match rb_body b with Decoded _ (Some h) => h = HDecoder | _ => True end ->
  let '(_, tr, errs) := close_times an (S n) b in
  count releases tr = 1%nat /\ count (closes HBody) tr = 1%nat /\ (count (closes HDecoder) tr <= 1)%nat /\
  exists e, errs = replicate (S n) e.
Proof.
  intros Hb Hh. cbn [close_times]. unfold Close. rewrite Hb.
  destruct (close_base an (rb_body b)) as [tr err] eqn:E. rewrite close_times_once by done. rewrite app_nil_r.
  assert (Hc : count releases tr = O /\ count (closes HBody) tr = 1%nat /\ (count (closes HDecoder) tr <= 1)%nat).
  { unfold close_base in E. destruct (rb_body b) as [|enc [h|]]; injection E as <- <-; subst; repeat split; vm_compute; repeat constructor. }
  destruct Hc as (H1 & H2 & H3). rewrite !count_app, H1, H2. split; [done|]. split; [done|]. split.
  - replace (count (closes HDecoder) [Closed HConn]) with O by reflexivity. lia.
  - by eexists.
Qed.

(** C16. No connection of the HTTPS transport is lost: an exchange that fails
    has closed the connection it dialled, once; one that succeeds leaves it
    open until the body is closed, and however often that is done the
    connection and the body are closed once and every call gets the same
    error.  The ClientHello offers HTTP/1.1 alone, and a decoded response
    carries neither the encoding nor the length of what came over the wire. *)
Theorem exchange_releases an ctx host tr r :
  RoundTrip an ctx "https" host = Some (tr, r) ->
  (forall ps p, Offered ps ∈ tr -> p ∈ ps -> p = ["http/1.1"%go]) /\
  match r with
  | Err _ => count releases tr = count dialed tr /\ (count dialed tr <= 1)%nat
  | Ok resp =>
      count dialed tr = 1%nat /\ count releases tr = O /\
      (forall n, let '(_, ev, errs) := close_times an (S n) (Body resp) in
         count releases ev = 1%nat /\ count (closes HBody) ev = 1%nat /\ (count (closes HDecoder) ev <= 1)%nat /\
         exists e, errs = replicate (S n) e) /\
      exists raw, an_read an = Some (Ok raw) /\
        (Get (raw_header raw) "Content-Encoding" <> [] ->
         ContentLength resp = (-1)%Z /\ Get (Header resp) "Content-Encoding" = [] /\ Get (Header resp) "Content-Length" = [])
  end.
Proof.
  intros H. split.
  - intros ps p Hin Hp. rewrite (RoundTrip_offers _ _ _ _ _ _ H Hin) in Hp. by eapply forced_protocols.
  - destruct (RoundTrip_closes _ _ _ _ _ H) as [Hd Hr]. destruct r as [resp|e]; [|done].
    destruct Hr as (Hd1 & Hr0 & raw & Hraw & Hfin). destruct (finish_ok _ _ _ Hfin) as (Honce & Henc & Hh).
    split; [done|]. split; [done|]. split; [|by exists raw].
    intros n. by apply close_times_fresh.
Qed.

(** A server that answers with a compressed body. *)
Definition demo_transport : answers :=
  mkAnswers None (Some None) None [OtherExtension; ALPN ["h2"%go; "http/1.1"%go]] (fun _ => Some None) (Some None)
    (Some (Ok (mkRaw 200 {["Content-Encoding"%go := ["GZip"%go]; "Content-Length"%go := ["20"%go]]} 20)))
    None None (fun h => if bool_decide (h = HDecoder) then Some (errors_New "gzip: invalid checksum") else None).

Lemma exchange_releases_witness :
  exists tr resp, RoundTrip demo_transport None "https" "api.vk.ru" = Some (tr, Ok resp) /\
    tr = [Dialed "api.vk.ru:443"; Offered [["http/1.1"%go]]; Written] /\ ContentLength resp = (-1)%Z /\
    let '(_, ev, errs) := close_times demo_transport 2 (Body resp) in
    count releases ev = 1%nat /\ exists e, errs = [e; e].
Proof.
  assert (exists tr resp, RoundTrip demo_transport None "https" "api.vk.ru" = Some (tr, Ok resp) /\
    tr = [Dialed "api.vk.ru:443"; Offered [["http/1.1"%go]]; Written] /\ ContentLength resp = (-1)%Z)
    as (tr & resp & H & Htr & Hlen).
  { do 2 eexists. split; [vm_compute; reflexivity|]. split; vm_compute; reflexivity. }
  destruct (exchange_releases _ _ _ _ _ H) as (_ & _ & _ & Hc & _). specialize (Hc 1%nat).
  exists tr, resp. split; [exact H|]. split; [exact Htr|]. split; [exact Hlen|].
  destruct (close_times demo_transport 2 (Body resp)) as [[b ev] errs]. destruct Hc as (H1 & _ & _ & e & ->).
  split; [exact H1|]. by exists e.
Defined.

(** Once the handshake is done the request's context is not looked at: a
    server that does not answer holds the exchange for ever, whatever timeout
    the client has. *)
Lemma stalled_response an ctx host :
  an_dial an = Some None -> an_build an = None -> (forall xs, an_handshake an xs = Some None) ->
  an_write an = Some None -> an_read an = None -> RoundTrip an ctx "https" host = None.
Proof.
  intros H1 H2 H3 H4 H5. unfold RoundTrip. rewrite seqb_refl. cbn [negb]. cbv zeta.
  unfold watching. by rewrite H1, H2, H3, H4, H5.
Qed.
