(* ===== verification/Profiles.v ===== *)
(** * provider/vk: the browser a request looks like

    The table of profiles.go and the headers [apiClient.post] (api.go) sets,
    on Go's [http.Header]; what the transport of Utls offers to decode is what
    the headers ask for. *)

From S2P Require Import Prelude GoStrings GoErrors Vk Utls.

(** ** profiles.go *)

Record browserProfile := mkProfile {
  UserAgent : bytes; SecChUa : bytes; SecChUaMobile : bytes; SecChUaPlatform : bytes }.

Definition browserProfiles : list browserProfile :=
  [mkProfile "Mozilla/5.0 (Windows NT 10.0; Win64; x64) AppleWebKit/537.36 (KHTML, like Gecko) Chrome/146.0.0.0 Safari/537.36"
     (js "'Chromium';v='146', 'Not-A.Brand';v='24', 'Google Chrome';v='146'") "?0" (js "'Windows'");
   mkProfile "Mozilla/5.0 (Windows NT 10.0; Win64; x64) AppleWebKit/537.36 (KHTML, like Gecko) Chrome/145.0.0.0 Safari/537.36 Edg/145.0.0.0"
     (js "'Chromium';v='145', 'Not-A.Brand';v='99', 'Microsoft Edge';v='145'") "?0" (js "'Windows'");
   mkProfile "Mozilla/5.0 (Macintosh; Intel Mac OS X 10_15_7) AppleWebKit/537.36 (KHTML, like Gecko) Chrome/146.0.0.0 Safari/537.36"
     (js "'Chromium';v='146', 'Not-A.Brand';v='24', 'Google Chrome';v='146'") "?0" (js "'macOS'");
   mkProfile "Mozilla/5.0 (X11; Linux x86_64) AppleWebKit/537.36 (KHTML, like Gecko) Chrome/146.0.0.0 Safari/537.36"
     (js "'Chromium';v='146', 'Not-A.Brand';v='24', 'Google Chrome';v='146'") "?0" (js "'Linux'")].

(** [draw n] is what [rand.IntN(n)] answers; [None] where the index would be
    out of range. *)
Definition pickProfile (draw : Z -> Z) : option browserProfile :=
  browserProfiles !! Z.to_nat (draw (Z.of_nat (length browserProfiles))).

(** ** net/http's [Header.Set] *)

(** [CanonicalMIMEHeaderKey], of a name that is a token. *)
Fixpoint canonical_from (up : bool) (s : bytes) : bytes :=
  match s with
  | [] => []
  | c :: s =>
      (if up then (if ((97 <=? byte_val c) && (byte_val c <=? 122))%Z then byte_of_Z (byte_val c - 32) else c)
       else lower_byte c) :: canonical_from (Byte.eqb c "-") s
  end.
Definition CanonicalMIMEHeaderKey (name : bytes) : bytes := canonical_from true name.
Definition Set_header (h : header) (name v : bytes) : header := <[CanonicalMIMEHeaderKey name := [v]]> h.

(** ** api.go: the headers of a request *)

Definition header_settings (p : browserProfile) : list (bytes * bytes) :=
  [("Content-Type"%go, "application/x-www-form-urlencoded"%go); ("User-Agent"%go, UserAgent p);
   ("sec-ch-ua"%go, SecChUa p); ("sec-ch-ua-mobile"%go, SecChUaMobile p); ("sec-ch-ua-platform"%go, SecChUaPlatform p);
   ("Accept"%go, "application/json, text/plain, */*"%go); ("Accept-Language"%go, "en-US,en;q=0.9,ru;q=0.8"%go);
   ("Accept-Encoding"%go, "gzip, deflate, br, zstd"%go); ("Origin"%go, "https://vk.com"%go);
   ("Referer"%go, "https://vk.com/"%go); ("Sec-Fetch-Site"%go, "cross-site"%go); ("Sec-Fetch-Mode"%go, "cors"%go);
   ("Sec-Fetch-Dest"%go, "empty"%go); ("DNT"%go, "1"%go)].
Definition request_header (p : browserProfile) : header :=
  fold_left (fun h '(name, v) => Set_header h name v) (header_settings p) ∅.

(** ** The pairing *)

(** The digits after the first [mark] of [s]. *)
Fixpoint digits_of (s : bytes) : bytes :=
  match s with c :: s => if is_digit c then c :: digits_of s else [] | [] => [] end.
Definition version_after (mark s : bytes) : option bytes :=
  i ← Index s mark; Some (digits_of (drop (i + length mark) s)).

(** What a hint says and what the user agent says: the version, and the
    system. *)
Definition systems : list (bytes * bytes) :=
  [(js "'Windows'", "Windows NT"%go); (js "'macOS'", "Mac OS X"%go); (js "'Linux'", "Linux"%go)].
Definition paired (p : browserProfile) : bool :=
  bool_decide (version_after "Chrome/" (UserAgent p) = version_after (js "'Chromium';v='") (SecChUa p)) &&
  match List.find (fun kv => fst kv =s? SecChUaPlatform p) systems with
  | Some (_, s) => Contains (UserAgent p) s
  | None => false
  end.

Lemma profiles_paired : Forall (fun p => paired p = true) browserProfiles.
Proof. repeat constructor; by vm_compute. Qed.

(** Whatever is drawn, a profile of the table is picked: [rand.IntN(n)] is in
    [0, n). *)
Lemma pickProfile_total draw :
  (forall n, 0 < n -> 0 <= draw n < n)%Z -> exists p, pickProfile draw = Some p /\ paired p = true.
Proof.
  intros Hd. specialize (Hd (Z.of_nat (length browserProfiles)) ltac:(done)).
  destruct (lookup_lt_is_Some_2 browserProfiles (Z.to_nat (draw (Z.of_nat (length browserProfiles))))) as [p Hp]; [lia|].
  exists p. split; [done|]. by eapply (Forall_lookup_1 _ _ _ _ profiles_paired).
Qed.

(** The names are distinct as the server sees them, so that each setting of
    [post] reaches it. *)
Lemma settings_reach p name v :
  (name, v) ∈ header_settings p -> Utls.Get (request_header p) (CanonicalMIMEHeaderKey name) = v.
Proof.
  assert (G : Forall (fun '(name, v) => Utls.Get (request_header p) (CanonicalMIMEHeaderKey name) = v) (header_settings p)).
  { destruct p. repeat constructor; reflexivity. }
  intros H. by rewrite Forall_forall in G; apply (G (name, v)).
Qed.

(** Every encoding a request asks for is one the transport decodes. *)
Lemma asked_encodings_decoded p an enc :
  an_gzip an = None -> an_zstd an = None ->
  enc ∈ FieldsFunc (Utls.Get (request_header p) "Accept-Encoding") (fun c => Byte.eqb c ",") ->
  exists b, wrapDecompressor an enc = Ok b.
Proof.
  intros Hg Hz. change "Accept-Encoding"%go with (CanonicalMIMEHeaderKey "Accept-Encoding"). rewrite (settings_reach p "Accept-Encoding" "gzip, deflate, br, zstd") by (destruct p; set_solver).
  change (FieldsFunc _ _) with ["gzip"%go; " deflate"%go; " br"%go; " zstd"%go].
  intros H. repeat (apply elem_of_cons in H as [->|H]); [..|by apply elem_of_nil in H];
    unfold wrapDecompressor; rewrite ?Hg, ?Hz; by eexists.
Qed.
