(* ===== verification/Cdp.v ===== *)
(** * provider/vk/captchasolve: solving captchas (chain.go, cdp.go)

    The chain of solvers; the solver that drives Chrome over the DevTools
    protocol, as the commands it sends; and the session below it, which
    matches replies with calls, as a state machine.  Chrome is an argument. *)

From Stdlib Require Import Floats.SpecFloat.
From S2P Require Import Prelude GoStrings GoErrors Json Vk Url.

(** ** chain.go *)

(** What happens to a chain: a solver is asked, or has failed. *)
Inductive chain_event := OnAttempt (i : nat) | OnFailure (i : nat) (e : error).

Inductive chain_error := NoSolvers | ChainCtx (e : error) | Joined (failures : list error).

Definition solver_failed (i : nat) (e : error) : error := Errorf_w ("solver[" ++ itoa (Z.of_nat i) ++ "]: ") e.

(** The loop, from the [i]-th solver; [ctx] is the context's error before each
    attempt and a solver is what it answers to the challenge. *)
Fixpoint chain_loop {A} (ctx : nat -> option error) (i : nat) (solvers : list (result error A)) (failures : list error)
    : list chain_event * result chain_error A :=
  match solvers with
  | [] => ([], Err (Joined failures))
  | s :: solvers =>
      match ctx i with
      | Some e => ([], Err (match failures with [] => ChainCtx e | _ => Joined (failures ++ [e]) end))
      | None =>
          match s with
          | Ok sol => ([OnAttempt i], Ok sol)
          | Err e =>
              let '(tr, r) := chain_loop ctx (S i) solvers (failures ++ [solver_failed i e]) in
              (OnAttempt i :: OnFailure i e :: tr, r)
          end
      end
  end.

Definition chain_Solve {A} (ctx : nat -> option error) (solvers : list (result error A))
    : list chain_event * result chain_error A :=
  match solvers with [] => ([], Err NoSolvers) | _ => chain_loop ctx 0 solvers [] end.

(** ** cdp.go: where Chrome may go *)

Inductive host_error := BadURL | BadScheme (scheme : bytes) | NotVK (host : bytes).

Definition is_vk_host (h : bytes) : bool :=
  (h =s? "vk.ru") || (h =s? "vk.com") || HasSuffix h ".vk.ru" || HasSuffix h ".vk.com".

Definition assertVKHost (literal_ok : bytes -> bool) (raw : bytes) : result host_error unit :=
  match url_Parse literal_ok raw with
  | None => Err BadURL
  | Some (scheme, host) =>
      guard scheme =s? "https" else BadScheme scheme in
      let h := ToLower (Hostname host) in
      guard is_vk_host h else NotVK h in Ok tt
  end.

(** ** cdp.go: decoding *)

Record checkboxResult := mkCheckbox { cb_Err : bytes; cb_X : spec_float; cb_Y : spec_float }.

Definition decode_float (old : spec_float) (j : json) : option spec_float :=
  match j with
  | JNum lit => if f64_finite (f64_of_lit lit) then Some (f64_of_lit lit) else None
  | JNull => Some old
  | _ => None
  end.
(** Into the four numbers of [Rect], of which only the type counts. *)
Definition decode_rect (j : json) : bool :=
  match j with
  | JArr l => forallb (fun j => bool_decide (is_Some (decode_float (S754_zero false) j))) (take 4 l)
  | JNull => true
  | _ => false
  end.
Definition decode_checkbox_member (c : checkboxResult) (kv : bytes * json) : option checkboxResult :=
  let '(mkCheckbox e x y) := c in
  let '(k, j) := kv in
  if EqualFold k "err" then v ← decode_string e j; Some (mkCheckbox v x y)
  else if EqualFold k "x" then v ← decode_float x j; Some (mkCheckbox e v y)
  else if EqualFold k "y" then v ← decode_float y j; Some (mkCheckbox e x v)
  else if EqualFold k "rect" then if decode_rect j then Some c else None
  else Some c.

(** A struct with one string, or with one struct that has one. *)
Definition decode_one (name : bytes) (old : bytes) (kv : bytes * json) : option bytes :=
  let '(k, j) := kv in if EqualFold k name then decode_string old j else Some old.
Definition decode_nested (outer name : bytes) (old : bytes) (kv : bytes * json) : option bytes :=
  let '(k, j) := kv in if EqualFold k outer then decode_object (decode_one name) old j else Some old.

(** The raw result of a call; [None]: the reply had none, which no decoder
    accepts. *)
Abbreviation raw := (option json).

(** The coordinates in the answer of a [Runtime.evaluate]. *)
Definition checkbox_at (r : raw) : option (spec_float * spec_float) :=
  j ← r;
  text ← decode_object (decode_nested "result" "value") [] j;
  if text =s? [] then None else
  j ← Json.parse text;
  cb ← decode_object decode_checkbox_member (mkCheckbox [] (S754_zero false) (S754_zero false)) j;
  if (cb_Err cb =s? []) && SFltb (S754_zero false) (cb_X cb) then Some (cb_X cb, cb_Y cb) else None.

(** The token in the answer of a [Network.getResponseBody]. *)
Definition decode_doc_member (d : bytes * bytes) (kv : bytes * json) : option (bytes * bytes) :=
  let '(status, token) := d in
  let '(k, j) := kv in
  if EqualFold k "status" then v ← decode_string status j; Some (v, token)
  else if EqualFold k "success_token" then v ← decode_string token j; Some (status, v)
  else Some d.
Definition decode_response_member (d : bytes * bytes) (kv : bytes * json) : option (bytes * bytes) :=
  let '(k, j) := kv in if EqualFold k "response" then decode_object decode_doc_member d j else Some d.
Definition token_of_body (r : raw) : option bytes :=
  j ← r;
  body ← decode_object (decode_one "body") [] j;
  j ← Json.parse body;
  '(_, token) ← decode_object decode_response_member ([], []) j;
  if token =s? [] then None else Some token.

(** A [Network.responseReceived] whose body is worth fetching: its request. *)
Definition decode_http_member (r : bytes * Z) (kv : bytes * json) : option (bytes * Z) :=
  let '(url, status) := r in
  let '(k, j) := kv in
  if EqualFold k "url" then v ← decode_string url j; Some (v, status)
  else if EqualFold k "status" then v ← decode_int status j; Some (url, v)
  else Some r.
Definition decode_received_member (p : bytes * (bytes * Z)) (kv : bytes * json) : option (bytes * (bytes * Z)) :=
  let '(id, r) := p in
  let '(k, j) := kv in
  if EqualFold k "requestId" then v ← decode_string id j; Some (v, r)
  else if EqualFold k "response" then v ← decode_object decode_http_member r j; Some (id, v)
  else Some p.
Definition response_request (params : raw) : option bytes :=
  j ← params;
  '(id, (url, status)) ← decode_object decode_received_member ([], ([], 0%Z)) j;
  if Contains url "captchaNotRobot.check" && (status =? 200)%Z then Some id else None.

(** ** cdp.go: the commands of a solve *)

Inductive arg := AStr (s : bytes) | AInt (n : Z) | ABool (b : bool) | AFloat (f : spec_float).
Abbreviation args := (list (bytes * arg)).

Inductive action :=
| OpenTab (root : bytes)
| DialTab (ws : bytes)
| Called (method : bytes) (params : args)
| CloseConn
| CloseTab (root id : bytes).

Record CDPSolver := mkSolver {
  ChromeURL : bytes; ViewportWidth : Z; ViewportHeight : Z; UserAgent : bytes }.

(** Chrome and the clock: what the request for a tab answers (status and
    body), the dial, the answer to a call given
    all that went before, the time at each turn of the wait for the checkbox,
    whether the context ends in it, and what the wait for the token yields. *)
Record chrome := mkChromeEnv {
  ch_open : result error (Z * bytes);
  ch_dial : option error;
  ch_call : list action -> bytes -> args -> result error raw;
  ch_now : nat -> Z;
  ch_done : nat -> option error;
  ch_token : result error bytes }.

Inductive solve_error :=
| NoRedirect | NoChromeURL | OpenTabFailed (e : error) | OpenTabStatus (status : Z) (body : bytes)
| OpenTabDecode | NoDebuggerURL | DialFailed (e : error)
| CallFailed (method : bytes) (e : error) | Refused (e : host_error)
| CheckboxTimeout | CheckboxCall (e : error) | CheckboxCtx (e : error)
| ClickFailed (e : error) | TokenFailed (e : error).

(** [openTab] and [closeTab]: the tab Chrome describes, the first JSON value of
    the body; a tab without a name cannot be closed. *)
Record cdpTabInfo := mkTab { ID : bytes; WebSocketDebuggerURL : bytes }.
Definition decode_tab_member (t : cdpTabInfo) (kv : bytes * json) : option cdpTabInfo :=
  let '(k, j) := kv in
  if EqualFold k "id" then v ← decode_string (ID t) j; Some (mkTab v (WebSocketDebuggerURL t))
  else if EqualFold k "webSocketDebuggerUrl" then v ← decode_string (WebSocketDebuggerURL t) j; Some (mkTab (ID t) v)
  else Some t.
Definition decode_tab (body : bytes) : option cdpTabInfo :=
  '(j, _) ← Json.value (2 * length body + 2) maxNestingDepth body; decode_object decode_tab_member (mkTab [] []) j.

Definition openTab (answer : result error (Z * bytes)) : result solve_error cdpTabInfo :=
  match answer with
  | Err e => Err (OpenTabFailed e)
  | Ok (status, body) =>
      guard (Z.quot status 100 =? 2)%Z else OpenTabStatus status (take 1024 body) in
      match decode_tab body with
      | None => Err OpenTabDecode
      | Some t => guard negb (WebSocketDebuggerURL t =s? []) else NoDebuggerURL in Ok t
      end
  end.
Definition closeTab (root id : bytes) : list action := if id =s? [] then [] else [CloseTab root id].

Section Solve.
Context (literal_ok : bytes -> bool) (c : chrome).

(** The commands so far, and the outcome. *)
Definition solve A := list action -> list action * result solve_error A.
Definition sret {A} (x : A) : solve A := fun tr => (tr, Ok x).
Definition sfail {A} (e : solve_error) : solve A := fun tr => (tr, Err e).
Definition sbind {A B} (m : solve A) (k : A -> solve B) : solve B :=
  fun tr => let '(tr, r) := m tr in match r with Ok x => k x tr | Err e => (tr, Err e) end.
Notation "x '<~' m ';;' k" := (sbind m (fun x => k)) (at level 100, m at next level, right associativity).

(** [call]; [wrap] is what its caller makes of a failure. *)
Definition call (wrap : error -> solve_error) (method : bytes) (params : args) : solve raw := fun tr =>
  (tr ++ [Called method params], rwrap wrap (ch_call c tr method params)).

(** [setup]. *)
Definition setup (s : CDPSolver) : solve unit :=
  _ <~ call (CallFailed "Network.enable") "Network.enable" [] ;;
  _ <~ call (CallFailed "Page.enable") "Page.enable" [] ;;
  _ <~ call (CallFailed "Runtime.enable") "Runtime.enable" [] ;;
  _ <~ (if negb (UserAgent s =s? []) then
          _ <~ call (CallFailed "Network.setUserAgentOverride") "Network.setUserAgentOverride"
                 [("userAgent"%go, AStr (UserAgent s))] ;; sret tt
        else sret tt) ;;
  _ <~ call (CallFailed "Emulation.setDeviceMetricsOverride") "Emulation.setDeviceMetricsOverride"
         [("width"%go, AInt (if (ViewportWidth s =? 0)%Z then 1280 else ViewportWidth s)%Z);
          ("height"%go, AInt (if (ViewportHeight s =? 0)%Z then 800 else ViewportHeight s)%Z);
          ("deviceScaleFactor"%go, AInt 1); ("mobile"%go, ABool false)] ;;
  sret tt.

(** [waitForCheckbox]; [None]: not over after [fuel] turns. The script it
    evaluates stands for itself. *)
Fixpoint checkbox_loop (fuel : nat) (script : bytes) (deadline : Z) (i : nat) (tr : list action)
    : option (list action * result solve_error (spec_float * spec_float)) :=
  match fuel with
  | O => None
  | S fuel =>
      if (deadline <? ch_now c i)%Z then Some (tr, Err CheckboxTimeout)
      else
        let '(tr, r) := call CheckboxCall "Runtime.evaluate"
                          [("expression"%go, AStr script); ("returnByValue"%go, ABool true)] tr in
        match r with
        | Err e => Some (tr, Err e)
        | Ok r =>
            match checkbox_at r with
            | Some xy => Some (tr, Ok xy)
            | None =>
                match ch_done c i with
                | Some e => Some (tr, Err (CheckboxCtx e))
                | None => checkbox_loop fuel script deadline (S i) tr
                end
            end
        end
  end.

Definition checkbox_timeout : Z := 20 * Second.
Definition checkbox_pause : Z := 500 * Millisecond.
Definition checkbox_turns : nat := 42.

(** The pause lasts what it says: turn [i] starts at [i] pauses at least. *)
Definition pausing : Prop := forall i, (ch_now c 0 + Z.of_nat i * checkbox_pause <= ch_now c i)%Z.

(** Out of fuel is a timeout: under [pausing] it does not happen, see
    [checkbox_enough]. *)
Definition waitForCheckbox (script : bytes) : solve (spec_float * spec_float) := fun tr =>
  default (tr, Err CheckboxTimeout) (checkbox_loop checkbox_turns script (ch_now c 0 + checkbox_timeout) 0 tr).

Definition f64 (n : Z) : spec_float := binary_normalize 53 1024 n 0 false.
Definition f64_sub (x y : spec_float) : spec_float := SFsub 53 1024 x y.

Definition mouse (typ : bytes) (x y : spec_float) (button : bytes) : args :=
  [("type"%go, AStr typ); ("x"%go, AFloat x); ("y"%go, AFloat y); ("button"%go, AStr button)].

Definition simulateHumanClick (x y : spec_float) : solve unit :=
  let event := call ClickFailed "Input.dispatchMouseEvent" in
  _ <~ event (mouse "mouseMoved" (f64_sub x (f64 50)) (f64_sub y (f64 30)) "none") ;;
  _ <~ event (mouse "mouseMoved" x y "none") ;;
  _ <~ event (mouse "mousePressed" x y "left" ++ [("clickCount"%go, AInt 1)]) ;;
  _ <~ event (mouse "mouseReleased" x y "left" ++ [("clickCount"%go, AInt 1)]) ;;
  sret tt.

(** From the session on. *)
Definition drive (script : bytes) (s : CDPSolver) (ch : CaptchaChallenge) : solve Solution :=
  _ <~ setup s ;;
  _ <~ (fun tr => (tr, rwrap Refused (assertVKHost literal_ok (RedirectURI ch)))) ;;
  _ <~ call (CallFailed "Page.navigate") "Page.navigate" [("url"%go, AStr (RedirectURI ch))] ;;
  xy <~ waitForCheckbox script ;;
  _ <~ simulateHumanClick (fst xy) (snd xy) ;;
  token <~ (fun tr => (tr, rwrap TokenFailed (ch_token c))) ;;
  sret (mkSolution [] token).

(** [Solve], its deferred closing of the connection and of the tab included. *)
Definition cdp_Solve (script : bytes) (s : CDPSolver) (ch : CaptchaChallenge) : list action * result solve_error Solution :=
  if RedirectURI ch =s? [] then ([], Err NoRedirect) else
  let root := TrimRight_slash (ChromeURL s) in
  if root =s? [] then ([], Err NoChromeURL) else
  match openTab (ch_open c) with
  | Err e => ([OpenTab root], Err e)
  | Ok tab =>
      let opened := [OpenTab root; DialTab (WebSocketDebuggerURL tab)] in
      match ch_dial c with
      | Some e => (opened ++ closeTab root (ID tab), Err (DialFailed e))
      | None =>
          let '(tr, r) := drive script s ch opened in
          (tr ++ [CloseConn] ++ closeTab root (ID tab), r)
      end
  end.
End Solve.

(** ** Lemmas: the chain *)

Lemma chain_loop_spec {A} ctx solvers : forall i failures tr (r : result chain_error A),
  chain_loop ctx i solvers failures = (tr, r) ->
  match r with
  | Ok sol => exists n, (n < length solvers)%nat /\ solvers !! n = Some (Ok sol) /\
      (forall j, (j < n)%nat -> exists e, solvers !! j = Some (Err e)) /\
      (forall k, OnAttempt k ∈ tr <-> (i <= k <= i + n)%nat)
  | Err e => exists n, (n <= length solvers)%nat /\
      (forall j, (j < n)%nat -> exists e, solvers !! j = Some (Err e)) /\
      (forall k, OnAttempt k ∈ tr <-> (i <= k < i + n)%nat) /\
      (n = length solvers \/ exists e, ctx (i + n)%nat = Some e)
  end.
Proof.
  induction solvers as [|s solvers IH]; intros i failures tr r H; cbn [chain_loop] in H.
  - injection H as <- <-. exists 0%nat. split_and!; [lia|lia| |by left]. intros k. rewrite elem_of_nil. lia.
  - destruct (ctx i) as [e|] eqn:Ec.
    { injection H as <- <-. exists 0%nat. split_and!; [lia|lia| |right; exists e; by rewrite Nat.add_0_r].
      intros k. rewrite elem_of_nil. lia. }
    destruct s as [sol|e].
    { injection H as <- <-. exists 0%nat. cbn [length]. split_and!; [lia|done|lia|].
      intros k. rewrite list_elem_of_singleton. split; [intros [= ->]; lia|intros ?; f_equal; lia]. }
    destruct (chain_loop ctx (S i) solvers _) as [tr' r'] eqn:E. injection H as <- <-. apply IH in E.
    assert (forall n, (forall j, (j < n)%nat -> exists e, solvers !! j = Some (Err e)) ->
      forall j, (j < S n)%nat -> exists e', (Err e :: solvers) !! j = Some (Err e')) as Hj.
    { intros n Hn [|j] Hlt; [by exists e|]. apply Hn. lia. }
    destruct r' as [sol|e'].
    + destruct E as (n & H1 & H2 & H3 & H4). exists (S n). cbn [length]. split_and!; [lia|done|by apply Hj|].
      intros k. rewrite !elem_of_cons, H4. split; [intros [[= ->]|[?|?]]; [lia|done|lia]|].
      intros Hk. destruct (decide (k = i)) as [->|]; [by left|right; right; lia].
    + destruct E as (n & H1 & H2 & H3 & H4). exists (S n). cbn [length]. split_and!; [lia|by apply Hj| |].
      * intros k. rewrite !elem_of_cons, H3. split; [intros [[= ->]|[?|?]]; [lia|done|lia]|].
        intros Hk. destruct (decide (k = i)) as [->|]; [by left|right; right; lia].
      * destruct H4 as [->|H4]; [by left|right]. by replace (i + S n)%nat with (S i + n)%nat by lia.
Qed.

(** A context that ends after a failure is reported among the failures, not
    alone as the comment of the type has it. *)
Example chain_ctx_joined :
  snd (chain_Solve (A := bytes) (fun i => if (i =? 0)%nat then None else Some (mkError "context canceled" [Canceled]))
         [Err (errors_New "no"); Ok []]) =
  Err (Joined [errors_New "solver[0]: no"; mkError "context canceled" [Canceled]]).
Proof. reflexivity. Qed.

(** ** Lemmas: the allowlist *)

Lemma seqb_nonempty (h : bytes) : is_vk_host (ToLower h) = true -> h <> [].
Proof. by intros H ->. Qed.

(** ** What VK's pages are

    A host below VK's two domains, and an https URL of one: an optional user,
    a host that names one once its escapes are undone, and an optional port,
    before a path, a query or a fragment; or an address in brackets that the
    library lets pass. *)
Definition vk_name (h : bytes) : Prop :=
  exists d, (d = "vk.ru"%go \/ d = "vk.com"%go) /\ (h = d \/ exists sub, h = sub ++ "." ++ d).
Definition vk_page (literal_ok : bytes -> bool) (text : bytes) : Prop :=
  exists sch user hp tail,
    text = sch ++ "://" ++ user ++ hp ++ tail /\ ToLower sch = "https"%go /\ tail_ok tail /\
    (user = [] \/ exists u, user = u ++ "@" /\ forallb userinfo_char u = true) /\
    ((exists lit port, hp = "[" ++ lit ++ "]" ++ port /\ literal_ok lit = true /\ validOptionalPort port = true) \/
     (exists h port name, hp = h ++ port /\ validOptionalPort port = true /\ forallb host_text h = true /\
       unescape encodeHost h = Some name /\ vk_name (ToLower name))).

Lemma HasSuffix_true s p : HasSuffix s p = true -> exists t, s = t ++ p.
Proof.
  unfold HasSuffix. intros [t E]%HasPrefix_true. exists (rev t).
  by rewrite <-(rev_involutive s), E, rev_app_distr, rev_involutive.
Qed.

Lemma is_vk_host_name h : is_vk_host h = true -> vk_name h.
Proof.
  unfold is_vk_host. rewrite !orb_true_iff. intros [[[H|H]|H]|H].
  - apply seqb_eq in H as ->. exists "vk.ru"%go. auto.
  - apply seqb_eq in H as ->. exists "vk.com"%go. auto.
  - apply HasSuffix_true in H as [t ->]. exists "vk.ru"%go. split; [by left|right]. by exists t.
  - apply HasSuffix_true in H as [t ->]. exists "vk.com"%go. split; [by right|right]. by exists t.
Qed.

Lemma parseHost_literal literal_ok hp host : HasPrefix hp "[" = true -> parseHost literal_ok hp = Some host ->
  exists lit port, hp = "[" ++ lit ++ "]" ++ port /\ literal_ok lit = true /\ validOptionalPort port = true.
Proof.
  intros Hb H. unfold parseHost in H. rewrite Hb in H.
  destruct (cut_last "]" hp) as [[inside rest]|] eqn:Ec; [|done]. cbn [mbind option_bind] in H.
  apply cut_last_some in Ec as (port & -> & -> & _).
  destruct (validOptionalPort (drop 1 _) && literal_ok (drop 1 inside)) eqn:E; [|done].
  apply andb_true_iff in E as [E1 E2]. apply HasPrefix_head_iff in Hb as [t Et].
  destruct inside as [|x lit]; [by injection Et|]. injection Et as -> _.
  exists lit, port. split_and!; [done|exact E2|exact E1].
Qed.

Lemma assertVKHost_page literal_ok text : assertVKHost literal_ok text = Ok tt -> vk_page literal_ok text.
Proof.
  unfold assertVKHost. destruct (url_Parse literal_ok text) as [[scheme host]|] eqn:E; [|done].
  destruct (seqb_spec scheme "https") as [->|]; [|done]. destruct (is_vk_host _) eqn:Ev; [|done]. intros _.
  apply url_Parse_shape in E as (sch & user & hp & tail & H1 & H2 & H3 & H4 & H5); [|done|].
  2:{ intros ->. by vm_compute in Ev. }
  exists sch, user, hp, tail. split_and!; try done. destruct (HasPrefix hp "[") eqn:Eb.
  - left. by eapply parseHost_literal.
  - right. apply parseHost_shape in H5 as (h & port & -> & Hp & Hu); [|done].
    exists h, port, (Hostname host). split_and!; try done; [by eapply unescape_text|by apply is_vk_host_name].
Qed.

(** A zone after an IPv6 address counts as the end of the host name. *)
Example zone_passes : assertVKHost (fun _ => true) "https://[::1%25.vk.ru]/" = Ok tt.
Proof. vm_compute. reflexivity. Qed.

(** ** Lemmas: the commands *)

Section Commands.
Context (literal_ok : bytes -> bool) (c : chrome) (s : CDPSolver) (ch : CaptchaChallenge).

(** Calls only, and to navigate only to the challenge's page, once allowed. *)
Definition allowed (a : action) : Prop :=
  match a with
  | Called m params => m = "Page.navigate"%go ->
      params = [("url"%go, AStr (RedirectURI ch))] /\ assertVKHost literal_ok (RedirectURI ch) = Ok tt
  | _ => False
  end.
Definition sends {A} (m : solve A) : Prop := forall tr, exists l, fst (m tr) = tr ++ l /\ Forall allowed l.

Lemma sends_nil {A} (m : solve A) : (forall tr, fst (m tr) = tr) -> sends m.
Proof. intros H tr. exists []. rewrite app_nil_r. by split. Qed.

Lemma sends_bind {A B} (m : solve A) (k : A -> solve B) : sends m -> (forall x, sends (k x)) -> sends (sbind m k).
Proof.
  intros Hm Hk tr. unfold sbind. destruct (Hm tr) as (l & H1 & H2). destruct (m tr) as [tr1 [x|e]]; cbn [fst] in H1; subst.
  - destruct (Hk x (tr ++ l)) as (l' & -> & H3). exists (l ++ l'). rewrite app_assoc. split; [done|]. by apply Forall_app.
  - by exists l.
Qed.

Lemma sends_call wrap m params : m <> "Page.navigate"%go -> sends (call c wrap m params).
Proof. intros Hm tr. exists [Called m params]. split; [done|]. constructor; [|constructor]. by intros ->. Qed.

Lemma sends_setup : sends (setup c s).
Proof.
  unfold setup. repeat (apply sends_bind; [|intros ?]); try (by apply sends_call); try by apply sends_nil.
  case_bools; [|by apply sends_nil]. apply sends_bind; [by apply sends_call|intros ?; by apply sends_nil].
Qed.

Lemma sends_checkbox script fuel : forall deadline i tr tr' r,
  checkbox_loop c fuel script deadline i tr = Some (tr', r) -> exists l, tr' = tr ++ l /\ Forall allowed l.
Proof.
  induction fuel as [|fuel IH]; intros deadline i tr tr' r H; cbn [checkbox_loop] in H; [done|].
  destruct (deadline <? _)%Z; [injection H as <- <-; exists []; by rewrite app_nil_r|].
  destruct (sends_call CheckboxCall "Runtime.evaluate"
    [("expression"%go, AStr script); ("returnByValue"%go, ABool true)] ltac:(done) tr) as (l & Hl & Ha).
  destruct (call _ _ _ _ tr) as [tr1 [x|e]]; cbn [fst] in Hl; subst; [|injection H as <- <-; by exists l].
  destruct (checkbox_at x); [injection H as <- <-; by exists l|].
  destruct (ch_done c i); [injection H as <- <-; by exists l|].
  apply IH in H as (l' & -> & Ha'). exists (l ++ l'). rewrite app_assoc. split; [done|]. by apply Forall_app.
Qed.

Lemma sends_drive script : sends (drive literal_ok c script s ch).
Proof.
  unfold drive. apply sends_bind; [apply sends_setup|intros _].
  intros tr. unfold sbind at 1. destruct (assertVKHost literal_ok (RedirectURI ch)) as [[]|e] eqn:Ev; cbn [rwrap].
  2:{ exists []. by rewrite app_nil_r. }
  revert tr. change (sends (sbind (call c (CallFailed "Page.navigate") "Page.navigate" [("url"%go, AStr (RedirectURI ch))])
    (fun _ => sbind (waitForCheckbox c script) (fun xy => sbind (simulateHumanClick c (fst xy) (snd xy)) (fun _ =>
      sbind (fun tr => (tr, rwrap TokenFailed (ch_token c))) (fun token => sret (mkSolution [] token))))))).
  apply sends_bind; [|intros _; apply sends_bind; [|intros xy; apply sends_bind; [|intros _; apply sends_bind; [by apply sends_nil|intros ?; by apply sends_nil]]]].
  - intros tr. eexists [_]. split; [done|]. constructor; [|constructor]. by intros _.
  - intros tr. unfold waitForCheckbox. destruct (checkbox_loop _ _ _ _ _ _) as [[tr' r]|] eqn:E; cbn [default id fst].
    + by eapply sends_checkbox.
    + exists []. by rewrite app_nil_r.
  - unfold simulateHumanClick. repeat (apply sends_bind; [by apply sends_call|intros _]). by apply sends_nil.
Qed.

Lemma sbind_ok {A B} (m : solve A) (k : A -> solve B) tr tr' y : sbind m k tr = (tr', Ok y) ->
  exists tr1 x, m tr = (tr1, Ok x) /\ k x tr1 = (tr', Ok y).
Proof. unfold sbind. destruct (m tr) as [tr1 [x|e]]; [|done]. by exists tr1, x. Qed.

Lemma drive_token script tr tr' sol : drive literal_ok c script s ch tr = (tr', Ok sol) ->
  ch_token c = Ok (SuccessToken sol) /\ Key sol = [].
Proof.
  unfold drive. intros H. do 5 (apply sbind_ok in H as (? & ? & _ & H)).
  apply sbind_ok in H as (? & token & E & H). cbn in H. injection H as _ <-.
  destruct (ch_token c); [|done]. by injection E as _ ->.
Qed.
End Commands.

(** The turns of the wait for the checkbox are enough. *)
Lemma checkbox_ends c script fuel deadline : forall i tr,
  (deadline < ch_now c (i + fuel)%nat)%Z -> is_Some (checkbox_loop c (S fuel) script deadline i tr).
Proof.
  induction fuel as [|fuel IH]; intros i tr H; cbn [checkbox_loop].
  - rewrite Nat.add_0_r in H. by rewrite (proj2 (Z.ltb_lt _ _) H).
  - destruct (_ <? _)%Z; [done|]. destruct (call _ _ _ _ tr) as [tr1 [x|e]]; [|done].
    destruct (checkbox_at x); [done|]. destruct (ch_done c i); [done|]. apply (IH (S i)). by rewrite Nat.add_succ_comm.
Qed.

Lemma checkbox_enough c script tr : pausing c ->
  is_Some (checkbox_loop c checkbox_turns script (ch_now c 0 + checkbox_timeout) 0 tr).
Proof.
  intros Hp. apply checkbox_ends. specialize (Hp 41%nat). unfold checkbox_timeout, checkbox_pause, Second, Millisecond in *.
  cbn [Nat.add]. lia.
Qed.

(** What a solve did: nothing; a request for a tab that failed; or all of it
    between the tab's opening and its closing. *)
Lemma cdp_Solve_trace literal_ok c script s ch tr r :
  cdp_Solve literal_ok c script s ch = (tr, r) ->
  (tr = [] \/ (exists root e, tr = [OpenTab root] /\ openTab (ch_open c) = Err e) \/
   exists root id ws l e, openTab (ch_open c) = Ok (mkTab id ws) /\ Forall (allowed literal_ok ch) l /\
     (forall a, a ∈ e -> a = CloseConn) /\ tr = [OpenTab root; DialTab ws] ++ l ++ e ++ closeTab root id) /\
  (forall sol, r = Ok sol -> ch_token c = Ok (SuccessToken sol) /\ Key sol = []).
Proof.
  intros H. unfold cdp_Solve in H.
  destruct (RedirectURI ch =s? []); [injection H as <- <-; split; [by left|done]|].
  set (root := TrimRight_slash (ChromeURL s)) in *.
  destruct (root =s? []); [injection H as <- <-; split; [by left|done]|].
  destruct (openTab (ch_open c)) as [[id ws]|e] eqn:Eo;
    [|injection H as <- <-; split; [right; left; by eexists _, _|done]].
  cbn [ID WebSocketDebuggerURL] in H. destruct (ch_dial c).
  { injection H as <- <-. split; [|done]. right; right. exists root, id, ws, [], []. split_and!; [done|constructor|set_solver|done]. }
  destruct (drive literal_ok c script s ch _) as [tr1 r1] eqn:Ed. injection H as <- <-.
  destruct (sends_drive literal_ok c s ch script [OpenTab root; DialTab ws]) as (l & Hl & Ha).
  rewrite Ed in Hl. cbn [fst] in Hl. subst tr1. split; [|intros sol ->; by eapply drive_token].
  right; right. exists root, id, ws, l, [CloseConn]. split_and!; [done|done|set_solver|by rewrite <-!app_assoc].
Qed.

(** ** The solver keeps Chrome on VK *)

(** What a solve may make Chrome do: navigate nowhere but to the challenge's
    page, a page of VK; and close the tab it opened, once and last. *)
Record harmless (literal_ok : bytes -> bool) (c : chrome) (ch : CaptchaChallenge) (acts : list action) : Prop := {
  hl_navigate : forall params, Called "Page.navigate" params ∈ acts ->
    params = [("url"%go, AStr (RedirectURI ch))] /\ vk_page literal_ok (RedirectURI ch);
  hl_close_last : forall root id, CloseTab root id ∈ acts ->
    exists before, acts = before ++ [CloseTab root id] /\ CloseTab root id ∉ before;
  hl_closed : forall root tab, OpenTab root ∈ acts -> openTab (ch_open c) = Ok tab -> ID tab <> [] ->
    CloseTab root (ID tab) ∈ acts }.

Lemma solve_harmless literal_ok c script s ch tr r :
  cdp_Solve literal_ok c script s ch = (tr, r) ->
  harmless literal_ok c ch tr /\ (forall sol, r = Ok sol -> ch_token c = Ok (SuccessToken sol) /\ Key sol = []).
Proof.
  intros [[->|[(root & e & -> & He)|(root & id & ws & l & e & Ho & Hl & He' & ->)]] Hsol]%cdp_Solve_trace;
    (split; [|done]).
  { split; set_solver. }
  { split; [set_solver|set_solver|intros r0 tab _ Ho; congruence]. }
  unfold closeTab in *. rewrite Forall_forall in Hl. split.
  - intros params Hin. rewrite !elem_of_app in Hin. destruct Hin as [Hin|[Hin|[Hin|Hin]]]; [set_solver| |by apply He' in Hin|].
    + apply Hl in Hin. destruct (Hin eq_refl) as [-> Hv]. split; [done|]. by apply assertVKHost_page.
    + destruct (id =s? []); set_solver.
  - intros r0 i Hin. rewrite !elem_of_app in Hin. destruct Hin as [Hin|[Hin|[Hin|Hin]]]; [set_solver|by apply Hl in Hin|by apply He' in Hin|].
    destruct (id =s? []) eqn:Ei; [set_solver|]. apply list_elem_of_singleton in Hin as [= -> ->].
    exists ([OpenTab root; DialTab ws] ++ l ++ e). rewrite <-!app_assoc. split; [done|].
    rewrite !not_elem_of_app. split_and!; [set_solver|intros Hin; by apply Hl in Hin|intros Hin; by apply He' in Hin].
  - intros r0 tab Hin Ht Hid. rewrite Ho in Ht. injection Ht as <-. cbn [ID] in *. rewrite (proj2 (seqb_neq id []) Hid) in *. rewrite !elem_of_app in Hin.
    rewrite !elem_of_app. destruct Hin as [Hin|[Hin|[Hin|Hin]]]; [|by apply Hl in Hin|by apply He' in Hin|set_solver].
    assert (r0 = root) as -> by set_solver. right; right; right. by apply list_elem_of_singleton.
Qed.

Definition sample_chrome : chrome :=
  mkChromeEnv (Ok (200%Z, js "{'id': 'T1', 'type': 'page', 'webSocketDebuggerUrl': 'ws://127.0.0.1:9222/devtools/page/T1'}")) None
    (fun _ m _ => Ok (Some (if m =s? "Runtime.evaluate"
      then JObj [("result"%go, JObj [("value"%go, JStr (js "{'x':114,'y':50.5,'rect':[100,40,30,21]}"))])] else JObj [])))
    (fun i => Z.of_nat i * checkbox_pause)%Z (fun _ => None) (Ok "token-1"%go).
Definition sample_challenge : CaptchaChallenge :=
  mkChallenge "s1" [] "https://id.vk.ru/not_robot_captcha?session_token=x" 1 [].

Example sample_solve :
  exists tr sol, cdp_Solve (fun _ => true) sample_chrome "script" (mkSolver "http://127.0.0.1:9222/" 0 0 []) sample_challenge = (tr, Ok sol) /\
    length tr = 14%nat /\ SuccessToken sol = "token-1"%go.
Proof. eexists _, _. split; [vm_compute; reflexivity|]. split; vm_compute; reflexivity. Qed.

(** Chrome opened a tab and did not say where: the solver gives up without
    closing it. *)
Lemma tab_without_socket_leaks :
  let c := mkChromeEnv (Ok (200%Z, js "{'id': 'T1'}")) None (fun _ _ _ => Err (errors_New "x")) (fun _ => 0%Z) (fun _ => None) (Ok []) in
  cdp_Solve (fun _ => true) c "script" (mkSolver "http://127.0.0.1:9222" 0 0 []) sample_challenge =
    ([OpenTab "http://127.0.0.1:9222"], Err NoDebuggerURL).
Proof. vm_compute. reflexivity. Qed.
