(* ===== verification/VkCdp.v ===== *)
(** * provider/vk with captchasolve: a fetch that solves its captchas in Chrome

    The provider of Vk with the solver of Cdp in its place (provider.go,
    api.go, captcha.go, cdp.go): what a fetch makes Chrome do, and what of it
    goes back to VK. *)

From S2P Require Import Prelude GoStrings GoErrors Json Vk Url Cdp.

(** ** The solver as the provider sees it *)

Section Solver.
(** [strconv.Quote], and the errors of encoding/json and net/url, whose texts
    are theirs. *)
Context (Quote : bytes -> bytes) (json_err url_err : error).

(** The texts of [assertVKHost]. *)
Definition host_text (e : host_error) : error :=
  match e with
  | BadURL => Errorf_w "parse redirect_uri: " url_err
  | BadScheme scheme => errors_New ("redirect_uri scheme " ++ Quote scheme ++ " is not https")
  | NotVK host => errors_New ("redirect_uri host " ++ Quote host ++ " not in VK allowlist")
  end.

(** The error [Solve] returns, from the place it fails at. *)
Definition cdp_error (e : solve_error) : error :=
  match e with
  | NoRedirect => errors_New "captchasolve cdp: challenge has no redirect_uri (slider mode required)"
  | NoChromeURL => errors_New "captchasolve cdp: ChromeURL is required"
  | OpenTabFailed e => Errorf_w "cdp open tab: " e
  | OpenTabStatus status body => Errorf_w "cdp open tab: " (errors_New ("status " ++ itoa status ++ ": " ++ body))
  | OpenTabDecode => Errorf_w "cdp open tab: " json_err
  | NoDebuggerURL => Errorf_w "cdp open tab: " (errors_New "cdp: response missing webSocketDebuggerUrl")
  | DialFailed e => Errorf_w "cdp ws dial: " e
  | CallFailed method e => Errorf_w (method ++ ": ") e
  | Refused e => Errorf_w "refusing to navigate Chrome: " (host_text e)
  | CheckboxTimeout => Errorf_w "wait for checkbox: " (errors_New "timeout waiting for checkbox to render")
  | CheckboxCall e | CheckboxCtx e => Errorf_w "wait for checkbox: " e
  | ClickFailed e => Errorf_w "click: " e
  | TokenFailed e => e
  end.

Context (literal_ok : bytes -> bool) (script : bytes) (s : CDPSolver).
(** Chrome as the [k]-th solve of the fetch finds it. *)
Context (chromes : nat -> chrome).

Definition cdp_solver (tr : list event) (ch : CaptchaChallenge) : result error Solution :=
  rwrap cdp_error (snd (cdp_Solve literal_ok (chromes (n_solved tr)) script s ch)).

(** The provider with it; no field of the surroundings but the solver changes. *)
Definition with_chrome (E : env) : env :=
  mkEnv (e_http E) (Some cdp_solver) (e_guest E) (e_device E) (e_appID E) (e_secret E) (e_hosts E).

(** What the fetch's solves made Chrome do, one list for each. *)
Fixpoint chrome_log (k : nat) (tr : list event) : list (CaptchaChallenge * list action) :=
  match tr with
  | [] => []
  | Posted _ _ :: tr => chrome_log k tr
  | Solved ch :: tr => (ch, fst (cdp_Solve literal_ok (chromes k) script s ch)) :: chrome_log (S k) tr
  end.
End Solver.

(** ** The exchange of step 3 *)

(** Each challenge that was solved is followed by the request that answers it. *)
Lemma exchange_linked E url solve : e_solve E = Some solve -> forall pre f l resp, exchange E url pre f l resp ->
  forall tail a ch b, (forall c, Solved c ∉ tail) -> l ++ tail = a ++ Solved ch :: b ->
  exists f1 f2 sol b', b = Posted url f2 :: b' /\ solve (pre ++ a) ch = Ok sol /\ answers f1 ch sol f2.
Proof.
  intros Hso pre f l resp Hx. induction Hx as [pre f resp Hr|pre f ch0 solve0 sol f' l resp Hc Hs0 Hs Ha Hx IH];
    intros tail a ch b Ht E0.
  - destruct a as [|x a]; [done|]. injection E0 as <- E0. exfalso. apply (Ht ch). rewrite E0. set_solver.
  - assert (solve0 = solve) as -> by congruence. destruct a as [|x [|y a]]; [done| |].
    + injection E0 as <- <- E0. exists f, f', sol.
      assert (exists b', b = Posted url f' :: b') as [b' ->] by (rewrite <-E0; inversion Hx; subst; by eexists).
      by exists b'.
    + injection E0 as <- <- E0. destruct (IH tail a ch b Ht E0) as (f1 & f2 & sol2 & b' & H1 & H2 & H3).
      exists f1, f2, sol2, b'. rewrite <-app_assoc in H2. by split_and!.
Qed.

(** ** What Chrome does in a fetch *)

Lemma chrome_log_lookup literal_ok script s chromes tr : forall k i ch acts,
  chrome_log literal_ok script s chromes k tr !! i = Some (ch, acts) ->
  acts = fst (cdp_Solve literal_ok (chromes (k + i)%nat) script s ch).
Proof.
  induction tr as [|[u f|ch0] tr IH]; intros k i ch acts H; cbn [chrome_log] in H; [done|by apply IH|].
  destruct i as [|i]; [injection H as <- <-; by rewrite Nat.add_0_r|].
  apply IH in H as ->. by rewrite Nat.add_succ_comm.
Qed.

Lemma chrome_log_length literal_ok script s chromes tr : forall k,
  length (chrome_log literal_ok script s chromes k tr) = n_solved tr.
Proof.
  induction tr as [|[u f|ch0] tr IH]; intros k; [done| |]; cbn [chrome_log].
  - rewrite IH. done.
  - cbn [length]. rewrite IH. done.
Qed.

(** ** Theorem *)


(** A service that asks for one captcha in slider mode, and two Chromes. *)
Definition slider_body : http_outcome := ok_body
  "{'error':{'error_code':14,'error_msg':'Captcha needed','captcha_sid':'77','redirect_uri':'https://id.vk.ru/not_robot_captcha?session_token=x','captcha_ts':1.5,'captcha_attempt':2}}".
Definition slider_http (tr : list event) (u : bytes) (f : form) : http_outcome :=
  match length tr with 2%nat => slider_body | _ => ask_http 1 tr u f end.

