(* ===== verification/CdpSession.v ===== *)
(** * provider/vk/captchasolve: the DevTools session (cdp.go)

    Commands and replies over one WebSocket, as a state machine: the callers,
    the read loop and the goroutines it starts take turns at the points where
    the code locks, sends or receives.  A step that would block is none; one
    that would panic leads nowhere. *)

From S2P Require Import Prelude GoStrings Json Vk Cdp.

(** ** Frames *)

(** What [readLoop] decodes; [en_error] is the pointer. *)
Record envelope := mkEnvelope {
  en_ID : Z; en_Result : raw; en_Error : option (Z * bytes); en_Method : bytes; en_Params : raw }.
Definition no_envelope : envelope := mkEnvelope 0 None None [] None.

Definition decode_error_member (e : Z * bytes) (kv : bytes * json) : option (Z * bytes) :=
  let '(code, msg) := e in
  let '(k, j) := kv in
  if EqualFold k "code" then v ← decode_int code j; Some (v, msg)
  else if EqualFold k "message" then v ← decode_string msg j; Some (code, v)
  else Some e.

Definition decode_envelope_member (e : envelope) (kv : bytes * json) : option envelope :=
  let '(mkEnvelope id res err m p) := e in
  let '(k, j) := kv in
  if EqualFold k "id" then v ← decode_int id j; Some (mkEnvelope v res err m p)
  else if EqualFold k "result" then Some (mkEnvelope id (Some j) err m p)
  else if EqualFold k "error" then
    match j with
    | JNull => Some (mkEnvelope id res None m p)
    | _ => v ← decode_object decode_error_member (default (0%Z, []) err) j; Some (mkEnvelope id res (Some v) m p)
    end
  else if EqualFold k "method" then v ← decode_string m j; Some (mkEnvelope id res err v p)
  else if EqualFold k "params" then Some (mkEnvelope id res err m (Some j))
  else Some e.

Definition read_envelope (text : bytes) : option envelope :=
  j ← Json.parse text; decode_object decode_envelope_member no_envelope j.

(** What goes into the channel of a reply's call: an error becomes an object
    of its own. *)
Definition cdp_error_reply (code : Z) (msg : bytes) : raw :=
  Some (JObj [("_cdp_code"%go, JNum (itoa code)); ("_cdp_error"%go, JStr msg)]).
Definition reply_of (e : envelope) : raw :=
  match en_Error e with Some (code, msg) => cdp_error_reply code msg | None => en_Result e end.
(** What [failPending] sends. *)
Definition failure_reply (err : bytes) : raw := Some (JObj [("_cdp_error"%go, JStr err)]).

(** The probe of [call]: the error in a reply, if it is one. *)
Definition decode_probe_member (e : bytes * Z) (kv : bytes * json) : option (bytes * Z) :=
  let '(msg, code) := e in
  let '(k, j) := kv in
  if EqualFold k "_cdp_error" then v ← decode_string msg j; Some (v, code)
  else if EqualFold k "_cdp_code" then v ← decode_int code j; Some (msg, v)
  else Some e.
Definition probe (r : raw) : option (bytes * Z) :=
  j ← r; '(msg, code) ← decode_object decode_probe_member ([], 0%Z) j;
  if msg =s? [] then None else Some (msg, code).

(** ** The session *)

Inductive answer := Replied (r : raw) | CDPError (msg : bytes) (code : Z) | WriteFailed | CtxEnded.

Inductive call_state := Numbered | Registered | Waiting | Done (a : answer).

(** Who calls: the solver, or a goroutine fetching the body of a request. *)
Inductive caller := Solver (method : bytes) | BodyOf (requestID : bytes).

(** A reply channel of capacity one. *)
Record channel := mkChannel { buffer : option raw; is_closed : bool }.

(** The read loop: in [Read]; holding a reply it took the channel for; about
    to run [failPending]; returned. *)
Inductive loop := Reading | Sending (id : Z) (r : raw) | Failing (err : bytes) | Ended.

Record cdpSession := mkSession {
  nextID : Z;
  pending : gset Z;
  channels : gmap Z channel;
  tokenCh : option bytes;
  calls : gmap Z (caller * call_state);
  read_loop : loop;
  fetches : list bytes }.               (* goroutines before their call *)

Definition newCDPSession : cdpSession := mkSession 0 ∅ ∅ None ∅ Reading [].

Definition set_call (id : Z) (who : caller) (st : call_state) (s : cdpSession) : cdpSession :=
  mkSession (nextID s) (pending s) (channels s) (tokenCh s) (<[id := (who, st)]> (calls s)) (read_loop s) (fetches s).
Definition set_pending p (s : cdpSession) : cdpSession :=
  mkSession (nextID s) p (channels s) (tokenCh s) (calls s) (read_loop s) (fetches s).
Definition set_channels c (s : cdpSession) : cdpSession :=
  mkSession (nextID s) (pending s) c (tokenCh s) (calls s) (read_loop s) (fetches s).
Definition set_loop l (s : cdpSession) : cdpSession :=
  mkSession (nextID s) (pending s) (channels s) (tokenCh s) (calls s) l (fetches s).
Definition set_token t (s : cdpSession) : cdpSession :=
  mkSession (nextID s) (pending s) (channels s) t (calls s) (read_loop s) (fetches s).
Definition set_fetches f (s : cdpSession) : cdpSession :=
  mkSession (nextID s) (pending s) (channels s) (tokenCh s) (calls s) (read_loop s) f.

Definition forget (id : Z) (s : cdpSession) : cdpSession :=
  mkSession (nextID s) (pending s) (channels s) (tokenCh s) (delete id (calls s)) (read_loop s) (fetches s).

(** A send: it blocks when the buffer is full and panics on a closed channel;
    neither is a step. *)
Definition send (id : Z) (r : raw) (cs : gmap Z channel) : option (gmap Z channel) :=
  ch ← cs !! id;
  match ch with
  | mkChannel None false => Some (<[id := mkChannel (Some r) false]> cs)
  | _ => None
  end.

(** [failPending]'s loop, the lock held: send, close, delete. *)
Fixpoint fail_all (r : raw) (ids : list Z) (cs : gmap Z channel) : option (gmap Z channel) :=
  match ids with
  | [] => Some cs
  | id :: ids =>
      cs ← send id r cs;
      fail_all r ids (alter (fun ch => mkChannel (buffer ch) true) id cs)
  end.

Inductive label :=
| LNumber (who : caller)                (* nextID.Add *)
| LRegister (id : Z)                    (* pending[id] = ch *)
| LWrite (id : Z) (written : bool)
| LReceive (id : Z)
| LCtx (id : Z)
| LFrame (text : bytes)                 (* readLoop: a frame was read *)
| LReadError (err : bytes)
| LSend                                 (* readLoop: ch <- *)
| LFail                                 (* readLoop: failPending *)
| LDeliver (id : Z)                     (* a fetch has its body *)
| LToken.                               (* awaitSuccessToken *)

(** [call], step by step. *)
Definition number (who : caller) (s : cdpSession) : cdpSession :=
  let id := (nextID s + 1)%Z in
  mkSession id (pending s) (channels s) (tokenCh s) (<[id := (who, Numbered)]> (calls s)) (read_loop s) (fetches s).

Definition call_step (l : label) (s : cdpSession) : option cdpSession :=
  match l with
  | LNumber (Solver m) => Some (number (Solver m) s)
  | LNumber (BodyOf rid) =>
      i ← list_find (fun x => x = rid) (fetches s);
      Some (number (BodyOf rid) (set_fetches (delete (fst i) (fetches s)) s))
  | LRegister id =>
      c ← calls s !! id;
      match c with
      | (who, Numbered) =>
          Some (set_call id who Registered (set_pending ({[id]} ∪ pending s)
                  (set_channels (<[id := mkChannel None false]> (channels s)) s)))
      | _ => None
      end
  | LWrite id written =>
      c ← calls s !! id;
      match c with
      | (who, Registered) =>
          Some (if written : bool then set_call id who Waiting s
                else set_call id who (Done WriteFailed) (set_pending (pending s ∖ {[id]}) s))
      | _ => None
      end
  | LReceive id =>
      c ← calls s !! id; ch ← channels s !! id;
      match c, ch with
      | (who, Waiting), mkChannel (Some r) closed =>
          let a := match probe r with Some (msg, code) => CDPError msg code | None => Replied r end in
          Some (set_call id who (Done a) (set_channels (<[id := mkChannel None closed]> (channels s)) s))
      | (who, Waiting), mkChannel None true =>     (* a closed channel yields nil *)
          Some (set_call id who (Done (Replied None)) s)
      | _, _ => None
      end
  | LCtx id =>
      c ← calls s !! id;
      match c with (who, Waiting) => Some (set_call id who (Done CtxEnded) s) | _ => None end
  | _ => None
  end.

(** [readLoop]. *)
Definition loop_step (l : label) (s : cdpSession) : option cdpSession :=
  match l, read_loop s with
  | LFrame text, Reading =>
      match read_envelope text with
      | None => Some s
      | Some e =>
          if negb (en_ID e =? 0)%Z then
            if bool_decide (en_ID e ∈ pending s)
            then Some (set_loop (Sending (en_ID e) (reply_of e)) (set_pending (pending s ∖ {[en_ID e]}) s))
            else Some s
          else if en_Method e =s? "Network.responseReceived" then
            match response_request (en_Params e) with
            | Some rid => Some (set_fetches (fetches s ++ [rid]) s)
            | None => Some s
            end
          else Some s
      end
  | LReadError err, Reading => Some (set_loop (Failing err) s)
  | LSend, Sending id r => cs ← send id r (channels s); Some (set_loop Reading (set_channels cs s))
  | LFail, Failing err =>
      cs ← fail_all (failure_reply err) (base.elements (pending s)) (channels s);
      Some (set_loop Ended (set_pending ∅ (set_channels cs s)))
  | _, _ => None
  end.

Definition step (l : label) (s : cdpSession) : option cdpSession :=
  match l with
  | LFrame _ | LReadError _ | LSend | LFail => loop_step l s
  | LDeliver id =>
      c ← calls s !! id;
      match c with
      | (BodyOf _, Done (Replied r)) =>
          let s := forget id s in             (* the goroutine ends *)
          match token_of_body r with
          | Some token => Some (match tokenCh s with None => set_token (Some token) s | Some _ => s end)
          | None => Some s
          end
      | (BodyOf _, Done _) => Some (forget id s)
      | _ => None
      end
  | LToken => match tokenCh s with Some _ => Some (set_token None s) | None => None end
  | _ => call_step l s
  end.

Fixpoint exec (s : cdpSession) (ls : list label) : option cdpSession :=
  match ls with
  | [] => Some s
  | l :: ls => s ← step l s; exec s ls
  end.

(** ** The invariant *)

(** The reply is in a frame with the call's id. *)
Definition framed (ls : list label) (id : Z) (r : raw) : Prop :=
  exists text e, (LFrame text ∈ ls) /\ read_envelope text = Some e /\ en_ID e = id /\ reply_of e = r.
Definition broken (ls : list label) (r : raw) : Prop := exists err, (LReadError err ∈ ls) /\ r = failure_reply err.

Definition active (st : call_state) : bool := match st with Registered | Waiting => true | _ => false end.

Record inv (ls : list label) (s : cdpSession) : Prop := {
  iv_next : (0 <= nextID s)%Z;
  iv_calls : forall id c, calls s !! id = Some c -> (1 <= id <= nextID s)%Z;
  iv_channels : forall id ch, channels s !! id = Some ch -> (1 <= id <= nextID s)%Z;
  iv_pending : forall id, id ∈ pending s -> channels s !! id = Some (mkChannel None false);
  iv_sending : forall id r, read_loop s = Sending id r ->
    (id ∉ pending s) /\ channels s !! id = Some (mkChannel None false) /\ framed ls id r;
  iv_failing : forall err, read_loop s = Failing err -> LReadError err ∈ ls;
  iv_buffer : forall id r b, channels s !! id = Some (mkChannel (Some r) b) -> framed ls id r \/ broken ls r;
  iv_numbered : forall id who, calls s !! id = Some (who, Numbered) -> channels s !! id = None;
  iv_active : forall id who st, calls s !! id = Some (who, st) -> active st = true ->
    (id ∈ pending s) \/ (exists r, read_loop s = Sending id r) \/
    exists r b, channels s !! id = Some (mkChannel (Some r) b);
  iv_done : forall id who r, calls s !! id = Some (who, Done (Replied r)) ->
    probe r = None /\ (framed ls id r \/ broken ls r) }.

Lemma framed_app ls l id r : framed ls id r -> framed (ls ++ [l]) id r.
Proof. intros (text & e & H & ?). exists text, e. split; [set_solver|done]. Qed.
Lemma broken_app ls l r : broken ls r -> broken (ls ++ [l]) r.
Proof. intros (err & H & ?). exists err. split; [set_solver|done]. Qed.
#[local] Hint Resolve framed_app broken_app : core.

(** The history grows. *)
Lemma inv_app ls l s : inv ls s -> inv (ls ++ [l]) s.
Proof.
  intros []. split; try done.
  - intros id r H. apply iv_sending0 in H as (? & ? & ?). by auto.
  - intros err H. apply iv_failing0 in H. set_solver.
  - intros id r b H. apply iv_buffer0 in H as [?|?]; auto.
  - intros id who r H. apply iv_done0 in H as [? [?|?]]; auto.
Qed.

Lemma send_ok id r cs : cs !! id = Some (mkChannel None false) ->
  send id r cs = Some (<[id := mkChannel (Some r) false]> cs).
Proof. intros H. unfold send. by rewrite H. Qed.

Ltac on_insert H := apply lookup_insert_Some in H as [[? H]|[? H]]; [subst|].

Section Preservation.
Context (ls : list label) (s : cdpSession) (Hi : inv ls s).

Lemma call_known id who st : calls s !! id = Some (who, st) -> active st = true -> is_Some (channels s !! id).
Proof.
  intros H Ha. destruct (iv_active ls s Hi id who st H Ha) as [Hp|[[r Hr]|(r & b & Hb)]].
  - by rewrite (iv_pending ls s Hi id Hp).
  - by destruct (iv_sending ls s Hi id r Hr) as (_ & -> & _).
  - by rewrite Hb.
Qed.

Lemma number_inv who f : inv ls (number who (set_fetches f s)).
Proof.
  destruct Hi. assert (channels s !! (nextID s + 1)%Z = None) as Hch.
  { destruct (channels s !! _) eqn:E; [|done]. apply iv_channels0 in E. lia. }
  split; unfold number; cbn; try done; try lia.
  - intros id c H. on_insert H; [lia|]. apply iv_calls0 in H. lia.
  - intros id ch H. apply iv_channels0 in H. lia.
  - intros id w H. on_insert H; [done|by eauto].
  - intros id w st H Ha. on_insert H; [injection H as <- <-; done|by eauto].
  - intros id w r H. on_insert H; [done|by eauto].
Qed.

Lemma register_inv id who : calls s !! id = Some (who, Numbered) ->
  inv ls (set_call id who Registered (set_pending ({[id]} ∪ pending s)
            (set_channels (<[id := mkChannel None false]> (channels s)) s))).
Proof.
  intros Hc. destruct Hi. pose proof (iv_calls0 _ _ Hc) as Hr. pose proof (iv_numbered0 _ _ Hc) as Hn.
  assert (forall r, read_loop s <> Sending id r) as Hs by (intros r E; destruct (iv_sending0 _ _ E) as (_ & E' & _); congruence).
  split; cbn; try done.
  - intros i c H. on_insert H; [done|by eauto].
  - intros i ch H. on_insert H; [done|by eauto].
  - intros i H. destruct (decide (i = id)) as [->|]; [by rewrite lookup_insert_eq|].
    rewrite lookup_insert_ne by done. apply iv_pending0. set_solver.
  - intros i r H. assert (i <> id) by (intros ->; by apply Hs in H). destruct (iv_sending0 _ _ H) as (? & ? & ?).
    rewrite lookup_insert_ne by done. split; [set_solver|done].
  - intros i r b H. on_insert H; [done|by eauto].
  - intros i w H. on_insert H; [done|]. rewrite lookup_insert_ne by done. by eauto.
  - intros i w st H Ha. on_insert H; [left; set_solver|]. rewrite lookup_insert_ne by done.
    destruct (iv_active0 _ _ _ H Ha) as [?|[?|?]]; [left; set_solver|by right; left|by right; right].
  - intros i w r H. on_insert H; [done|by eauto].
Qed.

(** A call that ends, whatever becomes of its place among the pending ones. *)
Lemma done_inv id who st a p : calls s !! id = Some (who, st) -> active st = true ->
  p ⊆ pending s -> pending s ⊆ {[id]} ∪ p ->
  (forall r, a = Replied r -> probe r = None /\ (framed ls id r \/ broken ls r)) ->
  inv ls (set_call id who (Done a) (set_pending p s)).
Proof.
  intros Hc Ha Hp1 Hp2 Hr. pose proof (call_known _ _ _ Hc Ha) as [ch Hch]. destruct Hi. split; cbn; try done.
  - intros i c H. on_insert H; by eauto.
  - intros i H. apply iv_pending0. set_solver.
  - intros i r H. destruct (iv_sending0 _ _ H) as (? & ? & ?). split; [set_solver|done].
  - intros i w H. on_insert H; [done|by eauto].
  - intros i w st' H Ha'. on_insert H; [injection H as <- <-; done|].
    destruct (iv_active0 _ _ _ H Ha') as [?|[?|?]]; [left; set_solver|by right; left|by right; right].
  - intros i w r H. on_insert H; [injection H as <- ->; by apply Hr|by eauto].
Qed.

Lemma wait_inv id who : calls s !! id = Some (who, Registered) -> inv ls (set_call id who Waiting s).
Proof.
  intros Hc. destruct Hi. split; cbn; try done.
  - intros i c H. on_insert H; by eauto.
  - intros i w H. on_insert H; [done|by eauto].
  - intros i w st H Ha. on_insert H; [|by eauto]. by apply (iv_active0 _ _ _ Hc).
  - intros i w r H. on_insert H; [done|by eauto].
Qed.

(** Emptying the channel of a call that has ended. *)
Lemma drained_inv id b who a : calls s !! id = Some (who, Done a) ->
  (exists r, channels s !! id = Some (mkChannel (Some r) b)) ->
  inv ls (set_channels (<[id := mkChannel None b]> (channels s)) s).
Proof.
  intros Hc [r0 Hch]. destruct Hi. split; cbn; try done.
  - intros i ch H. on_insert H; by eauto.
  - intros i H. assert (i <> id) by (intros ->; apply iv_pending0 in H; congruence). rewrite lookup_insert_ne by done. by eauto.
  - intros i r H. destruct (iv_sending0 _ _ H) as (? & H' & ?). assert (i <> id) by (intros ->; congruence).
    by rewrite lookup_insert_ne.
  - intros i r b' H. on_insert H; [done|by eauto].
  - intros i w H. assert (i <> id) by (intros ->; congruence). rewrite lookup_insert_ne by done. by eauto.
  - intros i w st H Ha. assert (i <> id) by (intros ->; rewrite Hc in H; by injection H as <- <-).
    rewrite lookup_insert_ne by done. by eauto.
Qed.

Lemma forget_inv id who a : calls s !! id = Some (who, Done a) -> inv ls (forget id s).
Proof.
  intros Hc. destruct Hi. split; cbn; try done; intros i; intros *; intros [? H]%lookup_delete_Some; by eauto.
Qed.

Lemma token_inv t : inv ls (set_token t s).
Proof. by destruct Hi. Qed.
Lemma fetches_inv f : inv ls (set_fetches f s).
Proof. by destruct Hi. Qed.

(** The read loop takes a reply's channel. *)
Lemma take_inv id r : read_loop s = Reading -> id ∈ pending s -> framed ls id r ->
  inv ls (set_loop (Sending id r) (set_pending (pending s ∖ {[id]}) s)).
Proof.
  intros Hl Hp Hf. destruct Hi. split; cbn; try done.
  - intros i H. apply iv_pending0. set_solver.
  - intros i r' [= <- <-]. split_and!; [set_solver|by apply iv_pending0|done].
  - intros i w st H Ha. destruct (iv_active0 _ _ _ H Ha) as [?|[[r' Hr]|?]]; [|congruence|by right; right].
    destruct (decide (i = id)) as [->|]; [right; left; by eauto|left; set_solver].
Qed.

Lemma sent_inv id r : read_loop s = Sending id r ->
  inv ls (set_loop Reading (set_channels (<[id := mkChannel (Some r) false]> (channels s)) s)).
Proof.
  intros Hl. destruct Hi. destruct (iv_sending0 _ _ Hl) as (Hp & Hch & Hf). split; cbn; try done.
  - intros i ch H. on_insert H; by eauto.
  - intros i H. assert (i <> id) by (intros ->; done). rewrite lookup_insert_ne by done. by eauto.
  - intros i r' b H. on_insert H; [injection H as <- <-; by left|by eauto].
  - intros i w H. assert (i <> id) by (intros ->; apply iv_numbered0 in H; congruence). rewrite lookup_insert_ne by done. by eauto.
  - intros i w st H Ha. destruct (decide (i = id)) as [->|].
    + right; right. rewrite lookup_insert_eq. by eauto.
    + rewrite lookup_insert_ne by done. destruct (iv_active0 _ _ _ H Ha) as [?|[[r' Hr]|?]]; [by left|congruence|by right; right].
Qed.
End Preservation.

Lemma fail_all_spec r ids : forall cs, NoDup ids -> (forall i, i ∈ ids -> cs !! i = Some (mkChannel None false)) ->
  exists cs', fail_all r ids cs = Some cs' /\
    (forall i, i ∈ ids -> cs' !! i = Some (mkChannel (Some r) true)) /\ (forall i, i ∉ ids -> cs' !! i = cs !! i).
Proof.
  induction ids as [|id ids IH]; intros cs Hnd Hids; cbn [fail_all]; [exists cs; split_and!; [done|set_solver|done]|].
  apply NoDup_cons in Hnd as [Hnin Hnd]. rewrite send_ok by (apply Hids; set_solver). cbn [mbind option_bind].
  destruct (IH (alter (fun ch => mkChannel (buffer ch) true) id (<[id:=mkChannel (Some r) false]> cs)) Hnd) as (cs' & H1 & H2 & H3).
  { intros i Hin. assert (i <> id) by (by intros ->). rewrite lookup_alter_ne, lookup_insert_ne by done. apply Hids. set_solver. }
  exists cs'. split_and!; [done| |].
  - intros i [->|Hin]%elem_of_cons; [|by apply H2]. rewrite H3 by done. by rewrite lookup_alter_eq, lookup_insert_eq.
  - intros i Hin. apply not_elem_of_cons in Hin as [? ?]. rewrite H3 by done. by rewrite lookup_alter_ne, lookup_insert_ne.
Qed.

(** [failPending] neither blocks nor panics. *)
Lemma fail_inv ls s err : inv ls s -> read_loop s = Failing err ->
  exists cs, fail_all (failure_reply err) (base.elements (pending s)) (channels s) = Some cs /\
    inv ls (set_loop Ended (set_pending ∅ (set_channels cs s))).
Proof.
  intros Hi Hl. destruct (fail_all_spec (failure_reply err) (base.elements (pending s)) (channels s)) as (cs & H1 & H2 & H3).
  { apply NoDup_elements. }
  { intros i Hin. apply elem_of_elements in Hin. by apply (iv_pending ls s Hi). }
  setoid_rewrite elem_of_elements in H2. setoid_rewrite elem_of_elements in H3.
  exists cs. split; [done|]. destruct Hi. split; cbn; try done.
  - intros i ch H. destruct (decide (i ∈ pending s)) as [Hp|Hp]; [|rewrite H3 in H by done; by eauto].
    apply iv_pending0 in Hp. by eauto.
  - intros i r b H. destruct (decide (i ∈ pending s)) as [Hp|Hp]; [|rewrite H3 in H by done; by eauto].
    rewrite H2 in H by done. injection H as <- <-. right. exists err. split; [by apply iv_failing0|done].
  - intros i w H. destruct (decide (i ∈ pending s)) as [Hp|Hp]; [|rewrite H3 by done; by eauto].
    apply iv_pending0 in Hp. apply iv_numbered0 in H. congruence.
  - intros i w st H Ha. right; right. destruct (iv_active0 _ _ _ H Ha) as [Hp|[[r Hr]|(r & b & Hb)]]; [|congruence|].
    + rewrite H2 by done. by eauto.
    + destruct (decide (i ∈ pending s)) as [Hp|Hp]; [rewrite H2 by done; by eauto|rewrite H3 by done; by eauto].
Qed.

Lemma call_step_inv ls l s s' : inv ls s -> call_step l s = Some s' -> inv ls s'.
Proof.
  intros Hi H. destruct l as [[m|rid]|id|id w|id|id|text|err| | |id|]; cbn in H; try done.
  - injection H as <-. exact (number_inv ls s Hi (Solver m) (fetches s)).
  - destruct (list_find _ _) as [[i x]|]; [|done]. cbn in H. injection H as <-. by apply number_inv.
  - destruct (calls s !! id) as [[who []]|] eqn:E; try done. cbn in H. injection H as <-. by apply register_inv.
  - destruct (calls s !! id) as [[who []]|] eqn:E; try done. cbn in H. injection H as <-. destruct w; [by apply wait_inv|].
    apply (done_inv ls s Hi id who Registered); [done|done| | |done]; clear; [set_solver|].
    intros i Hin. destruct (decide (i = id)); set_solver.
  - destruct (calls s !! id) as [[who st]|] eqn:E; [|done]. destruct (channels s !! id) as [[[r|] b]|] eqn:Ec; [..|done]; cbn in H;
      destruct st; try done.
    + injection H as <-.
      set (a := match probe r with Some (msg, code) => CDPError msg code | None => Replied r end).
      assert (inv ls (set_call id who (Done a) (set_pending (pending s) s))) as H1.
      { apply (done_inv ls s Hi id who Waiting); [done|done|clear; set_solver..|]. intros r' Hr. unfold a in Hr.
        destruct (probe r) as [[??]|] eqn:Ep; [done|]. injection Hr as <-. split; [done|]. by apply (iv_buffer ls s Hi id r b). }
      apply (drained_inv ls _ H1 id b who a); cbn; [apply lookup_insert_eq|by eauto].
    + destruct b; [|done]. destruct (iv_active ls s Hi id who Waiting E eq_refl) as [Hp|[[r Hr]|(r & b & Hb)]]; [| |congruence].
      * apply (iv_pending ls s Hi) in Hp. congruence.
      * apply (iv_sending ls s Hi) in Hr as (_ & ? & _). congruence.
  - destruct (calls s !! id) as [[who []]|] eqn:E; try done. cbn in H. injection H as <-.
    apply (done_inv ls s Hi id who Waiting CtxEnded (pending s)); [done|done|clear; set_solver..|done].
Qed.

Lemma session_step_inv ls l s s' : inv ls s -> step l s = Some s' -> inv (ls ++ [l]) s'.
Proof.
  intros Hi0 H. pose proof (inv_app ls l s Hi0) as Hi. clear Hi0.
  destruct l as [who|id|id w|id|id|text|err| | |id|]; cbn [step] in H; try (by eapply call_step_inv).
  - cbn [loop_step] in H. destruct (read_loop s) eqn:El; try done. destruct (read_envelope text) as [e|] eqn:Ee; [|by injection H as <-].
    destruct (negb _). { case_bool_decide as Hp; injection H as <-; [|done]. apply take_inv; [done..|].
      exists text, e. split; [set_solver|done]. }
    destruct (_ =s? _); [|by injection H as <-]. destruct (response_request _); injection H as <-; [by apply fetches_inv|done].
  - cbn [loop_step] in H. destruct (read_loop s) eqn:El; try done. injection H as <-. destruct Hi. split; cbn; try done.
    + intros e [= <-]. set_solver.
    + intros i w st H Ha. destruct (iv_active0 _ _ _ H Ha) as [?|[[r Hr]|?]]; [by left|congruence|by right; right].
  - cbn [loop_step] in H. destruct (read_loop s) as [|id r| |] eqn:El; try done.
    rewrite send_ok in H by (by apply (iv_sending _ s Hi id r)). injection H as <-. by apply sent_inv.
  - cbn [loop_step] in H. destruct (read_loop s) as [| |err|] eqn:El; try done.
    destruct (fail_inv _ s err Hi El) as (cs & E & H1). rewrite E in H. by injection H as <-.
  - destruct (calls s !! id) as [[[m|rid] st]|] eqn:E; try done. cbn in H. destruct st as [| | |a]; try done.
    pose proof (forget_inv _ s Hi id _ _ E) as Hf.
    destruct a as [r|? ?| |]; try (by injection H as <-).
    destruct (token_of_body r); [|by injection H as <-]. injection H as <-.
    destruct (tokenCh _); [done|by apply token_inv].
  - destruct (tokenCh s); [|done]. injection H as <-. by apply token_inv.
Qed.

Lemma inv_new : inv [] newCDPSession.
Proof. split; cbn; try done; intros; set_solver. Qed.

Lemma exec_inv ls' : forall ls s s', inv ls s -> exec s ls' = Some s' -> inv (ls ++ ls') s'.
Proof.
  induction ls' as [|l ls' IH]; intros ls s s' Hi H; cbn [exec] in H; [injection H as <-; by rewrite app_nil_r|].
  destruct (step l s) as [s1|] eqn:E; [|done]. cbn [mbind option_bind] in H.
  replace (ls ++ l :: ls') with ((ls ++ [l]) ++ ls') by (by rewrite <-app_assoc).
  eapply IH; [|done]. by eapply session_step_inv.
Qed.

(** ** Theorem *)

(** C29.  The session pairs calls with their replies in every interleaving of
    callers, read loop and fetches: the read loop never blocks on a call's
    channel nor sends on a closed one, not even when it fails all pending
    calls; a call that returns a result has it from a frame with its own
    number; and a call that waits is pending, being answered, or can return
    at once. *)
Theorem cdp_session_sound ls s :
  exec newCDPSession ls = Some s -> LReadError [] ∉ ls ->
  (forall id r, read_loop s = Sending id r -> is_Some (step LSend s)) /\
  (forall err, read_loop s = Failing err -> is_Some (step LFail s)) /\
  (forall id who r, calls s !! id = Some (who, Done (Replied r)) -> probe r = None /\ framed ls id r) /\
  (forall id who, calls s !! id = Some (who, Waiting) ->
     (id ∈ pending s) \/ (exists r, read_loop s = Sending id r) \/ is_Some (step (LReceive id) s)) /\
  (read_loop s = Ended -> forall id who, calls s !! id = Some (who, Waiting) -> (id ∉ pending s) -> is_Some (step (LReceive id) s)).
Proof.
  intros H Hne. pose proof (exec_inv ls [] _ _ inv_new H) as Hi. cbn [app] in Hi.
  assert (forall id who, calls s !! id = Some (who, Waiting) ->
     (id ∈ pending s) \/ (exists r, read_loop s = Sending id r) \/ is_Some (step (LReceive id) s)) as Hw.
  { intros id who Hc. destruct (iv_active _ _ Hi id who Waiting Hc eq_refl) as [?|[?|(r & b & Hb)]]; [by left|by right; left|].
    right; right. cbn. rewrite Hc. cbn. rewrite Hb. cbn. by eexists. }
  split_and!.
  - intros id r Hl. cbn. rewrite Hl. rewrite send_ok by (by apply (iv_sending _ _ Hi id r)). by eexists.
  - intros err Hl. cbn. rewrite Hl. destruct (fail_inv _ _ err Hi Hl) as (cs & -> & _). by eexists.
  - intros id who r Hc. apply (iv_done _ _ Hi) in Hc as [Hp [Hf|(err & He & ->)]]; [done|]. exfalso.
    destruct err as [|b err]; [by apply Hne|discriminate].
  - done.
  - intros Hl id who Hc Hp. destruct (Hw id who Hc) as [?|[[r Hr]|?]]; [done|congruence|done].
Qed.

(** Three calls: the replies of the first two cross, the third is pending when
    the connection breaks. *)
Definition sample_schedule : list label :=
  [LNumber (Solver "Page.enable"); LNumber (Solver "Runtime.enable"); LRegister 2; LRegister 1;
   LWrite 2 true; LWrite 1 true; LFrame (js "{'id':2,'result':{'b':1}}"); LNumber (Solver "Page.navigate"); LSend;
   LFrame (js "{'id':1,'result':{'a':1}}"); LRegister 3; LSend; LReceive 1; LReceive 2; LWrite 3 true;
   LFrame (js "{'method':'Network.responseReceived','params':{'requestId':'r9','response':{'url':'https://id.vk.ru/captchaNotRobot.check','status':200}}}");
   LReadError "EOF"; LFail].

Lemma cdp_session_sound_witness :
  exists s, exec newCDPSession sample_schedule = Some s /\ fetches s = ["r9"%go] /\
    calls s !! 2%Z = Some (Solver "Runtime.enable", Done (Replied (Some (JObj [("b"%go, JNum "1")])))) /\
    is_Some (step (LReceive 3) s).
Proof.
  destruct (exec newCDPSession sample_schedule) as [s|] eqn:E; [|by vm_compute in E].
  assert (LReadError [] ∉ sample_schedule) as Hne.
  { assert (forallb (fun l => match l with LReadError [] => false | _ => true end) sample_schedule = true) as Ha
      by (vm_compute; reflexivity).
    rewrite forallb_forall in Ha. intros Hin. by apply list_elem_of_In, Ha in Hin. }
  destruct (cdp_session_sound sample_schedule s E Hne) as (_ & _ & _ & _ & H).
  assert ((fun s => (fetches s, calls s !! 2%Z, calls s !! 3%Z, bool_decide (3%Z ∈ pending s),
             match read_loop s with Ended => true | _ => false end)) <$> exec newCDPSession sample_schedule
    = Some (["r9"%go], Some (Solver "Runtime.enable", Done (Replied (Some (JObj [("b"%go, JNum "1")])))),
            Some (Solver "Page.navigate", Waiting), false, true)) as Hs by (vm_compute; reflexivity).
  rewrite E in Hs. cbn [fmap option_fmap option_map] in Hs. injection Hs as H1 H2 H3 H4 H5.
  exists s. split; [done|]. split; [exact H1|]. split; [exact H2|].
  apply (H ltac:(by destruct (read_loop s)) 3%Z (Solver "Page.navigate") H3). by apply bool_decide_eq_false in H4.
Defined.

(** An error without a message counts as a result. *)
Example empty_error_is_success :
  (calls <$> exec newCDPSession [LNumber (Solver "Page.navigate"); LRegister 1; LWrite 1 true;
     LFrame (js "{'id':1,'error':{'code':-32000,'message':''}}"); LSend; LReceive 1])
  = Some {[1%Z := (Solver "Page.navigate", Done (Replied (cdp_error_reply (-32000) [])))]}.
Proof. vm_compute. reflexivity. Qed.

(** A call made after the read loop has returned and whose write goes through
    has only its context to end it. *)
Example late_call_waits :
  match exec newCDPSession [LReadError "EOF"; LFail; LNumber (Solver "Page.enable"); LRegister 1; LWrite 1 true] with
  | Some s => step (LReceive 1) s = None /\ step LFail s = None /\ step LSend s = None /\
      (forall text, step (LFrame text) s = None) /\ is_Some (step (LCtx 1) s)
  | None => False
  end.
Proof. vm_compute. by split_and!; try eexists. Qed.
