(* ===== verification/CdpRun.v ===== *)
(** * provider/vk/captchasolve: a solve over its session (cdp.go)

    What the session of CdpSession gives the commands of Cdp: where the token
    of a solution comes from, in every interleaving, and that a Chrome that
    answers makes every command of a solve return its answer, whatever events
    come in between. *)

From S2P Require Import Prelude GoStrings GoErrors Json Vk Cdp CdpSession.

(** ** Where a token comes from *)

(** The calls in the order of their numbers: the [id]-th is at [id - 1]. *)
Definition callers (ls : list label) : list caller :=
  omap (fun l => match l with LNumber who => Some who | _ => None end) ls.
Definition call_number (ls : list label) (id : Z) (who : caller) : Prop :=
  (1 <= id)%Z /\ callers ls !! Z.to_nat (id - 1) = Some who.

(** Chrome has reported the answer to a captcha check, with status 200. *)
Definition announced (ls : list label) (rid : bytes) : Prop :=
  exists text e, (LFrame text ∈ ls) /\ read_envelope text = Some e /\ en_ID e = 0%Z /\
    en_Method e = "Network.responseReceived"%go /\ response_request (en_Params e) = Some rid.

(** The body of that answer, asked for by its request's number and given in a
    result without error, holds the token. *)
Definition from_check (ls : list label) (token : bytes) : Prop :=
  exists rid id text e, announced ls rid /\ call_number ls id (BodyOf rid) /\ (LFrame text ∈ ls) /\
    read_envelope text = Some e /\ en_ID e = id /\ en_Error e = None /\ token_of_body (en_Result e) = Some token.

Record tracked (ls : list label) (s : cdpSession) : Prop := {
  tk_next : nextID s = Z.of_nat (length (callers ls));
  tk_calls : forall id who st, calls s !! id = Some (who, st) -> call_number ls id who;
  tk_fetches : forall rid, rid ∈ fetches s -> announced ls rid;
  tk_bodies : forall id rid st, calls s !! id = Some (BodyOf rid, st) -> announced ls rid;
  tk_token : forall t, tokenCh s = Some t -> from_check ls t }.

Lemma callers_app ls l : callers (ls ++ l) = callers ls ++ callers l.
Proof. apply omap_app. Qed.
Lemma call_number_app ls l id who : call_number ls id who -> call_number (ls ++ l) id who.
Proof. intros [? H]. split; [done|]. rewrite callers_app. by apply lookup_app_l_Some. Qed.
Lemma announced_app ls l rid : announced ls rid -> announced (ls ++ l) rid.
Proof. intros (text & e & H & ?). exists text, e. split; [set_solver|done]. Qed.
Lemma from_check_app ls l t : from_check ls t -> from_check (ls ++ l) t.
Proof.
  intros (rid & id & text & e & H1 & H2 & H3 & H4). exists rid, id, text, e.
  split; [by apply announced_app|]. split; [by apply call_number_app|]. split; [set_solver|done].
Qed.
#[local] Hint Resolve call_number_app announced_app from_check_app : core.

(** An error, Chrome's or the connection's, holds no token. *)
Lemma no_token_in_error code msg : token_of_body (cdp_error_reply code msg) = None.
Proof. reflexivity. Qed.
Lemma no_token_in_failure err : token_of_body (failure_reply err) = None.
Proof. reflexivity. Qed.

(** A step that numbers no call and starts no fetch keeps what is tracked. *)
Lemma tracked_quiet ls l s s' :
  tracked ls s -> callers [l] = [] -> nextID s' = nextID s -> fetches s' = fetches s -> tokenCh s' = tokenCh s ->
  (forall id who st, calls s' !! id = Some (who, st) -> exists st, calls s !! id = Some (who, st)) ->
  tracked (ls ++ [l]) s'.
Proof.
  intros [H1 H2 H3 H4 H5] Hl Hn Hf Ht Hc. split.
  - rewrite callers_app, Hl, app_nil_r. congruence.
  - intros id who st H. apply Hc in H as [st' H]. by eauto.
  - intros rid. rewrite Hf. by eauto.
  - intros id rid st H. apply Hc in H as [st' H]. by eauto.
  - intros t. rewrite Ht. by eauto.
Qed.

Lemma tracked_number ls who f s : tracked ls s -> (forall rid, rid ∈ f -> rid ∈ fetches s) ->
  (forall rid, who = BodyOf rid -> rid ∈ fetches s) -> tracked (ls ++ [LNumber who]) (number who (set_fetches f s)).
Proof.
  intros [H1 H2 H3 H4 H5] Hf Hw. unfold number. split; cbn.
  - rewrite callers_app, length_app. cbn. lia.
  - intros id w st H. on_insert H; [|by eauto]. injection H as <- <-. split; [lia|].
    rewrite callers_app, lookup_app_r by (rewrite H1; lia). rewrite H1. by replace (Z.to_nat _ - _)%nat with 0%nat by lia.
  - intros rid Hin. by eauto.
  - intros id rid st H. on_insert H; [injection H as -> <-; by eauto|by eauto].
  - intros t Ht. by eauto.
Qed.

Lemma tracked_call ls l s s' : tracked ls s -> call_step l s = Some s' -> tracked (ls ++ [l]) s'.
Proof.
  intros Ht H. destruct l as [[m|rid]|id|id w|id|id|text|err| | |id|]; cbn in H; try done.
  - injection H as <-. apply (tracked_number ls (Solver m) (fetches s)); [done|done|done].
  - destruct (list_find _ _) as [[i x]|] eqn:Ef; [|done]. cbn in H. injection H as <-.
    apply list_find_Some in Ef as (Hi & <- & _). apply tracked_number; [done| |].
    + intros r Hr. rewrite delete_take_drop in Hr. apply elem_of_app in Hr as [Hr|Hr].
      * apply list_elem_of_lookup in Hr as [j Hj]. apply lookup_take_Some in Hj as [Hj _]. by eapply list_elem_of_lookup_2.
      * apply list_elem_of_lookup in Hr as [j Hj]. rewrite lookup_drop in Hj. by eapply list_elem_of_lookup_2.
    + intros r [= <-]. by eapply list_elem_of_lookup_2.
  - destruct (calls s !! id) as [[who []]|] eqn:E; try done. cbn in H. injection H as <-.
    apply (tracked_quiet ls _ s); try done. cbn. intros i w st H. on_insert H; [injection H as <- <-|]; by eauto.
  - destruct (calls s !! id) as [[who []]|] eqn:E; try done. cbn in H. injection H as <-.
    apply (tracked_quiet ls _ s); try done; destruct w; try done.
    all: cbn; intros i w' st H; on_insert H; [injection H as <- <-|]; by eauto.
  - destruct (calls s !! id) as [[who st0]|] eqn:E; [|done]. destruct (channels s !! id) as [[[r|] []]|]; [..|done]; cbn in H;
      destruct st0; try done; injection H as <-; apply (tracked_quiet ls _ s); try done.
    all: cbn; intros i w' st H; on_insert H; [injection H as <- <-|]; by eauto.
  - destruct (calls s !! id) as [[who []]|] eqn:E; try done. cbn in H. injection H as <-.
    apply (tracked_quiet ls _ s); try done. cbn. intros i w st H. on_insert H; [injection H as <- <-|]; by eauto.
Qed.

(** A body that was delivered came in a frame, and not as an error. *)
Lemma body_framed ls s id rid r t : inv ls s -> calls s !! id = Some (BodyOf rid, Done (Replied r)) ->
  token_of_body r = Some t ->
  exists text e, (LFrame text ∈ ls) /\ read_envelope text = Some e /\ en_ID e = id /\ en_Error e = None /\ en_Result e = r.
Proof.
  intros Hi Hc Ht. apply (iv_done _ _ Hi) in Hc as [_ [(text & e & H1 & H2 & H3 & H4)|(err & _ & ->)]].
  - exists text, e. split_and!; try done; unfold reply_of in H4; by destruct (en_Error e) as [[code msg]|]; subst.
  - by rewrite no_token_in_failure in Ht.
Qed.

Lemma tracked_step ls l s s' : inv ls s -> tracked ls s -> step l s = Some s' -> tracked (ls ++ [l]) s'.
Proof.
  intros Hi Ht H. destruct l as [who|id|id w|id|id|text|err| | |id|]; cbn [step] in H; try (by eapply tracked_call).
  - cbn [loop_step] in H. destruct (read_loop s); try done.
    assert (tracked (ls ++ [LFrame text]) s) as Hs by (apply (tracked_quiet ls _ s); by eauto).
    destruct (read_envelope text) as [e|] eqn:Ee; [|by injection H as <-].
    destruct (Z.eqb_spec (en_ID e) 0) as [H0|H0]; cbn [negb] in H.
    + destruct (seqb_spec (en_Method e) "Network.responseReceived") as [Hm|]; [|by injection H as <-].
      destruct (response_request _) as [rid|] eqn:Er; injection H as <-; [|done].
      destruct Hs. split; cbn; try done. intros x [Hx| ->%list_elem_of_singleton]%elem_of_app; [by auto|].
      exists text, e. split; [set_solver|done].
    + destruct (bool_decide _); injection H as <-; [|done]. by destruct Hs.
  - cbn [loop_step] in H. destruct (read_loop s); try done. injection H as <-. apply (tracked_quiet ls _ s); by eauto.
  - cbn [loop_step] in H. destruct (read_loop s); try done. destruct (send _ _ _); [|done]. injection H as <-.
    apply (tracked_quiet ls _ s); by eauto.
  - cbn [loop_step] in H. destruct (read_loop s); try done. destruct (fail_all _ _ _); [|done]. injection H as <-.
    apply (tracked_quiet ls _ s); by eauto.
  - destruct (calls s !! id) as [[[m|rid] st]|] eqn:E; try done. cbn in H. destruct st as [| | |a]; try done.
    assert (tracked (ls ++ [LDeliver id]) (forget id s)) as Hf.
    { apply (tracked_quiet ls _ s); try done. cbn. intros i w st [_ Hd]%lookup_delete_Some. by eauto. }
    destruct a as [r|? ?| |]; try (by injection H as <-).
    destruct (token_of_body r) as [t|] eqn:Et; [|by injection H as <-]. injection H as <-.
    destruct (tokenCh _); [done|]. destruct (body_framed _ _ _ _ _ _ Hi E Et) as (text & e & H1 & H2 & H3 & H4 & <-).
    destruct Hf. split; cbn; try done. intros t' [= <-]. apply from_check_app. destruct Ht.
    exists rid, id, text, e. split_and!; try done; by eauto.
  - destruct (tokenCh s); [|done]. injection H as <-.
    assert (tracked (ls ++ [LToken]) s) as Hs by (apply (tracked_quiet ls _ s); by eauto). by destruct Hs.
Qed.

Lemma tracked_exec ls' : forall ls s s', inv ls s -> tracked ls s -> exec s ls' = Some s' -> tracked (ls ++ ls') s'.
Proof.
  induction ls' as [|l ls' IH]; intros ls s s' Hi Ht H; cbn [exec] in H; [injection H as <-; by rewrite app_nil_r|].
  destruct (step l s) as [s1|] eqn:E; [|done]. cbn [mbind option_bind] in H.
  replace (ls ++ l :: ls') with ((ls ++ [l]) ++ ls') by (by rewrite <-app_assoc).
  eapply IH; [by eapply session_step_inv|by eapply tracked_step|done].
Qed.

Lemma tracked_new : tracked [] newCDPSession.
Proof. split; cbn; try done; intros; set_solver. Qed.

(** ** A Chrome that answers *)

(** A frame that is no reply, and the requests it announces. *)
Definition event_frame (text : bytes) : Prop :=
  match read_envelope text with Some e => en_ID e = 0%Z | None => True end.
Definition heard (text : bytes) : list bytes :=
  match read_envelope text with
  | Some e => if en_Method e =s? "Network.responseReceived" then option_list (response_request (en_Params e)) else []
  | None => []
  end.

(** A reply to the call [id], with the result [r]. *)
Definition replies_to (id : Z) (text : bytes) (r : raw) : Prop :=
  exists e, read_envelope text = Some e /\ en_ID e = id /\ reply_of e = r /\ probe r = None.

(** One call from its number to its return: the events before it is written,
    before its reply, and before the caller gets hold of it. *)
Record exchange := mkExchange { x_method : bytes; x_events : list bytes * list bytes * list bytes; x_reply : bytes }.
Definition quiet (x : exchange) : Prop :=
  let '(n1, n2, n3) := x_events x in Forall event_frame n1 /\ Forall event_frame n2 /\ Forall event_frame n3.
Definition x_heard (x : exchange) : list bytes :=
  let '(n1, n2, n3) := x_events x in concat (map heard n1) ++ concat (map heard n2) ++ concat (map heard n3).
Definition after_number (id : Z) (x : exchange) : list label :=
  let '(n1, n2, n3) := x_events x in
  [LRegister id] ++ map LFrame n1 ++ [LWrite id true] ++ map LFrame n2 ++ [LFrame (x_reply x); LSend] ++
  map LFrame n3 ++ [LReceive id].
Fixpoint talk (id : Z) (xs : list exchange) : list label :=
  match xs with
  | [] => []
  | x :: xs => LNumber (Solver (x_method x)) :: after_number id x ++ talk (id + 1) xs
  end.

Lemma exec_app s ls ls' : exec s (ls ++ ls') = s' ← exec s ls; exec s' ls'.
Proof. revert s. induction ls as [|l ls IH]; intros s; [done|]. cbn. destruct (step l s); [apply IH|done]. Qed.

Lemma set_fetches_id s : set_fetches (fetches s) s = s.
Proof. by destruct s. Qed.

Lemma exec_events texts : forall s, read_loop s = Reading -> Forall event_frame texts ->
  exec s (map LFrame texts) = Some (set_fetches (fetches s ++ concat (map heard texts)) s).
Proof.
  induction texts as [|t texts IH]; intros s Hl Hq; [cbn; by rewrite app_nil_r, set_fetches_id|].
  inversion Hq as [|? ? Ht Hr]; subst. cbn [map exec concat].
  assert (step (LFrame t) s = Some (set_fetches (fetches s ++ heard t) s)) as ->.
  { cbn [step loop_step]. rewrite Hl. unfold event_frame, heard in *. destruct (read_envelope t) as [e|];
      [|by rewrite app_nil_r, set_fetches_id]. rewrite Ht. cbn [Z.eqb negb].
    destruct (_ =s? _); [|by rewrite app_nil_r, set_fetches_id].
    destruct (response_request _); [done|]. cbn. by rewrite app_nil_r, set_fetches_id. }
  cbn [mbind option_bind]. rewrite IH by done. cbn [fetches set_fetches]. by rewrite <-app_assoc.
Qed.

Lemma exec_step l s s1 ls : step l s = Some s1 -> exec s (l :: ls) = exec s1 ls.
Proof. intros H. cbn [exec]. by rewrite H. Qed.
Lemma exec_noise texts s ls : read_loop s = Reading -> Forall event_frame texts ->
  exec s (map LFrame texts ++ ls) = exec (set_fetches (fetches s ++ concat (map heard texts)) s) ls.
Proof. intros Hl Hq. rewrite exec_app. by rewrite exec_events. Qed.

Lemma step_register s id who : calls s !! id = Some (who, Numbered) ->
  step (LRegister id) s = Some (set_call id who Registered (set_pending ({[id]} ∪ pending s)
    (set_channels (<[id := mkChannel None false]> (channels s)) s))).
Proof. intros H. unfold step, call_step. by rewrite H. Qed.
Lemma step_write s id who : calls s !! id = Some (who, Registered) ->
  step (LWrite id true) s = Some (set_call id who Waiting s).
Proof. intros H. unfold step, call_step. by rewrite H. Qed.
Lemma step_reply s id text r : read_loop s = Reading -> id <> 0%Z -> id ∈ pending s -> replies_to id text r ->
  step (LFrame text) s = Some (set_loop (Sending id r) (set_pending (pending s ∖ {[id]}) s)).
Proof.
  intros Hl H0 Hp (e & He & Hid & <- & _). unfold step, loop_step. rewrite Hl, He, Hid.
  rewrite (proj2 (Z.eqb_neq id 0) H0). cbn [negb]. by rewrite bool_decide_true.
Qed.
Lemma step_send s id r : read_loop s = Sending id r -> channels s !! id = Some (mkChannel None false) ->
  step LSend s = Some (set_loop Reading (set_channels (<[id := mkChannel (Some r) false]> (channels s)) s)).
Proof. intros Hl Hc. unfold step, loop_step. rewrite Hl. by rewrite send_ok. Qed.
Lemma step_receive s id who r : calls s !! id = Some (who, Waiting) ->
  channels s !! id = Some (mkChannel (Some r) false) -> probe r = None ->
  step (LReceive id) s =
    Some (set_call id who (Done (Replied r)) (set_channels (<[id := mkChannel None false]> (channels s)) s)).
Proof. intros Hc Hch Hp. unfold step, call_step. rewrite Hc, Hch. cbn [mbind option_bind]. by rewrite Hp. Qed.

(** A numbered call gets its reply, whatever events come in between. *)
Lemma call_answered s id who x r :
  calls s !! id = Some (who, Numbered) -> id <> 0%Z -> read_loop s = Reading -> quiet x -> replies_to id (x_reply x) r ->
  exists s', exec s (after_number id x) = Some s' /\ calls s' = <[id := (who, Done (Replied r))]> (calls s) /\
    read_loop s' = Reading /\ nextID s' = nextID s /\ tokenCh s' = tokenCh s /\ fetches s' = fetches s ++ x_heard x.
Proof.
  intros Hc H0 Hl Hq Hr. assert (probe r = None) as Hp by (by destruct Hr as (? & _ & _ & _ & ?)).
  unfold after_number, x_heard, quiet in *. destruct (x_events x) as [[n1 n2] n3]. destruct Hq as (Hq1 & Hq2 & Hq3).
  cbn [app]. rewrite (exec_step _ _ _ _ (step_register _ _ _ Hc)). rewrite exec_noise by done.
  erewrite exec_step by (apply (step_write _ _ who); apply lookup_insert_eq). rewrite exec_noise by done.
  erewrite exec_step by (apply (step_reply _ id _ r); [done|done|cbn; set_solver|done]).
  erewrite exec_step by (apply (step_send _ id r); [done|apply lookup_insert_eq]). rewrite exec_noise by done.
  erewrite exec_step by (apply (step_receive _ _ who r); [apply lookup_insert_eq|apply lookup_insert_eq|done]).
  eexists. split; [reflexivity|]. cbn. rewrite !insert_insert_eq. by rewrite <-!app_assoc.
Qed.

(** A list of calls, each with its reply. *)
Lemma talk_answered xs : forall ls s rs, inv ls s -> read_loop s = Reading -> Forall quiet xs ->
  (forall i x r, xs !! i = Some x -> rs !! i = Some r -> replies_to (nextID s + 1 + Z.of_nat i) (x_reply x) r) ->
  length rs = length xs ->
  exists s', exec s (talk (nextID s + 1) xs) = Some s' /\ read_loop s' = Reading /\ tokenCh s' = tokenCh s /\
    nextID s' = (nextID s + Z.of_nat (length xs))%Z /\ fetches s' = fetches s ++ concat (map x_heard xs) /\
    (forall id, (id <= nextID s)%Z -> calls s' !! id = calls s !! id) /\
    (forall i x r, xs !! i = Some x -> rs !! i = Some r ->
       calls s' !! (nextID s + 1 + Z.of_nat i)%Z = Some (Solver (x_method x), Done (Replied r))).
Proof.
  induction xs as [|x xs IH]; intros ls s rs Hi Hl Hq Hr Hlen.
  { exists s. cbn. rewrite app_nil_r, Z.add_0_r. by split_and!. }
  destruct rs as [|r rs]; [done|]. inversion Hq as [|? ? Hx Hqs]; subst.
  pose proof (iv_next _ _ Hi) as Hn. cbn [talk exec]. cbn [step call_step mbind option_bind].
  set (s0 := number (Solver (x_method x)) s).
  assert (inv (ls ++ [LNumber (Solver (x_method x))]) s0) as Hi0 by (apply (session_step_inv _ _ s); done).
  destruct (call_answered s0 (nextID s + 1) (Solver (x_method x)) x r) as (s1 & E1 & Hc1 & Hl1 & Hn1 & Ht1 & Hf1);
    [apply lookup_insert_eq|lia|done|done| |].
  { specialize (Hr 0%nat x r eq_refl eq_refl). by rewrite Z.add_0_r in Hr. }
  rewrite exec_app, E1. cbn [mbind option_bind].
  pose proof (exec_inv _ _ _ _ Hi0 E1) as Hi1. change (nextID s0) with (nextID s + 1)%Z in Hn1.
  destruct (IH _ s1 rs Hi1 Hl1 Hqs) as (s2 & E2 & Hl2 & Ht2 & Hn2 & Hf2 & Hold & Hnew); [| |].
  { intros i x' r' Hx' Hr'. specialize (Hr (S i) x' r' Hx' Hr'). rewrite Hn1. by replace (_ + 1 + 1 + _)%Z with (nextID s + 1 + Z.of_nat (S i))%Z by lia. }
  { by injection Hlen. }
  rewrite Hn1 in *. exists s2. split; [done|]. split; [done|]. split; [by rewrite Ht2, Ht1|]. split; [cbn [length]; lia|].
  split; [by rewrite Hf2, Hf1; cbn [map concat]; rewrite <-app_assoc|]. split.
  - intros id Hid. rewrite Hold by lia. rewrite Hc1. cbn [calls s0 number]. by rewrite !lookup_insert_ne by lia.
  - intros [|i] x' r' Hx' Hr'.
    + injection Hx' as <-. injection Hr' as <-. rewrite Z.add_0_r, Hold by lia. rewrite Hc1. apply lookup_insert_eq.
    + specialize (Hnew i x' r' Hx' Hr'). by replace (_ + 1 + Z.of_nat (S i))%Z with (nextID s + 1 + 1 + Z.of_nat i)%Z by lia.
Qed.

(** ** The commands of a solve *)

(** The calls in a trace with what Chrome answers to each. *)
Fixpoint replies (c : chrome) (pre tr : list action) : list (bytes * result error raw) :=
  match tr with
  | [] => []
  | Called m params as a :: tr => (m, ch_call c pre m params) :: replies c (pre ++ [a]) tr
  | a :: tr => replies c (pre ++ [a]) tr
  end.
Definition answered (c : chrome) (pre l : list action) : Prop :=
  Forall (fun x => is_ok (snd x) = true) (replies c pre l).
Definition goes_on {A} (c : chrome) (m : solve A) : Prop := forall tr tr' x,
  m tr = (tr', Ok x) -> exists l, tr' = tr ++ l /\ answered c tr l.

Lemma replies_app c l1 : forall pre l2, replies c pre (l1 ++ l2) = replies c pre l1 ++ replies c (pre ++ l1) l2.
Proof.
  induction l1 as [|a l1 IH]; intros pre l2; [cbn; by rewrite app_nil_r|].
  assert ((pre ++ [a]) ++ l1 = pre ++ a :: l1) as E by (by rewrite <-app_assoc).
  destruct a; cbn [app replies]; rewrite IH, E; done.
Qed.

Section Commands.
Context (literal_ok : bytes -> bool) (c : chrome).

Lemma goes_on_nil {A} (m : solve A) : (forall tr, fst (m tr) = tr) -> goes_on c m.
Proof. intros H tr tr' x E. exists []. specialize (H tr). rewrite E in H. cbn in H. subst. rewrite app_nil_r. split; [done|constructor]. Qed.

Lemma goes_on_bind {A B} (m : solve A) (k : A -> solve B) : goes_on c m -> (forall x, goes_on c (k x)) -> goes_on c (sbind m k).
Proof.
  intros Hm Hk tr tr' y E. apply sbind_ok in E as (tr1 & x & E1 & E2).
  apply Hm in E1 as (l1 & -> & H1). apply Hk in E2 as (l2 & -> & H2). exists (l1 ++ l2).
  split; [by rewrite app_assoc|]. unfold answered. rewrite replies_app. by apply Forall_app.
Qed.

Lemma goes_on_call wrap m params : goes_on c (call c wrap m params).
Proof.
  intros tr tr' x E. unfold call in E. injection E as <- E. exists [Called m params]. split; [done|].
  constructor; [|constructor]. cbn. by destruct (ch_call c tr m params).
Qed.

Lemma goes_on_setup s : goes_on c (setup c s).
Proof.
  unfold setup. repeat (apply goes_on_bind; [|intros ?]); try (by apply goes_on_call); try by apply goes_on_nil.
  case_bools; [|by apply goes_on_nil]. apply goes_on_bind; [by apply goes_on_call|intros ?; by apply goes_on_nil].
Qed.

Lemma goes_on_checkbox script fuel : forall deadline i tr tr' xy,
  checkbox_loop c fuel script deadline i tr = Some (tr', Ok xy) -> exists l, tr' = tr ++ l /\ answered c tr l.
Proof.
  induction fuel as [|fuel IH]; intros deadline i tr tr' xy H; cbn [checkbox_loop] in H; [done|].
  destruct (deadline <? _)%Z; [done|]. destruct (call _ _ _ _ tr) as [tr1 [r|e]] eqn:Ec; [|done].
  apply goes_on_call in Ec as (l1 & -> & H1). destruct (checkbox_at r); [injection H as <- <-; by exists l1|].
  destruct (ch_done c i); [done|]. apply IH in H as (l2 & -> & H2). exists (l1 ++ l2).
  split; [by rewrite app_assoc|]. unfold answered. rewrite replies_app. by apply Forall_app.
Qed.

Lemma goes_on_drive script s ch : goes_on c (drive literal_ok c script s ch).
Proof.
  unfold drive. apply goes_on_bind; [apply goes_on_setup|intros _]. apply goes_on_bind; [by apply goes_on_nil|intros _].
  apply goes_on_bind; [apply goes_on_call|intros _]. apply goes_on_bind.
  { intros tr tr' x E. unfold waitForCheckbox in E. destruct (checkbox_loop _ _ _ _ _ _) as [[tr1 r]|] eqn:El; [|done].
    cbn in E. injection E as -> ->. by eapply goes_on_checkbox. }
  intros xy. apply goes_on_bind; [|intros _; apply goes_on_bind; [by apply goes_on_nil|intros ?; by apply goes_on_nil]].
  unfold simulateHumanClick. repeat (apply goes_on_bind; [apply goes_on_call|intros _]). by apply goes_on_nil.
Qed.

(** Every call of a solve that succeeds was answered with a result. *)
Lemma solve_answered script s ch tr sol : cdp_Solve literal_ok c script s ch = (tr, Ok sol) -> answered c [] tr.
Proof.
  intros H. unfold cdp_Solve in H. destruct (RedirectURI ch =s? []); [done|].
  destruct (_ =s? []); [done|]. destruct (openTab (ch_open c)) as [tab|]; [|done]. destruct (ch_dial c); [done|].
  destruct (drive _ _ _ _ _ _) as [tr1 r1] eqn:Ed. injection H as <- ->.
  apply goes_on_drive in Ed as (l & -> & Hl). unfold answered in *. rewrite <-app_assoc. cbn [app replies].
  rewrite replies_app. apply Forall_app. split; [done|]. unfold closeTab. cbn [replies]. by destruct (ID tab =s? []).
Qed.
End Commands.

(** The goroutine that fetches a body. *)
Definition fetch (id : Z) (rid : bytes) (x : exchange) : list label :=
  LNumber (BodyOf rid) :: after_number id x ++ [LDeliver id].

Lemma fetch_delivers ls s rid x r t :
  inv ls s -> read_loop s = Reading -> tokenCh s = None -> rid ∈ fetches s -> quiet x ->
  replies_to (nextID s + 1) (x_reply x) r -> token_of_body r = Some t ->
  exists s', exec s (fetch (nextID s + 1) rid x) = Some s' /\ tokenCh s' = Some t /\
    forall id, (id <= nextID s)%Z -> calls s' !! id = calls s !! id.
Proof.
  intros Hi Hl Ht Hin Hq Hr Htok. pose proof (iv_next _ _ Hi) as Hn.
  assert (exists i, list_find (fun y => y = rid) (fetches s) = Some (i, rid)) as [i Hf].
  { destruct (list_find_elem_of (fun y => y = rid) (fetches s) rid Hin eq_refl) as [[i y] Hy].
    exists i. rewrite Hy. by apply list_find_Some in Hy as (_ & -> & _). }
  unfold fetch. set (s0 := number (BodyOf rid) (set_fetches (delete i (fetches s)) s)).
  rewrite (exec_step _ _ s0) by (unfold step, call_step; by rewrite Hf).
  destruct (call_answered s0 (nextID s + 1) (BodyOf rid) x r) as (s1 & E1 & Hc1 & _ & _ & Ht1 & _);
    [apply lookup_insert_eq|lia|done|done|done|].
  rewrite exec_app, E1. cbn [mbind option_bind].
  assert (step (LDeliver (nextID s + 1)) s1 = Some (set_token (Some t) (forget (nextID s + 1) s1))) as Ed.
  { unfold step. rewrite Hc1, lookup_insert_eq. cbn [mbind option_bind]. rewrite Htok.
    assert (tokenCh (forget (nextID s + 1) s1) = None) as -> by (cbn; by rewrite Ht1). done. }
  rewrite (exec_step _ _ _ _ Ed). eexists. split; [reflexivity|]. split; [done|].
  intros id Hid. cbn. rewrite Hc1. rewrite lookup_delete_ne, lookup_insert_ne by lia. cbn. by rewrite lookup_insert_ne by lia.
Qed.

(** ** Theorems *)

(** C28.  A solution's token was given by VK's check: in every interleaving of
    the solver, the read loop and the fetches, a token that [awaitSuccessToken]
    can take is not empty and comes from the body of an answer to a captcha
    check that Chrome announced with status 200, asked for under that request's
    number and returned, without error, in a frame with that call's own
    number. *)
Theorem token_from_check ls s s' :
  exec newCDPSession ls = Some s -> step LToken s = Some s' ->
  exists token, tokenCh s = Some token /\ token <> [] /\ from_check ls token.
Proof.
  intros H Hs. cbn in Hs. destruct (tokenCh s) as [t|] eqn:Et; [|done]. exists t. split; [done|].
  pose proof (tracked_exec ls [] _ _ inv_new tracked_new H) as Htr. apply (tk_token _ _ Htr) in Et. split; [|done].
  destruct Et as (rid & id & text & e & _ & _ & _ & _ & _ & _ & Ht). clear - Ht. intros ->.
  unfold token_of_body in Ht. destruct (en_Result e); [|done]. cbn [mbind option_bind] in Ht.
  destruct (decode_object _ _ _); [|done]. cbn [mbind option_bind] in Ht. destruct (Json.parse _); [|done].
  cbn [mbind option_bind] in Ht. destruct (decode_object _ _ _) as [[st tk]|]; [|done]. cbn [mbind option_bind] in Ht.
  destruct (seqb_spec tk []); [done|]. by injection Ht as ->.
Qed.

(** C27.  A solve runs over its session: if the commands of [cdp_Solve] succeed
    against a Chrome, a Chrome that puts those answers into frames, with any
    events in between, and announces and returns the answer of the check, makes
    the session of [readLoop] and [call], when the solver's calls follow one
    another and the fetch of the check's body comes after them, return each
    answer to its command and deliver the solution's token. *)
Theorem solve_over_session literal_ok c script s ch tr sol xs rid x rb :
  cdp_Solve literal_ok c script s ch = (tr, Ok sol) ->
  Forall quiet xs -> length xs = length (replies c [] tr) ->
  (forall i y m r, xs !! i = Some y -> replies c [] tr !! i = Some (m, Ok r) ->
     x_method y = m /\ replies_to (1 + Z.of_nat i) (x_reply y) r) ->
  rid ∈ concat (map x_heard xs) -> quiet x ->
  replies_to (1 + Z.of_nat (length xs)) (x_reply x) rb -> token_of_body rb = Some (SuccessToken sol) ->
  exists σ, exec newCDPSession (talk 1 xs ++ fetch (1 + Z.of_nat (length xs)) rid x) = Some σ /\
    tokenCh σ = Some (SuccessToken sol) /\
    forall i m r, replies c [] tr !! i = Some (m, Ok r) ->
      calls σ !! (1 + Z.of_nat i)%Z = Some (Solver m, Done (Replied r)).
Proof.
  intros Hs Hq Hlen Hx Hrid Hqx Hrb Htok. pose proof (solve_answered _ _ _ _ _ _ _ Hs) as Ha.
  set (rs := (fun a : bytes * result error raw => match snd a with Ok r => r | Err _ => None end) <$> replies c [] tr).
  assert (Hok : forall i r, rs !! i = Some r -> exists m, replies c [] tr !! i = Some (m, Ok r)).
  { intros i r E. unfold rs in E. apply list_lookup_fmap_Some in E as ([m a] & -> & E). pose proof (Forall_lookup_1 _ _ _ _ Ha E) as Hm.
    exists m. by destruct a. }
  destruct (talk_answered xs [] newCDPSession rs inv_new eq_refl Hq) as (s1 & E1 & Hl1 & Ht1 & Hn1 & Hf1 & _ & Hc1).
  { intros i y r Hy Hr. destruct (Hok i r Hr) as [m Hm]. by apply (Hx i y m r). }
  { unfold rs. by rewrite length_fmap. }
  change (nextID newCDPSession) with 0%Z in *. rewrite Z.add_0_l in *.
  pose proof (exec_inv _ _ _ _ inv_new E1) as Hi1.
  destruct (fetch_delivers _ s1 rid x rb (SuccessToken sol) Hi1 Hl1 Ht1) as (s2 & E2 & Ht2 & Hold); [by rewrite Hf1|done| |done|].
  { by rewrite Hn1, Z.add_comm. }
  rewrite Hn1, Z.add_comm in E2. exists s2. split; [by rewrite exec_app, E1|]. split; [done|].
  intros i m r Hr. assert (i < length xs)%nat as Hlt by (rewrite Hlen; by apply lookup_lt_Some in Hr).
  destruct (lookup_lt_is_Some_2 xs i Hlt) as [y Hy]. destruct (Hx i y m r Hy Hr) as [<- _].
  rewrite Hold by (rewrite Hn1; lia). apply Hc1; [done|]. unfold rs. by rewrite list_lookup_fmap, Hr.
Qed.

(** ** Instances *)

Definition reply_text (id : Z) (r : raw) : bytes :=
  print (JObj [("id"%go, JNum (itoa id)); ("result"%go, default JNull r)]).
Definition announcement : bytes :=
  js "{'method':'Network.responseReceived','params':{'requestId':'r9','response':{'url':'https://id.vk.ru/captchaNotRobot.check','status':200}}}".
Definition check_body : json := JObj [("body"%go, JStr (js "{'response':{'status':'OK','success_token':'token-1'}}"))].

(** Chrome's frames for the sample solve: each answer, the announcement before
    the last, and a frame that is no JSON. *)
Definition sample_exchanges (l : list (bytes * result error raw)) : list exchange :=
  imap (fun i '(m, a) => mkExchange m
    ([js "{'method':'Page.loadEventFired'}"], (if (i =? 9)%nat then [announcement] else ["?"%go]), [])
    (reply_text (1 + Z.of_nat i) (match a with Ok r => r | Err _ => None end))) l.
Definition sample_fetch : exchange := mkExchange "Network.getResponseBody" ([], [], []) (reply_text 11 (Some check_body)).

Lemma solve_over_session_witness :
  exists tr sol σ, cdp_Solve (fun _ => true) sample_chrome "script" (mkSolver "http://127.0.0.1:9222/" 0 0 []) sample_challenge = (tr, Ok sol) /\
    exec newCDPSession (talk 1 (sample_exchanges (replies sample_chrome [] tr)) ++ fetch 11 "r9" sample_fetch) = Some σ /\
    tokenCh σ = Some "token-1"%go.
Proof.
  destruct (cdp_Solve (fun _ => true) sample_chrome "script" (mkSolver "http://127.0.0.1:9222/" 0 0 []) sample_challenge)
    as [tr [sol|e]] eqn:E; [|by vm_compute in E].
  assert (SuccessToken sol = "token-1"%go) as Hs by (vm_compute in E; by injection E as _ <-).
  set (rs := replies sample_chrome [] tr).
  assert (rs = ltac:(let x := eval vm_compute in (replies sample_chrome [] (fst (cdp_Solve (fun _ => true) sample_chrome "script"
    (mkSolver "http://127.0.0.1:9222/" 0 0 []) sample_challenge))) in exact x)) as Hrs.
  { unfold rs. replace tr with (fst (tr, @Ok solve_error _ sol)) by done. rewrite <-E. vm_compute. reflexivity. }
  destruct (solve_over_session (fun _ => true) sample_chrome "script" (mkSolver "http://127.0.0.1:9222/" 0 0 [])
    sample_challenge tr sol (sample_exchanges rs) "r9" sample_fetch (Some check_body) E) as (σ & H1 & H2 & _).
  - rewrite Hrs. repeat constructor.
  - fold rs. rewrite Hrs. reflexivity.
  - fold rs. rewrite Hrs. intros i y m r Hy Hr.
    do 10 (destruct i as [|i]; [injection Hy as <-; injection Hr as <- <-; split; [reflexivity|];
      eexists; split; [vm_compute; reflexivity|by split_and!]|]). done.
  - rewrite Hrs. apply (bool_decide_unpack _). vm_compute. exact I.
  - repeat constructor.
  - rewrite Hrs. eexists. split; [vm_compute; reflexivity|by split_and!].
  - rewrite Hs. vm_compute. reflexivity.
  - exists tr, sol, σ. split; [reflexivity|]. split; [|by rewrite <-Hs].
    rewrite <-H1. fold rs. rewrite Hrs. reflexivity.
Defined.

Definition token_schedule : list label :=
  [LFrame announcement; LNumber (Solver "Input.dispatchMouseEvent"); LNumber (BodyOf "r9"); LRegister 1; LRegister 2;
   LWrite 2 true; LWrite 1 true; LFrame (reply_text 2 (Some check_body)); LSend; LReceive 2; LDeliver 2].

Lemma token_from_check_witness :
  exists s, exec newCDPSession token_schedule = Some s /\ is_Some (step LToken s) /\
    exists token, token <> [] /\ from_check token_schedule token.
Proof.
  destruct (exec newCDPSession token_schedule) as [s|] eqn:E; [|by vm_compute in E].
  assert (is_Some (tokenCh s)) as [t Ht].
  { assert ((fun s => bool_decide (is_Some (tokenCh s))) <$> exec newCDPSession token_schedule = Some true) as H
      by (vm_compute; reflexivity).
    rewrite E in H. cbn in H. injection H as H. by apply bool_decide_eq_true in H. }
  assert (step LToken s = Some (set_token None s)) as Hs by (cbn; by rewrite Ht).
  destruct (token_from_check token_schedule s _ E Hs) as (token & _ & H1 & H2).
  exists s. split; [reflexivity|]. split; [by rewrite Hs|].
  exists token. split; [exact H1|exact H2].
Defined.
