(* ===== verification/GoFiles.v ===== *)
(** * Go's path/filepath and the calls of package os

    [filepath.Clean], [Join], [Dir] and [IsAbs] with the separator [/]; a file
    system without symbolic links as a finite map from the elements of a path
    below the root to a node; and the calls the program makes, as a monad.
    Before each system call the other processes may change the file system,
    and the call may be refused. *)

From stdpp Require Import gmap.
From S2P Require Import Prelude GoStrings GoErrors NetIP.

(** ** Paths *)

Definition IsAbs (p : bytes) : bool := HasPrefix p "/".
Definition skipped (c : bytes) : bool := (c =s? []) || (c =s? ".").

(** One element, with those kept so far, the last one first. *)
Definition clean_step (rooted : bool) (stack : list bytes) (c : bytes) : list bytes :=
  if skipped c then stack
  else if c =s? ".." then
    match stack with
    | [] => if rooted then [] else [c]
    | top :: rest => if top =s? ".." then c :: stack else rest
    end
  else c :: stack.

Definition elems (rooted : bool) (stack : list bytes) (p : bytes) : list bytes :=
  fold_left (clean_step rooted) (split_byte "/" p) stack.

Definition Clean (p : bytes) : bytes :=
  let out := rev (elems (IsAbs p) [] p) in
  if IsAbs p then "/" ++ Join out "/"
  else match out with [] => "." | _ => Join out "/" end.

(** [filepath.Join] of two and of three elements goes through this. *)
Fixpoint path_Join (elem : list bytes) : bytes :=
  match elem with
  | [] => []
  | [] :: elem => path_Join elem
  | _ => Clean (Join elem "/")
  end.

Definition Dir (p : bytes) : bytes :=
  Clean match LastIndexByte p "/" with Some i => take (S i) p | None => [] end.

(** ** The file system *)

Inductive node := File (data : bytes) (mode : Z) | Directory.
#[global] Instance node_eq_dec : EqDecision node.
Proof. solve_decision. Defined.

Abbreviation key := (list bytes).
Abbreviation fs :=
  (@gmap key (@list_eq_dec bytes (@list_eq_dec byte byte_eq_decision))
     (@list_countable bytes (@list_eq_dec byte byte_eq_decision) (@list_countable byte byte_eq_decision byte_countable)) node).

(** The working directory and the mask of new files' modes. *)
Class Process := { cwd : key; umask : Z }.

(** The node a path names. *)
Definition resolve {proc : Process} (p : bytes) : key :=
  rev (elems true (if IsAbs p then [] else rev cwd) p).

Definition ENOENT : error := errors_New "no such file or directory".
Definition EEXIST : error := errors_New "file exists".
Definition ENOTDIR : error := errors_New "not a directory".
Definition EISDIR : error := errors_New "is a directory".
Definition ENOTEMPTY : error := errors_New "directory not empty".
Definition EINVAL : error := errors_New "invalid argument".

(** [os.IsExist]. *)
Definition IsExist (e : error) : bool :=
  bool_decide (e = EEXIST) || bool_decide (e = ENOTEMPTY).

Definition node_at (m : fs) (k : key) : option node :=
  match k with [] => Some Directory | _ => m !! k end.
Definition is_file (n : node) : bool := match n with File _ _ => true | Directory => false end.

Definition parent (k : key) : key := take (length k - 1) k.

Definition stat (k : key) (m : fs) : fs * result error node :=
  (m, match node_at m k with Some n => Ok n | None => Err ENOENT end).

(** A new entry needs a directory to be in. *)
Definition with_parent (k : key) (m : fs) (new : fs) : fs * result error unit :=
  match node_at m (parent k) with
  | Some Directory => (new, Ok tt)
  | Some (File _ _) => (m, Err ENOTDIR)
  | None => (m, Err ENOENT)
  end.

Definition mkdir (k : key) (m : fs) : fs * result error unit :=
  match node_at m k with
  | Some _ => (m, Err EEXIST)
  | None => with_parent k m (<[k := Directory]> m)
  end.

Definition open_trunc {proc : Process} (mode : Z) (k : key) (m : fs) : fs * result error unit :=
  match node_at m k with
  | Some Directory => (m, Err EISDIR)
  | Some (File _ old) => (<[k := File [] old]> m, Ok tt)
  | None => with_parent k m (<[k := File [] (Z.land mode (Z.lnot umask))]> m)
  end.

(** Bytes written to an open file; one that has been removed is written to
    without being in the map. *)
Definition append (data : bytes) (k : key) (m : fs) : fs * result error unit :=
  (match m !! k with Some (File old mode) => <[k := File (old ++ data) mode]> m | _ => m end, Ok tt).

Definition outside (k p : key) : Prop := ~ k `prefix_of` p.
#[global] Instance outside_dec k p : Decision (outside k p).
Proof. unfold outside. apply _. Defined.

Definition remove_all (k : key) (m : fs) : fs * result error unit :=
  (filter (fun e => outside k e.1) m, Ok tt).

(** The trees at [old] and [new] exchanged. *)
Definition swap (old new p : key) : key :=
  if decide (old `prefix_of` p) then new ++ drop (length old) p
  else if decide (new `prefix_of` p) then old ++ drop (length new) p
  else p.
Definition move (old new : key) (m : fs) : fs :=
  kmap (swap old new) (filter (fun e => outside new e.1) m).

Definition has_children (k : key) (m : fs) : bool :=
  existsb (fun p => bool_decide (k `prefix_of` p /\ p <> k)) (map fst (map_to_list m)).

(** rename(2). *)
Definition rename (old new : key) (m : fs) : fs * result error unit :=
  match node_at m old with
  | None => (m, Err ENOENT)
  | Some n =>
      if bool_decide (old = new) then (m, Ok tt)
      else if bool_decide (old `prefix_of` new) then (m, Err EINVAL)
      else match node_at m new with
           | None => with_parent new m (move old new m)
           | Some Directory =>
               if is_file n then (m, Err EISDIR)
               else if has_children new m then (m, Err ENOTEMPTY) else (move old new m, Ok tt)
           | Some (File _ _) => if is_file n then (move old new m, Ok tt) else (m, Err ENOTDIR)
           end
  end.

(** ** The calls of a process among others *)

(** What happens at a system call: what the others have done to the file
    system by then, and the error when the call is refused. *)
Record turn := mkTurn { others : fs -> fs; refuse : option error }.
Record world := mkWorld { w_fs : fs; w_turns : list turn }.

Definition M (E A : Type) : Type := world -> world * result E A.
Definition mret {E A : Type} (x : A) : M E A := fun w => (w, Ok x).
Definition fail {E A : Type} (e : E) : M E A := fun w => (w, Err e).
Definition mbind {E A B : Type} (c : M E A) (k : A -> M E B) : M E B :=
  fun w => let '(w, r) := c w in match r with Ok x => k x w | Err e => (w, Err e) end.
(** The error of a call wrapped; and looked at. *)
Definition wrap {E F A : Type} (f : E -> F) (c : M E A) : M F A := fun w => let '(w, r) := c w in (w, rwrap f r).
Definition attempt {E F A : Type} (c : M E A) : M F (result E A) := fun w => let '(w, r) := c w in (w, Ok r).

Notation "'let!' x ':=' c 'in' k" := (mbind c (fun x => k))
  (at level 10, x pattern, c at level 100, k at level 200) : go_scope.

(** A world without turns left is quiet. *)
Definition syscall {A : Type} (f : fs -> fs * result error A) : M error A := fun w =>
  match w_turns w with
  | [] => let '(m, r) := f (w_fs w) in (mkWorld m [], r)
  | t :: ts =>
      match refuse t with
      | Some e => (mkWorld (others t (w_fs w)) ts, Err e)
      | None => let '(m, r) := f (others t (w_fs w)) in (mkWorld m ts, r)
      end
  end.

Section Calls.
Context {proc : Process}.

Definition Stat (p : bytes) : M error node := syscall (stat (resolve p)).

(** [os.MkdirAll], by the elements from the last. *)
Fixpoint mkdir_all (rk : key) : M error unit :=
  match rk with
  | [] => mret tt
  | _ :: up =>
      let! dir := attempt (syscall (stat (rev rk))) in
      match dir with
      | Ok Directory => mret tt
      | Ok (File _ _) => fail ENOTDIR
      | Err _ =>
          let! _ := mkdir_all up in
          let! made := attempt (syscall (mkdir (rev rk))) in
          match made with
          | Ok _ => mret tt
          | Err e =>
              let! dir := attempt (syscall (stat (rev rk))) in
              match dir with Ok Directory => mret tt | _ => fail e end
          end
      end
  end.
Definition MkdirAll (p : bytes) : M error unit := mkdir_all (rev (resolve p)).

(** [os.MkdirTemp] with the random numbers it draws. *)
Fixpoint MkdirTemp (dir prefix : bytes) (randoms : list N) : M error bytes :=
  match randoms with
  | [] => fail EEXIST
  | r :: randoms =>
      let name := dir ++ "/" ++ prefix ++ dec (Z.of_N r) in
      let! made := attempt (syscall (mkdir (resolve name))) in
      match made with
      | Ok _ => mret name
      | Err e => if IsExist e then MkdirTemp dir prefix randoms else fail e
      end
  end.

(** A refused removal leaves the tree as it is. *)
Definition RemoveAll (p : bytes) : M error unit := syscall (remove_all (resolve p)).

(** [os.Rename] does not replace a directory, not even an empty one. *)
Definition Rename (old new : bytes) : M error unit :=
  let! fi := attempt (Stat new) in
  match fi with
  | Ok Directory =>
      let! _ := Stat old in
      if bool_decide (resolve old = resolve new) then syscall (rename (resolve old) (resolve new))
      else fail EEXIST
  | _ => syscall (rename (resolve old) (resolve new))
  end.
End Calls.

(** ** Lemmas on paths *)

Definition normal (c : bytes) : Prop := skipped c = false /\ c <> "..".

Lemma split_byte_cat c a b : split_byte c (a ++ c :: b) = split_byte c a ++ split_byte c b.
Proof.
  induction a as [|x a IH]; cbn [app split_byte].
  - by rewrite byte_eqb_refl.
  - destruct (Byte.eqb x c); rewrite IH; [done|].
    destruct (split_byte c a) eqn:E; [|done]. destruct a; cbn in E; [done|].
    by destruct (Byte.eqb _ _), (split_byte c a).
Qed.

Lemma split_byte_parts c s : Forall (fun w => c ∉ w) (split_byte c s).
Proof.
  induction s as [|x s IH]; cbn [split_byte]; [repeat constructor; set_solver|].
  destruct (byte_eqb_spec x c) as [->|Hne]; [constructor; [set_solver|done]|].
  destruct IH; repeat constructor; set_solver.
Qed.

Lemma split_byte_Join c l :
  l <> [] -> Forall (fun w => c ∉ w) l -> split_byte c (Join l [c]) = l.
Proof.
  intros Hne Hl. induction Hl as [|w [|v l] Hw Hl IH]; [done|by apply split_byte_none|].
  change (Join (w :: v :: l) [c]) with (w ++ c :: Join (v :: l) [c]).
  rewrite split_byte_app by done. by rewrite IH.
Qed.

Lemma clean_step_skip r st c : skipped c = true -> clean_step r st c = st.
Proof. unfold clean_step. by intros ->. Qed.

Lemma clean_step_normal r st c : normal c -> clean_step r st c = c :: st.
Proof.
  intros [Hs Hd]. unfold clean_step. rewrite Hs.
  destruct (seqb_spec c ".."); [done|reflexivity].
Qed.

(** The elements kept are replayed on any stack to the same effect. *)
Lemma clean_step_replay r r2 B S c :
  (r = true -> B = [] /\ r2 = true) -> Forall (fun x => skipped x = false) S ->
  fold_left (clean_step r2) (rev (clean_step r S c)) B = clean_step r2 (fold_left (clean_step r2) (rev S) B) c
  /\ Forall (fun x => skipped x = false) (clean_step r S c).
Proof.
  intros HB HS. unfold clean_step at 2 5. destruct (skipped c) eqn:Hc.
  { by rewrite clean_step_skip. }
  destruct (seqb_spec c "..") as [->|Hne].
  - destruct S as [|t S]; cbn [rev app].
    + destruct r; [destruct (HB eq_refl) as [-> ->]|]; split; repeat constructor.
    + destruct (seqb_spec t "..") as [->|Ht].
      * cbn [rev]. rewrite (fold_left_app _ _ [".."%go]). split; [done|by constructor].
      * inversion HS; subst. rewrite fold_left_app. cbn [fold_left].
        rewrite (clean_step_normal r2 _ t) by done. split; [|done].
        cbn. by destruct (seqb_spec t "..").
  - cbn [rev]. rewrite fold_left_app. cbn [fold_left]. split; [done|by constructor].
Qed.

Lemma elems_replay r r2 B cs S :
  (r = true -> B = [] /\ r2 = true) -> Forall (fun x => skipped x = false) S ->
  fold_left (clean_step r2) (rev (fold_left (clean_step r) cs S)) B =
  fold_left (clean_step r2) cs (fold_left (clean_step r2) (rev S) B).
Proof.
  intros HB. revert S. induction cs as [|c cs IH]; intros S HS; [done|]. cbn [fold_left].
  destruct (clean_step_replay r r2 B S c HB HS) as [E HS']. by rewrite IH, E.
Qed.

Lemma Forall_clean_step (P : bytes -> Prop) r c S : P c -> Forall P S -> Forall P (clean_step r S c).
Proof.
  intros Hc HS. unfold clean_step. destruct (skipped c), (c =s? ".."); try done; [|by constructor].
  destruct HS; case_bools; repeat constructor; done.
Qed.

Lemma Forall_elems (P : bytes -> Prop) r cs S :
  Forall P cs -> Forall P S -> Forall P (fold_left (clean_step r) cs S).
Proof.
  intros Hcs. revert S. induction Hcs as [|c cs Hc Hcs IH]; intros S HS; [done|].
  by apply IH, Forall_clean_step.
Qed.

Lemma elems_no_slash r p : Forall (fun w => x2f ∉ w) (elems r [] p).
Proof. apply Forall_elems; [apply split_byte_parts|constructor]. Qed.

Lemma fold_normal r cs S : Forall normal cs -> fold_left (clean_step r) cs S = rev cs ++ S.
Proof.
  intros H. revert S. induction H as [|c cs Hc H IH]; intros S; [done|].
  cbn [fold_left rev]. rewrite clean_step_normal by done. rewrite IH, <-app_assoc. done.
Qed.

Lemma IsAbs_slash p : IsAbs p = true <-> exists q, p = "/" ++ q.
Proof. unfold IsAbs. rewrite HasPrefix_true. done. Qed.

Lemma IsAbs_app p q : p <> [] -> IsAbs (p ++ q) = IsAbs p.
Proof.
  destruct p as [|x p]; [done|]. intros _. unfold IsAbs, HasPrefix. cbn [app cut_prefix].
  destruct (Byte.eqb x2f x); reflexivity.
Qed.

Lemma Join_head l sep : l <> [] -> exists t, Join l sep = hd [] l ++ t.
Proof. destruct l as [|x [|y l]]; [done|exists []; cbn; by rewrite app_nil_r|eauto]. Qed.

Lemma elems_kept r p : Forall (fun x => skipped x = false) (elems r [] p).
Proof.
  unfold elems. assert (HS : Forall (fun x => skipped x = false) (@nil bytes)) by constructor.
  revert HS. generalize (@nil bytes). induction (split_byte "/" p) as [|c cs IH]; intros S HS; [done|].
  apply IH. by apply (clean_step_replay r true [] S c).
Qed.

(** A path from its elements. *)
Definition unsplit (rooted : bool) (out : list bytes) : bytes := (if rooted then "/" else []) ++ Join out "/".
Definition well_split (out : list bytes) : Prop := Forall (fun w => skipped w = false /\ x2f ∉ w) out.

Lemma well_split_elems r p : well_split (rev (elems r [] p)).
Proof. apply Forall_rev, Forall_and. split; [apply elems_kept|apply elems_no_slash]. Qed.

Lemma IsAbs_unsplit r out : well_split out -> IsAbs (unsplit r out) = r.
Proof.
  intros H. destruct r; [done|]. destruct H as [|w l [Hk Hw] Hl]; [done|].
  destruct (Join_head (w :: l) "/" ltac:(done)) as [t E]. unfold unsplit. rewrite E. cbn [hd app].
  destruct w as [|a w]; [done|]. rewrite <-app_comm_cons. apply HasPrefix_ne. set_solver.
Qed.

Lemma unsplit_ne r out : out <> [] -> well_split out -> unsplit r out <> [].
Proof.
  intros Hne Hw. destruct Hw as [|w l [Hk _] _]; [done|]. destruct r; [done|].
  destruct (Join_head (w :: l) "/" Hne) as [t E]. unfold unsplit. rewrite E. by destruct w.
Qed.

Lemma split_unsplit r r2 out B : well_split out ->
  fold_left (clean_step r2) (split_byte "/" (unsplit r out)) B = fold_left (clean_step r2) out B.
Proof.
  intros H. assert (Hj : fold_left (clean_step r2) (split_byte "/" (Join out "/")) B = fold_left (clean_step r2) out B).
  { destruct (decide (out = [])) as [->|Hne]; [done|].
    rewrite (split_byte_Join x2f); [done|done|]. eapply Forall_impl; [exact H|]. by intros ? [? ?]. }
  destruct r; exact Hj.
Qed.

Lemma Clean_unsplit p :
  Clean p = if decide (IsAbs p = false /\ elems false [] p = []) then "." else unsplit (IsAbs p) (rev (elems (IsAbs p) [] p)).
Proof.
  unfold Clean. destruct (IsAbs p) eqn:E; cbn [decide]; [by case_decide as X; [destruct X|]|].
  case_decide as X; [by destruct X as [_ ->]|]. unfold unsplit. cbn [app].
  destruct (rev (elems false [] p)) eqn:R; [|done]. destruct X. split; [done|].
  by rewrite <-(rev_involutive (elems _ _ _)), R.
Qed.

Lemma IsAbs_Clean p : IsAbs (Clean p) = IsAbs p.
Proof.
  rewrite Clean_unsplit. case_decide as Hd; [by destruct Hd as [-> _]|].
  apply IsAbs_unsplit, well_split_elems.
Qed.

Lemma resolve_Clean {proc : Process} p : resolve (Clean p) = resolve p.
Proof.
  unfold resolve. rewrite IsAbs_Clean. f_equal. rewrite Clean_unsplit. case_decide as Hd.
  - destruct Hd as [Ha He]. rewrite Ha. unfold elems in *.
    pose proof (elems_replay false true (rev cwd) (split_byte "/" p) [] ltac:(done) ltac:(constructor)) as E.
    rewrite He in E. exact E.
  - unfold elems at 1. rewrite split_unsplit by apply well_split_elems.
    unfold elems. rewrite elems_replay; [done| |constructor]. by intros ->.
Qed.

Lemma resolve_app {proc : Process} a b : a <> [] ->
  resolve (a ++ "/" ++ b) = rev (elems true (rev (resolve a)) b).
Proof.
  intros Ha. unfold resolve, elems. rewrite IsAbs_app by done. cbn [app].
  by rewrite split_byte_cat, fold_left_app, rev_involutive.
Qed.

Lemma resolve_Join {proc : Process} a b : a <> [] ->
  resolve (path_Join [a; b]) = rev (elems true (rev (resolve a)) b).
Proof.
  intros Ha. destruct a as [|x a]; [done|]. cbn [path_Join]. rewrite resolve_Clean.
  apply (resolve_app (x :: a) b Ha).
Qed.

(** ** Names that stay below *)

(** The test of [unzip]: neither absolute nor beginning with [..]. *)
Definition local_name (name : bytes) : bool := negb (HasPrefix name ".." || IsAbs name).
Definition parts (p : bytes) : list bytes := rev (elems false [] p).

Fixpoint dots (st : list bytes) : Prop :=
  match st with [] => True | c :: st => (c = ".."%go -> Forall (eq ".."%go) st) /\ dots st end.

Lemma dots_step st c : dots st -> dots (clean_step false st c).
Proof.
  intros HS. unfold clean_step. destruct (skipped c); [done|].
  destruct (seqb_spec c "..") as [->|Hne].
  - destruct st as [|t st]; [by repeat constructor|]. destruct HS as [Ht HS].
    destruct (seqb_spec t "..") as [->|]; [|done].
    split; [|done]. constructor; [done|by apply Ht].
  - by split.
Qed.

Lemma dots_elems p : dots (elems false [] p).
Proof.
  unfold elems. assert (H : dots []) by done. revert H. generalize (@nil bytes).
  induction (split_byte "/" p) as [|c cs IH]; intros st HS; [done|]. by apply IH, dots_step.
Qed.

Lemma dots_head st : dots st -> ".."%go ∈ st -> exists l, rev st = ".."%go :: l.
Proof.
  induction st as [|c st IH]; [set_solver|]. intros [Hc HS] Hin. cbn [rev].
  destruct (decide (c = ".."%go)) as [->|Hne].
  - specialize (Hc eq_refl). destruct (rev st) as [|x l] eqn:E; [by exists []|].
    apply Forall_rev in Hc. rewrite E in Hc. inversion Hc; subst. by exists (l ++ [".."%go]).
  - destruct IH as [l ->]; [done|set_solver|]. by eexists.
Qed.

Lemma parts_normal p : local_name (Clean p) = true -> Forall normal (parts p).
Proof.
  unfold local_name. rewrite IsAbs_Clean. intros H. bprop.
  assert (Hout : forall l, parts p <> ".."%go :: l).
  { intros l E. unfold parts in E. unfold Clean in *.
    match goal with H : IsAbs p = false |- _ => rewrite H in * end. rewrite E in *.
    destruct (Join_head (".."%go :: l) "/" ltac:(done)) as [t Et]. rewrite Et in *.
    cbn [hd] in *. by rewrite HasPrefix_app in *. }
  unfold parts in *. apply Forall_forall. intros c Hc. split.
  - assert (Hk : Forall (fun x => skipped x = false) (elems false [] p)).
    { unfold elems. assert (HS : Forall (fun x => skipped x = false) (@nil bytes)) by constructor.
      revert HS. generalize (@nil bytes). induction (split_byte "/" p) as [|d cs IH]; intros st HS; [done|].
      apply IH. by apply (clean_step_replay false true [] st d). }
    rewrite Forall_forall in Hk. apply Hk. apply list_elem_of_In, in_rev, list_elem_of_In. done.
  - intros ->. destruct (dots_head _ (dots_elems p)) as [l E]; [|by apply (Hout l)].
    apply list_elem_of_In, in_rev, list_elem_of_In. done.
Qed.

Lemma resolve_local {proc : Process} a b : a <> [] -> local_name (Clean b) = true ->
  resolve (path_Join [a; b]) = resolve a ++ parts b.
Proof.
  intros Ha Hb. rewrite resolve_Join by done. unfold elems.
  pose proof (elems_replay false true (rev (resolve a)) (split_byte "/" b) [] ltac:(done) ltac:(constructor)) as E.
  cbn [rev fold_left] in E. rewrite <-E. fold (elems false [] b). fold (parts b).
  rewrite fold_normal by by apply parts_normal. by rewrite rev_app_distr, !rev_involutive.
Qed.

(** The elements of a joined path, for a name below. *)
Lemma elems_local r a b : a <> [] -> local_name (Clean b) = true ->
  elems r [] (a ++ "/" ++ b) = rev (parts b) ++ elems r [] a.
Proof.
  intros Ha Hb. unfold elems. cbn [app]. rewrite split_byte_cat, fold_left_app. fold (elems r [] a).
  pose proof (elems_replay false r (elems r [] a) (split_byte "/" b) [] ltac:(done) ltac:(constructor)) as E.
  cbn [rev fold_left] in E. rewrite <-E. fold (elems false [] b). fold (parts b).
  by rewrite fold_normal by by apply parts_normal.
Qed.

Lemma resolve_elems {proc : Process} p :
  resolve p = rev (fold_left (clean_step true) (rev (elems (IsAbs p) [] p)) (if IsAbs p then [] else rev cwd)).
Proof.
  unfold resolve. unfold elems. rewrite elems_replay; [done| |constructor]. by intros ->.
Qed.

Lemma parent_snoc k c : parent (k ++ [c]) = k.
Proof. unfold parent. rewrite length_app. cbn. rewrite Nat.add_sub. apply take_app_length. Qed.

Lemma resolve_trailing {proc : Process} p : p <> [] -> resolve (p ++ "/") = resolve p.
Proof.
  intros Hp. pose proof (resolve_app p [] Hp) as E. rewrite app_nil_r in E. rewrite E.
  unfold elems. cbn. by rewrite rev_involutive.
Qed.

Lemma resolve_snoc {proc : Process} p c : p <> [] -> normal c -> x2f ∉ c ->
  resolve (p ++ "/" ++ c) = resolve p ++ [c].
Proof.
  intros Hp Hc Hs. rewrite resolve_app by done. unfold elems. rewrite split_byte_none by done.
  cbn [fold_left]. rewrite clean_step_normal by done. cbn [rev]. by rewrite rev_involutive.
Qed.

Lemma Join_app l ps : l <> [] -> ps <> [] -> Join (l ++ ps) "/" = Join l "/" ++ "/" ++ Join ps "/".
Proof.
  intros Hl Hp. induction l as [|x [|y l] IH]; [done|by destruct ps|].
  change (x ++ "/" ++ Join ((y :: l) ++ ps) "/" = (x ++ "/" ++ Join (y :: l) "/") ++ "/" ++ Join ps "/").
  rewrite IH by done. by rewrite <-!app_assoc.
Qed.

Lemma Join_snoc o c : o <> [] -> Join (o ++ [c]) "/" = Join o "/" ++ "/" ++ c.
Proof. intros Ho. by rewrite Join_app. Qed.

Lemma take_after_slash pre c : x2f ∉ c ->
  match LastIndexByte (pre ++ "/" ++ c) "/" with Some i => take (S i) (pre ++ "/" ++ c) | None => [] end = pre ++ "/".
Proof.
  intros Hc. cbn [app]. rewrite LastIndexByte_app by done.
  replace (pre ++ "/"%byte :: c) with ((pre ++ "/") ++ c) by by rewrite <-app_assoc.
  replace (S (length pre)) with (length (pre ++ "/")) by (rewrite length_app; cbn; lia).
  apply take_app_length.
Qed.

Lemma LastIndexByte_None s c : c ∉ s -> LastIndexByte s c = None.
Proof.
  induction s as [|x s IH]; intros H; [done|]. cbn [LastIndexByte].
  rewrite IH by set_solver. destruct (byte_eqb_spec x c); [set_solver|done].
Qed.

(** The directory of a clean path that ends in a normal element. *)
Lemma resolve_Dir {proc : Process} p c st :
  elems (IsAbs p) [] p = c :: st -> normal c -> resolve (Dir (Clean p)) = parent (resolve p).
Proof.
  intros E Hc. unfold Dir. rewrite resolve_Clean.
  pose proof (elems_no_slash (IsAbs p) p) as Hs. rewrite E in Hs. inversion Hs as [|? ? Hcs Hst]; subst.
  assert (Hws : well_split (rev st)).
  { pose proof (well_split_elems (IsAbs p) p) as Hw. rewrite E in Hw. cbn [rev] in Hw. by apply Forall_app in Hw as [? _]. }
  rewrite (resolve_elems p), E. cbn [rev]. rewrite fold_left_app. cbn [fold_left].
  rewrite clean_step_normal by done. cbn [rev]. rewrite parent_snoc, Clean_unsplit.
  case_decide as Hd; [destruct Hd as [Ha He]; rewrite Ha in E; congruence|]. rewrite E. cbn [rev]. unfold unsplit.
  destruct (decide (rev st = [])) as [Hn|Hne].
  - rewrite Hn. cbn [app Join fold_left]. destruct (IsAbs p) eqn:Ha.
    + pose proof (take_after_slash [] c Hcs) as T. etransitivity; [apply f_equal; exact T|done].
    + by rewrite app_nil_l, LastIndexByte_None.
  - rewrite Join_snoc, app_assoc by done. fold (unsplit (IsAbs p) (rev st)).
    rewrite take_after_slash, resolve_trailing by eauto using unsplit_ne.
    unfold resolve, elems. by rewrite IsAbs_unsplit, split_unsplit by done.
Qed.

Lemma path_Join_two a b : a <> [] -> path_Join [a; b] = Clean (a ++ "/" ++ b).
Proof. by destruct a. Qed.

Lemma resolve_Dir_local {proc : Process} a b c st :
  a <> [] -> local_name (Clean b) = true -> elems (IsAbs a) [] a = c :: st -> normal c ->
  resolve (Dir (path_Join [a; b])) = parent (resolve a ++ parts b).
Proof.
  intros Ha Hb Hc Hn. rewrite <-resolve_local, path_Join_two, resolve_Clean by done.
  assert (exists c st, elems (IsAbs a) [] (a ++ "/" ++ b) = c :: st /\ normal c) as (c' & st' & E & Hc').
  { rewrite elems_local, Hc by done. pose proof (parts_normal b Hb) as Hp. apply Forall_rev in Hp.
    destruct (rev (parts b)) as [|x l]; [by exists c, st|]. inversion Hp; subst. by exists x, (l ++ c :: st). }
  apply (resolve_Dir _ c' st'); [|done]. by rewrite IsAbs_app.
Qed.

(** ** Lemmas on the file system *)

Lemma node_at_ne m k : k <> [] -> node_at m k = m !! k.
Proof. by destruct k. Qed.

Lemma prefix_parent k p : k <> [] -> p `prefix_of` k -> p = k \/ p `prefix_of` parent k.
Proof.
  intros Hk [r ->]. destruct r as [|x r _] using rev_ind; [left; by rewrite app_nil_r|].
  right. rewrite app_assoc, parent_snoc. by exists r.
Qed.

Lemma outside_app k r : ~ outside k (k ++ r).
Proof. unfold outside. intros H. apply H. by exists r. Qed.

Lemma remove_all_lookup k m p : (remove_all k m).1 !! p = if decide (outside k p) then m !! p else None.
Proof.
  unfold remove_all. cbn [fst]. case_decide as Ho.
  - destruct (m !! p) as [n|] eqn:E; [by apply map_lookup_filter_Some|].
    apply map_lookup_filter_None. by left.
  - apply map_lookup_filter_None. right. intros n _ H. by apply Ho.
Qed.

Section Move.
Context (old new : key) (Hon : outside old new) (Hno : outside new old).

Lemma swap_old r : swap old new (old ++ r) = new ++ r.
Proof.
  unfold swap. rewrite decide_True by by exists r. by rewrite drop_app_length.
Qed.

Lemma prefix_total (p : key) : old `prefix_of` p -> new `prefix_of` p -> False.
Proof. intros H1 H2. destruct (prefix_weak_total _ _ _ H1 H2); [by apply Hon|by apply Hno]. Qed.

Lemma swap_new r : swap old new (new ++ r) = old ++ r.
Proof.
  unfold swap. rewrite decide_False.
  - rewrite decide_True by by exists r. by rewrite drop_app_length.
  - intros H. apply (prefix_total _ H). by exists r.
Qed.

Lemma swap_other p : outside old p -> outside new p -> swap old new p = p.
Proof. intros H1 H2. unfold swap. by rewrite !decide_False. Qed.

Lemma swap_swap p : swap old new (swap old new p) = p.
Proof.
  destruct (decide (old `prefix_of` p)) as [[r ->]|H1]; [by rewrite swap_old, swap_new|].
  destruct (decide (new `prefix_of` p)) as [[r ->]|H2]; [by rewrite swap_new, swap_old|].
  rewrite (swap_other p H1 H2). exact (swap_other p H1 H2).
Qed.

#[local] Instance swap_inj : Inj (=) (=) (swap old new).
Proof. intros p q E. by rewrite <-(swap_swap p), E, swap_swap. Qed.

Lemma move_swap m p : move old new m !! swap old new p = if decide (outside new p) then m !! p else None.
Proof.
  unfold move. rewrite lookup_kmap by apply _. apply (remove_all_lookup new m p).
Qed.

Lemma move_to m r : move old new m !! (new ++ r) = m !! (old ++ r).
Proof.
  rewrite <-swap_old, move_swap. rewrite decide_True; [done|].
  intros H. apply (prefix_total (old ++ r)); [by exists r|done].
Qed.

Lemma move_from m r : move old new m !! (old ++ r) = None.
Proof. rewrite <-swap_new, move_swap. apply decide_False, outside_app. Qed.

Lemma move_other m p : outside old p -> outside new p -> move old new m !! p = m !! p.
Proof. intros H1 H2. rewrite <-(swap_other p) at 1 by done. by rewrite move_swap, decide_True. Qed.
End Move.

(** ** Reasoning on calls

    [steady R w]: what the others do at each turn is in [R].  A triple holds
    of a call when, the others keeping to [R], it takes a file system with
    [P] to one with [Q] of its result; the turns it takes are the first. *)

Definition steady (R : fs -> fs -> Prop) (w : world) : Prop :=
  Forall (fun t => forall m, R m (others t m)) (w_turns w).
Definition suffix_turns (w w' : world) : Prop := exists used, w_turns w = used ++ w_turns w'.

Definition triple {E A : Type} (R : fs -> fs -> Prop) (P : fs -> Prop) (c : M E A) (Q : result E A -> fs -> Prop) : Prop :=
  forall w, steady R w -> P (w_fs w) -> suffix_turns w (c w).1 /\ Q (c w).2 (w_fs (c w).1).

Lemma steady_suffix R w w' : suffix_turns w w' -> steady R w -> steady R w'.
Proof. intros [used E]. unfold steady. rewrite E. by intros [_ H]%Forall_app. Qed.

Lemma suffix_trans w1 w2 w3 : suffix_turns w1 w2 -> suffix_turns w2 w3 -> suffix_turns w1 w3.
Proof. intros [u1 E1] [u2 E2]. exists (u1 ++ u2). by rewrite E1, E2, app_assoc. Qed.

Section Triples.
Context (R : fs -> fs -> Prop) {E F : Type}.

Lemma triple_ret {A : Type} (x : A) P Q : (forall m, P m -> Q (Ok x) m) -> triple R P (mret (E:=E) x) Q.
Proof. intros H w _ HP. split; [by exists []|by apply H]. Qed.

Lemma triple_fail {A : Type} (e : E) P (Q : result E A -> _) : (forall m, P m -> Q (Err e) m) -> triple R P (fail e) Q.
Proof. intros H w _ HP. split; [by exists []|by apply H]. Qed.

Lemma triple_bind {A B : Type} (c : M E A) (k : A -> M E B) P Q1 Q :
  triple R P c Q1 -> (forall x, triple R (Q1 (Ok x)) (k x) Q) -> (forall e m, Q1 (Err e) m -> Q (Err e) m) ->
  triple R P (mbind c k) Q.
Proof.
  intros Hc Hk He w Hw HP. destruct (Hc w Hw HP) as [Hs HQ]. unfold mbind.
  destruct (c w) as [w' r]. cbn [fst snd] in *. destruct r as [x|e]; [|by split; [|apply He]].
  destruct (Hk x w' (steady_suffix _ _ _ Hs Hw) HQ) as [Hs' HQ']. split; [by eapply suffix_trans|done].
Qed.

Lemma triple_wrap {A : Type} (f : E -> F) (c : M E A) P (Q : result F A -> _) :
  triple R P c (fun r => Q (rwrap f r)) -> triple R P (wrap f c) Q.
Proof. intros H w Hw HP. specialize (H w Hw HP). unfold wrap. by destruct (c w). Qed.

Lemma triple_attempt {A : Type} (c : M E A) P (Q : result F (result E A) -> _) :
  triple R P c (fun r => Q (Ok r)) -> triple R P (attempt c) Q.
Proof. intros H w Hw HP. specialize (H w Hw HP). unfold attempt. by destruct (c w). Qed.

Lemma triple_conseq {A : Type} (c : M E A) (P P' : fs -> Prop) (Q Q' : result E A -> fs -> Prop) :
  triple R P c Q -> (forall m, P' m -> P m) -> (forall r m, Q r m -> Q' r m) -> triple R P' c Q'.
Proof. intros H HP HQ w Hw Hm. destruct (H w Hw (HP _ Hm)). split; [done|by apply HQ]. Qed.
End Triples.

Lemma triple_syscall {A : Type} (R : fs -> fs -> Prop) (f : fs -> fs * result error A) (P : fs -> Prop) Q :
  (forall m m', P m -> R m m' -> P m') -> (forall m, P m -> Q (f m).2 (f m).1) -> (forall e m, P m -> Q (Err e) m) ->
  triple R P (syscall f) Q.
Proof.
  intros Hst Hf He w Hw HP. unfold syscall. unfold steady in Hw. destruct (w_turns w) as [|t ts] eqn:Et.
  - specialize (Hf _ HP). destruct (f (w_fs w)). split; [by exists []|done].
  - inversion Hw as [|? ? Ht _]; subst. pose proof (Hst _ _ HP (Ht _)) as HP'.
    destruct (refuse t); [split; [exists [t]; by rewrite Et|by apply He]|].
    specialize (Hf _ HP'). destruct (f _). split; [exists [t]; by rewrite Et|done].
Qed.

(** A call that looks only. *)
Lemma triple_stat (R : fs -> fs -> Prop) k (P : fs -> Prop) (Q : result error node -> fs -> Prop) :
  (forall m m', P m -> R m m' -> P m') ->
  (forall r m, P m -> match r with Ok n => node_at m k = Some n | Err _ => True end -> Q r m) ->
  triple R P (syscall (stat k)) Q.
Proof.
  intros Hst HQ. apply triple_syscall; [done| |by intros e m Hm; apply HQ].
  intros m Hm. unfold stat. cbn [fst snd]. apply HQ; [done|]. by destruct (node_at m k).
Qed.

Lemma with_parent_result k m new : (with_parent k m new).1 = m \/ (with_parent k m new).1 = new.
Proof. unfold with_parent. destruct (node_at _ _) as [[]|]; auto. Qed.

Lemma mkdir_other k m p : p <> k -> (mkdir k m).1 !! p = m !! p.
Proof.
  intros Hp. unfold mkdir. destruct (node_at m k); [done|].
  destruct (with_parent_result k m (<[k:=Directory]> m)) as [->| ->]; [done|by apply lookup_insert_ne].
Qed.

Lemma mkdir_made k m : (mkdir k m).2 = Ok tt -> node_at m k = None.
Proof. unfold mkdir. by destruct (node_at m k). Qed.

Lemma open_trunc_other {proc : Process} mode k m p : p <> k -> (open_trunc mode k m).1 !! p = m !! p.
Proof.
  intros Hp. unfold open_trunc. destruct (node_at m k) as [[]|]; [by apply lookup_insert_ne|done|].
  match goal with |- context[with_parent k m ?n] => destruct (with_parent_result k m n) as [->| ->] end;
    [done|by apply lookup_insert_ne].
Qed.

Lemma append_other data k m p : p <> k -> (append data k m).1 !! p = m !! p.
Proof. intros Hp. unfold append. destruct (m !! k) as [[]|]; cbn; [by apply lookup_insert_ne|done|done]. Qed.

(** [mkdir_all] touches the directories on the way only. *)
Lemma mkdir_all_frame (R : fs -> fs -> Prop) (P : fs -> Prop) rk :
  (forall m m', P m -> R m m' -> P m') ->
  (forall k m, k `prefix_of` rev rk -> P m -> P (mkdir k m).1) ->
  triple R P (mkdir_all rk) (fun _ => P).
Proof.
  intros Hst. induction rk as [|x up IH]; intros HP; [by apply triple_ret|]. cbn [mkdir_all].
  apply (triple_bind _ _ _ _ (fun _ => P)); [|intros [[|]|]|done].
  - apply triple_attempt, triple_stat; auto.
  - by apply triple_fail.
  - by apply triple_ret.
  - apply (triple_bind _ _ _ _ (fun _ => P)); [|intros []|done].
    { apply IH. intros k m Hk. apply HP. cbn [rev]. by apply prefix_app_r. }
    apply (triple_bind _ _ _ _ (fun _ => P)); [|intros [|e']|done].
    { apply triple_attempt, triple_syscall; [done| |done]. intros m. by apply HP. }
    { by apply triple_ret. }
    apply (triple_bind _ _ _ _ (fun _ => P)); [|intros [[]|]|done].
    { apply triple_attempt, triple_stat; auto. }
    all: first [by apply triple_ret|by apply triple_fail].
Qed.

(** ** More on clean paths and on renaming *)

Lemma elems_Clean p : elems (IsAbs p) [] (Clean p) = elems (IsAbs p) [] p.
Proof.
  rewrite Clean_unsplit. case_decide as Hd; [destruct Hd as [-> ->]; done|].
  unfold elems at 1. rewrite split_unsplit by apply well_split_elems.
  unfold elems. rewrite elems_replay; [done|by intros ->|constructor].
Qed.

Lemma Clean_Clean p : Clean (Clean p) = Clean p.
Proof. unfold Clean at 1. rewrite IsAbs_Clean, elems_Clean. reflexivity. Qed.

Lemma parts_Clean p : IsAbs p = false -> parts (Clean p) = parts p.
Proof. intros Ha. unfold parts. pose proof (elems_Clean p) as E. rewrite Ha in E. by rewrite E. Qed.

Lemma local_relative p : local_name (Clean p) = true -> IsAbs p = false.
Proof. unfold local_name. rewrite IsAbs_Clean. intros H. by bprop. Qed.

Lemma rename_result old new m :
  (exists e, rename old new m = (m, Err e)) \/
  (rename old new m = (m, Ok tt) /\ old = new) \/
  rename old new m = (move old new m, Ok tt).
Proof.
  unfold rename. destruct (node_at m old) as [n|]; [|eauto].
  case_bool_decide; [eauto|]. case_bool_decide; [eauto|].
  destruct (node_at m new) as [[]|].
  - destruct (is_file n); eauto.
  - destruct (is_file n); [eauto|]. destruct (has_children new m); eauto.
  - unfold with_parent. destruct (node_at m (parent new)) as [[]|]; eauto.
Qed.

(** What [Rename] may do is not to fail is to move. *)
Lemma triple_Rename {proc : Process} (R : fs -> fs -> Prop) old new (P : fs -> Prop) (Q : result error unit -> fs -> Prop) :
  (forall m m', P m -> R m m' -> P m') -> resolve old <> resolve new ->
  (forall m, P m -> Q (Ok tt) (move (resolve old) (resolve new) m)) -> (forall e m, P m -> Q (Err e) m) ->
  triple R P (Rename old new) Q.
Proof.
  intros Hst Hne Hok He.
  assert (Hs : triple R P (syscall (rename (resolve old) (resolve new))) Q).
  { apply triple_syscall; [done| |done]. intros m Hm.
    destruct (rename_result (resolve old) (resolve new) m) as [[e ->]|[[-> ?]| ->]]; [by apply He|done|by apply Hok]. }
  unfold Rename. apply (triple_bind _ _ _ _ (fun _ => P)); [|intros [[]|]|intros e m; apply He]; [|done| |done].
  { apply triple_attempt, triple_stat; auto. }
  apply (triple_bind _ _ _ _ (fun _ => P)); [|intros _|intros e m; apply He].
  - apply triple_stat; auto.
  - rewrite bool_decide_false by done. apply triple_fail. auto.
Qed.

(** A removal either takes place or was refused. *)
Lemma RemoveAll_runs {proc : Process} (R : fs -> fs -> Prop) (P : fs -> Prop) name w :
  (forall m m', P m -> R m m' -> P m') -> steady R w -> P (w_fs w) ->
  let w' := (RemoveAll name w).1 in
  suffix_turns w w' /\
  ((exists m, P m /\ w_fs w' = (remove_all (resolve name) m).1) \/
   (P (w_fs w') /\ exists t, w_turns w = t :: w_turns w' /\ is_Some (refuse t))).
Proof.
  intros Hst Hw HP. unfold RemoveAll, syscall. unfold steady in Hw. destruct (w_turns w) as [|t ts] eqn:Et.
  - split; [by exists []|]. left. by eexists.
  - inversion Hw as [|? ? Ht _]; subst. pose proof (Hst _ _ HP (Ht _)) as HP'.
    destruct (refuse t) as [e|] eqn:Er; (split; [exists [t]; by rewrite Et|]).
    + right. split; [done|]. exists t. by rewrite Er.
    + left. by eexists.
Qed.

Lemma triple_MkdirTemp {proc : Process} (R : fs -> fs -> Prop) dir prefix randoms (P : fs -> Prop) (Q : result error bytes -> fs -> Prop) :
  (forall m m', P m -> R m m' -> P m') -> (forall e m, P m -> Q (Err e) m) ->
  (forall r m, r ∈ randoms -> P m -> let name := dir ++ "/" ++ prefix ++ dec (Z.of_N r) in
     node_at m (resolve name) = None -> Q (Ok name) (<[resolve name := Directory]> m)) ->
  triple R P (MkdirTemp dir prefix randoms) Q.
Proof.
  intros Hst He. induction randoms as [|r rs IH]; intros Hok; cbn [MkdirTemp]; [by apply triple_fail; auto|].
  cbv zeta. set (name := dir ++ "/" ++ prefix ++ dec (Z.of_N r)).
  apply (triple_bind _ _ _ _ (fun x m => match x with Ok (Ok _) => Q (Ok name) m | _ => P m end)); [|intros [[]|e]|done].
  - apply triple_attempt, triple_syscall; [done| |done]. intros m Hm. unfold mkdir.
    destruct (node_at m (resolve name)) eqn:En; [done|]. unfold with_parent.
    destruct (node_at m (parent _)) as [[]|]; cbn [fst snd]; [done| |done].
    apply (Hok r); [set_solver|done|done].
  - by apply triple_ret.
  - destruct (IsExist e); [|apply triple_fail; auto]. apply IH. intros r' m Hr'. apply Hok. set_solver.
Qed.

(** Every node but the root's children has a directory above it. *)
Definition tree (m : fs) : Prop := forall p c, p <> [] -> is_Some (m !! (p ++ [c])) -> m !! p = Some Directory.

Lemma tree_nothing_below m k r : tree m -> k <> [] -> m !! k = None -> m !! (k ++ r) = None.
Proof.
  intros Ht Hk Hn. induction r as [|c r IH] using rev_ind; [by rewrite app_nil_r|].
  apply eq_None_not_Some. rewrite app_assoc. intros Hs.
  assert (m !! (k ++ r) = Some Directory) as X; [|congruence].
  apply (Ht _ c); [by destruct k|done].
Qed.

Lemma sibling_outside k a b r : a <> b -> outside (k ++ [a]) (k ++ b :: r).
Proof. intros Hab [l H]. rewrite <-app_assoc in H. apply app_inv_head in H. cbn in H. congruence. Qed.
