(* ===== verification/Extract.v ===== *)
(** * provider/vk/captchasolve/embedded: the bundled browser (extract.go)

    Unpacking the archive into the user's cache: names that leave the
    destination are refused, the work is done in a scratch directory that is
    renamed into place, and whatever fails leaves nothing behind.  What
    archive/zip makes of the archive is an argument. *)

From stdpp Require Import gmap.
From S2P Require Import Prelude GoStrings GoErrors NetIP GoFiles.

(** A [zip.File] as the program sees it: what [FileInfo().IsDir] and
    [Mode().Perm] answer, and [Open], whose reader yields bytes and then
    perhaps an error. *)
Record zip_File := mkFile {
  Name : bytes;
  IsDir : bool;
  Perm : Z;
  Open : result error (bytes * option error) }.

Inductive zip_error :=
| OpenZip (e : error)
| UnsafePath (name : bytes)
| EscapesDestination (name : bytes)
| MkdirEntry (dst : bytes) (e : error)
| MkdirParent (dir : bytes) (e : error)
| OpenEntry (name : bytes) (e : error)
| CreateEntry (dst : bytes) (e : error)
| CopyEntry (name : bytes) (e : error).

Inductive extract_error :=
| ErrUnsupportedPlatform
| CacheDir (e : error)
| MkdirCacheRoot (e : error)
| Mktemp (e : error)
| Unzip (e : zip_error)
| MissingBinary (sub : bytes)
| RenameScratch (e : error).

Section Extract.
Context {proc : Process} (NewReader : bytes -> result error (list zip_File)).

(** The copy is one write; a refused one leaves the file empty. *)
Definition writeZipEntry (f : zip_File) (dst : bytes) (mode : Z) : M zip_error unit :=
  match Open f with
  | Err e => fail (OpenEntry (Name f) e)
  | Ok (data, err) =>
      let! _ := wrap (CreateEntry dst) (syscall (open_trunc mode (resolve dst))) in
      let! _ := wrap (CopyEntry (Name f)) (syscall (append data (resolve dst))) in
      match err with Some e => fail (CopyEntry (Name f) e) | None => mret tt end
  end.

(** The test of the destination against the root. *)
Definition escapes (dstRoot dst : bytes) : bool :=
  negb (HasPrefix (Clean dst ++ "/") (Clean dstRoot ++ "/")) && negb (Clean dst =s? Clean dstRoot).

Definition file_mode (f : zip_File) : Z := if (Perm f =? 0)%Z then 420 (* 0o644 *) else Perm f.

Definition unzip_entry (dstRoot : bytes) (f : zip_File) : M zip_error unit :=
  let name := Clean (Name f) in
  if HasPrefix name ".." || IsAbs name then fail (UnsafePath (Name f))
  else
    let dst := path_Join [dstRoot; name] in
    if escapes dstRoot dst then fail (EscapesDestination (Name f))
    else if IsDir f then wrap (MkdirEntry dst) (MkdirAll dst)
    else
      let! _ := wrap (MkdirParent (Dir dst)) (MkdirAll (Dir dst)) in
      writeZipEntry f dst (file_mode f).

Fixpoint unzip_files (dstRoot : bytes) (files : list zip_File) : M zip_error unit :=
  match files with
  | [] => mret tt
  | f :: files => let! _ := unzip_entry dstRoot f in unzip_files dstRoot files
  end.

Definition unzip (zipBytes : bytes) (dstRoot : bytes) : M zip_error unit :=
  match NewReader zipBytes with
  | Err e => fail (OpenZip e)
  | Ok files => unzip_files dstRoot files
  end.

(** From [os.UserCacheDir]'s answer. *)
Definition chromiumCacheRoot (UserCacheDir : result error bytes) : result error bytes :=
  let* base := UserCacheDir in Ok (path_Join [base; "wgturn"%go; "chromium"%go]).

Definition versionDir (cacheRoot version platformTag : bytes) : bytes :=
  path_Join [cacheRoot; version ++ "-" ++ platformTag].

(** [err == nil && !st.IsDir()]. *)
Definition present (st : result error node) : bool :=
  match st with Ok n => is_file n | Err _ => false end.

(** What is done with the scratch directory: the path returned and
    [scratchOK]. *)
Definition install (zipBytes : bytes) (scratch versionDir binaryPath sub : bytes) : M extract_error (bytes * bool) :=
  let! _ := wrap Unzip (unzip zipBytes scratch) in
  let! st := attempt (Stat (path_Join [scratch; sub])) in
  if negb (present st) then fail (MissingBinary sub)
  else
    let! renamed := attempt (Rename scratch versionDir) in
    match renamed with
    | Ok _ => mret (binaryPath, true)
    | Err e =>
        let! st := attempt (Stat binaryPath) in
        if present st then mret (binaryPath, false) else fail (RenameScratch e)
    end.

(** The deferred removal. *)
Definition with_scratch (scratch : bytes) (c : M extract_error (bytes * bool)) : M extract_error bytes :=
  let! r := attempt c in
  match r with
  | Ok (path, true) => mret path
  | Ok (path, false) => let! _ := attempt (RemoveAll scratch) in mret path
  | Err e => let! _ := attempt (RemoveAll scratch) in fail e
  end.

Definition scratchPattern : bytes := ".extract-".

(** [randoms]: the numbers [os.MkdirTemp] draws. *)
Definition extractFrom (UserCacheDir : result error bytes) (randoms : list N)
    (zipBytes version platformTag binarySubpath : bytes) : M extract_error bytes :=
  match chromiumCacheRoot UserCacheDir with
  | Err e => fail (CacheDir e)
  | Ok cacheRoot =>
      let versionDir := versionDir cacheRoot version platformTag in
      let binaryPath := path_Join [versionDir; binarySubpath] in
      let! st := attempt (Stat binaryPath) in
      if present st then mret binaryPath
      else
        let! _ := wrap MkdirCacheRoot (MkdirAll cacheRoot) in
        let! scratch := wrap Mktemp (MkdirTemp cacheRoot scratchPattern randoms) in
        with_scratch scratch (install zipBytes scratch versionDir binaryPath binarySubpath)
  end.

(** [Extract] on the constants of the build. *)
Definition Extract (UserCacheDir : result error bytes) (randoms : list N)
    (chromiumZip chromiumVersion chromiumPlatform chromiumBinary : bytes) : M extract_error bytes :=
  if (length chromiumZip =? 0)%nat then fail ErrUnsupportedPlatform
  else extractFrom UserCacheDir randoms chromiumZip chromiumVersion chromiumPlatform chromiumBinary.
End Extract.

(** ** Where an archive is unpacked *)

(** Keys above or below [k]. *)
Definition related (k p : key) : Prop := k `prefix_of` p \/ p `prefix_of` k.

(** What only depends on the other keys. *)
Definition ignores (k : key) (P : fs -> Prop) : Prop :=
  forall m m', P m -> (forall p, ~ related k p -> m' !! p = m !! p) -> P m'.

(** A path whose last element is normal. *)
Definition ends_normal (p : bytes) : Prop :=
  p <> [] /\ exists c st, elems (IsAbs p) [] p = c :: st /\ normal c.

Lemma related_below k l p : p `prefix_of` k ++ l -> related k p.
Proof. intros H. destruct (prefix_weak_total k p (k ++ l)) as [?|?]; [by exists l|done|by left|by right]. Qed.

Lemma ignores_at k (P : fs -> Prop) p m m' :
  ignores k P -> related k p -> (forall q, q <> p -> m' !! q = m !! q) -> P m -> P m'.
Proof. intros HP Hp Hq Hm. apply (HP m); [done|]. intros q Hr. apply Hq. by intros ->. Qed.

Section Frame.
Context {proc : Process} (R : fs -> fs -> Prop) (root : bytes) (P : fs -> Prop).
Hypothesis Hroot : ends_normal root.
Hypothesis Hst : forall m m', P m -> R m m' -> P m'.
Hypothesis HP : ignores (resolve root) P.

Lemma MkdirAll_frame p l : resolve p `prefix_of` resolve root ++ l -> triple R P (MkdirAll p) (fun _ => P).
Proof.
  intros Hp. apply mkdir_all_frame; [done|]. intros k m Hk. rewrite rev_involutive in Hk.
  apply (ignores_at (resolve root) _ k); [done| |by intros; apply mkdir_other].
  apply (related_below _ l). by etrans.
Qed.

Lemma writeZipEntry_frame f dst mode : related (resolve root) (resolve dst) ->
  triple R P (writeZipEntry f dst mode) (fun _ => P).
Proof.
  intros Hd. unfold writeZipEntry. destruct (Open f) as [[data err]|]; [|by apply triple_fail].
  apply (triple_bind _ _ _ _ (fun _ => P)); [|intros _|done].
  - apply triple_wrap, triple_syscall; [done| |done].
    intros m. apply (ignores_at _ _ _ _ _ HP Hd). intros. by apply open_trunc_other.
  - apply (triple_bind _ _ _ _ (fun _ => P)); [|intros _|done].
    + apply triple_wrap, triple_syscall; [done| |done].
      intros m. apply (ignores_at _ _ _ _ _ HP Hd). intros. by apply append_other.
    + destruct err; [by apply triple_fail|by apply triple_ret].
Qed.

Lemma unzip_entry_frame f : triple R P (unzip_entry root f) (fun _ => P).
Proof.
  unfold unzip_entry. destruct (_ || _) eqn:El; [by apply triple_fail|].
  destruct (escapes _ _); [by apply triple_fail|].
  assert (Hl : local_name (Clean (Clean (Name f))) = true).
  { rewrite Clean_Clean. unfold local_name. by rewrite El. }
  destruct Hroot as (Hne & c & st & Hc & Hn).
  destruct (IsDir f).
  - apply triple_wrap, (MkdirAll_frame _ (parts (Clean (Name f)))). by rewrite resolve_local.
  - apply (triple_bind _ _ _ _ (fun _ => P)); [|intros _|done].
    + apply triple_wrap, (MkdirAll_frame _ (parts (Clean (Name f)))).
      rewrite (resolve_Dir_local _ _ c st) by done. unfold parent. eexists. symmetry. apply take_drop.
    + apply writeZipEntry_frame. rewrite resolve_local by done. left. by eexists.
Qed.

(** Whatever the archive, [unzip] changes nothing but the tree at its root
    and the directories above it. *)
Lemma unzip_frame NewReader zip : triple R P (unzip NewReader zip root) (fun _ => P).
Proof.
  unfold unzip. destruct (NewReader zip) as [files|]; [|by apply triple_fail].
  induction files as [|f files IH]; [by apply triple_ret|]. cbn [unzip_files].
  apply (triple_bind _ _ _ _ (fun _ => P)); [apply unzip_entry_frame|intros _; apply IH|done].
Qed.
End Frame.

(** ** The paths of one extraction *)

Lemma Clean_ne p : Clean p <> [].
Proof. unfold Clean. destruct (IsAbs p); [done|]. destruct (rev _) as [|[] []] eqn:E; try done.
  pose proof (well_split_elems false p) as H. rewrite E in H. by inversion H as [|? ? [? _]].
Qed.

Lemma cache_ends_normal base : ends_normal (path_Join [base; "wgturn"%go; "chromium"%go]).
Proof.
  assert (exists q, path_Join [base; "wgturn"%go; "chromium"%go] = Clean (q ++ "/" ++ "chromium") /\ q <> []) as (q & -> & Hq).
  { destruct base as [|x b]; [by exists "wgturn"%go|]. exists ((x :: b) ++ "/" ++ "wgturn"). split; [|done].
    change (path_Join [x :: b; "wgturn"%go; "chromium"%go]) with (Clean ((x :: b) ++ "/" ++ "wgturn" ++ "/" ++ "chromium")).
    f_equal. by rewrite <-!app_assoc. }
  split; [apply Clean_ne|]. rewrite IsAbs_Clean, elems_Clean, elems_local by done.
  do 2 eexists. split; [cbn; reflexivity|]. by split.
Qed.

Lemma dash_normal c : x2d ∈ c -> normal c.
Proof.
  intros Hc. split.
  - unfold skipped. destruct (seqb_spec c []) as [->|]; [set_solver|].
    destruct (seqb_spec c ".") as [->|]; [|done]. apply elem_of_cons in Hc as [|?%elem_of_nil]; done.
  - intros ->. apply elem_of_cons in Hc as [|[|?%elem_of_nil]%elem_of_cons]; done.
Qed.

(** The tests of the names a build gives. *)
Definition good_version (version platformTag : bytes) : Prop :=
  (x2f ∉ version ++ platformTag) /\ HasPrefix (version ++ "-" ++ platformTag) scratchPattern = false.

Definition scratch_name (r : N) : bytes := scratchPattern ++ dec (Z.of_N r).

Lemma scratch_name_ok r : normal (scratch_name r) /\ x2f ∉ scratch_name r.
Proof.
  unfold scratch_name. split; [apply dash_normal; set_solver|].
  assert (x2f ∉ scratchPattern) by by apply (bool_decide_unpack _).
  intros [H'|H']%elem_of_app; [done|]. revert H'. apply digits_not_in; [|done]. by apply dec_spec; lia.
Qed.

Section Paths.
Context {proc : Process} (base version tag : bytes).
Let cacheRoot := path_Join [base; "wgturn"%go; "chromium"%go].
Let vt := version ++ "-" ++ tag.
Hypothesis Hv : good_version version tag.

Lemma resolve_versionDir : resolve (versionDir cacheRoot version tag) = resolve cacheRoot ++ [vt].
Proof.
  destruct Hv as [Hs _]. unfold versionDir. rewrite resolve_Join by apply cache_ends_normal.
  fold vt. unfold elems. rewrite split_byte_none.
  - cbn [fold_left]. rewrite clean_step_normal by (apply dash_normal; unfold vt; set_solver).
    cbn [rev]. by rewrite rev_involutive.
  - unfold vt. intros [Hi|[Hi|Hi]%elem_of_app]%elem_of_app; [set_solver| |set_solver].
    by apply elem_of_cons in Hi as [|?%elem_of_nil].
Qed.

Lemma resolve_binary sub : local_name (Clean sub) = true ->
  resolve (path_Join [versionDir cacheRoot version tag; sub]) = resolve cacheRoot ++ vt :: parts sub.
Proof.
  intros Hsub. rewrite resolve_local, resolve_versionDir, <-app_assoc; [done| |done].
  unfold versionDir. rewrite path_Join_two by apply cache_ends_normal. apply Clean_ne.
Qed.

Definition scratch_at (r : N) : bytes := cacheRoot ++ "/" ++ scratch_name r.

Lemma resolve_scratch r : resolve (scratch_at r) = resolve cacheRoot ++ [scratch_name r].
Proof. apply resolve_snoc; [apply cache_ends_normal|apply scratch_name_ok..]. Qed.

Lemma scratch_ends_normal r : ends_normal (scratch_at r).
Proof.
  destruct (cache_ends_normal base) as (Hne & _). split; [unfold scratch_at; fold cacheRoot in Hne; by destruct cacheRoot|].
  unfold scratch_at. exists (scratch_name r), (elems (IsAbs cacheRoot) [] cacheRoot).
  destruct (scratch_name_ok r) as [Hn Hs]. split; [|done]. rewrite IsAbs_app by done.
  unfold elems. cbn [app]. rewrite split_byte_cat, fold_left_app, (split_byte_none _ (scratch_name r)) by done.
  cbn [fold_left]. by rewrite clean_step_normal.
Qed.

Lemma version_not_scratch r : vt <> scratch_name r.
Proof.
  destruct Hv as [_ Hp]. intros E. fold vt in Hp. rewrite E in Hp. unfold scratch_name in Hp.
  by rewrite HasPrefix_app in Hp.
Qed.
End Paths.

(** ** What an extraction leaves *)

Definition file_at (m : fs) (k : key) : Prop := exists data mode, m !! k = Some (File data mode).

(** Others that leave alone the keys of [U] and do not take a binary away. *)
Definition leaving (U : key -> Prop) (binary : key) (m m' : fs) : Prop :=
  (forall p, U p -> m' !! p = m !! p) /\ (file_at m binary -> file_at m' binary).

(** The last call of a run was refused. *)
Definition last_refused (w w' : world) : Prop :=
  exists used t, w_turns w = used ++ t :: w_turns w' /\ is_Some (refuse t).

Section Leaves.
Context {proc : Process} (NewReader : bytes -> result error (list zip_File)) (zip base version tag sub : bytes).
Let cacheRoot := path_Join [base; "wgturn"%go; "chromium"%go].
Let ck := resolve cacheRoot.
Let vk := ck ++ [version ++ "-" ++ tag].
Let vdir := versionDir cacheRoot version tag.
Let binaryPath := path_Join [vdir; sub].
Let bk := vk ++ parts sub.
Let sk r := ck ++ [scratch_name r].
Context (U : key -> Prop) (m0 : fs).
Hypothesis Hv : good_version version tag.
Hypothesis Hsub : local_name (Clean sub) = true.

Let R := leaving U bk.
Definition kept (S : key -> Prop) (m : fs) : Prop :=
  forall p, U p -> ~ p `prefix_of` ck -> S p -> m !! p = m0 !! p.
Definition in_scratch r (m : fs) : Prop := kept (outside (sk r)) m /\ forall l, m0 !! (sk r ++ l) = None.

Lemma kept_stable S m m' : kept S m -> R m m' -> kept S m'.
Proof. intros H [HU _] p Hp Hc HS. rewrite HU by done. by apply H. Qed.

Lemma in_scratch_stable r m m' : in_scratch r m -> R m m' -> in_scratch r m'.
Proof. intros [H ?] HR. split; [by eapply kept_stable|done]. Qed.

Lemma sk_ne r : sk r <> [].
Proof. intros [_ [=]]%app_eq_nil. Qed.

Lemma in_scratch_ignores r : ignores (sk r) (in_scratch r).
Proof.
  intros m m' [H Hn] Hm. split; [|done]. intros p Hp Hc Ho. rewrite Hm; [by apply H|].
  intros [?|Hpre]; [done|]. apply prefix_parent in Hpre as [->|Hpre]; [by apply Ho| |apply sk_ne].
  unfold sk in Hpre. by rewrite parent_snoc in Hpre.
Qed.

Lemma removed_scratch r m : in_scratch r m -> kept (fun _ => True) (remove_all (sk r) m).1.
Proof.
  intros [H Hn] p Hp Hc _. rewrite remove_all_lookup. case_decide as Ho; [by apply H|].
  apply dec_stable in Ho as [l ->]. by rewrite Hn.
Qed.

Lemma moved_scratch r m : in_scratch r m -> file_at m (sk r ++ parts sub) ->
  let m' := move (sk r) vk m in file_at m' bk /\ kept (outside vk) m'.
Proof.
  intros [H Hn] (d & md & Hf). pose proof (version_not_scratch version tag Hv r) as Hne.
  assert (Ho1 : outside (sk r) vk) by by apply sibling_outside, not_eq_sym.
  assert (Ho2 : outside vk (sk r)) by by apply sibling_outside.
  split.
  - exists d, md. unfold bk. by rewrite move_to.
  - intros p Hp Hc Ho. destruct (decide (outside (sk r) p)) as [Hs|Hs].
    + rewrite move_other by done. by apply H.
    + apply dec_stable in Hs as [l ->]. by rewrite move_from, Hn.
Qed.

(** ** The scratch directory's part *)

Variable r : N.
Hypothesis HU : forall p, sk r `prefix_of` p -> U p.

Lemma rename_scratch :
  triple R (fun m => in_scratch r m /\ file_at m (sk r ++ parts sub)) (Rename (scratch_at base r) vdir)
    (fun x m => match x with Ok _ => file_at m bk /\ kept (outside vk) m | Err _ => in_scratch r m end).
Proof.
  apply triple_Rename.
  - intros m m' [Hm (d & md & Hf)] HR. split; [by eapply in_scratch_stable|]. exists d, md.
    destruct HR as [HR _]. rewrite HR; [done|]. apply HU. by eexists.
  - rewrite resolve_scratch. unfold vdir, cacheRoot. rewrite resolve_versionDir by done. intros E.
    apply app_inv_head in E. injection E as E. by apply (version_not_scratch version tag Hv r).
  - intros m [Hm Hf]. rewrite resolve_scratch. unfold vdir, cacheRoot. rewrite resolve_versionDir by done.
    by apply moved_scratch.
  - by intros e m [? _].
Qed.

Lemma binary_resolves : resolve binaryPath = bk.
Proof.
  unfold binaryPath, vdir, cacheRoot. rewrite resolve_binary by done.
  unfold bk, vk, ck, cacheRoot. by rewrite <-app_assoc.
Qed.

Lemma bk_ne : bk <> [].
Proof. intros [[_ [=]]%app_eq_nil _]%app_eq_nil. Qed.

Lemma install_spec :
  triple R (in_scratch r) (install NewReader zip (scratch_at base r) vdir binaryPath sub)
    (fun x m => match x with
     | Ok (path, true) => path = binaryPath /\ file_at m bk /\ kept (outside vk) m
     | Ok (path, false) => path = binaryPath /\ in_scratch r m /\ file_at m bk
     | Err _ => in_scratch r m
     end).
Proof.
  unfold install. pose proof (in_scratch_stable r) as Hst.
  apply (triple_bind _ _ _ _ (fun _ => in_scratch r)); [|intros _|done].
  { apply triple_wrap, unzip_frame; [apply scratch_ends_normal|done|].
    rewrite resolve_scratch. apply in_scratch_ignores. }
  apply (triple_bind _ _ _ _ (fun st m => in_scratch r m /\
    match st with Ok st => present st = true -> file_at m (sk r ++ parts sub) | Err _ => True end)); [|intros st|by intros e m [? _]].
  { apply triple_attempt, triple_stat; [done|]. intros x m Hm Hx. split; [done|].
    destruct x as [[d md|]|]; [intros _|done|done].
    rewrite resolve_local, resolve_scratch in Hx by (done || apply scratch_ends_normal).
    fold cacheRoot ck in Hx. fold (sk r) in Hx. rewrite node_at_ne in Hx by (intros [Hx' _]%app_eq_nil; by apply (sk_ne r)). by exists d, md. }
  destruct (present st); cbn [negb]; [|apply triple_fail; by intros m [? _]].
  apply (triple_bind _ _ _ _ (fun x m => match x with
    | Ok (Ok _) => file_at m bk /\ kept (outside vk) m | _ => in_scratch r m end)); [|intros [[]|e]|done].
  - apply triple_attempt. eapply triple_conseq; [apply rename_scratch| |done].
    intros m [? Hf]. split; [done|by apply Hf].
  - apply triple_ret. by intros m [? ?].
  - apply (triple_bind _ _ _ _ (fun st m => in_scratch r m /\
      match st with Ok st => present st = true -> file_at m bk | Err _ => True end)); [|intros st'|by intros e' m [? _]].
    { apply triple_attempt, triple_stat; [done|]. intros x m Hm Hx. split; [done|].
      destruct x as [[d md|]|]; [intros _|done|done].
      rewrite binary_resolves, node_at_ne in Hx by apply bk_ne. by exists d, md. }
    destruct (present st'); [apply triple_ret|apply triple_fail; by intros m [? _]].
    intros m [? Hf]. split; [done|]. split; [done|by apply Hf].
Qed.

(** After the deferred removal: gone, or its refusal was the last thing. *)
Definition cleaned (w w' : world) : Prop :=
  forall p, U p -> ~ p `prefix_of` ck ->
    w_fs w' !! p = m0 !! p \/ (sk r `prefix_of` p /\ last_refused w w').

Lemma removal_cleans (P : fs -> Prop) w w1 :
  suffix_turns w w1 -> (forall m m', P m -> R m m' -> P m') -> (forall m, P m -> in_scratch r m) ->
  steady R w1 -> P (w_fs w1) ->
  let w' := (RemoveAll (scratch_at base r) w1).1 in
  suffix_turns w w' /\ cleaned w w' /\
  (P (w_fs w') \/ exists m, P m /\ w_fs w' = (remove_all (sk r) m).1).
Proof.
  intros Hs Hst HP Hw Hm. destruct (RemoveAll_runs R P (scratch_at base r) w1 Hst Hw Hm) as [Hs' Hcase].
  split; [by eapply suffix_trans|]. rewrite resolve_scratch in Hcase.
  destruct Hcase as [(m & Hm' & E)|(Hm' & t & Et & Ht)].
  - split; [|by right; exists m]. intros p Hp Hc. left. rewrite E.
    by apply (removed_scratch r m (HP _ Hm')).
  - split; [|by left]. intros p Hp Hc. destruct (decide (outside (sk r) p)) as [Ho|Ho].
    + left. by apply (HP _ Hm').
    + right. split; [by apply dec_stable in Ho|]. destruct Hs as [used Eu].
      exists used, t. by rewrite Eu, Et.
Qed.

Lemma binary_kept m : file_at m bk -> file_at (remove_all (sk r) m).1 bk.
Proof.
  intros (d & md & Hf). exists d, md. rewrite remove_all_lookup, decide_True; [done|].
  unfold bk, vk, sk. rewrite <-app_assoc. by apply sibling_outside, not_eq_sym, version_not_scratch.
Qed.

Lemma with_scratch_runs w :
  steady R w -> in_scratch r (w_fs w) ->
  let '(w', x) := with_scratch (scratch_at base r) (install NewReader zip (scratch_at base r) vdir binaryPath sub) w in
  suffix_turns w w' /\
  (forall path, x = Ok path -> path = binaryPath /\ file_at (w_fs w') bk) /\
  (forall p, U p -> ~ p `prefix_of` ck -> (is_ok x = true -> outside vk p) ->
     w_fs w' !! p = m0 !! p \/ (sk r `prefix_of` p /\ last_refused w w')).
Proof.
  intros Hw Hm. destruct (install_spec w Hw Hm) as [Hs HQ].
  unfold with_scratch, mbind, attempt. destruct (install _ _ _ _ _ _ w) as [w1 x]. cbn [fst snd] in *.
  pose proof (steady_suffix _ _ _ Hs Hw) as Hw1. destruct x as [[path []]|e].
  - destruct HQ as (-> & Hf & Hk). split; [done|]. split; [by intros path [= <-]|].
    intros p Hp Hc Ho. left. by apply Hk, Ho.
  - destruct HQ as (-> & Hin & Hf).
    destruct (removal_cleans (fun m => in_scratch r m /\ file_at m bk) w w1) as (Hs' & Hcl & Hbk);
      [done| |tauto|done|done|].
    { intros m m' [Hi Hb] HR. split; [by eapply in_scratch_stable|by apply HR]. }
    destruct (RemoveAll _ w1) as [w' y]. cbn [fst mret] in *. split; [done|]. split.
    + intros path [= <-]. split; [done|].
      destruct Hbk as [[_ ?]|(m & [_ Hb] & ->)]; [done|by apply binary_kept].
    + intros p Hp Hc _. by apply Hcl.
  - destruct (removal_cleans (in_scratch r) w w1) as (Hs' & Hcl & _); [done|apply in_scratch_stable|done|done|done|].
    destruct (RemoveAll _ w1) as [w' y]. cbn [fst fail] in *. split; [done|]. split; [done|].
    intros p Hp Hc _. by apply Hcl.
Qed.
End Leaves.

(** ** A whole extraction *)

Section Whole.
Context {proc : Process} (NewReader : bytes -> result error (list zip_File)) (zip base version tag sub : bytes).
Let cacheRoot := path_Join [base; "wgturn"%go; "chromium"%go].
Let ck := resolve cacheRoot.
Let bk := ck ++ [version ++ "-" ++ tag] ++ parts sub.
Context (U : key -> Prop) (randoms : list N).
Hypothesis Hv : good_version version tag.
Hypothesis Hsub : local_name (Clean sub) = true.
Hypothesis HU : forall r p, r ∈ randoms -> resolve (scratch_at base r) `prefix_of` p -> U p.

Section From.
Context (m0 : fs).
Let R := leaving U bk.
Let unchanged := kept base U m0 (fun _ => True).

Lemma unchanged_stable m m' : unchanged m -> R m m' -> unchanged m'.
Proof. intros Hm [HL _] p Hp Hc Hs. rewrite HL by done. by apply Hm. Qed.

Lemma Stat_binary_spec :
  triple R unchanged (attempt (F:=extract_error) (Stat (path_Join [versionDir cacheRoot version tag; sub])))
    (fun st m => unchanged m /\ match st with Ok st => present st = true -> file_at m bk | Err _ => False end).
Proof.
  apply triple_attempt, triple_stat; [apply unchanged_stable|]. intros x m Hm Hx. split; [done|].
  destruct x as [[d md|]|]; [intros _|done|done]. unfold cacheRoot in Hx.
  rewrite resolve_binary, node_at_ne in Hx by (done || by intros [_ [=]]%app_eq_nil). by exists d, md.
Qed.

Lemma MkdirAll_root_spec : triple R unchanged (wrap MkdirCacheRoot (MkdirAll cacheRoot)) (fun _ => unchanged).
Proof.
  apply triple_wrap, mkdir_all_frame; [apply unchanged_stable|]. intros k m Hpre Hm p Hp Hc Hs.
  rewrite rev_involutive in Hpre. rewrite mkdir_other; [by apply Hm|]. by intros ->.
Qed.

Lemma MkdirTemp_spec : tree m0 ->
  triple R unchanged (wrap Mktemp (MkdirTemp cacheRoot scratchPattern randoms))
    (fun x m => match x with
     | Ok name => exists r, r ∈ randoms /\ name = scratch_at base r /\ in_scratch base U m0 r m
     | Err _ => unchanged m
     end).
Proof.
  intros Ht. apply triple_wrap, triple_MkdirTemp; [apply unchanged_stable|done|].
  intros r m Hr Hm. change (cacheRoot ++ "/" ++ scratchPattern ++ dec (Z.of_N r)) with (scratch_at base r).
  cbv zeta. rewrite resolve_scratch. fold cacheRoot ck. intros Hn. rewrite node_at_ne in Hn by (intros [_ [=]]%app_eq_nil).
  assert (Hpre : ~ (ck ++ [scratch_name r]) `prefix_of` ck).
  { intros [l Hl]. apply (f_equal length) in Hl. rewrite !length_app in Hl. cbn in Hl. lia. }
  exists r. split; [done|]. split; [done|]. split.
  - intros p Hp Hc Ho. rewrite lookup_insert_ne; [by apply Hm|]. intros <-. by apply Ho.
  - intros l. apply tree_nothing_below; [done|by intros [_ [=]]%app_eq_nil|].
    rewrite <-Hn. symmetry. apply Hm; [|done|done]. apply (HU r); [done|]. by rewrite resolve_scratch.
Qed.
End From.

Lemma extractFrom_runs w :
  tree (w_fs w) -> steady (leaving U bk) w ->
  let '(w', x) := extractFrom NewReader (Ok base) randoms zip version tag sub w in
  (forall path, x = Ok path -> path = path_Join [versionDir cacheRoot version tag; sub] /\ file_at (w_fs w') bk) /\
  (forall p, U p -> ~ p `prefix_of` ck -> (is_ok x = true -> outside (ck ++ [version ++ "-" ++ tag]) p) ->
     w_fs w' !! p = w_fs w !! p \/
     (exists r, r ∈ randoms /\ resolve (scratch_at base r) `prefix_of` p) /\ last_refused w w').
Proof.
  intros Ht Hw. unfold extractFrom. cbn [chromiumCacheRoot rbind]. fold cacheRoot.
  destruct (Stat_binary_spec (w_fs w) w Hw ltac:(done)) as [Hs0 HQ0]. unfold mbind at 1.
  destruct (attempt _ w) as [w0 [st|]]; cbn [fst snd] in *; [|tauto].
  destruct HQ0 as [Hm0 Hf]. pose proof (steady_suffix _ _ _ Hs0 Hw) as Hw0. destruct (present st).
  { split; [by intros path [= <-]; auto|]. intros p Hp Hc _. left. by apply Hm0. }
  destruct (MkdirAll_root_spec (w_fs w) w0 Hw0 Hm0) as [Hs1 HQ1]. unfold mbind at 1.
  destruct (wrap _ _ w0) as [w1 [[]|e]]; cbn [fst snd] in *; [|by split; [|intros p Hp Hc _; left; apply HQ1]].
  pose proof (steady_suffix _ _ _ Hs1 Hw0) as Hw1.
  destruct (MkdirTemp_spec (w_fs w) Ht w1 Hw1 HQ1) as [Hs2 HQ2]. unfold mbind.
  destruct (wrap Mktemp _ w1) as [w2 [name|e]]; cbn [fst snd] in *; [|by split; [|intros p Hp Hc _; left; apply HQ2]].
  destruct HQ2 as (r & Hr & -> & Hin). pose proof (steady_suffix _ _ _ Hs2 Hw1) as Hw2.
  assert (Hall : suffix_turns w w2) by eauto using suffix_trans.
  pose proof (with_scratch_runs NewReader zip base version tag sub U (w_fs w) Hv Hsub r) as Hrun.
  rewrite <-app_assoc in Hrun.
  specialize (Hrun ltac:(intros p Hp; apply (HU r p Hr); by rewrite resolve_scratch) w2 Hw2 Hin).
  fold cacheRoot ck in Hrun. destruct (with_scratch _ _ w2) as [w' x]. destruct Hrun as (Hs' & Hok & Hkeep).
  split; [exact Hok|]. intros p Hp Hc Ho. destruct (Hkeep p Hp Hc Ho) as [?|[Hpre Hl]]; [by left|right].
  split; [exists r; by rewrite resolve_scratch|]. destruct Hall as [used E], Hl as (u & t & E' & Ht').
  exists (used ++ u), t. by rewrite E, E', <-app_assoc.
Qed.
End Whole.

(** C20. Whatever the archive holds, whatever calls are refused and whatever
    other processes do meanwhile to files that are not the extraction's: a
    path [Extract] returns is the binary's and a file is there, and of all
    that the others leave alone nothing has changed but the directories above
    the cache and, on success, the version's directory; a scratch directory
    stays behind only when its removal was refused. *)
Theorem extraction_contained {proc : Process} NewReader zip base version tag sub randoms (U : key -> Prop) w :
  let cacheRoot := path_Join [base; "wgturn"%go; "chromium"%go] in
  let binary := path_Join [versionDir cacheRoot version tag; sub] in
  good_version version tag -> local_name (Clean sub) = true -> tree (w_fs w) ->
  steady (leaving U (resolve binary)) w ->
  (forall r p, r ∈ randoms -> resolve (scratch_at base r) `prefix_of` p -> U p) ->
  let '(w', x) := Extract NewReader (Ok base) randoms zip version tag sub w in
  (forall path, x = Ok path -> path = binary /\ file_at (w_fs w') (resolve path)) /\
  (forall p, U p -> ~ p `prefix_of` resolve cacheRoot ->
     (is_ok x = true -> outside (resolve (versionDir cacheRoot version tag)) p) ->
     w_fs w' !! p = w_fs w !! p \/
     (exists r, r ∈ randoms /\ resolve (scratch_at base r) `prefix_of` p) /\ last_refused w w').
Proof.
  cbv zeta. intros Hv Hsub Ht Hw HU. rewrite resolve_versionDir by done. rewrite resolve_binary in Hw by done.
  unfold Extract. destruct (length zip =? 0)%nat; [split; [done|by left]|].
  pose proof (extractFrom_runs NewReader zip base version tag sub U randoms Hv Hsub HU w Ht Hw) as H.
  destruct (extractFrom _ _ _ _ _ _ _ w) as [w' x]. destruct H as [Hok Hkeep]. split; [|done].
  intros path Hp. destruct (Hok path Hp) as [-> Hf]. split; [done|]. by rewrite resolve_binary.
Qed.

(** An archive that tries to leave, another process about, and a refusal. *)
Definition evil_archive : list zip_File :=
  [mkFile "hs/hs" false 493 (Ok ("ELF"%go, None)); mkFile "../../evil" false 420 (Ok ("x"%go, None))].
Definition busy_world : world :=
  mkWorld ∅ [mkTurn (fun m => <[["home"%go] := Directory]> m) None; mkTurn (fun m => m) (Some EINVAL)].
Definition home : Process := {| cwd := []; umask := 18 |}.

Lemma extraction_contained_witness :
  let '(w', x) := Extract (proc:=home) (fun _ => Ok evil_archive) (Ok "/cache"%go) [7%N] "PK" "1.0" "linux" "hs/hs" busy_world in
  x = Err (Unzip (UnsafePath "../../evil")) /\
  forall p, "cache"%go ∈ p -> ~ p `prefix_of` ["cache"%go; "wgturn"%go; "chromium"%go] ->
    w_fs w' !! p = None \/ last_refused busy_world w'.
Proof.
  assert (E : (Extract (proc:=home) (fun _ => Ok evil_archive) (Ok "/cache"%go) [7%N] "PK" "1.0" "linux" "hs/hs" busy_world).2
              = Err (Unzip (UnsafePath "../../evil"))) by (vm_compute; reflexivity).
  pose proof (extraction_contained (proc:=home) (fun _ => Ok evil_archive) "PK" "/cache" "1.0" "linux" "hs/hs" [7%N]
    (fun p => "cache"%go ∈ p) busy_world) as H. cbv zeta in H.
  destruct (Extract _ _ _ _ _ _ _ busy_world) as [w' x]. cbn [snd] in E. subst x.
  destruct H as [_ H].
  - split; [by apply (bool_decide_unpack _); vm_compute|reflexivity].
  - reflexivity.
  - intros p c _ [n Hn]. destruct (lookup_empty_Some _ _ Hn).
  - assert (Hne : forall p, "cache"%go ∈ p -> ["home"%go] <> p) by (intros p Hp <-; by apply list_elem_of_singleton in Hp).
    repeat constructor.
    + intros p Hp. apply lookup_insert_ne. by apply Hne.
    + intros (d & md & Hf). exists d, md. cbn [others]. rewrite lookup_insert_ne; [done|]. vm_compute. discriminate.
    + done.
  - intros r p Hr%list_elem_of_singleton [q ->]. subst r. apply elem_of_app. left.
    apply (bool_decide_unpack _). vm_compute. done.
  - split; [done|]. intros p Hp Hc. destruct (H p Hp) as [Ep|[_ Hl]]; [exact Hc|done| |by right].
    left. rewrite Ep. apply lookup_empty.
Defined.
