(* ===== verification/ExtractRun.v ===== *)
(** * captchasolve/embedded: an extraction that nothing disturbs

    With no other process about and no call refused, an archive whose names
    are in order is unpacked whole: each of its files is found under the
    version's directory with its contents and mode. *)

From stdpp Require Import gmap.
From S2P Require Import Prelude GoStrings GoErrors NetIP GoFiles Extract.

Definition quiet (m : fs) : world := mkWorld m [].

Lemma syscall_quiet {A : Type} (f : fs -> fs * result error A) m : syscall f (quiet m) = (quiet (f m).1, (f m).2).
Proof. unfold syscall. cbn. by destruct (f m). Qed.

(** No file stands in the way to [k]. *)
Definition clear_way (m : fs) (k : key) : Prop := forall p, p `prefix_of` k -> ~ file_at m p.

(** [m1] has more directories than [m], on the way to [k]. *)
Definition more_dirs (k : key) (m m1 : fs) : Prop :=
  forall p, m1 !! p = m !! p \/ (m !! p = None /\ p `prefix_of` k /\ m1 !! p = Some Directory).

Lemma more_dirs_refl k m : more_dirs k m m.
Proof. by left. Qed.

Lemma more_dirs_file k m m1 p : more_dirs k m m1 -> file_at m1 p -> file_at m p.
Proof. intros H (d & md & E). destruct (H p) as [E'|(_ & _ & E')]; [exists d, md|]; congruence. Qed.

Lemma more_dirs_keep k m m1 p n : more_dirs k m m1 -> m !! p = Some n -> m1 !! p = Some n.
Proof. intros H E. destruct (H p) as [E'|(E' & _)]; congruence. Qed.

Lemma node_at_file m p d md : node_at m p = Some (File d md) -> file_at m p.
Proof. destruct p; [done|]. by exists d, md. Qed.

Lemma mkdir_all_quiet m rk : clear_way m (rev rk) ->
  exists m1, mkdir_all rk (quiet m) = (quiet m1, Ok tt) /\ node_at m1 (rev rk) = Some Directory /\ more_dirs (rev rk) m m1.
Proof.
  revert m. induction rk as [|c up IH]; intros m Hc;
    [exists m; split; [done|]; split; [done|apply more_dirs_refl]|].
  cbn [mkdir_all]. unfold mbind at 1, attempt at 1. rewrite syscall_quiet. unfold stat. cbn [fst snd].
  destruct (node_at m (rev (c :: up))) as [[d md|]|] eqn:E.
  - destruct (Hc (rev (c :: up)) (reflexivity _)). exact (node_at_file _ _ _ _ E).
  - exists m. split; [done|]. split; [exact E|apply more_dirs_refl].
  - destruct (IH m) as (m1 & Hrun & Hup & Hmore).
    { intros p Hp. apply Hc. cbn [rev]. by apply prefix_app_r. }
    unfold mbind at 1. rewrite Hrun. unfold mbind, attempt. rewrite syscall_quiet.
    assert (Hk : rev (c :: up) <> []) by (intros [_ [=]]%app_eq_nil).
    rewrite node_at_ne in E by done.
    assert (E1 : m1 !! rev (c :: up) = None).
    { destruct (Hmore (rev (c :: up))) as [->|(_ & Hp & _)]; [done|].
      destruct Hp as [l Hl]. apply (f_equal length) in Hl. cbn in Hl. rewrite !length_app in Hl. cbn in Hl. lia. }
    unfold mkdir. rewrite node_at_ne, E1 by done. unfold with_parent. cbn [rev]. rewrite parent_snoc, Hup. cbn [fst snd].
    eexists. split; [reflexivity|]. split; [rewrite node_at_ne by (intros [_ [=]]%app_eq_nil); apply lookup_insert_eq|].
    intros p. destruct (decide (p = rev up ++ [c])) as [->|Hne].
    + right. split; [done|]. split; [done|apply lookup_insert_eq].
    + rewrite lookup_insert_ne by done. destruct (Hmore p) as [?|(? & ? & ?)]; [by left|right].
      split; [done|]. split; [by apply prefix_app_r|done].
Qed.

Lemma clear_way_more k q m m1 : more_dirs q m m1 -> clear_way m k -> clear_way m1 k.
Proof. intros H Hc p Hp Hf. eapply Hc; [exact Hp|]. by eapply more_dirs_file. Qed.

(** ** Archives in order *)

Definition data_of (f : zip_File) : bytes := match Open f with Ok (data, _) => data | Err _ => [] end.

(** An entry with a name below the root that opens and reads to its end; a
    file has a name of its own. *)
Definition sound_entry (f : zip_File) : Prop :=
  local_name (Clean (Name f)) = true /\
  (IsDir f = false -> parts (Name f) <> [] /\ exists data, Open f = Ok (data, None)).

(** A file's name is not the name of another entry nor of a directory above
    one. *)
Definition apart (f g : zip_File) : Prop :=
  (IsDir f = false -> ~ parts (Name f) `prefix_of` parts (Name g)) /\
  (IsDir g = false -> ~ parts (Name g) `prefix_of` parts (Name f)).

Definition sound_archive (files : list zip_File) : Prop := Forall sound_entry files /\ ForallOrdPairs apart files.

(** The test of the destination refuses nothing the test of the name has let
    through. *)
Lemma destination_test_redundant root name :
  ends_normal root -> local_name (Clean name) = true -> escapes root (path_Join [root; name]) = false.
Proof.
  intros (Hne & c & st & Hc & Hn) Hl. unfold escapes. rewrite path_Join_two, Clean_Clean by done.
  rewrite (Clean_unsplit (root ++ "/" ++ name)), (Clean_unsplit root), (IsAbs_app root) by done.
  rewrite decide_False by (intros [Ha He]; rewrite Ha in *; rewrite elems_local, Hc in He by done;
    by destruct (rev (parts name))).
  rewrite decide_False by (intros [Ha He]; rewrite Ha in *; congruence).
  rewrite elems_local, rev_app_distr, rev_involutive by done.
  assert (Ho : rev (elems (IsAbs root) [] root) <> []) by (rewrite Hc; intros [_ [=]]%app_eq_nil).
  revert Ho. generalize (rev (elems (IsAbs root) [] root)) (parts name). intros o ps Ho. unfold unsplit.
  destruct (decide (ps = [])) as [->|Hps]; [by rewrite app_nil_r, seqb_refl, andb_false_r|].
  rewrite Join_app by done. apply andb_false_iff. left. apply negb_false_iff, HasPrefix_true.
  eexists. rewrite <-!app_assoc. do 4 f_equal.
Qed.

(** ** Unpacking *)

Section Unzip.
Context {proc : Process} (root : bytes) (m0 : fs).
Hypothesis Hroot : ends_normal root.
Let k := resolve root.

Definition created (f : zip_File) : node := File (data_of f) (Z.land (file_mode f) (Z.lnot umask)).

(** After the entries [done]: their files are there, all there is below the
    root comes from [names], and nothing that was outside is gone, nor the root. *)
Record installed (done names : list zip_File) (m : fs) : Prop := {
  in_files : forall f, f ∈ done -> IsDir f = false -> m !! (k ++ parts (Name f)) = Some (created f);
  in_names : forall q n, q <> [] -> m !! (k ++ q) = Some n ->
    exists g, g ∈ names /\ q `prefix_of` parts (Name g) /\ (is_file n = true -> IsDir g = false /\ q = parts (Name g));
  in_way : clear_way m k;
  in_outside : forall p n, outside k p \/ p = k -> m0 !! p = Some n -> m !! p = Some n }.

Lemma clear_below done m f l :
  installed done done m -> Forall (fun g => apart g f) done -> l `prefix_of` parts (Name f) -> clear_way m (k ++ l).
Proof.
  intros Hi Ha Hl p Hp Hf. destruct (decide (k `prefix_of` p)) as [[q ->]|Ho].
  - apply prefix_app_inv in Hp. destruct (decide (q = [])) as [->|Hq].
    { rewrite app_nil_r in Hf. by apply (in_way _ _ _ Hi k). }
    destruct Hf as (d & md & E). destruct (in_names _ _ _ Hi q _ Hq E) as (g & Hg & _ & Hfile).
    destruct (Hfile eq_refl) as [Hd ->]. rewrite Forall_forall in Ha. exact (proj1 (Ha g Hg) Hd (transitivity Hp Hl)).
  - apply (in_way _ _ _ Hi p); [|done]. destruct (prefix_weak_total k p (k ++ l)) as [?|?]; [by exists l|done|done|done].
Qed.

Lemma installed_more done m m1 f l :
  installed done done m -> l `prefix_of` parts (Name f) -> more_dirs (k ++ l) m m1 -> installed done (done ++ [f]) m1.
Proof.
  intros Hi Hl Hmore. split.
  - intros g Hg Hd. eapply more_dirs_keep; [done|]. by apply (in_files _ _ _ Hi).
  - intros q n Hq E. destruct (Hmore (k ++ q)) as [E'|(_ & Hp & E')].
    + rewrite E' in E. destruct (in_names _ _ _ Hi q n Hq E) as (g & Hg & ?). exists g. split; [set_solver|done].
    + exists f. split; [set_solver|]. split; [etrans; [by eapply prefix_app_inv|done]|].
      rewrite E' in E. by injection E as <-.
  - eapply clear_way_more; [done|]. apply (in_way _ _ _ Hi).
  - intros p n Ho E. eapply more_dirs_keep; [done|]. by apply (in_outside _ _ _ Hi).
Qed.

Lemma installed_file done m f :
  installed done (done ++ [f]) m -> IsDir f = false -> parts (Name f) <> [] -> Forall (fun g => apart g f) done ->
  installed (done ++ [f]) (done ++ [f]) (<[k ++ parts (Name f) := created f]> m).
Proof.
  intros Hi Hd Hne Ha. rewrite Forall_forall in Ha. split.
  - intros g [Hg| ->%list_elem_of_singleton]%elem_of_app Hgd; [|apply lookup_insert_eq].
    rewrite lookup_insert_ne; [by apply (in_files _ _ _ Hi)|]. intros E. apply app_inv_head in E.
    apply (proj1 (Ha g Hg) Hgd). by rewrite E.
  - intros q n Hq E. destruct (decide (q = parts (Name f))) as [->|Hqf].
    + exists f. split; [set_solver|]. by split.
    + rewrite lookup_insert_ne in E by (intros E'; by apply app_inv_head in E'). by apply (in_names _ _ _ Hi).
  - intros p Hp (d & md & E). rewrite lookup_insert_ne in E.
    + apply (in_way _ _ _ Hi p Hp). by exists d, md.
    + intros <-. destruct Hp as [l Hl]. apply (f_equal length) in Hl. rewrite !length_app in Hl.
      by destruct (parts (Name f)); [|cbn in Hl; lia].
  - intros p n Ho E. rewrite lookup_insert_ne; [by apply (in_outside _ _ _ Hi)|]. intros <-.
    destruct Ho as [Ho|Ho]; [by apply outside_app in Ho|]. rewrite <-(app_nil_r k) in Ho at 2.
    by apply app_inv_head in Ho.
Qed.

Lemma mbind_quiet {E A B : Type} (c : M E A) (g : A -> M E B) m m1 x :
  c (quiet m) = (quiet m1, Ok x) -> mbind c g (quiet m) = g x (quiet m1).
Proof. unfold mbind. by intros ->. Qed.

Lemma writeZipEntry_quiet f dst m :
  sound_entry f -> IsDir f = false -> node_at m (parent (resolve dst)) = Some Directory -> resolve dst <> [] ->
  m !! resolve dst = None ->
  writeZipEntry f dst (file_mode f) (quiet m) = (quiet (<[resolve dst := created f]> m), Ok tt).
Proof.
  intros [_ Hs] Hd Hp Hne Hn. destruct (Hs Hd) as [_ [data Ho]]. unfold writeZipEntry, created, data_of. rewrite Ho.
  erewrite mbind_quiet.
  2: { unfold wrap. rewrite syscall_quiet. unfold open_trunc. rewrite node_at_ne, Hn by done.
       unfold with_parent. rewrite Hp. reflexivity. }
  erewrite mbind_quiet.
  2: { unfold wrap. rewrite syscall_quiet. unfold append. cbn [fst snd]. rewrite lookup_insert_eq. reflexivity. }
  cbn. by rewrite insert_insert_eq.
Qed.

Lemma parts_unclean f : sound_entry f -> parts (Clean (Name f)) = parts (Name f).
Proof. intros [Hl _]. by apply parts_Clean, local_relative. Qed.

Lemma unzip_entry_quiet done m f :
  installed done done m -> sound_entry f -> Forall (fun g => apart g f) done ->
  exists m1, unzip_entry root f (quiet m) = (quiet m1, Ok tt) /\ installed (done ++ [f]) (done ++ [f]) m1.
Proof.
  intros Hi Hs Ha. pose proof Hs as [Hl Hs']. unfold unzip_entry.
  assert (Hll : local_name (Clean (Clean (Name f))) = true) by by rewrite Clean_Clean.
  rewrite (proj1 (negb_true_iff _) Hl), destination_test_redundant by done.
  destruct Hroot as (Hne & c & st & Hc & Hn).
  assert (Hdst : resolve (path_Join [root; Clean (Name f)]) = k ++ parts (Name f)).
  { rewrite resolve_local by done. by rewrite parts_unclean. }
  destruct (IsDir f) eqn:Hd.
  - destruct (mkdir_all_quiet m (rev (k ++ parts (Name f)))) as (m1 & Hrun & _ & Hmore); rewrite ?rev_involutive in *.
    { by eapply clear_below. }
    exists m1. split; [unfold wrap, MkdirAll; by rewrite Hdst, Hrun|].
    destruct (installed_more _ _ _ f _ Hi (reflexivity _) Hmore) as [H1 H2 H3 H4]. split; try done.
    intros g [Hg| ->%list_elem_of_singleton]%elem_of_app Hgd; [by apply H1|congruence].
  - destruct (Hs' eq_refl) as [Hp _].
    assert (Hsnoc : exists l x, parts (Name f) = l ++ [x]).
    { destruct (parts (Name f)) as [|x l _] using rev_ind; [done|by exists l, x]. }
    destruct Hsnoc as (l & x & El).
    assert (Hdir : resolve (Dir (path_Join [root; Clean (Name f)])) = k ++ l).
    { rewrite (resolve_Dir_local _ _ c st) by done. rewrite parts_unclean by done. fold k.
      by rewrite El, app_assoc, parent_snoc. }
    assert (Hlp : l `prefix_of` parts (Name f)) by (rewrite El; by exists [x]).
    destruct (mkdir_all_quiet m (rev (k ++ l))) as (m1 & Hrun & Hnode & Hmore); rewrite ?rev_involutive in *.
    { by eapply clear_below. }
    erewrite mbind_quiet; [|unfold wrap, MkdirAll; rewrite Hdir, Hrun; reflexivity].
    rewrite writeZipEntry_quiet; [..|]; rewrite ?Hdst; try done.
    + eexists. split; [reflexivity|]. apply installed_file; try done. by eapply installed_more.
    + by rewrite El, app_assoc, parent_snoc.
    + intros [_ ?]%app_eq_nil; done.
    + destruct (Hmore (k ++ parts (Name f))) as [->|(_ & Hlong & _)].
      2: { apply prefix_app_inv, prefix_length in Hlong. rewrite El, length_app in Hlong. cbn in Hlong. lia. }
      apply eq_None_not_Some. intros [n E]. destruct (in_names _ _ _ Hi _ _ Hp E) as (g & Hg & Hpre & _).
      rewrite Forall_forall in Ha. exact (proj2 (Ha g Hg) Hd Hpre).
Qed.

Lemma unzip_files_quiet files done m :
  installed done done m -> Forall sound_entry files -> ForallOrdPairs apart files ->
  Forall (fun f => Forall (fun g => apart g f) done) files ->
  exists m1, unzip_files root files (quiet m) = (quiet m1, Ok tt) /\ installed (done ++ files) (done ++ files) m1.
Proof.
  intros Hi Hs Ho. revert done m Hi Hs. induction Ho as [|f files Hf Ho IH]; intros done m Hi Hs Ha.
  { exists m. by rewrite app_nil_r. }
  inversion Hs; inversion Ha; subst.
  destruct (unzip_entry_quiet done m f) as (m1 & Hrun & Hi1); [done..|].
  destruct (IH (done ++ [f]) m1 Hi1) as (m2 & Hrun' & Hi2); [done| |].
  - apply Forall_forall. intros g Hg. rewrite Forall_forall in Hf. apply Forall_app. split; [|by repeat constructor; apply Hf].
    match goal with H : Forall (fun f => Forall _ done) files |- _ => rewrite Forall_forall in H; by apply H end.
  - exists m2. cbn [unzip_files]. erewrite mbind_quiet by exact Hrun. by rewrite <-app_assoc in Hi2.
Qed.
End Unzip.

(** ** The whole *)

(** A machine on which this version was never unpacked. *)
Record fresh {proc : Process} (base version tag : bytes) (r : N) (m : fs) : Prop := {
  fr_tree : tree m;
  fr_way : clear_way m (resolve (path_Join [base; "wgturn"%go; "chromium"%go]));
  fr_version : m !! (resolve (path_Join [base; "wgturn"%go; "chromium"%go]) ++ [version ++ "-" ++ tag]) = None;
  fr_scratch : m !! resolve (scratch_at base r) = None }.

Section Whole.
Context {proc : Process} (NewReader : bytes -> result error (list zip_File)) (zip base version tag sub : bytes).
Let cacheRoot := path_Join [base; "wgturn"%go; "chromium"%go].
Let ck := resolve cacheRoot.
Let vk := ck ++ [version ++ "-" ++ tag].
Let vdir := versionDir cacheRoot version tag.
Hypothesis Hv : good_version version tag.
Hypothesis Hsub : local_name (Clean sub) = true.

Lemma extractFrom_present randoms m :
  file_at m (vk ++ parts sub) ->
  extractFrom NewReader (Ok base) randoms zip version tag sub (quiet m) = (quiet m, Ok (path_Join [vdir; sub])).
Proof.
  intros (d & md & E). unfold extractFrom. cbn [chromiumCacheRoot rbind].
  erewrite mbind_quiet.
  2: { unfold attempt, Stat. rewrite syscall_quiet. unfold stat. cbn [fst snd]. reflexivity. }
  rewrite resolve_binary by done. fold cacheRoot ck. unfold vk in E. rewrite <-app_assoc in E.
  rewrite node_at_ne by (intros [_ [=]]%app_eq_nil). cbn [app] in *. by rewrite E.
Qed.

Context (r : N) (files : list zip_File).
Let sk := ck ++ [scratch_name r].
Hypothesis Hzip : NewReader zip = Ok files.
Hypothesis Hfiles : sound_archive files.
Hypothesis Hbin : exists f, f ∈ files /\ IsDir f = false /\ parts (Name f) = parts sub.

(** The machine with the scratch directory made. *)
Definition ready (m : fs) : Prop :=
  (forall q, q <> [] -> m !! (sk ++ q) = None) /\ clear_way m sk /\ m !! sk = Some Directory /\
  m !! vk = None /\ node_at m ck = Some Directory.

Lemma vk_sk_apart : outside sk vk /\ outside vk sk.
Proof.
  pose proof (version_not_scratch version tag Hv r) as Hne.
  split; apply sibling_outside; [by apply not_eq_sym|done].
Qed.

Lemma unzip_keeps_version m m1 :
  unzip_files (scratch_at base r) files (quiet m) = (quiet m1, Ok tt) -> m !! vk = None -> m1 !! vk = None.
Proof.
  intros Hrun Hn. destruct vk_sk_apart as [Ho1 Ho2].
  pose proof (resolve_scratch base r) as Er. fold cacheRoot ck sk in Er.
  assert (Hfr : triple eq (fun m => m !! vk = None) (unzip NewReader zip (scratch_at base r)) (fun _ m => m !! vk = None)).
  { apply unzip_frame; [apply scratch_ends_normal|by intros ? ? ? <-|].
    intros m2 m3 E Hp. rewrite Hp; [done|]. rewrite Er. by intros [?|?]. }
  destruct (Hfr (quiet m)) as [_ HQ]; [constructor|done|].
  unfold unzip in HQ. by rewrite Hzip, Hrun in HQ.
Qed.

Lemma install_quiet m : ready m ->
  exists m1, install NewReader zip (scratch_at base r) vdir (path_Join [vdir; sub]) sub (quiet m)
               = (quiet m1, Ok (path_Join [vdir; sub], true)) /\
  forall f, f ∈ files -> IsDir f = false -> m1 !! (vk ++ parts (Name f)) = Some (created f).
Proof.
  intros (Hbelow & Hway & Hsk & Hvk & Hck). destruct Hfiles as [Hs Ho]. destruct vk_sk_apart as [Ho1 Ho2].
  pose proof (resolve_scratch base r) as Er. fold cacheRoot ck sk in Er.
  destruct (unzip_files_quiet (scratch_at base r) m (scratch_ends_normal base r) files [] m) as (m3 & Hrun & Hi); [|done|done| |].
  { split; rewrite ?Er; [set_solver| |done|done]. intros q n Hq E. rewrite Hbelow in E; done. }
  { apply Forall_forall. constructor. }
  cbn [app] in Hi.
  assert (Hvk3 : m3 !! vk = None) by by eapply unzip_keeps_version.
  destruct Hbin as (b & Hb & Hbd & Hbp).
  pose proof (in_files _ _ _ _ _ Hi b Hb Hbd) as Hbf. rewrite Er, Hbp in Hbf.
  unfold install. erewrite mbind_quiet.
  2: { unfold wrap, unzip. rewrite Hzip, Hrun. reflexivity. }
  erewrite mbind_quiet.
  2: { unfold attempt, Stat. rewrite syscall_quiet, resolve_local, Er by (done || apply scratch_ends_normal).
       unfold stat. rewrite node_at_ne by (intros [[_ [=]]%app_eq_nil _]%app_eq_nil). rewrite Hbf. reflexivity. }
  cbn [present created is_file negb fst snd].
  assert (Hmove : rename sk vk m3 = (move sk vk m3, Ok tt)).
  { unfold rename. rewrite (node_at_ne _ sk) by (intros [_ [=]]%app_eq_nil).
    rewrite (in_outside _ _ _ _ _ Hi sk Directory); [|right; by rewrite Er|done].
    rewrite bool_decide_false by (intros E; by apply Ho1; rewrite E).
    rewrite bool_decide_false by done. rewrite node_at_ne, Hvk3 by (intros [_ [=]]%app_eq_nil).
    unfold with_parent, vk. rewrite parent_snoc. fold vk.
    replace (node_at m3 ck) with (Some Directory); [done|]. destruct (decide (ck = [])) as [->|Hne]; [done|].
    rewrite node_at_ne in * by done. symmetry. apply (in_outside _ _ _ _ _ Hi); [left; rewrite Er|done].
    intros [l Hl]. apply (f_equal length) in Hl. unfold sk in Hl. rewrite !length_app in Hl. cbn in Hl. lia. }
  erewrite mbind_quiet.
  2: { unfold attempt, Rename. erewrite mbind_quiet; [|unfold attempt, Stat; rewrite syscall_quiet; reflexivity].
       unfold vdir, cacheRoot. rewrite resolve_versionDir by done. fold cacheRoot ck. fold vk.
       unfold stat. rewrite node_at_ne, Hvk3 by (intros [_ [=]]%app_eq_nil). cbn [fst snd].
       rewrite syscall_quiet, Er, Hmove. reflexivity. }
  eexists. split; [reflexivity|]. intros f Hf Hd. cbn [fst]. rewrite move_to by done.
  pose proof (in_files _ _ _ _ _ Hi f Hf Hd) as E. by rewrite Er in E.
Qed.

Lemma below_cache m m1 x q :
  tree m -> more_dirs ck m m1 -> m !! (ck ++ [x]) = None -> m1 !! ((ck ++ [x]) ++ q) = None.
Proof.
  intros Ht Hmore E. destruct (Hmore ((ck ++ [x]) ++ q)) as [->|(_ & Hp & _)].
  - apply tree_nothing_below; [done|by intros [_ [=]]%app_eq_nil|done].
  - apply prefix_length in Hp. rewrite !length_app in Hp. cbn in Hp. lia.
Qed.

Lemma ready_made m m1 :
  fresh base version tag r m -> more_dirs ck m m1 -> node_at m1 ck = Some Directory -> ready (<[sk := Directory]> m1).
Proof.
  intros [Ht Hway Hver Hscr] Hmore Hck. rewrite resolve_scratch in Hscr. destruct vk_sk_apart as [Ho1 Ho2].
  fold cacheRoot ck in Hway, Hver, Hscr. fold vk in Hver. fold sk in Hscr.
  assert (Hskck : ck <> sk).
  { intros E. apply (f_equal length) in E. unfold sk in E. rewrite length_app in E. cbn in E. lia. }
  split_and!.
  - intros q Hq. rewrite lookup_insert_ne; [by eapply below_cache|]. intros E. rewrite <-(app_nil_r sk) in E at 1.
    by apply app_inv_head in E.
  - intros p Hp (d & md & E). apply prefix_parent in Hp as [->|Hp]; [by rewrite lookup_insert_eq in E| |by intros [_ [=]]%app_eq_nil].
    unfold sk in Hp. rewrite parent_snoc in Hp. rewrite lookup_insert_ne in E.
    + apply (Hway p Hp). eapply more_dirs_file; [done|]. by exists d, md.
    + intros <-. destruct Hp as [l Hl]. apply (f_equal length) in Hl. unfold sk in Hl.
      rewrite !length_app in Hl. cbn in Hl. lia.
  - apply lookup_insert_eq.
  - rewrite lookup_insert_ne by (intros E; by apply Ho1; rewrite E).
    pose proof (below_cache m m1 _ [] Ht Hmore Hver) as E. by rewrite app_nil_r in E.
  - destruct (decide (ck = [])) as [->|Hne]; [done|]. rewrite node_at_ne in * by done. by rewrite lookup_insert_ne.
Qed.

Lemma MkdirTemp_quiet randoms m1 :
  m1 !! sk = None -> node_at m1 ck = Some Directory ->
  MkdirTemp cacheRoot scratchPattern (r :: randoms) (quiet m1) = (quiet (<[sk := Directory]> m1), Ok (scratch_at base r)).
Proof.
  intros E Hck. cbn [MkdirTemp]. cbv zeta.
  change (cacheRoot ++ "/" ++ scratchPattern ++ dec (Z.of_N r)) with (scratch_at base r).
  erewrite mbind_quiet.
  2: { unfold attempt. rewrite syscall_quiet, resolve_scratch. fold cacheRoot ck sk. unfold mkdir.
       rewrite node_at_ne, E by (intros [_ [=]]%app_eq_nil). unfold with_parent, sk.
       rewrite parent_snoc, Hck. reflexivity. }
  reflexivity.
Qed.

Lemma extractFrom_installs randoms m :
  fresh base version tag r m ->
  exists m1, extractFrom NewReader (Ok base) (r :: randoms) zip version tag sub (quiet m)
               = (quiet m1, Ok (path_Join [vdir; sub])) /\
  forall f, f ∈ files -> IsDir f = false -> m1 !! (vk ++ parts (Name f)) = Some (created f).
Proof.
  intros Hfr. pose proof Hfr as [Ht Hway Hver Hscr]. rewrite resolve_scratch in Hscr.
  fold cacheRoot ck in Hway, Hver, Hscr. fold vk in Hver. fold sk in Hscr.
  unfold extractFrom. cbn [chromiumCacheRoot rbind]. erewrite mbind_quiet.
  2: { unfold attempt, Stat. rewrite syscall_quiet, resolve_binary by done. unfold stat. cbn [fst snd].
       fold cacheRoot ck. rewrite node_at_ne by (intros [_ [=]]%app_eq_nil).
       change (ck ++ (version ++ "-" ++ tag) :: parts sub) with (ck ++ [version ++ "-" ++ tag] ++ parts sub).
       rewrite app_assoc. fold vk. rewrite tree_nothing_below by (done || intros [_ [=]]%app_eq_nil). reflexivity. }
  cbn [present]. fold cacheRoot vdir.
  destruct (mkdir_all_quiet m (rev ck)) as (m1 & Hrun & Hck & Hmore); rewrite ?rev_involutive in *; [done|].
  erewrite mbind_quiet; [|unfold wrap, MkdirAll; fold ck; rewrite Hrun; reflexivity].
  pose proof (below_cache m m1 _ [] Ht Hmore Hscr) as E. rewrite app_nil_r in E. fold sk in E.
  erewrite mbind_quiet; [|unfold wrap; rewrite MkdirTemp_quiet by done; reflexivity].
  destruct (install_quiet _ (ready_made m m1 Hfr Hmore Hck)) as (m2 & Hin & Hfiles2).
  exists m2. split; [|done]. unfold with_scratch. erewrite mbind_quiet; [|unfold attempt; rewrite Hin; reflexivity].
  reflexivity.
Qed.
End Whole.

(** On a machine where this version was never unpacked, with nothing in
    the way and nobody about, a sound archive that holds the binary is
    extracted: [Extract] returns the binary's path, every file of the archive
    is under the version's directory with its contents and its permissions
    (0644 when the archive has none) less the mask, and from then on [Extract] returns the same path and changes
    nothing, whatever it is given to unpack. *)
Theorem extraction_installs {proc : Process} NewReader zip base version tag sub r randoms files m :
  zip <> [] -> NewReader zip = Ok files -> sound_archive files ->
  (exists f, f ∈ files /\ IsDir f = false /\ parts (Name f) = parts sub) ->
  good_version version tag -> local_name (Clean sub) = true -> fresh base version tag r m ->
  let vdir := versionDir (path_Join [base; "wgturn"%go; "chromium"%go]) version tag in
  exists m1,
    Extract NewReader (Ok base) (r :: randoms) zip version tag sub (quiet m) = (quiet m1, Ok (path_Join [vdir; sub])) /\
    (forall f, f ∈ files -> IsDir f = false ->
       m1 !! resolve (path_Join [vdir; Name f]) =
         Some (File (data_of f) (Z.land (if (Perm f =? 0)%Z then 420 else Perm f) (Z.lnot umask)))) /\
    (forall NewReader' zip' randoms', zip' <> [] ->
       Extract NewReader' (Ok base) randoms' zip' version tag sub (quiet m1) = (quiet m1, Ok (path_Join [vdir; sub]))).
Proof.
  intros Hz Hzip Hs (b & Hb & Hbd & Hbp) Hv Hsub Hfr vdir. unfold vdir.
  destruct (extractFrom_installs NewReader zip base version tag sub Hv Hsub r files Hzip Hs
    ltac:(by exists b) randoms m Hfr) as (m1 & Hrun & Hfiles).
  exists m1. unfold Extract. split; [by destruct zip|]. split.
  - intros f Hf Hd. destruct Hs as [Hs _]. rewrite Forall_forall in Hs. destruct (Hs f Hf) as [Hl _].
    rewrite resolve_binary by done. specialize (Hfiles f Hf Hd). by rewrite <-app_assoc in Hfiles.
  - intros NewReader' zip' randoms' Hz'. destruct zip'; [done|]. apply extractFrom_present; [done..|].
    exists (data_of b), (Z.land (file_mode b) (Z.lnot umask)). rewrite <-Hbp. by apply Hfiles.
Qed.

Definition shell_archive : list zip_File :=
  [mkFile "hs/" true 493 (Ok ([], None)); mkFile "hs/lib/./icu.dat" false 0 (Ok ("icu"%go, None));
   mkFile "hs/hs" false 493 (Ok ("ELF"%go, None))].

Lemma extraction_installs_witness :
  exists m1, Extract (proc:=home) (fun _ => Ok shell_archive) (Ok "/cache"%go) [7%N] "PK" "1.0" "linux" "hs/hs" (quiet ∅)
             = (quiet m1, Ok "/cache/wgturn/chromium/1.0-linux/hs/hs"%go) /\
  m1 !! ["cache"%go; "wgturn"%go; "chromium"%go; "1.0-linux"%go; "hs"%go; "hs"%go] = Some (File "ELF" 493) /\
  m1 !! ["cache"%go; "wgturn"%go; "chromium"%go; "1.0-linux"%go; "hs"%go; "lib"%go; "icu.dat"%go] = Some (File "icu" 420).
Proof.
  destruct (extraction_installs (proc:=home) (fun _ => Ok shell_archive) "PK" "/cache" "1.0" "linux" "hs/hs" 7 []
    shell_archive ∅) as (m1 & Hrun & Hf & _).
  - discriminate.
  - reflexivity.
  - split.
    + repeat constructor; try discriminate; by eexists.
    + repeat constructor; intros Hd [l Hl]; vm_compute in Hd, Hl; discriminate.
  - exists (mkFile "hs/hs" false 493 (Ok ("ELF"%go, None))). split; [unfold shell_archive; set_solver|by split; vm_compute].
  - split; [by apply (bool_decide_unpack _); vm_compute|reflexivity].
  - reflexivity.
  - split; [intros p c _ [n Hn]|intros p _ (d & md & Hn)|apply lookup_empty|apply lookup_empty].
    all: destruct (lookup_empty_Some _ _ Hn).
  - assert (Hin : forall i f, shell_archive !! i = Some f -> f ∈ shell_archive) by (intros i f; apply list_elem_of_lookup_2).
    assert (Hbin := Hf _ (Hin 2%nat _ eq_refl) eq_refl). assert (Hdat := Hf _ (Hin 1%nat _ eq_refl) eq_refl).
    match type of Hbin with m1 !! ?k = _ => replace k with
      ["cache"%go; "wgturn"%go; "chromium"%go; "1.0-linux"%go; "hs"%go; "hs"%go] in Hbin by (vm_compute; reflexivity) end.
    match type of Hdat with m1 !! ?k = _ => replace k with
      ["cache"%go; "wgturn"%go; "chromium"%go; "1.0-linux"%go; "hs"%go; "lib"%go; "icu.dat"%go] in Hdat by (vm_compute; reflexivity) end.
    exists m1. split; [exact Hrun|]. split; [exact Hbin|exact Hdat].
Defined.

(** A version directory without its binary is never repaired: [os.Rename]
    does not replace a directory, and what was unpacked is removed again. *)
Lemma stale_version_blocks :
  let stale : fs := list_to_map [(["cache"%go], Directory); (["cache"%go; "wgturn"%go], Directory);
    (["cache"%go; "wgturn"%go; "chromium"%go], Directory);
    (["cache"%go; "wgturn"%go; "chromium"%go; "1.0-linux"%go], Directory)] in
  let '(w', x) := Extract (proc:=home) (fun _ => Ok shell_archive) (Ok "/cache"%go) [7%N] "PK" "1.0" "linux" "hs/hs" (quiet stale) in
  x = Err (RenameScratch EEXIST) /\ map_to_list (w_fs w') = map_to_list stale.
Proof. vm_compute. split; reflexivity. Qed.
